(* ===== verification/_CoqProject ===== *)
-Q . S2P
Prelude.v
HashMix.v
Wire.v
StdList.v
Binary64.v
Rounding.v
Item.v
Message.v
Codec.v
BinaryCodec.v
Protobuf.v
Io.v
Framing.v
LruCache.v
ShardedCache.v
CacheMetrics.v
ExposureStore.v
Heap.v
Scorer.v
Noise.v
Handler.v
Concurrent.v
Interleaving.v
Responses.v
ConcurrentResponses.v
ThreadPool.v
Tasks.v
ConnectionRegistry.v
Server.v
Serve.v
Service.v
Connection.v
Sdk.v
Text.v
Log.v
Args.v
Fd.v
UnixSocket.v
Daemon.v
Cli.v
ClientMain.v
App.v
Latency.v
Workload.v
Bench.v
CodecBench.v
CacheBench.v
Baseline.v
