(* ===== verification/Prelude.v ===== *)
(** * A verified model of the local recommendation daemon

    The program is a daemon (lrdd) that caches items, ranks them for a signal the client
    sends, and answers over a UNIX-domain socket, under compliance limits on how often an
    item may be shown; a client library (connection and SDK); a command line client; and
    three benchmarks, three probes of the machine and an example application beside them. Paths below are under src/.

    ** How the program is put together

    A request travels: client call ([client/connection.cpp], [sdk/client.cpp]) - codec
    ([proto/codec.cpp] over [proto/wire.cpp]) - frame ([proto/framing.cpp]) - socket loops
    ([net/io.cpp]) - a worker's connection loop ([daemon/server.cpp], on a thread of
    [concurrency/thread_pool.cpp], registered in [daemon/connection_registry.cpp]) -
    handler ([daemon/handler.cpp]) - cache ([cache/*.hpp]), ranking ([rank/scorer.cpp]),
    policy ([policy/exposure_store.cpp]), published statistics ([privacy/noise.cpp]) - and
    back. [daemon/main.cpp] and [client/main.cpp] are the two programs;
    [net/unix_socket.cpp] and [common/fd.cpp] set up and own the sockets, and
    [common/log.cpp] is the log. The programs of bench/ drive the daemon through the client
    library ([main.cpp]), the cache ([cache_bench.cpp]) or a codec ([codec_bench.cpp]).

    ** Files

    - Prelude: machine integers, bytes, byte strings, hint databases, tactics, shared
      lemmas.
    - HashMix ([hash_mix], the shard mask), StdList ([std::list] with iterators and the map
      of iterators beside it), Binary64 ([double] as its bit pattern, arithmetic through
      [spec_float]), Rounding (rounding facts), Heap ([std::push_heap], [std::pop_heap]).
    - Item, Message: items, signals, requests and responses.
    - Wire, Codec, BinaryCodec, Protobuf: byte writer and reader; the codec interface as a
      class with its laws; the binary codec, the protobuf codec and the factory, with their
      instances of the laws.
    - Io, Framing: [read_exact], [read_some], [write_all] against a script of system-call
      results; length-prefixed frames over any codec.
    - LruCache, ShardedCache: list, index and metrics of [LruCache]; [LockedCache] and
      [ShardedCache] over it; CacheMetrics: what their counters count.
    - ExposureStore: exposure cap, sliding-window frequency limit, eviction, in both modes.
    - Scorer: eligibility, relevance, the bounded heap of candidates, greedy selection.
    - Noise: seeding, the Mersenne twister, Laplace noise, rounding and suppression.
    - Handler: [Handler::handle] and everything below it; Responses: what the handler
      promises to the connection loop.
    - Concurrent, Interleaving: the same handler as programs of atomic operations (one per
      mutex or atomic the code takes), and any number of requests interleaved at them;
      ConcurrentResponses: the promises of Responses for interleaved requests.
    - ThreadPool, ConnectionRegistry, Server: the concurrent parts as events on an explicit
      state, all interleavings; Tasks: the tasks of the pool on the heap, and futures;
      Serve: the loop of one connection; Service: any number of connections served at once
      over the interleaved handler, from bytes to bytes; Daemon: construction, destruction
      and signals of the server, and [main] of the daemon.
    - Connection, Sdk: the client library, its connection pool and retries.
    - Text, Args, Cli, ClientMain: the command lines and the client program with what it
      prints; Fd, UnixSocket: descriptors and sockets; Log: log lines and the version text.
    - Latency, Workload, Bench, CacheBench, CodecBench: the benchmarks; Baseline: the bare
      probes; App: the example.

    ** How code becomes definitions

    A class with state is a record and a method a function from the state to its result and
    the new state, with the names of the code; an out-parameter is an argument and a
    result. Exceptions and error codes are values of an option, a sum or an error type.
    Unsigned arithmetic wraps explicitly ([wrap], [incr64], [to_u64], [to_i64]). A [double]
    is its 64 bits. A [std::string] is a list of bytes. A method that holds its mutex
    throughout is one atomic step, so that a run of several threads is a sequence of steps;
    condition variables, notifications made outside the lock and blocked threads are
    explicit in ThreadPool and Server. In Handler a whole request is one step, which is how
    its functional theorems read; in Concurrent it is a program of its atomic operations,
    [solo_run_is_handle] says that the two agree when it runs alone, and Interleaving proves
    the limits and the answers for every interleaving. In Serve and Connection other
    connections may change the handler arbitrarily between two messages; Service replaces
    that by the connections themselves, and [session_alone_is_serve_loop] says that the
    loop of Serve is one of its schedules.

    Parameters, because the standard or the system does not fix them: [exp], [pow] and
    [log], [strtod], the result of [llround] out of range, clock readings, random_device
    values and random draws, the results of system calls, the protobuf library, the digits
    of [printf]'s %f, the order [std::sort] gives equal keys, and what other threads do.

    ** Fuel and bounds

    The socket loops recurse on the script of results, of which each call consumes one. The
    connection loop's fuel is one more than the bytes that can arrive, and
    [connection_refines_answers] proves it enough; [split] has as much fuel as there are
    characters, proved enough in [split_loop_fields]. [accept] and [connect] retry as long
    as they are interrupted: they take fuel and their lemmas say that running out means that
    many interruptions. ThreadPool, Tasks and Server count the steps left ([work_left],
    [steps_left]), Interleaving bounds the steps of a request ([step_bound]), Service the
    turns of a connection by its input ([input_turns]), Baseline those of a probe
    ([turns_after]). Signed
    overflow, where it can happen at all, is an outcome of its own ([Overflow] in Args,
    [None] in Cli), excluded by a hypothesis, or recorded as a finding.

    ** What is shown

    - The daemon end to end, for any number of clients and any bytes they send:
      [service_shows_capped], [service_answers_in_order], [service_serves_to_end],
      [session_alone_is_serve_loop].
    - Compliance, for every interleaving of requests: [concurrent_cap_respected],
      [concurrent_frequency_respected], with the estimate computed in binary64, and what the
      second needs of the clock ([frequency_limit_needs_order]); for sequences of requests
      [recommendations_respect_cap], [recommendations_respect_frequency]; for the store
      [exposure_cap_respected], [frequency_limit_respected], [check_predicts_reserve],
      [tracked_never_exceeds], [fail_open_never_full]; [dry_run_changes_nothing].
    - Concurrency of requests: [concurrent_recommend_sound], [concurrent_get_linearizable],
      [concurrent_counters_account], [concurrent_responses_wellformed], [call_finishes].
    - Recommendation: [recommend_sound], [retrieval_keeps_best], [select_refines_greedy],
      [select_consults_and_fills], [selection_order_irrelevant], and what a NaN score does
      to the last ([nan_score_order_matters]).
    - Protocol: round trips of both directions, canonical acceptance, rejection of truncated
      and extended input, frame sizes, transport over any splitting of the bytes, allocation
      bound; the two codecs agree ([protobuf_matches_binary]).
    - Cache: refinement of a recency list, projection to shards, [get_returns_last_put],
      [cache_metrics_account].
    - Statistics: shape and stability of published values, counters.
    - Daemon: tasks run once and in order, no lost wakeup, shutdown terminates, submitted
      futures settle ([submitted_futures_settle]), the registry tracks the connections, a
      connection is served as a plain list of messages, every request is answered by a
      well-formed response; [daemon_releases_everything],
      [daemon_exit_code], [signal_stops_server].
    - Client: a connection out of step is not used again, put then get end to end, pool
      accounting, a recording recommendation is sent at most once, bounded retries.
    - Start-up: ownership of descriptors, [bind_is_safe], the command lines,
      [client_main_exit], [slate_printed], [log_lines_whole].
    - Tools: [summary_observes], [median_splits_runs], [key_in_range], [thread_latencies],
      [cache_bench_counts], [codec_bench_decodes], how the programs end
      ([cache_main_ends], [codec_main_defined], [no_daemon_exits_zero],
      [app_follows_script]), a false alarm of the load generator ([bench_false_alarm]), and
      the probes ([probes_make_every_round_trip], [timer_reports_overshoot]).

    ** Not modelled

    The protobuf library (a class with its documented contract, kept by a small concrete
    serialisation); usage texts, the log messages of the daemon and the tables of the
    benchmarks (the client and the example do print here); the memory order of relaxed
    atomics (each access is one step of a sequentially consistent run); exhaustion of
    memory; the tests, the scripts and the build. *)
From Stdlib Require Import ZArith Lia List Sorted.
From Stdlib.Strings Require Byte String.
From stdpp Require Import base list option numbers.
Import ListNotations.
Export (notations) String.
#[global] Set Default Goal Selector "!".
#[global] Open Scope Z_scope.

(** * Machine integers *)

(** A [w]-bit unsigned integer is a [Z] in [0, 2^w); [wrap w] is the
    conversion every C++ unsigned operation ends with. *)
Definition wrap (w z : Z) : Z := z mod 2 ^ w.
Definition fits (w z : Z) : Prop := 0 <= z < 2 ^ w.

(** [static_cast<std::uint64_t>] and [static_cast<std::int64_t>]. *)
Definition to_u64 (z : Z) : Z := wrap 64 z.
Definition to_i64 (z : Z) : Z :=
  let u := wrap 64 z in if u <? 2 ^ 63 then u else u - 2 ^ 64.
Definition fits_i64 (z : Z) : Prop := - 2 ^ 63 <= z < 2 ^ 63.
#[global] Arguments to_u64 : simpl never.
#[global] Arguments to_i64 : simpl never.

(** * Bytes and byte strings *)

(** [std::byte] is the 256-element type, a [std::string] (or a byte buffer) a
    list of them. *)
Abbreviation byte := Byte.byte (only parsing).
Abbreviation bstring := (list Byte.byte) (only parsing).

Definition byte_to_Z (b : byte) : Z := Z.of_N (Byte.to_N b).
Definition byte_of_Z (z : Z) : byte :=
  match Byte.of_N (Z.to_N (wrap 8 z)) with Some b => b | None => Byte.x00 end.

(** String literals of the source, as byte strings. *)
Definition str (s : String.string) : bstring := String.list_byte_of_string s.
Arguments str s%_string_scope.

(** [size()] of a container, as the [size_t] the code compares. *)
Definition zlen {A} (l : list A) : Z := Z.of_nat (length l).

#[global] Instance fits_dec w z : Decision (fits w z).
Proof. unfold fits. apply _. Defined.
#[global] Instance fits_i64_dec z : Decision (fits_i64 z).
Proof. unfold fits_i64. apply _. Defined.
#[global] Instance byte_eq_dec : EqDecision byte := Byte.byte_eq_dec.

(** * Automation *)

(** Facts about widths and bytes. *)
Create HintDb width discriminated.
(** Equations of readers and writers. *)
Create HintDb wire.

(** Splits conjunctions of hypotheses and unfolds the width predicates. *)
Ltac widths := unfold fits, fits_i64, zlen in *; destruct_and?; try lia.

(** Case analysis on every boolean comparison in sight. *)
Ltac bcases :=
  repeat match goal with
  | H : (_ && _)%bool = true |- _ => apply andb_true_iff in H; destruct H
  | H : (_ || _)%bool = false |- _ => apply orb_false_iff in H; destruct H
  | H : negb _ = true |- _ => apply negb_true_iff in H
  | H : negb _ = false |- _ => apply negb_false_iff in H
  | H : (_ <? _) = true |- _ => apply Z.ltb_lt in H
  | H : (_ <? _) = false |- _ => apply Z.ltb_ge in H
  | H : (_ <=? _) = true |- _ => apply Z.leb_le in H
  | H : (_ <=? _) = false |- _ => apply Z.leb_gt in H
  | H : (_ =? _) = true |- _ => apply Z.eqb_eq in H
  | H : (_ =? _) = false |- _ => apply Z.eqb_neq in H
  end.

(** Splits on the scrutinee of the [if] or [match] under the goal's head. *)
Ltac split_if :=
  match goal with
  | |- context [if ?b then _ else _] => destruct b eqn:?
  end.

(** * Lemmas on widths *)

Lemma wrap_fits w z : 0 <= w -> fits w (wrap w z).
Proof. intros Hw. unfold fits, wrap. apply Z.mod_pos_bound. lia. Qed.

Lemma wrap_small w z : fits w z -> wrap w z = z.
Proof. intros H. apply Z.mod_small, H. Qed.

Lemma wrap_wrap w z : 0 <= w -> wrap w (wrap w z) = wrap w z.
Proof. intros Hw. by apply wrap_small, wrap_fits. Qed.

Lemma wrap_add_l w a b : wrap w (wrap w a + b) = wrap w (a + b).
Proof. unfold wrap. by rewrite Zplus_mod_idemp_l. Qed.

Lemma wrap_add_r w a b : wrap w (a + wrap w b) = wrap w (a + b).
Proof. unfold wrap. by rewrite Zplus_mod_idemp_r. Qed.

Lemma fits_mono w w' z : 0 <= w <= w' -> fits w z -> fits w' z.
Proof.
  intros Hw [H0 H1]. split; [done|]. eapply Z.lt_le_trans; [done|].
  apply Z.pow_le_mono_r; lia.
Qed.

Lemma to_i64_fits z : fits_i64 (to_i64 z).
Proof.
  unfold to_i64, fits_i64. pose proof (wrap_fits 64 z) as H. unfold fits in H.
  change (2 ^ 64) with (2 * 2 ^ 63) in *. case_match; bcases; lia.
Qed.

Lemma to_i64_to_u64 z : fits_i64 z -> to_i64 (to_u64 z) = z.
Proof.
  unfold fits_i64, to_u64, to_i64. intros Hz. rewrite wrap_wrap by lia.
  unfold wrap. destruct (Z.ltb_spec z 0) as [Hneg|Hpos].
  - assert (Heq : z mod 2 ^ 64 = z + 2 ^ 64).
    { symmetry. apply (Z.mod_unique_pos _ _ (-1)); change (2 ^ 64) with (2 * 2 ^ 63); lia. }
    rewrite Heq. change (2 ^ 64) with (2 * 2 ^ 63). case_match; bcases; lia.
  - rewrite Z.mod_small by (change (2 ^ 64) with (2 * 2 ^ 63); lia).
    case_match; bcases; lia.
Qed.

Lemma to_u64_to_i64 z : fits 64 z -> to_u64 (to_i64 z) = z.
Proof.
  intros Hz. unfold to_u64, to_i64. rewrite (wrap_small 64 z) by done.
  unfold fits in Hz. case_match; bcases.
  - by apply wrap_small.
  - unfold wrap. symmetry. apply (Z.mod_unique_pos _ _ (-1)); lia.
Qed.

Lemma to_u64_fits z : fits 64 (to_u64 z).
Proof. by apply wrap_fits. Qed.

(** * Lemmas on bytes *)

Lemma byte_to_Z_fits b : fits 8 (byte_to_Z b).
Proof.
  unfold fits, byte_to_Z. pose proof (Byte.to_N_bounded b).
  change (2 ^ 8) with 256. lia.
Qed.

Lemma byte_to_of_Z z : byte_to_Z (byte_of_Z z) = wrap 8 z.
Proof.
  unfold byte_to_Z, byte_of_Z. pose proof (wrap_fits 8 z) as H. unfold fits in H.
  change (2 ^ 8) with 256 in H.
  destruct (Byte.of_N (Z.to_N (wrap 8 z))) eqn:E.
  - apply Byte.to_of_N in E. rewrite E. lia.
  - apply Byte.of_N_None_iff in E. lia.
Qed.

Lemma byte_of_to_Z b : byte_of_Z (byte_to_Z b) = b.
Proof.
  unfold byte_of_Z. rewrite wrap_small by apply byte_to_Z_fits.
  unfold byte_to_Z. rewrite N2Z.id, Byte.of_to_N. done.
Qed.

Lemma byte_to_Z_inj b1 b2 : byte_to_Z b1 = byte_to_Z b2 -> b1 = b2.
Proof. intros H. by rewrite <- (byte_of_to_Z b1), H, byte_of_to_Z. Qed.

#[export] Hint Resolve wrap_fits to_u64_fits to_i64_fits byte_to_Z_fits : width.

(** * Lemmas on lists *)

Lemma zlen_app {A} (l1 l2 : list A) : zlen (l1 ++ l2) = zlen l1 + zlen l2.
Proof. unfold zlen. rewrite length_app. lia. Qed.

Lemma zlen_nonneg {A} (l : list A) : 0 <= zlen l.
Proof. unfold zlen. lia. Qed.

Lemma zlen_nil_iff {A} (l : list A) : zlen l = 0 <-> l = [].
Proof. unfold zlen. destruct l; simpl; split; intros; [done|done|lia|done]. Qed.

(** Sorted sequences of times. *)
Lemma sorted_const (x : Z) l : (forall y, y ∈ l -> y = x) -> StronglySorted Z.le l.
Proof.
  induction l as [|y l IH]; intros Hl; constructor.
  - apply IH. intros z Hz. apply Hl. by right.
  - apply list.Forall_forall. intros z Hz. rewrite (Hl y), (Hl z); [lia|by right|by left].
Qed.

Lemma sorted_app (l1 l2 : list Z) :
  StronglySorted Z.le l1 -> StronglySorted Z.le l2 ->
  (forall x y, x ∈ l1 -> y ∈ l2 -> x <= y) -> StronglySorted Z.le (l1 ++ l2).
Proof.
  intros H1 H2 Hle. induction H1 as [|x l1 _ IH Hx]; [done|]. cbn. constructor.
  - apply IH. intros a b Ha Hb. apply Hle; [by right|done].
  - apply Forall_app. split; [done|]. apply list.Forall_forall. intros y Hy. apply Hle; [by left|done].
Qed.

(** Sums. *)
Fixpoint zsum (l : list Z) : Z := match l with [] => 0 | x :: l => x + zsum l end.

Lemma zsum_app l1 l2 : zsum (l1 ++ l2) = zsum l1 + zsum l2.
Proof. induction l1 as [|x l1 IH]; cbn; lia. Qed.

Lemma zsum_insert {A} (f : A -> Z) (l : list A) i x y :
  l !! i = Some x -> zsum (map f (<[i := y]> l)) = zsum (map f l) - f x + f y.
Proof.
  revert i. induction l as [|z l IH]; intros [|i] E; cbn in *; try done; [injection E as ->; lia|].
  specialize (IH i E). unfold insert in *. lia.
Qed.

Lemma zsum_le {A} (f g : A -> Z) (l : list A) :
  (forall x, x ∈ l -> f x <= g x) -> zsum (map f l) <= zsum (map g l).
Proof.
  intros H. induction l as [|x l IH]; cbn; [done|].
  assert (f x <= g x) by (apply H; left). assert (zsum (map f l) <= zsum (map g l)); [|lia].
  apply IH. intros y Hy. apply H. by right.
Qed.

Lemma zsum_add {A} (f g : A -> Z) (l : list A) :
  zsum (map (fun x => f x + g x) l) = zsum (map f l) + zsum (map g l).
Proof. induction l as [|x l IH]; cbn; lia. Qed.

#[export] Instance zsum_proper : Proper (Permutation ==> eq) zsum.
Proof. intros l l'. induction 1; cbn; lia. Qed.

Lemma zsum_concat {A} (f : A -> Z) (ls : list (list A)) :
  zsum (map f (concat ls)) = zsum (map (fun l => zsum (map f l)) ls).
Proof. induction ls as [|l ls IH]; [done|]. cbn. by rewrite map_app, zsum_app, IH. Qed.

(** A sum over the indices of a list. *)
Lemma zsum_lookup {A} (f : A -> Z) (l : list A) :
  zsum (map (fun i => from_option f 0 (l !! i)) (seq 0 (length l))) = zsum (map f l).
Proof.
  f_equal. apply list_eq. intros i. rewrite (list_lookup_fmap _ (seq 0 (length l))), (list_lookup_fmap f l).
  destruct (l !! i) as [x|] eqn:E.
  - rewrite lookup_seq_lt by (by eapply lookup_lt_Some). cbn. by rewrite E.
  - rewrite lookup_seq_ge; [done|]. by apply lookup_ge_None.
Qed.

Lemma zsum_opp {A} (f : A -> Z) (l : list A) : zsum (map (fun x => - f x) l) = - zsum (map f l).
Proof. induction l as [|x l IH]; cbn; lia. Qed.

(** A map of a function that always succeeds. *)
Lemma mapM_total {A B} (f : A -> option B) (P : A -> B -> Prop) l :
  (forall a, exists b, f a = Some b /\ P a b) -> exists bs, mapM f l = Some bs /\ Forall2 P l bs.
Proof.
  intros Hf. induction l as [|a l (bs & E & IH)]; [exists []; by split; [|constructor]|].
  destruct (Hf a) as (b & Eb & Pb). exists (b :: bs). split; [|by constructor].
  apply mapM_Some. constructor; [done|]. by apply mapM_Some.
Qed.
