(* ===== verification/HashMix.v ===== *)
(** [lrd::hash_mix] (include/lrd/common/hash_mix.hpp): the splitmix64 finalizer
    that every sharded structure applies before masking, and the power-of-two
    mask itself ([ShardedCache::shard_index], [ExposureStore::shard_for]).

    The finalizer is a permutation of the 64-bit words: [hash_unmix] inverts it
    step by step, so mixing never merges two keys. *)
From stdpp Require Import base numbers.
From S2P Require Import Prelude.

(** One [value ^= value >> k] and one [value *= c] of the finalizer. *)
Definition xorshift (k value : Z) : Z := Z.lxor value (Z.shiftr value k).
Definition mul64 (c value : Z) : Z := wrap 64 (value * c).

Definition hash_mix (hash : Z) : Z :=
  let value := xorshift 30 hash in
  let value := mul64 0xBF58476D1CE4E5B9 value in
  let value := xorshift 27 value in
  let value := mul64 0x94D049BB133111EB value in
  xorshift 31 value.

(** [hash_mix(hash) & mask_], where [mask_ = shard_count - 1]. *)
Definition shard_mask (shard_count hash : Z) : Z :=
  Z.land (hash_mix hash) (shard_count - 1).

(** [std::has_single_bit], the constructors' test that a shard count is a power
    of two. *)
Definition has_single_bit (n : Z) : bool := (0 <? n) && (Z.land n (n - 1) =? 0).

(** The inverse of [hash_mix]; it exists only to prove injectivity. *)
Definition unxorshift (k value : Z) : Z :=
  Z.lxor value (Z.lxor (Z.shiftr value k) (Z.shiftr value (2 * k))).
Definition hash_unmix (value : Z) : Z :=
  let value := unxorshift 31 value in
  let value := mul64 0x319642B2D24D8EC3 value in
  let value := unxorshift 27 value in
  let value := mul64 0x96DE1B173F119089 value in
  unxorshift 30 value.

Lemma shiftr_fits w k z : 0 <= w -> 0 <= k -> fits w z -> fits w (Z.shiftr z k).
Proof.
  unfold fits. intros Hw Hk [H0 H1]. rewrite Z.shiftr_div_pow2 by done.
  assert (0 < 2 ^ k) by lia. split; [apply Z.div_pos; lia|].
  apply Z.div_lt_upper_bound; nia.
Qed.

Lemma lxor_fits w a b : 0 <= w -> fits w a -> fits w b -> fits w (Z.lxor a b).
Proof.
  intros Hw Ha Hb. unfold fits in *.
  assert (Hnn : 0 <= Z.lxor a b) by (apply Z.lxor_nonneg; lia).
  split; [done|]. destruct (Z.eq_dec (Z.lxor a b) 0) as [->|Hne]; [lia|].
  apply Z.log2_lt_pow2; [lia|].
  assert (Hw0 : 0 < w).
  { destruct (Z.eq_dec w 0) as [->|]; [|lia]. simpl in *.
    assert (a = 0) as -> by lia. assert (b = 0) as -> by lia. done. }
  eapply Z.le_lt_trans; [apply Z.log2_lxor; lia|].
  assert (forall x, 0 <= x < 2 ^ w -> Z.log2 x < w) as Hlog.
  { intros x Hx. destruct (Z.eq_dec x 0) as [->|]; [done|].
    apply Z.log2_lt_pow2; lia. }
  pose proof (Hlog a Ha). pose proof (Hlog b Hb). lia.
Qed.

Lemma xorshift_fits k z : 0 <= k -> fits 64 z -> fits 64 (xorshift k z).
Proof. intros Hk Hz. by apply lxor_fits, shiftr_fits. Qed.

Lemma mul64_fits c z : fits 64 (mul64 c z).
Proof. by apply wrap_fits. Qed.

Lemma unxorshift_xorshift k z :
  0 <= k -> 64 <= 3 * k -> fits 64 z -> unxorshift k (xorshift k z) = z.
Proof.
  intros Hk H3 Hz. unfold unxorshift, xorshift.
  rewrite !Z.shiftr_lxor, !Z.shiftr_shiftr by lia.
  assert (Z.shiftr z (k + 2 * k) = 0) as ->.
  { rewrite Z.shiftr_div_pow2 by lia. apply Z.div_small. destruct Hz as [H0 H1].
    split; [done|]. eapply Z.lt_le_trans; [done|]. apply Z.pow_le_mono_r; lia. }
  replace (k + k) with (2 * k) by lia.
  rewrite Z.lxor_0_r. apply Z.bits_inj. intros n. rewrite !Z.lxor_spec.
  by destruct (Z.testbit z n), (Z.testbit (Z.shiftr z k) n),
    (Z.testbit (Z.shiftr z (2 * k)) n).
Qed.

Lemma mul64_inv c c' z :
  wrap 64 (c * c') = 1 -> fits 64 z -> mul64 c' (mul64 c z) = z.
Proof.
  unfold mul64, wrap. intros Hc Hz. rewrite Zmult_mod_idemp_l, <- Z.mul_assoc.
  rewrite <- Zmult_mod_idemp_r, Hc, Z.mul_1_r. by apply wrap_small.
Qed.

#[export] Hint Resolve xorshift_fits mul64_fits : width.

Lemma hash_unmix_mix h : fits 64 h -> hash_unmix (hash_mix h) = h.
Proof.
  intros Hh. unfold hash_unmix, hash_mix.
  assert (Hm : forall c z, fits 64 (mul64 c z)) by (intros; apply mul64_fits).
  assert (Hx : forall k, 0 <= k -> fits 64 (xorshift k h))
    by (intros; by apply xorshift_fits).
  rewrite (unxorshift_xorshift 31) by (lia || apply Hm).
  rewrite mul64_inv by (reflexivity || (apply xorshift_fits; [lia|apply Hm])).
  rewrite (unxorshift_xorshift 27) by (lia || apply Hm).
  rewrite mul64_inv by (reflexivity || (apply Hx; lia)).
  by rewrite unxorshift_xorshift by (lia || done).
Qed.

Lemma hash_mix_fits h : fits 64 h -> fits 64 (hash_mix h).
Proof. intros Hh. unfold hash_mix. apply xorshift_fits; [lia|]. apply mul64_fits. Qed.

Lemma has_single_bit_pow2 n : has_single_bit n = true -> exists k, 0 <= k /\ n = 2 ^ k.
Proof.
  unfold has_single_bit. intros H. bcases. exists (Z.log2 n).
  split; [apply Z.log2_nonneg|].
  pose proof (Z.log2_spec n ltac:(lia)) as [Hlo Hhi].
  destruct (Z.eq_dec n (2 ^ Z.log2 n)) as [|Hne]; [done|]. exfalso.
  assert (Hb : Z.testbit (Z.land n (n - 1)) (Z.log2 n) = true).
  { rewrite Z.land_spec, Z.bit_log2 by lia. simpl.
    assert (Z.log2 (n - 1) = Z.log2 n) as <-.
    { apply Z.log2_unique; [apply Z.log2_nonneg|lia]. }
    apply Z.bit_log2. pose proof (Z.log2_nonneg n).
    assert (0 < 2 ^ Z.log2 n) by lia. lia. }
  rewrite H0 in Hb. by rewrite Z.testbit_0_l in Hb.
Qed.

Lemma has_single_bit_of_pow2 k : 0 <= k -> has_single_bit (2 ^ k) = true.
Proof.
  intros Hk. unfold has_single_bit. assert (0 < 2 ^ k) by lia.
  replace (2 ^ k - 1) with (Z.ones k) by (rewrite Z.ones_equiv; lia).
  rewrite Z.land_ones, Z.mod_same by lia.
  apply andb_true_intro. split; [by apply Z.ltb_lt|done].
Qed.

(** The mask is the remainder modulo a power-of-two shard count. *)
Lemma shard_mask_mod n h : has_single_bit n = true -> shard_mask n h = hash_mix h mod n.
Proof.
  intros (k & Hk & ->)%has_single_bit_pow2. unfold shard_mask.
  replace (2 ^ k - 1) with (Z.ones k) by (rewrite Z.ones_equiv; lia).
  by apply Z.land_ones.
Qed.

Lemma shard_mask_range n h : has_single_bit n = true -> 0 <= shard_mask n h < n.
Proof.
  intros Hn. rewrite shard_mask_mod by done. apply Z.mod_pos_bound.
  unfold has_single_bit in Hn. bcases. lia.
Qed.

(** The mixing step loses nothing: [hash_mix] is injective on 64-bit words, so two
    distinct item ids are never identified before the mask picks a shard. *)
Theorem hash_mix_injective (h1 h2 : Z) :
  fits 64 h1 -> fits 64 h2 -> hash_mix h1 = hash_mix h2 -> h1 = h2.
Proof.
  intros H1 H2 Heq. by rewrite <- (hash_unmix_mix h1), Heq, hash_unmix_mix.
Qed.

Lemma hash_mix_injective_witness :
  hash_mix 8 = hash_mix 8 /\ (8 = 8)%Z.
Proof. split; [reflexivity|]. apply (hash_mix_injective 8 8); done. Defined.
