(* ===== verification/Wire.v ===== *)
(** The byte-level layer (include/lrd/proto/wire.hpp, src/proto/wire.cpp):
    [ByteWriter], which appends big-endian integers and length-prefixed strings
    to a buffer, and [ByteReader], which reads them back with a sticky failure
    flag.

    A writer operation is a function from the buffer to the extended buffer; a
    reader operation is a state-passing computation over the record [ByteReader],
    composed with the [let*] notation of [reader_scope].

    The lemmas are about three judgements that compose along [let*]:
    [reads c bs a] (reader [c] takes exactly the bytes [bs], returns [a], and
    fails on every strict prefix of [bs]), [inverts c R] (a result [a] that [c]
    accepts and the bytes it used are related by [R]) and [sticky c] (a failed
    reader stays where it is). *)
From stdpp Require Import base list option numbers.
From S2P Require Import Prelude.

(** * ByteWriter *)

Abbreviation ByteBuffer := (list Byte.byte) (only parsing).

(** The loop of [append_be]: byte [i] of [width] is [(value >> shift) & 0xFF]
    with [shift = (width - 1 - i) * 8]. *)
Definition be_byte (width : nat) (value : Z) (i : nat) : byte :=
  byte_of_Z (Z.land (Z.shiftr value (Z.of_nat (width - 1 - i) * 8)) 0xFF).
Definition append_be (width : nat) (value : Z) (out : ByteBuffer) : ByteBuffer :=
  fold_left (fun out i => out ++ [be_byte width value i]) (seq 0 width) out.

Definition write_u8 (value : Z) (out : ByteBuffer) : ByteBuffer := out ++ [byte_of_Z value].
Definition write_u16 (value : Z) (out : ByteBuffer) : ByteBuffer := append_be 2 value out.
Definition write_u32 (value : Z) (out : ByteBuffer) : ByteBuffer := append_be 4 value out.
Definition write_u64 (value : Z) (out : ByteBuffer) : ByteBuffer := append_be 8 value out.
Definition write_bytes (value : ByteBuffer) (out : ByteBuffer) : ByteBuffer := out ++ value.

(** [static_cast<std::uint32_t>(value.size())], then the bytes. *)
Definition write_string (value : bstring) (out : ByteBuffer) : ByteBuffer :=
  write_u32 (wrap 32 (zlen value)) out ++ value.

(** * ByteReader *)

Record ByteReader := MkReader { data_ : ByteBuffer; pos_ : nat; failed_ : bool }.

Definition reader_of (body : ByteBuffer) : ByteReader := MkReader body 0 false.

Definition remaining (r : ByteReader) : nat := length (data_ r) - pos_ r.
Definition exhausted (r : ByteReader) : bool := Nat.eqb (remaining r) 0.

(** Reader computations, and their sequencing. *)
Definition Reader (A : Type) : Type := ByteReader -> A * ByteReader.
Definition rret {A} (a : A) : Reader A := fun r => (a, r).
Definition rbind {A B} (c : Reader A) (k : A -> Reader B) : Reader B :=
  fun r => let '(a, r') := c r in k a r'.

Declare Scope reader_scope.
Delimit Scope reader_scope with reader.
Notation "'let*' x := c 'in' k" := (rbind c (fun x => k))
  (at level 10, x name, c at level 200, k at level 200) : reader_scope.
Open Scope reader_scope.

(** [need]: the only place the failure flag is set. *)
Definition need (count : Z) : Reader bool := fun r =>
  if failed_ r then (false, r)
  else if Z.of_nat (remaining r) <? count
       then (false, MkReader (data_ r) (pos_ r) true)
       else (true, r).

(** [pos_ += count], after a successful [need count]. *)
Definition advance (count : nat) : Reader ByteBuffer := fun r =>
  (take count (drop (pos_ r) (data_ r)), MkReader (data_ r) (pos_ r + count) (failed_ r)).

(** [load_be<T>]: [value = (value << 8) | byte], truncated to the width of [T]. *)
Definition load_be (width : nat) (bytes : ByteBuffer) : Z :=
  fold_left (fun value b =>
    wrap (Z.of_nat width * 8) (Z.lor (Z.shiftl value 8) (byte_to_Z b))) bytes 0.

Definition read_int (width : nat) : Reader Z :=
  let* ok := need (Z.of_nat width) in
  if ok then (let* bytes := advance width in rret (load_be width bytes)) else rret 0.

Definition read_u8 : Reader Z :=
  let* ok := need 1 in
  if ok then
    (let* bytes := advance 1 in
     rret (match bytes with b :: _ => byte_to_Z b | [] => 0 end))
  else rret 0.
Definition read_u16 : Reader Z := read_int 2.
Definition read_u32 : Reader Z := read_int 4.
Definition read_u64 : Reader Z := read_int 8.

Definition read_bytes (count : Z) : Reader ByteBuffer :=
  let* ok := need count in
  if ok then advance (Z.to_nat count) else rret [].

(** [ByteReader::string]: the length is checked against what is left before the
    string is built. *)
Definition read_string : Reader bstring := fun r =>
  let '(length, r1) := read_u32 r in
  if failed_ r1 then ([], r1)
  else (let* ok := need length in
        if ok then advance (Z.to_nat length) else rret []) r1.

(** * Big-endian arithmetic *)

(** What [append_be] adds to the buffer. *)
Definition be_bytes (width : nat) (value : Z) : ByteBuffer :=
  map (be_byte width value) (seq 0 width).
#[global] Arguments be_bytes : simpl never.
#[global] Arguments byte_of_Z : simpl never.

(** The reader state after [pre] has been consumed and with [suf] still ahead. *)
Definition rd (pre suf : ByteBuffer) : ByteReader :=
  MkReader (pre ++ suf) (length pre) false.

Definition reader_wf (r : ByteReader) : Prop := (pos_ r <= length (data_ r))%nat.

(** The plain value of a big-endian byte string. *)
Definition be_val (bytes : ByteBuffer) : Z :=
  fold_left (fun v b => v * 256 + byte_to_Z b) bytes 0.

(** * The three judgements *)

Definition sticky {A} (c : Reader A) : Prop :=
  forall r, failed_ r = true -> snd (c r) = r.

Definition reads {A} (c : Reader A) (bs : ByteBuffer) (a : A) : Prop :=
  (forall pre suf, c (rd pre (bs ++ suf)) = (a, rd (pre ++ bs) suf)) /\
  (forall pre n, (n < length bs)%nat -> failed_ (snd (c (rd pre (take n bs)))) = true).

Definition inverts {A} (c : Reader A) (R : A -> ByteBuffer -> Prop) : Prop :=
  forall pre suf a r', c (rd pre suf) = (a, r') -> failed_ r' = false ->
    exists used suf', suf = used ++ suf' /\ r' = rd (pre ++ used) suf' /\ R a used.

(** * Big-endian values *)

Lemma fold_left_snoc_map {A B} (f : A -> B) (l : list A) (out : list B) :
  fold_left (fun out i => out ++ [f i]) l out = out ++ map f l.
Proof.
  revert out. induction l as [|x l IH]; intros out; simpl.
  - by rewrite app_nil_r.
  - by rewrite IH, <- app_assoc.
Qed.

Lemma append_be_app w v out : append_be w v out = out ++ be_bytes w v.
Proof. apply fold_left_snoc_map. Qed.

Lemma length_be_bytes w v : length (be_bytes w v) = w.
Proof. unfold be_bytes. by rewrite length_map, length_seq. Qed.

Lemma byte_shift_val z : byte_to_Z (byte_of_Z (Z.land z 0xFF)) = z mod 256.
Proof.
  rewrite byte_to_of_Z. change 0xFF with (Z.ones 8). rewrite Z.land_ones by lia.
  unfold wrap. by rewrite Z.mod_mod.
Qed.

Lemma be_bytes_S w v :
  be_bytes (S w) v = byte_of_Z (Z.land (Z.shiftr v (Z.of_nat w * 8)) 0xFF) :: be_bytes w v.
Proof.
  unfold be_bytes. simpl seq. rewrite <- seq_shift. simpl map. rewrite map_map.
  f_equal.
  - unfold be_byte. by replace (S w - 1 - 0)%nat with w by lia.
  - apply map_ext. intros i. unfold be_byte. by replace (S w - 1 - S i)%nat with (w - 1 - i)%nat by lia.
Qed.

Lemma be_fold l v :
  fold_left (fun v b => v * 256 + byte_to_Z b) l v = v * 256 ^ zlen l + be_val l.
Proof.
  unfold be_val, zlen. revert v. induction l as [|b l IH]; intros v.
  - cbn. lia.
  - cbn [fold_left]. rewrite IH, (IH (0 * 256 + byte_to_Z b)). cbn [length].
    rewrite Nat2Z.inj_succ, Z.pow_succ_r by lia. lia.
Qed.

Lemma be_val_cons b l : be_val (b :: l) = byte_to_Z b * 256 ^ zlen l + be_val l.
Proof. unfold be_val at 1. cbn [fold_left]. rewrite be_fold. lia. Qed.

Lemma be_val_bound l : 0 <= be_val l < 256 ^ zlen l.
Proof.
  induction l as [|b l IH]; [done|]. rewrite be_val_cons.
  pose proof (byte_to_Z_fits b) as Hb. unfold fits in Hb. change (2 ^ 8) with 256 in Hb.
  unfold zlen in *. simpl length. rewrite Nat2Z.inj_succ, Z.pow_succ_r by lia. nia.
Qed.

Lemma be_val_be_bytes w v : be_val (be_bytes w v) = v mod 256 ^ Z.of_nat w.
Proof.
  induction w as [|w IH]; [by rewrite Z.mod_1_r|].
  rewrite be_bytes_S, be_val_cons, IH, byte_shift_val.
  unfold zlen. rewrite length_be_bytes.
  rewrite Z.shiftr_div_pow2 by lia.
  replace (2 ^ (Z.of_nat w * 8)) with (256 ^ Z.of_nat w)
    by (rewrite Z.mul_comm, Z.pow_mul_r by lia; done).
  rewrite Nat2Z.inj_succ, Z.pow_succ_r by lia.
  assert (0 < 256 ^ Z.of_nat w) by lia.
  rewrite (Z.mul_comm 256), Z.rem_mul_r by lia. lia.
Qed.

Lemma pow256 w : 2 ^ (Z.of_nat w * 8) = 256 ^ Z.of_nat w.
Proof. by rewrite Z.mul_comm, Z.pow_mul_r by lia. Qed.

Lemma be_bytes_high w a v : be_bytes w (a * 256 ^ Z.of_nat w + v) = be_bytes w v.
Proof.
  revert a. induction w as [|w IH]; intros a; [done|]. rewrite !be_bytes_S.
  assert (a * 256 ^ Z.of_nat (S w) = a * 256 * 256 ^ Z.of_nat w) as ->
    by (rewrite Nat2Z.inj_succ, Z.pow_succ_r by lia; lia).
  f_equal; [|apply IH]. apply byte_to_Z_inj. rewrite !byte_shift_val.
  rewrite !Z.shiftr_div_pow2, pow256, Z.div_add_l, Z.add_comm, Z.mod_add by lia. done.
Qed.

Lemma be_bytes_be_val l : be_bytes (length l) (be_val l) = l.
Proof.
  induction l as [|b l IH]; [done|]. simpl length. rewrite be_bytes_S, be_val_cons.
  pose proof (be_val_bound l) as Hl. unfold zlen in *. f_equal.
  - apply byte_to_Z_inj. rewrite byte_shift_val, Z.shiftr_div_pow2, pow256 by lia.
    rewrite Z.div_add_l, (Z.div_small (be_val l)), Z.add_0_r by lia.
    apply Z.mod_small, (byte_to_Z_fits b).
  - by rewrite be_bytes_high.
Qed.

Lemma lor_shift8 v b : 0 <= v -> Z.lor (Z.shiftl v 8) (byte_to_Z b) = v * 256 + byte_to_Z b.
Proof.
  intros Hv. pose proof (byte_to_Z_fits b) as Hb. unfold fits in Hb.
  rewrite <- Z.add_lor_land, Z.shiftl_mul_pow2 by lia. change (2 ^ 8) with 256.
  assert (Z.land (v * 256) (byte_to_Z b) = 0) as ->; [|lia].
  apply Z.bits_inj. intros n. rewrite Z.land_spec, Z.testbit_0_l.
  destruct (Z.ltb_spec n 8).
  - change 256 with (2 ^ 8). by rewrite Z.mul_pow2_bits_low.
  - rewrite (Z.bits_above_log2 (byte_to_Z b)); [by rewrite andb_false_r|lia|].
    destruct (Z.eq_dec (byte_to_Z b) 0) as [->|]; [simpl; lia|].
    assert (Z.log2 (byte_to_Z b) < 8) by (apply Z.log2_lt_pow2; lia). lia.
Qed.

(** No step of [load_be] wraps when the input is no longer than the type. *)
Lemma load_be_val w bytes : (length bytes <= w)%nat -> load_be w bytes = be_val bytes.
Proof.
  intros Hlen. unfold load_be, be_val.
  assert (Hgen : forall l v, 0 <= v -> (v + 1) * 256 ^ zlen l <= 256 ^ Z.of_nat w ->
    fold_left (fun value b => wrap (Z.of_nat w * 8) (Z.lor (Z.shiftl value 8) (byte_to_Z b))) l v
    = fold_left (fun v b => v * 256 + byte_to_Z b) l v).
  { induction l as [|b l IH]; intros v Hv Hb; [done|]. cbn [fold_left].
    pose proof (byte_to_Z_fits b) as Hbb. unfold fits in Hbb. change (2 ^ 8) with 256 in Hbb.
    unfold zlen in *. cbn [length] in Hb. rewrite Nat2Z.inj_succ, Z.pow_succ_r in Hb by lia.
    assert (0 < 256 ^ Z.of_nat (length l)) by lia.
    rewrite lor_shift8, wrap_small by (try done; unfold fits; rewrite pow256; nia).
    apply IH; nia. }
  apply Hgen; [done|]. rewrite Z.mul_1_l. unfold zlen. apply Z.pow_le_mono_r; lia.
Qed.

(** * Reader primitives *)

Lemma remaining_rd pre suf : remaining (rd pre suf) = length suf.
Proof. unfold remaining, rd. simpl. rewrite length_app. lia. Qed.

Lemma need_rd_ok count pre suf :
  count <= zlen suf -> need count (rd pre suf) = (true, rd pre suf).
Proof.
  unfold need, zlen. intros H. cbn [failed_ rd]. rewrite remaining_rd.
  by rewrite (proj2 (Z.ltb_ge _ _)).
Qed.

Lemma need_rd_short count pre suf :
  zlen suf < count -> need count (rd pre suf) = (false, MkReader (pre ++ suf) (length pre) true).
Proof.
  unfold need, zlen. intros H. cbn [failed_ rd]. rewrite remaining_rd.
  by rewrite (proj2 (Z.ltb_lt _ _)).
Qed.

Lemma advance_rd bs pre suf :
  advance (length bs) (rd pre (bs ++ suf)) = (bs, rd (pre ++ bs) suf).
Proof.
  unfold advance, rd. simpl. rewrite drop_app_length, take_app_length.
  by rewrite length_app, <- app_assoc.
Qed.

Lemma sticky_rret {A} (a : A) : sticky (rret a).
Proof. done. Qed.

Lemma sticky_need count : sticky (need count).
Proof. intros r H. unfold need. by rewrite H. Qed.

Lemma sticky_rbind {A B} (c : Reader A) (k : A -> Reader B) :
  sticky c -> (forall a, sticky (k a)) -> sticky (rbind c k).
Proof.
  intros Hc Hk r Hr. unfold rbind. specialize (Hc r Hr). destruct (c r) as [a r'].
  simpl in Hc. subst r'. by apply Hk.
Qed.

(** A failed reader never reaches [advance]. *)
Lemma sticky_need_then {A} count (c d : Reader A) :
  sticky d -> sticky (let* ok := need count in if ok then c else d).
Proof. intros Hd r Hr. unfold rbind, need. rewrite Hr. by apply Hd. Qed.

Lemma sticky_read_int w : sticky (read_int w).
Proof. apply sticky_need_then, sticky_rret. Qed.

Lemma sticky_read_u8 : sticky read_u8.
Proof. apply sticky_need_then, sticky_rret. Qed.

Lemma sticky_read_string : sticky read_string.
Proof.
  intros r Hr. unfold read_string. pose proof (sticky_read_int 4 r Hr) as H.
  unfold read_u32. destruct (read_int 4 r) as [len r1]. simpl in H. subst r1. by rewrite Hr.
Qed.

#[export] Hint Resolve sticky_rret sticky_need sticky_rbind sticky_read_int
  sticky_read_u8 sticky_read_string : wire.
#[export] Hint Extern 1 (sticky read_u16) => apply sticky_read_int : wire.
#[export] Hint Extern 1 (sticky read_u32) => apply sticky_read_int : wire.
#[export] Hint Extern 1 (sticky read_u64) => apply sticky_read_int : wire.

(** * Reading back what was written *)

Lemma reads_rret {A} (a : A) : reads (rret a) [] a.
Proof.
  split; [|simpl; lia]. intros pre suf. unfold rret. by rewrite app_nil_r.
Qed.

Lemma reads_rbind {A B} (c : Reader A) (k : A -> Reader B) bs bs' a b :
  reads c bs a -> reads (k a) bs' b -> (forall x, sticky (k x)) ->
  reads (rbind c k) (bs ++ bs') b.
Proof.
  intros [Hc Hcf] [Hk Hkf] Hs. split.
  - intros pre suf. unfold rbind. rewrite <- app_assoc, Hc, Hk. by rewrite <- app_assoc.
  - intros pre n Hn. unfold rbind. rewrite length_app in Hn.
    destruct (decide (n < length bs)%nat) as [Hlt|Hge].
    + rewrite take_app_le by lia. specialize (Hcf pre n Hlt).
      destruct (c _) as [x r]. simpl in Hcf. by rewrite Hs.
    + rewrite take_app_ge by lia. rewrite Hc. apply Hkf. lia.
Qed.

Lemma reads_int w v : fits (Z.of_nat w * 8) v -> reads (read_int w) (be_bytes w v) v.
Proof.
  intros Hv. split.
  - intros pre suf. unfold read_int, rbind, rret.
    rewrite need_rd_ok by (unfold zlen; rewrite length_app, length_be_bytes; lia).
    pose proof (advance_rd (be_bytes w v) pre suf) as Ha. rewrite length_be_bytes in Ha.
    rewrite Ha, load_be_val by (by rewrite length_be_bytes).
    rewrite be_val_be_bytes, Z.mod_small; [done|]. unfold fits in Hv. by rewrite pow256 in Hv.
  - intros pre n Hn. rewrite length_be_bytes in Hn. unfold read_int, rbind, rret.
    rewrite need_rd_short; [done|]. unfold zlen. rewrite length_take. lia.
Qed.

Lemma reads_u8 v : fits 8 v -> reads read_u8 [byte_of_Z v] v.
Proof.
  intros Hv. split.
  - intros pre suf. unfold read_u8, rbind, rret. rewrite need_rd_ok by (unfold zlen; simpl; lia).
    change 1%nat with (length [byte_of_Z v]). rewrite advance_rd.
    by rewrite byte_to_of_Z, wrap_small.
  - intros pre n Hn. simpl in Hn. replace n with 0%nat by lia.
    unfold read_u8, rbind, rret. by rewrite need_rd_short.
Qed.

(** The bytes [write_string] appends. *)
Definition string_bytes (s : bstring) : ByteBuffer := be_bytes 4 (wrap 32 (zlen s)) ++ s.

Lemma write_string_app s out : write_string s out = out ++ string_bytes s.
Proof. unfold write_string, write_u32, string_bytes. by rewrite append_be_app, app_assoc. Qed.

Lemma read_string_spec :
  forall r, read_string r = (let* len := read_u32 in
                             let* ok := need len in
                             if ok then advance (Z.to_nat len) else rret []) r.
Proof.
  intros r. unfold read_string, rbind at 2. destruct (read_u32 r) as [len r1].
  destruct (failed_ r1) eqn:E; [|done]. unfold rbind, need. by rewrite E.
Qed.

Lemma reads_string s : zlen s < 2 ^ 32 -> reads read_string (string_bytes s) s.
Proof.
  intros Hs. assert (Hf : fits 32 (zlen s)) by (pose proof (zlen_nonneg s); split; done).
  unfold string_bytes. rewrite wrap_small by done.
  assert (Hr : reads (let* len := read_u32 in let* ok := need len in
      if ok then advance (Z.to_nat len) else rret []) (be_bytes 4 (zlen s) ++ s) s).
  { eapply reads_rbind; [by apply reads_int| |by intros; apply sticky_need_then].
    unfold rbind, rret. split.
    - intros pre suf. rewrite need_rd_ok by (unfold zlen; rewrite length_app; lia).
      unfold zlen. rewrite Nat2Z.id. apply advance_rd.
    - intros pre n Hn. rewrite need_rd_short; [done|]. unfold zlen. rewrite length_take. lia. }
  destruct Hr as [Hr1 Hr2]. split; intros; rewrite read_string_spec; auto.
Qed.

(** * Inverting a successful read *)

Lemma inverts_weaken {A} (c : Reader A) (R R' : A -> ByteBuffer -> Prop) :
  inverts c R -> (forall a u, R a u -> R' a u) -> inverts c R'.
Proof.
  intros Hc HR pre suf a r' E F. destruct (Hc _ _ _ _ E F) as (u & s' & ? & ? & ?). eauto 6.
Qed.

Lemma inverts_rret {A} (a : A) : inverts (rret a) (fun b u => b = a /\ u = []).
Proof.
  intros pre suf b r' [= <- <-] _. exists [], suf. by rewrite app_nil_r.
Qed.

Lemma inverts_rbind {A B} (c : Reader A) (k : A -> Reader B) R1 R2 :
  inverts c R1 -> (forall a, inverts (k a) (R2 a)) -> (forall a, sticky (k a)) ->
  inverts (rbind c k) (fun b u => exists a u1 u2, u = u1 ++ u2 /\ R1 a u1 /\ R2 a b u2).
Proof.
  intros Hc Hk Hs pre suf b r' E F. unfold rbind in E.
  destruct (c (rd pre suf)) as [a r1] eqn:E1. destruct (failed_ r1) eqn:F1.
  { specialize (Hs a r1 F1). rewrite E in Hs. simpl in Hs. congruence. }
  destruct (Hc _ _ _ _ E1 F1) as (u1 & s1 & -> & -> & ?).
  destruct (Hk _ _ _ _ _ E F) as (u2 & s2 & -> & -> & ?).
  exists (u1 ++ u2), s2. rewrite !app_assoc. eauto 10.
Qed.

Lemma need_inv count pre suf ok r' :
  need count (rd pre suf) = (ok, r') -> failed_ r' = false ->
  ok = true /\ r' = rd pre suf /\ count <= zlen suf.
Proof.
  intros E F. destruct (decide (count <= zlen suf)) as [H|H].
  - rewrite need_rd_ok in E by done. by simplify_eq.
  - rewrite need_rd_short in E by lia. by simplify_eq.
Qed.

Lemma advance_inv n pre suf :
  (n <= length suf)%nat ->
  advance n (rd pre suf) = (take n suf, rd (pre ++ take n suf) (drop n suf)).
Proof.
  intros Hn. rewrite <- (take_drop n suf) at 1.
  rewrite <- (length_take_le suf n) at 1 by done. apply advance_rd.
Qed.

(** The shape every primitive read has: [need], then [advance]. *)
Lemma need_advance_inv {A} (n : nat) (f : ByteBuffer -> A) (d : A) pre suf a r' :
  (let* ok := need (Z.of_nat n) in
   if ok then (let* bytes := advance n in rret (f bytes)) else rret d) (rd pre suf) = (a, r') ->
  failed_ r' = false ->
  length (take n suf) = n /\ a = f (take n suf) /\ r' = rd (pre ++ take n suf) (drop n suf).
Proof.
  intros E F. unfold rbind in E. destruct (need (Z.of_nat n) (rd pre suf)) as [ok r1] eqn:E1.
  assert (F1 : failed_ r1 = false).
  { destruct ok; unfold rret, advance in E; injection E as ? <-; exact F. }
  destruct (need_inv _ _ _ _ _ E1 F1) as (-> & -> & Hlen). unfold zlen in Hlen.
  rewrite advance_inv in E by lia. unfold rret in E. injection E as <- <-.
  rewrite length_take. split; [lia|done].
Qed.

Lemma inverts_int w :
  inverts (read_int w) (fun v u => fits (Z.of_nat w * 8) v /\ u = be_bytes w v).
Proof.
  intros pre suf v r' E F. apply need_advance_inv in E as (Hl & -> & ->); [|done].
  exists (take w suf), (drop w suf). rewrite take_drop. split; [done|]. split; [done|].
  rewrite load_be_val by lia. pose proof (be_val_bound (take w suf)) as Hb.
  unfold zlen in Hb. rewrite Hl in Hb. split.
  - unfold fits. by rewrite pow256.
  - rewrite <- Hl at 2. by rewrite be_bytes_be_val.
Qed.

Lemma inverts_u8 : inverts read_u8 (fun v u => fits 8 v /\ u = [byte_of_Z v]).
Proof.
  intros pre suf v r' E F. apply (need_advance_inv 1) in E as (Hl & -> & ->); [|done].
  destruct suf as [|b suf]; [done|]. simpl. rewrite take_0, drop_0. exists [b], suf.
  repeat split; try apply byte_to_Z_fits. by rewrite byte_of_to_Z.
Qed.

Lemma inverts_string :
  inverts read_string (fun s u => zlen s < 2 ^ 32 /\ u = string_bytes s).
Proof.
  intros pre suf s r' E F. unfold read_string in E.
  destruct (read_u32 (rd pre suf)) as [len r1] eqn:E1.
  destruct (failed_ r1) eqn:F1; [injection E as <- <-; congruence|].
  destruct (inverts_int 4 _ _ _ _ E1 F1) as (u1 & s1 & -> & -> & Hf & ->).
  unfold fits in Hf. rewrite <- (Z2Nat.id len) in E at 1 by lia.
  apply (need_advance_inv (Z.to_nat len) (fun b => b)) in E as (Hl & -> & ->); [|done].
  assert (Hz : zlen (take (Z.to_nat len) s1) = len) by (unfold zlen; lia).
  exists (string_bytes (take (Z.to_nat len) s1)), (drop (Z.to_nat len) s1).
  unfold string_bytes. rewrite Hz, wrap_small by done.
  rewrite <- !app_assoc, take_drop. repeat split; lia.
Qed.

(** * Allocation bound *)

(** The string [ByteReader::string] builds is no longer than the input still
    unread, whatever length the peer claimed. *)
Lemma read_string_bounded r :
  reader_wf r -> (length (fst (read_string r)) <= remaining r)%nat.
Proof.
  destruct r as [data pos failed].
  unfold reader_wf, read_string, read_u32, read_int, rbind, rret, need, advance, remaining.
  cbn [failed_ data_ pos_]. intros Hwf. destruct failed; [simpl; lia|].
  destruct (Z.of_nat (length data - pos) <? Z.of_nat 4) eqn:E; [simpl; lia|].
  cbn [failed_ data_ pos_]. set (len := load_be 4 _).
  destruct (_ <? len) eqn:E2; [simpl; lia|]. bcases. simpl. rewrite length_take, length_drop. lia.
Qed.

(** * Compound readers *)

Lemma reads_last {A B} (c : Reader A) (f : A -> B) bs a b :
  reads c bs a -> f a = b -> reads (rbind c (fun x => rret (f x))) bs b.
Proof.
  intros Hc <-. rewrite <- (app_nil_r bs).
  eapply reads_rbind; [done|apply reads_rret|intros; apply sticky_rret].
Qed.

(** Running [c] on a cut input: either the cut falls inside what [c] needs, and
    [c] fails, or [c] is unaffected and the cut lies further on. *)
Lemma reads_cut {A} (c : Reader A) bs a pre rest n :
  reads c bs a ->
  (failed_ (snd (c (rd pre (take n (bs ++ rest))))) = true /\ (n < length bs)%nat) \/
  (c (rd pre (take n (bs ++ rest))) = (a, rd (pre ++ bs) (take (n - length bs) rest)) /\
   (length bs <= n)%nat).
Proof.
  intros [H1 H2]. destruct (decide (n < length bs)%nat) as [Hn|Hn].
  - left. rewrite take_app_le by lia. auto.
  - right. rewrite take_app_ge by lia. split; [apply H1|lia].
Qed.

(** Discharges [sticky] goals of composed readers. *)
Ltac solve_sticky :=
  repeat first
    [ progress intros
    | apply sticky_rret | apply sticky_read_u8 | apply sticky_read_string
    | apply sticky_read_int | apply sticky_rbind ].

(** Walks a [let*] chain of reads against the concatenation it should take. *)
Ltac read_fields tac :=
  repeat first
    [ eapply reads_last; [solve [tac]|]
    | eapply reads_rbind; [solve [tac]| |solve_sticky] ].

(** Runs a reader whose [reads] judgement is [H]. *)
Ltac run_read H := rewrite (proj1 H).

(** Runs a reader with judgement [R] on a cut input, in both cases. *)
Ltac cut_read R F E C :=
  lazymatch type of R with
  | reads ?c ?bs ?a =>
      match goal with
      | |- context [c (rd ?p (take ?n (bs ++ ?rest)))] =>
          destruct (reads_cut c bs a p rest n R) as [[F C]|[E C]]
      end
  end.

(** Names the result of the failed read that [F] is about. *)
Ltac open_failed F v r :=
  match type of F with
  | failed_ (snd ?t) = true => destruct t as [v r]; cbn [snd] in F
  end.
