(* ===== verification/StdList.v ===== *)
(** [std::list] with stable iterators, as the LRU cache and the exposure store use
    it: a list of nodes, each with an identity given by a projection [node]; an
    iterator is an identity, and [splice] and [erase] find the node by it.

    Both clients keep a hash map from keys to iterators beside the list. [indexed]
    is the agreement of the two, with the lemmas that keep it through a splice, an
    insertion and a removal. *)
From stdpp Require Import base option list gmap.
From S2P Require Import Prelude.

Section StdList.
Context {N : Type} (node : N -> nat).

Fixpoint extract (it : nat) (l : list N) : option (N * list N) :=
  match l with
  | [] => None
  | e :: l =>
      if (node e =? it)%nat then Some (e, l)
      else match extract it l with Some (x, rest) => Some (x, e :: rest) | None => None end
  end.

(** [l.splice(l.begin(), l, it)]. *)
Definition splice_front (it : nat) (l : list N) : list N :=
  match extract it l with Some (e, rest) => e :: rest | None => l end.

(** [l.erase(it)]. *)
Definition list_erase (it : nat) (l : list N) : list N :=
  match extract it l with Some (_, rest) => rest | None => l end.

Lemma extract_split it l1 e l2 :
  node e = it -> it ∉ map node l1 -> extract it (l1 ++ e :: l2) = Some (e, l1 ++ l2).
Proof.
  intros He. induction l1 as [|x l1 IH]; intros Hn; simpl.
  - by rewrite He, Nat.eqb_refl.
  - apply not_elem_of_cons in Hn as [Hx Hn].
    by rewrite (proj2 (Nat.eqb_neq _ _)), IH by done.
Qed.

Lemma splice_front_split it l1 e l2 :
  node e = it -> it ∉ map node l1 -> splice_front it (l1 ++ e :: l2) = e :: l1 ++ l2.
Proof. intros. unfold splice_front. by rewrite extract_split. Qed.

Lemma list_erase_split it l1 e l2 :
  node e = it -> it ∉ map node l1 -> list_erase it (l1 ++ e :: l2) = l1 ++ l2.
Proof. intros. unfold list_erase. by rewrite extract_split. Qed.
End StdList.

(** * Lists *)

Lemma removelast_map {A B} (f : A -> B) (l : list A) : removelast (map f l) = map f (removelast l).
Proof.
  induction l as [|a l IH]; [done|]. simpl. rewrite IH. by destruct l.
Qed.

Lemma last_removelast {A} (l : list A) x : last l = Some x -> l = removelast l ++ [x].
Proof.
  intros Hx. apply last_Some in Hx as [l' ->]. by rewrite removelast_last.
Qed.

Lemma elem_of_removelast {A} (x : A) l : x ∈ removelast l -> x ∈ l.
Proof.
  destruct (decide (l = [])) as [->|Hne]; [done|]. apply exists_last in Hne as (l' & a & ->).
  rewrite removelast_last, elem_of_app. by left.
Qed.

(** * A list and its index *)

Section Indexed.
Context {K N : Type} `{Countable K} (key : N -> K) (node : N -> nat).
Implicit Types (l : list N) (idx : gmap K nat).

Definition index_pairs (l : list N) : list (K * nat) := map (fun e => (key e, node e)) l.

(** The index maps each key to the iterator of its node; no key and no identity
    occurs twice; [next] is above every identity in use. *)
Record indexed (l : list N) (idx : gmap K nat) (next : nat) : Prop := {
  ix_index : idx = list_to_map (index_pairs l);
  ix_keys : NoDup (map key l);
  ix_nodes : NoDup (map node l);
  ix_fresh : Forall (fun e => node e < next)%nat l
}.

Lemma fst_index_pairs l : (index_pairs l).*1 = map key l.
Proof. unfold index_pairs. rewrite <- list_fmap_compose. done. Qed.

Lemma indexed_nil next : indexed [] ∅ next.
Proof. split; try done; constructor. Qed.

Lemma indexed_found l idx next k it :
  indexed l idx next -> idx !! k = Some it ->
  exists l1 e l2, l = l1 ++ e :: l2 /\ key e = k /\ node e = it /\
    (it ∉ map node l1) /\ (it ∉ map node l2) /\ (k ∉ map key l1) /\ (k ∉ map key l2).
Proof.
  intros [Hi Hk Hn _] Hl. rewrite Hi in Hl. apply elem_of_list_to_map_2 in Hl.
  apply list_elem_of_fmap in Hl as (e & [= -> ->] & He).
  apply list_elem_of_split in He as (l1 & l2 & Hs). exists l1, e, l2. rewrite Hs in Hk, Hn.
  rewrite map_app, map_cons in Hk, Hn. apply NoDup_app in Hk as (_ & Hk1 & Hk2).
  apply NoDup_app in Hn as (_ & Hn1 & Hn2). apply NoDup_cons in Hk2 as [Hk2 _].
  apply NoDup_cons in Hn2 as [Hn2 _]. split_and!; try done.
  - intros Hin. apply (Hn1 _ Hin). left.
  - intros Hin. apply (Hk1 _ Hin). left.
Qed.

Lemma indexed_missing l idx next k : indexed l idx next -> idx !! k = None <-> k ∉ map key l.
Proof.
  intros [Hi _ _ _]. rewrite Hi, <- fst_index_pairs. split.
  - apply not_elem_of_list_to_map_2.
  - apply not_elem_of_list_to_map_1.
Qed.

Lemma indexed_size l idx next : indexed l idx next -> size idx = length l.
Proof.
  intros [Hi Hk _ _]. rewrite Hi, map_size_list_to_map by (by rewrite fst_index_pairs).
  unfold index_pairs. by rewrite length_map.
Qed.

(** A reordering that keeps keys and identities (values may change). *)
Lemma indexed_permute l l' idx next :
  indexed l idx next -> index_pairs l' ≡ₚ index_pairs l -> indexed l' idx next.
Proof.
  intros [Hi Hk Hn Hf] Hp.
  assert (Hpk : map key l' ≡ₚ map key l).
  { rewrite <- !fst_index_pairs. by apply fmap_Permutation. }
  assert (Hpn : map node l' ≡ₚ map node l).
  { apply (fmap_Permutation snd) in Hp. unfold index_pairs in Hp.
    by rewrite <- !list_fmap_compose in Hp. }
  split.
  - rewrite Hi. symmetry. apply list_to_map_proper; [by rewrite fst_index_pairs, Hpk|done].
  - by rewrite Hpk.
  - by rewrite Hpn.
  - apply Forall_forall. intros e He. rewrite Forall_forall in Hf.
    assert (Hin : node e ∈ map node l).
    { rewrite <- Hpn. by apply list_elem_of_fmap_2. }
    apply list_elem_of_fmap in Hin as (e' & -> & He'). by apply Hf.
Qed.

(** Moving one node to the front. *)
Lemma indexed_front l1 e e' l2 idx next :
  indexed (l1 ++ e :: l2) idx next -> key e' = key e -> node e' = node e ->
  indexed (e' :: l1 ++ l2) idx next.
Proof.
  intros Hi Hk Hn. eapply indexed_permute; [exact Hi|]. unfold index_pairs.
  rewrite map_cons, !map_app, map_cons, Hk, Hn. apply Permutation_middle.
Qed.

(** Dropping a node from the list and its key from the index. *)
Lemma indexed_drop l1 e l2 idx next :
  indexed (l1 ++ e :: l2) idx next -> indexed (l1 ++ l2) (delete (key e) idx) next.
Proof.
  intros [Hi Hk Hn Hf].
  assert (Hp : l1 ++ e :: l2 ≡ₚ e :: (l1 ++ l2)) by (symmetry; apply Permutation_middle).
  assert (Hpi : index_pairs (l1 ++ e :: l2) ≡ₚ (key e, node e) :: index_pairs (l1 ++ l2)).
  { by apply (Permutation_map (fun e => (key e, node e)) Hp). }
  pose proof (Permutation_map key Hp) as Hpk. pose proof (Permutation_map node Hp) as Hpn.
  assert (Hnd : NoDup (index_pairs (l1 ++ e :: l2)).*1) by (by rewrite fst_index_pairs).
  rewrite Hpk, map_cons in Hk. rewrite Hpn, map_cons in Hn. rewrite Hp in Hf.
  apply NoDup_cons in Hk as [Hk1 Hk2]. apply NoDup_cons in Hn as [_ Hn2].
  apply Forall_cons_1 in Hf as [_ Hf]. split; try done.
  rewrite Hi, (list_to_map_proper _ _ Hnd Hpi). cbn [list_to_map].
  apply delete_insert_id. apply not_elem_of_list_to_map_1. by rewrite fst_index_pairs.
Qed.

(** Pushing a new node at the front under a new key. *)
Lemma indexed_push l e idx next :
  indexed l idx next -> (key e ∉ map key l) -> node e = next ->
  indexed (e :: l) (<[key e := next]> idx) (S next).
Proof.
  intros [Hi Hk Hn Hf] Hnk He. split.
  - cbn. by rewrite He, Hi.
  - cbn. by constructor.
  - cbn. constructor; [|done]. rewrite He. intros Hin.
    apply list_elem_of_fmap in Hin as (x & Hx & Hin).
    rewrite Forall_forall in Hf. specialize (Hf x Hin). lia.
  - constructor; [lia|]. eapply Forall_impl; [exact Hf|]. cbn. lia.
Qed.
End Indexed.
