(* ===== verification/Binary64.v ===== *)
(** C++ [double]: IEEE-754 binary64.

    A [double] is its 64-bit pattern, so [std::bit_cast] is the identity on it
    and NaN payloads survive a trip over the wire. Arithmetic decodes the pattern
    to the Standard Library's [spec_float] (53-bit precision, exponents up to
    1024), applies the round-to-nearest-even operation there, and encodes the
    result; a NaN result is the canonical quiet NaN. *)
From Stdlib Require Import SpecFloat.
From stdpp Require Import base numbers.
From S2P Require Import Prelude.

(** * Representation *)

Record double := MkDouble { d_bits : Z }.

#[global] Instance double_eq_dec : EqDecision double.
Proof. solve_decision. Defined.

Definition prec : Z := 53.
Definition emax : Z := 1024.

(** [std::bit_cast<std::uint64_t>] and [std::bit_cast<double>]. *)
Definition double_to_bits (value : double) : Z := d_bits value.
Definition bits_to_double (bits : Z) : double := MkDouble bits.

Definition d_wf (x : double) : Prop := fits 64 (d_bits x).

(** The fields of a pattern: sign, biased exponent, fraction. *)
Definition bits_sign (b : Z) : bool := Z.testbit b 63.
Definition bits_exp (b : Z) : Z := Z.land (Z.shiftr b 52) 2047.
Definition bits_frac (b : Z) : Z := Z.land b (2 ^ 52 - 1).

Definition sf_of_bits (b : Z) : spec_float :=
  let s := bits_sign b in
  let e := bits_exp b in
  let f := bits_frac b in
  if e =? 0 then
    match f with Zpos m => S754_finite s m (-1074) | _ => S754_zero s end
  else if e =? 2047 then
    (if f =? 0 then S754_infinity s else S754_nan)
  else
    match f + 2 ^ 52 with Zpos m => S754_finite s m (e - 1075) | _ => S754_nan end.

Definition bits_of_sf (x : spec_float) : Z :=
  let sgn (s : bool) := if s then 2 ^ 63 else 0 in
  match x with
  | S754_zero s => sgn s
  | S754_infinity s => sgn s + 2047 * 2 ^ 52
  | S754_nan => 0x7FF8000000000000
  | S754_finite s m e =>
      if Zpos m <? 2 ^ 52 then sgn s + Zpos m
      else sgn s + (e + 1075) * 2 ^ 52 + (Zpos m - 2 ^ 52)
  end.

Definition sf (x : double) : spec_float := sf_of_bits (d_bits x).
Definition of_sf (x : spec_float) : double := MkDouble (bits_of_sf x).

(** * Operators *)

Definition d_add (x y : double) : double := of_sf (SFadd prec emax (sf x) (sf y)).
Definition d_sub (x y : double) : double := of_sf (SFsub prec emax (sf x) (sf y)).
Definition d_mul (x y : double) : double := of_sf (SFmul prec emax (sf x) (sf y)).
Definition d_div (x y : double) : double := of_sf (SFdiv prec emax (sf x) (sf y)).
(** Unary minus flips the sign bit. *)
Definition d_opp (x : double) : double := MkDouble (Z.lxor (d_bits x) (2 ^ 63)).
Definition d_abs (x : double) : double := MkDouble (Z.land (d_bits x) (2 ^ 63 - 1)).

Definition d_ltb (x y : double) : bool := SFltb (sf x) (sf y).
Definition d_leb (x y : double) : bool := SFleb (sf x) (sf y).
Definition d_eqb (x y : double) : bool := SFeqb (sf x) (sf y).
Definition d_gtb (x y : double) : bool := d_ltb y x.
Definition is_nan (x : double) : bool :=
  match sf x with S754_nan => true | _ => false end.

(** [std::max(a, b)] and [std::min(a, b)]. *)
Definition d_max (a b : double) : double := if d_ltb a b then b else a.
Definition d_min (a b : double) : double := if d_ltb b a then b else a.

(** Integer to [double], rounded to nearest even. *)
Definition double_of_Z (z : Z) : double := of_sf (binary_normalize prec emax z 0 false).

(** The nonnegative integer nearest to [m * 2^e], halves away from zero
    ([std::llround] on a finite argument). *)
Definition round_half_away (m e : Z) : Z :=
  if 0 <=? e then m * 2 ^ e else (m + 2 ^ (- e - 1)) / 2 ^ (- e).

Lemma bits_to_double_to_bits x : bits_to_double (double_to_bits x) = x.
Proof. by destruct x. Qed.

(** * Literals *)

Definition d0 : double := MkDouble 0.
Definition d1 : double := MkDouble 0x3FF0000000000000.
Definition d2 : double := MkDouble 0x4000000000000000.
Definition d0_1 : double := MkDouble 0x3FB999999999999A.
Definition d0_3 : double := MkDouble 0x3FD3333333333333.
Definition d0_5 : double := MkDouble 0x3FE0000000000000.

Example arith_sanity :
  d_add d0_1 d0_1 = MkDouble 0x3FC999999999999A /\
  d_mul d0_5 d2 = d1 /\ d_div d1 d2 = d0_5 /\ double_of_Z 2 = d2 /\
  d_sub d1 d0_3 = MkDouble 0x3FE6666666666666 /\ d_ltb d0_3 d0_5 = true.
Proof. vm_compute. repeat split. Qed.

(** * The order on numbers *)

(** Class, exponent and significand, arranged so that numbers compare
    lexicographically. *)
Definition sf_key (x : spec_float) : Z * Z * Z :=
  match x with
  | S754_infinity true => (0, 0, 0)
  | S754_finite true m e => (1, - e, Zneg m)
  | S754_zero _ => (2, 0, 0)
  | S754_finite false m e => (3, e, Zpos m)
  | S754_infinity false => (4, 0, 0)
  | S754_nan => (5, 0, 0)
  end.

Definition key_lt (k1 k2 : Z * Z * Z) : Prop :=
  let '(c1, e1, m1) := k1 in
  let '(c2, e2, m2) := k2 in
  c1 < c2 \/ (c1 = c2 /\ (e1 < e2 \/ (e1 = e2 /\ m1 < m2))).

Lemma sf_compare_key x y :
  x <> S754_nan -> y <> S754_nan ->
  exists c, SFcompare x y = Some c /\
    match c with
    | Lt => key_lt (sf_key x) (sf_key y)
    | Eq => sf_key x = sf_key y
    | Gt => key_lt (sf_key y) (sf_key x)
    end.
Proof.
  intros Hx Hy. destruct x as [[]|[]| |[] mx ex], y as [[]|[]| |[] my ey];
    try (by destruct Hx); try (by destruct Hy); cbn [SFcompare];
    lazymatch goal with
    | |- context [Z.compare _ _] => idtac
    | |- exists c, Some ?d = Some c /\ _ =>
        exists d; split; [reflexivity|]; cbn [sf_key key_lt]; first [reflexivity | left; reflexivity]
    end;
    change (Pos.compare_cont Eq mx my) with (Pos.compare mx my);
    (destruct (Z.compare_spec ex ey) as [->|H|H];
      [destruct (Pos.compare_spec mx my) as [->|H|H]|..]);
    (eexists; split; [reflexivity|]); cbn [sf_key key_lt CompOpp]; first [reflexivity | lia].
Qed.

Definition d_key (x : double) : Z * Z * Z := sf_key (sf x).

Lemma is_nan_false x : is_nan x = false <-> sf x <> S754_nan.
Proof. unfold is_nan. by destruct (sf x). Qed.

Lemma key_lt_irrefl k : ~ key_lt k k.
Proof. destruct k as [[c e] m]. cbn. lia. Qed.

Lemma key_lt_trans k1 k2 k3 : key_lt k1 k2 -> key_lt k2 k3 -> key_lt k1 k3.
Proof. destruct k1 as [[? ?] ?], k2 as [[? ?] ?], k3 as [[? ?] ?]. cbn. lia. Qed.

Lemma key_lt_total k1 k2 : key_lt k1 k2 \/ k1 = k2 \/ key_lt k2 k1.
Proof.
  destruct k1 as [[c1 e1] m1], k2 as [[c2 e2] m2]. cbn.
  destruct (decide (c1 = c2 /\ e1 = e2 /\ m1 = m2)) as [(-> & -> & ->)|Hne]; [tauto|lia].
Qed.

Lemma d_ltb_key x y :
  is_nan x = false -> is_nan y = false -> d_ltb x y = true <-> key_lt (d_key x) (d_key y).
Proof.
  intros Hx%is_nan_false Hy%is_nan_false. unfold d_ltb, SFltb, d_key.
  destruct (sf_compare_key _ _ Hx Hy) as (c & -> & Hc). clear Hx Hy. revert Hc.
  generalize (sf_key (sf x)) (sf_key (sf y)). intros k1 k2 Hc. destruct c; (split; [intros H|intros H]).
  - discriminate H.
  - subst k2. by apply key_lt_irrefl in H.
  - exact Hc.
  - reflexivity.
  - discriminate H.
  - by destruct (key_lt_irrefl _ (key_lt_trans _ _ _ H Hc)).
Qed.

Lemma d_eqb_key x y :
  is_nan x = false -> is_nan y = false -> d_eqb x y = true <-> d_key x = d_key y.
Proof.
  intros Hx%is_nan_false Hy%is_nan_false. unfold d_eqb, SFeqb, d_key.
  destruct (sf_compare_key _ _ Hx Hy) as (c & -> & Hc). clear Hx Hy. revert Hc.
  generalize (sf_key (sf x)) (sf_key (sf y)). intros k1 k2 Hc.
  destruct c; (split; [intros H|intros H]); try exact Hc; try reflexivity; try discriminate H;
    subst k2; by apply key_lt_irrefl in Hc.
Qed.
