(* ===== verification/Rounding.v ===== *)
(** Facts about the binary64 arithmetic of Binary64.v that the policy arithmetic
    needs: every operation gives a valid number, patterns and numbers correspond,
    rounding never crosses a representable value, and integers below 2^53 are exact.

    A nonnegative finite number [m * 2^e] is compared through the integer
    [scale m e = m * 2^(e + 4096)]; no exponent in the development is below -4096. *)
From Stdlib Require Import SpecFloat.
From stdpp Require Import base numbers.
From S2P Require Import Prelude Binary64.

(** * Definitions *)

(** The canonical exponent of a number with [z] as its bit length plus exponent. *)
Definition fx (z : Z) : Z := Z.max (z - 53) (-1074).

Definition digits (m : Z) : Z := if m =? 0 then 0 else Z.log2 m + 1.

Definition canonical (m e : Z) : Prop := 0 < m /\ e = fx (digits m + e) /\ e <= 971.

Definition valid (x : spec_float) : Prop :=
  match x with S754_finite _ m e => canonical (Zpos m) e | _ => True end.

Definition scale (m e : Z) : Z := m * 2 ^ (e + 4096).

(** Nonnegative numbers, infinity included. *)
Definition nonneg (x : spec_float) : Prop :=
  match x with
  | S754_zero _ => True
  | S754_finite s _ _ | S754_infinity s => s = false
  | S754_nan => False
  end.

(** [v] (scaled) is at most the nonnegative number [x]; and [x] is at most [v]. *)
Definition at_least (v : Z) (x : spec_float) : Prop :=
  match x with
  | S754_zero _ => v <= 0
  | S754_finite _ m e => v <= scale (Zpos m) e
  | S754_infinity _ => True
  | S754_nan => False
  end.
Definition at_most (x : spec_float) (v : Z) : Prop :=
  match x with
  | S754_zero _ => 0 <= v
  | S754_finite _ m e => scale (Zpos m) e <= v
  | _ => False
  end.

(** * Digits *)

Lemma fexp_fx z : fexp prec emax z = fx z.
Proof. reflexivity. Qed.

Lemma digits2_pos_log2 p : Zpos (digits2_pos p) = Z.log2 (Zpos p) + 1.
Proof.
  induction p as [p IH|p IH|]; [| |done]; cbn [digits2_pos]; rewrite Pos2Z.inj_succ, IH.
  - change (Zpos p~1) with (2 * Zpos p + 1). rewrite Z.log2_succ_double by lia. lia.
  - change (Zpos p~0) with (2 * Zpos p). rewrite Z.log2_double by lia. lia.
Qed.

Lemma Zdigits2_digits m : 0 <= m -> Zdigits2 m = digits m.
Proof. destruct m as [|p|p]; [done| |lia]. intros _. apply digits2_pos_log2. Qed.

Lemma digits_spec m : 0 < m -> 2 ^ (digits m - 1) <= m < 2 ^ digits m.
Proof.
  intros Hm. unfold digits. rewrite (proj2 (Z.eqb_neq m 0)) by lia.
  replace (Z.log2 m + 1 - 1) with (Z.log2 m) by lia. apply Z.log2_spec. lia.
Qed.

Lemma digits_pos m : 0 < m -> 1 <= digits m.
Proof.
  intros Hm. unfold digits. rewrite (proj2 (Z.eqb_neq m 0)) by lia.
  pose proof (Z.log2_nonneg m). lia.
Qed.

Lemma digits_nonneg m : 0 <= m -> 0 <= digits m.
Proof.
  intros Hm. destruct (Z.eq_dec m 0) as [->|]; [done|]. pose proof (digits_pos m). lia.
Qed.

Lemma digits_unique m d : 1 <= d -> 2 ^ (d - 1) <= m < 2 ^ d -> digits m = d.
Proof.
  intros Hd [H1 H2]. assert (0 < 2 ^ (d - 1)) by lia. unfold digits.
  rewrite (proj2 (Z.eqb_neq m 0)) by lia.
  rewrite (Z.log2_unique m (d - 1)); [lia|lia|]. rewrite <- Z.add_1_r, Z.sub_add. lia.
Qed.

Lemma digits_le m d : 0 <= d -> 0 <= m < 2 ^ d -> digits m <= d.
Proof.
  intros Hd [H1 H2]. destruct (Z.eq_dec m 0) as [->|]; [unfold digits; simpl; lia|].
  pose proof (digits_spec m) as Hs. assert (digits m - 1 < d); [|lia].
  apply (Z.pow_lt_mono_r_iff 2); try lia.
Qed.

Lemma digits_shift m k : 0 < m -> 0 <= k -> digits (m * 2 ^ k) = digits m + k.
Proof.
  intros Hm Hk. assert (0 < 2 ^ k) by lia. unfold digits.
  rewrite !(proj2 (Z.eqb_neq _ 0)) by nia. rewrite Z.log2_mul_pow2 by lia. lia.
Qed.

Lemma digits_div m k : 0 < m -> 0 <= k < digits m -> digits (m / 2 ^ k) = digits m - k.
Proof.
  intros Hm Hk. pose proof (digits_spec m Hm) as [H1 H2]. apply digits_unique; [lia|].
  assert (Hp : 0 < 2 ^ k) by lia. split.
  - apply Z.div_le_lower_bound; [lia|]. rewrite <- Z.pow_add_r by lia.
    by replace (k + (digits m - k - 1)) with (digits m - 1) by lia.
  - apply Z.div_lt_upper_bound; [lia|]. rewrite <- Z.pow_add_r by lia.
    by replace (k + (digits m - k)) with (digits m) by lia.
Qed.

(** * Shifting *)

Lemma shr_1_m mrs : 0 <= shr_m mrs -> shr_m (shr_1 mrs) = shr_m mrs / 2.
Proof.
  destruct mrs as [m r s]. cbn [shr_m]. intros Hm. destruct m as [|[p|p|]|p]; try done; cbn.
  - change (Zpos p~1) with (2 * Zpos p + 1). rewrite Z.mul_comm, Z.div_add_l by lia.
    change (1 / 2) with 0. lia.
  - change (Zpos p~0) with (2 * Zpos p). by rewrite Z.mul_comm, Z.div_mul.
Qed.

Lemma iter_shr_m p mrs :
  0 <= shr_m mrs -> shr_m (SpecFloat.iter_pos shr_1 p mrs) = shr_m mrs / 2 ^ Zpos p.
Proof.
  revert mrs. induction p as [p IH|p IH|]; intros mrs Hm; cbn [SpecFloat.iter_pos].
  - assert (E1 : shr_m (shr_1 mrs) = shr_m mrs / 2) by (by apply shr_1_m).
    assert (H1 : 0 <= shr_m mrs / 2) by (apply Z.div_pos; lia).
    assert (E2 : shr_m (SpecFloat.iter_pos shr_1 p (shr_1 mrs)) = shr_m mrs / 2 / 2 ^ Zpos p)
      by (rewrite <- E1 in *; by apply IH).
    assert (H2 : 0 <= shr_m mrs / 2 / 2 ^ Zpos p) by (apply Z.div_pos; lia).
    rewrite IH, E2, !Z.div_div by lia. f_equal.
    replace (Zpos p~1) with (1 + Zpos p + Zpos p) by lia. rewrite !Z.pow_add_r by lia. lia.
  - assert (E1 : shr_m (SpecFloat.iter_pos shr_1 p mrs) = shr_m mrs / 2 ^ Zpos p) by (by apply IH).
    assert (H1 : 0 <= shr_m mrs / 2 ^ Zpos p) by (apply Z.div_pos; lia).
    rewrite IH, E1, Z.div_div by lia. f_equal.
    replace (Zpos p~0) with (Zpos p + Zpos p) by lia. rewrite Z.pow_add_r by lia. lia.
  - by rewrite shr_1_m.
Qed.

Lemma shr_fexp_spec m e l :
  0 <= m ->
  let '(mrs, e') := shr_fexp prec emax m e l in
  e' = Z.max e (fx (digits m + e)) /\ shr_m mrs = m / 2 ^ (e' - e) /\
  (e' = e -> mrs = shr_record_of_loc m l).
Proof.
  intros Hm. unfold shr_fexp. rewrite fexp_fx, Zdigits2_digits by done.
  assert (Hrm : shr_m (shr_record_of_loc m l) = m) by (by destruct l as [|[]]).
  set (f := fx (digits m + e)). unfold shr. destruct (f - e) as [|p|p] eqn:E.
  - replace (Z.max e f) with e by lia. rewrite Z.sub_diag, Z.div_1_r. done.
  - replace (Z.max e f) with (e + Zpos p) by lia. rewrite iter_shr_m by (by rewrite Hrm).
    rewrite Hrm. split_and!; [lia| |lia]. do 2 f_equal. lia.
  - replace (Z.max e f) with e by lia. rewrite Z.sub_diag, Z.div_1_r. done.
Qed.

Lemma rne_bounds m l : m <= round_nearest_even m l <= m + 1.
Proof. destruct l as [|[]]; cbn; try (destruct (Z.even m)); lia. Qed.

(** * Rounding *)

(** The significand after the first shift and the rounding decision. *)
Lemma first_shift m e l :
  0 <= m -> e <= fx (digits m + e) ->
  let '(mrs, e1) := shr_fexp prec emax m e l in
  let m1 := round_nearest_even (shr_m mrs) (loc_of_shr_record mrs) in
  e1 = fx (digits m + e) /\ m / 2 ^ (e1 - e) <= m1 <= m / 2 ^ (e1 - e) + 1 /\
  0 <= m / 2 ^ (e1 - e) < 2 ^ 53 /\ (m1 < 2 ^ 52 -> e1 = -1074).
Proof.
  intros Hm He. pose proof (shr_fexp_spec m e l Hm) as Hs.
  destruct (shr_fexp prec emax m e l) as [mrs e1]. destruct Hs as (He1 & Hm0 & _).
  rewrite Z.max_r in He1 by done. pose proof (rne_bounds (shr_m mrs) (loc_of_shr_record mrs)) as Hr.
  cbv zeta. rewrite Hm0 in *. split; [done|]. split; [done|].
  assert (Hp : 0 < 2 ^ (e1 - e)) by (apply Z.pow_pos_nonneg; lia).
  assert (Hlt : m < 2 ^ 53 * 2 ^ (e1 - e)).
  { destruct (Z.eq_dec m 0) as [->|Hne]; [lia|]. pose proof (digits_spec m) as Hd.
    rewrite <- Z.pow_add_r by lia. eapply Z.lt_le_trans; [apply Hd; lia|].
    apply Z.pow_le_mono_r; [lia|]. unfold fx in He1. lia. }
  split; [split; [apply Z.div_pos; lia|apply Z.div_lt_upper_bound; lia]|].
  intros Hsmall. destruct (Z.eq_dec e1 (-1074)) as [|Hne]; [done|exfalso].
  assert (He53 : e1 = digits m + e - 53) by (unfold fx in He1; lia).
  assert (Hm1 : 0 < m).
  { destruct (Z.eq_dec m 0) as [->|]; [|lia]. change (digits 0) with 0 in He53. lia. }
  pose proof (digits_spec m Hm1) as [Hd _].
  assert (2 ^ 52 <= m / 2 ^ (e1 - e)); [|lia].
  apply Z.div_le_lower_bound; [done|]. rewrite <- Z.pow_add_r by lia.
  by replace (e1 - e + 52) with (digits m - 1) by lia.
Qed.

(** The second shift renormalises a carry and changes nothing else. *)
Lemma second_shift m1 e1 :
  0 <= m1 <= 2 ^ 53 -> -1074 <= e1 -> (m1 < 2 ^ 52 -> e1 = -1074) ->
  let '(mrs, e2) := shr_fexp prec emax m1 e1 loc_Exact in
  0 <= shr_m mrs /\ scale (shr_m mrs) e2 = scale m1 e1 /\
  (0 < shr_m mrs -> e2 = fx (digits (shr_m mrs) + e2)).
Proof.
  intros Hm He Hsub. pose proof (shr_fexp_spec m1 e1 loc_Exact ltac:(lia)) as Hs.
  destruct (shr_fexp prec emax m1 e1 loc_Exact) as [mrs e2]. destruct Hs as (He2 & Hm2 & _).
  destruct (Z.eq_dec m1 (2 ^ 53)) as [->|Hne].
  - change (digits (2 ^ 53)) with 54 in He2. assert (e2 = e1 + 1) as -> by (unfold fx in He2; lia).
    replace (e1 + 1 - e1) with 1 in Hm2 by lia. change (2 ^ 53 / 2 ^ 1) with (2 ^ 52) in Hm2.
    rewrite Hm2. split; [done|]. split.
    + unfold scale. replace (e1 + 1 + 4096) with (1 + (e1 + 4096)) by lia.
      rewrite (Z.pow_add_r 2 1) by lia. lia.
    + intros _. change (digits (2 ^ 52)) with 53. unfold fx. lia.
  - assert (Hd : digits m1 <= 53) by (apply digits_le; lia).
    pose proof (digits_nonneg m1 ltac:(lia)).
    assert (e2 = e1) as -> by (unfold fx in He2; lia). rewrite Z.sub_diag, Z.div_1_r in Hm2.
    rewrite Hm2. split; [lia|]. split; [done|]. intros Hpos.
    destruct (Z.lt_ge_cases m1 (2 ^ 52)) as [Hlt|Hge].
    + rewrite Hsub by done. unfold fx. lia.
    + rewrite (digits_unique m1 53) by lia. unfold fx. lia.
Qed.

Lemma scale_mono m m' e : m <= m' -> scale m e <= scale m' e.
Proof. intros. unfold scale. apply Z.mul_le_mono_nonneg_r; lia. Qed.

Lemma scale_nonneg m e : 0 <= m -> 0 <= scale m e.
Proof. intros. unfold scale. apply Z.mul_nonneg_nonneg; [done|apply Z.pow_nonneg; lia]. Qed.

(** Moving a factor [2^k] between significand and exponent. *)
Lemma scale_shift m e k : 0 <= k -> -4096 <= e -> scale (m * 2 ^ k) e = scale m (e + k).
Proof.
  intros. unfold scale. replace (e + k + 4096) with (k + (e + 4096)) by lia.
  rewrite (Z.pow_add_r 2 k) by lia. lia.
Qed.

(** A representable lower bound survives the truncation to 53 bits. *)
Lemma truncation_above m e my ey e1 :
  0 <= m -> -4096 <= e <= e1 -> e1 = fx (digits m + e) -> 0 <= my < 2 ^ 53 -> -1074 <= ey ->
  scale my ey <= scale m e -> scale my ey <= scale (m / 2 ^ (e1 - e)) e1.
Proof.
  intros Hm He He1 Hmy Hey Hle. assert (Hp : 0 < 2 ^ (e1 - e)) by (apply Z.pow_pos_nonneg; lia).
  assert (HP : 0 < 2 ^ (e1 + 4096)) by (apply Z.pow_pos_nonneg; lia).
  assert (Hpe : 0 < 2 ^ (e + 4096)) by (apply Z.pow_pos_nonneg; lia).
  destruct (Z.le_gt_cases e1 ey) as [Hge|Hlt].
  - assert (Hy : scale my ey = scale (my * 2 ^ (ey - e1)) e1).
    { rewrite scale_shift by lia. f_equal. lia. }
    rewrite Hy in *. clear Hy.
    set (y := my * 2 ^ (ey - e1)) in *. apply scale_mono. apply Z.div_le_lower_bound; [done|].
    unfold scale in Hle. replace (e1 + 4096) with ((e1 - e) + (e + 4096)) in Hle by lia.
    rewrite Z.pow_add_r in Hle by lia. nia.
  - assert (He53 : e1 = digits m + e - 53) by (unfold fx in He1; lia).
    assert (Hm0 : 0 < m).
    { destruct (Z.eq_dec m 0) as [->|]; [|lia]. change (digits 0) with 0 in He53. lia. }
    pose proof (digits_spec m Hm0) as [Hd _].
    assert (H52 : 2 ^ 52 <= m / 2 ^ (e1 - e)).
    { apply Z.div_le_lower_bound; [done|]. rewrite <- Z.pow_add_r by lia.
      by replace (e1 - e + 52) with (digits m - 1) by lia. }
    transitivity (scale (2 ^ 52) e1); [|by apply scale_mono].
    unfold scale. replace (e1 + 4096) with ((e1 - ey - 1) + 1 + (ey + 4096)) by lia.
    rewrite (Z.pow_add_r 2 (e1 - ey - 1 + 1)), (Z.pow_add_r 2 (e1 - ey - 1)) by lia.
    assert (0 < 2 ^ (e1 - ey - 1)) by (apply Z.pow_pos_nonneg; lia).
    assert (0 < 2 ^ (ey + 4096)) by (apply Z.pow_pos_nonneg; lia).
    assert (my <= 2 ^ 52 * (2 ^ (e1 - ey - 1) * 2 ^ 1)) by nia. nia.
Qed.

Lemma round_aux_spec s m e l :
  0 <= m -> -4096 <= e -> e <= fx (digits m + e) ->
  let x := binary_round_aux prec emax s m e l in
  valid x /\ (s = false -> nonneg x) /\
  (forall my ey, 0 <= my < 2 ^ 53 -> -1074 <= ey -> scale my ey <= scale m e ->
    at_least (scale my ey) x) /\
  (e < 0 -> m < 2 ^ (- e) -> at_most x (scale 1 0)).
Proof.
  intros Hm Hlo He. unfold binary_round_aux.
  pose proof (first_shift m e l Hm He) as H1.
  destruct (shr_fexp prec emax m e l) as [mrs1 e1].
  set (m1 := round_nearest_even _ _) in *. destruct H1 as (He1 & Hm1 & Hm0 & Hsub).
  assert (He1' : -1074 <= e1) by (unfold fx in He1; lia).
  pose proof (second_shift m1 e1 ltac:(lia) He1' Hsub) as H2.
  destruct (shr_fexp prec emax m1 e1 loc_Exact) as [mrs2 e2]. destruct H2 as (Hm2 & Hsc & Hcan).
  assert (Hlower : forall my ey, 0 <= my < 2 ^ 53 -> -1074 <= ey -> scale my ey <= scale m e ->
    scale my ey <= scale (shr_m mrs2) e2).
  { intros my ey Hmy Hey Hle. rewrite Hsc.
    etransitivity; [apply (truncation_above m e my ey e1); (done || lia)|].
    apply scale_mono. lia. }
  assert (Hupper : e < 0 -> m < 2 ^ (- e) -> scale (shr_m mrs2) e2 <= scale 1 0).
  { intros Hneg Hlt. rewrite Hsc.
    assert (Hd : digits m <= - e) by (apply digits_le; lia).
    assert (He1n : e1 <= 0) by (unfold fx in He1; lia).
    assert (Hm1u : m1 <= 2 ^ (- e1)).
    { assert (m / 2 ^ (e1 - e) < 2 ^ (- e1)); [|lia].
      apply Z.div_lt_upper_bound; [apply Z.pow_pos_nonneg; lia|].
      rewrite <- Z.pow_add_r by lia. by replace (e1 - e + - e1) with (- e) by lia. }
    transitivity (scale (2 ^ (- e1)) e1); [by apply scale_mono|].
    rewrite <- (Z.mul_1_l (2 ^ (- e1))), scale_shift by lia. by rewrite Z.add_opp_diag_r. }
  destruct (shr_m mrs2) as [|p|p] eqn:E; [| |lia].
  - split; [done|]. split; [done|]. split; [intros; by apply Hlower|intros; by apply Hupper].
  - destruct (e2 <=? emax - prec) eqn:Ele.
    + bcases. unfold emax, prec in Ele. split; [|split; [done|]; split; auto].
      split; [lia|]. split; [apply Hcan; lia|lia].
    + split; [done|]. split; [done|]. split; [done|]. intros Hneg Hlt. exfalso.
      specialize (Hupper Hneg Hlt). bcases. unfold emax, prec in Ele. unfold scale in Hupper.
      assert (2 ^ (0 + 4096) < 2 ^ (e2 + 4096)) by (apply Z.pow_lt_mono_r; lia). lia.
Qed.

(** * Bit patterns *)

Lemma bits_fields (s : bool) E f :
  0 <= E < 2048 -> 0 <= f < 2 ^ 52 ->
  let b := (if s then 2 ^ 63 else 0) + E * 2 ^ 52 + f in
  bits_sign b = s /\ bits_exp b = E /\ bits_frac b = f.
Proof.
  intros HE Hf b.
  assert (Hb : b = (if s then 2048 else 0) * 2 ^ 52 + E * 2 ^ 52 + f) by (unfold b; destruct s; lia).
  assert (Hq : b / 2 ^ 52 = (if s then 2048 else 0) + E).
  { symmetry. apply (Z.div_unique_pos _ _ _ f); [done|]. destruct s; lia. }
  unfold bits_sign, bits_exp, bits_frac. split_and!.
  - rewrite Z.testbit_odd, Z.shiftr_div_pow2 by lia.
    assert (b / 2 ^ 63 = if s then 1 else 0) as -> by
      (symmetry; apply (Z.div_unique_pos _ _ _ (E * 2 ^ 52 + f)); destruct s; lia).
    by destruct s.
  - rewrite Z.shiftr_div_pow2, Hq by lia. change 2047 with (Z.ones 11). rewrite Z.land_ones by lia.
    change (2 ^ 11) with 2048. symmetry. apply (Z.mod_unique_pos _ _ (if s then 1 else 0)); destruct s; lia.
  - change (2 ^ 52 - 1) with (Z.ones 52). rewrite Z.land_ones by lia.
    symmetry. apply (Z.mod_unique_pos _ _ ((if s then 2048 else 0) + E)); destruct s; lia.
Qed.

Lemma canonical_cases m e :
  canonical m e -> (m < 2 ^ 52 /\ e = -1074) \/ (2 ^ 52 <= m < 2 ^ 53 /\ -1074 <= e <= 971).
Proof.
  intros (Hm & He & Hmax). pose proof (digits_spec m Hm) as [H1 H2].
  pose proof (digits_pos m Hm).
  destruct (Z.lt_ge_cases m (2 ^ 52)) as [Hlt|Hge].
  - left. assert (digits m <= 52) by (apply digits_le; lia). unfold fx in He. lia.
  - right. assert (53 <= digits m).
    { assert (52 < digits m); [|lia]. apply (Z.pow_lt_mono_r_iff 2); lia. }
    unfold fx in He. assert (Hd : digits m = 53) by lia. rewrite Hd in H2. lia.
Qed.

(** Decoding undoes encoding on every valid number. *)
Lemma sf_of_sf x : valid x -> sf (of_sf x) = x.
Proof.
  unfold sf, of_sf, sf_of_bits, bits_of_sf. cbn [d_bits]. destruct x as [s|s| |s m e]; intros Hv.
  - by destruct s.
  - by destruct s.
  - done.
  - apply canonical_cases in Hv as [[Hm ->]|[Hm He]].
    + rewrite (proj2 (Z.ltb_lt _ _)) by done.
      destruct (bits_fields s 0 (Zpos m)) as (E1 & E2 & E3); [lia|lia|].
      rewrite Z.mul_0_l, Z.add_0_r in *. by rewrite E1, E2, E3.
    + rewrite (proj2 (Z.ltb_ge _ _)) by lia.
      destruct (bits_fields s (e + 1075) (Zpos m - 2 ^ 52)) as (E1 & E2 & E3); [lia|lia|].
      rewrite E1, E2, E3. rewrite (proj2 (Z.eqb_neq _ _)), (proj2 (Z.eqb_neq _ _)) by lia.
      replace (Zpos m - 2 ^ 52 + 2 ^ 52) with (Zpos m) by lia. f_equal. lia.
Qed.

(** Decoding gives a valid number whatever the pattern. *)
Lemma sf_valid x : valid (sf x).
Proof.
  unfold sf, sf_of_bits. set (b := d_bits x).
  assert (Hf : 0 <= bits_frac b < 2 ^ 52).
  { unfold bits_frac. change (2 ^ 52 - 1) with (Z.ones 52). rewrite Z.land_ones by lia.
    apply Z.mod_pos_bound. lia. }
  assert (He : 0 <= bits_exp b < 2048).
  { unfold bits_exp. change 2047 with (Z.ones 11). rewrite Z.land_ones by lia.
    apply Z.mod_pos_bound. lia. }
  destruct (bits_exp b =? 0) eqn:E0.
  - destruct (bits_frac b) as [|p|p] eqn:Ep; try done. split; [lia|].
    assert (digits (Zpos p) <= 52) by (apply digits_le; lia).
    pose proof (digits_pos (Zpos p) ltac:(lia)). unfold fx. lia.
  - destruct (bits_exp b =? 2047) eqn:E1; [by destruct (bits_frac b =? 0)|].
    destruct (bits_frac b + 2 ^ 52) as [|p|p] eqn:Ep; try lia. bcases. split; [lia|].
    rewrite (digits_unique (Zpos p) 53) by lia. unfold fx. lia.
Qed.

(** * Order *)

Lemma canonical_lt m1 e1 m2 e2 :
  canonical m1 e1 -> canonical m2 e2 -> e1 < e2 -> scale m1 e1 < scale m2 e2.
Proof.
  intros H1%canonical_cases H2%canonical_cases Hlt.
  assert (m1 < 2 ^ 53 /\ 2 ^ 52 <= m2 /\ -1074 <= e1) as (Hm1 & Hm2 & Hlo) by lia.
  apply (Z.lt_le_trans _ (scale (2 ^ 52) e2)); [|by apply scale_mono].
  unfold scale. replace (e2 + 4096) with ((e2 - e1 - 1) + 1 + (e1 + 4096)) by lia.
  rewrite (Z.pow_add_r 2 (e2 - e1 - 1 + 1)), (Z.pow_add_r 2 (e2 - e1 - 1)) by lia.
  assert (0 < 2 ^ (e2 - e1 - 1)) by (apply Z.pow_pos_nonneg; lia).
  assert (0 < 2 ^ (e1 + 4096)) by (apply Z.pow_pos_nonneg; lia).
  assert (m1 < 2 ^ 52 * (2 ^ (e2 - e1 - 1) * 2 ^ 1)) by nia. nia.
Qed.

Lemma scale_pos m e : 0 < m -> -4096 <= e -> 0 < scale m e.
Proof. intros. unfold scale. apply Z.mul_pos_pos; [done|apply Z.pow_pos_nonneg; lia]. Qed.

Lemma canonical_low m e : canonical m e -> 0 < m /\ -1074 <= e.
Proof. intros H. pose proof (canonical_cases m e H). destruct H. lia. Qed.

(** [b <= a] read off a comparison that fails. *)
Lemma ltb_false_le a b v :
  valid a -> valid b -> nonneg a -> nonneg b -> SFltb a b = false -> at_least v b -> at_least v a.
Proof.
  intros Va Vb Na Nb Hlt Hb. unfold SFltb in Hlt.
  destruct a as [sa|sa| |sa ma ea], b as [sb|sb| |sb mb eb]; cbn in *; subst; try done.
  - pose proof (canonical_low _ _ Va) as [? ?]. pose proof (scale_pos (Zpos ma) ea). lia.
  - destruct (Z.compare_spec ea eb) as [->|Hl|Hg]; [|done|].
    + destruct (Pos.compare_cont Eq ma mb) eqn:E; [| done|];
        fold (Pos.compare ma mb) in E;
        [apply Pos.compare_eq in E as ->; done|].
      etransitivity; [exact Hb|]. apply scale_mono. apply Pos.compare_gt_iff in E. lia.
    + pose proof (canonical_lt _ _ _ _ Vb Va Hg). lia.
Qed.

(** The converse: a comparison fails when [b <= v <= a]. *)
Lemma le_ltb_false a b v :
  valid a -> valid b -> nonneg a -> nonneg b -> at_most b v -> at_least v a -> SFltb a b = false.
Proof.
  intros Va Vb Na Nb Hb Ha. unfold SFltb.
  destruct a as [sa|sa| |sa ma ea], b as [sb|sb| |sb mb eb]; cbn in *; subst; try done.
  - pose proof (canonical_low _ _ Vb) as [? ?]. pose proof (scale_pos (Zpos mb) eb). lia.
  - destruct (Z.compare_spec ea eb) as [->|Hl|Hg]; [| |done].
    + destruct (Pos.compare_cont Eq ma mb) eqn:E; try done.
      fold (Pos.compare ma mb) in E. apply Pos.compare_lt_iff in E. exfalso.
      assert (scale (Zpos ma) eb < scale (Zpos mb) eb); [|lia].
      pose proof (canonical_low _ _ Vb) as [_ Hlow]. unfold scale.
      apply Z.mul_lt_mono_pos_r; [apply Z.pow_pos_nonneg; lia|exact E].
    + pose proof (canonical_lt _ _ _ _ Va Vb Hl). lia.
Qed.

(** * Operations *)

Lemma iter_xO p d : Zpos (Pos.iter xO p d) = Zpos p * 2 ^ Zpos d.
Proof.
  induction d as [|d IH] using Pos.peano_ind.
  - change (Pos.iter xO p 1) with (xO p). lia.
  - rewrite Pos.iter_succ, Pos2Z.inj_succ, Z.pow_succ_r by lia.
    change (Zpos (xO (Pos.iter xO p d))) with (2 * Zpos (Pos.iter xO p d)). lia.
Qed.

Lemma shl_align_spec p e e' :
  -4096 <= e' ->
  let '(m, ez) := shl_align p e e' in
  ez = Z.min e e' /\ scale (Zpos m) ez = scale (Zpos p) e /\
  digits (Zpos m) + ez = digits (Zpos p) + e.
Proof.
  intros Hlo. unfold shl_align. destruct (e' - e) as [|d|d] eqn:E.
  - split_and!; (done || lia).
  - split_and!; (done || lia).
  - rewrite iter_xO, digits_shift by lia. rewrite scale_shift by lia.
    split_and!; [lia|f_equal; lia|lia].
Qed.

(** [binary_round] in terms of the exact value it is given. *)
Lemma round_spec s p e :
  -4096 <= e ->
  let x := binary_round prec emax s p e in
  valid x /\ (s = false -> nonneg x) /\
  (forall my ey, 0 <= my < 2 ^ 53 -> -1074 <= ey -> scale my ey <= scale (Zpos p) e ->
    at_least (scale my ey) x) /\
  (e < 0 -> Zpos p < 2 ^ (- e) -> at_most x (scale 1 0)).
Proof.
  intros He. unfold binary_round. rewrite digits2_pos_log2, fexp_fx.
  change (Z.log2 (Zpos p) + 1) with (digits (Zpos p)).
  set (f := fx (digits (Zpos p) + e)). assert (Hf : -1074 <= f) by (unfold f, fx; lia).
  pose proof (shl_align_spec p e f ltac:(lia)) as Hs.
  destruct (shl_align p e f) as [m ez]. destruct Hs as (Hez & Hsc & Hd).
  destruct (round_aux_spec s (Zpos m) ez loc_Exact) as (V & N & L & U); [lia|lia|rewrite Hd; lia|].
  split_and!; [done|done|by rewrite <- Hsc|]. intros Hneg Hlt. apply U; [lia|].
  apply (Z.mul_lt_mono_pos_r (2 ^ (ez + 4096))); [apply Z.pow_pos_nonneg; lia|].
  rewrite <- Z.pow_add_r by lia. fold (scale (Zpos m) ez). rewrite Hsc. unfold scale.
  replace (- ez + (ez + 4096)) with ((- e) + (e + 4096)) by lia. rewrite (Z.pow_add_r 2 (- e)) by lia.
  apply Z.mul_lt_mono_pos_r; [apply Z.pow_pos_nonneg; lia|done].
Qed.

(** A value that needs no more than 53 bits is not rounded. *)
Lemma round_exact s p e :
  digits (Zpos p) <= 53 -> -1074 <= e -> digits (Zpos p) + e <= 1024 ->
  exists m e', binary_round prec emax s p e = S754_finite s m e' /\ canonical (Zpos m) e' /\
    scale (Zpos m) e' = scale (Zpos p) e.
Proof.
  intros Hd He Hmax. unfold binary_round. rewrite digits2_pos_log2, fexp_fx.
  change (Z.log2 (Zpos p) + 1) with (digits (Zpos p)).
  set (f := fx (digits (Zpos p) + e)). assert (Hf : -1074 <= f <= e) by (unfold f, fx; lia).
  pose proof (shl_align_spec p e f ltac:(lia)) as Hs.
  destruct (shl_align p e f) as [m ez]. destruct Hs as (Hez & Hsc & Hdm).
  rewrite Z.min_r in Hez by lia. subst ez. exists m, f.
  assert (Hshr : shr_fexp prec emax (Zpos m) f loc_Exact = (Build_shr_record (Zpos m) false false, f)).
  { pose proof (shr_fexp_spec (Zpos m) f loc_Exact ltac:(lia)) as H.
    destruct (shr_fexp prec emax (Zpos m) f loc_Exact) as [mrs e1]. destruct H as (H1 & _ & H3).
    rewrite Hdm in H1. fold f in H1. rewrite Z.max_id in H1. subst e1. by rewrite H3. }
  assert (Hcap : f <= 971) by (unfold f, fx; lia).
  unfold binary_round_aux. rewrite Hshr. cbn [shr_m loc_of_shr_record round_nearest_even].
  rewrite Hshr. cbn [shr_m]. rewrite (proj2 (Z.leb_le f (emax - prec))) by (unfold emax, prec; lia).
  split; [done|]. split; [|done]. split; [lia|]. rewrite Hdm. done.
Qed.

(** ** Integers *)

Definition exact_int (z : Z) (x : spec_float) : Prop :=
  valid x /\ nonneg x /\ at_least (scale z 0) x /\ at_most x (scale z 0).

Lemma double_of_Z_exact z : 0 <= z < 2 ^ 53 -> exact_int z (sf (double_of_Z z)).
Proof.
  intros Hz. unfold double_of_Z. destruct z as [|p|p]; [| |lia].
  - rewrite sf_of_sf by done. by cbn.
  - cbn [binary_normalize].
    assert (Hd : digits (Zpos p) <= 53) by (apply digits_le; lia).
    destruct (round_exact false p 0) as (m & e & E & Hc & Hs); [lia|lia|lia|].
    rewrite E, sf_of_sf by done. split_and!; try done; cbn; lia.
Qed.

Lemma exact_one : exact_int 1 (sf d1).
Proof. split_and!; (done || by vm_compute). Qed.

(** ** Addition of nonnegative numbers *)

Lemma cond_add_align mx ex my ey :
  -1074 <= ex -> -1074 <= ey ->
  let ez := Z.min ex ey in
  let a := Zpos (fst (shl_align mx ex ez)) in
  let b := Zpos (fst (shl_align my ey ez)) in
  scale a ez = scale (Zpos mx) ex /\ scale b ez = scale (Zpos my) ey.
Proof.
  intros Hx Hy. cbv zeta.
  pose proof (shl_align_spec mx ex (Z.min ex ey) ltac:(lia)) as H1.
  pose proof (shl_align_spec my ey (Z.min ex ey) ltac:(lia)) as H2.
  destruct (shl_align mx ex (Z.min ex ey)) as [a ea], (shl_align my ey (Z.min ex ey)) as [b eb].
  destruct H1 as (E1 & H1 & _), H2 as (E2 & H2 & _). cbn [fst].
  rewrite Z.min_r in E1, E2 by lia. subst. done.
Qed.

Lemma scale_add a b e : scale (a + b) e = scale a e + scale b e.
Proof. unfold scale. lia. Qed.

(** The sum of nonnegative numbers is at least any representable number that the
    exact sum is at least. *)
Lemma add_nonneg x y :
  nonneg x -> nonneg y -> valid x -> valid y ->
  let s := SFadd prec emax x y in
  valid s /\ nonneg s /\
  (forall my ey v1 v2, 0 <= my < 2 ^ 53 -> -1074 <= ey -> 0 <= v1 -> 0 <= v2 ->
    scale my ey <= v1 + v2 -> at_least v1 x -> at_least v2 y -> at_least (scale my ey) s).
Proof.
  intros Nx Ny Vx Vy. destruct x as [sx|sx| |sx mx ex], y as [sy|sy| |sy my ey]; cbn in Nx, Ny; subst;
    try done.
  - cbn. destruct sx, sy; cbn; split_and!; (done || (intros; lia)).
  - cbn. split_and!; (done || (intros; lia)).
  - cbn. split_and!; (done || (intros; lia)).
  - pose proof (canonical_low _ _ Vx) as [_ Hex]. pose proof (canonical_low _ _ Vy) as [_ Hey].
    cbn [SFadd cond_Zopp]. destruct (cond_add_align mx ex my ey Hex Hey) as [Ha Hb].
    set (ez := Z.min ex ey) in *. set (a := fst (shl_align mx ex ez)) in *.
    set (b := fst (shl_align my ey ez)) in *. change (Zpos a + Zpos b) with (Zpos (a + b)).
    cbn [binary_normalize]. destruct (round_spec false (a + b) ez) as (V & N & L & _); [lia|].
    split; [done|]. split; [by apply N|]. intros ym ye v1 v2 Hy1 Hy2 H1 H2 Hle Hx Hy. cbn in Hx, Hy.
    apply L; [done|done|]. rewrite Pos2Z.inj_add, scale_add. lia.
Qed.

(** ** Products of nonnegative numbers *)

Lemma digits_mul a b : 0 < a -> 0 < b -> digits a + digits b - 1 <= digits (a * b).
Proof.
  intros Ha Hb. pose proof (digits_spec a Ha) as [A1 _]. pose proof (digits_spec b Hb) as [B1 _].
  pose proof (digits_pos a Ha). pose proof (digits_pos b Hb).
  assert (Hab : 0 < a * b) by lia. pose proof (digits_spec (a * b) Hab) as [_ C].
  assert (digits a + digits b - 2 < digits (a * b)); [|lia].
  apply (Z.pow_lt_mono_r_iff 2); [lia|apply digits_nonneg; lia|].
  eapply Z.le_lt_trans; [|exact C].
  replace (digits a + digits b - 2) with ((digits a - 1) + (digits b - 1)) by lia.
  rewrite Z.pow_add_r by lia. apply Z.mul_le_mono_nonneg; try lia.
Qed.

Lemma mul_nonneg x y :
  nonneg x -> nonneg y -> valid x -> valid y ->
  (forall s, x <> S754_infinity s) -> (forall s, y <> S754_infinity s) ->
  let p := SFmul prec emax x y in valid p /\ nonneg p.
Proof.
  intros Nx Ny Vx Vy Ix Iy. destruct x as [sx|sx| |sx mx ex], y as [sy|sy| |sy my ey];
    cbn in Nx, Ny; subst; try done; try (by destruct (Ix false)); try (by destruct (Iy false)).
  cbn [SFmul xorb]. pose proof (canonical_low _ _ Vx) as [Hmx Hex].
  pose proof (canonical_low _ _ Vy) as [Hmy Hey].
  change (Zpos (mx * my)) with (Zpos mx * Zpos my).
  destruct (round_aux_spec false (Zpos mx * Zpos my) (ex + ey) loc_Exact) as (V & N & _); try lia.
  { pose proof (digits_mul _ _ Hmx Hmy). destruct Vx as (_ & Ex & _), Vy as (_ & Ey & _).
    pose proof (digits_pos _ Hmx). pose proof (digits_pos _ Hmy). unfold fx in *. lia. }
  split; [done|by apply N].
Qed.

(** ** Quotients and differences in the unit interval *)

(** The bit length of an integer quotient. *)
Lemma digits_quot a b : 0 < a -> 0 < b -> digits a - digits b <= digits (a / b).
Proof.
  intros Ha Hb. pose proof (digits_spec a Ha) as [A _]. pose proof (digits_spec b Hb) as [_ B].
  pose proof (digits_pos b Hb).
  assert (Hq : 0 <= a / b) by (apply Z.div_pos; lia). pose proof (digits_nonneg _ Hq).
  destruct (Z.le_gt_cases (digits a - digits b) 0); [lia|].
  assert (Hge : 2 ^ (digits a - digits b - 1) <= a / b).
  { apply Z.div_le_lower_bound; [done|]. etransitivity; [|exact A].
    replace (digits a - 1) with (digits b + (digits a - digits b - 1)) by lia.
    rewrite Z.pow_add_r by lia. apply Z.mul_le_mono_nonneg_r; [apply Z.pow_nonneg; lia|lia]. }
  assert (Hqp : 0 < a / b)
    by (assert (0 < 2 ^ (digits a - digits b - 1)) by (apply Z.pow_pos_nonneg; lia); lia).
  pose proof (digits_spec _ Hqp) as [_ C].
  assert (digits a - digits b - 1 < digits (a / b)); [|lia].
  apply (Z.pow_lt_mono_r_iff 2); lia.
Qed.

(** The magnitudes of two ordered numbers. *)
Lemma scale_lt_digits m1 e1 m2 e2 :
  0 < m1 -> 0 < m2 -> -4096 <= e1 -> -4096 <= e2 -> scale m1 e1 < scale m2 e2 ->
  digits m1 + e1 <= digits m2 + e2.
Proof.
  intros H1 H2 L1 L2 Hlt. destruct (Z.le_gt_cases (digits m1 + e1) (digits m2 + e2)) as [|Hgt]; [done|].
  exfalso. assert (scale m2 e2 <= scale m1 e1); [|lia]. unfold scale.
  pose proof (digits_spec m1 H1) as [A _]. pose proof (digits_spec m2 H2) as [_ B].
  pose proof (digits_pos m1 H1). pose proof (digits_pos m2 H2).
  transitivity (2 ^ (digits m2 + (e2 + 4096))).
  - rewrite (Z.pow_add_r 2 (digits m2)) by lia. apply Z.mul_le_mono_nonneg_r; lia.
  - transitivity (2 ^ ((digits m1 - 1) + (e1 + 4096))); [apply Z.pow_le_mono_r; lia|].
    rewrite (Z.pow_add_r 2 (digits m1 - 1)) by lia. apply Z.mul_le_mono_nonneg_r; lia.
Qed.

(** The integer quotient [SFdiv] rounds, when the exact one is below one. *)
Lemma quotient_below_one m1 e1 m2 e2 s e' :
  0 < m2 -> -2048 <= e1 -> -2048 <= e2 -> -2048 <= e' <= 0 -> s = e1 - e2 - e' -> 0 <= s ->
  scale m1 e1 < scale m2 e2 -> m1 * 2 ^ s / m2 < 2 ^ (- e').
Proof.
  intros Hm2 L1 L2 He' -> Hs Hlt. apply Z.div_lt_upper_bound; [done|]. unfold scale in Hlt.
  apply (Z.mul_lt_mono_pos_r (2 ^ (e2 + e' + 4096))); [apply Z.pow_pos_nonneg; lia|].
  rewrite <- !Z.mul_assoc, <- !Z.pow_add_r by lia.
  replace (e1 - e2 - e' + (e2 + e' + 4096)) with (e1 + 4096) by lia.
  replace (- e' + (e2 + e' + 4096)) with (e2 + 4096) by lia. done.
Qed.

(** The quotient of a smaller number by a larger one is a number at most one. *)
Lemma div_unit x y v :
  nonneg x -> valid x -> valid y -> nonneg y -> 0 < v -> at_most x (v - 1) -> at_least v y ->
  (forall s, y <> S754_infinity s) ->
  let q := SFdiv prec emax x y in valid q /\ nonneg q /\ at_most q (scale 1 0).
Proof.
  intros Nx Vx Vy Ny Hv Hx Hy Iy.
  destruct y as [sy|sy| |sy my ey]; cbn in Hy, Ny; subst; try lia; [by destruct (Iy false)|].
  destruct x as [sx|sx| |sx mx ex]; cbn in Nx, Hx; subst; try done.
  pose proof (canonical_low _ _ Vx) as [Hmx Hex]. pose proof (canonical_low _ _ Vy) as [Hmy Hey].
  assert (Hlt : scale (Zpos mx) ex < scale (Zpos my) ey) by lia. clear v Hv Hx Hy.
  destruct Vx as (_ & _ & Hex2), Vy as (_ & _ & Hey2).
  cbn [SFdiv xorb]. unfold SFdiv_core_binary. rewrite fexp_fx, !Zdigits2_digits by lia.
  pose proof (scale_lt_digits _ ex _ ey Hmx Hmy ltac:(lia) ltac:(lia) Hlt) as Hd.
  set (e' := Z.min _ (ex - ey)). set (s := ex - ey - e').
  assert (Hs : 0 <= s) by (unfold s, e'; lia).
  assert (He' : -2048 <= e' <= -1) by (unfold e', fx; lia).
  assert (Hm' : match s with Zpos _ => Z.shiftl (Zpos mx) s | Z0 => Zpos mx | Zneg _ => 0 end
                = Zpos mx * 2 ^ s).
  { destruct s as [|k|k]; [lia| |lia]. by rewrite Z.shiftl_mul_pow2. }
  rewrite Hm'. clear Hm'. assert (Hp2 : 0 < 2 ^ s) by (apply Z.pow_pos_nonneg; lia).
  pose proof (digits_quot (Zpos mx * 2 ^ s) (Zpos my) ltac:(lia) Hmy) as Hdig.
  rewrite digits_shift in Hdig by lia.
  pose proof (quotient_below_one (Zpos mx) ex (Zpos my) ey s e' Hmy ltac:(lia) ltac:(lia)
    ltac:(lia) eq_refl Hs Hlt) as Hq1.
  assert (Hq0 : 0 <= Zpos mx * 2 ^ s / Zpos my) by (apply Z.div_pos; lia).
  unfold Z.div in *. destruct (Z.div_eucl (Zpos mx * 2 ^ s) (Zpos my)) as [q r].
  destruct (round_aux_spec false q e' (new_location (Zpos my) r)) as (V & N & _ & U); try lia.
  { unfold e', s, fx in *. lia. }
  split; [done|]. split; [by apply N|]. apply U; lia.
Qed.

(** One minus a number in the unit interval is a nonnegative finite number. *)
Lemma one_minus_unit q :
  valid q -> nonneg q -> at_most q (scale 1 0) ->
  let w := SFsub prec emax (sf d1) q in
  valid w /\ nonneg w /\ (forall s, w <> S754_infinity s).
Proof.
  intros Vq Nq Hq.
  assert (Hone : sf d1 = S754_finite false (2 ^ 52) (-52)) by (by vm_compute). rewrite Hone.
  destruct q as [sq|sq| |sq mq eq]; cbn in Nq, Hq; subst; try done.
  pose proof (canonical_low _ _ Vq) as [Hmq Heq]. cbn [SFsub cond_Zopp].
  destruct (cond_add_align (2 ^ 52) (-52) mq eq ltac:(lia) Heq) as [Ha Hb].
  set (ez := Z.min (-52) eq) in *. set (a := Zpos (fst (shl_align (2 ^ 52) (-52) ez))) in *.
  set (b := Zpos (fst (shl_align mq eq ez))) in *.
  change (scale (Zpos (2 ^ 52)) (-52)) with (scale 1 0) in Ha.
  assert (Hpz : 0 < 2 ^ (ez + 4096)) by (apply Z.pow_pos_nonneg; lia).
  assert (Hab : 0 <= a - b).
  { assert (scale b ez <= scale a ez) by lia. unfold scale in H. nia. }
  assert (Hlt : a - b < 2 ^ (- ez)).
  { assert (0 < b) by lia. assert (a = 2 ^ (- ez)); [|lia].
    unfold scale in Ha. apply (Z.mul_reg_r _ _ (2 ^ (ez + 4096))); [lia|]. rewrite Ha.
    rewrite <- Z.pow_add_r by lia. rewrite Z.mul_1_l. f_equal. lia. }
  destruct (a - b) as [|p|p] eqn:E; [done| |lia]. cbn [binary_normalize].
  destruct (round_spec false p ez) as (V & N & _ & U); [lia|].
  split; [done|]. split; [by apply N|]. intros s Hs. specialize (U ltac:(lia) Hlt). by rewrite Hs in U.
Qed.
