(* ===== verification/Item.v ===== *)
(** The domain data (include/lrd/rank/item.hpp, include/lrd/rank/signal.hpp):
    items, ranked results and the user signal a request carries. *)
From stdpp Require Import base list numbers.
From S2P Require Import Prelude Binary64.

(** [using ItemId = std::uint64_t]; a [Timestamp] is its signed millisecond count. *)
Abbreviation ItemId := Z (only parsing).
Abbreviation Timestamp := Z (only parsing).

Definition to_epoch_millis (t : Timestamp) : Z := t.
Definition from_epoch_millis (millis : Z) : Timestamp := millis.

Record Item := MkItem {
  item_id : ItemId;
  item_category : bstring;
  item_advertiser : bstring;
  item_base_score : double;
  item_created_at : Timestamp;
  item_expires_at : Timestamp
}.

(** The value-initialised [Item{}]. *)
Definition default_item : Item := MkItem 0 [] [] d0 0 0.

Definition never_expires (item : Item) : bool := to_epoch_millis (item_expires_at item) =? 0.

Record RankedItem := MkRanked {
  ranked_id : ItemId;
  ranked_score : double;
  ranked_category : bstring;
  ranked_advertiser : bstring
}.

Record CategoryAffinity := MkAffinity {
  affinity_category : bstring;
  affinity_weight : double
}.

Record UserSignal := MkSignal {
  affinities : list CategoryAffinity;
  excluded_categories : list bstring
}.

Definition default_signal : UserSignal := MkSignal [] [].

(** The first matching entry wins. *)
Fixpoint affinity_scan (entries : list CategoryAffinity) (category : bstring)
    (fallback : double) : double :=
  match entries with
  | [] => fallback
  | entry :: rest =>
      if decide (affinity_category entry = category) then affinity_weight entry
      else affinity_scan rest category fallback
  end.

Definition affinity_for (signal : UserSignal) (category : bstring) (fallback : double) : double :=
  affinity_scan (affinities signal) category fallback.

Definition excludes (signal : UserSignal) (category : bstring) : bool :=
  bool_decide (category ∈ excluded_categories signal).

#[global] Instance Item_eq_dec : EqDecision Item.
Proof. solve_decision. Defined.
#[global] Instance RankedItem_eq_dec : EqDecision RankedItem.
Proof. solve_decision. Defined.
