(* ===== verification/Message.v ===== *)
(** Protocol messages (include/lrd/proto/message.hpp, src/proto/message.cpp):
    constants, enumerations, the request and response variants, and the mapping
    between a body and its wire type. *)
From stdpp Require Import base list numbers.
From S2P Require Import Prelude Binary64 Item.

(** * Constants *)

Definition kMagic : Z := 0x4C524431.
Definition kVersion : Z := 3.
Definition kLengthPrefixSize : nat := 4.
Definition kMaxFrameSize : Z := 1024 * 1024.
Definition kMinFrameSize : Z := 1.
Definition kMaxCategoryLength : Z := 64.
Definition kMaxAdvertiserLength : Z := 64.
Definition kMaxAffinities : Z := 64.
Definition kMaxExcluded : Z := 64.
Definition kMaxRecommendCount : Z := 100.
Definition kMaxMessageLength : Z := 1024.
Definition kResponseBit : Z := 0x80.

(** * Enumerations *)

Inductive MessageType :=
  | GetItemRequest | PutItemRequest | DeleteItemRequest | StatsRequest | RecommendRequest
  | GetItemResponse | PutItemResponse | DeleteItemResponse | StatsResponse
  | RecommendResponse | ErrorResponse.

(** The underlying byte of each enumerator. *)
Definition type_byte (t : MessageType) : Z :=
  match t with
  | GetItemRequest => 0x01 | PutItemRequest => 0x02 | DeleteItemRequest => 0x03
  | StatsRequest => 0x04 | RecommendRequest => 0x05
  | GetItemResponse => 0x81 | PutItemResponse => 0x82 | DeleteItemResponse => 0x83
  | StatsResponse => 0x84 | RecommendResponse => 0x85 | ErrorResponse => 0xFF
  end.

(** [static_cast<MessageType>(raw)] where it names an enumerator. *)
Definition type_of_byte (raw : Z) : option MessageType :=
  match raw with
  | 0x01 => Some GetItemRequest | 0x02 => Some PutItemRequest
  | 0x03 => Some DeleteItemRequest | 0x04 => Some StatsRequest
  | 0x05 => Some RecommendRequest
  | 0x81 => Some GetItemResponse | 0x82 => Some PutItemResponse
  | 0x83 => Some DeleteItemResponse | 0x84 => Some StatsResponse
  | 0x85 => Some RecommendResponse | 0xFF => Some ErrorResponse
  | _ => None
  end.

Definition is_response (t : MessageType) : bool :=
  negb (Z.land (type_byte t) kResponseBit =? 0).

Definition is_known_type (raw : Z) : bool :=
  match type_of_byte raw with Some _ => true | None => false end.

(** A C++ [enum class StatusCode : std::uint8_t] holds any byte; four of them are
    named. *)
Abbreviation StatusCode := Z (only parsing).
Definition SC_Ok : StatusCode := 0.
Definition SC_NotFound : StatusCode := 1.
Definition SC_InvalidRequest : StatusCode := 2.
Definition SC_Internal : StatusCode := 3.

Inductive DecodeError :=
  | DE_None | DE_Truncated | DE_BadMagic | DE_UnsupportedVersion | DE_ReservedFlags
  | DE_UnknownType | DE_WrongDirection | DE_TrailingBytes | DE_FieldTooLarge.

#[global] Instance DecodeError_eq_dec : EqDecision DecodeError.
Proof. solve_decision. Defined.
#[global] Instance MessageType_eq_dec : EqDecision MessageType.
Proof. solve_decision. Defined.

Definition message_type_to_string (type : MessageType) : bstring :=
  str (match type with
  | GetItemRequest => "GetItemRequest"
  | PutItemRequest => "PutItemRequest"
  | DeleteItemRequest => "DeleteItemRequest"
  | StatsRequest => "StatsRequest"
  | RecommendRequest => "RecommendRequest"
  | GetItemResponse => "GetItemResponse"
  | PutItemResponse => "PutItemResponse"
  | DeleteItemResponse => "DeleteItemResponse"
  | StatsResponse => "StatsResponse"
  | RecommendResponse => "RecommendResponse"
  | ErrorResponse => "ErrorResponse"
  end)%string.

Definition status_to_string (status : StatusCode) : bstring :=
  str (match status with
  | 0 => "Ok"
  | 1 => "NotFound"
  | 2 => "InvalidRequest"
  | 3 => "Internal"
  | _ => "Unknown"
  end)%string.

Definition decode_error_to_string (error : DecodeError) : bstring :=
  str (match error with
  | DE_None => "None"
  | DE_Truncated => "Truncated"
  | DE_BadMagic => "BadMagic"
  | DE_UnsupportedVersion => "UnsupportedVersion"
  | DE_ReservedFlags => "ReservedFlags"
  | DE_UnknownType => "UnknownType"
  | DE_WrongDirection => "WrongDirection"
  | DE_TrailingBytes => "TrailingBytes"
  | DE_FieldTooLarge => "FieldTooLarge"
  end)%string.

(** * Messages *)

Record Header := MkHeader {
  h_version : Z;
  h_type : MessageType;
  h_flags : Z;
  h_request_id : Z
}.

Definition default_header : Header := MkHeader kVersion GetItemRequest 0 0.

Record Stats := MkStats {
  requests : Z; gets : Z; puts : Z; deletes : Z; recommends : Z;
  hits : Z; misses : Z; evictions : Z; entries : Z; capacity : Z;
  policy_allowed : Z; policy_exposure_blocked : Z; policy_frequency_blocked : Z;
  policy_store_full : Z; policy_tracked : Z
}.
Definition default_stats : Stats := MkStats 0 0 0 0 0 0 0 0 0 0 0 0 0 0 0.

Record Recommend := MkRecommend {
  rec_signal : UserSignal;
  rec_count : Z;
  rec_dry_run : bool
}.

Inductive RequestBody :=
  | GetItem (item_id : ItemId)
  | PutItem (item : Item)
  | DeleteItem (item_id : ItemId)
  | GetStats
  | RecommendBody (r : Recommend).

Record Request := MkRequest { req_id : Z; req_body : RequestBody }.

(** [Request{}]: the variant's first alternative, value-initialised. *)
Definition default_request : Request := MkRequest 0 (GetItem 0).

Inductive ResponseBody :=
  | GetItemResult (status : StatusCode) (item : Item)
  | PutItemResult (status : StatusCode)
  | DeleteItemResult (status : StatusCode)
  | StatsResult (status : StatusCode) (stats : Stats)
  | RecommendResult (status : StatusCode) (items : list RankedItem)
  | Failure (status : StatusCode) (message : bstring).

Record Response := MkResponse { resp_id : Z; resp_body : ResponseBody }.

Definition default_response : Response := MkResponse 0 (GetItemResult SC_Ok default_item).

(** * Type discrimination *)

Definition type_of_request (body : RequestBody) : MessageType :=
  match body with
  | GetItem _ => GetItemRequest
  | PutItem _ => PutItemRequest
  | DeleteItem _ => DeleteItemRequest
  | GetStats => StatsRequest
  | RecommendBody _ => RecommendRequest
  end.

Definition type_of_response (body : ResponseBody) : MessageType :=
  match body with
  | GetItemResult _ _ => GetItemResponse
  | PutItemResult _ => PutItemResponse
  | DeleteItemResult _ => DeleteItemResponse
  | StatsResult _ _ => StatsResponse
  | RecommendResult _ _ => RecommendResponse
  | Failure _ _ => ErrorResponse
  end.

Definition status_of (body : ResponseBody) : StatusCode :=
  match body with
  | GetItemResult s _ | PutItemResult s | DeleteItemResult s
  | StatsResult s _ | RecommendResult s _ | Failure s _ => s
  end.

Definition make_error (request_id : Z) (status : StatusCode) (message : bstring) : Response :=
  MkResponse request_id (Failure status message).

(** * Lemmas *)

Lemma type_of_byte_byte t : type_of_byte (type_byte t) = Some t.
Proof. by destruct t. Qed.

Lemma type_byte_of_byte raw t : type_of_byte raw = Some t -> raw = type_byte t.
Proof.
  unfold type_of_byte. intros H.
  repeat (case_match; simplify_eq; try done).
Qed.

Lemma type_byte_fits t : fits 8 (type_byte t).
Proof. by destruct t. Qed.

Lemma request_not_response body : is_response (type_of_request body) = false.
Proof. by destruct body. Qed.

Lemma response_is_response body : is_response (type_of_response body) = true.
Proof. by destruct body. Qed.

#[export] Hint Resolve type_byte_fits : width.
