(* ===== verification/Codec.v ===== *)
(** The codec seam (include/lrd/proto/codec.hpp, [class Codec]).

    [Codec] is the abstract class: the framing layer, the connection loop and the
    client are written against it. [CodecLaws] states what every implementation
    promises to those clients; BinaryCodec.v discharges it for the hand-written
    format and Protobuf.v for the other one. *)
From stdpp Require Import base list numbers.
From S2P Require Import Prelude Binary64 Item Message Wire.

(** [encode] appends to [out]; [decode] returns the error and the final value of
    its out-parameter, which it may have written before failing. *)
Class Codec := {
  codec_name : bstring;
  encode_request : Request -> ByteBuffer -> ByteBuffer;
  encode_response : Response -> ByteBuffer -> ByteBuffer;
  decode_request : ByteBuffer -> Request -> DecodeError * Request;
  decode_response : ByteBuffer -> Response -> DecodeError * Response
}.

(** * Well-formed messages: the C++ types' ranges and the protocol's field limits *)

Definition wf_item (i : Item) : Prop :=
  fits 64 (item_id i) /\
  zlen (item_category i) <= kMaxCategoryLength /\
  zlen (item_advertiser i) <= kMaxAdvertiserLength /\
  d_wf (item_base_score i) /\
  fits_i64 (item_created_at i) /\ fits_i64 (item_expires_at i).

Definition wf_affinity (a : CategoryAffinity) : Prop :=
  zlen (affinity_category a) <= kMaxCategoryLength /\ d_wf (affinity_weight a).

Definition wf_signal (s : UserSignal) : Prop :=
  zlen (affinities s) <= kMaxAffinities /\ Forall wf_affinity (affinities s) /\
  zlen (excluded_categories s) <= kMaxExcluded /\
  Forall (fun c => zlen c <= kMaxCategoryLength) (excluded_categories s).

Definition wf_request_body (b : RequestBody) : Prop :=
  match b with
  | GetItem id | DeleteItem id => fits 64 id
  | PutItem i => wf_item i
  | GetStats => True
  | RecommendBody r => wf_signal (rec_signal r) /\ 0 <= rec_count r <= kMaxRecommendCount
  end.

Definition wf_request (r : Request) : Prop :=
  fits 64 (req_id r) /\ wf_request_body (req_body r).

Definition wf_ranked (r : RankedItem) : Prop :=
  fits 64 (ranked_id r) /\ d_wf (ranked_score r) /\
  zlen (ranked_category r) < 2 ^ 32 /\ zlen (ranked_advertiser r) < 2 ^ 32.

(** The fields of [Stats], in wire order. *)
Definition stats_fields (s : Stats) : list Z :=
  [requests s; gets s; puts s; deletes s; recommends s; hits s; misses s; evictions s;
   entries s; capacity s; policy_allowed s; policy_exposure_blocked s;
   policy_frequency_blocked s; policy_store_full s; policy_tracked s].

Definition wf_stats (s : Stats) : Prop := Forall (fits 64) (stats_fields s).

Definition wf_response_body (b : ResponseBody) : Prop :=
  fits 8 (status_of b) /\
  match b with
  | GetItemResult s i => if s =? SC_Ok then wf_item i else i = default_item
  | PutItemResult _ | DeleteItemResult _ => True
  | StatsResult _ st => wf_stats st
  | RecommendResult _ items => zlen items <= kMaxRecommendCount /\ Forall wf_ranked items
  | Failure _ m => zlen m <= kMaxMessageLength
  end.

Definition wf_response (r : Response) : Prop :=
  fits 64 (resp_id r) /\ wf_response_body (resp_body r).

(** One of the declared status codes; the code never makes another. *)
Definition known_status (r : Response) : Prop := SC_Ok <= status_of (resp_body r) <= SC_Internal.

#[global] Instance d_wf_dec x : Decision (d_wf x).
Proof. unfold d_wf. apply _. Defined.
#[global] Instance wf_item_dec i : Decision (wf_item i).
Proof. unfold wf_item. apply _. Defined.
#[global] Instance wf_affinity_dec a : Decision (wf_affinity a).
Proof. unfold wf_affinity. apply _. Defined.
#[global] Instance wf_signal_dec s : Decision (wf_signal s).
Proof. unfold wf_signal. apply _. Defined.
#[global] Instance wf_request_dec r : Decision (wf_request r).
Proof. unfold wf_request, wf_request_body. destruct (req_body r); apply _. Defined.

(** * What an implementation promises *)

Class CodecLaws (C : Codec) : Prop := {
  (** [encode] appends, so a reserved length prefix survives it. *)
  encode_request_app (r : Request) out :
    encode_request r out = out ++ encode_request r [];
  encode_response_app (r : Response) out :
    encode_response r out = out ++ encode_response r [];
  (** A message never encodes to an empty body. *)
  encode_request_nonempty r : encode_request r [] <> [];
  encode_response_nonempty r : encode_response r [] <> [];
  (** Round trips, of messages that a frame can carry; a response only with one of the
      declared status codes. *)
  decode_encode_request r out :
    wf_request r -> zlen (encode_request r []) <= kMaxFrameSize ->
    decode_request (encode_request r []) out = (DE_None, r);
  decode_encode_response r out :
    wf_response r -> known_status r -> zlen (encode_response r []) <= kMaxFrameSize ->
    decode_response (encode_response r []) out = (DE_None, r);
  (** A successful decode respects every type range and field limit. *)
  decode_request_wf body out r :
    decode_request body out = (DE_None, r) -> wf_request r
}.
