(* ===== verification/BinaryCodec.v ===== *)
(** The hand-written binary format (src/proto/codec.cpp): encoding and decoding of
    every message, field limits and the five kinds of malformed input. *)
From stdpp Require Import base list option numbers.
From S2P Require Import Prelude Binary64 Item Message Wire Codec.

(** * Fields *)

Definition write_item (item : Item) (writer : ByteBuffer) : ByteBuffer :=
  let writer := write_u64 (item_id item) writer in
  let writer := write_string (item_category item) writer in
  let writer := write_string (item_advertiser item) writer in
  let writer := write_u64 (double_to_bits (item_base_score item)) writer in
  let writer := write_u64 (to_u64 (to_epoch_millis (item_created_at item))) writer in
  write_u64 (to_u64 (to_epoch_millis (item_expires_at item))) writer.

Definition read_item : Reader Item :=
  let* id := read_u64 in
  let* category := read_string in
  let* advertiser := read_string in
  let* base_score := read_u64 in
  let* created_at := read_u64 in
  let* expires_at := read_u64 in
  rret (MkItem id category advertiser (bits_to_double base_score)
          (from_epoch_millis (to_i64 created_at)) (from_epoch_millis (to_i64 expires_at))).

Definition item_within_limits (item : Item) : bool :=
  (zlen (item_category item) <=? kMaxCategoryLength) &&
  (zlen (item_advertiser item) <=? kMaxAdvertiserLength).

Definition write_affinity (affinity : CategoryAffinity) (writer : ByteBuffer) : ByteBuffer :=
  write_u64 (double_to_bits (affinity_weight affinity))
    (write_string (affinity_category affinity) writer).

Definition write_signal (signal : UserSignal) (writer : ByteBuffer) : ByteBuffer :=
  let writer := write_u32 (wrap 32 (zlen (affinities signal))) writer in
  let writer := fold_left (fun w a => write_affinity a w) (affinities signal) writer in
  let writer := write_u32 (wrap 32 (zlen (excluded_categories signal))) writer in
  fold_left (fun w c => write_string c w) (excluded_categories signal) writer.

(** The two loops of [read_signal]; [None] is the early [return false]. *)
Fixpoint read_affinities (n : nat) : Reader (option (list CategoryAffinity)) :=
  match n with
  | O => rret (Some [])
  | S n =>
      let* category := read_string in
      let* weight := read_u64 in
      if kMaxCategoryLength <? zlen category then rret None
      else
        (let* rest := read_affinities n in
         rret (option_map (cons (MkAffinity category (bits_to_double weight))) rest))
  end.

Fixpoint read_excluded (n : nat) : Reader (option (list bstring)) :=
  match n with
  | O => rret (Some [])
  | S n =>
      let* category := read_string in
      if kMaxCategoryLength <? zlen category then rret None
      else
        (let* rest := read_excluded n in rret (option_map (cons category) rest))
  end.

Definition read_signal : Reader (option UserSignal) := fun reader =>
  let '(affinity_count, reader) := read_u32 reader in
  if failed_ reader || (kMaxAffinities <? affinity_count) then (None, reader)
  else
    match read_affinities (Z.to_nat affinity_count) reader with
    | (None, reader) => (None, reader)
    | (Some affs, reader) =>
        let '(excluded_count, reader) := read_u32 reader in
        if failed_ reader || (kMaxExcluded <? excluded_count) then (None, reader)
        else
          match read_excluded (Z.to_nat excluded_count) reader with
          | (None, reader) => (None, reader)
          | (Some excl, reader) => (Some (MkSignal affs excl), reader)
          end
    end.

Definition write_ranked (ranked : RankedItem) (writer : ByteBuffer) : ByteBuffer :=
  let writer := write_u64 (ranked_id ranked) writer in
  let writer := write_u64 (double_to_bits (ranked_score ranked)) writer in
  let writer := write_string (ranked_category ranked) writer in
  write_string (ranked_advertiser ranked) writer.

(** The body of the loop in the RecommendResponse case of [decode]. *)
Definition read_ranked : Reader RankedItem :=
  let* id := read_u64 in
  let* score := read_u64 in
  let* category := read_string in
  let* advertiser := read_string in
  rret (MkRanked id (bits_to_double score) category advertiser).

Fixpoint read_ranked_items (n : nat) : Reader (list RankedItem) :=
  match n with
  | O => rret []
  | S n =>
      let* ranked := read_ranked in
      let* rest := read_ranked_items n in
      rret (ranked :: rest)
  end.

Definition finish (reader : ByteReader) : DecodeError :=
  if failed_ reader then DE_Truncated
  else if negb (exhausted reader) then DE_TrailingBytes
  else DE_None.

(** * Header *)

Definition encode_header (header : Header) (writer : ByteBuffer) : ByteBuffer :=
  let writer := write_u32 kMagic writer in
  let writer := write_u8 (h_version header) writer in
  let writer := write_u8 (type_byte (h_type header)) writer in
  let writer := write_u16 (h_flags header) writer in
  write_u64 (h_request_id header) writer.

(** The fields after the magic number. *)
Definition read_header_fields : Reader (Z * Z * Z * Z) :=
  let* version := read_u8 in
  let* raw_type := read_u8 in
  let* flags := read_u16 in
  let* request_id := read_u64 in
  rret (version, raw_type, flags, request_id).

Definition decode_header (out : Header) : Reader (DecodeError * Header) := fun reader =>
  let '(magic, reader) := read_u32 reader in
  if failed_ reader then (DE_Truncated, out, reader)
  else if negb (magic =? kMagic) then (DE_BadMagic, out, reader)
  else
    let '(version, raw_type, flags, request_id, reader) := read_header_fields reader in
    let out := MkHeader version (h_type out) flags request_id in
    if failed_ reader then (DE_Truncated, out, reader)
    else if negb (version =? kVersion) then (DE_UnsupportedVersion, out, reader)
    else if negb (flags =? 0) then (DE_ReservedFlags, out, reader)
    else
      match type_of_byte raw_type with
      | None => (DE_UnknownType, out, reader)
      | Some t => (DE_None, MkHeader version t flags request_id, reader)
      end.

(** * Encoding *)

Definition encode_recommend (recommend : Recommend) (writer : ByteBuffer) : ByteBuffer :=
  let writer := write_signal (rec_signal recommend) writer in
  let writer := write_u32 (rec_count recommend) writer in
  write_u8 (if rec_dry_run recommend then 1 else 0) writer.

Definition encode_req (request : Request) (out : ByteBuffer) : ByteBuffer :=
  let writer :=
    encode_header (MkHeader kVersion (type_of_request (req_body request)) 0 (req_id request)) out in
  match req_body request with
  | GetItem id => write_u64 id writer
  | PutItem item => write_item item writer
  | DeleteItem id => write_u64 id writer
  | GetStats => writer
  | RecommendBody recommend => encode_recommend recommend writer
  end.

Definition write_stats (stats : Stats) (writer : ByteBuffer) : ByteBuffer :=
  let writer := write_u64 (requests stats) writer in
  let writer := write_u64 (gets stats) writer in
  let writer := write_u64 (puts stats) writer in
  let writer := write_u64 (deletes stats) writer in
  let writer := write_u64 (recommends stats) writer in
  let writer := write_u64 (hits stats) writer in
  let writer := write_u64 (misses stats) writer in
  let writer := write_u64 (evictions stats) writer in
  let writer := write_u64 (entries stats) writer in
  let writer := write_u64 (capacity stats) writer in
  let writer := write_u64 (policy_allowed stats) writer in
  let writer := write_u64 (policy_exposure_blocked stats) writer in
  let writer := write_u64 (policy_frequency_blocked stats) writer in
  let writer := write_u64 (policy_store_full stats) writer in
  write_u64 (policy_tracked stats) writer.

Definition encode_resp (response : Response) (out : ByteBuffer) : ByteBuffer :=
  let writer :=
    encode_header (MkHeader kVersion (type_of_response (resp_body response)) 0
                     (resp_id response)) out in
  match resp_body response with
  | GetItemResult status item =>
      let writer := write_u8 status writer in
      if status =? SC_Ok then write_item item writer else writer
  | PutItemResult status => write_u8 status writer
  | DeleteItemResult status => write_u8 status writer
  | StatsResult status stats => write_stats stats (write_u8 status writer)
  | RecommendResult status items =>
      let writer := write_u8 status writer in
      let writer := write_u32 (wrap 32 (zlen items)) writer in
      fold_left (fun w ranked => write_ranked ranked w) items writer
  | Failure status message => write_string message (write_u8 status writer)
  end.

(** * Decoding *)

(** [recommend.count = reader.u32(); recommend.dry_run = reader.u8() != 0]. *)
Definition read_recommend_tail : Reader (Z * Z) :=
  let* count := read_u32 in
  let* dry := read_u8 in
  rret (count, dry).

(** The RecommendRequest case of [decode]; the result is the error and the new
    body, if the code got as far as assigning it. *)
Definition decode_recommend (reader : ByteReader) : DecodeError * option Recommend :=
  match read_signal reader with
  | (None, reader) => (if failed_ reader then DE_Truncated else DE_FieldTooLarge, None)
  | (Some signal, reader) =>
      let '(count, dry, reader) := read_recommend_tail reader in
      match finish reader with
      | DE_None =>
          if kMaxRecommendCount <? count then (DE_FieldTooLarge, None)
          else (DE_None, Some (MkRecommend signal count (negb (dry =? 0))))
      | error => (error, None)
      end
  end.

(** The switch of [decode(ByteView, Request&)], after the header checks. *)
Definition decode_req_body (header : Header) (reader : ByteReader) : DecodeError * Request :=
  let out := MkRequest (h_request_id header) (req_body default_request) in
  let set b := MkRequest (h_request_id header) b in
  match h_type header with
  | GetItemRequest =>
      let '(id, reader) := read_u64 reader in (finish reader, set (GetItem id))
  | DeleteItemRequest =>
      let '(id, reader) := read_u64 reader in (finish reader, set (DeleteItem id))
  | PutItemRequest =>
      let '(item, reader) := read_item reader in
      match finish reader with
      | DE_None =>
          if negb (item_within_limits item) then (DE_FieldTooLarge, out)
          else (DE_None, set (PutItem item))
      | error => (error, out)
      end
  | StatsRequest => (finish reader, set GetStats)
  | RecommendRequest =>
      match decode_recommend reader with
      | (error, Some recommend) => (error, set (RecommendBody recommend))
      | (error, None) => (error, out)
      end
  | _ => (DE_UnknownType, out)
  end.

Definition decode_req (body : ByteBuffer) (out : Request) : DecodeError * Request :=
  let '(error, header, reader) := decode_header default_header (reader_of body) in
  match error with
  | DE_None =>
      if is_response (h_type header) then (DE_WrongDirection, out)
      else decode_req_body header reader
  | error => (error, out)
  end.

Definition read_stats : Reader Stats :=
  let* v1 := read_u64 in let* v2 := read_u64 in let* v3 := read_u64 in
  let* v4 := read_u64 in let* v5 := read_u64 in let* v6 := read_u64 in
  let* v7 := read_u64 in let* v8 := read_u64 in let* v9 := read_u64 in
  let* v10 := read_u64 in let* v11 := read_u64 in let* v12 := read_u64 in
  let* v13 := read_u64 in let* v14 := read_u64 in let* v15 := read_u64 in
  rret (MkStats v1 v2 v3 v4 v5 v6 v7 v8 v9 v10 v11 v12 v13 v14 v15).

(** The switch of [decode(ByteView, Response&)], after the header checks. *)
Definition decode_resp_body (header : Header) (reader : ByteReader) : DecodeError * Response :=
  let out := MkResponse (h_request_id header) (resp_body default_response) in
  let set b := MkResponse (h_request_id header) b in
  let '(status, reader) := read_u8 reader in
  match h_type header with
  | GetItemResponse =>
      let '(item, reader) :=
        if status =? SC_Ok then read_item reader else (default_item, reader) in
      match finish reader with
      | DE_None =>
          if negb (item_within_limits item) then (DE_FieldTooLarge, out)
          else (DE_None, set (GetItemResult status item))
      | error => (error, out)
      end
  | PutItemResponse => (finish reader, set (PutItemResult status))
  | DeleteItemResponse => (finish reader, set (DeleteItemResult status))
  | StatsResponse =>
      let '(stats, reader) := read_stats reader in
      (finish reader, set (StatsResult status stats))
  | RecommendResponse =>
      let '(count, reader) := read_u32 reader in
      if failed_ reader || (kMaxRecommendCount <? count) then
        (if failed_ reader then DE_Truncated else DE_FieldTooLarge, out)
      else
        let '(items, reader) := read_ranked_items (Z.to_nat count) reader in
        match finish reader with
        | DE_None => (DE_None, set (RecommendResult status items))
        | error => (error, out)
        end
  | ErrorResponse =>
      let '(message, reader) := read_string reader in
      match finish reader with
      | DE_None =>
          if kMaxMessageLength <? zlen message then (DE_FieldTooLarge, out)
          else (DE_None, set (Failure status message))
      | error => (error, out)
      end
  | _ => (DE_UnknownType, out)
  end.

Definition decode_resp (body : ByteBuffer) (out : Response) : DecodeError * Response :=
  let '(error, header, reader) := decode_header default_header (reader_of body) in
  match error with
  | DE_None =>
      if negb (is_response (h_type header)) then (DE_WrongDirection, out)
      else decode_resp_body header reader
  | error => (error, out)
  end.

#[global] Instance BinaryCodec : Codec := {
  codec_name := str "binary/v1";
  encode_request := encode_req;
  encode_response := encode_resp;
  decode_request := decode_req;
  decode_response := decode_resp
}.

Example stats_request_bytes :
  encode_req (MkRequest 7 GetStats) [] =
  map byte_of_Z [0x4C; 0x52; 0x44; 0x31; 3; 4; 0; 0; 0; 0; 0; 0; 0; 0; 0; 7].
Proof. reflexivity. Qed.

(** * What the writers append *)

Definition item_bytes (i : Item) : ByteBuffer :=
  be_bytes 8 (item_id i) ++ string_bytes (item_category i) ++
  string_bytes (item_advertiser i) ++ be_bytes 8 (double_to_bits (item_base_score i)) ++
  be_bytes 8 (to_u64 (item_created_at i)) ++ be_bytes 8 (to_u64 (item_expires_at i)).

Definition affinity_bytes (a : CategoryAffinity) : ByteBuffer :=
  string_bytes (affinity_category a) ++ be_bytes 8 (double_to_bits (affinity_weight a)).

Definition signal_bytes (s : UserSignal) : ByteBuffer :=
  be_bytes 4 (wrap 32 (zlen (affinities s))) ++ concat (map affinity_bytes (affinities s)) ++
  be_bytes 4 (wrap 32 (zlen (excluded_categories s))) ++
  concat (map string_bytes (excluded_categories s)).

Definition ranked_bytes (r : RankedItem) : ByteBuffer :=
  be_bytes 8 (ranked_id r) ++ be_bytes 8 (double_to_bits (ranked_score r)) ++
  string_bytes (ranked_category r) ++ string_bytes (ranked_advertiser r).

Definition header_rest_bytes (version raw_type flags id : Z) : ByteBuffer :=
  [byte_of_Z version] ++ [byte_of_Z raw_type] ++ be_bytes 2 flags ++ be_bytes 8 id.

Definition header_bytes (t : MessageType) (id : Z) : ByteBuffer :=
  be_bytes 4 kMagic ++ header_rest_bytes kVersion (type_byte t) 0 id.

Definition recommend_bytes (r : Recommend) : ByteBuffer :=
  signal_bytes (rec_signal r) ++ be_bytes 4 (rec_count r) ++
  [byte_of_Z (if rec_dry_run r then 1 else 0)].

Definition request_body_bytes (b : RequestBody) : ByteBuffer :=
  match b with
  | GetItem id | DeleteItem id => be_bytes 8 id
  | PutItem i => item_bytes i
  | GetStats => []
  | RecommendBody r => recommend_bytes r
  end.

Definition stats_bytes (s : Stats) : ByteBuffer := concat (map (be_bytes 8) (stats_fields s)).

Definition response_body_bytes (b : ResponseBody) : ByteBuffer :=
  byte_of_Z (status_of b) ::
  match b with
  | GetItemResult s i => if s =? SC_Ok then item_bytes i else []
  | PutItemResult _ | DeleteItemResult _ => []
  | StatsResult _ st => stats_bytes st
  | RecommendResult _ items =>
      be_bytes 4 (wrap 32 (zlen items)) ++ concat (map ranked_bytes items)
  | Failure _ m => string_bytes m
  end.

(** Normalises a composition of writers to [out ++ bytes]. *)
Ltac writers :=
  repeat progress (unfold write_u64, write_u32, write_u16, write_u8;
    rewrite ?append_be_app, ?write_string_app);
  cbn [h_version h_type h_flags h_request_id type_of_request type_of_response concat map];
  rewrite ?app_nil_r, <- ?app_assoc; done.

Lemma fold_writer_app {A} (w : A -> ByteBuffer -> ByteBuffer) (f : A -> ByteBuffer) l out :
  (forall a o, w a o = o ++ f a) ->
  fold_left (fun o a => w a o) l out = out ++ concat (map f l).
Proof.
  intros Hw. revert out. induction l as [|a l IH]; intros out; simpl.
  - by rewrite app_nil_r.
  - by rewrite IH, Hw, <- app_assoc.
Qed.

Lemma write_item_app i out : write_item i out = out ++ item_bytes i.
Proof. unfold write_item, item_bytes. writers. Qed.

Lemma write_affinity_app a out : write_affinity a out = out ++ affinity_bytes a.
Proof. unfold write_affinity, affinity_bytes. writers. Qed.

Lemma write_signal_app s out : write_signal s out = out ++ signal_bytes s.
Proof.
  unfold write_signal, signal_bytes.
  rewrite (fold_writer_app _ _ _ _ write_affinity_app).
  rewrite (fold_writer_app _ _ _ _ write_string_app). writers.
Qed.

Lemma write_ranked_app r out : write_ranked r out = out ++ ranked_bytes r.
Proof. unfold write_ranked, ranked_bytes. writers. Qed.

Lemma write_stats_app s out : write_stats s out = out ++ stats_bytes s.
Proof. unfold write_stats, stats_bytes, stats_fields. writers. Qed.

Lemma encode_header_app t id out :
  encode_header (MkHeader kVersion t 0 id) out = out ++ header_bytes t id.
Proof. unfold encode_header, header_bytes, header_rest_bytes. writers. Qed.

Lemma encode_req_app r out :
  encode_req r out =
  out ++ header_bytes (type_of_request (req_body r)) (req_id r) ++ request_body_bytes (req_body r).
Proof.
  unfold encode_req. rewrite encode_header_app.
  destruct (req_body r) as [id|i|id| |rc]; cbn [request_body_bytes].
  - writers.
  - by rewrite write_item_app, <- app_assoc.
  - writers.
  - by rewrite app_nil_r.
  - unfold encode_recommend, recommend_bytes. rewrite write_signal_app. writers.
Qed.

Lemma encode_resp_app r out :
  encode_resp r out =
  out ++ header_bytes (type_of_response (resp_body r)) (resp_id r) ++
  response_body_bytes (resp_body r).
Proof.
  unfold encode_resp. rewrite encode_header_app.
  destruct (resp_body r) as [s i|s|s|s st|s items|s m]; unfold response_body_bytes, status_of.
  - unfold write_u8. case_match; [rewrite write_item_app|]; by rewrite <- !app_assoc.
  - writers.
  - writers.
  - rewrite write_stats_app. writers.
  - rewrite (fold_writer_app _ _ _ _ write_ranked_app). writers.
  - writers.
Qed.

(** * Reading back *)

Ltac read_prim :=
  first [ apply reads_u8 | apply reads_string | apply reads_int ];
  first [ assumption | apply to_u64_fits | widths ].

Lemma reads_item i : wf_item i -> reads read_item (item_bytes i) i.
Proof.
  intros (? & ? & ? & Hd & ? & ?). unfold kMaxCategoryLength, kMaxAdvertiserLength, d_wf in *.
  unfold read_item, item_bytes.
  read_fields read_prim. rewrite bits_to_double_to_bits. unfold from_epoch_millis.
  rewrite !to_i64_to_u64 by done. by destruct i.
Qed.

Lemma reads_ranked r : wf_ranked r -> reads read_ranked (ranked_bytes r) r.
Proof.
  intros (? & Hd & ? & ?). unfold d_wf in Hd. unfold read_ranked, ranked_bytes.
  read_fields read_prim. rewrite bits_to_double_to_bits. by destruct r.
Qed.

Lemma sticky_ranked : sticky read_ranked.
Proof. unfold read_ranked. solve_sticky. Qed.

Lemma sticky_ranked_items n : sticky (read_ranked_items n).
Proof.
  induction n; simpl; [apply sticky_rret|].
  apply sticky_rbind; [apply sticky_ranked|]. intros. by apply sticky_rbind.
Qed.

Lemma reads_ranked_items items :
  Forall wf_ranked items ->
  reads (read_ranked_items (length items)) (concat (map ranked_bytes items)) items.
Proof.
  induction 1 as [|r items Hr Hi IH]; cbn [length read_ranked_items map concat].
  { apply reads_rret. }
  eapply reads_rbind; [by apply reads_ranked| |].
  - by eapply reads_last; [apply IH|].
  - intros. apply sticky_rbind; [apply sticky_ranked_items|done].
Qed.

Lemma sticky_affinities n : sticky (read_affinities n).
Proof.
  induction n; cbn [read_affinities]; [apply sticky_rret|].
  apply sticky_rbind; [apply sticky_read_string|intros].
  apply sticky_rbind; [apply sticky_read_int|intros].
  case_match; [apply sticky_rret|]. by apply sticky_rbind.
Qed.

Lemma sticky_excluded n : sticky (read_excluded n).
Proof.
  induction n; cbn [read_excluded]; [apply sticky_rret|].
  apply sticky_rbind; [apply sticky_read_string|intros].
  case_match; [apply sticky_rret|]. by apply sticky_rbind.
Qed.

Lemma reads_affinities affs :
  Forall wf_affinity affs ->
  reads (read_affinities (length affs)) (concat (map affinity_bytes affs)) (Some affs).
Proof.
  induction 1 as [|a affs [Ha Hd] _ IH]; cbn [length read_affinities map concat].
  { apply reads_rret. }
  unfold affinity_bytes. rewrite <- app_assoc. unfold kMaxCategoryLength, d_wf in *.
  assert (Hs : forall category weight, sticky (if 64 <? zlen category then rret None
    else let* rest := read_affinities (length affs) in
         rret (option_map (cons (MkAffinity category (bits_to_double weight))) rest))).
  { intros. case_match; [apply sticky_rret|].
    apply sticky_rbind; [apply sticky_affinities|done]. }
  eapply reads_rbind; [read_prim| |intros; by apply sticky_rbind; [apply sticky_read_int|]].
  eapply reads_rbind; [by apply reads_int| |done].
  rewrite (proj2 (Z.ltb_ge _ _)) by done.
  eapply reads_last; [apply IH|]. rewrite bits_to_double_to_bits. by destruct a.
Qed.

Lemma reads_excluded cs :
  Forall (fun c => zlen c <= kMaxCategoryLength) cs ->
  reads (read_excluded (length cs)) (concat (map string_bytes cs)) (Some cs).
Proof.
  induction 1 as [|c cs Hc _ IH]; cbn [length read_excluded map concat].
  { apply reads_rret. }
  unfold kMaxCategoryLength in *.
  eapply reads_rbind; [read_prim| |].
  - rewrite (proj2 (Z.ltb_ge _ _)) by done. by eapply reads_last; [apply IH|].
  - intros. case_match; [apply sticky_rret|]. apply sticky_rbind; [apply sticky_excluded|done].
Qed.

Lemma reads_signal s : wf_signal s -> reads read_signal (signal_bytes s) (Some s).
Proof.
  intros (Hna & Ha & Hne & He). unfold signal_bytes, kMaxAffinities, kMaxExcluded in *.
  pose proof (zlen_nonneg (affinities s)). pose proof (zlen_nonneg (excluded_categories s)).
  rewrite !wrap_small by widths.
  assert (R1 : reads read_u32 (be_bytes 4 (zlen (affinities s))) (zlen (affinities s)))
    by (apply reads_int; widths).
  assert (R3 : reads read_u32 (be_bytes 4 (zlen (excluded_categories s)))
    (zlen (excluded_categories s))) by (apply reads_int; widths).
  pose proof (reads_affinities _ Ha) as R2. pose proof (reads_excluded _ He) as R4.
  assert (L1 : (kMaxAffinities <? zlen (affinities s)) = false) by (by apply Z.ltb_ge).
  assert (L2 : (kMaxExcluded <? zlen (excluded_categories s)) = false) by (by apply Z.ltb_ge).
  assert (N1 : Z.to_nat (zlen (affinities s)) = length (affinities s)) by (unfold zlen; lia).
  assert (N2 : Z.to_nat (zlen (excluded_categories s)) = length (excluded_categories s))
    by (unfold zlen; lia).
  split.
  - intros pre suf. unfold read_signal. rewrite <- !app_assoc.
    run_read R1. cbn [failed_ rd]. rewrite L1, N1. simpl orb.
    run_read R2. run_read R3. cbn [failed_ rd]. rewrite L2, N2. simpl orb.
    run_read R4. rewrite <- !app_assoc. by destruct s.
  - intros pre n Hn. rewrite !length_app in Hn. unfold read_signal.
    cut_read R1 F E1 C1.
    { open_failed F v r. by rewrite F. }
    rewrite E1. cbn [failed_ rd]. rewrite L1, N1. simpl orb.
    cut_read R2 F E2 C2.
    { open_failed F v r. destruct v; [|done].
      pose proof (sticky_read_int 4 r F) as Hs. unfold read_u32.
      destruct (read_int 4 r) as [v' r']. cbn [snd] in Hs. subst r'. by rewrite F. }
    rewrite E2. cut_read R3 F E3 C3.
    { open_failed F v r. by rewrite F. }
    rewrite E3. cbn [failed_ rd]. rewrite L2, N2. simpl orb.
    match goal with |- context [read_excluded _ (rd ?p (take ?m _))] =>
      pose proof (proj2 R4 p m ltac:(lia)) as F end.
    open_failed F v r. by destruct v.
Qed.

(** * Whole messages *)

Lemma reads_header_fields version raw_type flags id :
  fits 8 version -> fits 8 raw_type -> fits 16 flags -> fits 64 id ->
  reads read_header_fields (header_rest_bytes version raw_type flags id)
    (version, raw_type, flags, id).
Proof.
  intros. unfold read_header_fields, header_rest_bytes.
  read_fields ltac:(first [by apply reads_u8 | by apply reads_int]). done.
Qed.

Lemma reads_header t id :
  fits 64 id ->
  reads read_header_fields (header_rest_bytes kVersion (type_byte t) 0 id)
    (kVersion, type_byte t, 0, id).
Proof. intros. apply reads_header_fields; done || apply type_byte_fits. Qed.

Lemma reads_magic : reads read_u32 (be_bytes 4 kMagic) kMagic.
Proof. by apply reads_int. Qed.

Lemma decode_header_ok t id out pre suf :
  fits 64 id ->
  decode_header out (rd pre (header_bytes t id ++ suf)) =
  (DE_None, MkHeader kVersion t 0 id, rd (pre ++ header_bytes t id) suf).
Proof.
  intros Hid. unfold decode_header, header_bytes. rewrite <- app_assoc.
  run_read reads_magic. cbn [failed_ rd].
  run_read (reads_header t id Hid).
  cbn [failed_ rd]. rewrite type_of_byte_byte. by rewrite <- app_assoc.
Qed.

Lemma decode_header_cut t id out n rest :
  fits 64 id -> (n < length (header_bytes t id))%nat ->
  fst (fst (decode_header out (rd [] (take n (header_bytes t id ++ rest))))) = DE_Truncated.
Proof.
  intros Hid Hn. unfold header_bytes in *. rewrite length_app in Hn.
  unfold decode_header. rewrite <- app_assoc.
  pose proof reads_magic as R1.
  pose proof (reads_header t id Hid) as R2.
  cut_read R1 F E C. { open_failed F v r. by rewrite F. }
  rewrite E. cbn [failed_ rd]. rewrite Z.eqb_refl. simpl negb. cbv match.
  cut_read R2 F E' C'; [|lia]. open_failed F v r. destruct v as [[[? ?] ?] ?]. by rewrite F.
Qed.

Lemma finish_rd pre suf :
  finish (rd pre suf) = match suf with [] => DE_None | _ => DE_TrailingBytes end.
Proof.
  unfold finish, exhausted. cbn [failed_ rd]. rewrite remaining_rd. by destruct suf.
Qed.

Lemma finish_failed r : failed_ r = true -> finish r = DE_Truncated.
Proof. intros H. unfold finish. by rewrite H. Qed.

Lemma reads_recommend_tail count (dry : bool) :
  0 <= count <= kMaxRecommendCount ->
  reads read_recommend_tail
    (be_bytes 4 count ++ [byte_of_Z (if dry then 1 else 0)]) (count, if dry then 1 else 0).
Proof.
  unfold kMaxRecommendCount, read_recommend_tail. intros Hc.
  read_fields ltac:(first [apply reads_u8; by destruct dry | apply reads_int; widths]). done.
Qed.

Lemma item_limits_wf i : wf_item i -> item_within_limits i = true.
Proof.
  intros (_ & H1 & H2 & _). unfold item_within_limits.
  apply andb_true_intro. split; by apply Z.leb_le.
Qed.

(** On a well-formed body followed by [suf], the decoder takes the body exactly and
    complains only if something follows. *)
Lemma decode_req_body_ok b id pre suf :
  wf_request_body b ->
  exists out,
  decode_req_body (MkHeader kVersion (type_of_request b) 0 id)
    (rd pre (request_body_bytes b ++ suf)) =
  (match suf with [] => DE_None | _ => DE_TrailingBytes end, out) /\
  (suf = [] -> out = MkRequest id b).
Proof.
  intros Hwf. destruct b as [i|i|i| |rc];
    cbn [type_of_request request_body_bytes] in *; unfold decode_req_body;
    cbn [h_type h_request_id].
  - run_read (reads_int 8 i Hwf). rewrite finish_rd. eauto.
  - run_read (reads_item i Hwf). rewrite finish_rd, (item_limits_wf i Hwf).
    destruct suf; eauto. eexists. split; [done|]. done.
  - run_read (reads_int 8 i Hwf). rewrite finish_rd. eauto.
  - rewrite app_nil_l, finish_rd. eauto.
  - destruct Hwf as [Hs Hc]. unfold decode_recommend, recommend_bytes.
    rewrite <- !app_assoc. run_read (reads_signal _ Hs).
    rewrite (app_assoc (be_bytes 4 _)). run_read (reads_recommend_tail _ (rec_dry_run rc) Hc).
    rewrite finish_rd. destruct suf; [|by eexists]. rewrite (proj2 (Z.ltb_ge _ _)) by lia.
    eexists. split; [done|]. intros _. by destruct rc as [? ? []].
Qed.

Lemma decode_req_body_cut b id pre n :
  wf_request_body b -> (n < length (request_body_bytes b))%nat ->
  fst (decode_req_body (MkHeader kVersion (type_of_request b) 0 id)
    (rd pre (take n (request_body_bytes b)))) = DE_Truncated.
Proof.
  intros Hwf Hn. destruct b as [i|i|i| |rc];
    cbn [type_of_request request_body_bytes] in *; unfold decode_req_body;
    cbn [h_type h_request_id].
  - pose proof (proj2 (reads_int 8 i Hwf) pre n Hn) as F. unfold read_u64.
    open_failed F v r. by rewrite finish_failed.
  - pose proof (proj2 (reads_item i Hwf) pre n Hn) as F.
    open_failed F v r. by rewrite finish_failed.
  - pose proof (proj2 (reads_int 8 i Hwf) pre n Hn) as F. unfold read_u64.
    open_failed F v r. by rewrite finish_failed.
  - simpl in Hn. lia.
  - destruct Hwf as [Hs Hc]. unfold decode_recommend, recommend_bytes in *.
    pose proof (reads_signal _ Hs) as R1.
    pose proof (reads_recommend_tail _ (rec_dry_run rc) Hc) as R2.
    rewrite length_app in Hn. cut_read R1 F E C.
    + open_failed F v r. destruct v; [|by rewrite F].
      assert (Hst : sticky read_recommend_tail) by (unfold read_recommend_tail; solve_sticky).
      specialize (Hst r F). destruct (read_recommend_tail r) as [[? ?] r'].
      cbn [snd] in Hst. subst r'. by rewrite finish_failed.
    + rewrite E. rewrite <- (app_nil_r (be_bytes 4 _ ++ _)).
      cut_read R2 F E' C'; [|lia].
      open_failed F v r. destruct v as [? ?]. by rewrite finish_failed.
Qed.

Lemma reads_stats s : wf_stats s -> reads read_stats (stats_bytes s) s.
Proof.
  intros Hs. unfold wf_stats, stats_fields in Hs.
  repeat match goal with H : Forall _ (_ :: _) |- _ => apply Forall_cons_1 in H as [? ?] end.
  unfold read_stats, stats_bytes, stats_fields. cbn [map concat]. rewrite app_nil_r.
  read_fields ltac:(by apply reads_int). by destruct s.
Qed.

Lemma decode_resp_body_ok b id pre suf :
  wf_response_body b ->
  exists out,
  decode_resp_body (MkHeader kVersion (type_of_response b) 0 id)
    (rd pre (response_body_bytes b ++ suf)) =
  (match suf with [] => DE_None | _ => DE_TrailingBytes end, out) /\
  (suf = [] -> out = MkResponse id b).
Proof.
  intros [Hst Hwf]. unfold decode_resp_body, response_body_bytes.
  change (byte_of_Z (status_of b) :: ?l) with ([byte_of_Z (status_of b)] ++ l).
  rewrite <- app_assoc. run_read (reads_u8 _ Hst). cbn [h_type h_request_id].
  destruct b as [s i|s|s|s st|s items|s m]; cbn [type_of_response status_of] in *.
  - destruct (s =? SC_Ok).
    + run_read (reads_item i Hwf). rewrite finish_rd, (item_limits_wf i Hwf).
      destruct suf; eexists; (split; [reflexivity|by intros]).
    + subst i. rewrite app_nil_l, finish_rd. destruct suf; eexists; (split; [reflexivity|by intros]).
  - rewrite app_nil_l, finish_rd. eauto.
  - rewrite app_nil_l, finish_rd. eauto.
  - run_read (reads_stats st Hwf). rewrite finish_rd. eauto.
  - destruct Hwf as [Hn Hi]. pose proof (zlen_nonneg items).
    unfold kMaxRecommendCount in Hn.
    assert (Hf : fits 32 (zlen items)) by widths.
    rewrite wrap_small by done. rewrite <- app_assoc. run_read (reads_int 4 _ Hf).
    cbn [failed_ rd]. rewrite (proj2 (Z.ltb_ge _ _)) by done. simpl orb.
    replace (Z.to_nat (zlen items)) with (length items) by (unfold zlen; lia).
    run_read (reads_ranked_items items Hi). rewrite finish_rd.
    destruct suf; eexists; (split; [reflexivity|by intros]).
  - unfold kMaxMessageLength in Hwf. assert (Hl : zlen m < 2 ^ 32) by lia.
    run_read (reads_string m Hl). rewrite finish_rd, (proj2 (Z.ltb_ge _ _)) by done.
    destruct suf; eexists; (split; [reflexivity|by intros]).
Qed.

(** [decode] of an encoded message followed by [suf]. *)
Lemma decode_req_enc r suf out :
  wf_request r ->
  exists out',
  decode_req (encode_req r [] ++ suf) out =
  (match suf with [] => DE_None | _ => DE_TrailingBytes end, out') /\ (suf = [] -> out' = r).
Proof.
  intros [Hid Hb]. rewrite encode_req_app, app_nil_l, <- app_assoc. unfold decode_req.
  change (reader_of ?b) with (rd [] b). rewrite decode_header_ok by done.
  cbn [h_type]. rewrite request_not_response, app_nil_l.
  destruct (decode_req_body_ok _ (req_id r) (header_bytes (type_of_request (req_body r)) (req_id r)) suf Hb) as (o & -> & Ho).
  exists o. split; [done|]. intros Hs. rewrite (Ho Hs). by destruct r.
Qed.

Lemma decode_resp_enc r suf out :
  wf_response r ->
  exists out',
  decode_resp (encode_resp r [] ++ suf) out =
  (match suf with [] => DE_None | _ => DE_TrailingBytes end, out') /\ (suf = [] -> out' = r).
Proof.
  intros [Hid Hb]. rewrite encode_resp_app, app_nil_l, <- app_assoc. unfold decode_resp.
  change (reader_of ?b) with (rd [] b). rewrite decode_header_ok by done.
  cbn [h_type]. rewrite response_is_response, app_nil_l.
  destruct (decode_resp_body_ok _ (resp_id r) (header_bytes (type_of_response (resp_body r)) (resp_id r)) suf Hb) as (o & -> & Ho).
  exists o. split; [done|]. intros Hs. rewrite (Ho Hs). by destruct r.
Qed.

(** A strict prefix of an encoded request. *)
Lemma decode_req_cut r n out :
  wf_request r -> (n < length (encode_req r []))%nat ->
  fst (decode_req (take n (encode_req r [])) out) = DE_Truncated.
Proof.
  intros [Hid Hb]. rewrite encode_req_app, app_nil_l. intros Hn. unfold decode_req.
  change (reader_of ?b) with (rd [] b).
  set (t := type_of_request (req_body r)) in *.
  destruct (decide (n < length (header_bytes t (req_id r)))%nat) as [Hlt|Hge].
  - pose proof (decode_header_cut t (req_id r) default_header n
      (request_body_bytes (req_body r)) Hid Hlt) as Hc.
    destruct (decode_header _ _) as [[e h] rr]. cbn [fst] in Hc. by subst e.
  - rewrite take_app_ge by lia. rewrite decode_header_ok by done. cbn [h_type].
    unfold t in *. rewrite request_not_response. apply decode_req_body_cut; [done|].
    rewrite length_app in Hn. lia.
Qed.

(** * What a successful decode says about its input *)

(** Runs the inversion of a [let*] chain of primitive reads. *)
Ltac invert_fields :=
  eapply inverts_weaken;
  [ repeat (eapply inverts_rbind;
      [first [apply inverts_u8 | apply inverts_string | apply inverts_int]|intros ?|solve_sticky]);
    apply inverts_rret
  | let H := fresh "H" in
    intros ? ? H; repeat (destruct H as (? & ? & ? & -> & ? & H)); destruct H as [-> ->];
    destruct_and?; subst; rewrite ?app_nil_r ].

Lemma inverts_item :
  inverts read_item (fun i u => u = item_bytes i /\ (item_within_limits i = true -> wf_item i)).
Proof.
  unfold read_item. invert_fields. unfold item_bytes. split.
  - cbn. unfold from_epoch_millis. by rewrite !to_u64_to_i64.
  - unfold item_within_limits, wf_item, d_wf. cbn. intros ?. bcases.
    split_and!; first [done | apply to_i64_fits].
Qed.

Lemma inverts_affinities n :
  inverts (read_affinities n) (fun o u => match o with
    | None => True
    | Some affs => length affs = n /\ Forall wf_affinity affs /\ u = concat (map affinity_bytes affs)
    end).
Proof.
  induction n as [|n IH]; cbn [read_affinities].
  { eapply inverts_weaken; [apply inverts_rret|]. by intros ? ? [-> ->]. }
  eapply inverts_weaken.
  { eapply inverts_rbind; [apply inverts_string| |].
    2:{ intros c. apply sticky_rbind; [apply sticky_read_int|]. intros w. case_match; solve_sticky.
        apply sticky_affinities. }
    intros c. eapply (inverts_rbind _ _ _ (fun w o u => match o with
      | None => True
      | Some affs => exists rest, affs = MkAffinity c (bits_to_double w) :: rest /\
          zlen c <= kMaxCategoryLength /\
          length rest = n /\ Forall wf_affinity rest /\ u = concat (map affinity_bytes rest)
      end)); [apply (inverts_int 8)| |].
    2:{ intros w. case_match; solve_sticky. apply sticky_affinities. }
    intros w. destruct (kMaxCategoryLength <? zlen c) eqn:Hc.
    { eapply inverts_weaken; [apply inverts_rret|]. by intros ? ? [-> ->]. }
    eapply inverts_weaken.
    { eapply inverts_rbind; [apply IH|intros; apply inverts_rret|solve_sticky]. }
    intros o u (rest & u1 & u2 & -> & HR & -> & ->). rewrite app_nil_r.
    destruct rest as [rest|]; [|done]. cbn. bcases. destruct_and!. eauto 10. }
  intros o u (c & u1 & u2 & -> & [? ->] & w & u3 & u4 & -> & [? ->] & HR).
  destruct o as [affs|]; [|done]. destruct HR as (rest & -> & ? & <- & ? & ->).
  cbn [length map concat]. split; [done|]. split.
  { constructor; [|done]. split; [done|]. done. }
  unfold affinity_bytes. cbn. by rewrite <- !app_assoc.
Qed.

Lemma inverts_excluded n :
  inverts (read_excluded n) (fun o u => match o with
    | None => True
    | Some cs => length cs = n /\ Forall (fun c => zlen c <= kMaxCategoryLength) cs /\
        u = concat (map string_bytes cs)
    end).
Proof.
  induction n as [|n IH]; cbn [read_excluded].
  { eapply inverts_weaken; [apply inverts_rret|]. by intros ? ? [-> ->]. }
  eapply inverts_weaken.
  { eapply (inverts_rbind _ _ _ (fun c o u => match o with
      | None => True
      | Some cs => exists rest, cs = c :: rest /\ zlen c <= kMaxCategoryLength /\
          length rest = n /\ Forall (fun c => zlen c <= kMaxCategoryLength) rest /\
          u = concat (map string_bytes rest)
      end)); [apply inverts_string| |].
    2:{ intros c. case_match; solve_sticky. apply sticky_excluded. }
    intros c. destruct (kMaxCategoryLength <? zlen c) eqn:Hc.
    { eapply inverts_weaken; [apply inverts_rret|]. by intros ? ? [-> ->]. }
    eapply inverts_weaken.
    { eapply inverts_rbind; [apply IH|intros; apply inverts_rret|solve_sticky]. }
    intros o u (rest & u1 & u2 & -> & HR & -> & ->). rewrite app_nil_r.
    destruct rest as [rest|]; [|done]. cbn. bcases. destruct_and!. eauto 10. }
  intros o u (c & u1 & u2 & -> & [? ->] & HR).
  destruct o as [cs|]; [|done]. destruct HR as (rest & -> & ? & <- & ? & ->).
  by repeat constructor.
Qed.

Lemma inverts_signal :
  inverts read_signal (fun o u => match o with
    | None => True
    | Some s => wf_signal s /\ u = signal_bytes s
    end).
Proof.
  intros pre suf o r' E F. unfold read_signal, read_u32 in E.
  destruct (read_int 4 (rd pre suf)) as [n1 r1] eqn:E1.
  destruct (failed_ r1) eqn:F1; [simpl in E; congruence|].
  destruct (inverts_int 4 _ _ _ _ E1 F1) as (u1 & s1 & -> & -> & Hn1 & ->). cbn [orb] in E.
  destruct (kMaxAffinities <? n1) eqn:B1.
  { injection E as <- <-. by exists (be_bytes 4 n1), s1. }
  destruct (read_affinities _ _) as [o2 r2] eqn:E2. destruct (failed_ r2) eqn:F2.
  { destruct o2; [|congruence]. pose proof (sticky_read_int 4 r2 F2) as Hs.
    destruct (read_int 4 r2) as [? r2']. cbn [snd] in Hs. subst r2'. rewrite F2 in E.
    simpl in E. congruence. }
  destruct (inverts_affinities _ _ _ _ _ E2 F2) as (u2 & s2 & -> & -> & HR2).
  destruct o2 as [affs|].
  2:{ injection E as <- <-. exists (be_bytes 4 n1 ++ u2), s2. by rewrite <- !app_assoc. }
  clear E1. destruct (read_int 4 _) as [n3 r3] eqn:E3.
  destruct (failed_ r3) eqn:F3; [simpl in E; congruence|].
  destruct (inverts_int 4 _ _ _ _ E3 F3) as (u3 & s3 & -> & -> & Hn3 & ->). cbn [orb] in E.
  destruct (kMaxExcluded <? n3) eqn:B3.
  { injection E as <- <-. exists (be_bytes 4 n1 ++ u2 ++ be_bytes 4 n3), s3. by rewrite <- !app_assoc. }
  destruct (read_excluded _ _) as [o4 r4] eqn:E4.
  assert (F4 : failed_ r4 = false) by (destruct o4; congruence).
  destruct (inverts_excluded _ _ _ _ _ E4 F4) as (u4 & s4 & -> & -> & HR4).
  exists (be_bytes 4 n1 ++ u2 ++ be_bytes 4 n3 ++ u4), s4. rewrite <- !app_assoc.
  split; [done|]. destruct o4 as [excl|]; injection E as <- <-; rewrite <- ?app_assoc; (split; [done|]); [|done].
  destruct HR2 as (L2 & W2 & ->), HR4 as (L4 & W4 & ->). bcases.
  unfold fits in Hn1, Hn3.
  assert (Z1 : zlen affs = n1) by (unfold zlen; lia).
  assert (Z3 : zlen excl = n3) by (unfold zlen; lia).
  unfold wf_signal, signal_bytes. cbn [affinities excluded_categories].
  rewrite Z1, Z3, !wrap_small by done. done.
Qed.

Lemma inverts_header_fields :
  inverts read_header_fields (fun '(version, raw_type, flags, id) u =>
    fits 64 id /\ u = header_rest_bytes version raw_type flags id).
Proof.
  unfold read_header_fields. invert_fields. split; [done|]. reflexivity.
Qed.

Lemma decode_header_inv out pre suf h r' :
  decode_header out (rd pre suf) = (DE_None, h, r') ->
  fits 64 (h_request_id h) /\ h = MkHeader kVersion (h_type h) 0 (h_request_id h) /\
  exists suf', suf = header_bytes (h_type h) (h_request_id h) ++ suf' /\
    r' = rd (pre ++ header_bytes (h_type h) (h_request_id h)) suf'.
Proof.
  unfold decode_header, read_u32. intros E.
  destruct (read_int 4 (rd pre suf)) as [m r1] eqn:E1. destruct (failed_ r1) eqn:F1; [done|].
  destruct (inverts_int 4 _ _ _ _ E1 F1) as (u1 & s1 & -> & -> & _ & ->).
  destruct (m =? kMagic) eqn:M; [|done]. bcases. subst m. cbn [negb] in E.
  destruct (read_header_fields _) as [[[[v ty] fl] id] r2] eqn:E2.
  destruct (failed_ r2) eqn:F2; [done|].
  destruct (inverts_header_fields _ _ _ _ E2 F2) as (u2 & s2 & -> & -> & Hid & ->).
  destruct (v =? kVersion) eqn:Hv; [|done]. destruct (fl =? 0) eqn:Hfl; [|done]. cbn [negb] in E.
  destruct (type_of_byte ty) as [t|] eqn:Ht; [|done]. injection E as <- <-. bcases. subst.
  apply type_byte_of_byte in Ht as ->. cbn [h_type h_request_id].
  split; [done|]. split; [done|]. exists s2. unfold header_bytes. by rewrite <- !app_assoc.
Qed.

Lemma finish_none_inv r : finish r = DE_None -> failed_ r = false /\ remaining r = 0%nat.
Proof.
  unfold finish, exhausted. destruct (failed_ r); [done|].
  destruct (Nat.eqb_spec (remaining r) 0); done.
Qed.

(** A reader that inverts to [R] and then finishes cleanly used the whole input. *)
Lemma inverts_finish {A} (c : Reader A) R pre suf a r' :
  inverts c R -> c (rd pre suf) = (a, r') -> finish r' = DE_None -> R a suf.
Proof.
  intros Hc E Hf. apply finish_none_inv in Hf as [F Hr].
  destruct (Hc _ _ _ _ E F) as (u & s & -> & -> & HR). rewrite remaining_rd in Hr.
  destruct s; [|done]. by rewrite app_nil_r.
Qed.

(** The one field with several encodings: any nonzero [dry_run] byte reads as true. *)
Definition recommend_bytes_with (dry : Z) (r : Recommend) : ByteBuffer :=
  signal_bytes (rec_signal r) ++ be_bytes 4 (rec_count r) ++ [byte_of_Z dry].

Lemma inverts_recommend_tail :
  inverts read_recommend_tail (fun '(count, dry) u =>
    fits 32 count /\ fits 8 dry /\ u = be_bytes 4 count ++ [byte_of_Z dry]).
Proof. unfold read_recommend_tail. invert_fields. done. Qed.

Lemma decode_recommend_inv pre suf o :
  decode_recommend (rd pre suf) = (DE_None, o) ->
  exists rc dry, o = Some rc /\ wf_request_body (RecommendBody rc) /\ fits 8 dry /\
    rec_dry_run rc = negb (dry =? 0) /\ suf = recommend_bytes_with dry rc.
Proof.
  unfold decode_recommend. intros E.
  destruct (read_signal _) as [[s|] r1] eqn:E1; [|by destruct (failed_ r1)].
  destruct (read_recommend_tail r1) as [[n d] r2] eqn:E2.
  destruct (finish r2) eqn:F2; try done.
  destruct (kMaxRecommendCount <? n) eqn:Hn; [done|]. injection E as <-. bcases.
  assert (F1 : failed_ r1 = false).
  { destruct (failed_ r1) eqn:F1; [|done].
    assert (Hst : sticky read_recommend_tail) by (unfold read_recommend_tail; solve_sticky).
    specialize (Hst r1 F1). rewrite E2 in Hst. cbn [snd] in Hst. subst r2.
    apply finish_none_inv in F2 as [F2 _]. congruence. }
  destruct (inverts_signal _ _ _ _ E1 F1) as (u1 & s1 & -> & -> & Hs & ->).
  destruct (inverts_finish _ _ _ _ _ _ inverts_recommend_tail E2 F2) as (Hc & Hd & ->).
  exists (MkRecommend s n (negb (d =? 0))), d. unfold fits in Hc.
  split; [done|]. split; [split; [done|cbn; lia]|]. split; [done|]. split; [done|].
  unfold recommend_bytes_with. by rewrite <- ?app_assoc.
Qed.

Lemma decode_req_body_inv t id pre suf r :
  fits 64 id -> is_response t = false ->
  decode_req_body (MkHeader kVersion t 0 id) (rd pre suf) = (DE_None, r) ->
  wf_request r /\ req_id r = id /\ type_of_request (req_body r) = t /\
  (suf = request_body_bytes (req_body r) \/
   exists rc dry, req_body r = RecommendBody rc /\ rec_dry_run rc = true /\
     0 < dry < 256 /\ suf = recommend_bytes_with dry rc).
Proof.
  intros Hid Ht E. unfold decode_req_body in E. cbn [h_type h_request_id] in E.
  destruct t; try done.
  - destruct (read_u64 _) as [i r1] eqn:E1. injection E as F <-.
    destruct (inverts_finish _ _ _ _ _ _ (inverts_int 8) E1 F) as [? ->]. split_and!; first [done | by left].
  - destruct (read_item _) as [i r1] eqn:E1. destruct (finish r1) eqn:F; try done.
    destruct (item_within_limits i) eqn:L; [|done]. injection E as <-.
    destruct (inverts_finish _ _ _ _ _ _ inverts_item E1 F) as [-> Hw].
    split_and!; [split; [done|by apply Hw]|done|done|by left].
  - destruct (read_u64 _) as [i r1] eqn:E1. injection E as F <-.
    destruct (inverts_finish _ _ _ _ _ _ (inverts_int 8) E1 F) as [? ->]. split_and!; first [done | by left].
  - injection E as F <-. rewrite finish_rd in F. destruct suf; [|done].
    split_and!; first [done | by left].
  - destruct (decode_recommend _) as [e o] eqn:E1. destruct o as [rc|]; [|injection E as -> <-].
    2:{ apply decode_recommend_inv in E1 as (? & ? & [=] & _). }
    injection E as -> <-. apply decode_recommend_inv in E1 as (rc' & d & [= <-] & Hw & Hd & Hb & ->).
    split_and!; [done..|]. unfold fits in Hd. destruct (Z.eqb_spec d 0) as [->|Hne].
    + left. cbn [req_body]. unfold request_body_bytes, recommend_bytes. by rewrite Hb.
    + right. exists rc, d. split_and!; try done; lia.
Qed.

Lemma decode_req_inv body out r :
  decode_req body out = (DE_None, r) ->
  wf_request r /\
  (body = encode_req r [] \/
   exists rc dry, req_body r = RecommendBody rc /\ rec_dry_run rc = true /\ 0 < dry < 256 /\
     body = header_bytes RecommendRequest (req_id r) ++ recommend_bytes_with dry rc).
Proof.
  unfold decode_req. change (reader_of body) with (rd [] body). intros E.
  destruct (decode_header _ _) as [[e h] r1] eqn:E1. destruct e; try done.
  apply decode_header_inv in E1 as (Hid & Hh & suf & -> & ->). rewrite Hh in E.
  cbn [h_type] in E. destruct (is_response (h_type h)) eqn:Ht; [done|].
  apply decode_req_body_inv in E as (Hw & <- & <- & Hb); [|done..].
  split; [done|]. rewrite encode_req_app, app_nil_l.
  destruct Hb as [->|(rc & d & Hrc & Hdry & Hd & ->)]; [by left|right].
  exists rc, d. by rewrite Hrc.
Qed.

(** * Sizes *)

Lemma length_header t id : length (header_bytes t id) = 16%nat.
Proof.
  unfold header_bytes, header_rest_bytes. rewrite !length_app, !length_be_bytes. done.
Qed.

Lemma zlen_string_bytes s : zlen (string_bytes s) = 4 + zlen s.
Proof. unfold string_bytes, zlen. rewrite length_app, length_be_bytes. lia. Qed.

Lemma zlen_be_bytes w v : zlen (be_bytes w v) = Z.of_nat w.
Proof. unfold zlen. by rewrite length_be_bytes. Qed.

Lemma zlen_concat_le {A} (f : A -> ByteBuffer) l bound :
  Forall (fun a => zlen (f a) <= bound) l -> zlen (concat (map f l)) <= bound * zlen l.
Proof.
  induction 1 as [|a l Ha _ IH]; [unfold zlen; simpl; lia|]. cbn [map concat].
  rewrite zlen_app. assert (zlen (a :: l) = 1 + zlen l) as -> by (unfold zlen; simpl; lia). lia.
Qed.

Lemma zlen_item i : wf_item i -> zlen (item_bytes i) <= 168.
Proof.
  intros (_ & H1 & H2 & _). unfold item_bytes, kMaxCategoryLength, kMaxAdvertiserLength in *.
  rewrite !zlen_app, !zlen_string_bytes, !zlen_be_bytes. lia.
Qed.

Lemma zlen_signal s : wf_signal s -> zlen (signal_bytes s) <= 9224.
Proof.
  intros (H1 & H2 & H3 & H4). unfold signal_bytes. rewrite !zlen_app, !zlen_be_bytes.
  unfold kMaxAffinities, kMaxExcluded in *.
  assert (A : zlen (concat (map affinity_bytes (affinities s))) <= 76 * zlen (affinities s)).
  { apply zlen_concat_le. eapply Forall_impl; [|exact H2]. intros a [Ha _].
    unfold affinity_bytes. rewrite zlen_app, zlen_string_bytes, zlen_be_bytes.
    unfold kMaxCategoryLength in Ha. lia. }
  assert (B : zlen (concat (map string_bytes (excluded_categories s)))
              <= 68 * zlen (excluded_categories s)).
  { apply zlen_concat_le. eapply Forall_impl; [|exact H4]. intros c Hc. cbn beta in Hc.
    rewrite zlen_string_bytes. unfold kMaxCategoryLength in Hc. lia. }
  lia.
Qed.

Lemma zlen_request r : wf_request r -> zlen (encode_req r []) <= 9245.
Proof.
  intros [_ Hb]. rewrite encode_req_app, app_nil_l, zlen_app. unfold zlen at 1.
  rewrite length_header. destruct (req_body r) as [i|i|i| |rc]; cbn [request_body_bytes].
  - rewrite zlen_be_bytes. lia.
  - pose proof (zlen_item i Hb). lia.
  - rewrite zlen_be_bytes. lia.
  - unfold zlen. simpl. lia.
  - destruct Hb as [Hs _]. pose proof (zlen_signal _ Hs). unfold recommend_bytes.
    rewrite !zlen_app, zlen_be_bytes. unfold zlen at 2. simpl length. lia.
Qed.

(** * The codec's contract *)

Lemma decode_req_roundtrip r out : wf_request r -> decode_req (encode_req r []) out = (DE_None, r).
Proof.
  intros Hw. destruct (decode_req_enc r [] out Hw) as (o & E & Ho). rewrite app_nil_r in E. by rewrite E, Ho.
Qed.

Lemma decode_resp_roundtrip r out : wf_response r -> decode_resp (encode_resp r []) out = (DE_None, r).
Proof.
  intros Hw. destruct (decode_resp_enc r [] out Hw) as (o & E & Ho). rewrite app_nil_r in E. by rewrite E, Ho.
Qed.

#[global] Instance BinaryCodec_laws : CodecLaws BinaryCodec.
Proof.
  split; cbn [encode_request encode_response decode_request decode_response BinaryCodec].
  - intros. by rewrite encode_req_app, (encode_req_app r []).
  - intros. by rewrite encode_resp_app, (encode_resp_app r []).
  - intros r. rewrite encode_req_app. intros H. apply (f_equal length) in H.
    rewrite !length_app, length_header in H. simpl in H. lia.
  - intros r. rewrite encode_resp_app. intros H. apply (f_equal length) in H.
    rewrite !length_app, length_header in H. simpl in H. lia.
  - intros r out Hw _. by apply decode_req_roundtrip.
  - intros r out Hw _ _. by apply decode_resp_roundtrip.
  - intros body out r E. by apply decode_req_inv in E as [? _].
Qed.

(** * Properties *)

(** A request and a response used as concrete inputs. *)
Definition sample_request : Request :=
  MkRequest 42 (RecommendBody (MkRecommend
    (MkSignal [MkAffinity (str "sports") d0_5; MkAffinity (str "news") d2] [str "ads"]) 5 true)).
Definition sample_response : Response :=
  MkResponse 42 (RecommendResult SC_Ok
    [MkRanked 9 d1 (str "sports") (str "acme"); MkRanked 3 d0_3 (str "news") []]).

Lemma sample_request_wf : wf_request sample_request.
Proof. unfold wf_request, wf_request_body, wf_signal. repeat constructor; by vm_compute. Qed.

Lemma sample_response_wf : wf_response sample_response.
Proof. unfold wf_response, wf_response_body. repeat constructor; by vm_compute. Qed.

(** C13: Decoding the encoding of a well-formed request gives back that request,
    whatever the out-parameter held before. *)
Theorem request_roundtrip r out :
  wf_request r -> decode_req (encode_req r []) out = (DE_None, r).
Proof. apply decode_req_roundtrip. Qed.

Lemma request_roundtrip_witness :
  decode_req (encode_req sample_request []) default_request = (DE_None, sample_request).
Proof. apply request_roundtrip, sample_request_wf. Defined.

(** C14: Decoding the encoding of a well-formed response gives back that response. *)
Theorem response_roundtrip r out :
  wf_response r -> decode_resp (encode_resp r []) out = (DE_None, r).
Proof. apply decode_resp_roundtrip. Qed.

Lemma response_roundtrip_witness :
  decode_resp (encode_resp sample_response []) default_response = (DE_None, sample_response).
Proof. apply response_roundtrip, sample_response_wf. Defined.

(** Every strict prefix of an encoded request, however short, decodes to
    Truncated: no cut inside any field is mistaken for another message. *)
Theorem truncated_request_rejected r n out :
  wf_request r -> (n < length (encode_req r []))%nat ->
  fst (decode_req (take n (encode_req r [])) out) = DE_Truncated.
Proof. apply decode_req_cut. Qed.

Lemma truncated_request_rejected_witness :
  fst (decode_req (take 30 (encode_req sample_request [])) default_request) = DE_Truncated.
Proof.
  apply truncated_request_rejected; [apply sample_request_wf|]. apply Nat.ltb_lt. by vm_compute.
Defined.

(** An encoded request or response followed by any extra bytes decodes to
    TrailingBytes. *)
Theorem trailing_bytes_rejected r p suf out out' :
  wf_request r -> wf_response p -> suf <> [] ->
  fst (decode_req (encode_req r [] ++ suf) out) = DE_TrailingBytes /\
  fst (decode_resp (encode_resp p [] ++ suf) out') = DE_TrailingBytes.
Proof.
  intros Hr Hp Hs. destruct (decode_req_enc r suf out Hr) as (o1 & -> & _).
  destruct (decode_resp_enc p suf out' Hp) as (o2 & -> & _). by destruct suf.
Qed.

Lemma trailing_bytes_rejected_witness :
  fst (decode_req (encode_req sample_request [] ++ str "x") default_request) = DE_TrailingBytes /\
  fst (decode_resp (encode_resp sample_response [] ++ str "x") default_response) = DE_TrailingBytes.
Proof.
  apply trailing_bytes_rejected; [apply sample_request_wf|apply sample_response_wf|done].
Defined.

(** Whatever bytes arrive, a request the decoder accepts respects every type
    range and field limit, and the bytes are the encoding of that request; the one
    freedom is that any nonzero dry_run byte is read as true. *)
Theorem accepted_request_canonical body out r :
  decode_req body out = (DE_None, r) ->
  wf_request r /\
  (body = encode_req r [] \/
   exists rc dry, req_body r = RecommendBody rc /\ rec_dry_run rc = true /\ 0 < dry < 256 /\
     body = header_bytes RecommendRequest (req_id r) ++ recommend_bytes_with dry rc).
Proof. apply decode_req_inv. Qed.

Lemma accepted_request_canonical_witness : wf_request sample_request.
Proof.
  refine (proj1 (accepted_request_canonical (encode_req sample_request []) default_request _ _)).
  by vm_compute.
Defined.

Lemma request_in_range r :
  wf_request r -> kMinFrameSize <= zlen (encode_req r []) <= kMaxFrameSize.
Proof.
  intros Hw. pose proof (zlen_request r Hw). pose proof (encode_request_nonempty (C := BinaryCodec) r) as Hn.
  cbn [encode_request BinaryCodec] in Hn. rewrite <- zlen_nil_iff in Hn.
  pose proof (zlen_nonneg (encode_req r [])). unfold kMinFrameSize, kMaxFrameSize. lia.
Qed.

(** Every well-formed request encodes to a body that is not empty and is far
    below the frame limit, so it can always be sent. *)
Theorem request_fits_frame r :
  wf_request r -> kMinFrameSize <= zlen (encode_req r []) <= kMaxFrameSize.
Proof. apply request_in_range. Qed.

Lemma request_fits_frame_witness :
  kMinFrameSize <= zlen (encode_req sample_request []) <= kMaxFrameSize.
Proof. apply request_fits_frame, sample_request_wf. Defined.
