(* ===== verification/Protobuf.v ===== *)
(** The second codec (src/proto/protobuf_codec.cpp), over the messages of proto/lrd.proto.

    The classes the build generates from the schema are records with one field per field
    of the message: a scalar is always there (zero by default), a message field may be
    absent and then reads as its default, a oneof holds at most one member, an enum is open.
    The library that serialises them is a parameter, the class [ProtobufLib]; what the codec
    relies on is [ProtobufLibLaws]: parsing inverts serialising (below two gigabytes), a message with a member of
    its oneof set is not empty on the wire, and parsed scalars are in the range of their
    types. Against these the codec keeps the contract of Codec.v, so everything proved of
    any codec holds of it. *)
From stdpp Require Import base list option numbers countable.
From S2P Require Import Prelude Binary64 Item Message Wire Codec BinaryCodec.

(** * The schema *)

Record PbItem := MkPbItem {
  pb_id : Z;
  pb_category : bstring;
  pb_advertiser : bstring;
  pb_base_score : double;
  pb_created_at_ms : Z;
  pb_expires_at_ms : Z
}.

Record PbCategoryAffinity := MkPbAffinity { pb_affinity_category : bstring; pb_weight : double }.

Record PbUserSignal := MkPbSignal {
  pb_affinities : list PbCategoryAffinity;
  pb_excluded_categories : list bstring
}.

Record PbRankedItem := MkPbRanked {
  pb_ranked_id : Z;
  pb_score : double;
  pb_ranked_category : bstring;
  pb_ranked_advertiser : bstring
}.

(** Fifteen [uint64] fields, those of [Stats]. *)
Record PbStats := MkPbStats {
  pb_requests : Z; pb_gets : Z; pb_puts : Z; pb_deletes : Z; pb_recommends : Z;
  pb_hits : Z; pb_misses : Z; pb_evictions : Z; pb_entries : Z; pb_capacity : Z;
  pb_policy_allowed : Z; pb_policy_exposure_blocked : Z; pb_policy_frequency_blocked : Z;
  pb_policy_store_full : Z; pb_policy_tracked : Z
}.

(** The members of the oneof; [option] where a message field has presence. *)
Inductive PbBody :=
| PbGetItemRequest (item_id : Z)
| PbPutItemRequest (item : option PbItem)
| PbDeleteItemRequest (item_id : Z)
| PbStatsRequest
| PbRecommendRequest (signal : option PbUserSignal) (count : Z) (dry_run : bool)
| PbGetItemResponse (status : Z) (item : option PbItem)
| PbPutItemResponse (status : Z)
| PbDeleteItemResponse (status : Z)
| PbStatsResponse (status : Z) (stats : option PbStats)
| PbRecommendResponse (status : Z) (items : list PbRankedItem)
| PbErrorResponse (status : Z) (message : bstring).

Record Envelope := MkEnvelope { pb_request_id : Z; pb_body : option PbBody }.

(** Default instances, which an absent message field reads as. *)
Definition pb_default_item : PbItem := MkPbItem 0 [] [] d0 0 0.
Definition pb_default_signal : PbUserSignal := MkPbSignal [] [].
Definition pb_default_stats : PbStats := MkPbStats 0 0 0 0 0 0 0 0 0 0 0 0 0 0 0.

(** The scalar types of the schema. *)
Definition pb_item_typed (i : PbItem) : Prop :=
  fits 64 (pb_id i) /\ d_wf (pb_base_score i) /\ fits_i64 (pb_created_at_ms i) /\ fits_i64 (pb_expires_at_ms i).
Definition pb_signal_typed (s : PbUserSignal) : Prop := Forall (fun a => d_wf (pb_weight a)) (pb_affinities s).
Definition pb_ranked_typed (r : PbRankedItem) : Prop := fits 64 (pb_ranked_id r) /\ d_wf (pb_score r).
Definition pb_stats_fields (s : PbStats) : list Z :=
  [pb_requests s; pb_gets s; pb_puts s; pb_deletes s; pb_recommends s; pb_hits s; pb_misses s;
   pb_evictions s; pb_entries s; pb_capacity s; pb_policy_allowed s; pb_policy_exposure_blocked s;
   pb_policy_frequency_blocked s; pb_policy_store_full s; pb_policy_tracked s].
Definition pb_enum_typed (status : Z) : Prop := - 2 ^ 31 <= status < 2 ^ 31.

Definition pb_body_typed (b : PbBody) : Prop :=
  match b with
  | PbGetItemRequest id | PbDeleteItemRequest id => fits 64 id
  | PbPutItemRequest item => from_option pb_item_typed True item
  | PbStatsRequest => True
  | PbRecommendRequest signal count _ => from_option pb_signal_typed True signal /\ fits 32 count
  | PbGetItemResponse status item => pb_enum_typed status /\ from_option pb_item_typed True item
  | PbPutItemResponse status | PbDeleteItemResponse status => pb_enum_typed status
  | PbStatsResponse status stats =>
      pb_enum_typed status /\ from_option (fun s => Forall (fits 64) (pb_stats_fields s)) True stats
  | PbRecommendResponse status items => pb_enum_typed status /\ Forall pb_ranked_typed items
  | PbErrorResponse status _ => pb_enum_typed status
  end.

Definition envelope_typed (e : Envelope) : Prop :=
  fits 64 (pb_request_id e) /\ from_option pb_body_typed True (pb_body e).

(** * The library *)

(** [SerializeToArray] and [ParseFromArray], for sizes an [int] can hold. *)
Class ProtobufLib := {
  serialize : Envelope -> bstring;
  parse_from : bstring -> option Envelope
}.

Class ProtobufLibLaws (P : ProtobufLib) : Prop := {
  parse_serialize e :
    envelope_typed e -> zlen (serialize e) < 2 ^ 31 -> parse_from (serialize e) = Some e;
  serialize_nonempty e : pb_body e <> None -> serialize e <> [];
  parse_typed bytes e : parse_from bytes = Some e -> envelope_typed e
}.

(** * Conversions *)

Definition STATUS_OK : Z := 0.
Definition STATUS_NOT_FOUND : Z := 1.
Definition STATUS_INVALID_REQUEST : Z := 2.
Definition STATUS_INTERNAL : Z := 3.

Definition to_wire_status (status : StatusCode) : Z :=
  if status =? SC_Ok then STATUS_OK
  else if status =? SC_NotFound then STATUS_NOT_FOUND
  else if status =? SC_InvalidRequest then STATUS_INVALID_REQUEST
  else if status =? SC_Internal then STATUS_INTERNAL
  else STATUS_INTERNAL.

Definition from_wire_status (status : Z) : StatusCode :=
  if status =? STATUS_OK then SC_Ok
  else if status =? STATUS_NOT_FOUND then SC_NotFound
  else if status =? STATUS_INVALID_REQUEST then SC_InvalidRequest
  else if status =? STATUS_INTERNAL then SC_Internal
  else SC_Internal.

Definition item_to_wire (item : Item) : PbItem :=
  MkPbItem (item_id item) (item_category item) (item_advertiser item) (item_base_score item)
    (to_epoch_millis (item_created_at item)) (to_epoch_millis (item_expires_at item)).

Definition item_from_wire (i : PbItem) : Item :=
  MkItem (pb_id i) (pb_category i) (pb_advertiser i) (pb_base_score i)
    (from_epoch_millis (pb_created_at_ms i)) (from_epoch_millis (pb_expires_at_ms i)).

Definition pb_item_within_limits (item : Item) : bool :=
  (zlen (item_category item) <=? kMaxCategoryLength) && (zlen (item_advertiser item) <=? kMaxAdvertiserLength).

Definition signal_to_wire (signal : UserSignal) : PbUserSignal :=
  MkPbSignal (map (fun a => MkPbAffinity (affinity_category a) (affinity_weight a)) (affinities signal))
    (excluded_categories signal).

(** The two loops; [None] is the early [return false]. *)
Fixpoint affinities_from_wire (entries : list PbCategoryAffinity) : option (list CategoryAffinity) :=
  match entries with
  | [] => Some []
  | entry :: entries =>
      if kMaxCategoryLength <? zlen (pb_affinity_category entry) then None
      else cons (MkAffinity (pb_affinity_category entry) (pb_weight entry)) <$> affinities_from_wire entries
  end.
Fixpoint excluded_from_wire (entries : list bstring) : option (list bstring) :=
  match entries with
  | [] => Some []
  | category :: entries =>
      if kMaxCategoryLength <? zlen category then None else cons category <$> excluded_from_wire entries
  end.

Definition signal_from_wire (s : PbUserSignal) : option UserSignal :=
  if (kMaxAffinities <? zlen (pb_affinities s)) || (kMaxExcluded <? zlen (pb_excluded_categories s)) then None
  else
    match affinities_from_wire (pb_affinities s), excluded_from_wire (pb_excluded_categories s) with
    | Some a, Some x => Some (MkSignal a x)
    | _, _ => None
    end.

Definition stats_to_wire (s : Stats) : PbStats :=
  MkPbStats (requests s) (gets s) (puts s) (deletes s) (recommends s) (hits s) (misses s) (evictions s)
    (entries s) (capacity s) (policy_allowed s) (policy_exposure_blocked s) (policy_frequency_blocked s)
    (policy_store_full s) (policy_tracked s).
Definition stats_from_wire (s : PbStats) : Stats :=
  MkStats (pb_requests s) (pb_gets s) (pb_puts s) (pb_deletes s) (pb_recommends s) (pb_hits s) (pb_misses s)
    (pb_evictions s) (pb_entries s) (pb_capacity s) (pb_policy_allowed s) (pb_policy_exposure_blocked s)
    (pb_policy_frequency_blocked s) (pb_policy_store_full s) (pb_policy_tracked s).

Definition ranked_to_wire (r : RankedItem) : PbRankedItem :=
  MkPbRanked (ranked_id r) (ranked_score r) (ranked_category r) (ranked_advertiser r).
Definition ranked_from_wire (r : PbRankedItem) : RankedItem :=
  MkRanked (pb_ranked_id r) (pb_score r) (pb_ranked_category r) (pb_ranked_advertiser r).

(** * The codec *)

(** [static_cast<int>]. *)
Definition to_int (z : Z) : Z := let u := wrap 32 z in if u <? 2 ^ 31 then u else u - 2 ^ 32.
Definition INT_MAX : Z := 2 ^ 31 - 1.

Section Codec.
Context {P : ProtobufLib}.

(** The bytes [resize] added stay zero when the message is too large to serialise. *)
Definition append_serialized (envelope : Envelope) (out : ByteBuffer) : ByteBuffer :=
  let bytes := serialize envelope in
  out ++ (if zlen bytes <=? INT_MAX then bytes else replicate (length bytes) Byte.x00).

Definition pb_parse (body : ByteBuffer) : option Envelope :=
  let size := to_int (zlen body) in
  if size <? 0 then None else parse_from (take (Z.to_nat size) body).

Definition request_envelope (request : Request) : Envelope :=
  MkEnvelope (req_id request)
    (Some match req_body request with
          | GetItem id => PbGetItemRequest id
          | PutItem item => PbPutItemRequest (Some (item_to_wire item))
          | DeleteItem id => PbDeleteItemRequest id
          | GetStats => PbStatsRequest
          | RecommendBody r =>
              PbRecommendRequest (Some (signal_to_wire (rec_signal r))) (rec_count r) (rec_dry_run r)
          end).

Definition response_envelope (response : Response) : Envelope :=
  MkEnvelope (resp_id response)
    (Some match resp_body response with
          | GetItemResult status item =>
              PbGetItemResponse (to_wire_status status)
                (if status =? SC_Ok then Some (item_to_wire item) else None)
          | PutItemResult status => PbPutItemResponse (to_wire_status status)
          | DeleteItemResult status => PbDeleteItemResponse (to_wire_status status)
          | StatsResult status stats => PbStatsResponse (to_wire_status status) (Some (stats_to_wire stats))
          | RecommendResult status items =>
              PbRecommendResponse (to_wire_status status) (map ranked_to_wire items)
          | Failure status message => PbErrorResponse (to_wire_status status) message
          end).

Definition pb_encode_request (request : Request) (out : ByteBuffer) : ByteBuffer :=
  append_serialized (request_envelope request) out.
Definition pb_encode_response (response : Response) (out : ByteBuffer) : ByteBuffer :=
  append_serialized (response_envelope response) out.

Definition pb_decode_request (body : ByteBuffer) (out : Request) : DecodeError * Request :=
  match pb_parse body with
  | None => (DE_Truncated, out)
  | Some envelope =>
      let fresh := MkRequest (pb_request_id envelope) (req_body default_request) in
      let accept b := (DE_None, MkRequest (pb_request_id envelope) b) in
      match pb_body envelope with
      | Some (PbGetItemRequest id) => accept (GetItem id)
      | Some (PbDeleteItemRequest id) => accept (DeleteItem id)
      | Some (PbPutItemRequest item) =>
          let item := item_from_wire (default pb_default_item item) in
          if negb (pb_item_within_limits item) then (DE_FieldTooLarge, fresh) else accept (PutItem item)
      | Some PbStatsRequest => accept GetStats
      | Some (PbRecommendRequest signal count dry_run) =>
          match signal_from_wire (default pb_default_signal signal) with
          | None => (DE_FieldTooLarge, fresh)
          | Some signal =>
              if kMaxRecommendCount <? count then (DE_FieldTooLarge, fresh)
              else accept (RecommendBody (MkRecommend signal count dry_run))
          end
      | Some _ => (DE_WrongDirection, fresh)
      | None => (DE_UnknownType, fresh)
      end
  end.

Definition pb_decode_response (body : ByteBuffer) (out : Response) : DecodeError * Response :=
  match pb_parse body with
  | None => (DE_Truncated, out)
  | Some envelope =>
      let fresh := MkResponse (pb_request_id envelope) (resp_body default_response) in
      let accept b := (DE_None, MkResponse (pb_request_id envelope) b) in
      match pb_body envelope with
      | Some (PbGetItemResponse status item) =>
          let status := from_wire_status status in
          if status =? SC_Ok then
            let item := item_from_wire (default pb_default_item item) in
            if negb (pb_item_within_limits item) then (DE_FieldTooLarge, fresh)
            else accept (GetItemResult status item)
          else accept (GetItemResult status default_item)
      | Some (PbPutItemResponse status) => accept (PutItemResult (from_wire_status status))
      | Some (PbDeleteItemResponse status) => accept (DeleteItemResult (from_wire_status status))
      | Some (PbStatsResponse status stats) =>
          accept (StatsResult (from_wire_status status) (stats_from_wire (default pb_default_stats stats)))
      | Some (PbRecommendResponse status items) =>
          if kMaxRecommendCount <? zlen items then (DE_FieldTooLarge, fresh)
          else accept (RecommendResult (from_wire_status status) (map ranked_from_wire items))
      | Some (PbErrorResponse status message) =>
          if kMaxMessageLength <? zlen message then (DE_FieldTooLarge, fresh)
          else accept (Failure (from_wire_status status) message)
      | Some _ => (DE_WrongDirection, fresh)
      | None => (DE_UnknownType, fresh)
      end
  end.

#[global] Instance ProtobufCodec : Codec := {
  codec_name := str "protobuf/v1";
  encode_request := pb_encode_request;
  encode_response := pb_encode_response;
  decode_request := pb_decode_request;
  decode_response := pb_decode_response
}.
End Codec.

(** * Conversions invert *)

Lemma status_roundtrip s : SC_Ok <= s <= SC_Internal -> from_wire_status (to_wire_status s) = s.
Proof.
  intros Hs. unfold SC_Ok, SC_Internal in Hs.
  assert (s = 0 \/ s = 1 \/ s = 2 \/ s = 3) as [->|[->|[->| ->]]] by lia; done.
Qed.

Lemma to_wire_status_typed s : pb_enum_typed (to_wire_status s).
Proof. unfold to_wire_status. by repeat case_match. Qed.

Lemma item_roundtrip i : item_from_wire (item_to_wire i) = i.
Proof. by destruct i. Qed.

Lemma pb_limits_wf i : wf_item i -> pb_item_within_limits i = true.
Proof.
  intros (_ & H1 & H2 & _). unfold pb_item_within_limits. by rewrite (proj2 (Z.leb_le _ _)), (proj2 (Z.leb_le _ _)).
Qed.

Lemma affinities_roundtrip l : Forall wf_affinity l ->
  affinities_from_wire (map (fun a => MkPbAffinity (affinity_category a) (affinity_weight a)) l) = Some l.
Proof.
  induction 1 as [|a l [Ha _] _ IH]; cbn; [done|]. rewrite (proj2 (Z.ltb_ge _ _)), IH by done. by destruct a.
Qed.

Lemma excluded_roundtrip l : Forall (fun c => zlen c <= kMaxCategoryLength) l -> excluded_from_wire l = Some l.
Proof. induction 1 as [|c l Hc _ IH]; cbn; [done|]. by rewrite (proj2 (Z.ltb_ge _ _)), IH. Qed.

Lemma signal_roundtrip s : wf_signal s -> signal_from_wire (signal_to_wire s) = Some s.
Proof.
  intros (H1 & H2 & H3 & H4). unfold signal_from_wire, signal_to_wire. cbn.
  assert (zlen (map (fun a => MkPbAffinity (affinity_category a) (affinity_weight a)) (affinities s)) =
    zlen (affinities s)) as -> by (unfold zlen; by rewrite length_map).
  rewrite (proj2 (Z.ltb_ge _ _)), (proj2 (Z.ltb_ge _ _)) by done. cbn [orb].
  rewrite affinities_roundtrip, excluded_roundtrip by done. by destruct s.
Qed.

Lemma stats_roundtrip s : stats_from_wire (stats_to_wire s) = s.
Proof. by destruct s. Qed.

Lemma ranked_roundtrip l : map ranked_from_wire (map ranked_to_wire l) = l.
Proof. induction l as [|[] l IH]; cbn; [done|]. by f_equal. Qed.

(** * Types of what is sent *)

Lemma request_typed r : wf_request r -> envelope_typed (request_envelope r).
Proof.
  intros [Hid Hb]. split; [done|]. cbn. destruct (req_body r) as [id|item|id| |rec]; cbn in *; try done.
  - by destruct Hb as (? & _ & _ & ? & ? & ?).
  - destruct Hb as [(_ & Ha & _) Hc]. split.
    + apply Forall_map. eapply Forall_impl; [|exact Ha]. by intros a [_ ?].
    + unfold kMaxRecommendCount, fits in *. lia.
Qed.

Lemma response_typed r : wf_response r -> envelope_typed (response_envelope r).
Proof.
  intros [Hid [_ Hb]]. split; [done|]. cbn.
  destruct (resp_body r) as [s item|s|s|s st|s items|s m]; cbn in *; try (split; [apply to_wire_status_typed|]);
    try apply to_wire_status_typed.
  - destruct (s =? SC_Ok); [|done]. by destruct Hb as (? & _ & _ & ? & ? & ?).
  - done.
  - apply Forall_map. eapply Forall_impl; [|exact (proj2 Hb)]. intros x (? & ? & _). by split.
Qed.

(** * Whatever is accepted is well-formed *)

Lemma affinities_from_wire_wf l l' :
  affinities_from_wire l = Some l' -> Forall (fun a => d_wf (pb_weight a)) l ->
  Forall wf_affinity l' /\ length l' = length l.
Proof.
  revert l'. induction l as [|a l IH]; intros l'; cbn [affinities_from_wire]; [by intros [= <-]|].
  destruct (Z.ltb_spec kMaxCategoryLength (zlen (pb_affinity_category a))); [done|].
  destruct (affinities_from_wire l) as [l1|]; cbn; [|done]. intros [= <-] Hl. apply Forall_cons_1 in Hl as [Ha Hl].
  destruct (IH l1 eq_refl Hl) as [H1 H2]. split; [by apply Forall_cons_2|cbn; by rewrite H2].
Qed.

Lemma excluded_from_wire_wf l l' :
  excluded_from_wire l = Some l' -> Forall (fun c => zlen c <= kMaxCategoryLength) l' /\ length l' = length l.
Proof.
  revert l'. induction l as [|c l IH]; intros l'; cbn [excluded_from_wire]; [by intros [= <-]|].
  destruct (Z.ltb_spec kMaxCategoryLength (zlen c)); [done|]. destruct (excluded_from_wire l) as [l1|]; cbn; [|done].
  intros [= <-]. destruct (IH l1 eq_refl) as [H1 H2]. split; [by apply Forall_cons_2|cbn; by rewrite H2].
Qed.

Lemma signal_from_wire_wf s s' : signal_from_wire s = Some s' -> pb_signal_typed s -> wf_signal s'.
Proof.
  unfold signal_from_wire, pb_signal_typed. split_if; [done|]. bcases.
  destruct (affinities_from_wire _) as [a|] eqn:Ea; [|done]. destruct (excluded_from_wire _) as [x|] eqn:Ex; [|done].
  intros [= <-] Ht. destruct (affinities_from_wire_wf _ _ Ea Ht) as [H1 H2]. destruct (excluded_from_wire_wf _ _ Ex) as [H3 H4].
  unfold wf_signal, zlen in *. cbn. rewrite H2, H4. by split_and!.
Qed.

Lemma item_from_wire_wf i : pb_item_typed i -> pb_item_within_limits (item_from_wire i) = true -> wf_item (item_from_wire i).
Proof.
  intros (? & ? & ? & ?) Hl. unfold pb_item_within_limits in Hl. bcases. unfold wf_item. cbn in *. by split_and!.
Qed.

Section Laws.
Context {P : ProtobufLib} {L : ProtobufLibLaws P}.

Lemma append_nonempty e out : pb_body e <> None -> append_serialized e out <> [].
Proof.
  intros Hb. pose proof (serialize_nonempty e Hb) as Hne. unfold append_serialized.
  intros [_ H]%app_nil. destruct (zlen (serialize e) <=? INT_MAX); [done|].
  by destruct (serialize e).
Qed.

(** What fits a frame comes out of the library as it went in. *)
Lemma parse_appended e :
  envelope_typed e -> zlen (append_serialized e []) <= kMaxFrameSize -> pb_parse (append_serialized e []) = Some e.
Proof.
  intros Ht Hs. unfold append_serialized in *. rewrite app_nil_l in *.
  assert (Hl : zlen (serialize e) <= kMaxFrameSize).
  { destruct (zlen (serialize e) <=? INT_MAX); [done|]. unfold zlen in *. by rewrite length_replicate in Hs. }
  unfold kMaxFrameSize in Hl. pose proof (zlen_nonneg (serialize e)) as H0.
  rewrite (proj2 (Z.leb_le _ INT_MAX)) by (unfold INT_MAX; lia).
  unfold pb_parse, to_int. rewrite wrap_small by (unfold fits; lia).
  rewrite (proj2 (Z.ltb_lt (zlen (serialize e)) (2 ^ 31))), (proj2 (Z.ltb_ge (zlen (serialize e)) 0)) by lia.
  unfold zlen in *. rewrite Nat2Z.id, take_ge by lia. apply parse_serialize; [done|]. unfold zlen. lia.
Qed.

Lemma parse_appended_typed body e : pb_parse body = Some e -> envelope_typed e.
Proof. unfold pb_parse. split_if; [done|]. apply parse_typed. Qed.

Lemma pb_request_roundtrip r out :
  wf_request r -> zlen (pb_encode_request r []) <= kMaxFrameSize ->
  pb_decode_request (pb_encode_request r []) out = (DE_None, r).
Proof.
  intros Hw Hs. unfold pb_decode_request, pb_encode_request in *.
  rewrite parse_appended by (done || by apply request_typed). cbn [request_envelope pb_body pb_request_id].
  destruct Hw as [_ Hb]. destruct r as [id [|item| | |[signal count dry]]]; cbn in *; try done.
  - by rewrite item_roundtrip, pb_limits_wf.
  - destruct Hb as [Hsig Hc]. rewrite signal_roundtrip by done. by rewrite (proj2 (Z.ltb_ge _ _)) by lia.
Qed.

Lemma pb_response_roundtrip r out :
  wf_response r -> known_status r -> zlen (pb_encode_response r []) <= kMaxFrameSize ->
  pb_decode_response (pb_encode_response r []) out = (DE_None, r).
Proof.
  intros Hw Hk Hs. unfold pb_decode_response, pb_encode_response, known_status in *.
  rewrite parse_appended by (done || by apply response_typed). cbn [response_envelope pb_body pb_request_id].
  destruct Hw as [_ [_ Hb]]. destruct r as [id [s item|s|s|s st|s items|s m]]; cbn in *; rewrite ?status_roundtrip by done.
  - destruct (s =? SC_Ok); cbn; [|by subst]. by rewrite item_roundtrip, pb_limits_wf.
  - done.
  - done.
  - by rewrite stats_roundtrip.
  - assert (zlen (map ranked_to_wire items) = zlen items) as -> by (unfold zlen; by rewrite length_map).
    by rewrite (proj2 (Z.ltb_ge _ _)), ranked_roundtrip by apply Hb.
  - by rewrite (proj2 (Z.ltb_ge _ _)).
Qed.

Lemma pb_accepted_wf body out r : pb_decode_request body out = (DE_None, r) -> wf_request r.
Proof.
  unfold pb_decode_request. destruct (pb_parse body) as [e|] eqn:E; [|done].
  apply parse_appended_typed in E as [Hid Hb]. destruct (pb_body e) as [b|]; [|done]. cbn in Hb.
  destruct b as [id|item|id| |signal count dry| | | | | |]; try done.
  - by intros [= <-].
  - split_if; [done|]. bcases. intros [= <-]. split; [done|]. apply item_from_wire_wf; [|done].
    by destruct item.
  - by intros [= <-].
  - by intros [= <-].
  - destruct Hb as [Hs Hc]. destruct (signal_from_wire _) as [sig|] eqn:Es; [|done].
    destruct (Z.ltb_spec kMaxRecommendCount count); [done|]. intros [= <-]. split; [done|]. split; [|split; [apply Hc|done]].
    apply (signal_from_wire_wf _ _ Es). destruct signal; [done|]. apply Forall_nil_2.
Qed.

#[global] Instance ProtobufCodec_laws : CodecLaws ProtobufCodec.
Proof.
  split; cbn [encode_request encode_response decode_request decode_response ProtobufCodec].
  - done.
  - done.
  - intros r. by apply append_nonempty.
  - intros r. by apply append_nonempty.
  - apply pb_request_roundtrip.
  - apply pb_response_roundtrip.
  - apply pb_accepted_wf.
Qed.
End Laws.

(** * The factory *)

Section Factory.
Context {P : ProtobufLib}.

(** [with_protobuf] is the build option; [None] is the null pointer. *)
Definition make_codec (with_protobuf : bool) (name : bstring) : option Codec :=
  if bool_decide (name = str "binary") || bool_decide (name = str "binary/v3") then Some BinaryCodec
  else if with_protobuf && (bool_decide (name = str "protobuf") || bool_decide (name = str "protobuf/v3"))
       then Some ProtobufCodec
       else None.

Definition available_codecs (with_protobuf : bool) : bstring :=
  if with_protobuf then str "binary, protobuf" else str "binary (this build has no protobuf support)".

(** Whatever name is configured, a codec that is made keeps the contract the framing layer,
    the server and the client rely on. *)
Lemma make_codec_laws (L : ProtobufLibLaws P) with_protobuf name C :
  make_codec with_protobuf name = Some C -> CodecLaws C.
Proof. unfold make_codec. repeat split_if; [intros [= <-]; apply _..|done]. Qed.
End Factory.

(** * Main theorem *)

Section Claims.
Context {P : ProtobufLib} {L : ProtobufLibLaws P}.

(** C34: the two codecs are interchangeable. For every well-formed request and response that
    fit a frame, decoding what the protobuf codec encoded gives exactly what decoding what
    the binary codec encoded gives, which is the message; a message of the other
    direction is refused as such; and whatever bytes arrive, a request it accepts respects
    every type range and field limit. All this for any serialisation library that keeps
    its documented contract. *)
Theorem protobuf_matches_binary r p outr outp :
  wf_request r -> wf_response p -> known_status p ->
  zlen (pb_encode_request r []) <= kMaxFrameSize -> zlen (pb_encode_response p []) <= kMaxFrameSize ->
  pb_decode_request (pb_encode_request r []) outr = decode_req (encode_req r []) outr /\
  pb_decode_response (pb_encode_response p []) outp = decode_resp (encode_resp p []) outp /\
  pb_decode_request (pb_encode_request r []) outr = (DE_None, r) /\
  pb_decode_response (pb_encode_response p []) outp = (DE_None, p) /\
  fst (pb_decode_request (pb_encode_response p []) outr) = DE_WrongDirection /\
  fst (pb_decode_response (pb_encode_request r []) outp) = DE_WrongDirection /\
  forall body r', pb_decode_request body outr = (DE_None, r') -> wf_request r'.
Proof.
  intros Hr Hp Hk Sr Sp.
  rewrite pb_request_roundtrip, pb_response_roundtrip, decode_req_roundtrip, decode_resp_roundtrip by done.
  split_and!; [done..| | |intros body r'; apply pb_accepted_wf].
  - unfold pb_decode_request, pb_encode_response in *. rewrite parse_appended by (done || by apply response_typed).
    cbn. by destruct (resp_body p).
  - unfold pb_decode_response, pb_encode_request in *. rewrite parse_appended by (done || by apply request_typed).
    cbn. by destruct (req_body r).
Qed.
End Claims.

(** * A library *)

(** The contract can be kept: a serialisation that writes the bits of a number standing for
    the message. *)
#[global] Instance byte_countable : Countable byte :=
  inj_countable byte_to_Z (fun z => Some (byte_of_Z z)) (fun b => f_equal Some (byte_of_to_Z b)).
#[global] Instance double_eq_dec : EqDecision double.
Proof. solve_decision. Defined.
#[global] Instance double_countable : Countable double :=
  inj_countable d_bits (fun z => Some (MkDouble z)) (fun x => match x with MkDouble _ => eq_refl end).
#[global] Instance PbItem_eq_dec : EqDecision PbItem.
Proof. solve_decision. Defined.
#[global] Instance PbItem_countable : Countable PbItem.
Proof.
  refine (inj_countable (fun i => (pb_id i, pb_category i, pb_advertiser i, pb_base_score i, pb_created_at_ms i, pb_expires_at_ms i))
    (fun '(a, b, c, d, e, f) => Some (MkPbItem a b c d e f)) _).
  by intros [].
Defined.
#[global] Instance PbCategoryAffinity_eq_dec : EqDecision PbCategoryAffinity.
Proof. solve_decision. Defined.
#[global] Instance PbCategoryAffinity_countable : Countable PbCategoryAffinity.
Proof.
  refine (inj_countable (fun a => (pb_affinity_category a, pb_weight a)) (fun '(a, b) => Some (MkPbAffinity a b)) _).
  by intros [].
Defined.
#[global] Instance PbUserSignal_eq_dec : EqDecision PbUserSignal.
Proof. solve_decision. Defined.
#[global] Instance PbUserSignal_countable : Countable PbUserSignal.
Proof.
  refine (inj_countable (fun a => (pb_affinities a, pb_excluded_categories a)) (fun '(a, b) => Some (MkPbSignal a b)) _).
  by intros [].
Defined.
#[global] Instance PbRankedItem_eq_dec : EqDecision PbRankedItem.
Proof. solve_decision. Defined.
#[global] Instance PbRankedItem_countable : Countable PbRankedItem.
Proof.
  refine (inj_countable (fun r => (pb_ranked_id r, pb_score r, pb_ranked_category r, pb_ranked_advertiser r))
    (fun '(a, b, c, d) => Some (MkPbRanked a b c d)) _).
  by intros [].
Defined.
#[global] Instance PbStats_eq_dec : EqDecision PbStats.
Proof. solve_decision. Defined.
#[global] Instance PbStats_countable : Countable PbStats.
Proof.
  refine (inj_countable pb_stats_fields
    (fun l => match l with
              | [a; b; c; d; e; f; g; h; i; j; k; l; m; n; o] => Some (MkPbStats a b c d e f g h i j k l m n o)
              | _ => None
              end) _).
  by intros [].
Defined.
#[global] Instance PbBody_eq_dec : EqDecision PbBody.
Proof. solve_decision. Defined.

(** The fields of every member, with the number of the member. *)
Definition body_code (b : PbBody)
    : Z * Z * Z * bool * option PbItem * option PbUserSignal * option PbStats * list PbRankedItem * bstring :=
  match b with
  | PbGetItemRequest id => (2, id, 0, false, None, None, None, [], [])
  | PbPutItemRequest item => (3, 0, 0, false, item, None, None, [], [])
  | PbDeleteItemRequest id => (4, id, 0, false, None, None, None, [], [])
  | PbStatsRequest => (5, 0, 0, false, None, None, None, [], [])
  | PbRecommendRequest signal count dry => (6, 0, count, dry, None, signal, None, [], [])
  | PbGetItemResponse status item => (7, status, 0, false, item, None, None, [], [])
  | PbPutItemResponse status => (8, status, 0, false, None, None, None, [], [])
  | PbDeleteItemResponse status => (9, status, 0, false, None, None, None, [], [])
  | PbStatsResponse status stats => (10, status, 0, false, None, None, stats, [], [])
  | PbRecommendResponse status items => (11, status, 0, false, None, None, None, items, [])
  | PbErrorResponse status message => (12, status, 0, false, None, None, None, [], message)
  end.
Definition body_of_code
    (c : Z * Z * Z * bool * option PbItem * option PbUserSignal * option PbStats * list PbRankedItem * bstring)
    : option PbBody :=
  let '(tag, n, m, dry, item, signal, stats, items, text) := c in
  if tag =? 2 then Some (PbGetItemRequest n)
  else if tag =? 3 then Some (PbPutItemRequest item)
  else if tag =? 4 then Some (PbDeleteItemRequest n)
  else if tag =? 5 then Some PbStatsRequest
  else if tag =? 6 then Some (PbRecommendRequest signal m dry)
  else if tag =? 7 then Some (PbGetItemResponse n item)
  else if tag =? 8 then Some (PbPutItemResponse n)
  else if tag =? 9 then Some (PbDeleteItemResponse n)
  else if tag =? 10 then Some (PbStatsResponse n stats)
  else if tag =? 11 then Some (PbRecommendResponse n items)
  else Some (PbErrorResponse n text).
#[global] Instance PbBody_countable : Countable PbBody.
Proof. refine (inj_countable body_code body_of_code _). by intros []. Defined.
#[global] Instance Envelope_eq_dec : EqDecision Envelope.
Proof. solve_decision. Defined.
#[global] Instance Envelope_countable : Countable Envelope.
Proof.
  refine (inj_countable (fun e => (pb_request_id e, pb_body e)) (fun '(a, b) => Some (MkEnvelope a b)) _).
  by intros [].
Defined.

#[global] Instance pb_body_typed_dec b : Decision (pb_body_typed b).
Proof.
  unfold pb_body_typed, pb_item_typed, pb_signal_typed, pb_ranked_typed, pb_enum_typed.
  destruct b as [|[]| | |[]|? []| | |? []| |]; cbn; apply _.
Defined.
#[global] Instance envelope_typed_dec e : Decision (envelope_typed e).
Proof. unfold envelope_typed. destruct (pb_body e); cbn; apply _. Defined.

(** The bits of a positive number, one per byte, and back. *)
Fixpoint bits_of (p : positive) : bstring :=
  match p with
  | xH => [Byte.x02]
  | xO p => Byte.x00 :: bits_of p
  | xI p => Byte.x01 :: bits_of p
  end.
Fixpoint of_bits (l : bstring) : option positive :=
  match l with
  | Byte.x00 :: l => xO <$> of_bits l
  | Byte.x01 :: l => xI <$> of_bits l
  | [Byte.x02] => Some xH
  | _ => None
  end.

Lemma of_bits_of p : of_bits (bits_of p) = Some p.
Proof. induction p as [p IH|p IH|]; cbn; [by rewrite IH..|done]. Qed.

Definition bit_library : ProtobufLib := {|
  serialize e := bits_of (encode e);
  parse_from bytes :=
    match of_bits bytes with
    | Some p => match decode p with Some e => if decide (envelope_typed e) then Some e else None | None => None end
    | None => None
    end
|}.

Lemma bit_library_laws : ProtobufLibLaws bit_library.
Proof.
  split; cbn.
  - intros e Ht _. by rewrite of_bits_of, decode_encode, decide_True.
  - intros e _ H. by destruct (encode e).
  - intros bytes e. destruct (of_bits bytes) as [p|]; [|done]. destruct (decode p) as [e'|]; [|done].
    case_decide; [|done]. by intros [= <-].
Qed.

Lemma protobuf_matches_binary_witness :
  pb_decode_request (P := bit_library) (pb_encode_request (P := bit_library) sample_request []) default_request =
    decode_req (encode_req sample_request []) default_request /\
  pb_decode_response (P := bit_library) (pb_encode_response (P := bit_library) sample_response []) default_response =
    decode_resp (encode_resp sample_response []) default_response.
Proof.
  destruct (protobuf_matches_binary (P := bit_library) (L := bit_library_laws) sample_request sample_response
    default_request default_response sample_request_wf sample_response_wf) as (H1 & H2 & _).
  - split; vm_compute; intros H; discriminate H.
  - apply (bool_decide_unpack _). vm_compute. exact I.
  - apply (bool_decide_unpack _). vm_compute. exact I.
  - split; [exact H1|exact H2].
Defined.
