(* ===== verification/Io.v ===== *)
(** Whole-buffer socket transfers (include/lrd/net/io.hpp, src/net/io.cpp).

    The kernel is a script: what the successive [::read] calls and the successive
    [::send] calls on the descriptor return. A read event delivers a chunk (of
    which a call takes at most what it asked for, the rest staying queued), or is
    end of stream, or fails with an errno; after the last event of the read script
    the stream is at end of file, and after the last event of the send script the
    kernel takes everything it is offered. Every call either consumes an event or
    finishes the transfer, so the retry loops recurse on the script. *)
From stdpp Require Import base list option numbers.
From S2P Require Import Prelude Wire.

(** * The kernel's side *)

(** The Linux errno values the code names. *)
Definition EINTR : Z := 4.
Definition EAGAIN : Z := 11.
Definition EWOULDBLOCK : Z := 11.
Definition EPIPE : Z := 32.

Inductive ReadEvent := RData (chunk : ByteBuffer) | REof | RErr (errno : Z).
Inductive SendEvent := SAccept (n : nat) | SErr (errno : Z).

(** A connected [UnixStream]: the two scripts, and the bytes handed to the kernel. *)
Record UnixStream := MkStream {
  rx : list ReadEvent;
  tx : list SendEvent;
  sent : ByteBuffer
}.

(** * Results *)

Inductive IoStatus := Io_Ok | Io_PeerClosed | Io_TimedOut | Io_Error.

Record IoResult := MkIo { io_status : IoStatus; io_errno : Z; transferred : nat }.

Definition io_ok (r : IoResult) : bool :=
  match io_status r with Io_Ok => true | _ => false end.

(** The outcome of a failed [::read] that is not retried. *)
Definition read_failure (errno : Z) (n : nat) : IoResult :=
  if (errno =? EAGAIN) || (errno =? EWOULDBLOCK) then MkIo Io_TimedOut errno n
  else MkIo Io_Error errno n.

(** * read_exact *)

(** [got] is what the loop has stored at the front of the buffer so far. *)
Fixpoint read_exact_loop (script : list ReadEvent) (got : ByteBuffer) (size : nat)
    : IoResult * ByteBuffer * list ReadEvent :=
  if (size <=? length got)%nat then (MkIo Io_Ok 0 (length got), got, script)
  else
    let remaining := (size - length got)%nat in
    match script with
    | [] | REof :: _ | RData [] :: _ => (MkIo Io_PeerClosed 0 (length got), got, script)
    | RData chunk :: rest =>
        if (length chunk <=? remaining)%nat then read_exact_loop rest (got ++ chunk) size
        else (MkIo Io_Ok 0 size, got ++ take remaining chunk, RData (drop remaining chunk) :: rest)
    | RErr errno :: rest =>
        if errno =? EINTR then read_exact_loop rest got size
        else (read_failure errno (length got), got, rest)
    end.

(** [read_exact(fd, buffer, size)] with [size = buffer.size()]: bytes beyond the
    ones received keep their old value. *)
Definition read_exact (s : UnixStream) (buffer : ByteBuffer)
    : IoResult * UnixStream * ByteBuffer :=
  let '(r, got, script) := read_exact_loop (rx s) [] (length buffer) in
  (r, MkStream script (tx s) (sent s), got ++ drop (length got) buffer).

(** * read_some *)

Fixpoint read_some_loop (script : list ReadEvent) (size : nat)
    : IoResult * ByteBuffer * list ReadEvent :=
  match script with
  | [] | REof :: _ | RData [] :: _ => (MkIo Io_PeerClosed 0 0, [], script)
  | RData chunk :: rest =>
      let got := take size chunk in
      if (length got =? 0)%nat then (MkIo Io_PeerClosed 0 0, [], script)
      else (MkIo Io_Ok 0 (length got), got,
            if (length chunk <=? size)%nat then rest else RData (drop size chunk) :: rest)
  | RErr errno :: rest =>
      if errno =? EINTR then read_some_loop rest size
      else (read_failure errno 0, [], rest)
  end.

Definition read_some (s : UnixStream) (buffer : ByteBuffer)
    : IoResult * UnixStream * ByteBuffer :=
  let '(r, got, script) := read_some_loop (rx s) (length buffer) in
  (r, MkStream script (tx s) (sent s), got ++ drop (length got) buffer).

(** * write_all *)

Fixpoint write_all_loop (script : list SendEvent) (done : nat) (size : nat)
    : IoResult * list SendEvent :=
  if (size <=? done)%nat then (MkIo Io_Ok 0 done, script)
  else
    let remaining := (size - done)%nat in
    match script with
    | [] => (MkIo Io_Ok 0 size, [])
    | SAccept n :: rest =>
        if (0 <? n)%nat then write_all_loop rest (done + Nat.min n remaining) size
        else (MkIo Io_Error 0 done, rest)
    | SErr errno :: rest =>
        if errno =? EINTR then write_all_loop rest done size
        else if errno =? EPIPE then (MkIo Io_PeerClosed 0 done, rest)
        else if (errno =? EAGAIN) || (errno =? EWOULDBLOCK) then (MkIo Io_TimedOut errno done, rest)
        else (MkIo Io_Error errno done, rest)
    end.

Definition write_all (s : UnixStream) (buffer : ByteBuffer) : IoResult * UnixStream :=
  let '(r, script) := write_all_loop (tx s) 0 (length buffer) in
  (r, MkStream (rx s) script (sent s ++ take (transferred r) buffer)).

(** * The byte stream a script stands for *)

(** The bytes that arrive before end of stream or an error that is not retried. *)
Fixpoint pending (script : list ReadEvent) : ByteBuffer :=
  match script with
  | [] | REof :: _ | RData [] :: _ => []
  | RData chunk :: rest => chunk ++ pending rest
  | RErr errno :: rest => if errno =? EINTR then pending rest else []
  end.

(** How the stream ends after those bytes. *)
Fixpoint ending (script : list ReadEvent) : IoStatus * Z :=
  match script with
  | [] | REof :: _ | RData [] :: _ => (Io_PeerClosed, 0)
  | RData _ :: rest => ending rest
  | RErr errno :: rest =>
      if errno =? EINTR then ending rest
      else let r := read_failure errno 0 in (io_status r, io_errno r)
  end.

(** A stream that delivers [bytes] and may then end or go on. *)
Definition delivers (s : UnixStream) (bytes : ByteBuffer) : Prop := pending (rx s) = bytes.

(** * Reading *)

Lemma read_exact_loop_ok script got size :
  (length got <= size)%nat -> (size <= length (got ++ pending script))%nat ->
  exists script', read_exact_loop script got size =
    (MkIo Io_Ok 0 size, take size (got ++ pending script), script') /\
    pending script' = drop size (got ++ pending script) /\ ending script' = ending script.
Proof.
  revert got. induction script as [|ev script IH]; intros got Hle Hlen; cbn [read_exact_loop].
  { simpl pending in *. rewrite app_nil_r in *. assert (size = length got) as -> by lia.
    rewrite Nat.leb_refl, take_ge, drop_ge by lia. by eexists. }
  destruct (Nat.leb_spec size (length got)).
  { assert (size = length got) as -> by lia. rewrite take_app_length, drop_app_length. by eexists. }
  destruct ev as [[|b c]| |e]; cbn [pending ending] in *.
  - rewrite app_nil_r in Hlen. lia.
  - set (chunk := b :: c) in *.
    destruct (Nat.leb_spec (length chunk) (size - length got)).
    + rewrite app_assoc in *. apply IH; rewrite ?length_app in *; lia.
    + eexists. split; [f_equal; f_equal|].
      * rewrite take_app_ge, take_app_le by lia. done.
      * cbn [pending ending]. rewrite drop_app_ge, drop_app_le by lia.
        destruct (drop _ chunk) eqn:E; [|done].
        apply (f_equal length) in E. rewrite length_drop in E. cbn [length] in E. lia.
  - rewrite app_nil_r in Hlen. lia.
  - destruct (e =? EINTR) eqn:E; [by apply IH|]. rewrite app_nil_r in Hlen. lia.
Qed.

Lemma read_exact_loop_short script got size :
  (length (got ++ pending script) < size)%nat ->
  exists script', read_exact_loop script got size =
    (MkIo (fst (ending script)) (snd (ending script)) (length (got ++ pending script)),
     got ++ pending script, script').
Proof.
  revert got. induction script as [|ev script IH]; intros got Hlen; cbn [read_exact_loop].
  { simpl pending in *. rewrite app_nil_r in *. rewrite (proj2 (Nat.leb_gt _ _)) by lia. by eexists. }
  rewrite length_app in Hlen. rewrite (proj2 (Nat.leb_gt _ _)) by lia.
  destruct ev as [[|b c]| |e]; cbn [pending ending] in *.
  - rewrite app_nil_r. by eexists.
  - set (chunk := b :: c) in *. rewrite length_app in Hlen.
    rewrite (proj2 (Nat.leb_le _ _)) by lia. rewrite app_assoc. apply IH.
    rewrite !length_app. lia.
  - rewrite app_nil_r. by eexists.
  - destruct (e =? EINTR) eqn:E.
    + apply IH. by rewrite length_app.
    + rewrite app_nil_r. unfold read_failure. destruct (_ || _); by eexists.
Qed.

Lemma ending_not_ok script : fst (ending script) <> Io_Ok.
Proof.
  induction script as [|[[|b c]| |e] script IH]; try done; cbn [ending].
  destruct (e =? EINTR); [done|]. unfold read_failure. by destruct (_ || _).
Qed.

(** [read_exact] as a function of the byte stream alone: how it is cut into chunks
    and where EINTR strikes make no difference. *)
Lemma read_exact_ok s buffer :
  (length buffer <= length (pending (rx s)))%nat ->
  exists s', read_exact s buffer =
    (MkIo Io_Ok 0 (length buffer), s', take (length buffer) (pending (rx s))) /\
    pending (rx s') = drop (length buffer) (pending (rx s)) /\
    ending (rx s') = ending (rx s) /\ tx s' = tx s /\ sent s' = sent s.
Proof.
  intros Hlen. unfold read_exact.
  destruct (read_exact_loop_ok (rx s) [] (length buffer)) as (sc & -> & Hp & He); [simpl; lia|done|].
  rewrite app_nil_l in *. exists (MkStream sc (tx s) (sent s)).
  rewrite length_take_le, drop_ge, app_nil_r by lia. done.
Qed.

Lemma read_exact_short s buffer :
  (length (pending (rx s)) < length buffer)%nat ->
  exists s', read_exact s buffer =
    (MkIo (fst (ending (rx s))) (snd (ending (rx s))) (length (pending (rx s))), s',
     pending (rx s) ++ drop (length (pending (rx s))) buffer) /\
    tx s' = tx s /\ sent s' = sent s.
Proof.
  intros Hlen. unfold read_exact.
  destruct (read_exact_loop_short (rx s) [] (length buffer)) as (sc & ->); [done|].
  rewrite app_nil_l. by eexists.
Qed.

(** * Writing *)

Lemma write_all_loop_spec script done size :
  (done <= size)%nat ->
  let r := fst (write_all_loop script done size) in
  (done <= transferred r <= size)%nat /\
  (io_ok r = true <-> transferred r = size) /\ (io_ok r = true -> io_errno r = 0).
Proof.
  revert done. induction script as [|ev script IH]; intros k Hk; cbn [write_all_loop].
  { destruct (Nat.leb_spec size k); cbn; split_and!; (lia || done || split; auto; lia). }
  destruct (Nat.leb_spec size k).
  { cbn. split_and!; (lia || done || split; auto; lia). }
  assert (Hstop : forall st e, io_ok (MkIo st e k) = false ->
    (k <= k <= size)%nat /\ (io_ok (MkIo st e k) = true <-> k = size) /\
    (io_ok (MkIo st e k) = true -> e = 0)).
  { intros st e ->. split_and!; (lia || (split; (done || lia)) || done). }
  destruct ev as [n|e].
  - destruct (0 <? n)%nat eqn:Hn; [|by apply Hstop]. apply Nat.ltb_lt in Hn.
    destruct (IH (k + Nat.min n (size - k))%nat) as (H1 & H2 & H3); [lia|].
    split_and!; (lia || done).
  - destruct (e =? EINTR); [by apply IH|]. destruct (e =? EPIPE); [by apply Hstop|].
    destruct (_ || _); by apply Hstop.
Qed.

(** [write_all] hands the kernel a prefix of the buffer, and reports success
    exactly when that prefix is the whole buffer. *)
Lemma write_all_spec s buffer :
  let '(r, s') := write_all s buffer in
  sent s' = sent s ++ take (transferred r) buffer /\ rx s' = rx s /\
  (transferred r <= length buffer)%nat /\
  (io_ok r = true <-> transferred r = length buffer) /\ (io_ok r = true -> io_errno r = 0).
Proof.
  unfold write_all. pose proof (write_all_loop_spec (tx s) 0 (length buffer)) as H.
  destruct (write_all_loop _ _ _) as [r sc]. cbn in *. destruct H as (H1 & H2 & H3); [lia|].
  split_and!; done || lia.
Qed.
