(* ===== verification/Framing.v ===== *)
(** Length-prefixed frames (include/lrd/proto/framing.hpp, src/proto/framing.cpp):
    [read_frame], [write_frame] and the copy-free [write_message], over the streams
    of Io.v and any [Codec]. *)
From stdpp Require Import base list option numbers.
From S2P Require Import Prelude Binary64 Item Message Wire Codec BinaryCodec Io.

(** * Definitions *)

Inductive FrameStatus :=
  | Fs_Ok | Fs_PeerClosed | Fs_Truncated | Fs_Oversized | Fs_TimedOut | Fs_IoError.

#[global] Instance FrameStatus_eq_dec : EqDecision FrameStatus.
Proof. solve_decision. Defined.

Record FrameResult := MkFrame { f_status : FrameStatus; f_io_error : Z; f_length : Z }.

Definition frame_ok (r : FrameResult) : bool := bool_decide (f_status r = Fs_Ok).

Definition frame_status_to_string (status : FrameStatus) : bstring :=
  str (match status with
  | Fs_Ok => "Ok"
  | Fs_PeerClosed => "PeerClosed"
  | Fs_Truncated => "Truncated"
  | Fs_Oversized => "Oversized"
  | Fs_TimedOut => "TimedOut"
  | Fs_IoError => "IoError"
  end)%string.

Definition load_be_u32 (bytes : ByteBuffer) : Z := load_be 4 bytes.

Definition from_io (io : IoResult) : FrameResult :=
  match io_status io with
  | Io_Ok => MkFrame Fs_Ok 0 0
  | Io_PeerClosed =>
      MkFrame (if (transferred io =? 0)%nat then Fs_PeerClosed else Fs_Truncated) 0 0
  | Io_TimedOut => MkFrame Fs_TimedOut (io_errno io) 0
  | Io_Error => MkFrame Fs_IoError (io_errno io) 0
  end.

(** [std::vector::resize]: truncate, or pad with zero bytes. *)
Definition resize (n : nat) (v : ByteBuffer) : ByteBuffer :=
  take n v ++ replicate (n - length v) Byte.x00.

Definition size_in_range (n : Z) : bool :=
  negb ((n <? kMinFrameSize) || (kMaxFrameSize <? n)).

Definition read_frame (stream : UnixStream) (body : ByteBuffer)
    : FrameResult * UnixStream * ByteBuffer :=
  let '(header_io, stream, prefix) :=
    read_exact stream (replicate kLengthPrefixSize Byte.x00) in
  if negb (io_ok header_io) then (from_io header_io, stream, body)
  else
    let length := load_be_u32 prefix in
    if negb (size_in_range length) then (MkFrame Fs_Oversized 0 length, stream, body)
    else
      let '(body_io, stream, body) := read_exact stream (resize (Z.to_nat length) body) in
      if negb (io_ok body_io) then
        let result := from_io body_io in
        (match f_status result with
         | Fs_PeerClosed => MkFrame Fs_Truncated (f_io_error result) (f_length result)
         | _ => result
         end, stream, body)
      else (MkFrame Fs_Ok 0 length, stream, body).

Definition with_length (r : FrameResult) (length : Z) : FrameResult :=
  MkFrame (f_status r) (f_io_error r) length.

(** The patching loop of [write_prefixed]. *)
Definition patch_prefix (framed : ByteBuffer) (length : Z) : ByteBuffer :=
  fold_left (fun f i => <[i := be_byte kLengthPrefixSize length i]> f)
    (seq 0 kLengthPrefixSize) framed.

Definition write_prefixed (stream : UnixStream) (framed : ByteBuffer)
    : FrameResult * UnixStream * ByteBuffer :=
  let body_size := zlen framed - Z.of_nat kLengthPrefixSize in
  if negb (size_in_range body_size) then
    (MkFrame Fs_Oversized 0 (wrap 32 body_size), stream, framed)
  else
    let length := wrap 32 body_size in
    let framed := patch_prefix framed length in
    let '(io, stream) := write_all stream framed in
    (with_length (from_io io) length, stream, framed).

Definition write_frame (stream : UnixStream) (body : ByteBuffer) : FrameResult * UnixStream :=
  if negb (size_in_range (zlen body)) then
    (MkFrame Fs_Oversized 0 (wrap 32 (zlen body)), stream)
  else
    let length := wrap 32 (zlen body) in
    let framed := append_be kLengthPrefixSize length [] ++ body in
    let '(io, stream) := write_all stream framed in
    (with_length (from_io io) length, stream).

(** [scratch.clear(); scratch.resize(kLengthPrefixSize); codec.encode(message, scratch)]. *)
Definition write_message (stream : UnixStream) (encode : ByteBuffer -> ByteBuffer)
    (scratch : ByteBuffer) : FrameResult * UnixStream * ByteBuffer :=
  write_prefixed stream (encode (resize kLengthPrefixSize [])).

(** The bytes of one frame. *)
Definition frame_bytes (body : ByteBuffer) : ByteBuffer :=
  be_bytes kLengthPrefixSize (zlen body) ++ body.

(** * Lemmas *)

Lemma size_in_range_spec n :
  size_in_range n = true <-> kMinFrameSize <= n <= kMaxFrameSize.
Proof.
  unfold size_in_range. rewrite negb_true_iff, orb_false_iff, !Z.ltb_ge. lia.
Qed.

Lemma in_range_fits n : size_in_range n = true -> fits 32 n.
Proof.
  rewrite size_in_range_spec. unfold kMinFrameSize, kMaxFrameSize. widths.
Qed.

Lemma length_resize n v : length (resize n v) = n.
Proof. unfold resize. rewrite length_app, length_take, length_replicate. lia. Qed.

Lemma load_be_u32_be v : fits 32 v -> load_be_u32 (be_bytes 4 v) = v.
Proof.
  intros Hv. unfold load_be_u32. rewrite load_be_val by (by rewrite length_be_bytes).
  rewrite be_val_be_bytes. by apply Z.mod_small.
Qed.

Lemma load_be_u32_fits l : length l = 4%nat -> fits 32 (load_be_u32 l).
Proof.
  intros Hl. unfold load_be_u32. rewrite load_be_val by lia.
  pose proof (be_val_bound l) as H. unfold zlen in H. by rewrite Hl in H.
Qed.

Lemma patch_prefix_spec a b c d body v :
  patch_prefix (a :: b :: c :: d :: body) v = be_bytes kLengthPrefixSize v ++ body.
Proof. reflexivity. Qed.

Lemma read_frame_spec s body payload rest :
  size_in_range (zlen payload) = true ->
  pending (rx s) = frame_bytes payload ++ rest ->
  exists s', read_frame s body = (MkFrame Fs_Ok 0 (zlen payload), s', payload) /\
    pending (rx s') = rest /\ ending (rx s') = ending (rx s) /\ tx s' = tx s /\ sent s' = sent s.
Proof.
  intros Hr Hp. unfold frame_bytes in Hp. rewrite <- app_assoc in Hp. unfold read_frame.
  destruct (read_exact_ok s (replicate kLengthPrefixSize Byte.x00)) as (s1 & -> & Hp1 & He1 & Ht1 & Hs1).
  { rewrite Hp, !length_app, length_be_bytes. simpl. lia. }
  rewrite length_replicate, Hp in *. cbn [io_ok io_status negb].
  rewrite take_app_le, take_ge by (by rewrite length_be_bytes).
  rewrite drop_app_ge, length_be_bytes, Nat.sub_diag, drop_0 in Hp1 by (by rewrite length_be_bytes).
  rewrite load_be_u32_be, Hr by (by apply in_range_fits). cbn [negb].
  assert (HN : Z.to_nat (zlen payload) = length payload) by (unfold zlen; lia).
  destruct (read_exact_ok s1 (resize (Z.to_nat (zlen payload)) body)) as (s2 & -> & Hp2 & He2 & Ht2 & Hs2).
  { rewrite length_resize, Hp1, length_app. lia. }
  rewrite length_resize, Hp1, HN in *. cbn [io_ok io_status negb].
  rewrite take_app_length. rewrite drop_app_length in Hp2.
  exists s2. split; [done|]. split_and!; congruence.
Qed.

(** The three ways [write_message] can be seen: what it hands to the stream is the
    frame of the encoded body. *)
Lemma write_message_frame s (encode : ByteBuffer -> ByteBuffer) scratch :
  (forall out, encode out = out ++ encode []) ->
  write_message s encode scratch =
  (let '(r, s') := write_frame s (encode []) in
   (r, s', if size_in_range (zlen (encode [])) then frame_bytes (encode [])
           else replicate 4 Byte.x00 ++ encode [])).
Proof.
  intros Happ. unfold write_message, write_prefixed, write_frame.
  rewrite Happ. change (resize kLengthPrefixSize []) with (replicate 4 Byte.x00).
  assert (zlen (replicate 4 Byte.x00 ++ encode []) - Z.of_nat kLengthPrefixSize = zlen (encode []))
    as -> by (rewrite zlen_app; unfold kLengthPrefixSize, zlen; simpl; lia).
  destruct (size_in_range (zlen (encode []))) eqn:E; cbn [negb]; [|done].
  rewrite (wrap_small 32) by (by apply in_range_fits).
  rewrite append_be_app, app_nil_l.
  change (replicate 4 Byte.x00 ++ encode [])
    with (Byte.x00 :: Byte.x00 :: Byte.x00 :: Byte.x00 :: encode []).
  rewrite patch_prefix_spec. fold (frame_bytes (encode [])). by destruct (write_all s (frame_bytes (encode []))).
Qed.

Lemma write_frame_sent s body r s' :
  write_frame s body = (r, s') -> frame_ok r = true ->
  size_in_range (zlen body) = true /\ sent s' = sent s ++ frame_bytes body /\ rx s' = rx s.
Proof.
  unfold write_frame. destruct (size_in_range (zlen body)) eqn:E; cbn [negb].
  2:{ by intros [= <- <-]. }
  rewrite (wrap_small 32) by (by apply in_range_fits). rewrite append_be_app, app_nil_l.
  fold (frame_bytes body). pose proof (write_all_spec s (frame_bytes body)) as H.
  destruct (write_all _ _) as [io s1]. destruct H as (Hs & Hx & _ & Hok & _).
  intros [= <- <-] Hf. split; [done|]. split; [|done]. rewrite Hs, (proj1 Hok), take_ge; try done.
  unfold frame_ok, from_io, with_length, io_ok in *. destruct (io_status io); try done.
  cbn in Hf. by destruct (_ =? _)%nat.
Qed.

(** The four-byte prefix cut short. *)
Lemma read_frame_no_prefix s body :
  (length (pending (rx s)) < 4)%nat ->
  exists s', read_frame s body =
    (from_io (MkIo (fst (ending (rx s))) (snd (ending (rx s))) (length (pending (rx s)))), s', body).
Proof.
  intros Hl. unfold read_frame.
  destruct (read_exact_short s (replicate kLengthPrefixSize Byte.x00)) as (s1 & -> & _ & _);
    [by rewrite length_replicate|].
  unfold io_ok. cbn [io_status]. pose proof (ending_not_ok (rx s)).
  destruct (fst (ending (rx s))) eqn:E; [done|by eexists..].
Qed.

(** The prefix arrived: what follows depends on the length it announces. *)
Lemma read_frame_prefix s body prefix rest :
  length prefix = 4%nat -> pending (rx s) = prefix ++ rest ->
  exists s1, pending (rx s1) = rest /\ ending (rx s1) = ending (rx s) /\
  read_frame s body =
    (if negb (size_in_range (load_be_u32 prefix))
     then (MkFrame Fs_Oversized 0 (load_be_u32 prefix), s1, body)
     else
      let '(body_io, s2, body2) :=
        read_exact s1 (resize (Z.to_nat (load_be_u32 prefix)) body) in
      if negb (io_ok body_io) then
        (match f_status (from_io body_io) with
         | Fs_PeerClosed =>
             MkFrame Fs_Truncated (f_io_error (from_io body_io)) (f_length (from_io body_io))
         | _ => from_io body_io
         end, s2, body2)
      else (MkFrame Fs_Ok 0 (load_be_u32 prefix), s2, body2)).
Proof.
  intros Hl Hp. unfold read_frame.
  destruct (read_exact_ok s (replicate kLengthPrefixSize Byte.x00)) as (s1 & -> & Hp1 & He1 & _ & _).
  { rewrite Hp, length_app, length_replicate, Hl. unfold kLengthPrefixSize. lia. }
  rewrite length_replicate, Hp in *. change kLengthPrefixSize with 4%nat in *.
  rewrite drop_app_ge, Hl, drop_0 in Hp1 by lia. rewrite take_app_le, take_ge by lia.
  exists s1. done.
Qed.

Lemma length_got_read_exact s buffer r s' b :
  read_exact s buffer = (r, s', b) -> length b = length buffer.
Proof.
  intros E. destruct (decide (length buffer <= length (pending (rx s)))%nat).
  - destruct (read_exact_ok s buffer) as (s1 & E' & _); [done|].
    rewrite E' in E. injection E as <- <- <-. rewrite length_take. lia.
  - destruct (read_exact_short s buffer) as (s1 & E' & _); [lia|].
    rewrite E' in E. injection E as <- <- <-. rewrite length_app, length_drop. lia.
Qed.

(** * Properties *)

Section Transport.
Context {C : Codec} {L : CodecLaws C}.

(** C15: End to end over a socket, for any codec that keeps the codec contract: when
    [write_message] reports success, the bytes handed to the kernel are one frame
    that any receiver turns back into the same request, however the stream cuts it
    into chunks and wherever EINTR strikes, leaving exactly what followed it. *)
Theorem request_transport r scratch w res w' buf :
  wf_request r ->
  write_message w (encode_request r) scratch = (res, w', buf) -> frame_ok res = true ->
  exists frame, sent w' = sent w ++ frame /\
    forall d body rest out, pending (rx d) = frame ++ rest ->
      exists d' got, read_frame d body = (MkFrame Fs_Ok 0 (zlen got), d', got) /\
        decode_request got out = (DE_None, r) /\ pending (rx d') = rest.
Proof.
  intros Hw E Hok. rewrite write_message_frame in E by (intros; apply encode_request_app).
  destruct (write_frame _ _) as [r1 s1] eqn:E1. injection E as <- <- _.
  destruct (write_frame_sent _ _ _ _ E1 Hok) as (Hr & Hs & _).
  eexists. split; [exact Hs|]. intros d body rest out Hp.
  destruct (read_frame_spec d body _ rest Hr Hp) as (d' & Hd & Hrest & _).
  exists d', (encode_request r []). split_and!; [done| |done].
  apply decode_encode_request; [done|]. by apply size_in_range_spec.
Qed.

End Transport.

(** A sender whose kernel takes three bytes, is interrupted, then takes the rest. *)
Definition sample_sender : UnixStream := MkStream [] [SAccept 3; SErr EINTR] [].
Definition sample_write : FrameResult * UnixStream * ByteBuffer :=
  write_message sample_sender (encode_request sample_request) [].

Lemma request_transport_witness :
  exists frame, sent (snd (fst sample_write)) = [] ++ frame /\
    forall d body rest out, pending (rx d) = frame ++ rest ->
      exists d' got, read_frame d body = (MkFrame Fs_Ok 0 (zlen got), d', got) /\
        decode_request got out = (DE_None, sample_request) /\ pending (rx d') = rest.
Proof.
  apply (request_transport sample_request [] sample_sender (fst (fst sample_write)) _ (snd sample_write)).
  - apply sample_request_wf.
  - by destruct sample_write as [[? ?] ?] eqn:E; unfold sample_write in E.
  - by vm_compute.
Defined.

Section Equivalence.
Context {C : Codec} {L : CodecLaws C}.

(** The copy-free [write_message] does to the stream what encoding into a
    fresh buffer and calling [write_frame] does, with the same result. *)
Theorem write_message_is_write_frame (p : Response) s scratch :
  fst (write_message s (encode_response p) scratch) = write_frame s (encode_response p []).
Proof.
  rewrite write_message_frame by (intros; apply encode_response_app).
  by destruct (write_frame _ _).
Qed.
End Equivalence.

Lemma write_message_is_write_frame_witness :
  fst (write_message sample_sender (encode_response sample_response) []) =
  write_frame sample_sender (encode_response sample_response []).
Proof. apply (write_message_is_write_frame sample_response sample_sender []). Defined.

(** A frame cut anywhere by the peer's end of stream: a cut before its first
    byte is a clean PeerClosed, every other cut is Truncated. *)
Theorem cut_frame_status payload n s body :
  size_in_range (zlen payload) = true -> (n < length (frame_bytes payload))%nat ->
  pending (rx s) = take n (frame_bytes payload) -> fst (ending (rx s)) = Io_PeerClosed ->
  f_status (fst (fst (read_frame s body))) =
  if (n =? 0)%nat then Fs_PeerClosed else Fs_Truncated.
Proof.
  intros Hr Hn Hp He. unfold frame_bytes in *. rewrite length_app, length_be_bytes in Hn.
  destruct (decide (n < 4)%nat) as [Hlt|Hge].
  - assert (Hl : length (pending (rx s)) = n)
      by (rewrite Hp, length_take, length_app, length_be_bytes; unfold kLengthPrefixSize; lia).
    destruct (read_frame_no_prefix s body) as (s' & ->); [lia|].
    unfold from_io. cbn [fst io_status transferred]. rewrite He, Hl. by destruct (n =? 0)%nat.
  - rewrite take_app_ge, length_be_bytes in Hp
      by (rewrite length_be_bytes; unfold kLengthPrefixSize; lia).
    destruct (read_frame_prefix s body _ _ (length_be_bytes _ _) Hp) as (s1 & Hp1 & He1 & ->).
    rewrite load_be_u32_be, Hr by (by apply in_range_fits). cbn [negb].
    destruct (read_exact_short s1 (resize (Z.to_nat (zlen payload)) body)) as (s2 & -> & _).
    { rewrite Hp1, length_take, length_resize. unfold zlen, kLengthPrefixSize in *. lia. }
    unfold io_ok, from_io. cbn [io_status transferred]. rewrite He1, He.
    rewrite (proj2 (Nat.eqb_neq n 0)) by lia. cbn. by destruct (_ =? _)%nat.
Qed.

Lemma cut_frame_status_witness :
  f_status (fst (fst (read_frame
    (MkStream [RData (map byte_of_Z [0; 0]); RErr EINTR; RData (map byte_of_Z [0; 2; 7]); REof] [] [])
    []))) = Fs_Truncated.
Proof.
  apply (cut_frame_status (map byte_of_Z [7; 8]) 5); try reflexivity. apply Nat.ltb_lt. by vm_compute.
Defined.

(** The announced length is checked before the buffer grows: whatever arrives,
    the body buffer ends no longer than the frame limit or what it already was, and
    an out-of-range announcement leaves it untouched and reports the length. *)
Theorem read_frame_allocation_bound s body :
  let '(r, _, body') := read_frame s body in
  zlen body' <= Z.max (zlen body) kMaxFrameSize /\
  (f_status r = Fs_Oversized ->
   body' = body /\ (f_length r < kMinFrameSize \/ kMaxFrameSize < f_length r)).
Proof.
  destruct (decide (length (pending (rx s)) < 4)%nat) as [Hlt|Hge].
  { destruct (read_frame_no_prefix s body Hlt) as (s' & ->). split; [lia|].
    unfold from_io. cbn [io_status transferred]. by destruct (fst _); [..|destruct (_ =? _)%nat| |]. }
  destruct (read_frame_prefix s body (take 4 (pending (rx s))) (drop 4 (pending (rx s))))
    as (s1 & _ & _ & ->); [rewrite length_take; lia|by rewrite take_drop|].
  set (len := load_be_u32 _). destruct (size_in_range len) eqn:E; cbn [negb].
  2:{ split; [lia|]. intros _. split; [done|]. cbn [f_length].
      apply not_true_iff_false in E. rewrite size_in_range_spec in E. lia. }
  rewrite size_in_range_spec in E. unfold kMinFrameSize in E.
  destruct (read_exact s1 _) as [[io s2] b2] eqn:E2. apply length_got_read_exact in E2.
  rewrite length_resize in E2.
  assert (Hb : zlen b2 <= Z.max (zlen body) kMaxFrameSize) by (unfold zlen; lia).
  destruct (io_ok io); cbn [negb]; [by split|]. split; [done|].
  unfold from_io. destruct (io_status io); cbn; try done. by destruct (_ =? _)%nat.
Qed.
