(* ===== verification/LruCache.v ===== *)
(** The LRU cache (include/lrd/cache/lru_cache.hpp).

    [entries_] is a [std::list] whose nodes have identities, so that an iterator is
    a node identity and [splice] moves a node without invalidating it; [index_] maps
    a key to an iterator. [lru_inv] is the agreement of the two containers. The
    abstract specification is an association list in recency order, and [lru_step]
    refines it operation by operation. *)
From stdpp Require Import base list option gmap.
From S2P Require Import Prelude StdList.

Record CacheMetrics := MkMetrics {
  m_hits : Z; m_misses : Z; m_insertions : Z; m_updates : Z; m_evictions : Z
}.

Definition zero_metrics : CacheMetrics := MkMetrics 0 0 0 0 0.

(** [++counter] on a [std::uint64_t]. *)
Definition incr64 (z : Z) : Z := wrap 64 (z + 1).

Definition count_hit (m : CacheMetrics) : CacheMetrics :=
  MkMetrics (incr64 (m_hits m)) (m_misses m) (m_insertions m) (m_updates m) (m_evictions m).
Definition count_miss (m : CacheMetrics) : CacheMetrics :=
  MkMetrics (m_hits m) (incr64 (m_misses m)) (m_insertions m) (m_updates m) (m_evictions m).
Definition count_insertion (m : CacheMetrics) : CacheMetrics :=
  MkMetrics (m_hits m) (m_misses m) (incr64 (m_insertions m)) (m_updates m) (m_evictions m).
Definition count_update (m : CacheMetrics) : CacheMetrics :=
  MkMetrics (m_hits m) (m_misses m) (m_insertions m) (incr64 (m_updates m)) (m_evictions m).
Definition count_eviction (m : CacheMetrics) : CacheMetrics :=
  MkMetrics (m_hits m) (m_misses m) (m_insertions m) (m_updates m) (incr64 (m_evictions m)).

Section LruCache.
Context {K V : Type} `{Countable K}.

(** [std::shared_ptr<const Value>]: null, or an immutable value. *)
Abbreviation ValuePtr := (option V) (only parsing).

Record Entry := MkEntry { e_node : nat; e_key : K; e_value : ValuePtr }.

Record LruCache := MkLru {
  capacity_ : nat;
  entries_ : list Entry;        (** front = most recently used *)
  index_ : gmap K nat;
  metrics_ : CacheMetrics;
  next_node : nat               (** the allocator: identities not yet used *)
}.

(** * Operations *)

(** [it->value = value]. *)
Definition assign_value (it : nat) (value : ValuePtr) (l : list Entry) : list Entry :=
  map (fun e => if (e_node e =? it)%nat then MkEntry (e_node e) (e_key e) value else e) l.

(** The constructor; [None] is [std::invalid_argument]. *)
Definition lru_new (capacity : nat) : option LruCache :=
  if (capacity =? 0)%nat then None else Some (MkLru capacity [] ∅ zero_metrics 0).

Definition lru_get (key : K) (c : LruCache) : ValuePtr * LruCache :=
  match index_ c !! key with
  | None =>
      (None, MkLru (capacity_ c) (entries_ c) (index_ c) (count_miss (metrics_ c)) (next_node c))
  | Some it =>
      let entries := splice_front e_node it (entries_ c) in
      (match entries with e :: _ => e_value e | [] => None end,
       MkLru (capacity_ c) entries (index_ c) (count_hit (metrics_ c)) (next_node c))
  end.

Definition lru_peek (key : K) (c : LruCache) : ValuePtr :=
  match index_ c !! key with
  | None => None
  | Some it => match extract e_node it (entries_ c) with Some (e, _) => e_value e | None => None end
  end.

Definition evict_lru (c : LruCache) : LruCache :=
  match last (entries_ c) with
  | None => c
  | Some back =>
      MkLru (capacity_ c) (removelast (entries_ c)) (delete (e_key back) (index_ c))
        (count_eviction (metrics_ c)) (next_node c)
  end.

Definition put_ptr (key : K) (value : ValuePtr) (c : LruCache) : LruCache :=
  match index_ c !! key with
  | Some it =>
      MkLru (capacity_ c) (splice_front e_node it (assign_value it value (entries_ c))) (index_ c)
        (count_update (metrics_ c)) (next_node c)
  | None =>
      let c := if (capacity_ c <=? size (index_ c))%nat then evict_lru c else c in
      MkLru (capacity_ c) (MkEntry (next_node c) key value :: entries_ c)
        (<[key := next_node c]> (index_ c)) (count_insertion (metrics_ c)) (S (next_node c))
  end.

(** [make_shared], then [put_ptr]. *)
Definition lru_put (key : K) (value : V) (c : LruCache) : LruCache := put_ptr key (Some value) c.
Definition put_shared (key : K) (value : ValuePtr) (c : LruCache) : LruCache := put_ptr key value c.

Definition lru_erase (key : K) (c : LruCache) : bool * LruCache :=
  match index_ c !! key with
  | None => (false, c)
  | Some it =>
      (true, MkLru (capacity_ c) (list_erase e_node it (entries_ c)) (delete key (index_ c))
               (metrics_ c) (next_node c))
  end.

Definition lru_clear (c : LruCache) : LruCache :=
  MkLru (capacity_ c) [] ∅ (metrics_ c) (next_node c).

Definition lru_contains (key : K) (c : LruCache) : bool :=
  match index_ c !! key with Some _ => true | None => false end.
Definition lru_size (c : LruCache) : nat := size (index_ c).

(** [for_each(visit)]: the visits, in order. *)
Definition lru_for_each (c : LruCache) : list (K * ValuePtr) :=
  map (fun e => (e_key e, e_value e)) (entries_ c).
Definition keys_mru_to_lru (c : LruCache) : list K := map e_key (entries_ c).

(** The operations as a datatype, so that histories can be quantified over. *)
Inductive LruOp :=
  | OpGet (key : K) | OpPeek (key : K) | OpPut (key : K) (value : V) | OpErase (key : K) | OpClear.
Inductive LruRet := RetPtr (p : ValuePtr) | RetBool (b : bool) | RetUnit.

Definition lru_step (op : LruOp) (c : LruCache) : LruRet * LruCache :=
  match op with
  | OpGet k => let '(p, c) := lru_get k c in (RetPtr p, c)
  | OpPeek k => (RetPtr (lru_peek k c), c)
  | OpPut k v => (RetUnit, lru_put k v c)
  | OpErase k => let '(b, c) := lru_erase k c in (RetBool b, c)
  | OpClear => (RetUnit, lru_clear c)
  end.

Fixpoint lru_run (ops : list LruOp) (c : LruCache) : list LruRet * LruCache :=
  match ops with
  | [] => ([], c)
  | op :: ops =>
      let '(r, c) := lru_step op c in
      let '(rs, c) := lru_run ops c in (r :: rs, c)
  end.

(** * Abstract specification: an association list, most recently used first *)

Fixpoint alookup (key : K) (l : list (K * ValuePtr)) : option ValuePtr :=
  match l with
  | [] => None
  | (k, v) :: l => if decide (k = key) then Some v else alookup key l
  end.
Definition adelete (key : K) (l : list (K * ValuePtr)) : list (K * ValuePtr) :=
  filter (fun p => p.1 <> key) l.

Definition spec_put (cap : nat) (k : K) (v : ValuePtr) (l : list (K * ValuePtr)) :=
  match alookup k l with
  | Some _ => (k, v) :: adelete k l
  | None => (k, v) :: (if (cap <=? length l)%nat then removelast l else l)
  end.

Definition spec_step (cap : nat) (op : LruOp) (l : list (K * ValuePtr))
    : LruRet * list (K * ValuePtr) :=
  match op with
  | OpGet k =>
      match alookup k l with
      | Some v => (RetPtr v, (k, v) :: adelete k l)
      | None => (RetPtr None, l)
      end
  | OpPeek k => (RetPtr (match alookup k l with Some v => v | None => None end), l)
  | OpPut k v => (RetUnit, spec_put cap k (Some v) l)
  | OpErase k => (RetBool (match alookup k l with Some _ => true | None => false end), adelete k l)
  | OpClear => (RetUnit, [])
  end.

Fixpoint spec_run (cap : nat) (ops : list LruOp) (l : list (K * ValuePtr))
    : list LruRet * list (K * ValuePtr) :=
  match ops with
  | [] => ([], l)
  | op :: ops =>
      let '(r, l) := spec_step cap op l in
      let '(rs, l) := spec_run cap ops l in (r :: rs, l)
  end.

(** * The representation invariant *)

Record lru_inv (c : LruCache) : Prop := {
  inv_indexed : indexed e_key e_node (entries_ c) (index_ c) (next_node c);
  inv_size : (length (entries_ c) <= capacity_ c)%nat;
  inv_capacity : (1 <= capacity_ c)%nat
}.

(** A key's own operations, and the keys a history brings to the front. *)
Definition touched (op : LruOp) : list K :=
  match op with OpGet k | OpPut k _ => [k] | _ => [] end.
Definition touches (ops : list LruOp) : list K := concat (map touched ops).

(** The value a history leaves under [k], if it wrote or removed it at all. *)
Definition op_writes (k : K) (op : LruOp) (v : option V) : option V :=
  match op with
  | OpPut k' v' => if decide (k' = k) then Some v' else v
  | OpErase k' => if decide (k' = k) then None else v
  | OpClear => None
  | _ => v
  end.
Definition last_write (k : K) (ops : list LruOp) (v : option V) : option V :=
  fold_left (fun v op => op_writes k op v) ops v.
End LruCache.

#[global] Arguments Entry : clear implicits.
#[global] Arguments LruCache K V {_ _}.
#[global] Arguments LruOp : clear implicits.
#[global] Arguments LruRet : clear implicits.

Section Lemmas.
Context {K V : Type} `{Countable K}.
Implicit Types (c : LruCache K V) (k : K) (l : list (Entry K V)) (e : Entry K V).

(** * Lists and iterators *)

Lemma assign_value_split it v l1 e l2 :
  e_node e = it -> it ∉ map e_node l1 -> it ∉ map e_node l2 ->
  assign_value it v (l1 ++ e :: l2) = l1 ++ MkEntry it (e_key e) v :: l2.
Proof.
  intros He. unfold assign_value.
  assert (Hid : forall l, it ∉ map e_node l ->
    map (fun e => if (e_node e =? it)%nat then MkEntry (e_node e) (e_key e) v else e) l = l).
  { induction l as [|x l IH]; intros Hn; [done|]. apply not_elem_of_cons in Hn as [Hx Hn].
    simpl. by rewrite (proj2 (Nat.eqb_neq _ _)), IH by done. }
  intros Hn1 Hn2. rewrite map_app, map_cons, !Hid, He, Nat.eqb_refl by done. done.
Qed.

(** What the invariant says about a lookup in the index. *)
Lemma index_found c k it :
  lru_inv c -> index_ c !! k = Some it ->
  exists l1 e l2, entries_ c = l1 ++ e :: l2 /\ e_key e = k /\ e_node e = it /\
    (it ∉ map e_node l1) /\ (it ∉ map e_node l2) /\ (k ∉ map e_key l1) /\ (k ∉ map e_key l2).
Proof. intros Hinv. by apply (indexed_found _ _ _ _ (next_node c)), Hinv. Qed.

Lemma index_missing c k : lru_inv c -> index_ c !! k = None <-> k ∉ map e_key (entries_ c).
Proof. intros Hinv. by eapply indexed_missing, Hinv. Qed.

Lemma index_size c : lru_inv c -> size (index_ c) = length (entries_ c).
Proof. intros Hinv. by eapply indexed_size, Hinv. Qed.

Lemma inv_keys c : lru_inv c -> NoDup (map e_key (entries_ c)).
Proof. intros Hinv. by eapply ix_keys, Hinv. Qed.

(** * The abstract list *)

Lemma alookup_missing k (l : list (K * option V)) : k ∉ l.*1 -> alookup k l = None.
Proof.
  induction l as [|[k' v] l IH]; intros Hn; [done|]. apply not_elem_of_cons in Hn as [Hne Hn].
  simpl in *. rewrite decide_False by congruence. auto.
Qed.

Lemma alookup_none k (l : list (K * option V)) : alookup k l = None -> k ∉ l.*1.
Proof.
  induction l as [|[k' v] l IH]; simpl; [by intros _ ?%elem_of_nil|].
  destruct (decide (k' = k)); [done|]. intros ?. apply not_elem_of_cons. split; [done|auto].
Qed.

Lemma alookup_split k v (l1 l2 : list (K * option V)) :
  k ∉ l1.*1 -> alookup k (l1 ++ (k, v) :: l2) = Some v.
Proof.
  induction l1 as [|[k' v'] l1 IH]; intros Hn; simpl.
  - by rewrite decide_True.
  - apply not_elem_of_cons in Hn as [Hne Hn]. simpl in *. rewrite decide_False by congruence. auto.
Qed.

Lemma adelete_missing k (l : list (K * option V)) : k ∉ l.*1 -> adelete k l = l.
Proof.
  intros Hn. unfold adelete. induction l as [|[k' v] l IH]; [done|].
  apply not_elem_of_cons in Hn as [Hne Hn]. simpl in *.
  rewrite filter_cons_True by (simpl; congruence). by rewrite IH.
Qed.

Lemma adelete_split k v (l1 l2 : list (K * option V)) :
  k ∉ l1.*1 -> k ∉ l2.*1 -> adelete k (l1 ++ (k, v) :: l2) = l1 ++ l2.
Proof.
  intros H1 H2. unfold adelete. rewrite filter_app, filter_cons_False by (simpl; naive_solver).
  fold (adelete k l1) (adelete k l2). by rewrite !adelete_missing.
Qed.

Definition abs (l : list (Entry K V)) : list (K * option V) :=
  map (fun e => (e_key e, e_value e)) l.

Lemma fst_abs l : (abs l).*1 = map e_key l.
Proof. unfold abs. by rewrite <- list_fmap_compose. Qed.
End Lemmas.

Section Refinement.
Context {K V : Type} `{Countable K}.
Implicit Types (c : LruCache K V) (k : K) (op : LruOp K V).

(** * Refinement, operation by operation *)

(** One concrete operation against one abstract one. *)
Definition simulates {R} (c : LruCache K V) (concrete : R * LruCache K V)
    (abstract : R * list (K * option V)) : Prop :=
  fst concrete = fst abstract /\ abs (entries_ (snd concrete)) = snd abstract /\
  lru_inv (snd concrete) /\ capacity_ (snd concrete) = capacity_ c.

(** Opens a lookup that found its entry, in both worlds. *)
Ltac found_entry Hinv Hl l1 e l2 :=
  destruct (index_found _ _ _ Hinv Hl) as (l1 & e & l2 & Hs & Hk & Hit & Hn1 & Hn2 & Hk1 & Hk2).

Lemma abs_found c l1 (e : Entry K V) l2 :
  entries_ c = l1 ++ e :: l2 -> (e_key e ∉ map e_key l1) -> (e_key e ∉ map e_key l2) ->
  alookup (e_key e) (abs (entries_ c)) = Some (e_value e) /\
  adelete (e_key e) (abs (entries_ c)) = abs (l1 ++ l2).
Proof.
  intros -> H1 H2. rewrite <- fst_abs in H1, H2. unfold abs in *. rewrite !map_app, map_cons.
  split; [by apply alookup_split|by apply adelete_split].
Qed.

Lemma abs_missing c k :
  lru_inv c -> index_ c !! k = None -> alookup k (abs (entries_ c)) = None.
Proof.
  intros Hinv Hl. apply alookup_missing. rewrite fst_abs. by apply index_missing.
Qed.

(** Moving an entry to the front, with a value of its own or a new one. *)
Lemma inv_front c l1 (e : Entry K V) l2 v m :
  lru_inv c -> entries_ c = l1 ++ e :: l2 ->
  lru_inv (MkLru (capacity_ c) (MkEntry (e_node e) (e_key e) v :: l1 ++ l2) (index_ c) m (next_node c)).
Proof.
  intros [Hi Hs Hc] He. rewrite He in Hi, Hs. split; cbn [entries_ index_ next_node capacity_]; try done.
  - by eapply indexed_front.
  - cbn. rewrite length_app in *. cbn in Hs. lia.
Qed.

Lemma lru_get_refines k c :
  lru_inv c ->
  simulates c (lru_get k c) (match alookup k (abs (entries_ c)) with
    | Some v => (v, (k, v) :: adelete k (abs (entries_ c)))
    | None => (None, abs (entries_ c)) end).
Proof.
  intros Hinv. unfold lru_get. destruct (index_ c !! k) as [it|] eqn:Hl.
  - found_entry Hinv Hl l1 e l2. subst k.
    destruct (abs_found c l1 e l2 Hs Hk1 Hk2) as [-> ->].
    unfold splice_front. rewrite Hs, extract_split by done.
    split_and!; try done. cbn. pose proof (inv_front c l1 e l2 (e_value e)) as Hf. destruct e.
    by apply Hf.
  - rewrite abs_missing by done. split_and!; try done. by destruct Hinv.
Qed.

Lemma lru_peek_refines k c :
  lru_inv c ->
  lru_peek k c = match alookup k (abs (entries_ c)) with Some v => v | None => None end.
Proof.
  intros Hinv. unfold lru_peek. destruct (index_ c !! k) as [it|] eqn:Hl.
  - found_entry Hinv Hl l1 e l2. subst k. destruct (abs_found c l1 e l2 Hs Hk1 Hk2) as [-> _].
    by rewrite Hs, extract_split.
  - by rewrite abs_missing.
Qed.

(** Dropping an entry from the list and its key from the index. *)
Lemma inv_drop c l1 (e : Entry K V) l2 m :
  lru_inv c -> entries_ c = l1 ++ e :: l2 ->
  lru_inv (MkLru (capacity_ c) (l1 ++ l2) (delete (e_key e) (index_ c)) m (next_node c)).
Proof.
  intros [Hi Hs Hc] He. rewrite He in Hi, Hs. split; cbn [entries_ index_ next_node capacity_]; try done.
  - by apply indexed_drop.
  - rewrite length_app in *. cbn in Hs. lia.
Qed.

Lemma lru_erase_refines k c :
  lru_inv c ->
  simulates c (lru_erase k c)
    (match alookup k (abs (entries_ c)) with Some _ => true | None => false end,
     adelete k (abs (entries_ c))).
Proof.
  intros Hinv. unfold lru_erase. destruct (index_ c !! k) as [it|] eqn:Hl.
  - found_entry Hinv Hl l1 e l2. subst k.
    destruct (abs_found c l1 e l2 Hs Hk1 Hk2) as [-> ->].
    unfold list_erase. rewrite Hs, extract_split by done.
    split_and!; try done. by apply inv_drop.
  - rewrite abs_missing by done. split_and!; try done.
    cbn. rewrite adelete_missing; [done|]. rewrite fst_abs. by apply index_missing.
Qed.

Lemma evict_lru_refines c :
  lru_inv c -> (1 <= length (entries_ c))%nat ->
  lru_inv (evict_lru c) /\ abs (entries_ (evict_lru c)) = removelast (abs (entries_ c)) /\
  capacity_ (evict_lru c) = capacity_ c /\ next_node (evict_lru c) = next_node c /\
  (length (entries_ (evict_lru c)) < capacity_ c)%nat.
Proof.
  intros Hinv Hne. unfold evict_lru.
  destruct (last (entries_ c)) as [back|] eqn:El.
  2:{ apply last_None in El. rewrite El in Hne. simpl in Hne. lia. }
  apply last_removelast in El. pose proof (inv_size c Hinv) as Hsz.
  pose proof (inv_drop c (removelast (entries_ c)) back [] (count_eviction (metrics_ c)) Hinv El) as Hd.
  rewrite app_nil_r in Hd. split; [done|]. cbn [entries_ capacity_ next_node].
  unfold abs. rewrite removelast_map. split_and!; try done.
  apply (f_equal length) in El. rewrite length_app in El. simpl in El. lia.
Qed.

Lemma inv_push c k v m :
  lru_inv c -> (k ∉ map e_key (entries_ c)) -> (length (entries_ c) < capacity_ c)%nat ->
  lru_inv (MkLru (capacity_ c) (MkEntry (next_node c) k v :: entries_ c)
    (<[k := next_node c]> (index_ c)) m (S (next_node c))).
Proof.
  intros [Hi Hs Hc] Hnk Hlt. split; cbn [entries_ index_ next_node capacity_]; try done.
  by apply (indexed_push e_key e_node _ (MkEntry (next_node c) k v)).
Qed.

Lemma put_ptr_refines k v c :
  lru_inv c ->
  simulates c (tt, put_ptr k v c) (tt, spec_put (capacity_ c) k v (abs (entries_ c))).
Proof.
  intros Hinv. unfold put_ptr, spec_put. destruct (index_ c !! k) as [it|] eqn:Hl.
  - found_entry Hinv Hl l1 e l2. subst k.
    destruct (abs_found c l1 e l2 Hs Hk1 Hk2) as [-> ->].
    unfold splice_front. rewrite Hs, assign_value_split, extract_split by done.
    split_and!; try done. subst it. by eapply inv_front.
  - rewrite abs_missing by done. rewrite index_size by done.
    assert (length (abs (entries_ c)) = length (entries_ c)) as -> by apply length_map.
    pose proof (proj1 (index_missing c k Hinv) Hl) as Hnk.
    destruct (Nat.leb_spec (capacity_ c) (length (entries_ c))) as [Hfull|Hroom].
    + pose proof (inv_capacity c Hinv) as Hcap.
      destruct (evict_lru_refines c Hinv) as (Hi & Ha & Hc & Hn & Hlt); [lia|].
      split_and!; cbn [fst snd entries_ capacity_]; try done.
      * unfold abs at 1. cbn [map]. fold (abs (entries_ (evict_lru c))). by rewrite Ha.
      * apply inv_push; [done| |by rewrite Hc]. rewrite <- fst_abs, Ha.
        intros Hin. apply Hnk. rewrite <- fst_abs.
        destruct (decide (abs (entries_ c) = [])) as [E|E].
        { rewrite E in Hin. by apply elem_of_nil in Hin. }
        apply exists_last in E as (l & x & E). rewrite E, List.removelast_last in Hin.
        rewrite E, fmap_app. apply elem_of_app. by left.
    + split_and!; try done. by apply inv_push.
Qed.

Lemma lru_step_refines op c :
  lru_inv c -> simulates c (lru_step op c) (spec_step (capacity_ c) op (abs (entries_ c))).
Proof.
  intros Hinv. destruct op as [k|k|k v|k|]; cbn [lru_step spec_step].
  - pose proof (lru_get_refines k c Hinv) as Hg. unfold simulates in *.
    destruct (lru_get k c). destruct (alookup _ _); cbn in *; destruct_and!; subst; by split_and!.
  - split_and!; try done. cbn. by rewrite lru_peek_refines.
  - destruct (put_ptr_refines k (Some v) c Hinv) as (_ & ? & ? & ?). by split_and!.
  - pose proof (lru_erase_refines k c Hinv) as He. unfold simulates in *.
    destruct (lru_erase k c). cbn in *. destruct_and!; subst; by split_and!.
  - split_and!; try done. cbn. destruct Hinv. split; cbn; try done; try lia. apply indexed_nil.
Qed.

Lemma lru_run_refines ops c :
  lru_inv c -> simulates c (lru_run ops c) (spec_run (capacity_ c) ops (abs (entries_ c))).
Proof.
  revert c. induction ops as [|op ops IH]; intros c Hinv; cbn [lru_run spec_run].
  { by split_and!. }
  pose proof (lru_step_refines op c Hinv) as (Hr & Ha & Hi & Hc).
  destruct (lru_step op c) as [r c1]. cbn [fst snd] in *.
  destruct (spec_step _ _ _) as [r' l1]. cbn [fst snd] in *. subst r' l1.
  destruct (IH c1 Hi) as (Hr2 & Ha2 & Hi2 & Hc2). rewrite Hc in *.
  destruct (lru_run ops c1) as [rs c2], (spec_run _ _ _) as [rs' l2]. cbn in *. subst.
  by split_and!.
Qed.

Lemma lru_new_inv n c : lru_new n = Some c -> lru_inv c /\ capacity_ c = n /\ entries_ c = [].
Proof.
  unfold lru_new. destruct (Nat.eqb_spec n 0); [done|]. intros [= <-].
  split_and!; try done. split; cbn; try done; try lia. apply indexed_nil.
Qed.
End Refinement.

Section Recency.
Context {K V : Type} `{Countable K}.
Implicit Types (c : LruCache K V) (k : K) (op : LruOp K V) (T : gset K).

(** * Recency: what is kept and what it holds *)

(** [k] is in the list with value [v], behind keys of [T] only. *)
Definition behind T k (v : V) (l : list (K * option V)) : Prop :=
  exists l1 l2, l = l1 ++ (k, Some v) :: l2 /\ (forall x, x ∈ l1.*1 -> x ∈ T).

(** Operations that do not remove [k]. *)
Definition keeps k op : Prop :=
  match op with OpErase k' => k' <> k | OpClear => False | _ => True end.

Lemma adelete_behind T k k' v l :
  k' <> k -> behind T k v l -> behind T k v (adelete k' l).
Proof.
  intros Hne (l1 & l2 & -> & HT). exists (adelete k' l1), (adelete k' l2). split.
  - unfold adelete. by rewrite filter_app, filter_cons_True by (simpl; congruence).
  - intros x Hx. apply HT. apply list_elem_of_fmap in Hx as (p & -> & Hp).
    apply list_elem_of_filter in Hp as [_ Hp]. by apply list_elem_of_fmap_2.
Qed.

Lemma cons_behind T k k' v v' l :
  k' ∈ T -> behind T k v l -> behind T k v ((k', v') :: l).
Proof.
  intros Hk (l1 & l2 & -> & HT). exists ((k', v') :: l1), l2. split; [done|].
  intros x [->|Hx]%elem_of_cons; auto.
Qed.

Lemma front_behind T k v l : behind T k v ((k, Some v) :: l).
Proof. exists [], l. split; [done|]. by intros x ?%elem_of_nil. Qed.

(** The evicted entry is not [k]: there would have to be [cap] distinct keys ahead
    of it, the new one included. *)
Lemma removelast_behind T k k' v cap l :
  NoDup l.*1 -> length l = cap -> (size T < cap)%nat -> k' ∈ T -> (k' ∉ l.*1) ->
  behind T k v l -> behind T k v (removelast l).
Proof.
  intros Hnd Hlen HT Hk' Hni (l1 & l2 & -> & Hsub).
  destruct (decide (l2 = [])) as [->|Hne].
  - exfalso. rewrite fmap_app in Hnd, Hni. apply NoDup_app in Hnd as (Hnd & _ & _).
    assert (Hsz : (size (list_to_set (k' :: l1.*1) : gset K) <= size T)%nat).
    { apply subseteq_size. intros x [->|Hx]%elem_of_list_to_set%elem_of_cons; auto. }
    rewrite size_list_to_set in Hsz.
    2:{ constructor; [|done]. intros Hin. apply Hni, elem_of_app. by left. }
    rewrite length_app in Hlen. simpl in Hsz, Hlen. rewrite length_fmap in Hsz. lia.
  - exists l1, (removelast l2). split; [|done].
    rewrite removelast_app by done. simpl. by destruct l2.
Qed.

Lemma spec_step_behind T cap k v op l :
  NoDup l.*1 -> (length l <= cap)%nat -> (size T < cap)%nat ->
  (forall x, x ∈ touched op -> x = k \/ x ∈ T) -> keeps k op -> behind T k v l ->
  exists v', op_writes k op (Some v) = Some v' /\ behind T k v' (snd (spec_step cap op l)).
Proof.
  intros Hnd Hlen HT Htouch Hkeep Hb.
  assert (Hlk : alookup k l = Some (Some v)).
  { destruct Hb as (l1 & l2 & -> & _). apply alookup_split.
    rewrite fmap_app, fmap_cons in Hnd. apply NoDup_app in Hnd as (_ & Hd & _).
    intros Hin. apply (Hd _ Hin). left. }
  destruct op as [k'|k'|k' v'|k'|]; cbn [spec_step op_writes snd keeps touched] in *.
  - exists v. split; [done|]. destruct (decide (k' = k)) as [->|Hne].
    { rewrite Hlk. apply front_behind. }
    assert (k' ∈ T) by (destruct (Htouch k'); [left|done|done]).
    destruct (alookup k' l) as [w|]; [|done]. cbn. by apply cons_behind, adelete_behind.
  - by exists v.
  - unfold spec_put. destruct (decide (k' = k)) as [->|Hne].
    { exists v'. split; [done|]. rewrite Hlk. apply front_behind. }
    exists v. split; [done|].
    assert (k' ∈ T) by (destruct (Htouch k'); [left|done|done]).
    destruct (alookup k' l) as [w|] eqn:E.
    { by apply cons_behind, adelete_behind. }
    apply cons_behind; [done|]. destruct (Nat.leb_spec cap (length l)); [|done].
    eapply (removelast_behind T k k'); try done; try lia.
    by apply alookup_none.
  - exists v. rewrite decide_False by done. split; [done|]. by apply adelete_behind.
  - done.
Qed.

Lemma lru_run_behind T ops k v c :
  lru_inv c -> (size T < capacity_ c)%nat -> (forall x, x ∈ touches ops -> x = k \/ x ∈ T) ->
  Forall (keeps k) ops -> behind T k v (abs (entries_ c)) ->
  exists v', last_write k ops (Some v) = Some v' /\
    behind T k v' (abs (entries_ (snd (lru_run ops c)))).
Proof.
  revert c v. induction ops as [|op ops IH]; intros c v Hinv HT Htouch Hkeep Hb.
  { by exists v. }
  apply Forall_cons_1 in Hkeep as [Hk Hkeep].
  pose proof (lru_step_refines op c Hinv) as (_ & Ha & Hi & Hc).
  destruct (spec_step_behind T (capacity_ c) k v op (abs (entries_ c))) as (v1 & Hv1 & Hb1); try done.
  { rewrite fst_abs. by apply inv_keys. }
  { unfold abs. rewrite length_map. apply Hinv. }
  { intros x Hx. apply Htouch. unfold touches. cbn. apply elem_of_app. by left. }
  cbn [lru_run]. rewrite <- Ha in Hb1. destruct (lru_step op c) as [r c1]. cbn [snd] in *.
  destruct (IH c1 v1) as (v2 & Hv2 & Hb2); try done.
  { by rewrite Hc. }
  { intros x Hx. apply Htouch. unfold touches. cbn. apply elem_of_app. by right. }
  exists v2. split; [unfold last_write in *; cbn; by rewrite Hv1|].
  by destruct (lru_run ops c1).
Qed.

(** Every entry holds the last value written under its key. *)
Definition coherent (w : K -> option V) (l : list (K * option V)) : Prop :=
  forall k p, (k, p) ∈ l -> p = w k.

Lemma alookup_elem k (p : option V) l : alookup k l = Some p -> (k, p) ∈ l.
Proof.
  induction l as [|[k' p'] l IH]; simpl; [done|].
  destruct (decide (k' = k)) as [->|]; [intros [= ->]; by left|]. intros ?. right. auto.
Qed.

Lemma alookup_nodup k (p : option V) l : NoDup l.*1 -> (k, p) ∈ l -> alookup k l = Some p.
Proof.
  induction l as [|[k' p'] l IH]; simpl; [by intros _ ?%elem_of_nil|].
  intros [Hn Hnd]%NoDup_cons [[= -> ->]|Hin]%elem_of_cons; [by rewrite decide_True|].
  rewrite decide_False; [by apply IH|]. intros ->. apply Hn. apply list_elem_of_fmap. by exists (k, p).
Qed.

Lemma inv_keys_abs (c : LruCache K V) : lru_inv c -> NoDup (lru_for_each c).*1.
Proof. intros Hi. change (lru_for_each c) with (abs (entries_ c)). rewrite fst_abs. by apply inv_keys. Qed.

Lemma spec_step_coherent cap op w l :
  coherent w l -> coherent (fun k => op_writes k op (w k)) (snd (spec_step cap op l)).
Proof.
  intros Hw. assert (Hdel : forall k0 k p, (k, p) ∈ adelete k0 l -> k0 <> k /\ p = w k).
  { intros k0 k p [Hne Hin]%list_elem_of_filter. simpl in Hne. split; [congruence|auto]. }
  destruct op as [k'|k'|k' v'|k'|]; cbn [spec_step op_writes snd]; try done.
  - destruct (alookup k' l) as [q|] eqn:E; [|done]. apply alookup_elem in E. cbn.
    intros k p [[= -> ->]|[_ ->]%Hdel]%elem_of_cons; auto.
  - unfold spec_put. destruct (alookup k' l) as [q|] eqn:E; intros k p Hin;
      apply elem_of_cons in Hin as [[= -> ->]|Hin].
    + by rewrite decide_True.
    + apply Hdel in Hin as [Hne ->]. by rewrite decide_False.
    + by rewrite decide_True.
    + destruct (decide (k' = k)) as [->|Hne].
      * exfalso. apply alookup_none in E. apply E. apply list_elem_of_fmap. exists (k, p).
        split; [done|]. destruct (_ <=? _)%nat; [by apply elem_of_removelast|done].
      * destruct (_ <=? _)%nat; [apply elem_of_removelast in Hin|]; auto.
  - intros k p [Hne ->]%Hdel. by rewrite decide_False.
  - by intros k p ?%elem_of_nil.
Qed.
End Recency.

Section Properties.
Context {K V : Type} `{Countable K}.
Implicit Types (c : LruCache K V) (k : K) (ops : list (LruOp K V)).

Lemma coherent_run ops c (w : K -> option V) :
  lru_inv c -> coherent w (abs (entries_ c)) ->
  coherent (fun k => last_write k ops (w k)) (abs (entries_ (snd (lru_run ops c)))).
Proof.
  revert c w. induction ops as [|op ops IH]; intros c w Hinv Hw; [done|].
  pose proof (lru_step_refines op c Hinv) as (_ & Ha & Hi & _).
  pose proof (spec_step_coherent (capacity_ c) op w _ Hw) as Hw1. rewrite <- Ha in Hw1.
  cbn [lru_run]. destruct (lru_step op c) as [r c1]. cbn [snd] in *.
  specialize (IH c1 _ Hi Hw1). by destruct (lru_run ops c1).
Qed.

(** From construction on, under every sequence of operations, the list and the
    index agree (no iterator dangles, no key is duplicated), the size reported is
    the number of entries, and it never exceeds the capacity. *)
Theorem lru_always_consistent n c ops :
  lru_new n = Some c ->
  let c' := snd (lru_run ops c) in
  lru_inv c' /\ lru_size c' = length (entries_ c') /\ (lru_size c' <= n)%nat.
Proof.
  intros (Hinv & Hn & _)%lru_new_inv. destruct (lru_run_refines ops c Hinv) as (_ & _ & Hi & Hc).
  unfold lru_size. rewrite index_size by done. split_and!; try done.
  rewrite <- Hn, <- Hc. apply Hi.
Qed.

(** C16: The cache refines its abstract specification, an association list in
    recency order: every history returns the same results as the specification and
    visits the same entries in the same order. *)
Theorem lru_refines_spec n c ops :
  lru_new n = Some c ->
  fst (lru_run ops c) = fst (spec_run n ops []) /\
  lru_for_each (snd (lru_run ops c)) = snd (spec_run n ops []).
Proof.
  intros (Hinv & Hn & He)%lru_new_inv.
  destruct (lru_run_refines ops c Hinv) as (Hr & Ha & _ & _). rewrite He, Hn in *. by split.
Qed.

(** A lookup never returns anything but the value last put under that key and
    not erased or cleared since. *)
Lemma lru_coherent n c ops k v :
  lru_new n = Some c -> lru_peek k (snd (lru_run ops c)) = Some v ->
  last_write k ops None = Some v.
Proof.
  intros (Hinv & Hn & He)%lru_new_inv. destruct (lru_run_refines ops c Hinv) as (_ & _ & Hi & _).
  rewrite lru_peek_refines by done. destruct (alookup k _) as [p|] eqn:E; [|done]. intros ->.
  apply alookup_elem in E. symmetry. apply (coherent_run ops c (fun _ => None) Hinv); [|done].
  rewrite He. by intros ? ? ?%elem_of_nil.
Qed.

(** Least-recently-used eviction: once put, a key that is not removed stays
    cached, with the value last put under it, as long as fewer than [capacity]
    other keys have been looked up or put since. *)
Theorem lru_recent_key_survives n c before k v ops :
  lru_new n = Some c -> Forall (keeps k) ops ->
  (size (list_to_set (touches ops) ∖ {[k]} : gset K) < n)%nat ->
  let c' := snd (lru_run ops (lru_put k v (snd (lru_run before c)))) in
  exists v', last_write k ops (Some v) = Some v' /\ lru_peek k c' = Some v'.
Proof.
  intros (Hinv & Hn & _)%lru_new_inv Hk HT.
  destruct (lru_run_refines before c Hinv) as (_ & _ & Hi & Hc).
  set (c1 := snd (lru_run before c)) in *.
  destruct (put_ptr_refines k (Some v) c1 Hi) as (_ & Ha2 & Hi2 & Hc2). cbn [snd] in *.
  fold (lru_put k v c1) in *. set (c2 := lru_put k v c1) in *.
  destruct (lru_run_behind (list_to_set (touches ops) ∖ {[k]}) ops k v c2) as (v' & Hv' & Hb); try done.
  { by rewrite Hc2, Hc, Hn. }
  { intros x Hx. destruct (decide (x = k)); [by left|right].
    by rewrite elem_of_difference, elem_of_list_to_set, elem_of_singleton. }
  { rewrite Ha2. unfold spec_put. destruct (alookup k _); apply front_behind. }
  exists v'. split; [done|]. destruct (lru_run_refines ops c2 Hi2) as (_ & _ & Hi3 & _).
  rewrite lru_peek_refines by done. destruct Hb as (l1 & l2 & Hb & _).
  pose proof (inv_keys _ Hi3) as Hnd. rewrite <- fst_abs in Hnd. rewrite Hb in *.
  rewrite alookup_split; [done|]. rewrite fmap_app, fmap_cons in Hnd.
  apply NoDup_app in Hnd as (_ & Hd & _). intros Hin. apply (Hd _ Hin). left.
Qed.
End Properties.

(** A two-entry cache and a history that overflows it. *)
Definition sample_lru : LruCache Z Z := MkLru 2 [] ∅ zero_metrics 0.
Definition sample_ops : list (LruOp Z Z) :=
  [OpPut 1 10; OpPut 2 20; OpGet 1; OpPut 3 30; OpGet 2; OpErase 3].

Lemma lru_always_consistent_witness :
  lru_inv (snd (lru_run sample_ops sample_lru)) /\
  (lru_size (snd (lru_run sample_ops sample_lru)) <= 2)%nat.
Proof.
  destruct (lru_always_consistent 2 sample_lru sample_ops eq_refl) as (H1 & _ & H2). by split.
Defined.

Lemma lru_refines_spec_witness :
  fst (lru_run sample_ops sample_lru) =
  [RetUnit; RetUnit; RetPtr (Some 10); RetUnit; RetPtr None; RetBool true].
Proof. by rewrite (proj1 (lru_refines_spec 2 sample_lru sample_ops eq_refl)). Defined.

Lemma lru_coherent_witness : last_write 1 sample_ops None = Some 10.
Proof. apply (lru_coherent 2 sample_lru); by vm_compute. Defined.

Lemma lru_recent_key_survives_witness :
  exists v', last_write 1 [OpPut 2 20; OpGet 2; OpPut 1 11] (Some 10) = Some v' /\
    lru_peek 1 (snd (lru_run [OpPut 2 20; OpGet 2; OpPut 1 11]
      (lru_put 1 10 (snd (lru_run [OpPut 7 7; OpPut 8 8] sample_lru))))) = Some v'.
Proof.
  apply (lru_recent_key_survives 2 sample_lru [OpPut 7 7; OpPut 8 8] 1 10
    [OpPut 2 20; OpGet 2; OpPut 1 11] eq_refl).
  - repeat constructor.
  - apply Nat.ltb_lt. by vm_compute.
Defined.
