(* ===== verification/ShardedCache.v ===== *)
(** The mutex wrapper and the sharded cache (include/lrd/cache/locked_cache.hpp,
    include/lrd/cache/sharded_cache.hpp).

    Every operation of [LockedCache] holds the mutex throughout, so it is one atomic
    step of the LRU cache and a run of any number of threads is a sequence of such
    steps. [ShardedCache] routes a key to a shard by the mixed hash; the operations
    that visit all shards ([clear], [size], [metrics]) lock one shard at a time.

    The theorems reduce the sharded cache to its shards: what a history does to
    shard [i] is what the sub-history routed to [i] does to one LRU cache. *)
From stdpp Require Import base list option gmap.
From S2P Require Import Prelude HashMix StdList LruCache.

Section ShardedCache.
Context {K V : Type} `{Countable K}.

(** The [Hash] template argument. *)
Variable hasher_ : K -> Z.

(** * LockedCache *)

Definition locked_get (key : K) (c : LruCache K V) := lru_get key c.
Definition locked_peek (key : K) (c : LruCache K V) := lru_peek key c.
(** The value is shared before the lock is taken. *)
Definition locked_put (key : K) (value : V) (c : LruCache K V) : LruCache K V :=
  let shared := Some value in put_shared key shared c.
Definition locked_erase (key : K) (c : LruCache K V) := lru_erase key c.
Definition locked_clear (c : LruCache K V) : LruCache K V := lru_clear c.
Definition locked_snapshot (c : LruCache K V) : list (K * option V) := lru_for_each c.

(** * ShardedCache *)

Record ShardedCache := MkSharded {
  sc_capacity : Z;
  sc_shard_count : Z;
  shards_ : list (LruCache K V)
}.

Fixpoint make_shards (n : nat) (per_shard : nat) : option (list (LruCache K V)) :=
  match n with
  | O => Some []
  | S n =>
      match lru_new per_shard, make_shards n per_shard with
      | Some c, Some cs => Some (c :: cs)
      | _, _ => None
      end
  end.

(** The constructor; [None] is [std::invalid_argument]. *)
Definition sharded_new (capacity shard_count : Z) : option ShardedCache :=
  if (shard_count =? 0) || negb (has_single_bit shard_count) then None
  else if capacity <? shard_count then None
  else
    match make_shards (Z.to_nat shard_count) (Z.to_nat (capacity / shard_count)) with
    | Some shards => Some (MkSharded capacity shard_count shards)
    | None => None
    end.

Definition shard_index (sc : ShardedCache) (key : K) : nat :=
  Z.to_nat (shard_mask (sc_shard_count sc) (hasher_ key)).

Definition with_shards (sc : ShardedCache) (shards : list (LruCache K V)) : ShardedCache :=
  MkSharded (sc_capacity sc) (sc_shard_count sc) shards.

(** Runs a locked operation on the shard of [key]. *)
Definition on_shard {R} (key : K) (dflt : R) (f : LruCache K V -> R * LruCache K V)
    (sc : ShardedCache) : R * ShardedCache :=
  let i := shard_index sc key in
  match shards_ sc !! i with
  | Some shard => let '(r, shard) := f shard in (r, with_shards sc (<[i := shard]> (shards_ sc)))
  | None => (dflt, sc)
  end.

Definition sharded_get (key : K) : ShardedCache -> option V * ShardedCache :=
  on_shard key None (locked_get key).
Definition sharded_peek (key : K) (sc : ShardedCache) : option V :=
  match shards_ sc !! shard_index sc key with Some s => locked_peek key s | None => None end.
Definition sharded_put (key : K) (value : V) (sc : ShardedCache) : ShardedCache :=
  snd (on_shard key tt (fun s => (tt, locked_put key value s)) sc).
Definition sharded_erase (key : K) : ShardedCache -> bool * ShardedCache :=
  on_shard key false (locked_erase key).
Definition sharded_clear (sc : ShardedCache) : ShardedCache :=
  with_shards sc (map locked_clear (shards_ sc)).

Definition sharded_size (sc : ShardedCache) : nat :=
  fold_left (fun total s => total + lru_size s)%nat (shards_ sc) 0%nat.
Definition shard_sizes (sc : ShardedCache) : list nat := map lru_size (shards_ sc).

Definition add_metrics (total m : CacheMetrics) : CacheMetrics :=
  MkMetrics (wrap 64 (m_hits total + m_hits m)) (wrap 64 (m_misses total + m_misses m))
    (wrap 64 (m_insertions total + m_insertions m)) (wrap 64 (m_updates total + m_updates m))
    (wrap 64 (m_evictions total + m_evictions m)).
Definition sharded_metrics (sc : ShardedCache) : CacheMetrics :=
  fold_left (fun total s => add_metrics total (metrics_ s)) (shards_ sc) zero_metrics.

(** [snapshot_shard(index, out)]: [out] is cleared, then filled under the lock. *)
Definition snapshot_shard (sc : ShardedCache) (index : nat) : list (K * option V) :=
  match shards_ sc !! index with Some s => locked_snapshot s | None => [] end.

Definition sharded_step (op : LruOp K V) (sc : ShardedCache) : LruRet V * ShardedCache :=
  match op with
  | OpGet k => let '(p, sc) := sharded_get k sc in (RetPtr p, sc)
  | OpPeek k => (RetPtr (sharded_peek k sc), sc)
  | OpPut k v => (RetUnit, sharded_put k v sc)
  | OpErase k => let '(b, sc) := sharded_erase k sc in (RetBool b, sc)
  | OpClear => (RetUnit, sharded_clear sc)
  end.

Fixpoint sharded_run (ops : list (LruOp K V)) (sc : ShardedCache) : list (LruRet V) * ShardedCache :=
  match ops with
  | [] => ([], sc)
  | op :: ops =>
      let '(r, sc) := sharded_step op sc in
      let '(rs, sc) := sharded_run ops sc in (r :: rs, sc)
  end.

(** Which operations reach shard [i]. *)
Definition routed (sc : ShardedCache) (i : nat) (op : LruOp K V) : Prop :=
  match op with
  | OpGet k | OpPeek k | OpPut k _ | OpErase k => shard_index sc k = i
  | OpClear => True
  end.
#[global] Instance routed_dec sc i op : Decision (routed sc i op).
Proof. destruct op; simpl; apply _. Defined.

(** * Invariant *)

Record sharded_inv (sc : ShardedCache) : Prop := {
  si_bit : has_single_bit (sc_shard_count sc) = true;
  si_room : sc_shard_count sc <= sc_capacity sc;
  si_count : Z.of_nat (length (shards_ sc)) = sc_shard_count sc;
  si_shards : Forall (fun s => lru_inv s /\
    Z.of_nat (capacity_ s) = sc_capacity sc / sc_shard_count sc) (shards_ sc);
  si_home : forall i s k, shards_ sc !! i = Some s -> k ∈ keys_mru_to_lru s -> shard_index sc k = i
}.

(** * Lemmas *)

Lemma make_shards_spec n per shards :
  make_shards n per = Some shards ->
  length shards = n /\ Forall (fun s => lru_new per = Some s) shards.
Proof.
  revert shards. induction n as [|n IH]; intros shards; cbn [make_shards]; [by intros [= <-]|].
  destruct (lru_new per) as [c|] eqn:E; [|done]. destruct (make_shards n per) as [cs|]; [|done].
  intros [= <-]. destruct (IH cs eq_refl) as [<- Hf]. split; [done|by constructor].
Qed.

Lemma shard_index_lt sc k : sharded_inv sc -> (shard_index sc k < length (shards_ sc))%nat.
Proof.
  intros [Hb _ Hc _ _]. unfold shard_index. pose proof (shard_mask_range _ (hasher_ k) Hb). lia.
Qed.

Lemma sharded_new_inv capacity shard_count sc :
  sharded_new capacity shard_count = Some sc ->
  sharded_inv sc /\ sc_capacity sc = capacity /\ sc_shard_count sc = shard_count /\
  Forall (fun s => lru_new (Z.to_nat (capacity / shard_count)) = Some s) (shards_ sc).
Proof.
  unfold sharded_new. destruct (_ || _) eqn:E1; [done|]. destruct (_ <? _) eqn:E2; [done|].
  destruct (make_shards _ _) as [shards|] eqn:E; [|done]. intros [= <-]. bcases.
  apply make_shards_spec in E as [Hl Hf].
  assert (0 < shard_count) by (unfold has_single_bit in *; bcases; lia).
  assert (0 <= capacity / shard_count) by (apply Z.div_pos; lia).
  split_and!; try done. split; cbn [sc_shard_count sc_capacity shards_]; try done; try lia.
  - eapply Forall_impl; [exact Hf|]. intros s (Hi & Hc & _)%lru_new_inv. split; [done|lia].
  - intros i s k Hs Hk. rewrite Forall_lookup in Hf. specialize (Hf i s Hs).
    apply lru_new_inv in Hf as (_ & _ & He). unfold keys_mru_to_lru in Hk. rewrite He in Hk.
    by apply elem_of_nil in Hk.
Qed.

(** A step of one LRU cache stores no key but the one it is given. *)
Lemma lru_step_keys (op : LruOp K V) (s : LruCache K V) x :
  lru_inv s -> x ∈ keys_mru_to_lru (snd (lru_step op s)) ->
  x ∈ keys_mru_to_lru s \/ x ∈ touched op.
Proof.
  intros Hi. pose proof (lru_step_refines op s Hi) as (_ & Ha & _ & _).
  unfold keys_mru_to_lru. rewrite <- !fst_abs, Ha.
  set (l := abs (entries_ s)). clearbody l. clear.
  assert (Hdel : forall k0, x ∈ (adelete k0 l).*1 -> x ∈ l.*1).
  { intros k0 Hx. apply list_elem_of_fmap in Hx as (p & -> & Hp).
    apply list_elem_of_filter in Hp as [_ Hp]. by apply list_elem_of_fmap_2. }
  destruct op as [k|k|k v|k|]; cbn [spec_step snd touched]; auto.
  - destruct (alookup k l); cbn; [|auto]. intros [->|Hx]%elem_of_cons; [right; left|eauto].
  - unfold spec_put. destruct (alookup k l); cbn;
      (intros [->|Hx]%elem_of_cons; [right; left|]); [eauto|].
    left. destruct (_ <=? _)%nat; [|done]. apply list_elem_of_fmap in Hx as (p & -> & Hp).
    apply elem_of_removelast in Hp. by apply list_elem_of_fmap_2.
  - eauto.
Qed.

(** One step of the sharded cache is one step of one shard (or of every shard, for
    [clear]). *)
Lemma sharded_step_shards op sc i s :
  sharded_inv sc -> shards_ sc !! i = Some s ->
  shards_ (snd (sharded_step op sc)) !! i =
    Some (if decide (routed sc i op) then snd (lru_step op s) else s) /\
  (routed sc i op -> op <> OpClear -> fst (sharded_step op sc) = fst (lru_step op s)) /\
  sc_shard_count (snd (sharded_step op sc)) = sc_shard_count sc /\
  sc_capacity (snd (sharded_step op sc)) = sc_capacity sc /\
  length (shards_ (snd (sharded_step op sc))) = length (shards_ sc).
Proof.
  intros Hinv Hs.
  assert (Hin : forall k, exists t, shards_ sc !! shard_index sc k = Some t).
  { intros k. apply lookup_lt_is_Some_2. by apply shard_index_lt. }
  destruct op as [k|k|k v|k|]; cbn [sharded_step lru_step routed].
  5:{ split_and!; try done; cbn; [|by rewrite length_map].
      rewrite list_lookup_fmap, Hs. by destruct (decide True). }
  all: destruct (Hin k) as [t Ht];
    unfold sharded_get, sharded_peek, sharded_put, sharded_erase, on_shard,
      locked_get, locked_peek, locked_put, locked_erase; rewrite Ht.
  1: destruct (lru_get k t) as [p t'] eqn:E.
  3: unfold put_shared; fold (lru_put k v t).
  4: destruct (lru_erase k t) as [p t'] eqn:E.
  all: cbn [fst snd shards_ with_shards sc_shard_count sc_capacity];
    rewrite ?length_insert; destruct (decide (shard_index sc k = i)) as [<-|Hne];
    rewrite ?list_lookup_insert_ne by done;
    rewrite ?list_lookup_insert_eq by (by apply shard_index_lt);
    try (rewrite Hs in Ht; injection Ht as <-); rewrite ?E; split_and!; done.
Qed.

Lemma sharded_step_inv op sc : sharded_inv sc -> sharded_inv (snd (sharded_step op sc)).
Proof.
  intros Hinv. pose proof Hinv as [Hb Hr Hc Hs Hh].
  assert (Hframe : sc_shard_count (snd (sharded_step op sc)) = sc_shard_count sc /\
    sc_capacity (snd (sharded_step op sc)) = sc_capacity sc /\
    length (shards_ (snd (sharded_step op sc))) = length (shards_ sc)).
  { destruct (lookup_lt_is_Some_2 (shards_ sc) 0) as [s0 Hs0].
    { unfold has_single_bit in Hb. bcases. lia. }
    destruct (sharded_step_shards op sc 0 s0 Hinv Hs0) as (_ & _ & ?). done. }
  destruct Hframe as (E1 & E2 & E3).
  assert (Hidx : forall k, shard_index (snd (sharded_step op sc)) k = shard_index sc k)
    by (intros; unfold shard_index; by rewrite E1).
  assert (Hold : forall i s', shards_ (snd (sharded_step op sc)) !! i = Some s' ->
    exists s, shards_ sc !! i = Some s /\
      s' = if decide (routed sc i op) then snd (lru_step op s) else s).
  { intros i s' Hs'. destruct (lookup_lt_is_Some_2 (shards_ sc) i) as [s Hsi].
    { rewrite <- E3. by eapply lookup_lt_Some. }
    destruct (sharded_step_shards op sc i s Hinv Hsi) as (Hi & _). exists s. split; congruence. }
  rewrite Forall_lookup in Hs. split; rewrite ?E1, ?E2, ?E3; try done.
  - apply Forall_lookup. intros i s' Hs'. destruct (Hold i s' Hs') as (s & Hsi & ->).
    destruct (Hs i s Hsi) as [Hi Hcap]. destruct (decide _); [|done].
    pose proof (lru_step_refines op s Hi) as (_ & _ & Hi' & Hc'). split; [done|by rewrite Hc'].
  - intros i s' k Hs' Hk. rewrite Hidx. destruct (Hold i s' Hs') as (s & Hsi & ->).
    destruct (decide (routed sc i op)) as [Hro|]; [|by eapply Hh].
    apply lru_step_keys in Hk as [Hk|Hk]; [by eapply Hh| |by apply (Hs i s)].
    destruct op; cbn in Hk, Hro; try (by apply elem_of_nil in Hk);
      by apply list_elem_of_singleton in Hk as ->.
Qed.
End ShardedCache.
#[global] Arguments ShardedCache K V {_ _}.

Section Properties.
Context {K V : Type} `{Countable K} (hasher_ : K -> Z).
Implicit Types (sc : ShardedCache K V) (ops : list (LruOp K V)).
#[local] Abbreviation run := (sharded_run hasher_) (only parsing).

Lemma shard_index_frame sc sc' k :
  sc_shard_count sc' = sc_shard_count sc -> shard_index hasher_ sc' k = shard_index hasher_ sc k.
Proof. unfold shard_index. by intros ->. Qed.

Lemma routed_frame sc sc' i (op : LruOp K V) :
  sc_shard_count sc' = sc_shard_count sc -> routed hasher_ sc' i op <-> routed hasher_ sc i op.
Proof. intros E. destruct op; cbn; by rewrite ?(shard_index_frame sc sc'). Qed.

(** What a history does to shard [i] is what its routed part does to that shard
    alone. *)
Lemma run_projects ops sc i s :
  sharded_inv hasher_ sc -> shards_ sc !! i = Some s ->
  shards_ (snd (run ops sc)) !! i = Some (snd (lru_run (filter (routed hasher_ sc i) ops) s)) /\
  sharded_inv hasher_ (snd (run ops sc)) /\
  sc_shard_count (snd (run ops sc)) = sc_shard_count sc /\
  sc_capacity (snd (run ops sc)) = sc_capacity sc.
Proof.
  revert sc s. induction ops as [|op ops IH]; intros sc s Hinv Hs; [done|].
  pose proof (sharded_step_inv hasher_ op sc Hinv) as Hinv1.
  destruct (sharded_step_shards hasher_ op sc i s Hinv Hs) as (Hs1 & _ & E1 & E2 & _).
  cbn [sharded_run]. destruct (sharded_step hasher_ op sc) as [r sc1]. cbn [snd] in *.
  destruct (IH sc1 _ Hinv1 Hs1) as (Hs2 & Hi2 & E3 & E4).
  destruct (run ops sc1) as [rs sc2]. cbn [snd] in *. rewrite Hs2, E3, E4.
  split; [|by rewrite E1, E2]. rewrite filter_cons.
  assert (filter (routed hasher_ sc1 i) ops = filter (routed hasher_ sc i) ops) as ->
    by (apply list_filter_iff; intros; by apply routed_frame).
  destruct (decide _); [|done]. cbn [lru_run]. destruct (lru_step op s) as [r1 s1]. cbn [snd].
  by destruct (lru_run _ s1).
Qed.

Lemma shard_of_key sc k : sharded_inv hasher_ sc -> exists s, shards_ sc !! shard_index hasher_ sc k = Some s.
Proof. intros Hinv. apply lookup_lt_is_Some_2. by apply shard_index_lt. Qed.

Lemma sharded_run_app ops1 ops2 sc :
  snd (run (ops1 ++ ops2) sc) = snd (run ops2 (snd (run ops1 sc))).
Proof.
  revert sc. induction ops1 as [|op ops1 IH]; intros sc; [done|]. cbn.
  destruct (sharded_step hasher_ op sc) as [r sc1]. specialize (IH sc1).
  destruct (run ops1 sc1). destruct (run (ops1 ++ ops2) sc1). done.
Qed.

Lemma sharded_run_inv capacity shard_count sc ops :
  sharded_new capacity shard_count = Some sc -> sharded_inv hasher_ (snd (run ops sc)).
Proof.
  intros Hn. apply (sharded_new_inv hasher_) in Hn as (Hinv & _).
  destruct (lookup_lt_is_Some_2 (shards_ sc) 0) as [s0 Hs0].
  { pose proof (si_count _ _ Hinv). pose proof (si_bit _ _ Hinv) as Hb. unfold has_single_bit in Hb.
    bcases. lia. }
  by destruct (run_projects ops sc 0 s0 Hinv Hs0) as (_ & ? & _).
Qed.

Lemma last_write_filter sc k ops v :
  last_write k (filter (routed hasher_ sc (shard_index hasher_ sc k)) ops) v = last_write k ops v.
Proof.
  revert v. induction ops as [|op ops IH]; intros v; [done|]. rewrite filter_cons.
  unfold last_write in *. destruct (decide _) as [|Hn]; cbn; [apply IH|]. rewrite IH. f_equal.
  destruct op as [k'|k'|k' v'|k'|]; cbn in *; try done; by rewrite decide_False by congruence.
Qed.

(** A lookup that counts as a use returns what a peek returns. *)
Lemma get_peek sc k :
  sharded_inv hasher_ sc -> fst (sharded_get hasher_ k sc) = sharded_peek hasher_ k sc.
Proof.
  intros Hinv. unfold sharded_get, on_shard, sharded_peek, locked_get, locked_peek.
  destruct (shard_of_key sc k Hinv) as [s Hs]. rewrite Hs.
  assert (Hi : lru_inv s) by (destruct (Forall_lookup_1 _ _ _ _ (si_shards _ _ Hinv) Hs); done).
  rewrite lru_peek_refines by done. destruct (lru_get_refines k s Hi) as [E _].
  destruct (lru_get k s) as [p s']. cbn in *. rewrite E. by destruct (alookup k _).
Qed.

(** A value just put is found. *)
Lemma put_peek sc k v :
  sharded_inv hasher_ sc -> sharded_peek hasher_ k (sharded_put hasher_ k v sc) = Some v.
Proof.
  intros Hinv. destruct (shard_of_key sc k Hinv) as [s Hs].
  assert (Hi : lru_inv s) by (by destruct (Forall_lookup_1 _ _ _ _ (si_shards _ _ Hinv) Hs)).
  destruct (sharded_step_shards hasher_ (OpPut k v) sc _ s Hinv Hs) as (Hs' & _ & Hc & _).
  rewrite decide_True in Hs' by done. cbn [sharded_step snd lru_step] in Hs', Hc.
  destruct (put_ptr_refines k (Some v) s Hi) as (_ & Ha & Hi' & _). cbn [snd] in *.
  unfold sharded_peek. rewrite (shard_index_frame sc) by done. rewrite Hs'. unfold locked_peek.
  rewrite lru_peek_refines by done. unfold lru_put. rewrite Ha. unfold spec_put.
  destruct (alookup k (abs (entries_ s))); cbn [alookup]; by rewrite decide_True.
Qed.

(** C17: Sharding is transparent to each shard: under any history, the entries and
    counters of shard [i] are exactly those of a single LRU cache of the per-shard
    capacity that was given only the operations routed to it. *)
Theorem sharded_projects capacity shard_count sc ops i s :
  sharded_new capacity shard_count = Some sc -> shards_ sc !! i = Some s ->
  shards_ (snd (run ops sc)) !! i = Some (snd (lru_run (filter (routed hasher_ sc i) ops) s)) /\
  lru_new (Z.to_nat (capacity / shard_count)) = Some s.
Proof.
  intros Hn Hs. apply (sharded_new_inv hasher_) in Hn as (Hinv & _ & _ & Hf).
  split; [by apply run_projects|]. rewrite Forall_lookup in Hf. by eapply Hf.
Qed.

(** Every entry of every shard holds the value last written under its key. *)
Lemma snapshot_written capacity shard_count sc ops i k p :
  sharded_new capacity shard_count = Some sc ->
  (k, p) ∈ snapshot_shard (snd (run ops sc)) i ->
  shard_index hasher_ (snd (run ops sc)) k = i /\ p = last_write k ops None.
Proof.
  intros Hn. apply (sharded_new_inv hasher_) in Hn as (Hinv & _ & _ & Hf).
  unfold snapshot_shard. destruct (shards_ (snd (run ops sc)) !! i) as [s'|] eqn:Hs'; [|by intros ?%elem_of_nil].
  assert (exists s, shards_ sc !! i = Some s) as [s Hs].
  { destruct (shard_of_key sc k Hinv) as [s0 Hs0].
    destruct (run_projects ops sc _ s0 Hinv Hs0) as (_ & Hinv' & E & _).
    apply lookup_lt_is_Some_2. apply lookup_lt_Some in Hs'.
    pose proof (si_count _ _ Hinv). pose proof (si_count _ _ Hinv'). lia. }
  destruct (run_projects ops sc i s Hinv Hs) as (Hp & Hinv' & E & _). rewrite Hs' in Hp. injection Hp as ->.
  intros Hin. assert (Hi : shard_index hasher_ (snd (run ops sc)) k = i).
  { apply (si_home _ _ Hinv' i _ k Hs'). unfold locked_snapshot, lru_for_each, keys_mru_to_lru in *.
    apply list_elem_of_fmap in Hin as (e & [= -> _] & He). by apply list_elem_of_fmap_2. }
  split; [done|]. rewrite (shard_index_frame sc) in Hi by done. subst i.
  rewrite <- (last_write_filter sc). rewrite Forall_lookup in Hf. specialize (Hf _ _ Hs).
  apply lru_new_inv in Hf as (Hil & _ & He).
  refine (coherent_run _ s (fun _ => None) Hil _ k p Hin). rewrite He. by intros ? ? ?%elem_of_nil.
Qed.

(** A lookup sees what a scan of the shards sees. *)
Lemma peek_snapshot sc k v :
  sharded_inv hasher_ sc ->
  sharded_peek hasher_ k sc = Some v <-> exists i, (k, Some v) ∈ snapshot_shard sc i.
Proof.
  intros Hinv. unfold sharded_peek, snapshot_shard, locked_peek, locked_snapshot.
  destruct (shard_of_key sc k Hinv) as [s Hs]. rewrite Hs.
  assert (Hi : lru_inv s) by (destruct (Forall_lookup_1 _ _ _ _ (si_shards _ _ Hinv) Hs); done).
  rewrite lru_peek_refines by done. change (abs (entries_ s)) with (lru_for_each s). split.
  - destruct (alookup k _) as [p|] eqn:El; [|done]. intros ->. apply alookup_elem in El.
    eexists. by rewrite Hs.
  - intros [i Hin]. destruct (shards_ sc !! i) as [t|] eqn:Ht; [|by apply elem_of_nil in Hin].
    assert (Hk : shard_index hasher_ sc k = i).
    { apply (si_home _ _ Hinv i t k Ht). unfold lru_for_each, keys_mru_to_lru in *.
      apply list_elem_of_fmap in Hin as (e & [= -> _] & He). by apply list_elem_of_fmap_2. }
    subst i. rewrite Hs in Ht. injection Ht as <-.
    by rewrite (alookup_nodup k (Some v) _ (inv_keys_abs s Hi) Hin).
Qed.

(** A lookup in the sharded cache never returns anything but the value last put
    under that key and not erased or cleared since. *)
Theorem sharded_coherent capacity shard_count sc ops k v :
  sharded_new capacity shard_count = Some sc ->
  sharded_peek hasher_ k (snd (run ops sc)) = Some v -> last_write k ops None = Some v.
Proof.
  intros Hn Hp. pose proof (sharded_run_inv capacity shard_count sc ops Hn) as Hinv.
  apply (peek_snapshot _ _ _ Hinv) in Hp as [i Hin].
  by apply (snapshot_written capacity shard_count) in Hin as [_ <-].
Qed.

Lemma fold_add_bound (f : LruCache K V -> nat) l bound acc :
  Forall (fun s => f s <= bound)%nat l ->
  (fold_left (fun total s => total + f s) l acc <= acc + length l * bound)%nat.
Proof.
  intros Hf. revert acc. induction Hf as [|s l Hs _ IH]; intros acc; cbn; [lia|].
  specialize (IH (acc + f s)%nat). lia.
Qed.

(** Under any history every key is stored in its own shard only, and the total
    size stays within the per-shard capacities, hence within the configured one. *)
Theorem sharded_bounded capacity shard_count sc ops :
  sharded_new capacity shard_count = Some sc ->
  let sc' := snd (run ops sc) in
  Z.of_nat (sharded_size sc') <= shard_count * (capacity / shard_count) <= capacity /\
  (forall i s k, shards_ sc' !! i = Some s -> k ∈ keys_mru_to_lru s -> shard_index hasher_ sc' k = i).
Proof.
  intros Hn. apply (sharded_new_inv hasher_) in Hn as (Hinv & <- & <- & _).
  assert (Hpos : 0 < sc_shard_count sc) by (pose proof (si_bit _ _ Hinv) as Hb; unfold has_single_bit in Hb; bcases; lia).
  destruct (lookup_lt_is_Some_2 (shards_ sc) 0) as [s0 Hs0].
  { pose proof (si_count _ _ Hinv). lia. }
  destruct (run_projects ops sc 0 s0 Hinv Hs0) as (_ & Hinv' & E1 & E2).
  cbv zeta. set (sc' := snd (run ops sc)) in *. destruct Hinv' as [_ _ Hc Hsh Hh].
  split; [|done]. rewrite E1, E2 in *. split; [|apply Z.mul_div_le; lia].
  unfold sharded_size.
  pose proof (fold_add_bound lru_size (shards_ sc') (Z.to_nat (sc_capacity sc / sc_shard_count sc)) 0) as Hb.
  assert (0 <= sc_capacity sc / sc_shard_count sc).
  { apply Z.div_pos; [|done]. pose proof (si_room _ _ Hinv). lia. }
  assert (Z.of_nat (fold_left (fun total s => (total + lru_size s)%nat) (shards_ sc') 0%nat)
    <= Z.of_nat (length (shards_ sc') * Z.to_nat (sc_capacity sc / sc_shard_count sc))).
  { apply inj_le. apply Hb. eapply Forall_impl; [exact Hsh|]. intros s [Hi Hcap].
    unfold lru_size. rewrite index_size by done. pose proof (inv_size s Hi). lia. }
  lia.
Qed.
End Properties.

(** Five entries over two shards, keyed by the identity hash of libstdc++. *)
Definition sample_sharded : ShardedCache Z Z :=
  MkSharded 5 2 [MkLru 2 [] ∅ zero_metrics 0; MkLru 2 [] ∅ zero_metrics 0].
Definition sharded_ops : list (LruOp Z Z) :=
  [OpPut 1 10; OpPut 2 20; OpPut 3 30; OpPut 4 40; OpPut 5 50; OpGet 4].

Lemma sharded_projects_witness :
  shards_ (snd (sharded_run id sharded_ops sample_sharded)) !! 1%nat =
  Some (snd (lru_run (filter (routed id sample_sharded 1) sharded_ops) (MkLru 2 [] ∅ zero_metrics 0))).
Proof. by apply (sharded_projects id 5 2 sample_sharded sharded_ops 1). Defined.

Lemma sharded_coherent_witness : last_write 4 sharded_ops None = Some 40.
Proof. apply (sharded_coherent id 5 2 sample_sharded); by vm_compute. Defined.

Lemma sharded_bounded_witness :
  Z.of_nat (sharded_size (snd (sharded_run id sharded_ops sample_sharded))) <= 4.
Proof. apply (sharded_bounded id 5 2 sample_sharded sharded_ops eq_refl). Defined.
