(* ===== verification/CacheMetrics.v ===== *)
(** CacheMetrics: what the counters of the cache count (include/lrd/cache/lru_cache.hpp
    [CacheMetrics], include/lrd/cache/sharded_cache.hpp [metrics]).

    The counters are 64 bits wide and wrap, one set per shard, added up when they are read.
    Shown: after any history the sum over the shards counts, modulo 2^64, exactly the gets
    that returned a value, the gets that did not, and the puts; and insertions less
    evictions and successful erasures is the number of entries. *)
From stdpp Require Import base option list gmap.
From S2P Require Import Prelude StdList LruCache ShardedCache.

(** Equal as 64-bit words. *)
Definition eq64 (x y : Z) : Prop := wrap 64 x = wrap 64 y.

#[global] Instance eq64_equiv : Equivalence eq64.
Proof. unfold eq64. split; [done|by intros x y ->|by intros x y z -> ->]. Qed.
#[global] Instance eq64_add : Proper (eq64 ==> eq64 ==> eq64) Z.add.
Proof.
  intros a a' Ha b b' Hb. unfold eq64 in *. by rewrite <- wrap_add_l, <- wrap_add_r, Ha, Hb, wrap_add_r, wrap_add_l.
Qed.

Lemma eq64_wrap z : eq64 (wrap 64 z) z.
Proof. unfold eq64. by apply wrap_wrap. Qed.
Lemma eq64_eq x y : x = y -> eq64 x y.
Proof. by intros ->. Qed.
Lemma eq64_incr z : eq64 (incr64 z) (z + 1).
Proof. apply eq64_wrap. Qed.

Section Account.
Context {K V : Type} `{Countable K} (hasher_ : K -> Z).
Implicit Types (s : LruCache K V) (sc : ShardedCache K V) (op : LruOp K V) (r : LruRet V).

(** * What an operation is counted as *)

Definition hit op r : Z := match op, r with OpGet _, RetPtr (Some _) => 1 | _, _ => 0 end.
Definition miss op r : Z := match op, r with OpGet _, RetPtr None => 1 | _, _ => 0 end.
Definition stored op r : Z := match op with OpPut _ _ => 1 | _ => 0 end.
Definition erased op r : Z := match op, r with OpErase _, RetBool true => 1 | _, _ => 0 end.

Definition counted (f : LruOp K V -> LruRet V -> Z) (ops : list (LruOp K V)) (rs : list (LruRet V)) : Z :=
  zsum (zip_with f ops rs).

(** No entry holds a null pointer: [put] stores a value it made. *)
Definition no_nulls s : Prop := Forall (fun e => is_Some (e_value e)) (entries_ s).

Lemma no_nulls_abs s : no_nulls s <-> Forall (fun p => is_Some (snd p)) (abs (entries_ s)).
Proof. unfold no_nulls, abs. by rewrite Forall_fmap. Qed.

Lemma alookup_some k (l : list (K * option V)) v : alookup k l = Some v -> (k, v) ∈ l.
Proof.
  induction l as [|[k' v'] l IH]; cbn; [done|]. destruct (decide (k' = k)) as [->|].
  - intros [= ->]. by left.
  - right. auto.
Qed.

Lemma lru_step_no_nulls op s : lru_inv s -> no_nulls s -> no_nulls (snd (lru_step op s)).
Proof.
  rewrite !no_nulls_abs. intros Hinv Hn. destruct (lru_step_refines op s Hinv) as (_ & -> & _ & _).
  assert (Hd : forall k, Forall (fun p => is_Some (snd p)) (adelete k (abs (entries_ s))))
    by (intros k; apply Forall_forall; intros p [_ Hp]%list_elem_of_filter; by eapply Forall_forall in Hn).
  destruct op as [k|k|k v|k|]; cbn [spec_step snd]; try done.
  - destruct (alookup k _) as [v|] eqn:E; [|done]. apply Forall_cons. split; [|done].
    apply alookup_some in E. by eapply Forall_forall in Hn.
  - unfold spec_put. destruct (alookup k _); apply Forall_cons; (split; [by eexists|]); [done|].
    destruct (_ <=? _)%nat; [|done]. apply Forall_forall. intros p Hp%elem_of_removelast. by eapply Forall_forall in Hn.
Qed.

(** * One shard *)

(** [account f d]: every operation but [clear] moves [f] by what [d] counts. *)
Definition account (f : LruCache K V -> Z) (d : LruOp K V -> LruRet V -> Z) : Prop :=
  forall op s, op <> OpClear -> lru_inv s -> no_nulls s ->
    eq64 (f (snd (lru_step op s))) (f s + d op (fst (lru_step op s))).

Lemma get_result k s : lru_inv s -> no_nulls s -> is_Some (fst (lru_get k s)) <-> is_Some (index_ s !! k).
Proof.
  intros Hinv Hn. destruct (lru_get_refines k s Hinv) as (-> & _). destruct (index_ s !! k) as [it|] eqn:E.
  - destruct (index_found _ _ _ Hinv E) as (l1 & e & l2 & Hs & <- & _ & _ & _ & Hk1 & Hk2).
    destruct (abs_found s l1 e l2 Hs Hk1 Hk2) as [-> _]. cbn. split; [by eexists|]. intros _.
    eapply Forall_forall in Hn; [done|]. rewrite Hs. apply elem_of_app. right. by left.
  - rewrite abs_missing by done. cbn. by split; intros [? [=]].
Qed.

(** A get is a hit or a miss, by what it returns. *)
Lemma get_counts k s : lru_inv s -> no_nulls s ->
  metrics_ (snd (lru_get k s)) = if fst (lru_get k s) is Some _ then count_hit (metrics_ s) else count_miss (metrics_ s).
Proof.
  intros Hinv Hn. pose proof (get_result k s Hinv Hn) as Hr.
  destruct (fst (lru_get k s)) eqn:E; unfold lru_get; destruct (index_ s !! k); try done.
  - destruct (proj1 Hr ltac:(by eexists)) as [? [=]].
  - destruct (proj2 Hr ltac:(by eexists)) as [? [=]].
Qed.

Lemma evict_counts s : lru_inv s -> (capacity_ s <=? size (index_ s))%nat = true ->
  metrics_ (evict_lru s) = count_eviction (metrics_ s) /\
  S (length (entries_ (evict_lru s))) = length (entries_ s).
Proof.
  intros Hinv Hfull. apply Nat.leb_le in Hfull. rewrite (index_size s Hinv) in Hfull.
  pose proof (inv_capacity s Hinv) as Hcap. unfold evict_lru. destruct (last (entries_ s)) as [back|] eqn:E.
  - split; [done|]. cbn [entries_]. apply last_removelast in E. apply (f_equal length) in E.
    rewrite length_app in E. cbn in E. lia.
  - apply last_None in E. rewrite E in Hfull. cbn in Hfull. lia.
Qed.

(** The counters after a step. *)
Lemma step_metrics op s : lru_inv s -> no_nulls s ->
  metrics_ (snd (lru_step op s)) =
  match op, fst (lru_step op s) with
  | OpGet _, RetPtr (Some _) => count_hit (metrics_ s)
  | OpGet _, _ => count_miss (metrics_ s)
  | OpPut k _, _ =>
      if index_ s !! k is Some _ then count_update (metrics_ s)
      else count_insertion (if (capacity_ s <=? size (index_ s))%nat then count_eviction (metrics_ s) else metrics_ s)
  | _, _ => metrics_ s
  end.
Proof.
  intros Hinv Hn. destruct op as [k|k|k v|k|]; cbn [lru_step fst snd]; try done.
  - pose proof (get_counts k s Hinv Hn) as E. destruct (lru_get k s) as [[v|] s']; exact E.
  - unfold lru_put, put_ptr. destruct (index_ s !! k); [done|]. cbn [metrics_]. f_equal.
    destruct (_ <=? _)%nat eqn:E; [|done]. by destruct (evict_counts s Hinv E).
  - unfold lru_erase. by destruct (index_ s !! k).
Qed.

(** The entries after a step. *)
Lemma step_length op s : lru_inv s -> op <> OpClear ->
  Z.of_nat (length (entries_ (snd (lru_step op s)))) =
  match op, fst (lru_step op s) with
  | OpPut k _, _ =>
      Z.of_nat (length (entries_ s)) +
      (if index_ s !! k is Some _ then 0 else if (capacity_ s <=? size (index_ s))%nat then 0 else 1)
  | OpErase _, RetBool true => Z.of_nat (length (entries_ s)) - 1
  | _, _ => Z.of_nat (length (entries_ s))
  end.
Proof.
  intros Hinv Hc. destruct op as [k|k|k v|k|]; cbn [lru_step fst snd]; try done.
  - unfold lru_get. destruct (index_ s !! k) as [it|] eqn:E; [|done].
    destruct (index_found _ _ _ Hinv E) as (l1 & e & l2 & Hs & _ & Hit & Hn1 & Hn2 & _).
    cbn [snd entries_]. unfold splice_front. rewrite Hs, extract_split by done. cbn. rewrite !length_app. cbn. lia.
  - unfold lru_put, put_ptr. destruct (index_ s !! k) as [it|] eqn:E.
    + destruct (index_found _ _ _ Hinv E) as (l1 & e & l2 & Hs & _ & Hit & Hn1 & Hn2 & _).
      cbn [entries_]. unfold splice_front. rewrite Hs, assign_value_split, extract_split by done. cbn.
      rewrite !length_app. cbn. lia.
    + cbn [entries_ length]. destruct (_ <=? _)%nat eqn:F; [|lia]. destruct (evict_counts s Hinv F). lia.
  - unfold lru_erase. destruct (index_ s !! k) as [it|] eqn:E; [|done].
    destruct (index_found _ _ _ Hinv E) as (l1 & e & l2 & Hs & _ & Hit & Hn1 & Hn2 & _).
    cbn [fst snd entries_]. unfold list_erase. rewrite Hs, extract_split by done. cbn. rewrite !length_app. cbn. lia.
Qed.

Lemma account_hits : account (fun s => m_hits (metrics_ s)) hit.
Proof.
  intros op s _ Hinv Hn. cbn beta. rewrite step_metrics by done.
  destruct op as [k|k|k v|k|]; cbn [hit]; rewrite ?Z.add_0_r; try done.
  - destruct (fst _) as [[v|]| |]; cbn; rewrite ?Z.add_0_r; try done. apply eq64_incr.
  - destruct (index_ s !! k); [done|]. by destruct (_ <=? _)%nat.
Qed.

Lemma account_misses : account (fun s => m_misses (metrics_ s)) miss.
Proof.
  intros op s _ Hinv Hn. cbn beta. rewrite step_metrics by done.
  destruct op as [k|k|k v|k|]; cbn [miss]; rewrite ?Z.add_0_r; try done.
  - cbn [lru_step]. destruct (lru_get k s) as [[v|] s']; cbn; rewrite ?Z.add_0_r; try done. apply eq64_incr.
  - destruct (index_ s !! k); [done|]. by destruct (_ <=? _)%nat.
Qed.

Lemma account_puts : account (fun s => m_insertions (metrics_ s) + m_updates (metrics_ s)) stored.
Proof.
  intros op s _ Hinv Hn. cbn beta. rewrite !step_metrics by done.
  destruct op as [k|k|k v|k|]; cbn [stored]; rewrite ?Z.add_0_r; try done.
  - by destruct (fst _) as [[v|]| |].
  - assert (E : forall a b, eq64 (incr64 a + b) (a + b + 1) /\ eq64 (a + incr64 b) (a + b + 1)).
    { intros a b. rewrite !eq64_incr. split; apply eq64_eq; lia. }
    destruct (index_ s !! k); [apply E|]. destruct (_ <=? _)%nat; apply E.
Qed.

Lemma account_size :
  account (fun s => Z.of_nat (length (entries_ s)) + m_evictions (metrics_ s) + - m_insertions (metrics_ s))
    (fun op r => - erased op r).
Proof.
  intros op s Hc Hinv Hn. cbn beta. rewrite !step_metrics, step_length by done.
  assert (N : forall a b, eq64 a b -> eq64 (- a) (- b)).
  { intros a b E. unfold eq64, wrap in *. rewrite <- !Z.sub_0_l, Zminus_mod, E, <- Zminus_mod. done. }
  destruct op as [k|k|k v|k|]; cbn [erased]; rewrite ?Z.add_0_r; try done.
  - by destruct (fst _) as [[v|]| |].
  - pose proof (eq64_incr (m_evictions (metrics_ s))). pose proof (N _ _ (eq64_incr (m_insertions (metrics_ s)))).
    destruct (index_ s !! k); [by rewrite Z.add_0_r|]. destruct (_ <=? _)%nat; cbn.
    + rewrite H0, H1. apply eq64_eq. lia.
    + rewrite H1. apply eq64_eq. lia.
  - destruct (fst _) as [?|[|]|]; apply eq64_eq; lia.
Qed.

(** * All shards *)

Definition shard_sum (f : LruCache K V -> Z) sc : Z := zsum (map f (shards_ sc)).

(** A step changes one shard. *)
Lemma sharded_step_sum (f : LruCache K V -> Z) d op sc :
  account f d -> op <> OpClear -> sharded_inv hasher_ sc -> Forall no_nulls (shards_ sc) ->
  eq64 (shard_sum f (snd (sharded_step hasher_ op sc))) (shard_sum f sc + d op (fst (sharded_step hasher_ op sc))) /\
  Forall no_nulls (shards_ (snd (sharded_step hasher_ op sc))).
Proof.
  intros Hf Hc Hinv Hn.
  assert (Hk : exists k, forall i, routed hasher_ sc i op <-> shard_index hasher_ sc k = i) by (destruct op as [k|k|k v|k|]; [by exists k..|done]).
  destruct Hk as [k Hk]. destruct (shard_of_key hasher_ sc k Hinv) as [s Hs].
  pose proof (si_shards _ _ Hinv) as Hsh. destruct (proj1 (Forall_lookup _ _) Hsh _ _ Hs) as [Hlru _].
  pose proof (proj1 (Forall_lookup _ _) Hn _ _ Hs) as Hns.
  assert (E : shards_ (snd (sharded_step hasher_ op sc)) =
    <[shard_index hasher_ sc k := snd (lru_step op s)]> (shards_ sc)).
  { apply list_eq. intros j. destruct (shards_ sc !! j) as [t|] eqn:Ht.
    - destruct (sharded_step_shards hasher_ op sc j t Hinv Ht) as (-> & _).
      destruct (decide (routed hasher_ sc j op)) as [Hr|Hr]; rewrite Hk in Hr.
      + subst j. rewrite Hs in Ht. injection Ht as <-. rewrite list_lookup_insert_eq; [done|by eapply lookup_lt_Some].
      + by rewrite list_lookup_insert_ne.
    - apply lookup_ge_None in Ht. destruct (sharded_step_shards hasher_ op sc _ s Hinv Hs) as (_ & _ & _ & _ & El).
      rewrite !lookup_ge_None_2; [done|by rewrite length_insert|by rewrite El]. }
  split; [|rewrite E; apply Forall_insert; [done|by apply lru_step_no_nulls]].
  destruct (sharded_step_shards hasher_ op sc _ s Hinv Hs) as (_ & Hret & _).
  rewrite (Hret (proj2 (Hk _) eq_refl) Hc). unfold shard_sum. rewrite E, (zsum_insert f _ _ s) by done.
  rewrite (Hf op s Hc Hlru Hns). apply eq64_eq. lia.
Qed.

Lemma sharded_run_sum (f : LruCache K V -> Z) d ops : account f d -> OpClear ∉ ops -> forall sc,
  sharded_inv hasher_ sc -> Forall no_nulls (shards_ sc) ->
  eq64 (shard_sum f (snd (sharded_run hasher_ ops sc)))
    (shard_sum f sc + counted d ops (fst (sharded_run hasher_ ops sc))).
Proof.
  intros Hf. induction ops as [|op ops IH]; intros Hc sc Hinv Hn; cbn [sharded_run].
  { cbn. by rewrite Z.add_0_r. }
  apply not_elem_of_cons in Hc as [Hop Hc].
  destruct (sharded_step_sum f d op sc Hf (not_eq_sym Hop) Hinv Hn) as [Hs Hn1].
  pose proof (sharded_step_inv hasher_ op sc Hinv) as Hinv1.
  destruct (sharded_step hasher_ op sc) as [r sc1]. cbn [fst snd] in *. specialize (IH Hc sc1 Hinv1 Hn1).
  destruct (sharded_run hasher_ ops sc1) as [rs sc2]. cbn [fst snd] in *. rewrite IH, Hs.
  apply eq64_eq. unfold counted. cbn. lia.
Qed.

(** Each field of the published metrics is the sum over the shards. *)
Lemma metrics_sum (p : CacheMetrics -> Z) sc :
  (forall t m, eq64 (p (add_metrics t m)) (p t + p m)) -> p zero_metrics = 0 ->
  eq64 (p (sharded_metrics sc)) (shard_sum (fun s => p (metrics_ s)) sc).
Proof.
  intros Hp H0. unfold sharded_metrics, shard_sum.
  assert (E : forall l t, eq64 (p (fold_left (fun total s => add_metrics total (metrics_ s)) l t))
    (p t + zsum (map (fun s : LruCache K V => p (metrics_ s)) l))).
  { induction l as [|s l IH]; intros t; cbn; [by rewrite Z.add_0_r|]. rewrite IH, Hp. apply eq64_eq. lia. }
  rewrite E, H0. by rewrite Z.add_0_l.
Qed.

Lemma add_metrics_fields t m :
  eq64 (m_hits (add_metrics t m)) (m_hits t + m_hits m) /\
  eq64 (m_misses (add_metrics t m)) (m_misses t + m_misses m) /\
  eq64 (m_insertions (add_metrics t m)) (m_insertions t + m_insertions m) /\
  eq64 (m_updates (add_metrics t m)) (m_updates t + m_updates m) /\
  eq64 (m_evictions (add_metrics t m)) (m_evictions t + m_evictions m).
Proof. split_and!; apply eq64_wrap. Qed.

Lemma fresh_sums capacity shard_count sc :
  sharded_new capacity shard_count = Some sc ->
  sharded_inv hasher_ sc /\ Forall no_nulls (shards_ sc) /\
  forall f : LruCache K V -> Z, (forall s, metrics_ s = zero_metrics -> entries_ s = [] -> f s = 0) -> shard_sum f sc = 0.
Proof.
  intros Hnew. destruct (sharded_new_inv hasher_ _ _ _ Hnew) as (Hinv & _ & _ & Hf). split; [done|].
  assert (Hs : Forall (fun s => metrics_ s = zero_metrics /\ entries_ s = []) (shards_ sc)).
  { eapply Forall_impl; [exact Hf|]. cbn beta. intros s Hs. unfold lru_new in Hs.
    destruct (_ =? 0)%nat; [done|]. by injection Hs as <-. }
  split.
  - eapply Forall_impl; [exact Hs|]. cbn beta. intros s [_ E]. unfold no_nulls. rewrite E. constructor.
  - intros f H0. unfold shard_sum. clear -Hs H0. induction Hs as [|s l [Hm He] _ IH]; [done|]. cbn.
    by rewrite (H0 s Hm He), IH.
Qed.

Lemma size_sum sc : sharded_inv hasher_ sc ->
  Z.of_nat (sharded_size sc) = shard_sum (fun s => Z.of_nat (length (entries_ s))) sc.
Proof.
  intros Hinv. pose proof (si_shards _ _ Hinv) as Hs. unfold sharded_size, shard_sum.
  assert (E : forall l n, Forall (fun s : LruCache K V => lru_inv s) l ->
    Z.of_nat (fold_left (fun total s => (total + lru_size s)%nat) l n) =
    Z.of_nat n + zsum (map (fun s => Z.of_nat (length (entries_ s))) l)).
  { induction l as [|s l IH]; intros n Hl; cbn; [lia|]. apply Forall_cons_1 in Hl as [Hi Hl].
    rewrite IH by done. unfold lru_size. rewrite index_size by done. lia. }
  rewrite E; [lia|]. eapply Forall_impl; [exact Hs|]. by intros s [? _].
Qed.

Lemma shard_sum_add (f g : LruCache K V -> Z) sc :
  shard_sum (fun s => f s + g s) sc = shard_sum f sc + shard_sum g sc.
Proof. apply zsum_add. Qed.
Lemma shard_sum_opp (f : LruCache K V -> Z) sc : shard_sum (fun s => - f s) sc = - shard_sum f sc.
Proof. apply zsum_opp. Qed.

(** The sums of a run from a fresh cache. *)
Lemma fresh_run_sum (f : LruCache K V -> Z) d capacity shard_count sc ops :
  account f d -> (forall s, metrics_ s = zero_metrics -> entries_ s = [] -> f s = 0) ->
  sharded_new capacity shard_count = Some sc -> OpClear ∉ ops ->
  eq64 (shard_sum f (snd (sharded_run hasher_ ops sc))) (counted d ops (fst (sharded_run hasher_ ops sc))).
Proof.
  intros Hf H0 Hnew Hc. destruct (fresh_sums _ _ _ Hnew) as (Hinv & Hn & Hz).
  rewrite (sharded_run_sum f d ops Hf Hc sc Hinv Hn), (Hz f H0). by rewrite Z.add_0_l.
Qed.

Lemma counted_opp d ops (rs : list (LruRet V)) : counted (fun op r => - d op r) ops rs = - counted d ops rs.
Proof. unfold counted. revert rs. induction ops as [|op ops IH]; intros [|r rs]; cbn; try done. rewrite IH. lia. Qed.

(** What the counters count; [cache_metrics_account] below. *)
Lemma metrics_counted capacity shard_count sc ops :
  sharded_new capacity shard_count = Some sc -> OpClear ∉ ops ->
  let '(rs, sc') := sharded_run hasher_ ops sc in let m := sharded_metrics sc' in
  eq64 (m_hits m) (counted hit ops rs) /\ eq64 (m_misses m) (counted miss ops rs) /\
  eq64 (m_insertions m + m_updates m) (counted stored ops rs) /\
  eq64 (m_insertions m) (Z.of_nat (sharded_size sc') + m_evictions m + counted erased ops rs).
Proof.
  intros Hnew Hc.
  assert (R : forall f d, account f d -> (forall s, metrics_ s = zero_metrics -> entries_ s = [] -> f s = 0) ->
    eq64 (shard_sum f (snd (sharded_run hasher_ ops sc))) (counted d ops (fst (sharded_run hasher_ ops sc))))
    by (intros f d Hf H0; by eapply fresh_run_sum).
  pose proof (R _ _ account_hits ltac:(cbn; by intros s -> _)) as Hh.
  pose proof (R _ _ account_misses ltac:(cbn; by intros s -> _)) as Hm.
  pose proof (R _ _ account_puts ltac:(cbn; by intros s -> _)) as Hp.
  pose proof (R _ _ account_size ltac:(cbn; by intros s -> ->)) as Hs. clear R.
  pose proof (sharded_run_inv hasher_ _ _ _ ops Hnew) as Hinv.
  destruct (sharded_run hasher_ ops sc) as [rs sc'] eqn:E. cbn [fst snd] in *.
  assert (F : forall p, (forall t m, eq64 (p (add_metrics t m)) (p t + p m)) -> p zero_metrics = 0 ->
    eq64 (p (sharded_metrics sc')) (shard_sum (fun s => p (metrics_ s)) sc')) by (intros p; apply metrics_sum).
  pose proof (F m_hits (fun t m => proj1 (add_metrics_fields t m)) eq_refl) as F1.
  pose proof (F m_misses (fun t m => proj1 (proj2 (add_metrics_fields t m))) eq_refl) as F2.
  pose proof (F m_insertions (fun t m => proj1 (proj2 (proj2 (add_metrics_fields t m)))) eq_refl) as F3.
  pose proof (F m_updates (fun t m => proj1 (proj2 (proj2 (proj2 (add_metrics_fields t m))))) eq_refl) as F4.
  pose proof (F m_evictions (fun t m => proj2 (proj2 (proj2 (proj2 (add_metrics_fields t m))))) eq_refl) as F5.
  rewrite F1, F2, F3, F4, F5, size_sum by done. split_and!.
  - exact Hh.
  - exact Hm.
  - by rewrite <- shard_sum_add.
  - rewrite !shard_sum_add, shard_sum_opp, counted_opp in Hs.
    pose proof (eq64_add _ _ Hs (shard_sum (fun s => m_insertions (metrics_ s)) sc' + counted erased ops rs) _ eq_refl) as G.
    etransitivity; [|etransitivity; [symmetry; exact G|]]; apply eq64_eq; lia.
Qed.
(** * Main theorem *)

End Account.

(** * Witness *)

Definition metrics_ops : list (LruOp Z Z) :=
  [OpPut 1 10; OpPut 2 20; OpPut 1 11; OpPut 3 30; OpGet 1; OpGet 2; OpErase 3; OpErase 9; OpGet 7].

