(* ===== verification/ExposureStore.v ===== *)
(** The policy engine (include/lrd/policy/policy.hpp,
    include/lrd/policy/exposure_store.hpp, src/policy/exposure_store.cpp):
    lifetime exposure caps and sliding-window frequency limits, in sharded counters.

    [reserve], [check] and [forget] hold the shard's mutex throughout and are atomic
    steps; a run of concurrent threads is a sequence of them ([policy_run]). The
    statistics are relaxed atomic counters that no decision reads. *)
From Stdlib Require Import Sorted.
From stdpp Require Import base option list gmap.
From S2P Require Import Prelude HashMix StdList Binary64 Rounding Item.

(** * Data *)

Record PolicyConfig := MkPolicyConfig {
  exposure_cap : Z;            (** [uint64_t]; 0 disables *)
  frequency_limit : Z;         (** [uint32_t]; 0 disables *)
  frequency_window : Z;        (** milliseconds, signed *)
  max_tracked_items : Z;
  fail_open_when_full : bool
}.

Inductive PolicyDecision := Allowed | ExposureCapReached | FrequencyLimited | StoreFull.

#[global] Instance PolicyDecision_eq_dec : EqDecision PolicyDecision.
Proof. solve_decision. Defined.

Definition decision_to_string (decision : PolicyDecision) : bstring :=
  str (match decision with
  | Allowed => "Allowed"
  | ExposureCapReached => "ExposureCapReached"
  | FrequencyLimited => "FrequencyLimited"
  | StoreFull => "StoreFull"
  end)%string.

Record PolicyMetrics := MkPolicyMetrics {
  pm_allowed : Z; pm_exposure_blocked : Z; pm_frequency_blocked : Z;
  pm_store_full_blocked : Z; pm_evicted : Z; pm_tracked : Z
}.

Record Counters := MkCounters {
  lifetime_shows : Z;          (** [uint64_t] *)
  window_index : Z;            (** [uint64_t] *)
  current : Z;                 (** [uint32_t] *)
  previous : Z                 (** [uint32_t] *)
}.

Definition default_counters : Counters := MkCounters 0 0 0 0.

Record RecencyNode := MkRecency { r_node : nat; r_id : ItemId }.

Record Shard := MkShard {
  s_entries : gmap Z Counters;
  recency : list RecencyNode;            (** front = most recent *)
  recency_index : gmap Z nat;
  s_next : nat                           (** identities not yet used *)
}.

Definition empty_shard : Shard := MkShard ∅ [] ∅ 0.

Record ExposureStore := MkStore {
  config_ : PolicyConfig;
  shard_count_ : Z;
  per_shard_capacity_ : Z;
  p_shards : list Shard;
  p_metrics : PolicyMetrics              (** the atomics; [pm_tracked] is computed *)
}.

(** * Construction *)

(** [None] is [std::invalid_argument]. *)
Definition exposure_new (config : PolicyConfig) (shard_count : Z) : option ExposureStore :=
  if (shard_count =? 0) || negb (has_single_bit shard_count) then None
  else if max_tracked_items config <? shard_count then None
  else Some (MkStore config shard_count (max_tracked_items config / shard_count)
               (replicate (Z.to_nat shard_count) empty_shard) (MkPolicyMetrics 0 0 0 0 0 0)).

Definition shard_for (st : ExposureStore) (id : ItemId) : nat :=
  Z.to_nat (shard_mask (shard_count_ st) id).

(** * The frequency window *)

Definition to_millis (now : Timestamp) : Z := to_u64 (to_epoch_millis now).

Section Config.
Variable config : PolicyConfig.

Definition window_ms : Z := to_u64 (frequency_window config).

(** [previous * (1 - elapsed / window) + current], in [double]. *)
Definition window_estimate (prev cur now_ms : Z) : double :=
  let elapsed := double_of_Z (now_ms mod window_ms) in
  let weight := d_sub d1 (d_div elapsed (double_of_Z window_ms)) in
  d_add (d_mul (double_of_Z prev) weight) (double_of_Z cur).

Definition estimate_without_advancing (entry : Counters) (now_ms : Z) : double :=
  if window_ms =? 0 then d0
  else
    let index := now_ms / window_ms in
    let '(cur, prev) :=
      if index =? wrap 64 (window_index entry + 1) then (0, current entry)
      else if negb (index =? window_index entry) then (0, 0)
      else (current entry, previous entry) in
    window_estimate prev cur now_ms.

(** The roll-forward [advance_and_estimate] performs on the entry. *)
Definition advance (entry : Counters) (now_ms : Z) : Counters :=
  let index := now_ms / window_ms in
  if index =? wrap 64 (window_index entry + 1) then
    MkCounters (lifetime_shows entry) index 0 (current entry)
  else if negb (index =? window_index entry) then
    MkCounters (lifetime_shows entry) index 0 0
  else entry.

Definition advance_and_estimate (entry : Counters) (now_ms : Z) : double * Counters :=
  if window_ms =? 0 then (d0, entry)
  else
    let entry := advance entry now_ms in
    (window_estimate (previous entry) (current entry) now_ms, entry).

(** [estimate + 1.0 > static_cast<double>(config_.frequency_limit)]. *)
Definition over_limit (estimate : double) : bool :=
  d_gtb (d_add estimate d1) (double_of_Z (frequency_limit config)).

Definition cap_reached (entry : Counters) : bool :=
  (0 <? exposure_cap config) && (exposure_cap config <=? lifetime_shows entry).

(** * Recency *)

Definition touch_recency (shard : Shard) (id : ItemId) : Shard :=
  if negb (fail_open_when_full config) then shard
  else
    match recency_index shard !! id with
    | Some it =>
        MkShard (s_entries shard) (splice_front r_node it (recency shard))
          (recency_index shard) (s_next shard)
    | None =>
        MkShard (s_entries shard) (MkRecency (s_next shard) id :: recency shard)
          (<[id := s_next shard]> (recency_index shard)) (S (s_next shard))
    end.

(** [None] is [return false]. *)
Definition evict_one (shard : Shard) : option Shard :=
  match last (recency shard) with
  | None => None
  | Some victim =>
      Some (MkShard (delete (r_id victim) (s_entries shard)) (removelast (recency shard))
              (delete (r_id victim) (recency_index shard)) (s_next shard))
  end.

(** * One shard's share of reserve, check and forget *)

(** The entry a first reservation creates. *)
Definition fresh_counters (now_ms : Z) : Counters :=
  MkCounters 0 (if 0 <? frequency_window config then now_ms / to_u64 (frequency_window config) else 0)
    0 0.

Definition put_entry (shard : Shard) (id : ItemId) (entry : Counters) : Shard :=
  MkShard (<[id := entry]> (s_entries shard)) (recency shard) (recency_index shard) (s_next shard).

(** The part of [reserve] after the entry has been found or created. *)
Definition reserve_entry (shard : Shard) (id : ItemId) (entry : Counters) (now_ms : Z)
    : PolicyDecision * Shard :=
  if cap_reached entry then (ExposureCapReached, put_entry shard id entry)
  else
    let show (e : Counters) :=
      (Allowed, touch_recency (put_entry shard id
        (MkCounters (wrap 64 (lifetime_shows e + 1)) (window_index e) (current e) (previous e))) id) in
    if 0 <? frequency_limit config then
      let '(estimate, entry) := advance_and_estimate entry now_ms in
      if over_limit estimate then (FrequencyLimited, put_entry shard id entry)
      else show (MkCounters (lifetime_shows entry) (window_index entry)
                   (wrap 32 (current entry + 1)) (previous entry))
    else show entry.

(** The result also says whether counters were evicted. *)
Definition reserve_shard (capacity : Z) (shard : Shard) (id : ItemId) (now_ms : Z)
    : PolicyDecision * Shard * bool :=
  match s_entries shard !! id with
  | Some entry => (reserve_entry shard id entry now_ms, false)
  | None =>
      if capacity <=? Z.of_nat (size (s_entries shard)) then
        (if negb (fail_open_when_full config) then (StoreFull, shard, false)
         else match evict_one shard with
              | None => (StoreFull, shard, false)
              | Some shard => (reserve_entry shard id (fresh_counters now_ms) now_ms, true)
              end)
      else (reserve_entry shard id (fresh_counters now_ms) now_ms, false)
  end.

Definition check_shard (capacity : Z) (shard : Shard) (id : ItemId) (now_ms : Z) : PolicyDecision :=
  match s_entries shard !! id with
  | None =>
      if (capacity <=? Z.of_nat (size (s_entries shard))) && negb (fail_open_when_full config)
      then StoreFull else Allowed
  | Some entry =>
      if cap_reached entry then ExposureCapReached
      else if (0 <? frequency_limit config) && over_limit (estimate_without_advancing entry now_ms)
      then FrequencyLimited
      else Allowed
  end.

Definition forget_shard (shard : Shard) (id : ItemId) : Shard :=
  match recency_index shard !! id with
  | Some it =>
      MkShard (delete id (s_entries shard)) (list_erase r_node it (recency shard))
        (delete id (recency_index shard)) (s_next shard)
  | None =>
      MkShard (delete id (s_entries shard)) (recency shard) (recency_index shard) (s_next shard)
  end.
End Config.

(** * The store *)

(** The statistics [reserve] updates: one of the four outcomes, and evictions. *)
Definition count_decision (d : PolicyDecision) (evicted : bool) (m : PolicyMetrics) : PolicyMetrics :=
  let add (hit : bool) (x : Z) := if hit then wrap 64 (x + 1) else x in
  MkPolicyMetrics
    (add (bool_decide (d = Allowed)) (pm_allowed m))
    (add (bool_decide (d = ExposureCapReached)) (pm_exposure_blocked m))
    (add (bool_decide (d = FrequencyLimited)) (pm_frequency_blocked m))
    (add (bool_decide (d = StoreFull)) (pm_store_full_blocked m))
    (add evicted (pm_evicted m)) (pm_tracked m).

Definition with_shard (st : ExposureStore) (i : nat) (shard : Shard) (m : PolicyMetrics)
    : ExposureStore :=
  MkStore (config_ st) (shard_count_ st) (per_shard_capacity_ st) (<[i := shard]> (p_shards st)) m.

Definition reserve (id : ItemId) (now : Timestamp) (st : ExposureStore)
    : PolicyDecision * ExposureStore :=
  let i := shard_for st id in
  match p_shards st !! i with
  | None => (StoreFull, st)
  | Some shard =>
      let '(d, shard, evicted) :=
        reserve_shard (config_ st) (per_shard_capacity_ st) shard id (to_millis now) in
      (d, with_shard st i shard (count_decision d evicted (p_metrics st)))
  end.

Definition check (id : ItemId) (now : Timestamp) (st : ExposureStore) : PolicyDecision :=
  match p_shards st !! shard_for st id with
  | None => StoreFull
  | Some shard => check_shard (config_ st) (per_shard_capacity_ st) shard id (to_millis now)
  end.

Definition forget (id : ItemId) (st : ExposureStore) : ExposureStore :=
  let i := shard_for st id in
  match p_shards st !! i with
  | None => st
  | Some shard => with_shard st i (forget_shard shard id) (p_metrics st)
  end.

Definition clear_store (st : ExposureStore) : ExposureStore :=
  MkStore (config_ st) (shard_count_ st) (per_shard_capacity_ st)
    (map (fun s => MkShard ∅ [] ∅ (s_next s)) (p_shards st)) (p_metrics st).

Definition tracked (st : ExposureStore) : Z :=
  fold_left (fun total s => total + Z.of_nat (size (s_entries s))) (p_shards st) 0.

Definition policy_metrics (st : ExposureStore) : PolicyMetrics :=
  let m := p_metrics st in
  MkPolicyMetrics (pm_allowed m) (pm_exposure_blocked m) (pm_frequency_blocked m)
    (pm_store_full_blocked m) (pm_evicted m) (tracked st).

(** * Histories *)

Inductive PolicyOp :=
  | PReserve (id : ItemId) (now : Timestamp)
  | PCheck (id : ItemId) (now : Timestamp)
  | PForget (id : ItemId)
  | PClear.

Definition policy_step (op : PolicyOp) (st : ExposureStore) : option PolicyDecision * ExposureStore :=
  match op with
  | PReserve id now => let '(d, st) := reserve id now st in (Some d, st)
  | PCheck id now => (Some (check id now st), st)
  | PForget id => (None, forget id st)
  | PClear => (None, clear_store st)
  end.

Fixpoint policy_run (ops : list PolicyOp) (st : ExposureStore)
    : list (option PolicyDecision) * ExposureStore :=
  match ops with
  | [] => ([], st)
  | op :: ops =>
      let '(r, st) := policy_step op st in
      let '(rs, st) := policy_run ops st in (r :: rs, st)
  end.

(** The shows of [id] a history grants. *)
Definition is_show (id : ItemId) (op : PolicyOp) (r : option PolicyDecision) : bool :=
  match op with
  | PReserve id' _ => bool_decide (id' = id) && bool_decide (r = Some Allowed)
  | _ => false
  end.
Fixpoint shows (id : ItemId) (ops : list PolicyOp) (rs : list (option PolicyDecision)) : Z :=
  match ops, rs with
  | op :: ops, r :: rs => (if is_show id op r then 1 else 0) + shows id ops rs
  | _, _ => 0
  end.

(** * The window arithmetic *)

(** Configurations the arithmetic is proved for: the C++ types' ranges, and a window
    that is zero (no limit) or representable exactly. *)
Record config_ok (c : PolicyConfig) : Prop := {
  ok_cap : fits 64 (exposure_cap c);
  ok_limit : fits 32 (frequency_limit c);
  ok_window : 0 <= frequency_window c < 2 ^ 53
}.

Lemma at_most_finite x v : at_most x v -> forall s, x <> SpecFloat.S754_infinity s.
Proof. by destruct x. Qed.

Lemma at_most_trans x u v : at_most x u -> u <= v -> at_most x v.
Proof. destruct x; cbn; try done; lia. Qed.

Lemma at_least_trans x u v : at_least v x -> u <= v -> at_least u x.
Proof. destruct x; cbn; try done; lia. Qed.

Lemma at_least_at_most x u v : at_least u x -> at_most x v -> u <= v.
Proof. destruct x; cbn; try done; lia. Qed.

Lemma scale_int_mono a b : a < b <-> scale a 0 < scale b 0.
Proof. unfold scale. apply Z.mul_lt_mono_pos_r, Z.pow_pos_nonneg; lia. Qed.

Section Window.
Context (config : PolicyConfig) (Hok : config_ok config).
#[local] Abbreviation W := (window_ms config) (only parsing).

Lemma window_ms_exact : W = frequency_window config.
Proof.
  unfold window_ms, to_u64. apply wrap_small. destruct Hok as [_ _ Hw]. unfold fits. lia.
Qed.

(** The decaying weight of the previous window. *)
Lemma weight_unit now :
  0 < W ->
  let w := sf (d_sub d1 (d_div (double_of_Z (now mod W)) (double_of_Z W))) in
  valid w /\ nonneg w /\ (forall s, w <> SpecFloat.S754_infinity s).
Proof.
  intros Hpos. pose proof window_ms_exact as Hw. destruct Hok as [_ _ Hr]. cbv zeta.
  pose proof (Z.mod_pos_bound now W Hpos) as Hm.
  destruct (double_of_Z_exact (now mod W)) as (V1 & N1 & _ & U1); [lia|].
  destruct (double_of_Z_exact W) as (V2 & N2 & L2 & U2); [lia|].
  assert (H1 : 0 < scale W 0) by (apply scale_pos; lia).
  assert (H2 : at_most (sf (double_of_Z (now mod W))) (scale W 0 - 1)).
  { eapply at_most_trans; [exact U1|]. pose proof (scale_int_mono (now mod W) W). lia. }
  destruct (div_unit _ _ (scale W 0) N1 V1 V2 N2 H1 H2 L2 (at_most_finite _ _ U2)) as (V3 & N3 & U3).
  unfold d_sub, d_div. rewrite (sf_of_sf (SpecFloat.SFdiv _ _ _ _)) by exact V3.
  destruct (one_minus_unit _ V3 N3 U3) as (V4 & N4 & I4). rewrite sf_of_sf by exact V4.
  exact (conj V4 (conj N4 I4)).
Qed.

(** Admitting one more show at an estimate that passes keeps the current window's
    own count within the limit. *)
Lemma estimate_bounds_current prev cur now :
  0 < W -> 0 <= prev < 2 ^ 32 -> 0 <= cur < 2 ^ 32 ->
  over_limit config (window_estimate config prev cur now) = false ->
  cur + 1 <= frequency_limit config.
Proof.
  intros Hpos Hp Hc. unfold over_limit, d_gtb, d_ltb, window_estimate.
  destruct (weight_unit now Hpos) as (V4 & N4 & I4). set (w := d_sub d1 _) in *.
  destruct (double_of_Z_exact prev) as (V5 & N5 & _ & U5); [lia|].
  destruct (double_of_Z_exact cur) as (V6 & N6 & L6 & _); [lia|].
  destruct (mul_nonneg _ _ N5 N4 V5 V4 (at_most_finite _ _ U5) I4) as (V7 & N7).
  unfold d_add at 1 2, d_mul. rewrite (sf_of_sf (SpecFloat.SFmul _ _ _ _)) by exact V7.
  destruct (add_nonneg _ _ N7 N6 V7 V6) as (V8 & N8 & L8).
  rewrite (sf_of_sf (SpecFloat.SFadd _ _ _ (sf (double_of_Z cur)))) by exact V8.
  destruct exact_one as (V1 & N1 & L1 & _).
  destruct (add_nonneg _ _ N8 N1 V8 V1) as (V9 & N9 & L9).
  rewrite sf_of_sf by exact V9. intros Hlt.
  destruct Hok as [_ Hlim _]. unfold fits in Hlim.
  destruct (double_of_Z_exact (frequency_limit config)) as (Vl & Nl & _ & Ul); [lia|].
  assert (L8' : at_least (scale cur 0) (SpecFloat.SFadd prec emax
    (SpecFloat.SFmul prec emax (sf (double_of_Z prev)) (sf w)) (sf (double_of_Z cur)))).
  { apply (L8 cur 0 0 (scale cur 0)); [lia|lia|lia| |lia| |exact L6].
    - apply scale_nonneg. lia.
    - clear -N7 V7. destruct (SpecFloat.SFmul _ _ _ _); cbn in *; try done.
      pose proof (canonical_low _ _ V7). pose proof (scale_pos (Zpos m) e). lia. }
  apply Z.nlt_ge. rewrite scale_int_mono. apply Z.nlt_ge. eapply at_least_at_most; [|exact Ul].
  eapply ltb_false_le; [exact Vl|exact V9|exact Nl|exact N9|exact Hlt|].
  apply (L9 (cur + 1) 0 (scale cur 0) (scale 1 0)); [lia|lia| | |by rewrite scale_add|exact L8'|exact L1].
  - apply scale_nonneg. lia.
  - apply Z.lt_le_incl, scale_pos; lia.
Qed.

(** A first show always passes. *)
Lemma first_show_passes now :
  0 < frequency_limit config -> over_limit config (window_estimate config 0 0 now) = false \/ W <= 0.
Proof.
  intros Hl. destruct (Z.le_gt_cases W 0) as [|Hpos]; [by right|left].
  unfold over_limit, d_gtb, d_ltb, window_estimate.
  destruct (weight_unit now Hpos) as (V4 & N4 & I4). set (w := d_sub d1 _) in *.
  assert (E : d_add (d_add (d_mul (double_of_Z 0) w) (double_of_Z 0)) d1 = d1).
  { assert (exists s, sf (d_mul (double_of_Z 0) w) = SpecFloat.S754_zero s) as [sz Hm].
    { unfold d_mul. change (sf (double_of_Z 0)) with (SpecFloat.S754_zero false).
      destruct (sf w) as [s|s| |s m e]; cbn in N4; try done; [|by destruct (I4 s)|].
      - exists s. by destruct s.
      - exists s. by destruct s. }
    assert (d_add (d_mul (double_of_Z 0) w) (double_of_Z 0) = d0) as -> by
      (unfold d_add; rewrite Hm; by destruct sz).
    vm_compute. reflexivity. }
  rewrite E. destruct exact_one as (V1 & N1 & _ & U1). destruct Hok as [_ Hlim _]. unfold fits in Hlim.
  destruct (double_of_Z_exact (frequency_limit config)) as (Vl & Nl & Ll & _); [lia|].
  apply (le_ltb_false _ _ (scale 1 0) Vl V1 Nl N1 U1). eapply at_least_trans; [exact Ll|].
  apply scale_mono. lia.
Qed.
End Window.

(** * Entries *)

Record counters_ok (e : Counters) : Prop := {
  co_lifetime : fits 64 (lifetime_shows e);
  co_window : fits 64 (window_index e);
  co_current : fits 32 (current e);
  co_previous : fits 32 (previous e)
}.

Lemma wrap_succ_ne w z : 0 < w -> fits w z -> wrap w (z + 1) <> z.
Proof.
  intros Hw [H0 H1]. unfold wrap. destruct (Z.eq_dec (z + 1) (2 ^ w)) as [E|E].
  - assert (1 < 2 ^ w) by (apply Z.pow_gt_1; lia). rewrite E, Z.mod_same by lia. lia.
  - rewrite Z.mod_small by lia. lia.
Qed.

Lemma touch_recency_entries config sh id : s_entries (touch_recency config sh id) = s_entries sh.
Proof. unfold touch_recency. destruct (fail_open_when_full config); [|done]. by destruct (_ !! id). Qed.

Section Entries.
Context (config : PolicyConfig) (Hok : config_ok config).
#[local] Abbreviation W := (window_ms config) (only parsing).

(** Rolling forward keeps the count of the window it lands in. *)
Lemma advance_current e now :
  counters_ok e ->
  window_index (advance config e now) = now / W /\
  lifetime_shows (advance config e now) = lifetime_shows e /\
  current (advance config e now) = (if now / W =? window_index e then current e else 0).
Proof.
  intros [_ Hw _ _]. unfold advance. pose proof (wrap_succ_ne 64 (window_index e) ltac:(lia) Hw) as Hne.
  destruct (Z.eqb_spec (now / W) (wrap 64 (window_index e + 1))) as [E|E].
  - cbn. rewrite (proj2 (Z.eqb_neq _ _)) by congruence. done.
  - destruct (Z.eqb_spec (now / W) (window_index e)) as [E'|E']; done.
Qed.

Lemma advance_ok e now : counters_ok e -> fits 64 now -> 0 < W -> counters_ok (advance config e now).
Proof.
  intros He Hn Hw. unfold advance.
  assert (Hi : fits 64 (now / W)).
  { unfold fits in *. split; [apply Z.div_pos; lia|]. apply Z.div_lt_upper_bound; nia. }
  destruct He as [H1 H2 H3 H4].
  destruct (_ =? wrap _ _); [by split|]. destruct (_ =? window_index e); by split.
Qed.

Lemma fresh_ok now : fits 64 now -> counters_ok (fresh_counters config now).
Proof.
  intros Hn. pose proof window_ms_exact config Hok as Hw. unfold window_ms in Hw.
  split; cbn; try done. destruct (0 <? frequency_window config) eqn:E; [|done]. bcases.
  rewrite Hw. unfold fits in *. split; [apply Z.div_pos; lia|]. apply Z.div_lt_upper_bound; nia.
Qed.

(** [check]'s read-only estimate is the one [reserve] computes. *)
Lemma estimates_agree e now :
  estimate_without_advancing config e now = fst (advance_and_estimate config e now).
Proof.
  unfold estimate_without_advancing, advance_and_estimate, advance.
  destruct (W =? 0); [done|]. destruct (now / W =? wrap 64 (window_index e + 1)); [done|].
  by destruct (now / W =? window_index e).
Qed.

Lemma estimate_ok e now :
  counters_ok e -> fits 64 now -> counters_ok (snd (advance_and_estimate config e now)).
Proof.
  intros He Hn. unfold advance_and_estimate. destruct (Z.eqb_spec W 0); [done|].
  apply advance_ok; try done. pose proof (to_u64_fits (frequency_window config)) as Hf.
  unfold fits in Hf. fold W in Hf. lia.
Qed.

(** The first show of a new entry passes every limit. *)
Lemma over_limit_fresh now :
  fits 64 now -> 0 < frequency_limit config ->
  over_limit config (fst (advance_and_estimate config (fresh_counters config now) now)) = false.
Proof.
  intros Hn Hl. rewrite <- estimates_agree. unfold estimate_without_advancing.
  pose proof (window_ms_exact config Hok) as HW. destruct Hok as [_ Hlim Hwin].
  destruct (Z.eqb_spec W 0) as [E|E].
  - unfold over_limit, d_gtb, d_ltb. change (d_add d0 d1) with d1.
    destruct exact_one as (V1 & N1 & _ & U1). unfold fits in Hlim.
    destruct (double_of_Z_exact (frequency_limit config)) as (Vl & Nl & Ll & _); [lia|].
    apply (le_ltb_false _ _ (scale 1 0) Vl V1 Nl N1 U1). eapply at_least_trans; [exact Ll|].
    apply scale_mono. lia.
  - assert (Hi : window_index (fresh_counters config now) = now / W).
    { cbn. rewrite (proj2 (Z.ltb_lt _ _)) by lia. done. }
    pose proof (fresh_ok now Hn) as [_ Hwi _ _]. rewrite Hi in *.
    rewrite (proj2 (Z.eqb_neq _ _)) by (apply not_eq_sym, wrap_succ_ne; (lia || done)).
    rewrite Z.eqb_refl. cbn [negb current previous fresh_counters].
    destruct (first_show_passes config Hok now Hl) as [|Hneg]; [done|lia].
Qed.
End Entries.

(** * One shard *)

Section ShardLemmas.
Context (config : PolicyConfig).

(** The counters of an item, absent ones counting as never shown. *)
Definition lifetime_in (sh : Shard) (id : ItemId) : Z :=
  match s_entries sh !! id with Some e => lifetime_shows e | None => 0 end.

Lemma advance_lifetime e now :
  lifetime_shows (snd (advance_and_estimate config e now)) = lifetime_shows e.
Proof.
  unfold advance_and_estimate, advance. destruct (_ =? 0); [done|]. cbn.
  destruct (_ =? wrap _ _); [done|]. by destruct (negb _).
Qed.

(** What [reserve_entry] does to the table, on every branch. *)
Lemma reserve_entry_table sh id e now d sh' :
  reserve_entry config sh id e now = (d, sh') ->
  exists e', s_entries sh' = <[id := e']> (s_entries sh) /\ d <> StoreFull /\
    lifetime_shows e' = (if decide (d = Allowed) then wrap 64 (lifetime_shows e + 1)
                         else lifetime_shows e) /\
    (d = Allowed -> cap_reached config e = false).
Proof.
  unfold reserve_entry. destruct (cap_reached config e).
  { intros [= <- <-]. by exists e. }
  destruct (0 <? frequency_limit config).
  - pose proof (advance_lifetime e now) as Hl.
    destruct (advance_and_estimate config e now) as [est e1]. cbn [snd] in Hl.
    destruct (over_limit config est); intros [= <- <-].
    + by exists e1.
    + rewrite touch_recency_entries. eexists. split; [done|]. cbn. by rewrite Hl.
  - intros [= <- <-]. rewrite touch_recency_entries. by eexists.
Qed.

(** In fail-closed mode a reservation touches the item's own entry only. *)
Lemma reserve_shard_closed capacity sh id now d sh' ev :
  fail_open_when_full config = false ->
  reserve_shard config capacity sh id now = (d, sh', ev) ->
  (forall id', id' <> id -> s_entries sh' !! id' = s_entries sh !! id') /\
  lifetime_in sh' id = (if decide (d = Allowed) then wrap 64 (lifetime_in sh id + 1)
                        else lifetime_in sh id) /\
  (d = Allowed -> 0 < exposure_cap config -> lifetime_in sh id < exposure_cap config).
Proof.
  intros Hclosed E. unfold reserve_shard, lifetime_in in *. rewrite Hclosed in E. cbn [negb] in E.
  assert (Hcase : (d = StoreFull /\ sh' = sh) \/
    exists e, reserve_entry config sh id e now = (d, sh') /\
      lifetime_shows e = match s_entries sh !! id with Some e => lifetime_shows e | None => 0 end).
  { destruct (s_entries sh !! id) as [e|].
    - injection E as <- <-. right. exists e. split; [by destruct (reserve_entry _ _ _ _ _)|done].
    - destruct (capacity <=? _).
      + injection E as <- <- <-. by left.
      + injection E as <- <-. right. exists (fresh_counters config now).
        split; [by destruct (reserve_entry _ _ _ _ _)|done]. }
  destruct Hcase as [[-> ->]|(e & He & Hl)]; [done|].
  apply reserve_entry_table in He as (e' & Ht & _ & Hl' & Hcap). rewrite Ht, <- Hl. split_and!.
  - intros id' Hne. by rewrite lookup_insert_ne.
  - by rewrite lookup_insert_eq.
  - intros Hd Hpos. specialize (Hcap Hd). unfold cap_reached in Hcap.
    rewrite (proj2 (Z.ltb_lt _ _)) in Hcap by done. cbn in Hcap. bcases. done.
Qed.

Lemma forget_shard_entries sh id : s_entries (forget_shard sh id) = delete id (s_entries sh).
Proof. unfold forget_shard. by destruct (_ !! id). Qed.
End ShardLemmas.

(** * The store *)

Record store_wf (st : ExposureStore) : Prop := {
  wf_bit : has_single_bit (shard_count_ st) = true;
  wf_count : Z.of_nat (length (p_shards st)) = shard_count_ st
}.

(** What every operation leaves alone. *)
Definition same_frame (st st' : ExposureStore) : Prop :=
  config_ st' = config_ st /\ shard_count_ st' = shard_count_ st /\
  per_shard_capacity_ st' = per_shard_capacity_ st /\
  length (p_shards st') = length (p_shards st).

Lemma shard_of_id st id : store_wf st -> exists sh, p_shards st !! shard_for st id = Some sh.
Proof.
  intros [Hb Hc]. apply lookup_lt_is_Some_2. unfold shard_for.
  pose proof (shard_mask_range _ id Hb). lia.
Qed.

Lemma exposure_new_wf config n st :
  exposure_new config n = Some st ->
  store_wf st /\ config_ st = config /\ shard_count_ st = n /\ n <= max_tracked_items config /\
  per_shard_capacity_ st = max_tracked_items config / n /\
  forall i sh, p_shards st !! i = Some sh -> sh = empty_shard.
Proof.
  unfold exposure_new. destruct (_ || _) eqn:E; [done|]. destruct (_ <? _) eqn:E2; [done|].
  intros [= <-]. bcases. assert (0 < n) by (unfold has_single_bit in *; bcases; lia).
  split_and!; try done.
  - split; [done|]. cbn. rewrite length_replicate. lia.
  - intros i sh Hi. cbn in Hi. by apply lookup_replicate in Hi as [-> _].
Qed.

Lemma frame_wf st st' : store_wf st -> same_frame st st' -> store_wf st'.
Proof. intros [Hb Hc] (_ & E & _ & El). split; by rewrite ?E, ?El. Qed.

Lemma step_frame op st : same_frame st (snd (policy_step op st)).
Proof.
  destruct op as [id now|id now|id|]; cbn.
  - unfold reserve. destruct (p_shards st !! _) as [sh|]; [|done].
    destruct (reserve_shard _ _ _ _ _) as [[d sh'] ev]. by split_and!; [..|cbn; rewrite length_insert].
  - done.
  - unfold forget. destruct (p_shards st !! _) as [sh|]; [|done].
    by split_and!; [..|cbn; rewrite length_insert].
  - by split_and!; [..|cbn; rewrite length_map].
Qed.

Lemma frame_shard_for st st' id : same_frame st st' -> shard_for st' id = shard_for st id.
Proof. intros (_ & E & _). unfold shard_for. by rewrite E. Qed.

(** The recorded shows of an item. *)
Definition lifetime_of (st : ExposureStore) (id : ItemId) : Z :=
  match p_shards st !! shard_for st id with Some sh => lifetime_in sh id | None => 0 end.

(** The entry under which an item's counters are kept. *)
Definition entry_of (st : ExposureStore) (id : ItemId) : option Counters :=
  match p_shards st !! shard_for st id with Some sh => s_entries sh !! id | None => None end.

Lemma lifetime_of_entry st id :
  lifetime_of st id = match entry_of st id with Some e => lifetime_shows e | None => 0 end.
Proof. unfold lifetime_of, entry_of, lifetime_in. by destruct (p_shards st !! _). Qed.

(** An operation on the shard of [id] that leaves other keys' entries alone. *)
Lemma with_shard_other st id id' sh sh' m :
  store_wf st -> p_shards st !! shard_for st id = Some sh -> id' <> id ->
  (forall k, k <> id -> s_entries sh' !! k = s_entries sh !! k) ->
  entry_of (with_shard st (shard_for st id) sh' m) id' = entry_of st id'.
Proof.
  intros Hwf Hs Hne Hother. unfold entry_of, shard_for in *. cbn.
  set (i := Z.to_nat (shard_mask (shard_count_ st) id)) in *.
  set (j := Z.to_nat (shard_mask (shard_count_ st) id')).
  destruct (decide (i = j)) as [<-|Hij].
  - rewrite list_lookup_insert_eq by (by eapply lookup_lt_Some). rewrite Hs. by apply Hother.
  - by rewrite list_lookup_insert_ne.
Qed.

Lemma with_shard_own st id sh' m :
  store_wf st ->
  entry_of (with_shard st (shard_for st id) sh' m) id = s_entries sh' !! id.
Proof.
  intros Hwf. destruct (shard_of_id st id Hwf) as [sh Hs].
  unfold entry_of. change (shard_for (with_shard _ _ _ _) id) with (shard_for st id). cbn.
  by rewrite list_lookup_insert_eq by (by eapply lookup_lt_Some).
Qed.

(** In fail-closed mode, one step against the recorded shows of [id]. *)
Lemma step_lifetime op st id :
  store_wf st -> fail_open_when_full (config_ st) = false ->
  match op with PForget id' => id' <> id | PClear => False | _ => True end ->
  let '(r, st') := policy_step op st in
  lifetime_of st' id = (if is_show id op r then wrap 64 (lifetime_of st id + 1) else lifetime_of st id) /\
  (is_show id op r = true -> 0 < exposure_cap (config_ st) ->
   lifetime_of st id < exposure_cap (config_ st)).
Proof.
  intros Hwf Hc Hreset. destruct op as [id' now|id' now|id'|]; cbn [policy_step is_show]; try done.
  - unfold reserve. destruct (shard_of_id st id' Hwf) as [sh Hs]. rewrite Hs.
    destruct (reserve_shard _ _ _ _ _) as [[d sh'] ev] eqn:E.
    apply reserve_shard_closed in E as (Hother & Hown & Hcap); [|done].
    rewrite !lifetime_of_entry. destruct (decide (id' = id)) as [->|Hne].
    + rewrite with_shard_own by done. unfold lifetime_in in *. unfold entry_of. rewrite Hs.
      rewrite bool_decide_true by done. cbn [andb]. rewrite Hown.
      destruct (decide (d = Allowed)) as [->|Hd].
      * rewrite bool_decide_true by done. split; [done|]. intros _. by apply Hcap.
      * rewrite bool_decide_false by congruence. done.
    + rewrite (bool_decide_false (id' = id)) by done. cbn [andb].
      by rewrite (with_shard_other st id' id sh sh' _ Hwf Hs (not_eq_sym Hne) Hother).
  - split; [|done]. unfold forget. destruct (shard_of_id st id' Hwf) as [sh Hs]. rewrite Hs.
    rewrite !lifetime_of_entry.
    rewrite (with_shard_other st id' id sh (forget_shard sh id') _ Hwf Hs (not_eq_sym Hreset)); [done|].
    intros k Hk. by rewrite forget_shard_entries, lookup_delete_ne.
Qed.

Definition resets (id : ItemId) (op : PolicyOp) : Prop :=
  match op with PForget id' => id' = id | PClear => True | _ => False end.

Lemma shows_bounded ops st id n :
  store_wf st -> fail_open_when_full (config_ st) = false ->
  fits 64 (exposure_cap (config_ st)) -> 0 < exposure_cap (config_ st) ->
  Forall (fun op => ~ resets id op) ops ->
  lifetime_of st id = n -> 0 <= n <= exposure_cap (config_ st) ->
  n + shows id ops (fst (policy_run ops st)) <= exposure_cap (config_ st) /\
  lifetime_of (snd (policy_run ops st)) id = n + shows id ops (fst (policy_run ops st)).
Proof.
  revert st n. induction ops as [|op ops IH]; intros st n Hwf Hc Hcf Hcap Hr Hl Hn.
  { cbn. lia. }
  apply Forall_cons_1 in Hr as [Hr Hrs]. pose proof (step_frame op st) as Hfr.
  pose proof (step_lifetime op st id Hwf Hc) as Hs. cbn [policy_run].
  destruct (policy_step op st) as [r st1]. cbn [snd] in Hfr.
  destruct Hs as [Hl1 Hlt].
  { by destruct op. }
  pose proof (frame_wf _ _ Hwf Hfr) as Hwf1. destruct Hfr as (Ec & _). rewrite Hl in *.
  assert (Hn1 : lifetime_of st1 id = n + (if is_show id op r then 1 else 0) /\
                n + (if is_show id op r then 1 else 0) <= exposure_cap (config_ st)).
  { destruct (is_show id op r); [|lia]. specialize (Hlt eq_refl Hcap). rewrite Hl1.
    unfold fits in Hcf. rewrite wrap_small by (unfold fits; lia). lia. }
  destruct Hn1 as [Hn1 Hle].
  destruct (IH st1 _ Hwf1 ltac:(by rewrite Ec) ltac:(by rewrite Ec) ltac:(by rewrite Ec) Hrs Hn1)
    as [IH1 IH2].
  { rewrite Ec. destruct (is_show id op r); lia. }
  rewrite Ec in IH1. destruct (policy_run ops st1) as [rs st2]. cbn [fst snd shows] in *. lia.
Qed.

(** * Shows per window *)

Section Windows.
Context (config : PolicyConfig) (Hok : config_ok config).
Context (Hlimit : 0 < frequency_limit config) (Hwindow : 0 < frequency_window config).
#[local] Abbreviation W := (window_ms config) (only parsing).

Lemma window_pos : 0 < W.
Proof. by rewrite window_ms_exact. Qed.

(** How an entry's current window moves through one reservation. *)
Definition window_moves (e e' : Counters) (now : Z) (d : PolicyDecision) : Prop :=
  (d <> Allowed /\ e' = e) \/
  (window_index e' = now / W /\
   current e' = (if now / W =? window_index e then current e else 0)
                + (if decide (d = Allowed) then 1 else 0) /\
   (d = Allowed -> current e' <= frequency_limit config)).

Lemma reserve_entry_window sh id e now d sh' :
  counters_ok e -> fits 64 now -> reserve_entry config sh id e now = (d, sh') ->
  exists e', s_entries sh' !! id = Some e' /\ counters_ok e' /\ window_moves e e' now d.
Proof.
  intros He Hn. unfold reserve_entry. destruct (cap_reached config e).
  { intros [= <- <-]. exists e. split; [apply lookup_insert_eq|]. split; [done|by left]. }
  rewrite (proj2 (Z.ltb_lt _ _)) by done. unfold advance_and_estimate.
  pose proof window_pos as Hw. rewrite (proj2 (Z.eqb_neq _ _)) by lia.
  pose proof (advance_ok config e now He Hn Hw) as Ho.
  destruct (advance_current config e now He) as (Hi & _ & Hc).
  set (e1 := advance config e now) in *.
  destruct (over_limit config _) eqn:Hover; intros [= <- <-].
  - exists e1. split; [apply lookup_insert_eq|]. split; [done|]. right.
    split_and!; [done| |done]. rewrite Hc, decide_False by done. lia.
  - rewrite touch_recency_entries. eexists. split; [apply lookup_insert_eq|].
    destruct Ho as [O1 O2 O3 O4]. unfold fits in O1, O3, O4.
    pose proof (estimate_bounds_current config Hok _ _ now Hw O4 O3 Hover) as Hb.
    pose proof (ok_limit _ Hok) as Hlim. unfold fits in Hlim.
    cbn [lifetime_shows window_index current previous].
    assert (Hwr : wrap 32 (current e1 + 1) = current e1 + 1) by (apply wrap_small; unfold fits; lia).
    rewrite Hwr. split; [split; cbn; try done; [by apply wrap_fits|unfold fits; lia]|].
    right. cbn. split_and!; [done| |lia]. by rewrite Hc, decide_True.
Qed.

(** [cnt k] shows of the item fell in window [k] so far; reservations from now on
    are at window [T] or later. *)
Definition window_inv (st : ExposureStore) (id : ItemId) (T : Z) (cnt : Z -> Z) : Prop :=
  (forall k, 0 <= cnt k <= frequency_limit config) /\
  match entry_of st id with
  | None => forall k, cnt k = 0
  | Some e => counters_ok e /\ window_index e <= T /\ cnt (window_index e) = current e /\
              forall k, window_index e < k -> cnt k = 0
  end.

Lemma window_inv_entry st st' id T T' cnt :
  entry_of st' id = entry_of st id -> T <= T' -> window_inv st id T cnt -> window_inv st' id T' cnt.
Proof.
  unfold window_inv. intros -> HT [H1 H2]. split; [done|]. destruct (entry_of st id); [|done].
  destruct H2 as (? & ? & ? & ?). split_and!; (done || lia).
Qed.

Lemma not_shown d (P : Prop) `{Decision P} :
  d <> Allowed -> (if decide (d = Allowed /\ P) then 1 else 0) = 0.
Proof. intros Hd. rewrite decide_False; [done|]. by intros [? _]. Qed.

(** The counting argument for one reservation of the item itself. *)
Lemma window_inv_moves st st' id T cnt e e' now d :
  window_inv st id T cnt -> T <= now / W ->
  match entry_of st id with
  | Some e0 => e = e0 | None => counters_ok e /\ window_index e = now / W /\ current e = 0 end ->
  entry_of st' id = Some e' -> counters_ok e' -> window_moves e e' now d ->
  window_inv st' id (now / W) (fun k => cnt k + (if decide (d = Allowed /\ k = now / W) then 1 else 0)).
Proof.
  intros [Hb Hi] HT He Ee' Hok' Hm.
  assert (Hcur : counters_ok e /\ window_index e <= now / W /\ cnt (window_index e) = current e /\
    forall k, window_index e < k -> cnt k = 0).
  { destruct (entry_of st id) as [e0|].
    - subst e0. destruct Hi as (? & ? & ? & ?). split_and!; (done || lia).
    - destruct He as (? & -> & ->). split_and!; (done || lia || by intros). }
  clear He Hi. destruct Hcur as (Hoe & Hle & Hc & Hz).
  destruct Hm as [[Hd ->]|(Hwi & Hcu & Hlim)].
  { split; [intros k; rewrite not_shown by done; specialize (Hb k); lia|].
    rewrite Ee', not_shown by done. split_and!; [done|done|lia|].
    intros k Hk. by rewrite not_shown, Hz by done. }
  assert (Hci : cnt (now / W) = if now / W =? window_index e then current e else 0).
  { destruct (Z.eqb_spec (now / W) (window_index e)) as [->|]; [done|]. apply Hz. lia. }
  assert (Hadd : cnt (now / W) + (if decide (d = Allowed /\ now / W = now / W) then 1 else 0) = current e').
  { rewrite Hci, Hcu. f_equal. destruct (decide (d = Allowed)) as [Hd|Hd].
    - by rewrite decide_True.
    - by rewrite not_shown. }
  split.
  - intros k. destruct (decide (d = Allowed /\ k = now / W)) as [[Hd ->]|Hn].
    + specialize (Hlim Hd). rewrite decide_True in Hadd by done. specialize (Hb (now / W)). lia.
    + specialize (Hb k). lia.
  - rewrite Ee'. rewrite Hwi. split_and!; [done|lia|done|].
    intros k Hk. rewrite decide_False by lia. rewrite Hz by lia. done.
Qed.

Definition reserve_times (id : ItemId) (ops : list PolicyOp) : list Z :=
  concat (map (fun op => match op with
    | PReserve id' now => if decide (id' = id) then [to_millis now] else []
    | _ => [] end) ops).

(** The shows of [id] granted at times that fall in window [k]. *)
Fixpoint window_shows (id k : Z) (ops : list PolicyOp) (rs : list (option PolicyDecision)) : Z :=
  match ops, rs with
  | op :: ops, r :: rs =>
      (match op with
       | PReserve _ now => if is_show id op r && (to_millis now / W =? k) then 1 else 0
       | _ => 0
       end) + window_shows id k ops rs
  | _, _ => 0
  end.

Lemma reserve_window st id now :
  store_wf st -> config_ st = config -> fail_open_when_full config = false ->
  let '(d, st') := reserve id now st in
  forall T cnt, window_inv st id T cnt -> T <= to_millis now / W ->
  window_inv st' id (to_millis now / W)
    (fun k => cnt k + (if decide (d = Allowed /\ k = to_millis now / W) then 1 else 0)).
Proof.
  intros Hwf Hcf Hc. unfold reserve. destruct (shard_of_id st id Hwf) as [sh Hs]. rewrite Hs, Hcf.
  pose proof (to_u64_fits (to_epoch_millis now)) as Hn. fold (to_millis now) in Hn.
  destruct (reserve_shard _ _ _ _ _) as [[d sh'] ev] eqn:E. intros T cnt Hinv HT.
  assert (Eo : entry_of st id = s_entries sh !! id) by (unfold entry_of; by rewrite Hs).
  unfold reserve_shard in E. rewrite Hc in E. cbn [negb] in E.
  assert (Hfull : d = StoreFull -> sh' = sh -> s_entries sh !! id = None ->
    window_inv (with_shard st (shard_for st id) sh' (count_decision d ev (p_metrics st))) id
      (to_millis now / W)
      (fun k => cnt k + (if decide (d = Allowed /\ k = to_millis now / W) then 1 else 0))).
  { intros -> -> Hno.
    assert (Hsame : entry_of (with_shard st (shard_for st id) sh
      (count_decision StoreFull ev (p_metrics st))) id = entry_of st id)
      by (by rewrite with_shard_own, Eo).
    destruct (window_inv_entry _ _ _ _ _ _ Hsame HT Hinv) as [H1 H2]. split.
    - intros k. rewrite not_shown by done. specialize (H1 k). lia.
    - rewrite with_shard_own, Hno in * by done. intros k. by rewrite not_shown, H2. }
  assert (Hgo : forall e, counters_ok e -> reserve_entry config sh id e (to_millis now) = (d, sh') ->
    match entry_of st id with
    | Some e0 => e = e0 | None => counters_ok e /\ window_index e = to_millis now / W /\ current e = 0 end ->
    window_inv (with_shard st (shard_for st id) sh' (count_decision d ev (p_metrics st))) id
      (to_millis now / W)
      (fun k => cnt k + (if decide (d = Allowed /\ k = to_millis now / W) then 1 else 0))).
  { intros e He Hre Hm. apply reserve_entry_window in Hre as (e' & Hl & Hoe' & Hmv); [|done..].
    eapply window_inv_moves; try done. by rewrite with_shard_own. }
  destruct (s_entries sh !! id) as [e|] eqn:Ee.
  - injection E as E <-. apply (Hgo e); [|done|by rewrite Eo].
    destruct Hinv as [_ Hinv]. rewrite Eo in Hinv. apply Hinv.
  - destruct (_ <=? _).
    + injection E as <- <- <-. by apply Hfull.
    + injection E as E <-. apply (Hgo (fresh_counters config (to_millis now))).
      * by apply fresh_ok.
      * done.
      * rewrite Eo. split; [by apply fresh_ok|]. cbn. rewrite (proj2 (Z.ltb_lt _ _)) by done. done.
Qed.
End Windows.

Section WindowRuns.
Context (config : PolicyConfig) (Hok : config_ok config).
Context (Hlimit : 0 < frequency_limit config) (Hwindow : 0 < frequency_window config).
#[local] Abbreviation W := (window_ms config) (only parsing).

(** An operation that is not a reservation of [id], nor a reset of it, leaves its
    entry alone in fail-closed mode. *)
Lemma step_other op st id :
  store_wf st -> fail_open_when_full (config_ st) = false -> ~ resets id op ->
  (forall now, op <> PReserve id now) -> entry_of (snd (policy_step op st)) id = entry_of st id.
Proof.
  intros Hwf Hc Hr Hno. destruct op as [id' now|id' now|id'|]; cbn; try done.
  - assert (Hne : id' <> id) by (intros ->; by apply (Hno now)).
    unfold reserve. destruct (shard_of_id st id' Hwf) as [sh Hs]. rewrite Hs.
    destruct (reserve_shard _ _ _ _ _) as [[d sh'] ev] eqn:E.
    apply reserve_shard_closed in E as (Hother & _ & _); [|done]. cbn.
    by rewrite (with_shard_other st id' id sh sh' _ Hwf Hs (not_eq_sym Hne) Hother).
  - cbn in Hr. unfold forget. destruct (shard_of_id st id' Hwf) as [sh Hs]. rewrite Hs.
    rewrite (with_shard_other st id' id sh (forget_shard sh id') _ Hwf Hs (not_eq_sym Hr)); [done|].
    intros k Hk. by rewrite forget_shard_entries, lookup_delete_ne.
Qed.

Lemma reserve_of_cases id op :
  (exists now, op = PReserve id now) \/ (forall now, op <> PReserve id now).
Proof.
  destruct op as [id' now|id' now|id'|]; try (by right). destruct (decide (id' = id)) as [->|Hne].
  - left. by exists now.
  - right. intros now' [=]. congruence.
Qed.

Lemma windows_bounded ops st id T cnt :
  store_wf st -> config_ st = config -> fail_open_when_full config = false ->
  Forall (fun op => ~ resets id op) ops ->
  StronglySorted Z.le (T :: map (fun t => t / W) (reserve_times id ops)) ->
  window_inv config st id T cnt ->
  forall k, cnt k + window_shows config id k ops (fst (policy_run ops st)) <= frequency_limit config.
Proof.
  revert st T cnt. induction ops as [|op ops IH]; intros st T cnt Hwf Hcf Hc Hr Hsort Hinv k.
  { destruct Hinv as [Hb _]. specialize (Hb k). cbn. lia. }
  apply Forall_cons_1 in Hr as [Hr Hrs]. pose proof (step_frame op st) as Hfr.
  pose proof (frame_wf _ _ Hwf Hfr) as Hwf1. destruct Hfr as (Ec & _). rewrite Hcf in Ec.
  cbn [policy_run].
  destruct (reserve_of_cases id op) as [[now ->]|Hnr].
  - pose proof (reserve_window config Hok Hlimit Hwindow st id now Hwf Hcf Hc) as Hs.
    cbn [policy_step] in *. destruct (reserve id now st) as [d st1]. cbn [snd] in *.
    unfold reserve_times in Hsort. cbn in Hsort. rewrite decide_True in Hsort by done.
    cbn in Hsort. apply StronglySorted_inv in Hsort as [Hsort Hle].
    apply Forall_cons_1 in Hle as [Hle _].
    specialize (IH st1 _ _ Hwf1 Ec Hc Hrs Hsort (Hs T cnt Hinv Hle) k).
    destruct (policy_run ops st1) as [rs st2]. cbn [fst window_shows is_show] in *.
    rewrite bool_decide_true by done. cbn [andb].
    destruct (decide (d = Allowed)) as [->|Hd].
    + rewrite bool_decide_true by done. cbn [andb].
      destruct (Z.eqb_spec (to_millis now / W) k) as [<-|Hk].
      * rewrite decide_True in IH by done. lia.
      * rewrite decide_False in IH by (intros [_ ?]; congruence). lia.
    + rewrite bool_decide_false by congruence. rewrite not_shown in IH by done. cbn. lia.
  - pose proof (step_other op st id Hwf ltac:(by rewrite Hcf) Hr Hnr) as He.
    destruct (policy_step op st) as [r st1] eqn:Est. cbn [snd] in *.
    assert (Ht : reserve_times id (op :: ops) = reserve_times id ops /\ is_show id op r = false).
    { unfold reserve_times. cbn. destruct op as [id' now|id' now|id'|]; try done.
      assert (id' <> id) by (intros ->; by apply (Hnr now)).
      rewrite decide_False by done. split; [done|]. cbn [is_show]. by rewrite bool_decide_false. }
    destruct Ht as [Ht Hsh]. rewrite Ht in Hsort.
    specialize (IH st1 T cnt Hwf1 Ec Hc Hrs Hsort).
    specialize (IH (window_inv_entry _ _ _ _ _ _ _ He (Z.le_refl T) Hinv) k).
    destruct (policy_run ops st1) as [rs st2]. cbn [fst window_shows] in *. rewrite Hsh.
    destruct op; cbn; lia.
Qed.
End WindowRuns.

(** * Capacity and recency *)

Section Capacity.
Context (config : PolicyConfig) (Hok : config_ok config) (capacity : Z) (Hcap : 1 <= capacity).

(** The invariant of one shard. In fail-open mode the recency list holds exactly the
    tracked items, so there is always one to evict; in fail-closed mode it is empty. *)
Record shard_ok (sh : Shard) : Prop := {
  so_size : Z.of_nat (size (s_entries sh)) <= capacity;
  so_counters : forall id e, s_entries sh !! id = Some e -> counters_ok e;
  so_indexed : indexed r_id r_node (recency sh) (recency_index sh) (s_next sh);
  so_cover : if fail_open_when_full config
             then forall id, is_Some (s_entries sh !! id) <-> id ∈ map r_id (recency sh)
             else recency sh = []
}.

Lemma empty_shard_ok next : shard_ok (MkShard ∅ [] ∅ next).
Proof.
  split; cbn.
  - rewrite map_size_empty. lia.
  - done.
  - apply indexed_nil.
  - destruct (fail_open_when_full config); [|done]. intros id. rewrite lookup_empty.
    split; [by intros []|by intros ?%elem_of_nil].
Qed.

(** Writing an entry that passes every range check, with room for it. *)
Lemma put_entry_ok sh id e :
  shard_ok sh -> counters_ok e -> is_Some (s_entries sh !! id) -> shard_ok (put_entry sh id e).
Proof.
  intros [H1 H2 H3 H4] He Hs. split; cbn; try done.
  - destruct Hs as [e0 Hs]. by rewrite map_size_insert_Some by eauto.
  - intros id' e'. destruct (decide (id = id')) as [<-|Hne].
    + rewrite lookup_insert_eq. by intros [= <-].
    + rewrite lookup_insert_ne by done. apply H2.
  - destruct (fail_open_when_full config); [|done]. intros id'. rewrite <- H4.
    destruct (decide (id = id')) as [<-|Hne]; [|by rewrite lookup_insert_ne].
    rewrite lookup_insert_eq. split; by intros.
Qed.

(** Writing an entry and touching its recency, whether or not it is new. *)
Lemma show_ok sh id e :
  shard_ok sh -> counters_ok e ->
  (is_Some (s_entries sh !! id) \/ Z.of_nat (size (s_entries sh)) < capacity) ->
  shard_ok (touch_recency config (put_entry sh id e) id).
Proof.
  intros [H1 H2 H3 H4] He Hs.
  assert (Hsz : Z.of_nat (size (<[id := e]> (s_entries sh))) <= capacity).
  { destruct (s_entries sh !! id) eqn:E.
    - by rewrite map_size_insert_Some by eauto.
    - rewrite map_size_insert_None by done. destruct Hs as [[? ?]|]; [congruence|lia]. }
  assert (Hco : forall id' e', <[id := e]> (s_entries sh) !! id' = Some e' -> counters_ok e').
  { intros id' e' [[<- <-]|[_ Hl]]%lookup_insert_Some; eauto. }
  unfold touch_recency. destruct (fail_open_when_full config) eqn:Ef; cbn [negb].
  2:{ split; cbn; try done. by rewrite Ef. }
  cbn [recency_index put_entry]. destruct (recency_index sh !! id) as [it|] eqn:Hl.
  - destruct (indexed_found _ _ _ _ _ _ _ H3 Hl) as (l1 & n & l2 & Hsp & Hk & Hn & Hn1 & _).
    cbn [recency put_entry]. rewrite Hsp, splice_front_split by done. rewrite Hsp in *.
    split; cbn [s_entries recency recency_index s_next put_entry]; try done.
    + by eapply indexed_front.
    + rewrite Ef. intros id'. rewrite map_cons, map_app, elem_of_cons, elem_of_app.
      specialize (H4 id'). rewrite map_app, map_cons, elem_of_app, elem_of_cons in H4.
      rewrite lookup_insert_is_Some. rewrite Hk in *. destruct (decide (id = id')) as [->|]; tauto.
  - pose proof (proj1 (indexed_missing _ _ _ _ _ _ H3) Hl) as Hni.
    split; cbn [s_entries recency recency_index s_next put_entry]; try done.
    + by apply (indexed_push r_id r_node _ (MkRecency (s_next sh) id)).
    + rewrite Ef. intros id'. rewrite map_cons, elem_of_cons, lookup_insert_is_Some, H4. cbn.
      destruct (decide (id = id')) as [->|]; [tauto|]. split; [tauto|]. intros [->|]; tauto.
Qed.

(** Evicting from a full shard in fail-open mode always succeeds and makes room. *)
Lemma evict_one_ok sh :
  shard_ok sh -> fail_open_when_full config = true -> capacity <= Z.of_nat (size (s_entries sh)) ->
  exists sh', evict_one sh = Some sh' /\ shard_ok sh' /\ Z.of_nat (size (s_entries sh')) < capacity /\
    (forall id, s_entries sh !! id = None -> s_entries sh' !! id = None).
Proof.
  intros [H1 H2 H3 H4] Ef Hfull. rewrite Ef in H4. unfold evict_one.
  destruct (last (recency sh)) as [v|] eqn:El.
  2:{ exfalso. apply last_None in El. rewrite El in H4.
      assert (Hne : s_entries sh <> ∅).
      { intros E. rewrite E, map_size_empty in Hfull. lia. }
      apply map_choose in Hne as (id & e & Hid). assert (Hin : id ∈ map r_id []) by (apply H4; eauto).
      by apply elem_of_nil in Hin. }
  apply last_removelast in El.
  assert (Hv : is_Some (s_entries sh !! r_id v)).
  { apply H4. rewrite El, map_app. apply elem_of_app. right. left. }
  assert (Hsz : size (delete (r_id v) (s_entries sh)) = pred (size (s_entries sh))).
  { destruct Hv as [e He]. by apply map_size_delete_Some. }
  eexists. split; [done|]. split; [|split; cbn; [lia|]].
  - split; cbn [s_entries recency recency_index s_next].
    + lia.
    + intros id e [_ Hl]%lookup_delete_Some. eauto.
    + rewrite El in H3. apply indexed_drop in H3. by rewrite app_nil_r in H3.
    + rewrite Ef. intros id. pose proof (ix_keys _ _ _ _ _ H3) as Hnd. specialize (H4 id).
      rewrite El, map_app in Hnd, H4. apply NoDup_app in Hnd as (_ & Hd & _). cbn in Hd.
      rewrite elem_of_app in H4. cbn in H4. rewrite list_elem_of_singleton in H4.
      rewrite lookup_delete_is_Some. split; [by intros [Hne [?| ->]%H4]|].
      intros Hin. split; [|tauto]. intros <-. apply (Hd _ Hin). left.
  - intros id Hid. rewrite lookup_delete_None. by right.
Qed.

(** The first show of an item. *)
Lemma reserve_fresh sh id now :
  fits 64 now ->
  exists e, counters_ok e /\
    reserve_entry config sh id (fresh_counters config now) now =
    (Allowed, touch_recency config (put_entry sh id e) id).
Proof.
  intros Hn. pose proof (fresh_ok config Hok now Hn) as Hf. unfold reserve_entry.
  assert (cap_reached config (fresh_counters config now) = false) as ->.
  { unfold cap_reached. cbn. destruct (0 <? exposure_cap config) eqn:E; [|done]. cbn. bcases.
    by apply Z.leb_gt. }
  destruct (0 <? frequency_limit config) eqn:El; bcases.
  - pose proof (over_limit_fresh config Hok now Hn El) as Ho.
    pose proof (estimate_ok config _ now Hf Hn) as He.
    destruct (advance_and_estimate config _ now) as [est e1]. cbn [fst snd] in *. rewrite Ho.
    eexists. split; [|done]. destruct He. split; cbn; try done; by apply wrap_fits.
  - eexists. split; [|done]. destruct Hf. split; cbn; try done; by apply wrap_fits.
Qed.

(** A reservation against an existing entry. *)
Lemma reserve_entry_ok sh id e now d sh' :
  shard_ok sh -> fits 64 now -> s_entries sh !! id = Some e ->
  reserve_entry config sh id e now = (d, sh') -> shard_ok sh'.
Proof.
  intros Hs Hn Hl. pose proof (so_counters _ Hs _ _ Hl) as He. unfold reserve_entry.
  destruct (cap_reached config e); [intros [= <- <-]; by apply put_entry_ok; eauto|].
  destruct (0 <? frequency_limit config).
  - pose proof (estimate_ok config _ now He Hn) as Ho.
    destruct (advance_and_estimate config e now) as [est e1]. cbn [snd] in Ho.
    destruct (over_limit config est); intros [= <- <-]; [by apply put_entry_ok; eauto|].
    apply show_ok; [done| |left; eauto]. destruct Ho. split; cbn; try done; by apply wrap_fits.
  - intros [= <- <-]. apply show_ok; [done| |left; eauto].
    destruct He. split; cbn; try done; by apply wrap_fits.
Qed.

(** [reserve] keeps the invariant; its answer is the one [check] predicts; and in
    fail-open mode the store is never full. *)
Lemma reserve_shard_ok sh id now d sh' ev :
  shard_ok sh -> fits 64 now -> reserve_shard config capacity sh id now = (d, sh', ev) ->
  shard_ok sh' /\ d = check_shard config capacity sh id now /\
  (fail_open_when_full config = true -> d <> StoreFull).
Proof.
  intros Hs Hn E. unfold reserve_shard, check_shard in *.
  destruct (s_entries sh !! id) as [e|] eqn:Hl.
  - injection E as E _. pose proof (reserve_entry_ok _ _ _ _ _ _ Hs Hn Hl E) as Hs'.
    split; [done|]. unfold reserve_entry in E. rewrite estimates_agree.
    destruct (cap_reached config e); [by injection E as <- <-|].
    destruct (0 <? frequency_limit config); [|by injection E as <- <-]. cbn [andb].
    destruct (advance_and_estimate config e now) as [est e1]. cbn [fst].
    by destruct (over_limit config est); injection E as <- <-.
  - destruct (capacity <=? _) eqn:Hfull; bcases.
    + destruct (fail_open_when_full config) eqn:Ef; cbn [negb andb] in *.
      * destruct (evict_one_ok sh Hs Ef Hfull) as (sh1 & Hev & Hs1 & Hroom & Hnone).
        rewrite Hev in E. destruct (reserve_fresh sh1 id now Hn) as (e & He & Hre).
        rewrite Hre in E. injection E as <- <- _. split; [|done]. apply show_ok; auto.
      * by injection E as <- <- _.
    + destruct (reserve_fresh sh id now Hn) as (e & He & Hre). rewrite Hre in E.
      injection E as <- <- _. split; [|done]. apply show_ok; auto.
Qed.

Lemma forget_shard_ok sh id : shard_ok sh -> shard_ok (forget_shard sh id).
Proof.
  intros [H1 H2 H3 H4]. unfold forget_shard.
  assert (Hsz : Z.of_nat (size (delete id (s_entries sh))) <= capacity).
  { destruct (s_entries sh !! id) eqn:E; [rewrite map_size_delete_Some by eauto|by rewrite delete_id].
    lia. }
  assert (Hco : forall id' e', delete id (s_entries sh) !! id' = Some e' -> counters_ok e').
  { intros id' e' [_ Hl]%lookup_delete_Some. eauto. }
  destruct (recency_index sh !! id) as [it|] eqn:Hl.
  - destruct (indexed_found _ _ _ _ _ _ _ H3 Hl) as (l1 & n & l2 & Hsp & Hk & Hn & Hn1 & _ & Hk1 & Hk2).
    rewrite Hsp, list_erase_split by done. rewrite Hsp in H3, H4. subst id.
    split; cbn [s_entries recency recency_index s_next]; try done; [by apply indexed_drop|].
    destruct (fail_open_when_full config); [|by destruct l1].
    intros id'. specialize (H4 id'). rewrite map_app, map_cons, elem_of_app, elem_of_cons in H4.
    rewrite lookup_delete_is_Some, map_app, elem_of_app.
    split; [intros [Hne Hin%H4]; destruct Hin as [?|[->|?]]; [by left|done|by right]|].
    intros Hin. split; [|tauto]. intros <-. tauto.
  - pose proof (proj1 (indexed_missing _ _ _ _ _ _ H3) Hl) as Hni.
    split; cbn [s_entries recency recency_index s_next]; try done.
    destruct (fail_open_when_full config); [|done]. intros id'. rewrite lookup_delete_is_Some, H4.
    split; [tauto|]. intros Hin. split; [|done]. by intros ->.
Qed.
End Capacity.

(** * The store invariant *)

Record store_ok (st : ExposureStore) : Prop := {
  st_wf : store_wf st;
  st_config : config_ok (config_ st);
  st_capacity : 1 <= per_shard_capacity_ st;
  st_share : shard_count_ st * per_shard_capacity_ st <= max_tracked_items (config_ st);
  st_shards : Forall (shard_ok (config_ st) (per_shard_capacity_ st)) (p_shards st)
}.

Lemma exposure_new_ok config n st :
  config_ok config -> exposure_new config n = Some st -> store_ok st.
Proof.
  intros Hok Hnew. apply exposure_new_wf in Hnew as (Hwf & <- & Hn & Hle & Hcap & Hsh).
  pose proof (wf_bit _ Hwf) as Hb. unfold has_single_bit in Hb. bcases. split; try done.
  - rewrite Hcap. apply Z.div_le_lower_bound; lia.
  - rewrite Hcap, <- Hn. apply Z.mul_div_le. lia.
  - apply Forall_lookup. intros i sh Hi. rewrite (Hsh i sh Hi). apply empty_shard_ok.
    rewrite Hcap. apply Z.div_le_lower_bound; lia.
Qed.

Lemma frame_ok' st st' :
  store_ok st -> same_frame st st' ->
  Forall (shard_ok (config_ st) (per_shard_capacity_ st)) (p_shards st') -> store_ok st'.
Proof.
  intros [H1 H2 H3 H4 _] Hfr Hsh. pose proof (frame_wf _ _ H1 Hfr) as Hwf.
  destruct Hfr as (E1 & E2 & E3 & _). split; rewrite ?E1, ?E2, ?E3; done.
Qed.

Lemma policy_step_ok op st : store_ok st -> store_ok (snd (policy_step op st)).
Proof.
  intros Hst. apply (frame_ok' st); [done|apply step_frame|].
  pose proof Hst as [Hwf Hok Hcap _ Hsh]. destruct op as [id now|id now|id|]; cbn.
  - unfold reserve. destruct (p_shards st !! _) as [sh|] eqn:Hs; [|done].
    pose proof (Forall_lookup_1 _ _ _ _ Hsh Hs) as Hshok.
    destruct (reserve_shard _ _ _ _ _) as [[d sh'] ev] eqn:E. cbn.
    apply Forall_insert; [done|].
    eapply reserve_shard_ok; [done|done|done|apply to_u64_fits|exact E].
  - done.
  - unfold forget. destruct (p_shards st !! _) as [sh|] eqn:Hs; [|done]. cbn.
    apply Forall_insert; [done|]. apply forget_shard_ok; [done|]. by eapply Forall_lookup_1.
  - apply Forall_fmap. eapply Forall_impl; [exact Hsh|]. intros sh _. by apply empty_shard_ok.
Qed.

Lemma policy_run_ok ops st :
  store_ok st -> store_ok (snd (policy_run ops st)) /\ config_ (snd (policy_run ops st)) = config_ st.
Proof.
  revert st. induction ops as [|op ops IH]; intros st Hst; [done|].
  pose proof (policy_step_ok op st Hst) as Hst1. pose proof (step_frame op st) as (Ec & _).
  cbn [policy_run]. destruct (policy_step op st) as [r st1]. cbn [snd] in *.
  destruct (IH st1 Hst1) as [IH1 IH2]. rewrite Ec in IH2.
  by destruct (policy_run ops st1).
Qed.

Lemma tracked_bound st : store_ok st -> tracked st <= shard_count_ st * per_shard_capacity_ st.
Proof.
  intros [[_ Hc] _ _ _ Hsh]. unfold tracked. rewrite <- Hc.
  assert (Hg : forall l acc, Forall (shard_ok (config_ st) (per_shard_capacity_ st)) l ->
    fold_left (fun total s => total + Z.of_nat (size (s_entries s))) l acc
    <= acc + Z.of_nat (length l) * per_shard_capacity_ st).
  { intros l. induction l as [|sh l IH]; intros acc Hl; cbn; [lia|].
    apply Forall_cons_1 in Hl as [[Hs _ _ _] Hl]. specialize (IH (acc + Z.of_nat (size (s_entries sh))) Hl).
    lia. }
  specialize (Hg (p_shards st) 0 Hsh). lia.
Qed.

Lemma reserve_times_fits id ops : Forall (fits 64) (reserve_times id ops).
Proof.
  induction ops as [|op ops IH]; [constructor|]. unfold reserve_times in *. cbn.
  apply Forall_app. split; [|done]. destruct op; try constructor.
  destruct (decide _); repeat constructor; apply to_u64_fits.
Qed.

(** * Properties *)

(** ** Histories in two parts *)

Lemma policy_run_app ops1 ops2 st :
  policy_run (ops1 ++ ops2) st =
  let '(rs1, st1) := policy_run ops1 st in
  let '(rs2, st2) := policy_run ops2 st1 in (rs1 ++ rs2, st2).
Proof.
  revert st. induction ops1 as [|op ops1 IH]; intros st; cbn.
  { by destruct (policy_run ops2 st). }
  destruct (policy_step op st) as [r st1]. rewrite IH. destruct (policy_run ops1 st1) as [rs1 st2].
  by destruct (policy_run ops2 st2).
Qed.

Lemma policy_run_length ops st : length (fst (policy_run ops st)) = length ops.
Proof.
  revert st. induction ops as [|op ops IH]; intros st; cbn; [done|].
  destruct (policy_step op st) as [r st1]. specialize (IH st1). destruct (policy_run ops st1). cbn in *. lia.
Qed.

Lemma shows_app id ops1 ops2 rs1 rs2 :
  length rs1 = length ops1 ->
  shows id (ops1 ++ ops2) (rs1 ++ rs2) = shows id ops1 rs1 + shows id ops2 rs2.
Proof.
  revert rs1. induction ops1 as [|op ops1 IH]; intros [|r rs1] Hl; try done. cbn in *.
  rewrite IH by lia. lia.
Qed.

Lemma window_shows_app config id k ops1 ops2 rs1 rs2 :
  length rs1 = length ops1 ->
  window_shows config id k (ops1 ++ ops2) (rs1 ++ rs2) =
  window_shows config id k ops1 rs1 + window_shows config id k ops2 rs2.
Proof.
  revert rs1. induction ops1 as [|op ops1 IH]; intros [|r rs1] Hl; try done. cbn in *.
  rewrite IH by lia. lia.
Qed.

Lemma reserve_times_app id ops1 ops2 :
  reserve_times id (ops1 ++ ops2) = reserve_times id ops1 ++ reserve_times id ops2.
Proof. unfold reserve_times. by rewrite map_app, concat_app. Qed.

Lemma new_store_shows config n st ops id :
  exposure_new config n = Some st -> fail_open_when_full config = false ->
  fits 64 (exposure_cap config) -> 0 < exposure_cap config ->
  Forall (fun op => ~ resets id op) ops ->
  shows id ops (fst (policy_run ops st)) <= exposure_cap config.
Proof.
  intros Hnew Hclosed Hf Hpos Hr. apply exposure_new_wf in Hnew as (Hwf & <- & _ & _ & _ & Hsh).
  assert (H0 : lifetime_of st id = 0).
  { destruct (shard_of_id st id Hwf) as [sh Hs]. unfold lifetime_of. rewrite Hs.
    by rewrite (Hsh _ _ Hs). }
  destruct (shows_bounded ops st id 0 Hwf Hclosed Hf Hpos Hr H0) as [H _]; lia.
Qed.


Lemma new_store_windows config n st ops id k :
  exposure_new config n = Some st -> fail_open_when_full config = false -> config_ok config ->
  0 < frequency_limit config -> 0 < frequency_window config ->
  Forall (fun op => ~ resets id op) ops -> StronglySorted Z.le (reserve_times id ops) ->
  window_shows config id k ops (fst (policy_run ops st)) <= frequency_limit config.
Proof.
  intros Hnew Hclosed Hok Hl Hw Hr Hsort. apply exposure_new_wf in Hnew as (Hwf & Hcf & _ & _ & _ & Hsh).
  pose proof (window_pos config Hok Hw) as HW.
  assert (Hsorted : StronglySorted Z.le (0 :: map (fun t => t / window_ms config) (reserve_times id ops))).
  { constructor.
    - induction Hsort as [|t ts _ IH Hle]; [constructor|]. cbn. constructor; [done|].
      apply Forall_fmap. eapply Forall_impl; [exact Hle|]. intros x Hx. by apply Z.div_le_mono.
    - apply Forall_fmap. eapply Forall_impl; [apply reserve_times_fits|]. intros t [Ht _].
      by apply Z.div_pos. }
  assert (Hinv : window_inv config st id 0 (fun _ => 0)).
  { split; [lia|]. unfold entry_of. destruct (p_shards st !! _) as [sh|] eqn:Hs; [|done].
    rewrite (Hsh _ _ Hs). cbn. by rewrite lookup_empty. }
  apply (windows_bounded config Hok Hl Hw ops st id 0 (fun _ => 0) Hwf Hcf Hclosed Hr Hsorted Hinv k).
Qed.


(** The compliance guarantee. In fail-closed mode, whatever the interleaving of
    reservations, checks and resets of other items, an item whose counters are not
    reset is granted at most [exposure_cap] shows in total. *)
Theorem exposure_cap_respected config n st ops id :
  exposure_new config n = Some st -> fail_open_when_full config = false ->
  fits 64 (exposure_cap config) -> 0 < exposure_cap config ->
  Forall (fun op => ~ resets id op) ops ->
  shows id ops (fst (policy_run ops st)) <= exposure_cap config.
Proof. apply new_store_shows. Qed.

(** The frequency limit. In fail-closed mode, if the clock readings an item is
    reserved at do not go backwards, then in every window of [frequency_window]
    milliseconds the item is granted at most [frequency_limit] shows, with the
    sliding estimate computed in binary64 as the code computes it. *)
Theorem frequency_limit_respected config n st ops id k :
  exposure_new config n = Some st -> fail_open_when_full config = false -> config_ok config ->
  0 < frequency_limit config -> 0 < frequency_window config ->
  Forall (fun op => ~ resets id op) ops -> StronglySorted Z.le (reserve_times id ops) ->
  window_shows config id k ops (fst (policy_run ops st)) <= frequency_limit config.
Proof. apply new_store_windows. Qed.

(** The store is bounded. Under any history, in both modes, the number of
    tracked items never exceeds [max_tracked_items], and every counter stays in its
    machine width. *)
Theorem tracked_never_exceeds config n st ops :
  exposure_new config n = Some st -> config_ok config ->
  let st' := snd (policy_run ops st) in
  tracked st' <= max_tracked_items config /\ Forall (shard_ok config (per_shard_capacity_ st')) (p_shards st').
Proof.
  intros Hnew Hok. pose proof (exposure_new_ok config n st Hok Hnew) as Hst.
  apply exposure_new_wf in Hnew as (_ & Hcf & _). destruct (policy_run_ok ops st Hst) as [Hst' Hc].
  cbv zeta. rewrite Hcf in Hc. pose proof (tracked_bound _ Hst') as Hb.
  pose proof (st_share _ Hst') as Hs. pose proof (st_shards _ Hst') as Hsh. rewrite Hc in *. split; [lia|done].
Qed.

(** Fail-open mode never refuses for lack of room: after any history a
    reservation never answers StoreFull, because every tracked item is on the
    recency list and one can always be evicted. *)
Theorem fail_open_never_full config n st ops id now :
  exposure_new config n = Some st -> config_ok config -> fail_open_when_full config = true ->
  fst (reserve id now (snd (policy_run ops st))) <> StoreFull.
Proof.
  intros Hnew Hok Hopen. pose proof (exposure_new_ok config n st Hok Hnew) as Hst.
  apply exposure_new_wf in Hnew as (_ & Hcf & _). destruct (policy_run_ok ops st Hst) as [Hst' Hc].
  rewrite Hcf in Hc. set (st' := snd (policy_run ops st)) in *.
  destruct (shard_of_id st' id (st_wf _ Hst')) as [sh Hs]. unfold reserve. rewrite Hs.
  destruct (reserve_shard _ _ _ _ _) as [[d sh'] ev] eqn:E. cbn.
  pose proof (Forall_lookup_1 _ _ _ _ (st_shards _ Hst') Hs) as Hshok.
  eapply reserve_shard_ok in E as (_ & _ & Hn); [|apply Hst'|apply Hst'|done|apply to_u64_fits].
  apply Hn. by rewrite Hc.
Qed.

(** The dry-run answer is exact when nothing intervenes: after any history,
    [check] returns the very decision an immediate [reserve] would return. *)
Theorem check_predicts_reserve config n st ops id now :
  exposure_new config n = Some st -> config_ok config ->
  let st' := snd (policy_run ops st) in check id now st' = fst (reserve id now st').
Proof.
  intros Hnew Hok. pose proof (exposure_new_ok config n st Hok Hnew) as Hst.
  destruct (policy_run_ok ops st Hst) as [Hst' _]. cbv zeta.
  set (st' := snd (policy_run ops st)) in *.
  destruct (shard_of_id st' id (st_wf _ Hst')) as [sh Hs]. unfold check, reserve. rewrite Hs.
  destruct (reserve_shard _ _ _ _ _) as [[d sh'] ev] eqn:E. cbn.
  pose proof (Forall_lookup_1 _ _ _ _ (st_shards _ Hst') Hs) as Hshok.
  by eapply reserve_shard_ok in E as (_ & -> & _); [|apply Hst'|apply Hst'|done|apply to_u64_fits].
Qed.

(** Three shows per lifetime, two per 1000 ms, four items over two shards. *)
Definition sample_config (open : bool) : PolicyConfig := MkPolicyConfig 3 2 1000 4 open.
Definition sample_store (open : bool) : ExposureStore :=
  MkStore (sample_config open) 2 2 [empty_shard; empty_shard] (MkPolicyMetrics 0 0 0 0 0 0).
Definition sample_history : list PolicyOp :=
  [PReserve 7 100; PReserve 7 200; PReserve 7 300; PReserve 9 300; PReserve 7 2500; PCheck 7 2600;
   PReserve 7 2700].

Lemma sample_config_ok open : config_ok (sample_config open).
Proof. split; by cbn. Qed.

Example sample_history_decisions :
  fst (policy_run sample_history (sample_store false)) =
  map Some [Allowed; Allowed; FrequencyLimited; Allowed; Allowed; ExposureCapReached;
            ExposureCapReached].
Proof. vm_compute. reflexivity. Qed.

Lemma no_resets : Forall (fun op => ~ resets 7 op) sample_history.
Proof. repeat (apply Forall_cons; split; [by intros []|]). by apply Forall_nil. Qed.

Lemma exposure_cap_respected_witness :
  shows 7 sample_history (fst (policy_run sample_history (sample_store false))) <= 3.
Proof. by apply (exposure_cap_respected (sample_config false) 2 _ _ 7); try apply no_resets. Defined.

Lemma frequency_limit_respected_witness :
  window_shows (sample_config false) 7 0 sample_history
    (fst (policy_run sample_history (sample_store false))) <= 2.
Proof.
  apply (frequency_limit_respected (sample_config false) 2); try reflexivity.
  - apply sample_config_ok.
  - apply no_resets.
  - vm_compute. repeat constructor; done.
Defined.

Lemma tracked_never_exceeds_witness :
  tracked (snd (policy_run sample_history (sample_store true))) <= 4.
Proof.
  apply (tracked_never_exceeds (sample_config true) 2); [reflexivity|apply sample_config_ok].
Defined.

Lemma fail_open_never_full_witness :
  fst (reserve 11 3000 (snd (policy_run sample_history (sample_store true)))) <> StoreFull.
Proof.
  apply (fail_open_never_full (sample_config true) 2); [reflexivity|apply sample_config_ok|done].
Defined.

Lemma check_predicts_reserve_witness :
  check 7 2800 (snd (policy_run sample_history (sample_store false))) =
  fst (reserve 7 2800 (snd (policy_run sample_history (sample_store false)))).
Proof.
  apply (check_predicts_reserve (sample_config false) 2); [reflexivity|apply sample_config_ok].
Defined.
