(* ===== verification/Heap.v ===== *)
(** [std::push_heap] and [std::pop_heap], as libstdc++ implements them
    (bits/stl_heap.h): the candidate selector keeps its shortlist in such a heap.

    [comp] is the comparator; the root is a maximum with respect to it. The lemmas
    hold for elements satisfying [P], on which [comp] is a strict weak order; the
    candidate selector instantiates [P] with "the score is not a NaN". *)
From stdpp Require Import base option list.
From S2P Require Import Prelude.

Section Heap.
Context {A : Type} `{Inhabited A} (comp : A -> A -> bool).

(** * The algorithms *)

(** [__push_heap]: move [value] up from [hole] towards the root. The position falls
    at every step, so [hole] itself is enough fuel. *)
Fixpoint push_hole (fuel : nat) (l : list A) (hole : nat) (value : A) : list A :=
  match fuel with
  | O => <[hole := value]> l
  | S fuel =>
      let parent := Nat.div2 (hole - 1) in
      if (0 <? hole)%nat && comp (l !!! parent) value
      then push_hole fuel (<[hole := l !!! parent]> l) parent value
      else <[hole := value]> l
  end.

(** [push_heap(first, last)]: the new element is the last one. *)
Definition push_heap (l : list A) : list A :=
  let n := length l in push_hole (n - 1) l (n - 1) (l !!! (n - 1)%nat).

(** The loop of [__adjust_heap] over the first [len] elements: the hole goes down
    along the larger children to a position without two children. *)
Fixpoint sift_down (fuel : nat) (l : list A) (len hole : nat) : list A * nat :=
  match fuel with
  | O => (l, hole)
  | S fuel =>
      if (hole <? Nat.div2 (len - 1))%nat then
        let second := (2 * (hole + 1))%nat in
        let second := if comp (l !!! second) (l !!! (second - 1)%nat) then (second - 1)%nat else second in
        sift_down fuel (<[hole := l !!! second]> l) len second
      else (l, hole)
  end.

Definition adjust_heap (l : list A) (len : nat) (value : A) : list A :=
  let '(l, hole) := sift_down len l len 0 in
  if Nat.even len && (hole =? Nat.div2 (len - 2))%nat then
    let child := (2 * (hole + 1) - 1)%nat in
    push_hole child (<[hole := l !!! child]> l) child value
  else push_hole hole l hole value.

(** [pop_heap(first, last)]: the root moves to the back, the rest is a heap again. *)
Definition pop_heap (l : list A) : list A :=
  let n := length l in
  if (1 <? n)%nat then
    let value := l !!! (n - 1)%nat in
    adjust_heap (<[(n - 1)%nat := l !!! 0%nat]> l) (n - 1) value
  else l.

(** * The heap property *)

Definition parent (i : nat) : nat := Nat.div2 (i - 1).

(** The first [n] elements form a heap. *)
Definition heap (l : list A) (n : nat) : Prop :=
  forall i, (0 < i < n)%nat -> comp (l !!! parent i) (l !!! i) = false.

(** A heap but for the content of position [h]. *)
Definition heap_hole (l : list A) (n h : nat) : Prop :=
  (forall i, (0 < i < n)%nat -> i <> h -> parent i <> h -> comp (l !!! parent i) (l !!! i) = false) /\
  (forall i, (0 < i < n)%nat -> parent i = h -> (0 < h)%nat -> comp (l !!! parent h) (l !!! i) = false).
End Heap.

(** * Positions *)

Lemma parent_lt i : (0 < i)%nat -> (parent i < i)%nat.
Proof. intros. unfold parent. pose proof (Nat.div2_decr (i - 1) (i - 1)). lia. Qed.

Lemma parent_spec i : (0 < i)%nat -> i = (2 * parent i + 1)%nat \/ i = (2 * parent i + 2)%nat.
Proof.
  intros. unfold parent. pose proof (Nat.div2_odd (i - 1)) as E.
  destruct (Nat.odd (i - 1)); cbn in E; lia.
Qed.

Lemma parent_child h : parent (2 * h + 1) = h /\ parent (2 * h + 2) = h.
Proof.
  unfold parent. replace (2 * h + 1 - 1)%nat with (2 * h)%nat by lia.
  replace (2 * h + 2 - 1)%nat with (S (2 * h)) by lia.
  by rewrite Nat.div2_double, Nat.div2_succ_double.
Qed.

Lemma div2_bound n : (2 * Nat.div2 n <= n <= 2 * Nat.div2 n + 1)%nat.
Proof. pose proof (Nat.div2_odd n) as E. destruct (Nat.odd n); cbn in E; lia. Qed.

Section HeapLemmas.
Context {A : Type} `{Inhabited A} (comp : A -> A -> bool) (P : A -> Prop).
Context (comp_asym : forall a b, P a -> P b -> comp a b = true -> comp b a = false).
Context (comp_trans : forall a b c, P a -> P b -> P c ->
  comp a b = true -> comp b c = true -> comp a c = true).
Context (comp_negtrans : forall a b c, P a -> P b -> P c ->
  comp a b = false -> comp b c = false -> comp a c = false).
#[local] Abbreviation heap := (heap comp).
#[local] Abbreviation heap_hole := (heap_hole comp).
Implicit Types l : list A.

Lemma comp_irrefl a : P a -> comp a a = false.
Proof. intros Ha. destruct (comp a a) eqn:E; [|done]. by rewrite (comp_asym a a) in E. Qed.

(** All of the first [n] elements satisfy [P]. *)
Definition all_P (l : list A) (n : nat) : Prop := forall i, (i < n)%nat -> P (l !!! i).

Lemma lookup_total_insert_cases l i j x :
  (i < length l)%nat -> <[i := x]> l !!! j = if decide (i = j) then x else l !!! j.
Proof.
  intros Hi. destruct (decide (i = j)) as [<-|Hne].
  - by rewrite list_lookup_total_insert_eq.
  - by rewrite list_lookup_total_insert_ne.
Qed.

Lemma all_P_insert l n i x : (i < length l)%nat -> all_P l n -> P x -> all_P (<[i := x]> l) n.
Proof.
  intros Hi Hl Hx j Hj. rewrite lookup_total_insert_cases by done. destruct (decide (i = j)); auto.
Qed.

(** Moving an element into the hole moves the hole. *)
Lemma move_perm l h p v :
  (h < length l)%nat -> (p < length l)%nat -> h <> p ->
  <[p := v]> (<[h := l !!! p]> l) ≡ₚ <[h := v]> l.
Proof.
  intros Hh Hp Hne. apply Permutation_inj. split; [by rewrite !length_insert|].
  exists (fun i => if decide (i = p) then h else if decide (i = h) then p else i). split.
  - intros i j. repeat case_decide; congruence.
  - intros i. destruct (lookup_lt_is_Some_2 l p Hp) as [x Hx].
    rewrite (list_lookup_total_correct _ _ _ Hx).
    destruct (decide (i = p)) as [->|Hip].
    + by rewrite !list_lookup_insert_eq by (rewrite ?length_insert; lia).
    + rewrite list_lookup_insert_ne by done. destruct (decide (i = h)) as [->|Hih].
      * by rewrite list_lookup_insert_eq, list_lookup_insert_ne.
      * by rewrite !list_lookup_insert_ne.
Qed.

(** Swapping a value up: the multiset is that of the hole filled with [value]. *)
Lemma push_hole_perm fuel l h v :
  (h < length l)%nat -> push_hole comp fuel l h v ≡ₚ <[h := v]> l.
Proof.
  revert l h. induction fuel as [|fuel IH]; intros l h Hh; [done|]. cbn [push_hole].
  destruct (0 <? h)%nat eqn:E0; [|done]. apply Nat.ltb_lt in E0. cbn [andb].
  change (Nat.div2 (h - 1)) with (parent h). pose proof (parent_lt h E0) as Hp.
  destruct (comp _ v); [|done]. rewrite IH by (rewrite length_insert; lia).
  apply move_perm; lia.
Qed.

Lemma push_hole_heap fuel l n h v :
  (h <= fuel)%nat -> (h < n <= length l)%nat -> all_P l n -> P v -> heap_hole l n h ->
  (forall i, (0 < i < n)%nat -> parent i = h -> comp v (l !!! i) = false) ->
  heap (push_hole comp fuel l h v) n.
Proof.
  revert l h. induction fuel as [|fuel IH]; intros l h Hf Hn HP Hv [H1 H2] Hc; cbn [push_hole].
  { assert (h = 0%nat) as -> by lia. intros i Hi. rewrite !lookup_total_insert_cases by lia.
    rewrite (decide_False (P := 0%nat = i)) by lia. destruct (decide (0%nat = parent i)) as [E|E].
    - by apply Hc.
    - apply H1; lia. }
  change (Nat.div2 (h - 1)) with (parent h).
  assert (Hstop : (h = 0%nat \/ comp (l !!! parent h) v = false) -> heap (<[h := v]> l) n).
  { intros Hor i Hi. pose proof (parent_lt i ltac:(lia)). rewrite !lookup_total_insert_cases by lia.
    destruct (decide (h = i)) as [<-|Hne].
    - rewrite decide_False by lia. destruct Hor; [lia|done].
    - destruct (decide (h = parent i)) as [E|E]; [by apply Hc|by apply H1]. }
  destruct (0 <? h)%nat eqn:E0; cbn [andb].
  2:{ apply Nat.ltb_ge in E0. apply Hstop. lia. }
  apply Nat.ltb_lt in E0. destruct (comp (l !!! parent h) v) eqn:Ec; [|apply Hstop; by right].
  pose proof (parent_lt h E0) as Hp. set (p := parent h) in *. set (x := l !!! p) in *.
  assert (Hx : P x) by (apply HP; lia).
  apply IH; rewrite ?length_insert; try lia; try done.
  - by apply all_P_insert; [lia|..].
  - split.
    + intros i Hi Hip Hpi. pose proof (parent_lt i ltac:(lia)).
      rewrite !lookup_total_insert_cases by lia. destruct (decide (h = i)) as [<-|Hne]; [done|].
      destruct (decide (h = parent i)) as [E|E]; [by apply H2|by apply H1].
    + intros i Hi Hpi Hp0. pose proof (parent_lt p Hp0). rewrite !lookup_total_insert_cases by lia.
      rewrite (decide_False (P := h = parent p)) by lia.
      assert (Hpp : comp (l !!! parent p) x = false) by (apply H1; lia).
      destruct (decide (h = i)) as [<-|Hne]; [done|].
      apply (comp_negtrans _ x); try done; try (apply HP; lia).
      unfold x. rewrite <- Hpi. apply H1; lia.
  - intros i Hi Hpi. rewrite lookup_total_insert_cases by lia.
    destruct (decide (h = i)) as [<-|Hne]; [by apply comp_asym|].
    assert (HPi : P (l !!! i)) by (apply HP; lia).
    assert (Hxi : comp x (l !!! i) = false) by (unfold x; rewrite <- Hpi; apply H1; lia).
    destruct (comp v (l !!! i)) eqn:Ev; [|done]. by rewrite (comp_trans x v) in Hxi.
Qed.

Lemma length_push_hole fuel l h v : length (push_hole comp fuel l h v) = length l.
Proof.
  revert l h. induction fuel as [|fuel IH]; intros l h; cbn [push_hole]; [apply length_insert|].
  destruct (_ && _); [by rewrite IH, length_insert|apply length_insert].
Qed.

Lemma push_hole_above fuel l h v j :
  (h < j)%nat -> push_hole comp fuel l h v !!! j = l !!! j.
Proof.
  revert l h. induction fuel as [|fuel IH]; intros l h Hj; cbn [push_hole].
  { by rewrite list_lookup_total_insert_ne by lia. }
  destruct (0 <? h)%nat eqn:E; cbn [andb]; [|by rewrite list_lookup_total_insert_ne by lia].
  apply Nat.ltb_lt in E. pose proof (parent_lt h E) as Hp. unfold parent in Hp.
  destruct (comp _ v); rewrite ?IH by lia; by rewrite list_lookup_total_insert_ne by lia.
Qed.

(** One step down: the hole moves to the child [c] that dominates its sibling. *)
Lemma heap_hole_down l n h c :
  (h < n <= length l)%nat -> (0 < c < n)%nat -> parent c = h -> all_P l n -> heap_hole l n h ->
  (forall i, (0 < i < n)%nat -> parent i = h -> i <> c -> comp (l !!! c) (l !!! i) = false) ->
  heap_hole (<[h := l !!! c]> l) n c.
Proof.
  intros Hn Hc Hpc HP [H1 H2] Hsib. pose proof (parent_lt c ltac:(lia)) as Hlt. split.
  - intros i Hi Hic Hpi. pose proof (parent_lt i ltac:(lia)).
    rewrite !lookup_total_insert_cases by lia. destruct (decide (h = i)) as [<-|Hne].
    + rewrite decide_False by lia. apply H2; (done || lia).
    + destruct (decide (h = parent i)) as [E|E]; [by apply Hsib|by apply H1].
  - intros i Hi Hpi _. pose proof (parent_lt i ltac:(lia)). rewrite Hpc.
    rewrite !lookup_total_insert_cases by lia. rewrite decide_True by done.
    rewrite decide_False by lia. rewrite <- Hpi. apply H1; lia.
Qed.

(** The child the loop of [__adjust_heap] moves up. *)
Lemma sift_child l n h :
  (h < Nat.div2 (n - 1))%nat ->
  let c := if comp (l !!! (2 * (h + 1))%nat) (l !!! (2 * (h + 1) - 1)%nat)
           then (2 * (h + 1) - 1)%nat else (2 * (h + 1))%nat in
  (h < c < n)%nat /\ parent c = h /\
  (all_P l n -> forall i, (0 < i < n)%nat -> parent i = h -> i <> c -> comp (l !!! c) (l !!! i) = false).
Proof.
  intros Hlt. pose proof (div2_bound (n - 1)) as Hd. destruct (parent_child h) as [Hc1 Hc2].
  replace (2 * (h + 1))%nat with (2 * h + 2)%nat by lia.
  replace (2 * h + 2 - 1)%nat with (2 * h + 1)%nat by lia.
  destruct (comp _ _) eqn:E; cbv zeta; (split; [lia|]; split; [done|]); intros HP i Hi Hp Hne;
    destruct (parent_spec i ltac:(lia)) as [Ei|Ei]; rewrite Hp in Ei; subst i; try done.
  apply comp_asym; [apply HP; lia|apply HP; lia|done].
Qed.

(** Whatever the comparator, only positions below [n] move and none is lost. *)
Lemma sift_down_shape fuel l n h v :
  (h < n <= length l)%nat ->
  let '(l', h') := sift_down comp fuel l n h in
  (h' < n)%nat /\ length l' = length l /\
  <[h' := v]> l' ≡ₚ <[h := v]> l /\ (forall j, (n <= j)%nat -> l' !!! j = l !!! j).
Proof.
  revert l h. induction fuel as [|fuel IH]; intros l h Hn; cbn [sift_down]; [split_and!; (done || lia)|].
  destruct (Nat.ltb_spec h (Nat.div2 (n - 1))) as [Hlt|Hge]; [|split_and!; (done || lia)].
  destruct (sift_child l n h Hlt) as (Hcn & _ & _). set (c := if comp _ _ then _ else _) in *.
  specialize (IH (<[h := l !!! c]> l) c). rewrite length_insert in IH. specialize (IH ltac:(lia)).
  destruct (sift_down comp fuel _ n c) as [l' h']. destruct IH as (R1 & R2 & R3 & R4).
  split_and!; try done.
  - rewrite R3. apply move_perm; lia.
  - intros j Hj. rewrite R4 by done. by rewrite list_lookup_total_insert_ne by lia.
Qed.

Lemma sift_down_spec fuel l n h :
  (h < n <= length l)%nat -> all_P l n -> heap_hole l n h ->
  let '(l', h') := sift_down comp fuel l n h in
  all_P l' n /\ heap_hole l' n h' /\ (n <= fuel + h -> Nat.div2 (n - 1) <= h')%nat.
Proof.
  revert l h. induction fuel as [|fuel IH]; intros l h Hn HP Hh; cbn [sift_down].
  { split_and!; (done || lia). }
  destruct (Nat.ltb_spec h (Nat.div2 (n - 1))) as [Hlt|Hge]; [|split_and!; (done || lia)].
  destruct (sift_child l n h Hlt) as (Hcn & Hpc & Hsib). set (c := if comp _ _ then _ else _) in *.
  specialize (Hsib HP). specialize (IH (<[h := l !!! c]> l) c). rewrite length_insert in IH.
  pose proof (IH ltac:(lia) ltac:(apply all_P_insert; (lia || done || (apply HP; lia)))
    ltac:(apply heap_hole_down; (done || lia))) as Hrec.
  destruct (sift_down comp fuel _ n c) as [l' h']. destruct Hrec as (R1 & R2 & R3).
  split_and!; try done. intros Hle. apply R3. lia.
Qed.

Lemma adjust_heap_shape l n v :
  (0 < n <= length l)%nat ->
  adjust_heap comp l n v ≡ₚ <[0%nat := v]> l /\
  length (adjust_heap comp l n v) = length l /\
  (forall j, (n <= j)%nat -> adjust_heap comp l n v !!! j = l !!! j).
Proof.
  intros Hn. unfold adjust_heap. pose proof (sift_down_shape n l n 0 v ltac:(lia)) as Hs.
  destruct (sift_down comp n l n 0) as [l1 h]. destruct Hs as (S1 & S2 & S3 & S4).
  pose proof (div2_bound (n - 2)) as D2. destruct (Nat.even n && _) eqn:E.
  - apply andb_true_iff in E as [Ev Eh]. apply Nat.eqb_eq in Eh. apply Nat.even_spec in Ev as [m ->].
    assert (Hc : (h < 2 * (h + 1) - 1 < 2 * m)%nat) by lia. split_and!.
    + rewrite push_hole_perm by (rewrite length_insert; lia). rewrite <- S3. apply move_perm; lia.
    + by rewrite length_push_hole, length_insert.
    + intros j Hj. rewrite push_hole_above by lia. rewrite list_lookup_total_insert_ne by lia. auto.
  - split_and!.
    + rewrite push_hole_perm by lia. done.
    + by rewrite length_push_hole.
    + intros j Hj. rewrite push_hole_above by lia. auto.
Qed.

(** [adjust_heap] fills the root's hole with [value] and restores the heap. *)
Lemma adjust_heap_spec l n v :
  (0 < n <= length l)%nat -> all_P l n -> P v -> heap_hole l n 0 ->
  heap (adjust_heap comp l n v) n.
Proof.
  intros Hn HP Hv Hh. unfold adjust_heap.
  pose proof (sift_down_shape n l n 0 v ltac:(lia)) as Hs.
  pose proof (sift_down_spec n l n 0 ltac:(lia) HP Hh) as Hs'.
  destruct (sift_down comp n l n 0) as [l1 h]. destruct Hs as (S1 & S2 & _), Hs' as (S3 & S4 & S7).
  specialize (S7 ltac:(lia)). pose proof (div2_bound (n - 1)) as D1. pose proof (div2_bound (n - 2)) as D2.
  destruct (Nat.even n && _) eqn:E.
  - apply andb_true_iff in E as [Ev Eh]. apply Nat.eqb_eq in Eh. apply Nat.even_spec in Ev as [m ->].
    replace (2 * m - 2)%nat with (2 * (m - 1))%nat in Eh by lia. rewrite Nat.div2_double in Eh.
    replace (2 * (h + 1) - 1)%nat with (2 * h + 1)%nat by lia. set (c := (2 * h + 1)%nat).
    assert (Hpc : parent c = h) by apply parent_child.
    assert (Hcn : (h < c < 2 * m)%nat) by lia.
    apply push_hole_heap; rewrite ?length_insert; try done; try lia.
    + apply all_P_insert; (lia || done || (apply S3; lia)).
    + apply heap_hole_down; try done; try lia. intros i Hi Hp Hne.
      destruct (parent_spec i ltac:(lia)) as [Ei|Ei]; rewrite Hp in Ei; subst i; [done|lia].
    + intros i Hi Hp. exfalso. destruct (parent_spec i ltac:(lia)); lia.
  - apply push_hole_heap; try done; try lia. intros i Hi Hp. exfalso. apply andb_false_iff in E.
    assert (Hhd : h = Nat.div2 (n - 2)) by (destruct (parent_spec i ltac:(lia)); lia).
    destruct E as [E|E]; [|by apply Nat.eqb_neq in E].
    rewrite <- Nat.negb_odd in E. apply negb_false_iff, Nat.odd_spec in E as [m ->].
    replace (2 * m + 1 - 1)%nat with (2 * m)%nat in * by lia. rewrite Nat.div2_double in *.
    destruct (parent_spec i ltac:(lia)); lia.
Qed.

(** * What the selector relies on *)

Lemma heap_root l n i : heap l n -> all_P l n -> (i < n)%nat -> comp (l !!! 0%nat) (l !!! i) = false.
Proof.
  intros Hh HP. induction (lt_wf i) as [i _ IH]. intros Hi. destruct (decide (i = 0%nat)) as [->|Hne].
  - apply comp_irrefl, HP. lia.
  - pose proof (parent_lt i ltac:(lia)). apply (comp_negtrans _ (l !!! parent i)); try (apply HP; lia).
    + apply IH; lia.
    + apply Hh. lia.
Qed.

Lemma push_heap_perm l : l <> [] -> push_heap comp l ≡ₚ l.
Proof.
  intros Hl. assert (0 < length l)%nat by (destruct l; [done|cbn; lia]). unfold push_heap.
  rewrite push_hole_perm by lia. rewrite list_insert_id; [done|]. apply list_lookup_lookup_total_lt. lia.
Qed.

Lemma push_heap_spec l x :
  heap l (length l) -> Forall P (l ++ [x]) ->
  heap (push_heap comp (l ++ [x])) (length (l ++ [x])).
Proof.
  intros Hh HP. unfold push_heap. rewrite length_app. cbn [length].
  replace (length l + 1 - 1)%nat with (length l) by lia.
  assert (Hl : (l ++ [x]) !!! length l = x).
  { apply list_lookup_total_correct. by rewrite lookup_app_r, Nat.sub_diag by lia. }
  rewrite Hl. apply push_hole_heap; rewrite ?length_app; cbn [length]; try lia.
  - intros i Hi. rewrite Forall_lookup_total in HP. apply HP. rewrite length_app. cbn. lia.
  - rewrite Forall_app in HP. destruct HP as [_ HP]. by apply Forall_cons_1 in HP as [? _].
  - split.
    + intros i Hi Hne Hp. pose proof (parent_lt i ltac:(lia)).
      rewrite !lookup_total_app_l by lia. apply Hh. lia.
    + intros i Hi Hp. pose proof (parent_lt i ltac:(lia)). lia.
  - intros i Hi Hp. pose proof (parent_lt i ltac:(lia)). lia.
Qed.

(** [pop_heap] puts the root last and leaves the others, a heap if they were one,
    in front of it. *)
Lemma pop_heap_spec l :
  (0 < length l)%nat ->
  exists rest, pop_heap comp l = rest ++ [l !!! 0%nat] /\ l !!! 0%nat :: rest ≡ₚ l /\
    (heap l (length l) -> Forall P l -> heap rest (length rest)).
Proof.
  intros Hn. unfold pop_heap. set (n := length l) in *.
  destruct (Nat.ltb_spec 1 n) as [H1|H1].
  2:{ destruct l as [|a [|b l]]; cbn in *; try lia. exists []. split_and!; try done.
      intros _ _ i Hi. cbn in Hi. lia. }
  set (root := l !!! 0%nat). set (v := l !!! (n - 1)%nat). set (l1 := <[(n - 1)%nat := root]> l).
  assert (Hlen1 : length l1 = n) by apply length_insert.
  destruct (adjust_heap_shape l1 (n - 1) v) as (A2 & A3 & A4); [lia|].
  assert (A1 : heap l n -> Forall P l -> heap (adjust_heap comp l1 (n - 1) v) (n - 1)).
  { intros Hh HP. assert (HPl : all_P l n) by (intros i Hi; by apply Forall_lookup_total_1).
    apply adjust_heap_spec; [lia| |apply HPl; lia|split; [|lia]].
    - intros i Hi. unfold l1. rewrite list_lookup_total_insert_ne by lia. apply HPl. lia.
    - intros i Hi Hi0 Hp0. pose proof (parent_lt i ltac:(lia)). unfold l1.
      rewrite !list_lookup_total_insert_ne by lia. apply Hh. lia. }
  set (r := adjust_heap comp l1 (n - 1) v) in *. rewrite Hlen1 in A3.
  assert (Hlast : r !!! (n - 1)%nat = root).
  { rewrite A4 by lia. unfold l1. by rewrite list_lookup_total_insert_eq by lia. }
  assert (Hsplit : r = take (n - 1) r ++ [root]).
  { rewrite <- (take_drop (n - 1) r) at 1. f_equal.
    destruct (lookup_lt_is_Some_2 r (n - 1)) as [y Hy]; [lia|].
    rewrite (drop_S _ _ _ Hy), drop_ge by lia. by rewrite <- Hlast, (list_lookup_total_correct _ _ _ Hy). }
  exists (take (n - 1) r). split; [done|]. split.
  - rewrite Permutation_cons_append, <- Hsplit, A2. unfold l1, root.
    rewrite move_perm by (unfold n in *; lia). unfold v. rewrite list_insert_id; [done|].
    apply list_lookup_lookup_total_lt. unfold n in *. lia.
  - intros Hh HP. specialize (A1 Hh HP). rewrite length_take. intros i Hi.
    pose proof (parent_lt i ltac:(lia)). rewrite !lookup_total_take, !decide_True by lia. apply A1. lia.
Qed.

(** What [consider] does with a full shortlist: the root is replaced. *)
Lemma replace_root l x :
  (0 < length l)%nat ->
  let popped := pop_heap comp l in
  let l' := push_heap comp (<[(length popped - 1)%nat := x]> popped) in
  l !!! 0%nat :: l' ≡ₚ x :: l /\
  (heap l (length l) -> Forall P l -> P x -> heap l' (length l')).
Proof.
  intros Hn. destruct (pop_heap_spec l Hn) as (rest & E & Hp & Hr). cbv zeta.
  rewrite E, length_app. cbn [length]. replace (length rest + 1 - 1)%nat with (length rest) by lia.
  rewrite insert_app_r_alt, Nat.sub_diag by lia. cbn [insert list_insert].
  assert (Hp' : push_heap comp (rest ++ [x]) ≡ₚ rest ++ [x]) by (apply push_heap_perm; by destruct rest).
  split.
  - rewrite Hp', (Permutation_app_comm rest [x]). cbn. rewrite Permutation_swap.
    by apply Permutation_skip.
  - intros Hh HP Hx. rewrite (Permutation_length Hp'). apply push_heap_spec; [auto|].
    rewrite <- Hp in HP. apply Forall_cons_1 in HP as [_ HP]. apply Forall_app. split; [done|].
    by repeat constructor.
Qed.
End HeapLemmas.
