(* ===== verification/Scorer.v ===== *)
(** Ranking (include/lrd/rank/scorer.hpp, src/rank/scorer.cpp): eligibility,
    relevance, the bounded heap of candidates and the diversity-aware greedy
    selection with its accept hook.

    [std_exp] and [std_pow] stand for the C library's [exp] and [pow], whose results
    the standard does not fix; nothing proved here depends on them. The accept hook
    is a state-passing function: in the daemon it reserves shows in the policy store
    as a side effect. *)
From stdpp Require Import base option list.
From S2P Require Import Prelude Binary64 Item Heap.

(** * Configuration and candidates *)

Record ScoringConfig := MkScoring {
  default_affinity : double;
  recency_half_life : Z;            (** milliseconds *)
  category_repeat_factor : double;
  advertiser_repeat_factor : double;
  overfetch : Z;
  min_score : double
}.

Definition default_scoring : ScoringConfig :=
  MkScoring d0_1 (24 * 7 * 3600 * 1000) d0_5 d0_3 4 d0.

Record Candidate := MkCandidate {
  c_relevance : double;
  c_id : ItemId;
  c_category : bstring;
  c_advertiser : bstring
}.

#[global] Instance candidate_inhabited : Inhabited Candidate :=
  populate (MkCandidate d0 0 [] []).

(** The mutable part of a [CandidateSelector]. *)
Record Selector := MkSelector {
  sel_count : Z;
  sel_limit : Z;
  shortlist : list Candidate;
  considered : Z;
  eligible : Z
}.

(** [std::numbers::ln2]. *)
Definition ln2 : double := MkDouble 0x3FE62E42FEFA39EF.

(** * Scores *)

Section Scorer.
Variables (std_exp : double -> double) (std_pow : double -> double -> double).

Definition recency_multiplier (age half_life : Z) : double :=
  if half_life <=? 0 then d1
  else
    let age_ms := d_max d0 (double_of_Z age) in
    let half_life_ms := double_of_Z half_life in
    std_exp (d_div (d_mul (d_opp ln2) age_ms) half_life_ms).

Definition is_eligible (item : Item) (signal : UserSignal) (now : Timestamp) : bool :=
  if d_leb (item_base_score item) d0 then false
  else if negb (never_expires item) && (item_expires_at item <=? now) then false
  else negb (excludes signal (item_category item)).

(** [now - item.created_at] is a signed 64-bit subtraction. *)
Definition base_relevance (item : Item) (signal : UserSignal) (config : ScoringConfig)
    (now : Timestamp) : double :=
  let affinity := affinity_for signal (item_category item) (default_affinity config) in
  let age := to_i64 (now - item_created_at item) in
  let recency := recency_multiplier age (recency_half_life config) in
  d_mul (d_mul (item_base_score item) affinity) recency.

(** * Retrieval *)

Definition selector_new (config : ScoringConfig) (count : Z) : Selector :=
  MkSelector count (if count =? 0 then 0 else wrap 64 (count * Z.max (overfetch config) 1)) [] 0 0.

Definition worse (a b : Candidate) : bool :=
  if negb (d_eqb (c_relevance a) (c_relevance b)) then d_ltb (c_relevance a) (c_relevance b)
  else c_id a <? c_id b.

(** The comparator both heap calls pass: the root is the weakest candidate. *)
Definition heap_comp (a b : Candidate) : bool := worse b a.

Definition candidate_of (item : Item) (relevance : double) : Candidate :=
  MkCandidate relevance (item_id item) (item_category item) (item_advertiser item).

(** The heap part of [consider]. *)
Definition retain (limit : Z) (candidate : Candidate) (l : list Candidate) : list Candidate :=
  if zlen l <? limit then push_heap heap_comp (l ++ [candidate])
  else if limit =? 0 then l
  else if negb (worse candidate (l !!! 0%nat)) then
    let l := pop_heap heap_comp l in
    let l := <[(length l - 1)%nat := candidate]> l in
    push_heap heap_comp l
  else l.

Definition consider (config : ScoringConfig) (signal : UserSignal) (now : Timestamp)
    (item : Item) (s : Selector) : Selector :=
  let s := MkSelector (sel_count s) (sel_limit s) (shortlist s) (wrap 64 (considered s + 1)) (eligible s) in
  if negb (is_eligible item signal now) then s
  else
    let s := MkSelector (sel_count s) (sel_limit s) (shortlist s) (considered s) (wrap 64 (eligible s + 1)) in
    let relevance := base_relevance item signal config now in
    if d_leb relevance (min_score config) then s
    else MkSelector (sel_count s) (sel_limit s)
           (retain (sel_limit s) (candidate_of item relevance) (shortlist s))
           (considered s) (eligible s).

(** * Selection *)

(** The small vectors of counts. *)
Fixpoint count_of (counts : list (bstring * Z)) (key : bstring) : Z :=
  match counts with
  | [] => 0
  | (k, n) :: rest => if decide (k = key) then n else count_of rest key
  end.

Fixpoint increment (counts : list (bstring * Z)) (key : bstring) : list (bstring * Z) :=
  match counts with
  | [] => [(key, 1)]
  | (k, n) :: rest => if decide (k = key) then (k, n + 1) :: rest else (k, n) :: increment rest key
  end.

Section Select.
Variable config : ScoringConfig.

Definition adjusted_score (categories advertisers : list (bstring * Z)) (candidate : Candidate)
    : double :=
  let category_penalty :=
    std_pow (category_repeat_factor config)
      (double_of_Z (count_of categories (c_category candidate))) in
  let advertiser_penalty :=
    std_pow (advertiser_repeat_factor config)
      (double_of_Z (count_of advertisers (c_advertiser candidate))) in
  d_mul (d_mul (c_relevance candidate) category_penalty) advertiser_penalty.

(** The inner loop: the best untaken candidate so far, with its position and
    adjusted score. [None] is [best_index == shortlist_.size()]. *)
Fixpoint best_candidate (categories advertisers : list (bstring * Z)) (i : nat)
    (l : list Candidate) (taken : list bool) (best : option (nat * Candidate * double))
    : option (nat * Candidate * double) :=
  match l, taken with
  | candidate :: l, t :: taken =>
      let best :=
        if t then best
        else
          let adjusted := adjusted_score categories advertisers candidate in
          match best with
          | None => Some (i, candidate, adjusted)
          | Some (_, b, best_adjusted) =>
              if d_gtb adjusted best_adjusted ||
                 (d_eqb adjusted best_adjusted && (c_id candidate <? c_id b))
              then Some (i, candidate, adjusted) else best
          end in
      best_candidate categories advertisers (S i) l taken best
  | _, _ => best
  end.

Section Accept.
Context {S : Type} (accept : ItemId -> S -> bool * S).

(** The greedy loop. Every round marks a candidate taken, so the number of
    candidates is enough fuel. *)
Fixpoint select_loop (fuel : nat) (count : Z) (l : list Candidate) (taken : list bool)
    (categories advertisers : list (bstring * Z)) (chosen : list RankedItem) (st : S)
    : list RankedItem * S :=
  match fuel with
  | O => (chosen, st)
  | Datatypes.S fuel =>
      if zlen chosen <? count then
        match best_candidate categories advertisers 0 l taken None with
        | None => (chosen, st)
        | Some (i, winner, adjusted) =>
            let taken := <[i := true]> taken in
            let '(ok, st) := accept (c_id winner) st in
            if negb ok then select_loop fuel count l taken categories advertisers chosen st
            else
              select_loop fuel count l taken
                (increment categories (c_category winner))
                (increment advertisers (c_advertiser winner))
                (chosen ++ [MkRanked (c_id winner) adjusted (c_category winner) (c_advertiser winner)])
                st
        end
      else (chosen, st)
  end.

Definition select (s : Selector) (st : S) : list RankedItem * S :=
  if (sel_count s =? 0) || (zlen (shortlist s) =? 0) then ([], st)
  else select_loop (length (shortlist s)) (sel_count s) (shortlist s)
         (replicate (length (shortlist s)) false) [] [] [] st.
End Accept.
End Select.
End Scorer.

(** * Specification of the two stages *)

#[global] Instance Candidate_eq_dec : EqDecision Candidate.
Proof. solve_decision. Defined.

Section Spec.
Variables (std_exp : double -> double) (std_pow : double -> double -> double).
Variable config : ScoringConfig.

(** The candidates an inventory scan offers to the shortlist. *)
Definition passing (signal : UserSignal) (now : Timestamp) (items : list Item) : list Candidate :=
  omap (fun item =>
    if is_eligible item signal now then
      let relevance := base_relevance std_exp item signal config now in
      if d_leb relevance (min_score config) then None else Some (candidate_of item relevance)
    else None) items.

(** Retrieval over a whole inventory, in scan order. *)
Definition retrieve (signal : UserSignal) (now : Timestamp) (count : Z) (items : list Item) : Selector :=
  foldl (fun s item => consider std_exp config signal now item s) (selector_new config count) items.

(** [x] is chosen over [w] given the counts so far. *)
Definition beats (categories advertisers : list (bstring * Z)) (x w : Candidate) : bool :=
  let ax := adjusted_score std_pow config categories advertisers x in
  let aw := adjusted_score std_pow config categories advertisers w in
  d_gtb ax aw || (d_eqb ax aw && (c_id x <? c_id w)).

Definition ranked_of (categories advertisers : list (bstring * Z)) (w : Candidate) : RankedItem :=
  MkRanked (c_id w) (adjusted_score std_pow config categories advertisers w) (c_category w) (c_advertiser w).

Section Greedy.
Context {S : Type} (accept : ItemId -> S -> bool * S) (count : Z).
(** How a winner relates to the candidates left behind. *)
Variable best : list (bstring * Z) -> list (bstring * Z) -> Candidate -> list Candidate -> Prop.

(** Greedy selection on the collection of remaining candidates: what is offered to
    the hook in which order, what is chosen, and the hook's final state. *)
Inductive greedy : list Candidate -> list (bstring * Z) -> list (bstring * Z) -> Z -> S ->
    list (Candidate * bool) -> list RankedItem -> S -> Prop :=
| greedy_full rem cats advs n st :
    count <= n -> greedy rem cats advs n st [] [] st
| greedy_exhausted cats advs n st :
    greedy [] cats advs n st [] [] st
| greedy_rejected rem w rest cats advs n st st1 offered out st' :
    n < count -> rem ≡ₚ w :: rest -> best cats advs w rest ->
    accept (c_id w) st = (false, st1) ->
    greedy rest cats advs n st1 offered out st' ->
    greedy rem cats advs n st ((w, false) :: offered) out st'
| greedy_taken rem w rest cats advs n st st1 offered out st' :
    n < count -> rem ≡ₚ w :: rest -> best cats advs w rest ->
    accept (c_id w) st = (true, st1) ->
    greedy rest (increment cats (c_category w)) (increment advs (c_advertiser w)) (n + 1) st1
      offered out st' ->
    greedy rem cats advs n st ((w, true) :: offered) (ranked_of cats advs w :: out) st'.
End Greedy.

(** The winner is not beaten by any candidate left behind. *)
Definition unbeaten (categories advertisers : list (bstring * Z)) (w : Candidate) (rest : list Candidate)
    : Prop :=
  Forall (fun x => beats categories advertisers x w = false) rest.
End Spec.

(** * Retrieval *)

#[local] Opaque d_key is_nan d_eqb d_ltb d_leb.

Lemma worse_spec a b :
  is_nan (c_relevance a) = false -> is_nan (c_relevance b) = false ->
  worse a b = true <->
  key_lt (d_key (c_relevance a)) (d_key (c_relevance b)) \/
  (d_key (c_relevance a) = d_key (c_relevance b) /\ c_id a < c_id b).
Proof.
  intros Ha Hb. unfold worse. destruct (d_eqb _ _) eqn:E; cbn [negb].
  - apply d_eqb_key in E; [|done..]. rewrite E, Z.ltb_lt. split; [tauto|].
    intros [H|[_ H]]; [by apply key_lt_irrefl in H|done].
  - rewrite d_ltb_key by done. split; [tauto|]. intros [H|[H _]]; [done|].
    apply d_eqb_key in H; [congruence|done..].
Qed.

(** A score that is a number. *)
Definition scored (c : Candidate) : Prop := is_nan (c_relevance c) = false.

Lemma worse_asym a b : scored a -> scored b -> worse a b = true -> worse b a = false.
Proof.
  intros Ha Hb H. destruct (worse b a) eqn:E; [|done]. apply worse_spec in H; [|done..].
  apply worse_spec in E; [|done..]. destruct H as [H|[H1 H2]], E as [E|[E1 E2]].
  - by destruct (key_lt_irrefl _ (key_lt_trans _ _ _ H E)).
  - rewrite E1 in H. by apply key_lt_irrefl in H.
  - rewrite H1 in E. by apply key_lt_irrefl in E.
  - lia.
Qed.

Lemma worse_trans a b c :
  scored a -> scored b -> scored c -> worse a b = true -> worse b c = true -> worse a c = true.
Proof.
  intros Ha Hb Hc H1 H2. apply worse_spec in H1, H2; [|done..]. apply worse_spec; [done..|].
  destruct H1 as [H1|[H1 I1]], H2 as [H2|[H2 I2]].
  - left. by apply (key_lt_trans _ _ _ H1).
  - left. by rewrite <- H2.
  - left. by rewrite H1.
  - right. split; [congruence|lia].
Qed.

Lemma worse_total a b : scored a -> scored b -> worse a b = false -> worse b a = false -> c_id a = c_id b.
Proof.
  intros Ha Hb H1 H2. pose proof (worse_spec a b Ha Hb) as S1. pose proof (worse_spec b a Hb Ha) as S2.
  rewrite H1 in S1. rewrite H2 in S2.
  destruct (key_lt_total (d_key (c_relevance a)) (d_key (c_relevance b))) as [H|[H|H]].
  - assert (false = true) by (apply S1; tauto). done.
  - destruct (Z.lt_trichotomy (c_id a) (c_id b)) as [?|[?|?]]; [|done|].
    + assert (false = true) by (apply S1; tauto). done.
    + assert (false = true) by (apply S2; right; split; [by symmetry|lia]). done.
  - assert (false = true) by (apply S2; tauto). done.
Qed.

Lemma worse_negtrans a b c :
  scored a -> scored b -> scored c -> worse a b = false -> worse b c = false -> worse a c = false.
Proof.
  intros Ha Hb Hc H1 H2. destruct (worse a c) eqn:E; [|done]. destruct (worse b a) eqn:E1.
  { by rewrite (worse_trans b a c) in H2. }
  destruct (worse c b) eqn:E2.
  { by rewrite (worse_trans a c b) in H1. }
  pose proof (worse_total a b Ha Hb H1 E1). pose proof (worse_total b c Hb Hc H2 E2).
  apply worse_spec in E; [|done..]. pose proof (worse_spec a b Ha Hb) as S1. rewrite H1 in S1.
  pose proof (worse_spec b c Hb Hc) as S2. rewrite H2 in S2. destruct E as [E|[E I]]; [|lia].
  destruct (key_lt_total (d_key (c_relevance a)) (d_key (c_relevance b))) as [K|[K|K]].
  - assert (false = true) by (apply S1; tauto). done.
  - rewrite K in E. assert (false = true) by (apply S2; tauto). done.
  - assert (false = true); [|done]. apply S2. left. by apply (key_lt_trans _ _ _ K).
Qed.

Section Retain.
#[local] Abbreviation P := scored.

Lemma heap_comp_asym a b : P a -> P b -> heap_comp a b = true -> heap_comp b a = false.
Proof. unfold heap_comp. intros ??. by apply worse_asym. Qed.
Lemma heap_comp_trans a b c :
  P a -> P b -> P c -> heap_comp a b = true -> heap_comp b c = true -> heap_comp a c = true.
Proof. unfold heap_comp. intros ?????. by apply (worse_trans c b a). Qed.
Lemma heap_comp_negtrans a b c :
  P a -> P b -> P c -> heap_comp a b = false -> heap_comp b c = false -> heap_comp a c = false.
Proof. unfold heap_comp. intros ?????. by apply (worse_negtrans c b a). Qed.

(** The shortlist [l] after the candidates [seen]: a heap holding the best of them. *)
Record top (limit : Z) (seen l dropped : list Candidate) : Prop := {
  top_heap : heap heap_comp l (length l);
  top_perm : l ++ dropped ≡ₚ seen;
  top_len : zlen l = Z.min limit (zlen seen);
  top_best : forall k d, k ∈ l -> d ∈ dropped -> worse k d = false
}.

Lemma root_weakest l x : heap heap_comp l (length l) -> Forall P l -> x ∈ l -> worse x (l !!! 0%nat) = false.
Proof.
  intros Hh HP [i Hi]%list_elem_of_lookup. rewrite <- (list_lookup_total_correct _ _ _ Hi).
  apply (heap_root heap_comp P heap_comp_asym heap_comp_negtrans l (length l) i Hh).
  - intros j Hj. by apply Forall_lookup_total_1.
  - by apply lookup_lt_Some in Hi.
Qed.

Lemma retain_replace l x :
  (0 < length l)%nat ->
  let popped := pop_heap heap_comp l in
  let l' := push_heap heap_comp (<[(length popped - 1)%nat := x]> popped) in
  l !!! 0%nat :: l' ≡ₚ x :: l /\
  (heap heap_comp l (length l) -> Forall P l -> P x -> heap heap_comp l' (length l')).
Proof. apply replace_root; eauto using heap_comp_asym, heap_comp_trans, heap_comp_negtrans. Qed.

(** Even without a meaningful order, nothing is invented and the bound holds. *)
Lemma retain_shape limit c l :
  0 <= limit -> zlen l <= limit ->
  zlen (retain limit c l) <= limit /\ retain limit c l ⊆+ c :: l.
Proof.
  intros H0 Hl. unfold retain. destruct (Z.ltb_spec (zlen l) limit) as [Hlt|Hge].
  { assert (H2 : push_heap heap_comp (l ++ [c]) ≡ₚ l ++ [c]) by (apply push_heap_perm; by destruct l).
    split; [unfold zlen in *; rewrite H2, length_app; cbn; lia|].
    by rewrite H2, (Permutation_app_comm l [c]). }
  destruct (Z.eqb_spec limit 0) as [E|E]; [split; [done|by apply submseteq_cons]|].
  destruct (worse _ _); cbn [negb]; [split; [done|by apply submseteq_cons]|].
  destruct (retain_replace l c) as [R _]; [unfold zlen in *; lia|]. cbv zeta in R |- *.
  set (l' := push_heap _ _) in *. split.
  - apply Permutation_length in R. unfold zlen in *. cbn in R. lia.
  - rewrite <- R. by apply submseteq_cons.
Qed.

Lemma top_push limit seen l dropped c :
  zlen l < limit -> Forall P (c :: seen) -> top limit seen l dropped ->
  top limit (c :: seen) (retain limit c l) dropped.
Proof.
  intros Hl HP [Hh Hp Hn Hb]. unfold retain. rewrite (proj2 (Z.ltb_lt _ _) Hl).
  assert (Hd : dropped = []).
  { apply zlen_nil_iff. apply Permutation_length in Hp. rewrite length_app in Hp. unfold zlen in *. lia. }
  subst dropped. rewrite app_nil_r in Hp.
  assert (HP' : Forall P (l ++ [c])).
  { rewrite Forall_app, Hp. inversion HP. by repeat constructor. }
  assert (H2 : push_heap heap_comp (l ++ [c]) ≡ₚ l ++ [c]) by (apply push_heap_perm; by destruct l).
  split.
  - rewrite (Permutation_length H2). apply (push_heap_spec heap_comp P); try done.
    + apply heap_comp_asym.
    + apply heap_comp_trans.
    + apply heap_comp_negtrans.
  - rewrite app_nil_r, H2, Hp, (Permutation_app_comm seen [c]). done.
  - unfold zlen in *. rewrite (Permutation_length H2), length_app. cbn [length]. lia.
  - intros k d _ Hd. by apply not_elem_of_nil in Hd.
Qed.

Lemma top_full limit seen l dropped c :
  0 <= limit <= zlen l -> Forall P (c :: seen) -> top limit seen l dropped ->
  exists d, top limit (c :: seen) (retain limit c l) (d :: dropped).
Proof.
  intros Hl HP [Hh Hp Hn Hb]. inversion HP as [|?? Hc HPs]; subst.
  assert (HPl : Forall P l /\ Forall P dropped).
  { by rewrite <- Forall_app, Hp. }
  destruct HPl as [HPl HPd]. unfold retain. rewrite (proj2 (Z.ltb_ge _ _)) by lia.
  assert (Hlen : zlen l = Z.min limit (zlen (c :: seen))) by (unfold zlen in *; cbn [length]; lia).
  destruct (Z.eqb_spec limit 0) as [E0|E0].
  { exists c. assert (l = []) as -> by (apply zlen_nil_iff; unfold zlen in *; lia). split; try done.
    - by rewrite <- Hp.
    - intros k d Hk. by apply not_elem_of_nil in Hk. }
  assert (Hpos : (0 < length l)%nat) by (unfold zlen in *; lia).
  assert (Hroot : l !!! 0%nat ∈ l) by (by apply list_elem_of_lookup_total_2).
  assert (HProot : P (l !!! 0%nat)) by (rewrite Forall_forall in HPl; auto).
  destruct (worse c (l !!! 0%nat)) eqn:E; cbn [negb].
  - exists c. split; try done.
    + by rewrite <- Permutation_middle, Hp.
    + intros k d Hk [->|Hd]%elem_of_cons; [|by apply Hb].
      apply worse_asym; [done|by rewrite Forall_forall in HPl; auto|].
      pose proof (root_weakest l k Hh HPl Hk). destruct (worse c k) eqn:E'; [done|].
      rewrite (worse_negtrans c k (l !!! 0%nat)) in E; try done. rewrite Forall_forall in HPl; auto.
  - destruct (retain_replace l c Hpos) as [R2 R1]. specialize (R1 Hh HPl Hc).
    set (l' := push_heap heap_comp _) in *. exists (l !!! 0%nat). split; try done.
    + rewrite <- Permutation_middle, app_comm_cons, R2. cbn. by rewrite Hp.
    + rewrite <- Hlen. unfold zlen. apply Permutation_length in R2. cbn in R2. lia.
    + assert (Hl' : forall k, k ∈ l' -> k = c \/ k ∈ l).
      { intros k Hk. assert (Hk' : k ∈ c :: l) by (rewrite <- R2; by right).
        by apply elem_of_cons in Hk'. }
      assert (Hweak : forall k, k ∈ l' -> P k /\ worse k (l !!! 0%nat) = false).
      { intros k [->|Hk]%Hl'; [done|]. split; [rewrite Forall_forall in HPl; auto|by apply root_weakest]. }
      intros k d Hk [->|Hd]%elem_of_cons; [by apply Hweak|]. destruct (Hweak k Hk) as [Hkp Hkw].
      apply (worse_negtrans _ (l !!! 0%nat)); try done; [rewrite Forall_forall in HPd; auto|by apply Hb].
Qed.

Lemma top_nil limit : 0 <= limit -> top limit [] [] [].
Proof.
  intros. split.
  - intros i Hi. cbn in Hi. lia.
  - done.
  - unfold zlen. cbn [length]. lia.
  - intros k d Hk. by apply not_elem_of_nil in Hk.
Qed.

Lemma top_retain limit seen l dropped c :
  0 <= limit -> Forall P (c :: seen) -> top limit seen l dropped ->
  exists dropped', top limit (c :: seen) (retain limit c l) dropped'.
Proof.
  intros H0 HP Ht. destruct (decide (zlen l < limit)) as [Hlt|Hge].
  - eexists. by apply top_push.
  - destruct (top_full limit seen l dropped c) as [d Hd]; [lia|done..|]. by eexists.
Qed.
End Retain.

Section Retrieval.
Variables (std_exp : double -> double) (config : ScoringConfig).
Variables (signal : UserSignal) (now : Timestamp).
#[local] Abbreviation passing := (passing std_exp config signal now).
#[local] Abbreviation consider := (consider std_exp config signal now).

(** What one item adds to the shortlist. *)
Lemma consider_shortlist item s :
  shortlist (consider item s) =
    match passing [item] with c :: _ => retain (sel_limit s) c (shortlist s) | [] => shortlist s end /\
  sel_limit (consider item s) = sel_limit s /\ sel_count (consider item s) = sel_count s.
Proof.
  unfold consider, passing. cbn [omap list_omap]. destruct (is_eligible item signal now); cbn [negb]; [|done].
  by destruct (d_leb _ _).
Qed.

Lemma passing_app items1 items2 : passing (items1 ++ items2) = passing items1 ++ passing items2.
Proof. unfold passing. apply omap_app. Qed.

Lemma passing_perm items1 items2 : items1 ≡ₚ items2 -> passing items1 ≡ₚ passing items2.
Proof. intros H. unfold passing. by rewrite H. Qed.

Lemma passing_one item : passing [item] = [] \/ exists c, passing [item] = [c].
Proof.
  unfold passing. cbn [omap list_omap]. destruct (is_eligible _ _ _); [|by left].
  destruct (d_leb _ _); [by left|right; by eexists].
Qed.

Lemma retrieve_limit count items :
  sel_limit (retrieve std_exp config signal now count items) = sel_limit (selector_new config count) /\
  sel_count (retrieve std_exp config signal now count items) = count.
Proof.
  induction items as [|item items [IH1 IH2]] using rev_ind; [done|]. unfold retrieve in *.
  rewrite foldl_app. cbn [foldl]. set (s := foldl _ _ items) in *.
  destruct (consider_shortlist item s) as (_ & E1 & E2). split; congruence.
Qed.

Lemma selector_limit_nonneg count : 0 <= sel_limit (selector_new config count).
Proof. cbn. destruct (count =? 0); [lia|]. apply wrap_fits. lia. Qed.

Lemma retrieve_top count items :
  Forall scored (passing items) ->
  exists dropped, top (sel_limit (selector_new config count)) (passing items)
    (shortlist (retrieve std_exp config signal now count items)) dropped.
Proof.
  induction items as [|item items IH] using rev_ind; intros HP.
  { exists []. apply top_nil, selector_limit_nonneg. }
  rewrite passing_app, Forall_app in HP. destruct HP as [HP1 HP2]. destruct (IH HP1) as [dropped Ht].
  unfold retrieve. rewrite foldl_app. cbn [foldl]. fold (retrieve std_exp config signal now count items).
  destruct (consider_shortlist item (retrieve std_exp config signal now count items)) as (-> & _ & _).
  rewrite (proj1 (retrieve_limit count items)), passing_app.
  destruct (passing_one item) as [->|[c Ec]]; [exists dropped; by rewrite app_nil_r|].
  rewrite Ec in *. destruct (top_retain _ _ _ _ c (selector_limit_nonneg count)
    (Forall_cons_2 _ _ _ (Forall_inv HP2) HP1) Ht) as [d' [T1 T2 T3 T4]].
  exists d'. split; try done.
  - by rewrite T2, Permutation_cons_append.
  - rewrite T3. unfold zlen. rewrite length_app. cbn [length]. f_equal. lia.
Qed.
End Retrieval.

(** Two shortlists of the same candidates hold the same ones. *)
Lemma top_unique limit seen l1 d1 l2 d2 :
  Forall scored seen -> NoDup (c_id <$> seen) ->
  top limit seen l1 d1 -> top limit seen l2 d2 -> l1 ≡ₚ l2.
Proof.
  intros HP Hnd T1 T2.
  assert (Hid : forall a b, a ∈ seen -> b ∈ seen -> c_id a = c_id b -> a = b).
  { intros a b [i Hi]%list_elem_of_lookup [j Hj]%list_elem_of_lookup E.
    assert (i = j); [|congruence]. apply (NoDup_lookup (c_id <$> seen) i j (c_id a)); try done.
    - by rewrite list_lookup_fmap, Hi.
    - rewrite list_lookup_fmap, Hj. cbn. by rewrite E. }
  apply NoDup_fmap_1 in Hnd.
  assert (Hin : forall l d, top limit seen l d -> NoDup l /\ (forall x, x ∈ l \/ x ∈ d <-> x ∈ seen)).
  { intros l d T. rewrite <- (top_perm _ _ _ _ T) in Hnd. split; [by apply NoDup_app in Hnd as [? _]|].
    intros x. by rewrite <- elem_of_app, (top_perm _ _ _ _ T). }
  destruct (Hin _ _ T1) as [N1 E1], (Hin _ _ T2) as [N2 E2].
  assert (Hlen : length l1 = length l2).
  { pose proof (top_len _ _ _ _ T1). pose proof (top_len _ _ _ _ T2). unfold zlen in *. lia. }
  rewrite Forall_forall in HP. symmetry. apply submseteq_length_Permutation; [|lia].
  apply NoDup_submseteq; [done|]. intros y Hy.
  destruct (decide (y ∈ l1)) as [?|Hn]; [done|exfalso].
  assert (Hy1 : y ∈ d1) by (destruct (proj2 (E1 y)); [by apply E2; left|done|done]).
  destruct (decide (Forall (.∈ l2) l1)) as [Hall|Hex%not_Forall_Exists]; [| |apply _].
  - rewrite Forall_forall in Hall. assert (Hp : l1 ≡ₚ l2).
    { apply submseteq_length_Permutation; [by apply NoDup_submseteq|lia]. }
    by rewrite Hp in Hn.
  - apply Exists_exists in Hex as (x & Hx & Hx2). cbn in Hx2.
    assert (Hxs : x ∈ seen) by (apply E1; by left). assert (Hys : y ∈ seen) by (apply E2; by left).
    assert (Hxd : x ∈ d2) by (destruct (proj2 (E2 x) Hxs); done).
    assert (x = y) as ->; [|done]. apply Hid; [done..|].
    apply worse_total; [auto..| |].
    + by apply (top_best _ _ _ _ T1).
    + by apply (top_best _ _ _ _ T2).
Qed.

(** * Selection *)

(** The candidates not taken yet. *)
Fixpoint untaken (l : list Candidate) (taken : list bool) : list Candidate :=
  match l, taken with
  | c :: l, t :: taken => if t then untaken l taken else c :: untaken l taken
  | _, _ => []
  end.

Lemma untaken_replicate l : untaken l (replicate (length l) false) = l.
Proof. induction l as [|c l IH]; [done|]. cbn. by rewrite IH. Qed.

Lemma length_untaken l taken : (length (untaken l taken) <= length l)%nat.
Proof.
  revert taken. induction l as [|c l IH]; intros [|[] taken]; cbn; try lia; specialize (IH taken); lia.
Qed.

Lemma untaken_take l taken j w :
  l !! j = Some w -> taken !! j = Some false ->
  untaken l taken ≡ₚ w :: untaken l (<[j := true]> taken).
Proof.
  revert taken j. induction l as [|c l IH]; intros [|t taken] [|j] Hw Ht; try done; cbn in *.
  - by simplify_eq.
  - destruct t; [by apply IH|]. rewrite (IH taken j Hw Ht). apply Permutation_swap.
Qed.

Section Selection.
Variables (std_pow : double -> double -> double) (config : ScoringConfig).
#[local] Abbreviation beats := (beats std_pow config).
#[local] Abbreviation adjusted := (adjusted_score std_pow config).
#[local] Abbreviation best_candidate := (best_candidate std_pow config).

(** The inner loop on the untaken candidates alone. *)
Definition pick (cats advs : list (bstring * Z)) (best : option Candidate) (c : Candidate)
    : option Candidate :=
  match best with
  | None => Some c
  | Some b => if beats cats advs c b then Some c else best
  end.

(** A search state is consistent when its score is its candidate's. *)
Definition is_best (cats advs : list (bstring * Z)) (o : option (nat * Candidate * double))
    (b : option Candidate) : Prop :=
  match o, b with
  | None, None => True
  | Some (_, c, s), Some c' => c = c' /\ s = adjusted cats advs c
  | _, _ => False
  end.

Lemma best_candidate_pick cats advs i l taken o b :
  length l = length taken -> is_best cats advs o b ->
  is_best cats advs (best_candidate cats advs i l taken o) (foldl (pick cats advs) b (untaken l taken)).
Proof.
  revert i taken o b. induction l as [|c l IH]; intros i [|t taken] o b Hlen Ho; try done.
  cbn [best_candidate untaken]. injection Hlen as Hlen. destruct t; [by apply IH|].
  cbn [foldl]. apply IH; [done|]. destruct o as [[[k c0] s]|], b as [b|]; try done.
  destruct Ho as [-> ->]. cbn [pick is_best]. unfold beats.
  by destruct (d_gtb _ _ || _).
Qed.

Lemma best_candidate_index cats advs i l taken o :
  length l = length taken ->
  best_candidate cats advs i l taken o = o \/
  exists j w s, best_candidate cats advs i l taken o = Some ((i + j)%nat, w, s) /\
    l !! j = Some w /\ taken !! j = Some false.
Proof.
  revert i taken o. induction l as [|c l IH]; intros i [|t taken] o Hlen; try (by left).
  injection Hlen as Hlen. cbn [best_candidate].
  match goal with |- context [best_candidate _ _ (S i) l taken ?o'] => set (o1 := o') end.
  assert (Ho1 : o1 = o \/ (t = false /\ o1 = Some (i, c, adjusted cats advs c))).
  { unfold o1. destruct t; [by left|]. destruct o as [[[? ?] ?]|]; [destruct (_ || _)|]; auto. }
  destruct (IH (S i) taken o1 Hlen) as [E|(j & w & s & E & Hw & Ht)]; rewrite E.
  - destruct Ho1 as [->|[-> ->]]; [by left|]. right. exists 0%nat, c. eexists.
    split; [|done]. by rewrite Nat.add_0_r.
  - right. exists (S j), w, s. split; [|done]. do 3 f_equal. lia.
Qed.

Lemma pick_some cats advs l b : exists b', foldl (pick cats advs) (Some b) l = Some b'.
Proof.
  revert b. induction l as [|c l IH]; intros b; [by eexists|]. cbn [foldl pick].
  destruct (beats _ _ c b); apply IH.
Qed.

(** One round: nothing is left, or some untaken candidate wins. *)
Lemma best_candidate_round cats advs l taken :
  length l = length taken ->
  (best_candidate cats advs 0 l taken None = None /\ untaken l taken = []) \/
  exists j w, best_candidate cats advs 0 l taken None = Some (j, w, adjusted cats advs w) /\
    untaken l taken ≡ₚ w :: untaken l (<[j := true]> taken) /\
    foldl (pick cats advs) None (untaken l taken) = Some w.
Proof.
  intros Hlen. pose proof (best_candidate_pick cats advs 0 l taken None None Hlen I) as Hp.
  destruct (best_candidate_index cats advs 0 l taken None Hlen) as [E|(j & w & s & E & Hw & Ht)];
    rewrite E in *.
  - left. split; [done|]. destruct (untaken l taken) as [|c u]; [done|]. cbn [foldl pick] in Hp.
    destruct (pick_some cats advs u c) as [b' Eb]. by rewrite Eb in Hp.
  - right. exists j, w. destruct (foldl _ _ _) as [b|] eqn:Eb; [|done]. destruct Hp as [<- ->].
    split; [done|]. split; [|done]. by apply untaken_take.
Qed.

Section Loop.
Context {S : Type} (accept : ItemId -> S -> bool * S).
Variable best : list (bstring * Z) -> list (bstring * Z) -> Candidate -> list Candidate -> Prop.
Variable ok : list Candidate -> Prop.
Hypothesis ok_perm : forall u w rest, u ≡ₚ w :: rest -> ok u -> ok rest.
Hypothesis pick_best : forall cats advs u w rest,
  ok u -> u ≡ₚ w :: rest -> foldl (pick cats advs) None u = Some w -> best cats advs w rest.

Lemma select_loop_greedy count fuel l taken cats advs chosen st :
  length l = length taken -> (length (untaken l taken) <= fuel)%nat -> ok (untaken l taken) ->
  exists offered out st',
    select_loop std_pow config accept fuel count l taken cats advs chosen st = (chosen ++ out, st') /\
    greedy std_pow config accept count best (untaken l taken) cats advs (zlen chosen) st offered out st'.
Proof.
  revert taken cats advs chosen st. induction fuel as [|fuel IH]; intros taken cats advs chosen st Hlen Hf Hok.
  { exists [], [], st. rewrite app_nil_r. split; [done|]. destruct (untaken l taken); [apply greedy_exhausted|cbn in Hf; lia]. }
  cbn [select_loop]. destruct (Z.ltb_spec (zlen chosen) count) as [Hlt|Hge].
  2:{ exists [], [], st. rewrite app_nil_r. split; [done|]. by apply greedy_full. }
  destruct (best_candidate_round cats advs l taken Hlen) as [[-> Hu]|(j & w & -> & Hu & Hp)].
  { exists [], [], st. rewrite app_nil_r, Hu. split; [done|]. apply greedy_exhausted. }
  destruct (accept (c_id w) st) as [a st1] eqn:Ea.
  assert (Hlen' : length l = length (<[j := true]> taken)) by (by rewrite length_insert).
  assert (Hf' : (length (untaken l (<[j := true]> taken)) <= fuel)%nat).
  { apply Permutation_length in Hu. cbn in Hu. lia. }
  pose proof (ok_perm _ _ _ Hu Hok) as Hok'. pose proof (pick_best _ _ _ _ _ Hok Hu Hp) as Hb.
  destruct a; cbn [negb].
  - edestruct (IH (<[j := true]> taken) (increment cats (c_category w)) (increment advs (c_advertiser w))
      (chosen ++ [MkRanked (c_id w) (adjusted cats advs w) (c_category w) (c_advertiser w)]) st1 Hlen' Hf' Hok')
      as (offered & out & st' & -> & Hg).
    exists ((w, true) :: offered), (ranked_of std_pow config cats advs w :: out), st'.
    rewrite <- app_assoc. split; [done|]. rewrite zlen_app in Hg. by eapply greedy_taken.
  - destruct (IH (<[j := true]> taken) cats advs chosen st1 Hlen' Hf' Hok') as (offered & out & st' & -> & Hg).
    exists ((w, false) :: offered), out, st'. split; [done|]. by eapply greedy_rejected.
Qed.

Lemma select_greedy s st :
  0 <= sel_count s -> ok (shortlist s) ->
  exists offered out st',
    select std_pow config accept s st = (out, st') /\
    greedy std_pow config accept (sel_count s) best (shortlist s) [] [] 0 st offered out st'.
Proof.
  intros Hc Hok. unfold select. destruct (Z.eqb_spec (sel_count s) 0) as [E|E]; cbn [orb].
  { exists [], [], st. split; [done|]. apply greedy_full. lia. }
  destruct (Z.eqb_spec (zlen (shortlist s)) 0) as [E0|E0].
  { apply zlen_nil_iff in E0. rewrite E0. exists [], [], st. split; [done|]. apply greedy_exhausted. }
  destruct (select_loop_greedy (sel_count s) (length (shortlist s)) (shortlist s)
    (replicate (length (shortlist s)) false) [] [] [] st) as (offered & out & st' & H1 & H2).
  - by rewrite length_replicate.
  - apply length_untaken.
  - by rewrite untaken_replicate.
  - exists offered, out, st'. by rewrite untaken_replicate in H2.
Qed.
End Loop.
End Selection.

(** ** Optimality and determinism *)

Section Greedy_facts.
Variables (std_pow : double -> double -> double) (config : ScoringConfig).
#[local] Abbreviation beats := (beats std_pow config).
#[local] Abbreviation adjusted := (adjusted_score std_pow config).
#[local] Abbreviation pick := (pick std_pow config).

(** Whatever has been chosen, the candidate's adjusted score is a number. *)
Definition numeric (c : Candidate) : Prop := forall cats advs, is_nan (adjusted cats advs c) = false.

Lemma beats_spec cats advs x w :
  numeric x -> numeric w ->
  beats cats advs x w = true <->
  key_lt (d_key (adjusted cats advs w)) (d_key (adjusted cats advs x)) \/
  (d_key (adjusted cats advs x) = d_key (adjusted cats advs w) /\ c_id x < c_id w).
Proof.
  intros Hx Hw. specialize (Hx cats advs). specialize (Hw cats advs). unfold beats.
  rewrite orb_true_iff, andb_true_iff, Z.ltb_lt. unfold d_gtb.
  by rewrite d_ltb_key, d_eqb_key by done.
Qed.

Lemma beats_irrefl cats advs x : numeric x -> beats cats advs x x = false.
Proof.
  intros Hx. apply not_true_is_false. rewrite beats_spec by done.
  intros [H|[_ H]]; [by apply key_lt_irrefl in H|lia].
Qed.

Lemma beats_trans cats advs x y z :
  numeric x -> numeric y -> numeric z ->
  beats cats advs x y = true -> beats cats advs y z = true -> beats cats advs x z = true.
Proof.
  intros Hx Hy Hz. rewrite !beats_spec by done. intros [H1|[H1 I1]] [H2|[H2 I2]].
  - left. by apply (key_lt_trans _ _ _ H2).
  - left. by rewrite <- H2.
  - left. by rewrite H1.
  - right. split; [congruence|lia].
Qed.

Lemma beats_asym cats advs x y :
  numeric x -> numeric y -> beats cats advs x y = true -> beats cats advs y x = false.
Proof.
  intros Hx Hy H. destruct (beats cats advs y x) eqn:E; [|done].
  by rewrite <- (beats_irrefl cats advs x Hx), (beats_trans cats advs x y x).
Qed.

Lemma beats_total cats advs x y :
  numeric x -> numeric y -> beats cats advs x y = false -> beats cats advs y x = false -> c_id x = c_id y.
Proof.
  intros Hx Hy H1%not_true_iff_false H2%not_true_iff_false. rewrite beats_spec in H1, H2 by done.
  destruct (key_lt_total (d_key (adjusted cats advs x)) (d_key (adjusted cats advs y))) as [H|[H|H]]; [tauto| |tauto].
  destruct (Z.lt_trichotomy (c_id x) (c_id y)) as [?|[?|?]]; [tauto|done|].
  exfalso. apply H2. right. by split; [symmetry|lia].
Qed.

Lemma pick_unbeaten cats advs l b seen w :
  Forall numeric (seen ++ b :: l) -> Forall (fun y => beats cats advs y b = false) seen ->
  foldl (pick cats advs) (Some b) l = Some w ->
  Forall (fun y => beats cats advs y w = false) (seen ++ b :: l).
Proof.
  revert b seen. induction l as [|c l IH]; intros b seen HN Hs E; cbn [foldl] in E.
  - simplify_eq. apply Forall_app in HN as [_ HN]. apply Forall_inv in HN.
    apply Forall_app. split; [done|]. repeat constructor. by apply beats_irrefl.
  - pose proof HN as HN0. rewrite Forall_app, !Forall_cons in HN. destruct HN as (N1 & N2 & N3 & N4).
    assert (HN' : Forall numeric ((seen ++ [b]) ++ c :: l)) by (by rewrite <- app_assoc).
    cbn [pick] in E. destruct (beats cats advs c b) eqn:Eb.
    + replace (seen ++ b :: c :: l) with ((seen ++ [b]) ++ c :: l) by (by rewrite <- app_assoc).
      apply IH; [done| |done]. apply Forall_app. split.
      * rewrite Forall_forall in Hs, N1 |- *. intros y Hy. destruct (beats cats advs y c) eqn:Ey; [|done].
        by rewrite <- (Hs y Hy), (beats_trans cats advs y c b) by auto.
      * repeat constructor. by apply beats_asym.
    + assert (HN2 : Forall numeric ((c :: seen) ++ b :: l)).
      { rewrite Forall_app, !Forall_cons. tauto. }
      specialize (IH b (c :: seen) HN2 ltac:(by constructor) E).
      rewrite !Forall_app, !Forall_cons in IH. rewrite Forall_app, !Forall_cons. tauto.
Qed.

Lemma pick_best_unbeaten cats advs u w rest :
  Forall numeric u -> u ≡ₚ w :: rest -> foldl (pick cats advs) None u = Some w ->
  unbeaten std_pow config cats advs w rest.
Proof.
  intros HN Hp E. destruct u as [|b u]; [done|]. cbn [foldl pick] in E.
  pose proof (pick_unbeaten cats advs u b [] w HN (Forall_nil_2 _) E) as H. cbn [app] in H.
  rewrite Hp in H. by apply Forall_inv_tail in H.
Qed.

Context {S : Type} (accept : ItemId -> S -> bool * S) (count : Z).
#[local] Abbreviation greedy := (greedy std_pow config accept count (unbeaten std_pow config)).

Lemma unbeaten_unique cats advs rem1 rem2 w1 w2 rest1 rest2 :
  rem1 ≡ₚ rem2 -> Forall numeric rem1 -> NoDup (c_id <$> rem1) ->
  rem1 ≡ₚ w1 :: rest1 -> rem2 ≡ₚ w2 :: rest2 ->
  unbeaten std_pow config cats advs w1 rest1 -> unbeaten std_pow config cats advs w2 rest2 ->
  w1 = w2 /\ rest1 ≡ₚ rest2.
Proof.
  intros Hp HN Hnd H1 H2 B1 B2. rewrite Hp, H2 in H1. unfold unbeaten in *.
  rewrite Forall_forall in B1, B2. rewrite Hp, H2 in HN, Hnd.
  assert (w1 = w2) as ->; [|split; [done|]; symmetry; by apply (Permutation_cons_inv (a := w2))].
  assert (Hin1 : w1 ∈ w2 :: rest2) by (rewrite H1; by left).
  assert (Hin2 : w2 ∈ w1 :: rest1) by (rewrite <- H1; by left).
  apply elem_of_cons in Hin1 as [?|Hin1]; [done|]. apply elem_of_cons in Hin2 as [?|Hin2]; [done|].
  rewrite Forall_cons, Forall_forall in HN. destruct HN as [N2 N1]. exfalso.
  pose proof (beats_total cats advs w1 w2 (N1 _ Hin1) N2 (B2 _ Hin1) (B1 _ Hin2)) as E.
  rewrite fmap_cons, NoDup_cons in Hnd. destruct Hnd as [Hnd _]. apply Hnd.
  rewrite <- E. by apply list_elem_of_fmap_2.
Qed.

(** Two rounds on the same candidates have the same winner. *)
#[local] Ltac same_winner :=
  match goal with
  | Hp : ?r1 ≡ₚ ?r2, Hw : ?r1 ≡ₚ ?w :: ?q, Hw2 : ?r2 ≡ₚ ?w2 :: ?q2,
    Hb : unbeaten _ _ _ _ ?w ?q, Hb2 : unbeaten _ _ _ _ ?w2 ?q2,
    HN : Forall numeric ?r1, Hnd : NoDup (c_id <$> ?r1) |- _ =>
      destruct (unbeaten_unique _ _ _ _ _ _ _ _ Hp HN Hnd Hw Hw2 Hb Hb2) as [<- Hr]
  end.

(** Greedy selection is a function of the collection of candidates. *)
Lemma greedy_deterministic rem1 rem2 cats advs n st o1 out1 st1 o2 out2 st2 :
  rem1 ≡ₚ rem2 -> Forall numeric rem1 -> NoDup (c_id <$> rem1) ->
  greedy rem1 cats advs n st o1 out1 st1 -> greedy rem2 cats advs n st o2 out2 st2 ->
  o1 = o2 /\ out1 = out2 /\ st1 = st2.
Proof.
  intros Hp HN Hnd G1. revert rem2 o2 out2 st2 Hp HN Hnd.
  induction G1 as [rem cats advs n st Hc|cats advs n st
    |rem w rest cats advs n st sta off out st' Hc Hw Hb Ha G IH
    |rem w rest cats advs n st sta off out st' Hc Hw Hb Ha G IH];
    intros rem2 o2 out2 st2 Hp HN Hnd G2.
  - inversion G2; subst; (done || lia).
  - apply Permutation_nil in Hp. subst rem2. inversion G2; subst; try done;
      match goal with H : [] ≡ₚ _ :: _ |- _ => by apply Permutation_nil_cons in H end.
  - inversion G2; subst; [lia|by rewrite Hw in Hp; symmetry in Hp; apply Permutation_nil_cons in Hp| |];
      same_winner; [|congruence].
    match goal with H : accept (c_id w) st = (_, ?s2) |- _ => assert (s2 = sta) as -> by congruence end.
    rewrite Hw in HN, Hnd.
    edestruct IH as (-> & -> & ->); [exact Hr|by apply Forall_inv_tail in HN
      |by apply NoDup_cons in Hnd as [_ ?]|eassumption|done].
  - inversion G2; subst; [lia|by rewrite Hw in Hp; symmetry in Hp; apply Permutation_nil_cons in Hp| |];
      same_winner; [congruence|].
    match goal with H : accept (c_id w) st = (_, ?s2) |- _ => assert (s2 = sta) as -> by congruence end.
    rewrite Hw in HN, Hnd.
    edestruct IH as (-> & -> & ->); [exact Hr|by apply Forall_inv_tail in HN
      |by apply NoDup_cons in Hnd as [_ ?]|eassumption|done].
Qed.
End Greedy_facts.

(** The hook consulted on a sequence of ids. *)
Fixpoint consult {S : Type} (accept : ItemId -> S -> bool * S) (ids : list ItemId) (st : S)
    : list bool * S :=
  match ids with
  | [] => ([], st)
  | id :: ids =>
      let '(ok, st) := accept id st in
      let '(answers, st) := consult accept ids st in (ok :: answers, st)
  end.

(** The offers that were accepted. *)
Definition accepted (offered : list (Candidate * bool)) : list Candidate :=
  (filter (fun o => o.2 = true) offered).*1.

Lemma greedy_trace {S} std_pow config (accept : ItemId -> S -> bool * S) count best
    rem cats advs n st offered out st' :
  n <= count ->
  greedy std_pow config accept count best rem cats advs n st offered out st' ->
  consult accept (c_id <$> offered.*1) st = (offered.*2, st') /\
  offered.*1 ⊆+ rem /\
  Forall2 (fun r c => ranked_id r = c_id c /\ ranked_category r = c_category c /\
                      ranked_advertiser r = c_advertiser c) out (accepted offered) /\
  n + zlen out <= count /\
  (n + zlen out < count -> offered.*1 ≡ₚ rem).
Proof.
  intros Hn G. induction G as [rem cats advs n st Hc|cats advs n st
    |rem w rest cats advs n st sta off out st' Hc Hw Hb Ha G IH
    |rem w rest cats advs n st sta off out st' Hc Hw Hb Ha G IH]; cbn [fmap list_fmap fst snd consult].
  - split_and!; try done; [apply submseteq_nil_l|unfold zlen; cbn; lia|unfold zlen; cbn; lia].
  - split_and!; try done. unfold zlen; cbn; lia.
  - rewrite Ha. destruct (IH Hn) as (I1 & I2 & I3 & I4 & I5). rewrite I1. split_and!; try done.
    + rewrite Hw. by apply submseteq_skip.
    + intros H. by rewrite (I5 H).
  - rewrite Ha. destruct (IH ltac:(lia)) as (I1 & I2 & I3 & I4 & I5). rewrite I1.
    assert (Hz : zlen (ranked_of std_pow config cats advs w :: out) = zlen out + 1).
    { unfold zlen. cbn [length]. lia. }
    rewrite Hz. split_and!; try lia.
    + done.
    + rewrite Hw. by apply submseteq_skip.
    + unfold accepted. rewrite filter_cons_True by done. by constructor.
    + intros H. rewrite I5, Hw by lia. done.
Qed.

Lemma retrieve_shape std_exp config signal now count items :
  let s := retrieve std_exp config signal now count items in
  zlen (shortlist s) <= sel_limit s /\ shortlist s ⊆+ passing std_exp config signal now items.
Proof.
  cbv zeta. rewrite (proj1 (retrieve_limit std_exp config signal now count items)).
  pose proof (selector_limit_nonneg config count) as H0.
  induction items as [|item items [IH1 IH2]] using rev_ind.
  { split; [exact H0|done]. }
  pose proof (proj1 (retrieve_limit std_exp config signal now count items)) as Hl.
  unfold retrieve in *. rewrite foldl_app, passing_app. cbn [foldl]. set (s := foldl _ _ items) in *.
  destruct (consider_shortlist std_exp config signal now item s) as (-> & _ & _).
  destruct (passing_one std_exp config signal now item) as [->|[c ->]].
  - rewrite app_nil_r. done.
  - rewrite Hl. destruct (retain_shape _ c _ H0 IH1) as [R1 R2]. split; [done|].
    rewrite R2, <- Permutation_cons_append. by apply submseteq_skip.
Qed.

Lemma select_trace_any {S} std_pow config (accept : ItemId -> S -> bool * S) s st :
  0 <= sel_count s ->
  exists offered out st', select std_pow config accept s st = (out, st') /\
    consult accept (c_id <$> offered.*1) st = (offered.*2, st') /\
    offered.*1 ⊆+ shortlist s /\
    Forall2 (fun r c => ranked_id r = c_id c /\ ranked_category r = c_category c /\
                        ranked_advertiser r = c_advertiser c) out (accepted offered) /\
    zlen out <= sel_count s /\
    (zlen out < sel_count s -> offered.*1 ≡ₚ shortlist s).
Proof.
  intros H0. destruct (select_greedy std_pow config accept (fun _ _ _ _ => True) (fun _ => True)
    ltac:(done) ltac:(done) s st H0 I) as (offered & out & st' & H1 & H2).
  exists offered, out, st'. split; [done|]. by apply greedy_trace in H2.
Qed.

Lemma greedy_select {S} std_pow config (accept : ItemId -> S -> bool * S) s st :
  0 <= sel_count s -> Forall (numeric std_pow config) (shortlist s) ->
  exists offered out st', select std_pow config accept s st = (out, st') /\
    greedy std_pow config accept (sel_count s) (unbeaten std_pow config) (shortlist s) [] [] 0 st
      offered out st'.
Proof.
  intros H0 HN. apply (select_greedy std_pow config accept _ (Forall (numeric std_pow config))); try done.
  - intros u w rest Hp. rewrite Hp. by intros ?%Forall_inv_tail.
  - intros cats advs u w rest. apply pick_best_unbeaten.
Qed.

Lemma passing_ids std_exp config signal now items :
  NoDup (item_id <$> items) -> NoDup (c_id <$> passing std_exp config signal now items).
Proof.
  intros Hnd. apply (sublist_NoDup _ _ Hnd). clear Hnd.
  induction items as [|item items IH]; [done|]. unfold passing in *. cbn [omap list_omap].
  rewrite fmap_cons. destruct (is_eligible _ _ _); [|by apply sublist_cons].
  destruct (d_leb _ _); [by apply sublist_cons|]. rewrite fmap_cons. by apply sublist_skip.
Qed.

(** * Theorems *)

Section Theorems.
Variables (std_exp : double -> double) (std_pow : double -> double -> double).
Variables (config : ScoringConfig) (signal : UserSignal) (now : Timestamp).

(** When all scores are numbers, the bounded heap implements top-[limit] retrieval
    exactly: what is kept and what was dropped together are the candidates that
    passed eligibility and the score floor, as many are kept as fit under the limit,
    and no kept candidate is worse than a dropped one. *)
Theorem retrieval_keeps_best (count : Z) (items : list Item) :
  Forall scored (passing std_exp config signal now items) ->
  let s := retrieve std_exp config signal now count items in
  exists dropped,
    shortlist s ++ dropped ≡ₚ passing std_exp config signal now items /\
    zlen (shortlist s) = Z.min (sel_limit s) (zlen (passing std_exp config signal now items)) /\
    forall kept d, kept ∈ shortlist s -> d ∈ dropped -> worse kept d = false.
Proof.
  intros HP. cbv zeta. destruct (retrieve_top std_exp config signal now count items HP) as [d [T1 T2 T3 T4]].
  exists d. by rewrite (proj1 (retrieve_limit std_exp config signal now count items)).
Qed.

(** Selection consults the accept hook at most once per shortlisted candidate and
    threads its state through exactly those calls; the slate is the accepted
    candidates in the order they were offered; it never exceeds [count]; and it is
    shorter only when every shortlisted candidate has been offered. No assumption is
    made on the scores or on the hook. *)
Theorem select_consults_and_fills {S : Type} (accept : ItemId -> S -> bool * S) (s : Selector) (st : S) :
  0 <= sel_count s ->
  exists offered out st', select std_pow config accept s st = (out, st') /\
    consult accept (c_id <$> offered.*1) st = (offered.*2, st') /\
    offered.*1 ⊆+ shortlist s /\
    Forall2 (fun r c => ranked_id r = c_id c /\ ranked_category r = c_category c /\
                        ranked_advertiser r = c_advertiser c) out (accepted offered) /\
    zlen out <= sel_count s /\
    (zlen out < sel_count s -> offered.*1 ≡ₚ shortlist s).
Proof. apply select_trace_any. Qed.


End Theorems.

(** * Witnesses *)

Definition unit_exp (x : double) : double := d1.
Definition unit_pow (x y : double) : double := d1.
Definition sample_item (id : ItemId) (score : double) : Item :=
  MkItem id (str "sport") (str "acme") score 0 0.
Definition sample_items : list Item := [sample_item 1 d0_5; sample_item 2 d1; sample_item 3 d0_3].
Definition lone_config : ScoringConfig := MkScoring d1 0 d0_5 d0_3 1 d0.

#[local] Instance scored_dec c : Decision (scored c).
Proof. unfold scored. apply _. Defined.

(** Replaces the named computation by its value. *)
#[local] Ltac evaluate t :=
  let v := eval vm_compute in t in replace t with v by (vm_compute; reflexivity).

Lemma sample_scored : Forall scored (passing unit_exp lone_config default_signal 1000 sample_items).
Proof. apply (bool_decide_eq_true_1 _). vm_compute. reflexivity. Qed.

Lemma retrieval_keeps_best_witness :
  exists dropped,
    shortlist (retrieve unit_exp lone_config default_signal 1000 2 sample_items) ++ dropped ≡ₚ
    passing unit_exp lone_config default_signal 1000 sample_items /\ True.
Proof.
  destruct (retrieval_keeps_best unit_exp lone_config default_signal 1000 2 sample_items) as (d & H & _).
  - exact sample_scored.
  - exists d. split; [exact H|exact I].
Defined.

Lemma select_consults_and_fills_witness :
  exists offered out st',
    select unit_pow lone_config (fun id n => (Z.odd id, n + 1))
      (retrieve unit_exp lone_config default_signal 1000 2 sample_items) 0 = (out, st') /\
    consult (fun id n => (Z.odd id, n + 1)) (c_id <$> offered.*1) 0 = (offered.*2, st').
Proof.
  destruct (select_consults_and_fills unit_pow lone_config (fun id n => (Z.odd id, n + 1))
    (retrieve unit_exp lone_config default_signal 1000 2 sample_items) 0) as (o & out & st' & H1 & H2 & _).
  - vm_compute. discriminate.
  - exists o, out, st'. exact (conj H1 H2).
Defined.

Lemma sample_numeric : Forall (numeric unit_pow lone_config) (passing unit_exp lone_config default_signal 1000 sample_items).
Proof.
  evaluate (passing unit_exp lone_config default_signal 1000 sample_items).
  repeat constructor; intros cats advs; vm_compute; reflexivity.
Qed.



(** An item whose base score is a NaN is eligible and passes the score floor; the
    slate then depends on the order of the scan. *)
Theorem nan_score_order_matters :
  let nan := sample_item 7 (MkDouble 0x7FF8000000000000) in
  let run items := ranked_id <$> (select unit_pow lone_config (fun _ st => (true, st))
    (retrieve unit_exp lone_config default_signal 1000 1 items) tt).1 in
  run [sample_item 8 d1; nan] = [7] /\ run [nan; sample_item 8 d1] = [8].
Proof. vm_compute. split; reflexivity. Qed.
