(* ===== verification/Noise.v ===== *)
(** Published counters (include/lrd/privacy/noise.hpp, src/privacy/noise.cpp):
    Laplace noise drawn per metric and epoch, then clamped, rounded and suppressed.

    The generator is [std::mt19937_64], which the C++ standard specifies exactly, and
    [std::uniform_real_distribution<double>] as libstdc++ implements it: one draw
    divided by 2^64, kept below one. [std_log] stands for the C library's [log], and
    [llround_unrepresentable] for the unspecified result of [llround] on a value that
    no [long long] represents. *)
From Stdlib Require Import SpecFloat.
From stdpp Require Import base option list numbers.
From S2P Require Import Prelude HashMix Binary64 Item.

(** * Configuration *)

Record PrivacyConfig := MkPrivacy {
  enabled : bool;
  epsilon : double;
  sensitivity : double;
  suppression_threshold : Z;
  rounding : Z;
  epoch : Z;                 (** milliseconds *)
  seed : Z
}.

Definition default_privacy : PrivacyConfig := MkPrivacy false d1 d1 5 10 3600000 0.

(** What the constructor throws. *)
Inductive PrivacyError :=
| EpsilonNotPositive
| SensitivityNotPositive
| EpochNotPositive.

(** * The generator *)

Module Mt19937_64.
Definition n : nat := 312.
Definition m : nat := 156.

(** The initialisation recurrence, [len] words from position [i] on. *)
Fixpoint init_from (len : nat) (i prev : Z) : list Z :=
  match len with
  | O => []
  | S len =>
      let x := wrap 64 (6364136223846793005 * Z.lxor prev (Z.shiftr prev 62) + i) in
      x :: init_from len (i + 1) x
  end.

Definition init (seed : Z) : list Z :=
  let x0 := wrap 64 seed in x0 :: init_from (n - 1) 1 x0.

(** One word of the next block, from the words at [k], [k + 1] and [k + m] (indices
    modulo [n]). *)
Definition twist_word (xk xk1 xkm : Z) : Z :=
  let y := Z.lor (Z.land xk 0xFFFFFFFF80000000) (Z.land xk1 0x7FFFFFFF) in
  Z.lxor (Z.lxor xkm (Z.shiftr y 1)) (if Z.odd y then 0xB5026F5AA96619E9 else 0).

Definition temper (z : Z) : Z :=
  let z := Z.lxor z (Z.land (Z.shiftr z 29) 0x5555555555555555) in
  let z := Z.lxor z (wrap 64 (Z.land (Z.shiftl z 17) 0x71D67FFFEDA60000)) in
  let z := Z.lxor z (wrap 64 (Z.land (Z.shiftl z 37) 0xFFF7EEE000000000)) in
  Z.lxor z (Z.shiftr z 43).

(** The first value a freshly seeded generator returns. *)
Definition first (seed : Z) : Z :=
  let x := init seed in
  temper (twist_word (x !!! 0%nat) (x !!! 1%nat) (x !!! m)).
End Mt19937_64.

Example mt_first : Mt19937_64.first 5489 = 14514284786278117030.
Proof. vm_compute. reflexivity. Qed.

(** [uniform(rng)] for the range from -0.5 to 0.5. *)
Definition two64 : double := MkDouble 0x43F0000000000000.
Definition below_one : double := MkDouble 0x3FEFFFFFFFFFFFFF.
Definition generate_canonical (draw : Z) : double :=
  let r := d_div (double_of_Z draw) two64 in
  if d_leb d1 r then below_one else r.
Definition uniform_half (draw : Z) : double :=
  d_add (d_mul (generate_canonical draw) d1) (d_opp d0_5).

(** * The metric name's hash *)

Definition fnv1a (text : bstring) : Z :=
  foldl (fun hash c => wrap 64 (Z.lxor hash (byte_to_Z c) * 0x100000001B3)) 0xCBF29CE484222325 text.

(** * The mechanism *)

(** [0.5 - 1e-15]. *)
Definition kGuard : double := d_sub d0_5 (MkDouble 0x3CD203AF9EE75616).

Definition clamp (v lo hi : double) : double :=
  if d_ltb v lo then lo else if d_ltb hi v then hi else v.

(** [std::llround] where the result is representable. *)
Definition llround (unrepresentable : double -> Z) (x : double) : Z :=
  match sf x with
  | S754_zero _ => 0
  | S754_finite s m e =>
      let v := round_half_away (Zpos m) e in
      let r := if s then - v else v in
      if (- 2 ^ 63 <=? r) && (r <? 2 ^ 63) then r else unrepresentable x
  | _ => unrepresentable x
  end.

Section Noise.
Variables (std_log : double -> double) (llround_unrepresentable : double -> Z).

Definition laplace_sample (draw : Z) (scale : double) : double :=
  let u := clamp (uniform_half draw) (d_opp kGuard) kGuard in
  let sign := if d_ltb u d0 then d_opp d1 else d1 in
  d_mul (d_mul (d_opp scale) sign) (std_log (d_sub d1 (d_mul d2 (d_abs u)))).

(** The constructor; [device1] and [device2] are the two values [std::random_device]
    returns when the seed is left to the system. The validations run in order and
    the first failing one throws. *)
Definition noisy_new (device1 device2 : Z) (config : PrivacyConfig) : PrivacyError + PrivacyConfig :=
  if enabled config && d_leb (epsilon config) d0 then inl EpsilonNotPositive
  else if enabled config && d_leb (sensitivity config) d0 then inl SensitivityNotPositive
  else if enabled config && (epoch config <=? 0) then inl EpochNotPositive
  else
    let rounding := if rounding config =? 0 then 1 else rounding config in
    let seed :=
      if seed config =? 0 then
        let drawn := Z.lxor (wrap 64 (Z.shiftl device1 32)) device2 in
        if drawn =? 0 then 0x9E3779B97F4A7C15 else drawn
      else seed config in
    inr (MkPrivacy (enabled config) (epsilon config) (sensitivity config)
           (suppression_threshold config) rounding (epoch config) seed).

Definition scale (config : PrivacyConfig) : double := d_div (sensitivity config) (epsilon config).

Definition epoch_index (config : PrivacyConfig) (now : Timestamp) : Z :=
  let epoch_ms := to_u64 (epoch config) in
  if epoch_ms =? 0 then 0
  else
    let millis := to_epoch_millis now in
    let unsigned_millis := to_u64 (Z.max millis 0) in
    unsigned_millis / epoch_ms.

(** The seed of the generator [noise_for] draws from. *)
Definition noise_state (config : PrivacyConfig) (metric : bstring) (now : Timestamp) : Z :=
  let state := hash_mix (Z.lxor (seed config) (fnv1a metric)) in
  hash_mix (Z.lxor state (epoch_index config now)).

Definition noise_for (config : PrivacyConfig) (metric : bstring) (now : Timestamp) : double :=
  laplace_sample (Mt19937_64.first (noise_state config metric now)) (scale config).

Definition round_to (rounding rounded_value : Z) : Z :=
  if rounding <=? 1 then rounded_value
  else wrap 64 (wrap 64 (rounded_value + rounding / 2) / rounding * rounding).

Definition publish (config : PrivacyConfig) (metric : bstring) (exact : Z) (now : Timestamp) : Z :=
  if negb (enabled config) then exact
  else
    let noised := d_add (double_of_Z exact) (noise_for config metric now) in
    let clamped := d_max d0 noised in
    let rounded_value := to_u64 (llround llround_unrepresentable clamped) in
    let rounded := round_to (rounding config) rounded_value in
    if rounded <=? suppression_threshold config then 0 else rounded.
End Noise.

(** * Lemmas *)

Lemma fnv1a_fits text : fits 64 (fnv1a text).
Proof.
  unfold fnv1a. assert (H : fits 64 0xCBF29CE484222325) by (by vm_compute). revert H.
  generalize 0xCBF29CE484222325. induction text as [|c text IH]; intros h Hh; [done|].
  cbn [foldl]. apply IH. by apply wrap_fits.
Qed.

Lemma round_to_fits r v : fits 64 v -> fits 64 (round_to r v).
Proof. intros H. unfold round_to. destruct (r <=? 1); [done|by apply wrap_fits]. Qed.

(** Rounding never wraps on the way back up: the quotient times the step is at most
    the dividend. *)
Lemma round_to_multiple r v : fits 64 v -> 1 <= r -> exists k, 0 <= k /\ round_to r v = k * r.
Proof.
  intros Hv Hr. unfold round_to. destruct (Z.leb_spec r 1) as [H1|H1].
  { exists v. assert (r = 1) as -> by lia. unfold fits in Hv. lia. }
  pose proof (wrap_fits 64 (v + r / 2) ltac:(lia)) as Hw. unfold fits in Hw.
  set (w := wrap 64 (v + r / 2)) in *. assert (Hq : 0 <= w / r) by (apply Z.div_pos; lia).
  exists (w / r). split; [done|]. apply wrap_small. split; [nia|].
  pose proof (Z.mul_div_le w r ltac:(lia)). lia.
Qed.

Lemma round_to_near r v : fits 64 (v + r / 2) -> fits 64 v -> 1 <= r -> 2 * Z.abs (round_to r v - v) <= r.
Proof.
  intros Hv Hv' Hr. unfold round_to. destruct (Z.leb_spec r 1) as [H1|H1]; [lia|].
  rewrite (wrap_small 64 (v + r / 2)) by done. unfold fits in *.
  pose proof (Z.div_mod (v + r / 2) r ltac:(lia)). pose proof (Z.mod_pos_bound (v + r / 2) r ltac:(lia)).
  pose proof (Z.div_mod r 2 ltac:(lia)). pose proof (Z.mod_pos_bound r 2 ltac:(lia)).
  set (q := (v + r / 2) / r) in *. assert (0 <= q) by (apply Z.div_pos; lia).
  rewrite wrap_small; [lia|split; nia].
Qed.

Lemma epoch_index_fits config now : fits 64 (epoch_index config now).
Proof.
  unfold epoch_index. destruct (Z.eqb_spec (to_u64 (epoch config)) 0) as [E|E]; [by vm_compute|].
  pose proof (to_u64_fits (epoch config)) as He. pose proof (to_u64_fits (Z.max (to_epoch_millis now) 0)) as Hn.
  unfold fits in *. split; [apply Z.div_pos; lia|]. apply (Z.le_lt_trans _ (to_u64 (Z.max (to_epoch_millis now) 0))); [|lia].
  apply Z.div_le_upper_bound; nia.
Qed.

Lemma sanitized device1 device2 (s r : Z) (e : bool) :
  fits 32 device1 -> fits 32 device2 -> fits 64 s -> fits 64 r ->
  let drawn := Z.lxor (wrap 64 (Z.shiftl device1 32)) device2 in
  let seed := if s =? 0 then (if drawn =? 0 then 0x9E3779B97F4A7C15 else drawn) else s in
  1 <= (if r =? 0 then 1 else r) /\ fits 64 seed /\ seed <> 0 /\ (s <> 0 -> seed = s) /\ e = e.
Proof.
  intros H1 H2 Hs Hr drawn. cbv zeta.
  assert (Hd : fits 64 drawn).
  { apply lxor_fits; [lia|by apply wrap_fits|]. by apply (fits_mono 32). }
  split; [unfold fits in Hr; destruct (Z.eqb_spec r 0); lia|].
  destruct (Z.eqb_spec s 0) as [E|E]; [|done].
  destruct (Z.eqb_spec drawn 0) as [E'|E']; [|done].
  split; [by vm_compute|]. split; [by vm_compute|]. by split.
Qed.

(** * Theorems *)

Section Theorems.
Variables (std_log : double -> double) (llround_unrepresentable : double -> Z).

(** Construction rejects exactly the configurations with the mechanism enabled and
    a nonpositive parameter; a configuration it accepts has a rounding step of at
    least one and a nonzero 64-bit seed, drawn from the system when none is given. *)
Theorem noisy_new_valid (device1 device2 : Z) (config : PrivacyConfig) :
  fits 32 device1 -> fits 32 device2 -> fits 64 (seed config) -> fits 64 (rounding config) ->
  match noisy_new device1 device2 config with
  | inl _ => enabled config = true /\
      (d_leb (epsilon config) d0 = true \/ d_leb (sensitivity config) d0 = true \/ epoch config <= 0)
  | inr c =>
      (enabled config = true ->
        d_leb (epsilon c) d0 = false /\ d_leb (sensitivity c) d0 = false /\ 0 < epoch c) /\
      1 <= rounding c /\ fits 64 (seed c) /\ seed c <> 0 /\
      (seed config <> 0 -> seed c = seed config) /\ enabled c = enabled config
  end.
Proof.
  intros H1 H2 Hs Hr. unfold noisy_new. destruct (enabled config) eqn:En; cbn [andb].
  - destruct (d_leb (epsilon config) d0) eqn:E1; [auto|].
    destruct (d_leb (sensitivity config) d0) eqn:E2; [auto|].
    destruct (Z.leb_spec (epoch config) 0) as [E3|E3]; [auto|]. cbn.
    split; [done|]. by apply sanitized.
  - cbn. split; [done|]. by apply sanitized.
Qed.

(** Within an epoch the published value of a metric is a function of the exact
    count alone, so averaging repeated reads gains nothing: any two instants whose
    millisecond counts have the same quotient by the epoch length publish the same
    value. *)
Theorem publish_stable_in_epoch (config : PrivacyConfig) (metric : bstring) (exact : Z) (t1 t2 : Timestamp) :
  0 < epoch config < 2 ^ 63 -> 0 <= t1 < 2 ^ 63 -> 0 <= t2 < 2 ^ 63 ->
  t1 / epoch config = t2 / epoch config ->
  publish std_log llround_unrepresentable config metric exact t1 =
  publish std_log llround_unrepresentable config metric exact t2.
Proof.
  intros He H1 H2 Eq. assert (E : epoch_index config t1 = epoch_index config t2).
  { unfold epoch_index, to_u64, to_epoch_millis. rewrite !Z.max_l by lia.
    by rewrite !wrap_small, Eq by (unfold fits; lia). }
  unfold publish, noise_for, noise_state. by rewrite E.
Qed.

(** Different epochs seed the generator differently (the mixing is injective), so
    every epoch has a draw of its own. *)
Theorem epoch_reseeds (config : PrivacyConfig) (metric : bstring) (t1 t2 : Timestamp) :
  fits 64 (seed config) ->
  noise_state config metric t1 = noise_state config metric t2 ->
  epoch_index config t1 = epoch_index config t2.
Proof.
  intros Hs. unfold noise_state. set (s := hash_mix (Z.lxor (seed config) (fnv1a metric))).
  assert (Hf : fits 64 s) by (apply hash_mix_fits, lxor_fits; [lia|done|apply fnv1a_fits]).
  intros H. apply (f_equal hash_unmix) in H.
  rewrite !hash_unmix_mix in H by (apply lxor_fits; [lia|done|apply epoch_index_fits]).
  apply (f_equal (Z.lxor s)) in H.
  by rewrite <- !Z.lxor_assoc, !Z.lxor_nilpotent, !Z.lxor_0_l in H.
Qed.

(** C36: with the mechanism enabled a published value is zero or a multiple of the
    rounding step above the suppression threshold, within half a step of the noisy
    count it is derived from (when adding half a step does not leave 64 bits). *)
Theorem publish_shape (config : PrivacyConfig) (metric : bstring) (exact : Z) (now : Timestamp) :
  enabled config = true -> 1 <= rounding config ->
  let published := publish std_log llround_unrepresentable config metric exact now in
  let noisy := to_u64 (llround llround_unrepresentable
    (d_max d0 (d_add (double_of_Z exact) (noise_for std_log config metric now)))) in
  published = 0 \/
  (suppression_threshold config < published /\
   (exists k, 0 <= k /\ published = k * rounding config) /\
   (fits 64 (noisy + rounding config / 2) -> 2 * Z.abs (published - noisy) <= rounding config)).
Proof.
  intros En Hr. cbv zeta. unfold publish. rewrite En. cbn [negb].
  set (noisy := to_u64 _). assert (Hn : fits 64 noisy) by apply to_u64_fits.
  destruct (Z.leb_spec (round_to (rounding config) noisy) (suppression_threshold config)) as [H|H]; [by left|].
  right. split; [done|]. split; [by apply round_to_multiple|]. intros Hf. by apply round_to_near.
Qed.
End Theorems.

(** * Witnesses *)

Definition sample_privacy : PrivacyConfig := MkPrivacy true d1 d1 5 10 3600000 42.

Lemma noisy_new_valid_witness :
  match noisy_new 1 2 default_privacy with inl _ => False | inr c => 1 <= rounding c end.
Proof.
  pose proof (noisy_new_valid 1 2 default_privacy ltac:(by vm_compute) ltac:(by vm_compute)
    ltac:(by vm_compute) ltac:(by vm_compute)) as H.
  vm_compute in H |- *. apply H.
Defined.

Lemma publish_stable_in_epoch_witness :
  publish (fun x => x) (fun _ => 0) sample_privacy (str "requests") 100 5 =
  publish (fun x => x) (fun _ => 0) sample_privacy (str "requests") 100 3599999.
Proof. apply publish_stable_in_epoch; cbn; (lia || reflexivity). Defined.

Lemma epoch_reseeds_witness : epoch_index sample_privacy 5 = epoch_index sample_privacy 3599999.
Proof.
  apply (epoch_reseeds sample_privacy (str "requests")).
  - by vm_compute.
  - vm_compute. reflexivity.
Defined.

Lemma publish_shape_witness :
  let published := publish (fun x => x) (fun _ => 0) sample_privacy (str "requests") 100 5 in
  published = 0 \/ 5 < published.
Proof.
  destruct (publish_shape (fun x => x) (fun _ => 0) sample_privacy (str "requests") 100 5) as [H|(H & _)].
  - reflexivity.
  - cbn. lia.
  - left. exact H.
  - right. exact H.
Defined.
