(* ===== verification/Handler.v ===== *)
(** The request handler (include/lrd/daemon/handler.hpp, src/daemon/handler.cpp): the
    item cache, the policy store, the ranking pass and the published statistics
    behind one [Request -> Response] function.

    [handle] takes the clock's reading as an argument (the code reads its clock at most
    once per request). One [Handler] is shared by all worker threads; a run here is a
    sequence of whole requests, and Concurrent.v and Interleaving.v refine a request into
    its atomic cache, policy and counter operations.

    The main theorem is end to end: through any sequence of puts, gets, deletes,
    statistics and (dry-run or live) recommendations, no item is recommended more
    often than its exposure cap allows. *)
From Stdlib Require Import DecimalString Sorted.
From stdpp Require Import base option list gmap.
From S2P Require Import Prelude HashMix Binary64 Item Message Codec.
From S2P Require Import StdList LruCache ShardedCache ExposureStore Heap Scorer Noise.

(** * State *)

Record Handler := MkHandler {
  cache_ : ShardedCache Z Item;
  policy_ : ExposureStore;
  privacy_ : PrivacyConfig;
  scoring_ : ScoringConfig;
  requests_ : Z; gets_ : Z; puts_ : Z; deletes_ : Z; recommends_ : Z;
  hits_ : Z; misses_ : Z
}.

(** The exceptions construction can end with. *)
Inductive HandlerError :=
| CacheRejected
| PolicyRejected
| PrivacyRejected (error : PrivacyError).

(** [std::hash<std::uint64_t>] of libstdc++ is the identity. *)
Definition std_hash (id : ItemId) : Z := id.

(** Members are constructed in declaration order. *)
Definition handler_new (device1 device2 : Z) (capacity shard_count : Z) (scoring : ScoringConfig)
    (policy : PolicyConfig) (privacy : PrivacyConfig) : HandlerError + Handler :=
  match sharded_new capacity shard_count with
  | None => inl CacheRejected
  | Some cache =>
      match exposure_new policy shard_count with
      | None => inl PolicyRejected
      | Some store =>
          match noisy_new device1 device2 privacy with
          | inl error => inl (PrivacyRejected error)
          | inr privacy => inr (MkHandler cache store privacy scoring 0 0 0 0 0 0 0)
          end
      end
  end.

Definition with_cache (h : Handler) (cache : ShardedCache Z Item) : Handler :=
  MkHandler cache (policy_ h) (privacy_ h) (scoring_ h) (requests_ h) (gets_ h) (puts_ h)
    (deletes_ h) (recommends_ h) (hits_ h) (misses_ h).
Definition with_policy (h : Handler) (policy : ExposureStore) : Handler :=
  MkHandler (cache_ h) policy (privacy_ h) (scoring_ h) (requests_ h) (gets_ h) (puts_ h)
    (deletes_ h) (recommends_ h) (hits_ h) (misses_ h).

(** [counter.fetch_add(1, std::memory_order_relaxed)], one per counter. *)
Inductive Counter := Requests | Gets | Puts | Deletes | Recommends | Hits | Misses.
#[global] Instance Counter_eq_dec : EqDecision Counter.
Proof. solve_decision. Defined.

Definition fetch_add (c : Counter) (h : Handler) : Handler :=
  let bump c' x := if decide (c = c') then incr64 x else x in
  MkHandler (cache_ h) (policy_ h) (privacy_ h) (scoring_ h)
    (bump Requests (requests_ h)) (bump Gets (gets_ h)) (bump Puts (puts_ h))
    (bump Deletes (deletes_ h)) (bump Recommends (recommends_ h)) (bump Hits (hits_ h))
    (bump Misses (misses_ h)).

(** * Operations *)

Definition on_get (item_id : ItemId) (h : Handler) : ResponseBody * Handler :=
  let h := fetch_add Gets h in
  let '(item, cache) := sharded_get std_hash item_id (cache_ h) in
  let h := with_cache h cache in
  match item with
  | None => (GetItemResult SC_NotFound default_item, fetch_add Misses h)
  | Some item => (GetItemResult SC_Ok item, fetch_add Hits h)
  end.

Definition on_put (item : Item) (h : Handler) : ResponseBody * Handler :=
  let h := fetch_add Puts h in
  if item_id item =? 0 then (Failure SC_InvalidRequest (str "item id must not be zero"), h)
  else if zlen (item_category item) =? 0
  then (Failure SC_InvalidRequest (str "item category must not be empty"), h)
  else (PutItemResult SC_Ok, with_cache h (sharded_put std_hash (item_id item) item (cache_ h))).

Definition on_delete (item_id : ItemId) (h : Handler) : ResponseBody * Handler :=
  let h := fetch_add Deletes h in
  let '(erased, cache) := sharded_erase std_hash item_id (cache_ h) in
  (DeleteItemResult (if erased : bool then SC_Ok else SC_NotFound), with_cache h cache).

(** [{}] in [std::format], for an unsigned argument. *)
Definition format_dec (z : Z) : bstring := str (NilZero.string_of_uint (N.to_uint (Z.to_N z))).

Definition count_message (count : Z) : bstring :=
  str "count " ++ format_dec count ++ str " exceeds the limit of " ++ format_dec kMaxRecommendCount.

Section Ranking.
Variables (std_exp : double -> double) (std_pow : double -> double -> double).
Variables (std_log : double -> double) (llround_unrepresentable : double -> Z).

(** The body of the scan: one snapshot per shard, every item of it considered. A
    stored pointer is never null. *)
Definition consider_shard (scoring : ScoringConfig) (signal : UserSignal) (now : Timestamp)
    (cache : ShardedCache Z Item) (selector : Selector) (shard : nat) : Selector :=
  foldl (fun s entry => match snd entry with
                        | Some item => consider std_exp scoring signal now item s
                        | None => s
                        end) selector (snapshot_shard cache shard).

(** The accept hook. *)
Definition accept (now : Timestamp) (dry_run : bool) (id : ItemId) (policy : ExposureStore)
    : bool * ExposureStore :=
  let '(decision, policy) :=
    if dry_run then (check id now policy, policy) else reserve id now policy in
  (bool_decide (decision = Allowed), policy).

Definition on_recommend (now : Timestamp) (request : Recommend) (h : Handler)
    : ResponseBody * Handler :=
  let h := fetch_add Recommends h in
  if rec_count request =? 0 then
    (Failure SC_InvalidRequest (str "count must be at least 1"), h)
  else if kMaxRecommendCount <? rec_count request then
    (Failure SC_InvalidRequest (count_message (rec_count request)), h)
  else
    let selector := selector_new (scoring_ h) (rec_count request) in
    let selector :=
      foldl (consider_shard (scoring_ h) (rec_signal request) now (cache_ h)) selector
        (seq 0 (Z.to_nat (sc_shard_count (cache_ h)))) in
    let '(items, policy) :=
      select std_pow (scoring_ h) (accept now (rec_dry_run request)) selector (policy_ h) in
    (RecommendResult SC_Ok items, with_policy h policy).

Definition stats (h : Handler) : Stats :=
  let pm := policy_metrics (policy_ h) in
  MkStats (requests_ h) (gets_ h) (puts_ h) (deletes_ h) (recommends_ h) (hits_ h) (misses_ h)
    (m_evictions (sharded_metrics (cache_ h))) (Z.of_nat (sharded_size (cache_ h)))
    (sc_capacity (cache_ h))
    (pm_allowed pm) (pm_exposure_blocked pm) (pm_frequency_blocked pm)
    (pm_store_full_blocked pm) (pm_tracked pm).

Definition published_stats (now : Timestamp) (h : Handler) : Stats :=
  let exact := stats h in
  let noise name value := publish std_log llround_unrepresentable (privacy_ h) (str name) value now in
  MkStats (noise "requests" (requests exact))%string (noise "gets" (gets exact))%string
    (puts exact) (deletes exact)
    (noise "recommends" (recommends exact))%string (noise "hits" (hits exact))%string
    (noise "misses" (misses exact))%string
    (evictions exact) (entries exact) (capacity exact)
    (noise "policy_allowed" (policy_allowed exact))%string
    (noise "policy_exposure_blocked" (policy_exposure_blocked exact))%string
    (noise "policy_frequency_blocked" (policy_frequency_blocked exact))%string
    (policy_store_full exact) (policy_tracked exact).

Definition on_stats (now : Timestamp) (h : Handler) : ResponseBody :=
  StatsResult SC_Ok (published_stats now h).

Definition handle (now : Timestamp) (request : Request) (h : Handler) : Response * Handler :=
  let h := fetch_add Requests h in
  let '(body, h) :=
    match req_body request with
    | GetItem id => on_get id h
    | PutItem item => on_put item h
    | DeleteItem id => on_delete id h
    | GetStats => (on_stats now h, h)
    | RecommendBody r => on_recommend now r h
    end in
  (MkResponse (req_id request) body, h).

(** A run: each request with the clock's reading. *)
Fixpoint handle_all (reqs : list (Timestamp * Request)) (h : Handler) : list Response * Handler :=
  match reqs with
  | [] => ([], h)
  | (now, request) :: reqs =>
      let '(r, h) := handle now request h in
      let '(rs, h) := handle_all reqs h in (r :: rs, h)
  end.
End Ranking.

(** * Specification *)

(** What a request does to the cache. *)
Definition valid_put (item : Item) : bool :=
  negb (item_id item =? 0) && negb (zlen (item_category item) =? 0).
Definition cache_ops (request : Request) : list (LruOp Z Item) :=
  match req_body request with
  | GetItem id => [OpGet id]
  | PutItem item => if valid_put item then [OpPut (item_id item) item] else []
  | DeleteItem id => [OpErase id]
  | _ => []
  end.

Definition run_ops (reqs : list (Timestamp * Request)) : list (LruOp Z Item) :=
  concat (map (fun r => cache_ops (snd r)) reqs).

(** The shows of [id] a response to a live recommendation makes. *)
Definition occurrences (id : ItemId) (items : list RankedItem) : Z :=
  zlen (filter (fun r => ranked_id r = id) items).
Definition live_shows (id : ItemId) (request : Request) (response : Response) : Z :=
  match req_body request, resp_body response with
  | RecommendBody r, RecommendResult _ items => if rec_dry_run r then 0 else occurrences id items
  | _, _ => 0
  end.
Fixpoint total_shows (id : ItemId) (reqs : list (Timestamp * Request)) (rs : list Response) : Z :=
  match reqs, rs with
  | (_, request) :: reqs, r :: rs => live_shows id request r + total_shows id reqs rs
  | _, _ => 0
  end.
(** Those whose request fell into window [k]. *)
Fixpoint total_window_shows (config : PolicyConfig) (id : ItemId) (k : Z)
    (reqs : list (Timestamp * Request)) (rs : list Response) : Z :=
  match reqs, rs with
  | (now, request) :: reqs, r :: rs =>
      (if to_millis now / window_ms config =? k then live_shows id request r else 0)
      + total_window_shows config id k reqs rs
  | _, _ => 0
  end.

(** The policy operation the accept hook performs. *)
Definition policy_op (now : Timestamp) (dry_run : bool) (id : ItemId) : PolicyOp :=
  if dry_run then PCheck id now else PReserve id now.

(** All items of the cache, in scan order. *)
Definition scan_items (cache : ShardedCache Z Item) : list Item :=
  omap snd (concat (map (snapshot_shard cache) (seq 0 (Z.to_nat (sc_shard_count cache))))).

(** The type range of a request's count ([std::uint32_t]). *)
Definition typed (request : Request) : Prop :=
  match req_body request with RecommendBody r => fits 32 (rec_count r) | _ => True end.

(** The last item put under [id] and not deleted since. *)
Definition puts_item (id : ItemId) (request : Request) (v : option Item) : option Item :=
  match req_body request with
  | PutItem item => if valid_put item && (item_id item =? id) then Some item else v
  | DeleteItem id' => if id' =? id then None else v
  | _ => v
  end.
Definition last_put (id : ItemId) (reqs : list (Timestamp * Request)) : option Item :=
  foldl (fun v r => puts_item id (snd r) v) None reqs.

(** * The accept hook and the policy store *)

Lemma consult_policy now dry ids st :
  exists rs, policy_run (map (policy_op now dry) ids) st = (rs, snd (consult (accept now dry) ids st)) /\
    fst (consult (accept now dry) ids st) = map (fun r => bool_decide (r = Some Allowed)) rs.
Proof.
  revert st. induction ids as [|id ids IH]; intros st; [by exists []|]. cbn [map policy_run consult].
  assert (Hstep : exists d st1, policy_step (policy_op now dry id) st = (Some d, st1) /\
    accept now dry id st = (bool_decide (d = Allowed), st1)).
  { unfold accept, policy_op. destruct dry; cbn [policy_step]; [by eauto|].
    destruct (reserve id now st) as [d st1]. by eauto. }
  destruct Hstep as (d & st1 & -> & ->). destruct (IH st1) as (rs & E1 & E2).
  destruct (consult _ ids st1) as [bs st2]. cbn [fst snd] in *. rewrite E1.
  exists (Some d :: rs). split; [done|]. cbn. rewrite E2. f_equal. apply bool_decide_ext. by split; intros; simplify_eq.
Qed.

(** The accepted offers of [id] are its shows, each at the request's own time. *)
Lemma consult_shows config now dry id k (offered : list (Candidate * bool)) rs :
  offered.*2 = map (fun r => bool_decide (r = Some Allowed)) rs ->
  let n := if dry : bool then 0 else zlen (filter (fun c => c_id c = id) (accepted offered)) in
  let ops := map (policy_op now dry) (c_id <$> offered.*1) in
  shows id ops rs = n /\
  window_shows config id k ops rs = (if to_millis now / window_ms config =? k then n else 0).
Proof.
  cbv zeta. revert rs. induction offered as [|[c b] offered IH]; intros rs E.
  { destruct rs; [|done]. cbn. destruct dry, (_ =? k); done. }
  destruct rs as [|r rs]; [done|]. cbn in E. injection E as -> E. destruct (IH rs E) as [IH1 IH2].
  cbn [fmap list_fmap map fst shows window_shows]. rewrite IH1, IH2. unfold accepted.
  destruct dry; cbn [policy_op is_show]; [by destruct (_ =? k)|].
  destruct (decide (r = Some Allowed)) as [Hr|Hr].
  - rewrite !(bool_decide_true _ Hr), filter_cons_True by done.
    rewrite fmap_cons. cbn [fst]. rewrite filter_cons. destruct (decide (c_id c = id)) as [Hc|Hc].
    + rewrite bool_decide_true by done. cbn [andb]. unfold zlen. cbn [length].
      destruct (_ =? k); lia.
    + rewrite bool_decide_false by done. cbn [andb]. destruct (_ =? k); lia.
  - rewrite !(bool_decide_false _ Hr), andb_false_r, filter_cons_False by done.
    cbn [andb]. destruct (_ =? k); lia.
Qed.

Lemma occurrences_accepted id out (cs : list Candidate) :
  Forall2 (fun r c => ranked_id r = c_id c /\ ranked_category r = c_category c /\
                      ranked_advertiser r = c_advertiser c) out cs ->
  occurrences id out = zlen (filter (fun c => c_id c = id) cs).
Proof.
  unfold occurrences. induction 1 as [|r c out cs (E & _) _ IH]; [done|].
  rewrite !filter_cons, E. destruct (decide (c_id c = id)); [|done]. unfold zlen in *. cbn [length]. lia.
Qed.

(** * Retrieval over the shards *)

Section Lemmas.
Variables (std_exp : double -> double) (std_pow : double -> double -> double).
Variables (std_log : double -> double) (llround_unrepresentable : double -> Z).
#[local] Abbreviation handle := (handle std_exp std_pow std_log llround_unrepresentable).
#[local] Abbreviation handle_all := (handle_all std_exp std_pow std_log llround_unrepresentable).

Lemma consider_entries scoring signal now (l : list (Z * option Item)) s :
  foldl (fun s entry => match snd entry with
                        | Some item => consider std_exp scoring signal now item s
                        | None => s
                        end) s l =
  foldl (fun s item => consider std_exp scoring signal now item s) s (omap snd l).
Proof. revert s. induction l as [|[k [item|]] l IH]; intros s; cbn; auto. Qed.

Lemma scan_retrieve scoring signal now cache count :
  foldl (consider_shard std_exp scoring signal now cache) (selector_new scoring count)
    (seq 0 (Z.to_nat (sc_shard_count cache))) =
  retrieve std_exp scoring signal now count (scan_items cache).
Proof.
  unfold retrieve, scan_items. generalize (selector_new scoring count).
  induction (seq 0 (Z.to_nat (sc_shard_count cache))) as [|i l IH]; intros s; [done|].
  cbn [foldl map concat]. rewrite omap_app, foldl_app, IH. unfold consider_shard.
  by rewrite consider_entries.
Qed.

(** What a recommendation does, on every branch. *)
Lemma recommend_spec now r h :
  0 <= rec_count r ->
  let '(body, h') := on_recommend std_exp std_pow now r h in
  cache_ h' = cache_ h /\
  ((body = Failure SC_InvalidRequest (str "count must be at least 1") /\ rec_count r = 0 /\
    policy_ h' = policy_ h) \/
   (body = Failure SC_InvalidRequest (count_message (rec_count r)) /\ kMaxRecommendCount < rec_count r /\
    policy_ h' = policy_ h) \/
   exists items offered,
     body = RecommendResult SC_Ok items /\ 1 <= rec_count r <= kMaxRecommendCount /\
     zlen items <= rec_count r /\
     offered.*1 ⊆+ passing std_exp (scoring_ h) (rec_signal r) now (scan_items (cache_ h)) /\
     Forall2 (fun r c => ranked_id r = c_id c /\ ranked_category r = c_category c /\
                         ranked_advertiser r = c_advertiser c) items (accepted offered) /\
     consult (accept now (rec_dry_run r)) (c_id <$> offered.*1) (policy_ h) = (offered.*2, policy_ h')).
Proof.
  intros H0. unfold on_recommend. cbn [cache_ policy_ scoring_ fetch_add].
  destruct (Z.eqb_spec (rec_count r) 0) as [E|E]; [split; [done|]; by left|].
  destruct (Z.ltb_spec kMaxRecommendCount (rec_count r)) as [E'|E']; [split; [done|]; right; by left|].
  rewrite scan_retrieve. set (s := retrieve _ _ _ _ _ _).
  assert (Hc : sel_count s = rec_count r) by apply retrieve_limit.
  destruct (select_trace_any std_pow (scoring_ h) (accept now (rec_dry_run r)) s (policy_ h))
    as (offered & out & st' & -> & T1 & T2 & T3 & T4 & _); [lia|]. split; [done|].
  right. right. exists out, offered. split_and!; try done; try lia.
  etrans; [exact T2|apply retrieve_shape].
Qed.

(** ** Effects of one request *)

Lemma handle_cache now request h :
  cache_ (snd (handle now request h)) = snd (sharded_run std_hash (cache_ops request) (cache_ h)).
Proof.
  unfold handle, cache_ops. destruct (req_body request) as [id|item|id| |r].
  - unfold on_get. cbn [sharded_run sharded_step cache_ fetch_add].
    destruct (sharded_get std_hash id (cache_ h)) as [[p|] c]; done.
  - unfold on_put, valid_put. destruct (item_id item =? 0); [done|]. cbn [negb andb].
    by destruct (zlen (item_category item) =? 0).
  - unfold on_delete. cbn [sharded_run sharded_step cache_ fetch_add].
    by destruct (sharded_erase std_hash id (cache_ h)).
  - done.
  - unfold on_recommend. destruct (rec_count r =? 0); [done|].
    destruct (_ <? rec_count r); [done|]. by destruct (select _ _ _ _ _).
Qed.

(** A request acts on the policy store through the accept hook only, at the
    request's own time, and its live shows are the granted reservations. *)
Lemma handle_policy now request h :
  typed request ->
  exists ids dry rs,
    policy_run (map (policy_op now dry) ids) (policy_ h) = (rs, policy_ (snd (handle now request h))) /\
    forall config id k,
      shows id (map (policy_op now dry) ids) rs = live_shows id request (fst (handle now request h)) /\
      window_shows config id k (map (policy_op now dry) ids) rs =
        (if to_millis now / window_ms config =? k
         then live_shows id request (fst (handle now request h)) else 0).
Proof.
  intros Hc.
  assert (Hnone : policy_ (snd (handle now request h)) = policy_ h /\
    (forall id, live_shows id request (fst (handle now request h)) = 0) ->
    exists ids dry rs,
    policy_run (map (policy_op now dry) ids) (policy_ h) = (rs, policy_ (snd (handle now request h))) /\
    forall config id k,
      shows id (map (policy_op now dry) ids) rs = live_shows id request (fst (handle now request h)) /\
      window_shows config id k (map (policy_op now dry) ids) rs =
        (if to_millis now / window_ms config =? k
         then live_shows id request (fst (handle now request h)) else 0)).
  { intros [E1 E2]. exists [], true, []. rewrite E1. split; [done|]. intros config id k. rewrite E2.
    cbn. by destruct (_ =? k). }
  destruct request as [rid body]. unfold handle, live_shows, typed, fits in *. cbn [req_body] in *.
  destruct body as [id|item|id| |r].
  - apply Hnone. unfold on_get. cbn [cache_ fetch_add].
    by destruct (sharded_get std_hash id (cache_ h)) as [[p|] c].
  - apply Hnone. unfold on_put. by destruct (item_id item =? 0), (zlen (item_category item) =? 0).
  - apply Hnone. unfold on_delete. cbn [cache_ fetch_add]. by destruct (sharded_erase _ _ _).
  - by apply Hnone.
  - pose proof (recommend_spec now r (fetch_add Requests h) (proj1 Hc)) as Hr.
    destruct (on_recommend std_exp std_pow now r _) as [b h']. cbn [fst snd resp_body] in *.
    destruct Hr as (_ & [(-> & _ & E)|[(-> & _ & E)|(items & offered & -> & _ & _ & _ & Hf & Hcons)]]);
      [by apply Hnone..|].
    cbn [policy_ fetch_add] in Hcons.
    exists (c_id <$> offered.*1), (rec_dry_run r).
    destruct (consult_policy now (rec_dry_run r) (c_id <$> offered.*1) (policy_ h)) as (rs & E1 & E2).
    rewrite Hcons in E1, E2. cbn [fst snd] in *. exists rs. split; [done|]. intros config id k.
    rewrite (occurrences_accepted id items _ Hf). by apply consult_shows.
Qed.

(** ** Effects of a run *)

Lemma handle_all_cons now request reqs h :
  fst (handle_all ((now, request) :: reqs) h) =
    fst (handle now request h) :: fst (handle_all reqs (snd (handle now request h))) /\
  snd (handle_all ((now, request) :: reqs) h) = snd (handle_all reqs (snd (handle now request h))).
Proof. cbn. destruct (handle now request h) as [r h1]. cbn. by destruct (handle_all reqs h1). Qed.

Lemma handle_config now request h :
  scoring_ (snd (handle now request h)) = scoring_ h /\ privacy_ (snd (handle now request h)) = privacy_ h.
Proof.
  unfold handle. destruct (req_body request) as [id|item|id| |r].
  - unfold on_get. cbn [cache_ fetch_add]. by destruct (sharded_get std_hash id (cache_ h)) as [[p|] c].
  - unfold on_put. by destruct (item_id item =? 0), (zlen (item_category item) =? 0).
  - unfold on_delete. cbn [cache_ fetch_add]. by destruct (sharded_erase _ _ _).
  - done.
  - unfold on_recommend. destruct (rec_count r =? 0); [done|].
    destruct (_ <? rec_count r); [done|]. by destruct (select _ _ _ _ _).
Qed.

Lemma handle_all_cache reqs h :
  cache_ (snd (handle_all reqs h)) =
  snd (sharded_run std_hash (run_ops reqs) (cache_ h)).
Proof.
  revert h. induction reqs as [|[now request] reqs IH]; intros h; [done|].
  rewrite (proj2 (handle_all_cons now request reqs h)), IH, handle_cache. unfold run_ops. cbn [map concat snd].
  by rewrite sharded_run_app.
Qed.

(** The times of a history made at [now]. *)
Lemma reserve_times_at now dry ids id :
  Forall (eq (to_millis now)) (reserve_times id (map (policy_op now dry) ids)).
Proof.
  induction ids as [|id' ids IH]; [by apply Forall_nil|]. unfold reserve_times in *. cbn [map concat].
  apply Forall_app. split; [|done]. unfold policy_op. destruct dry; [by apply Forall_nil|].
  destruct (decide (id' = id)); [by repeat constructor|by apply Forall_nil].
Qed.

Lemma handle_all_policy reqs h :
  Forall (fun r => typed (snd r)) reqs ->
  exists ops rs,
    policy_run ops (policy_ h) = (rs, policy_ (snd (handle_all reqs h))) /\
    (forall id, Forall (fun op => ~ resets id op) ops) /\
    (forall id, shows id ops rs = total_shows id reqs (fst (handle_all reqs h))) /\
    (forall config id k, window_shows config id k ops rs =
      total_window_shows config id k reqs (fst (handle_all reqs h))) /\
    (forall id, StronglySorted Z.le (map (fun r => to_millis (fst r)) reqs) ->
      StronglySorted Z.le (reserve_times id ops) /\
      Forall (fun t => t ∈ map (fun r => to_millis (fst r)) reqs) (reserve_times id ops)).
Proof.
  revert h. induction reqs as [|[now request] reqs IH]; intros h Ht.
  { exists [], []. by split_and!. }
  apply Forall_cons_1 in Ht as [Ht Hts]. cbn [snd] in Ht.
  destruct (handle_all_cons now request reqs h) as [-> ->].
  destruct (handle_policy now request h Ht) as (ids & dry & rs1 & E1 & S1).
  set (h1 := snd (handle now request h)) in *. set (r1 := fst (handle now request h)) in *.
  destruct (IH h1 Hts) as (ops & rs & E2 & R2 & S2 & W2 & T2).
  set (ops1 := map (policy_op now dry) ids) in *.
  assert (Hlen : length rs1 = length ops1) by (rewrite <- (policy_run_length ops1 (policy_ h)), E1; done).
  exists (ops1 ++ ops), (rs1 ++ rs). split_and!.
  - by rewrite policy_run_app, E1, E2.
  - intros id. apply Forall_app. split; [|apply R2]. unfold ops1. apply Forall_fmap, Forall_true.
    intros id'. unfold policy_op. cbn. destruct dry; by intros [].
  - intros id. rewrite shows_app, S2 by done. cbn. by rewrite (proj1 (S1 (config_ (policy_ h)) id 0)).
  - intros config id k. rewrite window_shows_app, W2 by done. cbn. by rewrite (proj2 (S1 config id k)).
  - intros id Hs. cbn [map fst] in *. apply StronglySorted_inv in Hs as [Hs Hle].
    destruct (T2 id Hs) as [T3 T4]. rewrite reserve_times_app.
    pose proof (reserve_times_at now dry ids id) as Ha. fold ops1 in Ha.
    rewrite Forall_forall in Ha, T4, Hle. split.
    + apply sorted_app; [|done|].
      * apply (sorted_const (to_millis now)). intros x Hx. symmetry. auto.
      * intros x y Hx Hy. rewrite <- (Ha x Hx). auto.
    + apply Forall_app. split; apply Forall_forall; intros x Hx; [rewrite <- (Ha x Hx); by left|right; auto].
Qed.

Lemma handler_new_parts device1 device2 cap n scoring policy privacy h :
  handler_new device1 device2 cap n scoring policy privacy = inr h ->
  sharded_new cap n = Some (cache_ h) /\ exposure_new policy n = Some (policy_ h) /\
  noisy_new device1 device2 privacy = inr (privacy_ h) /\ scoring_ h = scoring /\
  requests_ h = 0 /\ gets_ h = 0 /\ puts_ h = 0 /\ deletes_ h = 0 /\ recommends_ h = 0 /\
  hits_ h = 0 /\ misses_ h = 0.
Proof.
  unfold handler_new. destruct (sharded_new cap n); [|done]. destruct (exposure_new policy n); [|done].
  destruct (noisy_new _ _ _); [done|]. by intros [= <-].
Qed.

Lemma op_writes_last_put id (reqs : list (Timestamp * Request)) v :
  foldl (fun v r => puts_item id (snd r) v) v reqs =
  last_write id (run_ops reqs) v.
Proof.
  revert v. induction reqs as [|[now request] reqs IH]; intros v; [done|]. unfold run_ops in *. cbn [map concat foldl snd].
  unfold last_write in *. rewrite fold_left_app, IH. f_equal. unfold puts_item, cache_ops.
  destruct (req_body request) as [id'|item|id'| |r]; cbn; try done.
  - destruct (valid_put item); cbn [andb fold_left op_writes]; [|done].
    destruct (Z.eqb_spec (item_id item) id), (decide (item_id item = id)); done.
  - destruct (Z.eqb_spec id' id), (decide (id' = id)); done.
Qed.

Lemma last_write_put id reqs item :
  last_write id (run_ops reqs) None = Some item -> item_id item = id.
Proof.
  rewrite <- op_writes_last_put.
  assert (Hg : forall v, (forall i, v = Some i -> item_id i = id) ->
    forall i, foldl (fun v r => puts_item id (snd r) v) v reqs = Some i -> item_id i = id).
  { induction reqs as [|[now request] reqs IH]; intros v Hv; [done|]. cbn [foldl]. apply IH.
    unfold puts_item. destruct (req_body (snd (now, request))) as [id'|it|id'| |r]; try done.
    - destruct (valid_put it && (item_id it =? id)) eqn:E; [|done]. bcases. by intros i [= <-].
    - by destruct (id' =? id). }
  by apply Hg.
Qed.
End Lemmas.

(** ** What a scan sees *)

Lemma scan_elem cache item :
  item ∈ scan_items cache -> exists k i, (k, Some item) ∈ snapshot_shard cache i.
Proof.
  unfold scan_items. intros Hin. apply list_elem_of_omap in Hin as ([k p] & Hin & E). cbn in E. subst p.
  apply list_elem_of_In, in_concat in Hin as (l & Hl & Hin).
  apply list_elem_of_In, list_elem_of_fmap in Hl as (i & -> & _). exists k, i. by apply list_elem_of_In.
Qed.

(** Under any history the scan yields each item once, under its own id. *)
Lemma scan_written cap n sc reqs item :
  sharded_new cap n = Some sc ->
  let cache := snd (sharded_run std_hash (run_ops reqs) sc) in
  item ∈ scan_items cache -> sharded_peek std_hash (item_id item) cache = Some item.
Proof.
  intros Hn cache Hin. destruct (scan_elem _ _ Hin) as (k & i & Hk).
  pose proof (sharded_run_inv std_hash cap n sc (run_ops reqs) Hn) as Hinv.
  pose proof (snapshot_written std_hash cap n sc (run_ops reqs) i k (Some item) Hn Hk) as [_ Hw].
  rewrite (last_write_put k reqs item (eq_sym Hw)). apply peek_snapshot; [apply Hinv|]. by exists i.
Qed.

Lemma nodup_scan_keys (cache : ShardedCache Z Item) ls :
  sharded_inv std_hash cache -> NoDup ls ->
  NoDup (concat (map (snapshot_shard cache) ls)).*1.
Proof.
  intros Hinv. induction ls as [|i ls IH]; intros Hnd; [by apply NoDup_nil|].
  apply NoDup_cons in Hnd as [Hi Hnd]. cbn [map concat]. rewrite fmap_app. apply NoDup_app. split_and!.
  - unfold snapshot_shard. destruct (shards_ cache !! i) as [s|] eqn:Es; [|by apply NoDup_nil].
    apply inv_keys_abs. by destruct (Forall_lookup_1 _ _ _ _ (si_shards _ _ Hinv) Es).
  - intros k Hk Hk'. apply Hi.
    assert (Hhome : forall j, k ∈ (snapshot_shard cache j).*1 -> shard_index std_hash cache k = j).
    { intros j Hj. unfold snapshot_shard in Hj. destruct (shards_ cache !! j) as [s|] eqn:Es;
        [|by apply elem_of_nil in Hj]. apply (si_home _ _ Hinv j s k Es).
      unfold locked_snapshot, lru_for_each in Hj. apply list_elem_of_fmap in Hj as (p & -> & Hp).
      apply list_elem_of_fmap in Hp as (e & -> & He). apply list_elem_of_fmap. by exists e. }
    apply list_elem_of_fmap in Hk' as (p & -> & Hp). apply list_elem_of_In, in_concat in Hp as (l & Hl & Hp).
    apply list_elem_of_In, list_elem_of_fmap in Hl as (j & -> & Hj).
    rewrite <- (Hhome i Hk), (Hhome j); [done|]. apply list_elem_of_fmap_2. by apply list_elem_of_In.
  - by apply IH.
Qed.

Lemma scan_nodup cap n sc reqs :
  sharded_new cap n = Some sc ->
  let cache := snd (sharded_run std_hash (run_ops reqs) sc) in
  NoDup (item_id <$> scan_items cache).
Proof.
  intros Hn cache. pose proof (sharded_run_inv std_hash cap n sc (run_ops reqs) Hn) as Hinv. fold cache in Hinv.
  set (l := seq 0 (Z.to_nat (sc_shard_count cache))).
  pose proof (nodup_scan_keys cache l Hinv (NoDup_seq _ _)) as Hnd.
  apply (sublist_NoDup _ _ Hnd). unfold scan_items. fold l. clear Hnd.
  assert (Hk : forall k p, (k, p) ∈ concat (map (snapshot_shard cache) l) ->
    forall item, p = Some item -> item_id item = k).
  { intros k p Hin item ->. apply list_elem_of_In, in_concat in Hin as (l' & Hl & Hin).
    apply list_elem_of_In, list_elem_of_fmap in Hl as (i & -> & _). apply list_elem_of_In in Hin.
    destruct (snapshot_written std_hash cap n sc (run_ops reqs) i k (Some item) Hn Hin) as [_ Hw].
    by apply (last_write_put k reqs). }
  induction (concat (map (snapshot_shard cache) l)) as [|[k [item|]] es IH]; [done| |].
  - cbn. rewrite (Hk k (Some item) ltac:(by left) item eq_refl). apply sublist_skip, IH.
    intros. eapply Hk; [right|]; eassumption.
  - cbn. apply sublist_cons, IH. intros. eapply Hk; [right|]; eassumption.
Qed.

Lemma passing_elem std_exp config signal now items c :
  c ∈ passing std_exp config signal now items ->
  exists item, item ∈ items /\ is_eligible item signal now = true /\
    c = candidate_of item (base_relevance std_exp item signal config now).
Proof.
  intros (item & Hin & E)%list_elem_of_omap. exists item. split; [done|].
  destruct (is_eligible item signal now); [|done]. cbv zeta in E.
  destruct (d_leb _ _); [done|]. by injection E as <-.
Qed.

Lemma accepted_sublist offered : accepted offered `sublist_of` offered.*1.
Proof.
  unfold accepted. induction offered as [|[c b] offered IH]; [done|]. rewrite filter_cons.
  destruct (decide _); cbn; [by apply sublist_skip|by apply sublist_cons].
Qed.

Lemma offered_ids (offered : list (Candidate * bool)) cs :
  offered.*1 ⊆+ cs -> NoDup (c_id <$> cs) ->
  NoDup (c_id <$> accepted offered) /\ forall c, c ∈ accepted offered -> c ∈ cs.
Proof.
  intros Hsub Hnd. apply submseteq_Permutation in Hsub as [rest Hp]. pose proof (accepted_sublist offered) as Hs.
  split.
  - rewrite Hp, fmap_app, NoDup_app in Hnd. destruct Hnd as (Hnd & _ & _).
    apply (sublist_NoDup _ _ Hnd). by apply fmap_sublist.
  - intros c Hc. rewrite Hp. apply elem_of_app. left.
    apply (elem_of_submseteq _ _ _ Hc). by apply sublist_submseteq.
Qed.

Lemma Forall2_elem {A B} (P : A -> B -> Prop) l1 l2 x :
  Forall2 P l1 l2 -> x ∈ l1 -> exists y, y ∈ l2 /\ P x y.
Proof.
  intros Hf [i Hi]%list_elem_of_lookup. destruct (Forall2_lookup_l _ _ _ _ _ Hf Hi) as (y & Hy & HP).
  exists y. split; [by eapply list_elem_of_lookup_2|done].
Qed.

(** ** Counters *)

Definition counter (c : Counter) (h : Handler) : Z :=
  match c with
  | Requests => requests_ h | Gets => gets_ h | Puts => puts_ h | Deletes => deletes_ h
  | Recommends => recommends_ h | Hits => hits_ h | Misses => misses_ h
  end.

(** How much a request adds to a counter; a lookup adds to hits or misses. *)
Definition tally (c : Counter) (request : Request) : Z :=
  match c, req_body request with
  | Requests, _ => 1
  | Gets, GetItem _ | Puts, PutItem _ | Deletes, DeleteItem _ | Recommends, RecommendBody _ => 1
  | _, _ => 0
  end.

Lemma counter_fetch_add c c' h :
  counter c (fetch_add c' h) = if decide (c' = c) then incr64 (counter c h) else counter c h.
Proof. by destruct c', c. Qed.

Lemma wrap64_add z k : wrap 64 (wrap 64 z + k) = wrap 64 (z + k).
Proof. unfold wrap. by rewrite Zplus_mod_idemp_l. Qed.

Section CounterLemmas.
Variables (std_exp : double -> double) (std_pow : double -> double -> double).
Variables (std_log : double -> double) (llround_unrepresentable : double -> Z).
#[local] Abbreviation handle := (handle std_exp std_pow std_log llround_unrepresentable).
#[local] Abbreviation handle_all := (handle_all std_exp std_pow std_log llround_unrepresentable).

(** What the body of [handle] adds to the counters. *)
Lemma handle_counters now request h c :
  c <> Hits -> c <> Misses -> fits 64 (counter c h) ->
  counter c (snd (handle now request h)) = wrap 64 (counter c h + tally c request).
Proof.
  intros Hh Hm Hf.
  assert (H0 : counter c h = wrap 64 (counter c h + 0)) by (by rewrite Z.add_0_r, wrap_small).
  destruct request as [rid body]. unfold handle. cbn [req_body].
  destruct body as [id|item|id| |r].
  - unfold on_get. cbn [cache_ fetch_add].
    destruct (sharded_get std_hash id (cache_ h)) as [[p|] sc]; by destruct c.
  - unfold on_put. destruct (item_id item =? 0), (zlen (item_category item) =? 0); by destruct c.
  - unfold on_delete. cbn [cache_ fetch_add]. destruct (sharded_erase _ _ _); by destruct c.
  - by destruct c.
  - unfold on_recommend. destruct (rec_count r =? 0); [by destruct c|].
    destruct (_ <? rec_count r); [by destruct c|]. destruct (select _ _ _ _ _). by destruct c.
Qed.

Lemma handle_lookups now request h :
  wrap 64 (hits_ (snd (handle now request h)) + misses_ (snd (handle now request h))) =
  wrap 64 (hits_ h + misses_ h + tally Gets request).
Proof.
  destruct request as [rid body]. unfold handle. cbn [req_body].
  destruct body as [id|item|id| |r]; cbn [tally req_body]; rewrite ?Z.add_0_r.
  - unfold on_get. cbn [cache_ fetch_add].
    destruct (sharded_get std_hash id (cache_ h)) as [[p|] sc]; cbn [fst snd].
    + change (wrap 64 (wrap 64 (hits_ h + 1) + misses_ h) = wrap 64 (hits_ h + misses_ h + 1)).
      rewrite wrap64_add. f_equal. lia.
    + change (wrap 64 (hits_ h + wrap 64 (misses_ h + 1)) = wrap 64 (hits_ h + misses_ h + 1)).
      rewrite Z.add_comm, wrap64_add. f_equal. lia.
  - unfold on_put. by destruct (item_id item =? 0), (zlen (item_category item) =? 0).
  - unfold on_delete. cbn [cache_ fetch_add]. by destruct (sharded_erase _ _ _).
  - done.
  - unfold on_recommend. destruct (rec_count r =? 0); [done|].
    destruct (_ <? rec_count r); [done|]. by destruct (select _ _ _ _ _).
Qed.

Definition total_tally (c : Counter) (reqs : list (Timestamp * Request)) : Z :=
  foldl (fun n r => n + tally c (snd r)) 0 reqs.

Lemma total_tally_cons c r reqs : total_tally c (r :: reqs) = tally c (snd r) + total_tally c reqs.
Proof.
  unfold total_tally. cbn. generalize (tally c (snd r)). intros z.
  assert (H : forall a b, foldl (fun n r => n + tally c (snd r)) (a + b) reqs =
    a + foldl (fun n r => n + tally c (snd r)) b reqs).
  { induction reqs as [|r' reqs IH]; intros a b; [done|]. cbn. by rewrite <- Z.add_assoc, IH. }
  by rewrite <- H, Z.add_0_r.
Qed.

Lemma total_tally_requests reqs : total_tally Requests reqs = zlen reqs.
Proof.
  induction reqs as [|r reqs IH]; [done|]. rewrite total_tally_cons, IH. unfold zlen. cbn [tally length]. lia.
Qed.

Lemma handle_all_counters reqs h c :
  c <> Hits -> c <> Misses -> fits 64 (counter c h) ->
  counter c (snd (handle_all reqs h)) = wrap 64 (counter c h + total_tally c reqs).
Proof.
  intros Hh Hm. revert h. induction reqs as [|[now request] reqs IH]; intros h Hf.
  { by rewrite Z.add_0_r, wrap_small. }
  rewrite (proj2 (handle_all_cons _ _ _ _ now request reqs h)), IH, handle_counters by
    (try done; rewrite handle_counters by done; by apply wrap_fits).
  rewrite wrap64_add, total_tally_cons. f_equal. cbn [snd]. lia.
Qed.

Lemma handle_all_lookups reqs h :
  wrap 64 (hits_ (snd (handle_all reqs h)) + misses_ (snd (handle_all reqs h))) =
  wrap 64 (hits_ h + misses_ h + total_tally Gets reqs).
Proof.
  revert h. induction reqs as [|[now request] reqs IH]; intros h; [by rewrite Z.add_0_r|].
  rewrite !(proj2 (handle_all_cons _ _ _ _ now request reqs h)), IH, total_tally_cons. cbn [snd].
  rewrite <- wrap64_add, handle_lookups, wrap64_add. f_equal. lia.
Qed.
End CounterLemmas.

(** * Theorems *)

Section Theorems.
Variables (std_exp : double -> double) (std_pow : double -> double -> double).
Variables (std_log : double -> double) (llround_unrepresentable : double -> Z).
#[local] Abbreviation handle := (handle std_exp std_pow std_log llround_unrepresentable).
#[local] Abbreviation handle_all := (handle_all std_exp std_pow std_log llround_unrepresentable).
Variables (device1 device2 cap n : Z) (scoring : ScoringConfig) (policy : PolicyConfig).
Variables (privacy : PrivacyConfig) (h0 : Handler).
Hypothesis Hnew : handler_new device1 device2 cap n scoring policy privacy = inr h0.

(** The exposure cap, end to end. From a fresh fail-closed handler with a cap
    configured, through any sequence of requests, an item occurs in the answers to
    live recommendations at most [exposure_cap] times in total, whatever puts,
    deletes and dry runs happen in between. *)
Theorem recommendations_respect_cap (reqs : list (Timestamp * Request)) (id : ItemId) :
  fail_open_when_full policy = false -> fits 64 (exposure_cap policy) -> 0 < exposure_cap policy ->
  Forall (fun r => typed (snd r)) reqs ->
  total_shows id reqs (fst (handle_all reqs h0)) <= exposure_cap policy.
Proof.
  intros Hc Hf Hp Ht. apply handler_new_parts in Hnew as (_ & Hs & _).
  destruct (handle_all_policy std_exp std_pow std_log llround_unrepresentable reqs h0 Ht)
    as (ops & rs & E & Hr & <- & _). replace rs with (fst (policy_run ops (policy_ h0))) by (by rewrite E).
  by apply (new_store_shows policy n).
Qed.

(** The frequency limit, end to end. If the clock readings the requests see do
    not go backwards, then in every window of [frequency_window] milliseconds an item
    occurs in live answers at most [frequency_limit] times. *)
Theorem recommendations_respect_frequency (reqs : list (Timestamp * Request)) (id : ItemId) (k : Z) :
  fail_open_when_full policy = false -> config_ok policy ->
  0 < frequency_limit policy -> 0 < frequency_window policy ->
  Forall (fun r => typed (snd r)) reqs ->
  StronglySorted Z.le (map (fun r => to_millis (fst r)) reqs) ->
  total_window_shows policy id k reqs (fst (handle_all reqs h0)) <= frequency_limit policy.
Proof.
  intros Hc Hok Hl Hw Ht Hsort. apply handler_new_parts in Hnew as (_ & Hs & _).
  destruct (handle_all_policy std_exp std_pow std_log llround_unrepresentable reqs h0 Ht)
    as (ops & rs & E & Hr & _ & <- & Hst). replace rs with (fst (policy_run ops (policy_ h0))) by (by rewrite E).
  apply (new_store_windows policy n); try done. by apply Hst.
Qed.

(** C12: what a recommendation returns. After any history: a count of zero or above the
    limit is refused as invalid; otherwise the slate has at most [count] entries, no
    id twice, and each entry names an item that is in the cache, is eligible for the
    signal at this instant (positive score, not expired, category not excluded), with
    that item's category and advertiser. *)
Theorem recommend_sound (reqs : list (Timestamp * Request)) (now : Timestamp) (rid : Z) (r : Recommend) :
  fits 32 (rec_count r) ->
  let h := snd (handle_all reqs h0) in
  let response := fst (handle now (MkRequest rid (RecommendBody r)) h) in
  resp_id response = rid /\
  match resp_body response with
  | RecommendResult status items =>
      status = SC_Ok /\ 1 <= rec_count r <= kMaxRecommendCount /\ zlen items <= rec_count r /\
      NoDup (ranked_id <$> items) /\
      Forall (fun x => exists item,
        sharded_peek std_hash (ranked_id x) (cache_ h) = Some item /\
        is_eligible item (rec_signal r) now = true /\
        ranked_category x = item_category item /\ ranked_advertiser x = item_advertiser item) items
  | Failure status _ => status = SC_InvalidRequest /\ (rec_count r = 0 \/ kMaxRecommendCount < rec_count r)
  | _ => False
  end.
Proof.
  intros Hcount. apply handler_new_parts in Hnew as (Hcache & _). cbv zeta.
  pose proof (handle_all_cache std_exp std_pow std_log llround_unrepresentable reqs h0) as Hrun.
  set (h := snd (handle_all reqs h0)) in *. unfold handle. cbn [req_body].
  pose proof (recommend_spec std_exp std_pow now r (fetch_add Requests h) (proj1 Hcount)) as Hr.
  destruct (on_recommend std_exp std_pow now r _) as [b h'].
  destruct Hr as (_ & [(-> & E & _)|[(-> & E & _)|(items & offered & -> & Hc & Hl & Hsub & Hf & _)]]).
  - split; [done|]. split; [done|by left].
  - split; [done|]. split; [done|by right].
  - cbn [fst resp_id resp_body]. split; [done|]. split; [done|]. split; [done|]. split; [done|].
    change (cache_ (fetch_add Requests h)) with (cache_ h) in Hsub.
    assert (Hnd : NoDup (item_id <$> scan_items (cache_ h))) by (rewrite Hrun; by apply (scan_nodup cap n)).
    destruct (offered_ids _ _ Hsub (passing_ids _ _ _ _ _ Hnd)) as [Hids Hin].
    split.
    + replace (ranked_id <$> items) with (c_id <$> accepted offered); [done|].
      clear -Hf. induction Hf as [|x c items cs (E & _) _ IH]; [done|]. cbn. by rewrite E, IH.
    + apply Forall_forall. intros x Hx. destruct (Forall2_elem _ _ _ x Hf Hx) as (c & Hc' & E1 & E2 & E3).
      destruct (passing_elem _ _ _ _ _ _ (Hin c Hc')) as (item & Hitem & Hel & ->).
      exists item. rewrite E1, E2, E3. split; [|done]. rewrite Hrun in Hitem |- *.
      by apply (scan_written cap n _ reqs).
Qed.

(** C20: a dry-run recommendation changes nothing but the request counters: the cache
    (recency included), the policy store and the configuration are as before. *)
Theorem dry_run_changes_nothing (now : Timestamp) (rid : Z) (r : Recommend) (h : Handler) :
  rec_dry_run r = true -> fits 32 (rec_count r) ->
  let h' := snd (handle now (MkRequest rid (RecommendBody r)) h) in
  cache_ h' = cache_ h /\ policy_ h' = policy_ h /\ scoring_ h' = scoring_ h /\ privacy_ h' = privacy_ h.
Proof.
  intros Hd Hcount. pose proof (handle_config std_exp std_pow std_log llround_unrepresentable now
    (MkRequest rid (RecommendBody r)) h) as Hcfg. cbv zeta. unfold handle in *. cbn [req_body] in *.
  pose proof (recommend_spec std_exp std_pow now r (fetch_add Requests h) (proj1 Hcount)) as Hr.
  destruct (on_recommend std_exp std_pow now r _) as [b h']. cbn [snd] in *.
  destruct Hr as (E1 & [(_ & _ & E)|[(_ & _ & E)|(items & offered & _ & _ & _ & _ & _ & Hcons)]]);
    (split; [done|]); (split; [|done]); [done..|]. rewrite Hd in Hcons.
  cbn [policy_ fetch_add] in Hcons. revert Hcons. generalize (c_id <$> offered.*1) (offered.*2).
  intros ids. induction ids as [|id ids IH]; intros bs; cbn; [by intros [= _ <-]|].
  destruct (consult _ ids _) as [bs' st']. intros [= _ E]. apply (IH bs'). by rewrite E.
Qed.

(** Lookups. After any history a GetItem answers NotFound with a default item, or
    Ok with the very item last put under that id by an accepted PutItem and not
    deleted since. *)
Theorem get_returns_last_put (reqs : list (Timestamp * Request)) (now : Timestamp) (rid id : Z) :
  let h := snd (handle_all reqs h0) in
  let response := fst (handle now (MkRequest rid (GetItem id)) h) in
  resp_id response = rid /\
  (resp_body response = GetItemResult SC_NotFound default_item \/
   exists item, resp_body response = GetItemResult SC_Ok item /\ last_put id reqs = Some item).
Proof.
  cbv zeta. apply handler_new_parts in Hnew as (Hcache & _).
  pose proof (handle_all_cache std_exp std_pow std_log llround_unrepresentable reqs h0) as Hrun.
  set (h := snd (handle_all reqs h0)) in *. unfold handle, on_get. cbn [req_body cache_ fetch_add].
  pose proof (sharded_run_inv std_hash cap n (cache_ h0) (run_ops reqs) Hcache) as Hinv.
  rewrite <- Hrun in Hinv. pose proof (get_peek std_hash (cache_ h) id Hinv) as Hgp.
  destruct (sharded_get std_hash id (cache_ h)) as [[item|] sc] eqn:E; (split; [done|]); [|by left].
  right. exists item. split; [done|]. cbn in Hgp. symmetry in Hgp.
  apply (peek_snapshot _ _ _ _ Hinv) in Hgp as [i Hi]. rewrite Hrun in Hi.
  apply (snapshot_written std_hash cap n) in Hi as [_ Hw]; [|done].
  unfold last_put. by rewrite op_writes_last_put.
Qed.

(** The counters account for the requests: after any history each request counter
    is the number of requests of its kind, and hits and misses add up to the lookups
    (all modulo 2^64). *)
Theorem counters_account (reqs : list (Timestamp * Request)) :
  let h := snd (handle_all reqs h0) in
  requests_ h = wrap 64 (zlen reqs) /\
  gets_ h = wrap 64 (total_tally Gets reqs) /\ puts_ h = wrap 64 (total_tally Puts reqs) /\
  deletes_ h = wrap 64 (total_tally Deletes reqs) /\
  recommends_ h = wrap 64 (total_tally Recommends reqs) /\
  wrap 64 (hits_ h + misses_ h) = gets_ h.
Proof.
  cbv zeta. apply handler_new_parts in Hnew as (_ & _ & _ & _ & N1 & N2 & N3 & N4 & N5 & N6 & N7).
  pose proof (handle_all_counters std_exp std_pow std_log llround_unrepresentable reqs h0) as Hc.
  pose proof (handle_all_lookups std_exp std_pow std_log llround_unrepresentable reqs h0) as Hl.
  set (h := snd (handle_all reqs h0)) in *.
  assert (Hz : fits 64 0) by (by vm_compute).
  pose proof (Hc Requests ltac:(done) ltac:(done) ltac:(cbn; by rewrite N1)) as C1.
  pose proof (Hc Gets ltac:(done) ltac:(done) ltac:(cbn; by rewrite N2)) as C2.
  pose proof (Hc Puts ltac:(done) ltac:(done) ltac:(cbn; by rewrite N3)) as C3.
  pose proof (Hc Deletes ltac:(done) ltac:(done) ltac:(cbn; by rewrite N4)) as C4.
  pose proof (Hc Recommends ltac:(done) ltac:(done) ltac:(cbn; by rewrite N5)) as C5.
  cbn [counter] in *. rewrite N1, total_tally_requests in C1. rewrite N2 in C2. rewrite N3 in C3.
  rewrite N4 in C4. rewrite N5 in C5. rewrite N6, N7 in Hl. rewrite C2, Hl. done.
Qed.
End Theorems.

(** * Witnesses *)

Definition sample_handler : Handler :=
  MkHandler (MkSharded 8 2 [MkLru 4 [] ∅ zero_metrics 0; MkLru 4 [] ∅ zero_metrics 0])
    (sample_store false) (MkPrivacy false d1 d1 5 10 3600000 9) lone_config 0 0 0 0 0 0 0.
Definition sample_handler_privacy : PrivacyConfig := MkPrivacy false d1 d1 5 10 3600000 9.

Definition ask (count : Z) (dry_run : bool) : Request :=
  MkRequest 1 (RecommendBody (MkRecommend default_signal count dry_run)).
Definition sample_run : list (Timestamp * Request) :=
  [(100, MkRequest 1 (PutItem (sample_item 7 d1))); (110, MkRequest 2 (PutItem (sample_item 9 d0_5)));
   (200, ask 2 false); (300, ask 1 true); (400, ask 1 false); (500, MkRequest 3 (DeleteItem 7));
   (600, MkRequest 4 (PutItem (sample_item 7 d1))); (3000, ask 1 false); (3100, ask 2 false);
   (3200, MkRequest 5 (GetItem 7)); (3300, MkRequest 6 GetStats)].

#[local] Abbreviation sample_all :=
  (handle_all unit_exp unit_pow (fun x => x) (fun _ => 0) sample_run sample_handler).

Lemma sample_handler_new :
  handler_new 1 2 8 2 lone_config (sample_config false) sample_handler_privacy = inr sample_handler.
Proof. vm_compute. reflexivity. Qed.

(** The third live slate still has item 7; the fourth falls back to item 9. *)
Example sample_slates :
  omap (fun r => match resp_body r with RecommendResult _ items => Some (ranked_id <$> items) | _ => None end)
    (fst sample_all) = [[7; 9]; [7]; [7]; [7]; [9]].
Proof. vm_compute. reflexivity. Qed.

Lemma sample_typed : Forall (fun r => typed (snd r)) sample_run.
Proof. repeat (apply Forall_cons; split; [by vm_compute|]). by apply Forall_nil. Qed.

Lemma recommendations_respect_cap_witness : total_shows 7 sample_run (fst sample_all) <= 3.
Proof.
  apply (recommendations_respect_cap _ _ _ _ 1 2 8 2 lone_config (sample_config false)
    sample_handler_privacy _ sample_handler_new).
  - reflexivity.
  - by vm_compute.
  - reflexivity.
  - exact sample_typed.
Defined.

Lemma recommendations_respect_frequency_witness :
  total_window_shows (sample_config false) 7 0 sample_run (fst sample_all) <= 2.
Proof.
  apply (recommendations_respect_frequency _ _ _ _ 1 2 8 2 lone_config (sample_config false)
    sample_handler_privacy _ sample_handler_new).
  - reflexivity.
  - apply sample_config_ok.
  - reflexivity.
  - reflexivity.
  - exact sample_typed.
  - vm_compute. repeat constructor; discriminate.
Defined.

Lemma recommend_sound_witness :
  resp_id (fst (handle unit_exp unit_pow (fun x => x) (fun _ => 0) 9000
    (MkRequest 8 (RecommendBody (MkRecommend default_signal 3 false))) (snd sample_all))) = 8.
Proof.
  apply (recommend_sound unit_exp unit_pow (fun x => x) (fun _ => 0) 1 2 8 2 lone_config (sample_config false)
    sample_handler_privacy _ sample_handler_new).
  by vm_compute.
Defined.

Lemma dry_run_changes_nothing_witness :
  policy_ (snd (handle unit_exp unit_pow (fun x => x) (fun _ => 0) 9000
    (MkRequest 8 (RecommendBody (MkRecommend default_signal 3 true))) (snd sample_all))) =
  policy_ (snd sample_all).
Proof.
  apply (dry_run_changes_nothing unit_exp unit_pow (fun x => x) (fun _ => 0) 9000 8
    (MkRecommend default_signal 3 true)).
  - reflexivity.
  - by vm_compute.
Defined.

Lemma get_returns_last_put_witness :
  resp_id (fst (handle unit_exp unit_pow (fun x => x) (fun _ => 0) 9000 (MkRequest 8 (GetItem 7))
    (snd sample_all))) = 8.
Proof.
  apply (get_returns_last_put unit_exp unit_pow (fun x => x) (fun _ => 0) 1 2 8 2 lone_config
    (sample_config false) sample_handler_privacy _ sample_handler_new).
Defined.

Lemma counters_account_witness : requests_ (snd sample_all) = wrap 64 (zlen sample_run).
Proof.
  exact (proj1 (counters_account unit_exp unit_pow (fun x => x) (fun _ => 0) 1 2 8 2 lone_config
    (sample_config false) sample_handler_privacy _ sample_handler_new sample_run)).
Defined.
