(* ===== verification/Concurrent.v ===== *)
(** Requests as the workers really run them (src/daemon/handler.cpp,
    src/policy/exposure_store.cpp, include/lrd/cache/sharded_cache.hpp): one [Handler]
    is shared by all workers, [handle] holds no lock of its own, and what other workers
    do falls between the steps of a request.

    A request is a program ([prog]) of atomic steps on the shared handler ([HOp]): one
    [fetch_add] or [load] of a counter, one cache or policy operation under its shard's
    mutex, one snapshot of one shard, one clock reading. The programs below are the
    bodies of [Handler::handle] and of the functions it calls, with one step wherever
    the code touches shared state; everything between two steps works on locals. A
    reservation counts its decision while it holds the shard's mutex, and nobody sees the
    shard before the count is made, so the two are one step. What a
    handler never changes after construction is read from [Consts].

    [exec] runs a program with no one else about. The equivalence theorem says that the
    handler of Handler.v, where a request is one step, is exactly that; the file
    Interleaving.v runs many requests at once. *)
From stdpp Require Import base option list gmap.
From S2P Require Import Prelude HashMix Binary64 Item Message Codec.
From S2P Require Import StdList LruCache ShardedCache ExposureStore Heap Scorer Noise Handler.

(** * Atomic steps *)

(** The atomics of the policy store that [metrics] loads. *)
Inductive PolicyCounter := CAllowed | CExposureBlocked | CFrequencyBlocked | CStoreFull | CEvicted.

Definition policy_counter (c : PolicyCounter) (m : PolicyMetrics) : Z :=
  match c with
  | CAllowed => pm_allowed m
  | CExposureBlocked => pm_exposure_blocked m
  | CFrequencyBlocked => pm_frequency_blocked m
  | CStoreFull => pm_store_full_blocked m
  | CEvicted => pm_evicted m
  end.

(** A step, indexed by the type of what it returns. *)
Inductive HOp : Type -> Type :=
| CounterAdd (c : Counter) : HOp unit
| CounterLoad (c : Counter) : HOp Z
| ReadClock : HOp Timestamp
| CacheGet (id : ItemId) : HOp (option Item)
| CachePut (id : ItemId) (item : Item) : HOp unit
| CacheErase (id : ItemId) : HOp bool
| CacheSnapshot (shard : nat) : HOp (list (Z * option Item))
| CacheMetricsOf (shard : nat) : HOp CacheMetrics
| CacheSizeOf (shard : nat) : HOp nat
| PolicyReserve (id : ItemId) (now : Timestamp) : HOp PolicyDecision
| PolicyCheck (id : ItemId) (now : Timestamp) : HOp PolicyDecision
| PolicyLoad (c : PolicyCounter) : HOp Z
| PolicyTrackedOf (shard : nat) : HOp Z.

(** What a step does; [clock] is what the clock shows. *)
Definition exec_op {R : Type} (clock : Timestamp) (op : HOp R) (h : Handler) : R * Handler :=
  match op in HOp R return R * Handler with
  | CounterAdd c => (tt, fetch_add c h)
  | CounterLoad c => (counter c h, h)
  | ReadClock => (clock, h)
  | CacheGet id =>
      let '(item, cache) := sharded_get std_hash id (cache_ h) in (item, with_cache h cache)
  | CachePut id item => (tt, with_cache h (sharded_put std_hash id item (cache_ h)))
  | CacheErase id =>
      let '(erased, cache) := sharded_erase std_hash id (cache_ h) in (erased, with_cache h cache)
  | CacheSnapshot shard => (snapshot_shard (cache_ h) shard, h)
  | CacheMetricsOf shard =>
      (match shards_ (cache_ h) !! shard with Some s => metrics_ s | None => zero_metrics end, h)
  | CacheSizeOf shard =>
      (match shards_ (cache_ h) !! shard with Some s => lru_size s | None => O end, h)
  | PolicyReserve id now =>
      let '(decision, policy) := reserve id now (policy_ h) in (decision, with_policy h policy)
  | PolicyCheck id now => (check id now (policy_ h), h)
  | PolicyLoad c => (policy_counter c (p_metrics (policy_ h)), h)
  | PolicyTrackedOf shard =>
      (match p_shards (policy_ h) !! shard with
       | Some s => Z.of_nat (size (s_entries s)) | None => 0 end, h)
  end.

(** * Programs *)

Inductive prog (T : Type) : Type :=
| Ret (t : T)
| Do {R : Type} (op : HOp R) (k : R -> prog T).
#[global] Arguments Ret {T} t.
#[global] Arguments Do {T R} op k.

Fixpoint bind {A B : Type} (p : prog A) (f : A -> prog B) : prog B :=
  match p with
  | Ret a => f a
  | Do op k => Do op (fun r => bind (k r) f)
  end.

Declare Scope prog_scope.
Delimit Scope prog_scope with prog.
Notation "x <~ op ; k" := (Do op (fun x => k%prog))
  (at level 100, op at next level, right associativity) : prog_scope.
Notation "x <~~ p ; k" := (bind p (fun x => k%prog))
  (at level 100, p at next level, right associativity) : prog_scope.
#[local] Open Scope prog_scope.

(** A run with no interference; every clock reading shows [clock]. *)
Fixpoint exec {T : Type} (clock : Timestamp) (p : prog T) (h : Handler) : T * Handler :=
  match p with
  | Ret t => (t, h)
  | Do op k => let '(r, h) := exec_op clock op h in exec clock (k r) h
  end.

(** * The programs of the handler *)

(** What construction fixes for good. *)
Record Consts := MkConsts {
  k_shard_count : Z;          (** [cache_.shard_count()] *)
  k_cache_shards : nat;       (** shards of the cache *)
  k_policy_shards : nat;      (** shards of the policy store *)
  k_capacity : Z;
  k_privacy : PrivacyConfig;
  k_scoring : ScoringConfig
}.

Definition consts (h : Handler) : Consts :=
  MkConsts (sc_shard_count (cache_ h)) (length (shards_ (cache_ h))) (length (p_shards (policy_ h)))
    (sc_capacity (cache_ h)) (privacy_ h) (scoring_ h).

(** A loop over shards that takes one step per shard. *)
Fixpoint for_shards {A B : Type} (step : nat -> HOp A) (add : B -> A -> B) (shards : list nat) (acc : B)
    : prog B :=
  match shards with
  | [] => Ret acc
  | shard :: shards => a <~ step shard; for_shards step add shards (add acc a)
  end.

Definition on_get_prog (id : ItemId) : prog ResponseBody :=
  _ <~ CounterAdd Gets;
  item <~ CacheGet id;
  match item with
  | None => _ <~ CounterAdd Misses; Ret (GetItemResult SC_NotFound default_item)
  | Some item => _ <~ CounterAdd Hits; Ret (GetItemResult SC_Ok item)
  end.

Definition on_put_prog (item : Item) : prog ResponseBody :=
  _ <~ CounterAdd Puts;
  if item_id item =? 0 then Ret (Failure SC_InvalidRequest (str "item id must not be zero"))
  else if zlen (item_category item) =? 0
  then Ret (Failure SC_InvalidRequest (str "item category must not be empty"))
  else _ <~ CachePut (item_id item) item; Ret (PutItemResult SC_Ok).

Definition on_delete_prog (id : ItemId) : prog ResponseBody :=
  _ <~ CounterAdd Deletes;
  erased <~ CacheErase id;
  Ret (DeleteItemResult (if erased : bool then SC_Ok else SC_NotFound)).

(** The accept hook: one call of the policy store. *)
Definition accept_prog (now : Timestamp) (dry_run : bool) (id : ItemId) : prog bool :=
  decision <~ (if dry_run then PolicyCheck id now else PolicyReserve id now);
  Ret (bool_decide (decision = Allowed)).

Section Programs.
Variables (std_exp : double -> double) (std_pow : double -> double -> double).
Variables (std_log : double -> double) (llround_unrepresentable : double -> Z).
Variable K : Consts.

(** [CandidateSelector::select] with a hook that is a program. *)
Section Select.
Variable accept : ItemId -> prog bool.

Fixpoint select_loop_prog (fuel : nat) (count : Z) (l : list Candidate) (taken : list bool)
    (categories advertisers : list (bstring * Z)) (chosen : list RankedItem) : prog (list RankedItem) :=
  match fuel with
  | O => Ret chosen
  | S fuel =>
      if zlen chosen <? count then
        match best_candidate std_pow (k_scoring K) categories advertisers 0 l taken None with
        | None => Ret chosen
        | Some (i, winner, adjusted) =>
            let taken := <[i := true]> taken in
            ok <~~ accept (c_id winner);
            if negb ok then select_loop_prog fuel count l taken categories advertisers chosen
            else
              select_loop_prog fuel count l taken
                (increment categories (c_category winner))
                (increment advertisers (c_advertiser winner))
                (chosen ++ [MkRanked (c_id winner) adjusted (c_category winner) (c_advertiser winner)])
        end
      else Ret chosen
  end.

Definition select_prog (s : Selector) : prog (list RankedItem) :=
  if (sel_count s =? 0) || (zlen (shortlist s) =? 0) then Ret []
  else select_loop_prog (length (shortlist s)) (sel_count s) (shortlist s)
         (replicate (length (shortlist s)) false) [] [] [].
End Select.

(** One shard's batch, considered item by item. *)
Definition consider_batch (signal : UserSignal) (now : Timestamp) (selector : Selector)
    (batch : list (Z * option Item)) : Selector :=
  foldl (fun s entry => match snd entry with
                        | Some item => consider std_exp (k_scoring K) signal now item s
                        | None => s
                        end) selector batch.

Definition on_recommend_prog (request : Recommend) : prog ResponseBody :=
  _ <~ CounterAdd Recommends;
  if rec_count request =? 0 then Ret (Failure SC_InvalidRequest (str "count must be at least 1"))
  else if kMaxRecommendCount <? rec_count request then
    Ret (Failure SC_InvalidRequest (count_message (rec_count request)))
  else
    now <~ ReadClock;
    selector <~~ for_shards CacheSnapshot (consider_batch (rec_signal request) now)
                   (seq 0 (Z.to_nat (k_shard_count K))) (selector_new (k_scoring K) (rec_count request));
    items <~~ select_prog (accept_prog now (rec_dry_run request)) selector;
    Ret (RecommendResult SC_Ok items).

Definition stats_prog : prog Stats :=
  requests <~ CounterLoad Requests;
  gets <~ CounterLoad Gets;
  puts <~ CounterLoad Puts;
  deletes <~ CounterLoad Deletes;
  recommends <~ CounterLoad Recommends;
  hits <~ CounterLoad Hits;
  misses <~ CounterLoad Misses;
  metrics <~~ for_shards CacheMetricsOf add_metrics (seq 0 (k_cache_shards K)) zero_metrics;
  entries <~~ for_shards CacheSizeOf Nat.add (seq 0 (k_cache_shards K)) O;
  allowed <~ PolicyLoad CAllowed;
  exposure_blocked <~ PolicyLoad CExposureBlocked;
  frequency_blocked <~ PolicyLoad CFrequencyBlocked;
  store_full <~ PolicyLoad CStoreFull;
  _ <~ PolicyLoad CEvicted;
  tracked <~~ for_shards PolicyTrackedOf Z.add (seq 0 (k_policy_shards K)) 0;
  Ret (MkStats requests gets puts deletes recommends hits misses
         (m_evictions metrics) (Z.of_nat entries) (k_capacity K)
         allowed exposure_blocked frequency_blocked store_full tracked).

(** The counters are loaded, then the clock; the noise is a pure function of both. *)
Definition published_stats_prog : prog Stats :=
  exact <~~ stats_prog;
  now <~ ReadClock;
  let noise name value := publish std_log llround_unrepresentable (k_privacy K) (str name) value now in
  Ret (MkStats (noise "requests" (requests exact))%string (noise "gets" (gets exact))%string
    (puts exact) (deletes exact)
    (noise "recommends" (recommends exact))%string (noise "hits" (hits exact))%string
    (noise "misses" (misses exact))%string
    (evictions exact) (entries exact) (capacity exact)
    (noise "policy_allowed" (policy_allowed exact))%string
    (noise "policy_exposure_blocked" (policy_exposure_blocked exact))%string
    (noise "policy_frequency_blocked" (policy_frequency_blocked exact))%string
    (policy_store_full exact) (policy_tracked exact)).

Definition body_prog (body : RequestBody) : prog ResponseBody :=
  match body with
  | GetItem id => on_get_prog id
  | PutItem item => on_put_prog item
  | DeleteItem id => on_delete_prog id
  | GetStats => stats <~~ published_stats_prog; Ret (StatsResult SC_Ok stats)
  | RecommendBody r => on_recommend_prog r
  end.

Definition handle_prog (request : Request) : prog Response :=
  _ <~ CounterAdd Requests;
  body <~~ body_prog (req_body request);
  Ret (MkResponse (req_id request) body).
End Programs.

(** * Running alone *)

Lemma exec_bind {A B} clock (p : prog A) (f : A -> prog B) h :
  exec clock (bind p f) h = let '(a, h) := exec clock p h in exec clock (f a) h.
Proof.
  revert h. induction p as [a|R op k IH]; intros h; [done|]. cbn. destruct (exec_op clock op h) as [r h1].
  apply IH.
Qed.

(** A loop of reads is a fold over what the shards hold. *)
Lemma exec_for_shards {A B X} clock (step : nat -> HOp A) (add : B -> A -> B) (read : X -> A) (dflt : A)
    (xs : list X) h acc :
  (forall i, exec_op clock (step i) h = (default dflt (read <$> xs !! i), h)) ->
  exec clock (for_shards step add (seq 0 (length xs)) acc) h =
  (fold_left (fun b x => add b (read x)) xs acc, h).
Proof.
  intros Hstep.
  assert (Hg : forall ys n, (forall i, ys !! i = xs !! (n + i)%nat) -> forall b,
    exec clock (for_shards step add (seq n (length ys)) b) h =
    (fold_left (fun b x => add b (read x)) ys b, h)).
  { induction ys as [|y ys IH]; intros n Hys b; [done|]. cbn. rewrite Hstep.
    pose proof (Hys O) as H0. rewrite Nat.add_0_r in H0. rewrite <- H0. cbn. apply IH.
    intros i. replace (S n + i)%nat with (n + S i)%nat by lia. exact (Hys (S i)). }
  by apply Hg.
Qed.

(** A scan of any list of shards. *)
Lemma exec_scan {B} clock (add : B -> list (Z * option Item) -> B) shards h acc :
  exec clock (for_shards CacheSnapshot add shards acc) h =
  (foldl (fun b i => add b (snapshot_shard (cache_ h) i)) acc shards, h).
Proof. revert acc. induction shards as [|i shards IH]; intros acc; [done|]. cbn. apply IH. Qed.

Section Solo.
Variables (std_exp : double -> double) (std_pow : double -> double -> double).
Variables (std_log : double -> double) (llround_unrepresentable : double -> Z).

Lemma with_policy_same h : with_policy h (policy_ h) = h.
Proof. by destruct h. Qed.

Lemma with_policy_twice h p q : with_policy (with_policy h p) q = with_policy h q.
Proof. done. Qed.

Lemma exec_accept clock now dry id h :
  exec clock (accept_prog now dry id) h =
  let '(ok, policy) := accept now dry id (policy_ h) in (ok, with_policy h policy).
Proof.
  unfold accept_prog, accept. destruct dry; cbn; [by rewrite with_policy_same|].
  by destruct (reserve id now (policy_ h)).
Qed.

Lemma exec_select_loop clock K now dry fuel count l taken cats advs chosen h :
  exec clock (select_loop_prog std_pow K (accept_prog now dry) fuel count l taken cats advs chosen) h =
  let '(items, policy) :=
    select_loop std_pow (k_scoring K) (accept now dry) fuel count l taken cats advs chosen (policy_ h) in
  (items, with_policy h policy).
Proof.
  revert taken cats advs chosen h.
  induction fuel as [|fuel IH]; intros taken cats advs chosen h; cbn [select_loop select_loop_prog];
    [by rewrite with_policy_same|].
  destruct (zlen chosen <? count); [|by rewrite with_policy_same].
  destruct (best_candidate _ _ _ _ _ _ _ _) as [[[i w] adj]|]; [|by rewrite with_policy_same].
  rewrite exec_bind, exec_accept. destruct (accept now dry (c_id w) (policy_ h)) as [[] policy]; cbn [negb];
    rewrite IH; cbn [policy_ with_policy]; by destruct (select_loop _ _ _ _ _ _ _ _ _ _ _).
Qed.

Lemma exec_select clock K now dry s h :
  exec clock (select_prog std_pow K (accept_prog now dry) s) h =
  let '(items, policy) := select std_pow (k_scoring K) (accept now dry) s (policy_ h) in
  (items, with_policy h policy).
Proof.
  unfold select_prog, select. destruct (_ || _); [by rewrite with_policy_same|]. apply exec_select_loop.
Qed.

Lemma exec_stats clock h : exec clock (stats_prog (consts h)) h = (stats h, h).
Proof.
  unfold stats_prog. cbn [exec exec_op counter k_cache_shards k_policy_shards consts].
  rewrite exec_bind, (exec_for_shards clock CacheMetricsOf add_metrics metrics_ zero_metrics)
    by (intros i; cbn; by destruct (shards_ (cache_ h) !! i)).
  rewrite exec_bind, (exec_for_shards clock CacheSizeOf Nat.add lru_size O)
    by (intros i; cbn; by destruct (shards_ (cache_ h) !! i)).
  cbn [exec exec_op policy_counter].
  rewrite exec_bind, (exec_for_shards clock PolicyTrackedOf Z.add (fun s => Z.of_nat (size (s_entries s))) 0)
    by (intros i; cbn; by destruct (p_shards (policy_ h) !! i)).
  done.
Qed.

Lemma exec_body clock body h :
  exec clock (body_prog std_exp std_pow std_log llround_unrepresentable (consts h) body) h =
  match body with
  | GetItem id => on_get id h
  | PutItem item => on_put item h
  | DeleteItem id => on_delete id h
  | GetStats => (on_stats std_log llround_unrepresentable clock h, h)
  | RecommendBody r => on_recommend std_exp std_pow clock r h
  end.
Proof.
  destruct body as [id|item|id| |r]; unfold body_prog.
  - unfold on_get_prog, on_get. cbn [exec exec_op].
    by destruct (sharded_get std_hash id (cache_ (fetch_add Gets h))) as [[item|] cache].
  - unfold on_put_prog, on_put. cbn [exec exec_op].
    destruct (item_id item =? 0); [done|]. by destruct (zlen (item_category item) =? 0).
  - unfold on_delete_prog, on_delete. cbn [exec exec_op].
    by destruct (sharded_erase std_hash id (cache_ (fetch_add Deletes h))).
  - unfold published_stats_prog. by rewrite exec_bind, exec_bind, exec_stats.
  - unfold on_recommend_prog, on_recommend. cbn [exec exec_op].
    destruct (rec_count r =? 0); [done|]. destruct (_ <? rec_count r); [done|].
    cbn [exec exec_op]. rewrite exec_bind, exec_scan, exec_bind, exec_select.
    cbn [k_scoring k_shard_count consts cache_ scoring_ fetch_add].
    change (foldl (fun b i => consider_batch std_exp (consts h) (rec_signal r) clock b
      (snapshot_shard (cache_ (fetch_add Recommends h)) i))) with
      (foldl (consider_shard std_exp (scoring_ h) (rec_signal r) clock (cache_ h))).
    by destruct (select _ _ _ _ _).
Qed.

(** [solo_run_is_handle] below. *)
Lemma exec_handle (clock : Timestamp) (request : Request) (h : Handler) :
  exec clock (handle_prog std_exp std_pow std_log llround_unrepresentable (consts h) request) h =
  handle std_exp std_pow std_log llround_unrepresentable clock request h.
Proof.
  unfold handle_prog, handle. cbn [exec exec_op]. rewrite exec_bind.
  change (consts h) with (consts (fetch_add Requests h)). rewrite exec_body.
  destruct (req_body request) as [id|item|id| |r]; [| | |done|].
  - by destruct (on_get id _).
  - by destruct (on_put item _).
  - by destruct (on_delete id _).
  - by destruct (on_recommend _ _ _ _ _).
Qed.

End Solo.
