(* ===== verification/Interleaving.v ===== *)
(** Many requests at once on one handler (include/lrd/daemon/handler.hpp, "Thread
    safety"): [handle] may be called from any number of worker threads, and the
    programs of Concurrent.v interleave step by step in any order.

    A [System] is the shared handler with all calls made so far; each call remembers the
    steps it has taken and what they returned. A [Label] is either the arrival of a
    request or one step of one call, with what the clock shows at that moment; a list of
    labels is a schedule. Theorems quantify over all schedules, so also over those that
    leave calls unfinished.

    A call sees the shared state only through the results of its steps, so what it can do
    is the set of paths through its program ([path]); what the shared state does is the
    history of all steps in order. The theorems combine the two: caps and limits of the
    policy store hold for what clients are shown, lookups return what was last put, a
    slate holds no item twice although other workers change the cache during the scan,
    and every call finishes within a bound on its own steps.

    The steps are the critical sections of the shard mutexes and the single operations on
    atomics, taken one after the other. *)
From Stdlib Require Import Sorted.
From stdpp Require Import base option list gmap.
From S2P Require Import Prelude HashMix Binary64 Item Message Codec.
From S2P Require Import StdList LruCache ShardedCache ExposureStore Heap Scorer Noise Handler Concurrent.

(** * Systems *)

(** A step with its result. *)
Inductive Event :=
| Ev (R : Type) (op : HOp R) (r : R).
#[global] Arguments Ev {R} op r.

Record Call := MkCall {
  call_request : Request;
  call_events : list Event;
  call_prog : prog Response
}.

Record System := MkSystem {
  sys_handler : Handler;
  sys_calls : list Call;
  sys_history : list Event
}.

Inductive Label :=
| Arrive (request : Request)
| Step (i : nat) (clock : Timestamp).

Section Semantics.
Variables (std_exp : double -> double) (std_pow : double -> double -> double).
Variables (std_log : double -> double) (llround_unrepresentable : double -> Z).
Variable K : Consts.
#[local] Abbreviation handle_prog := (handle_prog std_exp std_pow std_log llround_unrepresentable).

(** A step of a call that does not exist or has answered does nothing. *)
Definition sys_step (s : System) (l : Label) : System :=
  match l with
  | Arrive request =>
      MkSystem (sys_handler s) (sys_calls s ++ [MkCall request [] (handle_prog K request)]) (sys_history s)
  | Step i clock =>
      match sys_calls s !! i with
      | Some (MkCall request events (Do op k)) =>
          let '(r, h) := exec_op clock op (sys_handler s) in
          MkSystem h (<[i := MkCall request (events ++ [Ev op r]) (k r)]> (sys_calls s))
            (sys_history s ++ [Ev op r])
      | _ => s
      end
  end.

Definition sys_run (labels : list Label) (s : System) : System := foldl sys_step s labels.
End Semantics.

Definition sys_start (h : Handler) : System := MkSystem h [] [].

Definition answer (c : Call) : option Response :=
  match call_prog c with Ret response => Some response | Do _ _ => None end.

(** The requests of a schedule. *)
Definition arrivals (labels : list Label) : list Request :=
  omap (fun l => match l with Arrive request => Some request | Step _ _ => None end) labels.

(** * Reading events *)

Definition event_policy (e : Event) : list (PolicyOp * option PolicyDecision) :=
  match e with
  | Ev op r =>
      match op in HOp R return R -> list (PolicyOp * option PolicyDecision) with
      | PolicyReserve id now => fun d => [(PReserve id now, Some d)]
      | PolicyCheck id now => fun d => [(PCheck id now, Some d)]
      | _ => fun _ => []
      end r
  end.

Definition event_cache (e : Event) : list (LruOp Z Item) :=
  match e with
  | Ev op r =>
      match op with
      | CacheGet id => [OpGet id]
      | CachePut id item => [OpPut id item]
      | CacheErase id => [OpErase id]
      | _ => []
      end
  end.

Definition event_adds (c : Counter) (e : Event) : Z :=
  match e with
  | Ev op r => match op with CounterAdd c' => if decide (c' = c) then 1 else 0 | _ => 0 end
  end.

(** The clock reading a call works with: the one it took. *)
Definition event_clock (e : Event) : option Timestamp :=
  match e with
  | Ev op r => match op in HOp R return R -> option Timestamp with
               | ReadClock => fun t => Some t | _ => fun _ => None end r
  end.
Definition events_clock (evs : list Event) : Timestamp := default 0 (head (omap event_clock evs)).
Definition call_clock (c : Call) : Timestamp := events_clock (call_events c).

Definition policy_history (evs : list Event) : list (PolicyOp * option PolicyDecision) :=
  concat (map event_policy evs).
Definition cache_history (evs : list Event) : list (LruOp Z Item) := concat (map event_cache evs).

(** Is the event a granted reservation of [id]? In window [k]? *)
Definition event_shows (id : ItemId) (e : Event) : Z :=
  let ops := event_policy e in shows id ops.*1 ops.*2.
Definition event_window_shows (config : PolicyConfig) (id : ItemId) (k : Z) (e : Event) : Z :=
  let ops := event_policy e in window_shows config id k ops.*1 ops.*2.

Definition total (f : Event -> Z) (evs : list Event) : Z := zsum (map f evs).

(** * What clients are shown *)

Definition answer_shows (id : ItemId) (c : Call) : Z :=
  match answer c with Some response => live_shows id (call_request c) response | None => 0 end.
Definition answer_window_shows (config : PolicyConfig) (id : ItemId) (k : Z) (c : Call) : Z :=
  if to_millis (call_clock c) / window_ms config =? k then answer_shows id c else 0.
Definition answered_shows (id : ItemId) (s : System) : Z := zsum (map (answer_shows id) (sys_calls s)).
Definition answered_window_shows (config : PolicyConfig) (id : ItemId) (k : Z) (s : System) : Z :=
  zsum (map (answer_window_shows config id k) (sys_calls s)).

(** * Paths of a program *)

(** [p] can take the steps [evs], whatever the others do, and return [t]. *)
Fixpoint path {T : Type} (p : prog T) (evs : list Event) (t : T) : Prop :=
  match p with
  | Ret t' => evs = [] /\ t = t'
  | Do op k => exists r evs', evs = Ev op r :: evs' /\ path (k r) evs' t
  end.

Lemma path_bind {A B} (p : prog A) (f : A -> prog B) evs b :
  path (bind p f) evs b <->
  exists evs1 evs2 a, evs = evs1 ++ evs2 /\ path p evs1 a /\ path (f a) evs2 b.
Proof.
  revert evs. induction p as [a|R op k IH]; intros evs; cbn.
  - split; [intros H; by exists [], evs, a|]. by intros (evs1 & evs2 & a' & -> & (-> & ->) & H).
  - split.
    + intros (r & evs' & -> & (evs1 & evs2 & a & -> & H1 & H2)%IH). exists (Ev op r :: evs1), evs2, a.
      split; [done|]. split; [|done]. by exists r, evs1.
    + intros (evs1 & evs2 & a & -> & (r & evs' & -> & H1) & H2). exists r, (evs' ++ evs2).
      split; [done|]. apply IH. by exists evs', evs2, a.
Qed.

(** Some result of every step. *)
Definition some_result {R : Type} (op : HOp R) : R :=
  match op with
  | CounterAdd _ | CachePut _ _ => tt
  | CounterLoad _ | ReadClock | PolicyLoad _ | PolicyTrackedOf _ => 0
  | CacheGet _ => None
  | CacheErase _ => false
  | CacheSnapshot _ => []
  | CacheMetricsOf _ => zero_metrics
  | CacheSizeOf _ => O
  | PolicyReserve _ _ | PolicyCheck _ _ => Allowed
  end.

Lemma path_exists {T} (p : prog T) : exists evs t, path p evs t.
Proof.
  induction p as [t|R op k IH]; [by exists [], t|].
  destruct (IH (some_result op)) as (evs & t & H). exists (Ev op (some_result op) :: evs), t. cbn. eauto.
Qed.

Lemma path_for_shards {A B} (step : nat -> HOp A) (add : B -> A -> B) shards acc evs b :
  path (for_shards step add shards acc) evs b <->
  exists rs, length rs = length shards /\ evs = zip_with (fun i r => Ev (step i) r) shards rs /\
    b = foldl add acc rs.
Proof.
  revert acc evs. induction shards as [|i shards IH]; intros acc evs; cbn.
  - split; [intros [-> ->]; by exists []|]. by intros ([|] & ? & -> & ->).
  - split.
    + intros (r & evs' & -> & (rs & Hl & -> & ->)%IH). exists (r :: rs). cbn. by rewrite Hl.
    + intros ([|r rs] & Hl & -> & ->); [done|]. cbn in *. exists r; eexists; split; [done|]. apply IH.
      exists rs. split; [lia|done].
Qed.

(** ** Selection against answers from outside *)

(** The answers the hook of one call received, as a hook of its own: it hands out the
    recorded answers and notes who was asked. *)
Definition replay_hook (id : ItemId) (st : list bool * list ItemId) : bool * (list bool * list ItemId) :=
  (default false (head (fst st)), (tail (fst st), snd st ++ [id])).

(** The step the hook takes for an id, with its decision. *)
Definition gate_event (now : Timestamp) (dry_run : bool) (asked : ItemId * PolicyDecision) : Event :=
  Ev (if dry_run then PolicyCheck (fst asked) now else PolicyReserve (fst asked) now) (snd asked).

Definition allowed (asked : ItemId * PolicyDecision) : bool := bool_decide (snd asked = Allowed).

Lemma path_accept now dry id evs ok :
  path (accept_prog now dry id) evs ok <->
  exists d, evs = [gate_event now dry (id, d)] /\ ok = allowed (id, d).
Proof.
  unfold accept_prog, gate_event, allowed. cbn. split.
  - intros (d & evs' & -> & -> & ->). by exists d.
  - intros (d & -> & ->). by exists d, [].
Qed.

Lemma consult_replay ids answers noted :
  snd (consult replay_hook ids (answers, noted)) = (drop (length ids) answers, noted ++ ids) /\
  (length answers = length ids -> fst (consult replay_hook ids (answers, noted)) = answers).
Proof.
  revert answers noted. induction ids as [|id ids IH]; intros answers noted; cbn.
  - rewrite app_nil_r, drop_0. split; [done|]. by destruct answers.
  - destruct (IH (tail answers) (noted ++ [id])) as [IH1 IH2].
    destruct (consult replay_hook ids (tail answers, noted ++ [id])) as [bs st]. cbn in *. split.
    + rewrite IH1, <- app_assoc. f_equal. by destruct answers; cbn; rewrite ?drop_nil.
    + destruct answers as [|b answers]; [done|]. intros [= Hl]. cbn. f_equal. by apply IH2.
Qed.

Section Paths.
Variables (std_exp : double -> double) (std_pow : double -> double -> double).
Variables (std_log : double -> double) (llround_unrepresentable : double -> Z).
Variable K : Consts.
#[local] Abbreviation handle_prog := (handle_prog std_exp std_pow std_log llround_unrepresentable).

Lemma path_select_loop now dry fuel count l taken cats advs chosen noted evs items :
  path (select_loop_prog std_pow K (accept_prog now dry) fuel count l taken cats advs chosen) evs items ->
  exists asked, evs = map (gate_event now dry) asked /\
    select_loop std_pow (k_scoring K) replay_hook fuel count l taken cats advs chosen
      (map allowed asked, noted) = (items, ([], noted ++ asked.*1)).
Proof.
  revert taken cats advs chosen noted evs.
  induction fuel as [|fuel IH]; intros taken cats advs chosen noted evs; cbn [select_loop select_loop_prog].
  { intros [-> ->]. exists []. by rewrite app_nil_r. }
  destruct (zlen chosen <? count); [|intros [-> ->]; exists []; by rewrite app_nil_r].
  destruct (best_candidate _ _ _ _ _ _ _ _) as [[[i w] adj]|];
    [|intros [-> ->]; exists []; by rewrite app_nil_r].
  intros (evs1 & evs2 & ok & -> & (d & -> & ->)%path_accept & Hp)%path_bind.
  destruct (allowed (c_id w, d)) eqn:Ea; cbn [negb] in Hp;
    destruct (IH _ _ _ _ (noted ++ [c_id w]) _ Hp) as (asked & -> & E);
    exists ((c_id w, d) :: asked); (split; [done|]); cbn [map]; rewrite Ea; cbn [replay_hook fst snd head tail];
    cbn [default from_option id negb]; rewrite E, <- app_assoc; done.
Qed.

Lemma path_select now dry s evs items :
  0 <= sel_count s ->
  path (select_prog std_pow K (accept_prog now dry) s) evs items ->
  exists asked (offered : list (Candidate * bool)),
    evs = map (gate_event now dry) asked /\
    asked.*1 = c_id <$> offered.*1 /\ offered.*2 = map allowed asked /\
    offered.*1 ⊆+ shortlist s /\
    Forall2 (fun r c => ranked_id r = c_id c /\ ranked_category r = c_category c /\
                        ranked_advertiser r = c_advertiser c) items (accepted offered) /\
    zlen items <= sel_count s /\ (zlen items < sel_count s -> offered.*1 ≡ₚ shortlist s).
Proof.
  intros H0 Hp.
  assert (exists asked, evs = map (gate_event now dry) asked /\
    select std_pow (k_scoring K) replay_hook s (map allowed asked, []) = (items, ([], asked.*1)))
    as (asked & -> & E).
  { unfold select_prog, select in *. destruct (_ || _).
    - destruct Hp as [-> ->]. by exists [].
    - destruct (path_select_loop _ _ _ _ _ _ _ _ _ [] _ _ Hp) as (asked & -> & E). by exists asked. }
  destruct (select_trace_any std_pow (k_scoring K) replay_hook s (map allowed asked, []) H0)
    as (offered & out & st' & E' & T1 & T2 & T3 & T4 & T5). rewrite E in E'. injection E' as <- <-.
  destruct (consult_replay (c_id <$> offered.*1) (map allowed asked) []) as [C1 C2].
  rewrite T1 in C1, C2. cbn [snd fst app] in C1, C2. injection C1 as C1 C1'.
  exists asked, offered. split_and!; try done. apply C2. by rewrite <- C1', !length_fmap.
Qed.

(** The items a scan with the batches [rs] considers. *)
Definition batch_items (rs : list (list (Z * option Item))) : list Item := omap snd (concat rs).

Lemma scan_batches signal now count (rs : list (list (Z * option Item))) :
  foldl (consider_batch std_exp K signal now) (selector_new (k_scoring K) count) rs =
  retrieve std_exp (k_scoring K) signal now count (batch_items rs).
Proof.
  unfold retrieve, batch_items. generalize (selector_new (k_scoring K) count).
  induction rs as [|b rs IH]; intros s; [done|]. cbn [foldl concat]. rewrite omap_app, foldl_app, IH.
  unfold consider_batch. by rewrite consider_entries.
Qed.

(** What a recommendation can do, whatever happens around it. *)
Lemma path_recommend r evs body :
  0 <= rec_count r ->
  path (on_recommend_prog std_exp std_pow K r) evs body ->
  (evs = [Ev (CounterAdd Recommends) tt] /\
   exists msg, body = Failure SC_InvalidRequest msg /\ (rec_count r = 0 \/ kMaxRecommendCount < rec_count r)) \/
  (exists now rs asked (offered : list (Candidate * bool)) items,
    body = RecommendResult SC_Ok items /\ 1 <= rec_count r <= kMaxRecommendCount /\
    length rs = Z.to_nat (k_shard_count K) /\
    evs = [Ev (CounterAdd Recommends) tt; Ev ReadClock now] ++
          zip_with (fun i b => Ev (CacheSnapshot i) b) (seq 0 (Z.to_nat (k_shard_count K))) rs ++
          map (gate_event now (rec_dry_run r)) asked /\
    asked.*1 = c_id <$> offered.*1 /\ offered.*2 = map allowed asked /\
    offered.*1 ⊆+ passing std_exp (k_scoring K) (rec_signal r) now (batch_items rs) /\
    zlen offered <= sel_limit (selector_new (k_scoring K) (rec_count r)) /\
    Forall2 (fun r c => ranked_id r = c_id c /\ ranked_category r = c_category c /\
                        ranked_advertiser r = c_advertiser c) items (accepted offered) /\
    zlen items <= rec_count r).
Proof.
  intros H0. unfold on_recommend_prog. cbn [path]. intros ([] & evs' & -> & Hp).
  destruct (Z.eqb_spec (rec_count r) 0) as [E|E]; [destruct Hp as [-> ->]; left; split; [done|]; eauto|].
  destruct (Z.ltb_spec kMaxRecommendCount (rec_count r)) as [E'|E'];
    [destruct Hp as [-> ->]; left; split; [done|]; eauto|].
  cbn [path] in Hp. destruct Hp as (now & evs & -> & Hp).
  apply path_bind in Hp as (evs1 & evs2 & sel & -> & (rs & Hl & -> & ->)%path_for_shards & Hp).
  rewrite length_seq in Hl. rewrite scan_batches in Hp.
  apply path_bind in Hp as (evs3 & evs4 & items & -> & Hs & (-> & ->)). right.
  set (s := retrieve _ _ _ _ _ _) in *.
  assert (sel_count s = rec_count r) as Hcount by apply retrieve_limit.
  assert (sel_limit s = sel_limit (selector_new (k_scoring K) (rec_count r))) as Hlimit by apply retrieve_limit.
  destruct (retrieve_shape std_exp (k_scoring K) (rec_signal r) now (rec_count r) (batch_items rs)) as [R1 R2].
  fold s in R1, R2.
  apply path_select in Hs as (asked & offered & -> & A1 & A2 & A3 & A4 & A5 & _); [|lia].
  exists now, rs, asked, offered, items. rewrite app_nil_r. split_and!; try done; try lia.
  - by transitivity (shortlist s).
  - apply submseteq_length in A3. rewrite length_fmap in A3. unfold zlen in *. lia.
Qed.
End Paths.

(** * Counting events *)

Lemma total_app f evs1 evs2 : total f (evs1 ++ evs2) = total f evs1 + total f evs2.
Proof. unfold total. by rewrite map_app, zsum_app. Qed.

Lemma total_cons f e evs : total f (e :: evs) = f e + total f evs.
Proof. done. Qed.

Lemma total_zero f evs : Forall (fun e => f e = 0) evs -> total f evs = 0.
Proof. induction 1 as [|e evs E _ IH]; [done|]. rewrite total_cons. lia. Qed.

Lemma policy_history_app evs1 evs2 :
  policy_history (evs1 ++ evs2) = policy_history evs1 ++ policy_history evs2.
Proof. unfold policy_history. by rewrite map_app, concat_app. Qed.

Lemma policy_history_one e : policy_history [e] = event_policy e.
Proof. unfold policy_history. cbn. apply app_nil_r. Qed.

Lemma cache_history_one e : cache_history [e] = event_cache e.
Proof. unfold cache_history. cbn. apply app_nil_r. Qed.

Lemma cache_history_app evs1 evs2 : cache_history (evs1 ++ evs2) = cache_history evs1 ++ cache_history evs2.
Proof. unfold cache_history. by rewrite map_app, concat_app. Qed.

Lemma total_shows_history id evs :
  total (event_shows id) evs = shows id (policy_history evs).*1 (policy_history evs).*2.
Proof.
  induction evs as [|e evs IH]; [done|]. rewrite total_cons. unfold policy_history in *. cbn [map concat].
  rewrite !fmap_app, shows_app, IH by (by rewrite !length_fmap). done.
Qed.

Lemma total_window_history config id k evs :
  total (event_window_shows config id k) evs =
  window_shows config id k (policy_history evs).*1 (policy_history evs).*2.
Proof.
  induction evs as [|e evs IH]; [done|]. rewrite total_cons. unfold policy_history in *. cbn [map concat].
  rewrite !fmap_app, window_shows_app, IH by (by rewrite !length_fmap). done.
Qed.

Lemma gate_history now dry asked :
  policy_history (map (gate_event now dry) asked) =
  map (fun a => (policy_op now dry (fst a), Some (snd a))) asked.
Proof.
  unfold policy_history. induction asked as [|a asked IH]; [done|]. cbn [map concat]. rewrite IH.
  by destruct dry.
Qed.

(** The granted reservations of a selection are the occurrences in its slate. *)
Lemma gate_totals config now dry id k asked (offered : list (Candidate * bool)) items :
  asked.*1 = c_id <$> offered.*1 -> offered.*2 = map allowed asked ->
  Forall2 (fun r c => ranked_id r = c_id c /\ ranked_category r = c_category c /\
                      ranked_advertiser r = c_advertiser c) items (accepted offered) ->
  let n := if dry : bool then 0 else occurrences id items in
  total (event_shows id) (map (gate_event now dry) asked) = n /\
  total (event_window_shows config id k) (map (gate_event now dry) asked) =
    (if to_millis now / window_ms config =? k then n else 0).
Proof.
  intros E1 E2 Hf. cbv zeta. rewrite (occurrences_accepted id items _ Hf), total_shows_history,
    total_window_history, gate_history.
  replace (map (fun a => (policy_op now dry a.1, Some a.2)) asked).*1
    with (map (policy_op now dry) (c_id <$> offered.*1)); cycle 1.
  { rewrite <- E1. clear. induction asked as [|a asked IH]; [done|]. cbn. by f_equal. }
  apply consult_shows. rewrite E2. clear. induction asked as [|a asked IH]; [done|]. cbn. f_equal; [|done].
  apply bool_decide_ext. split; congruence.
Qed.

(** * What the events of one request are *)

(** Steps that only read. *)
Definition reads (e : Event) : Prop :=
  event_policy e = [] /\ event_cache e = [] /\ forall c, event_adds c e = 0.

Lemma reads_totals evs :
  Forall reads evs ->
  (forall id, total (event_shows id) evs = 0) /\
  (forall config id k, total (event_window_shows config id k) evs = 0) /\
  (forall c, total (event_adds c) evs = 0) /\ cache_history evs = [].
Proof.
  intros H. split_and!.
  - intros id. apply total_zero. eapply Forall_impl; [exact H|]. intros e (E & _). unfold event_shows. by rewrite E.
  - intros config id k. apply total_zero. eapply Forall_impl; [exact H|]. intros e (E & _).
    unfold event_window_shows. by rewrite E.
  - intros c. apply total_zero. eapply Forall_impl; [exact H|]. by intros e (_ & _ & E).
  - induction H as [|e evs (_ & E & _) _ IH]; [done|]. unfold cache_history in *. cbn. by rewrite E, IH.
Qed.

Lemma reads_shards {A} (step : nat -> HOp A) shards rs :
  (forall i r, reads (Ev (step i) r)) -> Forall reads (zip_with (fun i r => Ev (step i) r) shards rs).
Proof.
  intros H. revert rs. induction shards as [|i shards IH]; intros [|r rs]; cbn; try by apply Forall_nil.
  apply Forall_cons. by split.
Qed.

(** The most steps a request takes. *)
Definition step_bound (K : Consts) (request : Request) : nat :=
  match req_body request with
  | GetItem _ => 4
  | PutItem _ | DeleteItem _ => 3
  | GetStats => 14 + 2 * k_cache_shards K + k_policy_shards K
  | RecommendBody r =>
      3 + Z.to_nat (k_shard_count K) + Z.to_nat (sel_limit (selector_new (k_scoring K) (rec_count r)))
  end.

Record request_events (K : Consts) (request : Request) (evs : list Event) (response : Response) : Prop := {
  re_shows : forall id, total (event_shows id) evs = live_shows id request response;
  re_windows : forall config id k, total (event_window_shows config id k) evs =
    if to_millis (events_clock evs) / window_ms config =? k then live_shows id request response else 0;
  re_puts : forall id item, OpPut id item ∈ cache_history evs ->
    id = item_id item /\ req_body request = PutItem item /\ valid_put item = true;
  re_counts : forall c, c <> Hits -> c <> Misses -> total (event_adds c) evs = tally c request;
  re_lookups : total (event_adds Hits) evs + total (event_adds Misses) evs = tally Gets request;
  re_length : (length evs <= step_bound K request)%nat
}.

Section Requests.
Variables (std_exp : double -> double) (std_pow : double -> double -> double).
Variables (std_log : double -> double) (llround_unrepresentable : double -> Z).
Variable K : Consts.
#[local] Abbreviation handle_prog := (handle_prog std_exp std_pow std_log llround_unrepresentable).
#[local] Abbreviation body_prog := (body_prog std_exp std_pow std_log llround_unrepresentable).

(** A request whose events are its counter and then reads. *)
Lemma reads_request request evs response :
  (forall id, live_shows id request response = 0) ->
  (forall c, c <> Requests -> tally c request = 0) ->
  Forall reads evs -> (S (length evs) <= step_bound K request)%nat ->
  request_events K request (Ev (CounterAdd Requests) tt :: evs) response.
Proof.
  intros Hlive Ht Hr Hl. destruct (reads_totals evs Hr) as (R1 & R2 & R3 & R4). split.
  - intros id. by rewrite total_cons, R1, Hlive.
  - intros config id k. rewrite total_cons, R2, Hlive. by destruct (_ =? k).
  - intros id item. unfold cache_history in *. cbn. rewrite R4. by intros ?%elem_of_nil.
  - intros c _ _. rewrite total_cons, R3. destruct (decide (c = Requests)) as [->|Hc]; [done|].
    rewrite (Ht c Hc). cbn. by rewrite decide_False.
  - by rewrite !total_cons, !R3, (Ht Gets).
  - done.
Qed.

Lemma path_stats evs body :
  path (body_prog K GetStats) evs body ->
  Forall reads evs /\ length evs = (13 + 2 * k_cache_shards K + k_policy_shards K)%nat.
Proof.
  unfold body_prog, published_stats_prog, stats_prog. intros Hp.
  apply path_bind in Hp as (e1 & e2 & st & -> & Hp & -> & _).
  apply path_bind in Hp as (e3 & e4 & st' & -> & Hp & now & ? & -> & -> & _).
  cbn [path] in Hp. destruct Hp as (? & ? & -> & ? & ? & -> & ? & ? & -> & ? & ? & -> & ? & ? & -> & ? & ? & -> & ? & ? & -> & Hp).
  apply path_bind in Hp as (e5 & e6 & ? & -> & (rs1 & L1 & -> & _)%path_for_shards & Hp).
  apply path_bind in Hp as (e7 & e8 & ? & -> & (rs2 & L2 & -> & _)%path_for_shards & Hp).
  cbn [path] in Hp. destruct Hp as (? & ? & -> & ? & ? & -> & ? & ? & -> & ? & ? & -> & ? & ? & -> & Hp).
  apply path_bind in Hp as (e9 & e10 & ? & -> & (rs3 & L3 & -> & _)%path_for_shards & -> & _).
  split.
  - repeat first [apply Forall_app; split | apply Forall_cons; split | apply Forall_nil; exact I
                 | by apply reads_shards | by split_and!].
  - rewrite length_seq in L1, L2, L3. repeat (rewrite ?length_app, ?length_zip_with, ?length_seq; cbn [length]).
    lia.
Qed.

(** Events of a recommendation before it asks the policy store. *)
Lemma recommend_prefix now n (rs : list (list (Z * option Item))) :
  Forall reads (Ev ReadClock now :: zip_with (fun i b => Ev (CacheSnapshot i) b) (seq 0 n) rs).
Proof. apply Forall_cons. split; [by split_and!|]. by apply reads_shards. Qed.

Lemma gate_events_reads now dry asked :
  cache_history (map (gate_event now dry) asked) = [] /\
  forall c, total (event_adds c) (map (gate_event now dry) asked) = 0.
Proof.
  induction asked as [|a asked [IH1 IH2]]; [done|]. split.
  - unfold cache_history in *. cbn. rewrite IH1. by destruct dry.
  - intros c. cbn [map]. rewrite total_cons, IH2. by destruct dry.
Qed.

Lemma recommend_events rid r evs body :
  fits 32 (rec_count r) -> path (on_recommend_prog std_exp std_pow K r) evs body ->
  request_events K (MkRequest rid (RecommendBody r)) (Ev (CounterAdd Requests) tt :: evs) (MkResponse rid body).
Proof.
  intros [H0 _] Hp. pose proof (path_recommend std_exp std_pow K r evs body H0 Hp)
    as [(-> & msg & -> & _)|(now & rs & asked & offered & items & -> & Hc & Hl & -> & A1 & A2 & _ & A4 & A5 & _)].
  { split; try done.
    - intros config id k. cbn. by destruct (_ =? k).
    - by intros id item ?%elem_of_nil.
    - by intros [].
    - cbn. lia. }
  cbn [app]. set (snaps := zip_with _ _ rs). set (gates := map _ asked).
  change (Ev (CounterAdd Recommends) tt :: Ev ReadClock now :: snaps ++ gates) with
    (Ev (CounterAdd Recommends) tt :: (Ev ReadClock now :: snaps) ++ gates).
  destruct (reads_totals _ (recommend_prefix now (Z.to_nat (k_shard_count K)) rs)) as (R1 & R2 & R3 & R4).
  destruct (gate_events_reads now (rec_dry_run r) asked) as [G1 G2]. fold snaps gates in R1, R2, R3, R4, G1, G2.
  split.
  - intros id. rewrite !total_cons, total_app, R1.
    exact (proj1 (gate_totals (MkPolicyConfig 0 0 0 0 false) now (rec_dry_run r) id 0 _ _ _ A1 A2 A5)).
  - intros config id k. rewrite !total_cons, total_app, R2.
    exact (proj2 (gate_totals config now (rec_dry_run r) id k _ _ _ A1 A2 A5)).
  - intros id item. change (Ev (CounterAdd Requests) tt :: Ev (CounterAdd Recommends) tt ::
      (Ev ReadClock now :: snaps) ++ gates) with ([Ev (CounterAdd Requests) tt; Ev (CounterAdd Recommends) tt] ++
      ((Ev ReadClock now :: snaps) ++ gates)). rewrite !cache_history_app, R4, G1. by intros ?%elem_of_nil.
  - intros c Hh Hm. rewrite !total_cons, total_app, R3, G2. by destruct c.
  - rewrite !total_cons, !total_app, !R3, !G2. done.
  - assert (Ha : length asked = length offered).
    { apply (f_equal length) in A1. by rewrite !length_fmap in A1. }
    unfold snaps, gates, step_bound. cbn [length req_body]. rewrite length_app. cbn [length].
    rewrite length_zip_with, length_map, length_seq. unfold zlen in A4. lia.
Qed.

Lemma handle_events request evs response :
  typed request -> path (handle_prog K request) evs response ->
  resp_id response = req_id request /\ request_events K request evs response.
Proof.
  destruct request as [rid body]. unfold handle_prog. intros Ht Hp. cbn [path] in Hp.
  destruct Hp as ([] & evs1 & -> & Hp). apply path_bind in Hp as (e1 & e2 & b & -> & Hp & -> & ->).
  rewrite app_nil_r. split; [done|]. cbn [req_body req_id] in *. destruct body as [id|item|id| |r].
  - destruct Hp as ([] & ? & -> & [x|] & ? & -> & [] & ? & -> & -> & ->); cbn.
    all: split; try done; try by intros [].
    all: try by intros config id' k; cbn; destruct (_ =? k).
    all: by intros id' it; cbn; intros ?%list_elem_of_singleton.
  - unfold body_prog, on_put_prog in Hp. destruct Hp as ([] & ? & -> & Hp).
    destruct (item_id item =? 0) eqn:E1; [|destruct (zlen (item_category item) =? 0) eqn:E2].
    1, 2: destruct Hp as [-> ->]; split; try done; try (by intros []);
      [by intros config id k; cbn; destruct (_ =? k)|by intros id it ?%elem_of_nil|cbn; lia].
    destruct Hp as ([] & ? & -> & -> & ->). split; try done; try by intros [].
    + intros config id k. cbn. by destruct (_ =? k).
    + intros id it. cbn. intros ?%list_elem_of_singleton. simplify_eq. unfold valid_put.
      rewrite E1. by rewrite E2.
  - destruct Hp as ([] & ? & -> & x & ? & -> & -> & ->). split; try done; try by intros [].
    + intros config id' k. cbn. by destruct (_ =? k).
    + by intros id' it; cbn; intros ?%list_elem_of_singleton.
  - destruct (path_stats _ _ Hp) as [Hr Hl]. apply reads_request; [| |done|].
    + intros id. done.
    + by intros [].
    + unfold step_bound. cbn [req_body]. lia.
  - by apply recommend_events.
Qed.
End Requests.

(** * The invariant of a system *)

#[local] Arguments total : simpl never.

Lemma total_nil f : total f [] = 0.
Proof. done. Qed.

Lemma total_one f e : total f [e] = f e.
Proof. rewrite total_cons, total_nil. lia. Qed.

(** What the cache showed a step that looked at it. *)
Definition seen_in (cache : ShardedCache Z Item) (e : Event) : Prop :=
  match e with
  | Ev op r =>
      match op in HOp R return R -> Prop with
      | CacheGet id => fun item => item = fst (sharded_get std_hash id cache)
      | CacheErase id => fun erased => erased = fst (sharded_erase std_hash id cache)
      | CacheSnapshot shard => fun batch => batch = snapshot_shard cache shard
      | _ => fun _ => True
      end r
  end.

(** The cache after the steps [evs]. *)
Definition cache_after (h0 : Handler) (evs : list Event) : ShardedCache Z Item :=
  snd (sharded_run std_hash (cache_history evs) (cache_ h0)).

(** What one step does to the parts of the handler. *)
Lemma exec_op_effect {R} clock (op : HOp R) h r h' :
  exec_op clock op h = (r, h') ->
  policy_run (event_policy (Ev op r)).*1 (policy_ h) = ((event_policy (Ev op r)).*2, policy_ h') /\
  cache_ h' = snd (sharded_run std_hash (event_cache (Ev op r)) (cache_ h)) /\
  seen_in (cache_ h) (Ev op r) /\
  forall c, fits 64 (counter c h) -> counter c h' = wrap 64 (counter c h + event_adds c (Ev op r)).
Proof.
  assert (H0 : forall c, fits 64 (counter c h) -> counter c h = wrap 64 (counter c h + 0))
    by (intros c Hf; by rewrite Z.add_0_r, wrap_small).
  destruct op as [c|c| |id|id item|id|i|i|i|id now|id now|c|i]; cbn; intros E; try (injection E as <- <-; by auto).
  - injection E as <- <-. split_and!; try done. intros c' Hf. rewrite counter_fetch_add.
    destruct (decide (c = c')); [done|by apply H0].
  - destruct (sharded_get std_hash id (cache_ h)) as [item cache]. injection E as <- <-. by auto.
  - destruct (sharded_erase std_hash id (cache_ h)) as [b cache]. injection E as <- <-. by auto.
  - destruct (reserve id now (policy_ h)) as [d policy]. injection E as <- <-. by auto.
Qed.

Section Invariant.
Variables (std_exp : double -> double) (std_pow : double -> double -> double).
Variables (std_log : double -> double) (llround_unrepresentable : double -> Z).
Variable K : Consts.
Variable h0 : Handler.
#[local] Abbreviation handle_prog := (handle_prog std_exp std_pow std_log llround_unrepresentable).
#[local] Abbreviation sys_step := (sys_step std_exp std_pow std_log llround_unrepresentable K).
#[local] Abbreviation sys_run := (sys_run std_exp std_pow std_log llround_unrepresentable K).

(** The steps a call has taken lead along its program to where it stands. *)
Definition on_path (c : Call) : Prop :=
  forall evs t, path (call_prog c) evs t -> path (handle_prog K (call_request c)) (call_events c ++ evs) t.

Record sys_inv (s : System) : Prop := {
  sv_calls : Forall on_path (sys_calls s);
  sv_totals : forall f, total f (sys_history s) = zsum (map (fun c => total f (call_events c)) (sys_calls s));
  sv_events : forall c e, c ∈ sys_calls s -> e ∈ call_events c -> e ∈ sys_history s;
  sv_owner : forall e, e ∈ sys_history s -> exists c, c ∈ sys_calls s /\ e ∈ call_events c;
  sv_policy : policy_run (policy_history (sys_history s)).*1 (policy_ h0) =
    ((policy_history (sys_history s)).*2, policy_ (sys_handler s));
  sv_cache : cache_ (sys_handler s) = cache_after h0 (sys_history s);
  sv_seen : forall before e after, sys_history s = before ++ e :: after -> seen_in (cache_after h0 before) e;
  sv_counters : forall c, fits 64 (counter c h0) ->
    counter c (sys_handler s) = wrap 64 (counter c h0 + total (event_adds c) (sys_history s))
}.

Lemma sys_start_inv : sys_inv (sys_start h0).
Proof.
  split; cbn; try done.
  - by intros c e ?%elem_of_nil.
  - by intros e ?%elem_of_nil.
  - by intros [|].
  - intros c Hf. by rewrite total_nil, Z.add_0_r, wrap_small.
Qed.

Lemma arrive_inv s request : sys_inv s -> sys_inv (sys_step s (Arrive request)).
Proof.
  intros []. split; cbn; try done.
  - apply Forall_app. split; [done|]. apply Forall_cons. split; [|by apply Forall_nil]. by intros evs t.
  - intros f. rewrite sv_totals0, map_app, zsum_app. cbn. rewrite total_nil. lia.
  - intros c e [Hc| ->%list_elem_of_singleton]%elem_of_app; [by apply sv_events0|by intros ?%elem_of_nil].
  - intros e (c & Hc & He)%sv_owner0. exists c. split; [apply elem_of_app; by left|done].
Qed.

Lemma snoc_split {A} (l : list A) x before e after :
  l ++ [x] = before ++ e :: after -> (l = before /\ x = e) \/ exists after', l = before ++ e :: after'.
Proof.
  destruct after as [|y after _] using rev_ind; intros E.
  - apply app_inj_tail in E as [-> ->]. by left.
  - change (before ++ e :: after ++ [y]) with (before ++ (e :: after) ++ [y]) in E.
    rewrite app_assoc in E. apply app_inj_tail in E as [-> _]. right. by exists after.
Qed.

Lemma cache_after_snoc evs e :
  cache_after h0 (evs ++ [e]) = snd (sharded_run std_hash (event_cache e) (cache_after h0 evs)).
Proof.
  unfold cache_after. by rewrite cache_history_app, sharded_run_app, cache_history_one.
Qed.

(** A step of call [i]: its effect on the call list. *)
Lemma step_calls_inv s i request events {R} (op : HOp R) k r :
  sys_inv s -> sys_calls s !! i = Some (MkCall request events (Do op k)) ->
  let c' := MkCall request (events ++ [Ev op r]) (k r) in
  Forall on_path (<[i := c']> (sys_calls s)) /\
  (forall f, total f (sys_history s ++ [Ev op r]) =
    zsum (map (fun c => total f (call_events c)) (<[i := c']> (sys_calls s)))) /\
  (forall c e, c ∈ <[i := c']> (sys_calls s) -> e ∈ call_events c -> e ∈ sys_history s ++ [Ev op r]) /\
  (forall e, e ∈ sys_history s ++ [Ev op r] -> exists c, c ∈ <[i := c']> (sys_calls s) /\ e ∈ call_events c).
Proof.
  intros [Hp Ht He Ho _ _ _ _] Hi c'. pose proof (lookup_lt_Some _ _ _ Hi) as Hlt.
  assert (Hin : MkCall request events (Do op k) ∈ sys_calls s) by (by eapply list_elem_of_lookup_2).
  split_and!.
  - apply Forall_insert; [done|]. intros evs t Hpath. unfold c'. cbn [call_request call_events].
    rewrite <- app_assoc. rewrite Forall_forall in Hp. apply (Hp _ Hin). cbn. by exists r, evs.
  - intros f. rewrite total_app, Ht, (zsum_insert _ _ _ _ c' Hi). cbn. rewrite total_app. lia.
  - intros c e Hc Hev. apply elem_of_app. apply list_elem_of_lookup in Hc as [j Hj].
    destruct (decide (i = j)) as [<-|Hne].
    + rewrite list_lookup_insert_eq in Hj by done. injection Hj as <-. cbn in Hev.
      apply elem_of_app in Hev as [Hev|Hev]; [left; by apply (He _ _ Hin)|by right].
    + rewrite list_lookup_insert_ne in Hj by done. left. eapply He; [by eapply list_elem_of_lookup_2|done].
  - intros e [(c & Hc & Hev)%Ho| ->%list_elem_of_singleton]%elem_of_app.
    + apply list_elem_of_lookup in Hc as [j Hj]. destruct (decide (i = j)) as [<-|Hne].
      * exists c'. split; [apply list_elem_of_lookup; exists i; by apply list_lookup_insert_eq|].
        rewrite Hi in Hj. injection Hj as <-. cbn. apply elem_of_app. by left.
      * exists c. split; [|done]. apply list_elem_of_lookup. exists j. by rewrite list_lookup_insert_ne.
    + exists c'. split; [apply list_elem_of_lookup; exists i; by apply list_lookup_insert_eq|].
      cbn. apply elem_of_app. right. by left.
Qed.

Lemma sys_step_inv s l : sys_inv s -> sys_inv (sys_step s l).
Proof.
  destruct l as [request|i clock]; [apply arrive_inv|]. intros Hinv. cbn.
  destruct (sys_calls s !! i) as [[request events [|R op k]]|] eqn:Ei; try done.
  destruct (exec_op clock op (sys_handler s)) as [r h] eqn:Ex.
  destruct (step_calls_inv s i request events op k r Hinv Ei) as (C1 & C2 & C3 & C4).
  destruct (exec_op_effect clock op _ r h Ex) as (E1 & E2 & E3 & E4). destruct Hinv.
  split; cbn [sys_calls sys_history sys_handler]; try done.
  - by rewrite policy_history_app, !fmap_app, policy_run_app, sv_policy0, policy_history_one, E1.
  - by rewrite cache_after_snoc, <- sv_cache0.
  - intros before e after [[<- <-]|[after' E]]%snoc_split; [by rewrite <- sv_cache0|by eapply sv_seen0].
  - intros c Hf. rewrite E4, sv_counters0, total_app by (rewrite ?sv_counters0 by done; first [done|by apply wrap_fits]).
    rewrite total_one, wrap64_add. f_equal. lia.
Qed.

Lemma sys_run_inv labels : sys_inv (sys_run labels (sys_start h0)).
Proof.
  unfold sys_run. pose proof sys_start_inv as Hinv. revert Hinv. generalize (sys_start h0).
  induction labels as [|l labels IH]; intros s Hs; [done|]. by apply IH, sys_step_inv.
Qed.
End Invariant.

(** * Calls of a run *)

Section Calls.
Variables (std_exp : double -> double) (std_pow : double -> double -> double).
Variables (std_log : double -> double) (llround_unrepresentable : double -> Z).
Variable K : Consts.
#[local] Abbreviation handle_prog := (handle_prog std_exp std_pow std_log llround_unrepresentable).
#[local] Abbreviation sys_step := (sys_step std_exp std_pow std_log llround_unrepresentable K).
#[local] Abbreviation sys_run := (sys_run std_exp std_pow std_log llround_unrepresentable K).
#[local] Abbreviation on_path := (on_path std_exp std_pow std_log llround_unrepresentable K).

Lemma sys_step_requests s l :
  call_request <$> sys_calls (sys_step s l) = (call_request <$> sys_calls s) ++ arrivals [l].
Proof.
  destruct l as [request|i clock]; cbn; [by rewrite fmap_app|]. rewrite app_nil_r.
  destruct (sys_calls s !! i) as [[request events [|R op k]]|] eqn:Ei; try done.
  destruct (exec_op clock op (sys_handler s)) as [r h]. cbn. rewrite list_fmap_insert. cbn.
  apply list_insert_id. by rewrite list_lookup_fmap, Ei.
Qed.

Lemma sys_run_requests labels s :
  call_request <$> sys_calls (sys_run labels s) = (call_request <$> sys_calls s) ++ arrivals labels.
Proof.
  revert s. induction labels as [|l labels IH]; intros s; [cbn; by rewrite app_nil_r|].
  change (sys_run (l :: labels) s) with (sys_run labels (sys_step s l)).
  rewrite IH, sys_step_requests, <- app_assoc. f_equal. unfold arrivals. by destruct l.
Qed.

(** A call of a run is one of the requests. *)
Lemma call_arrived labels h c :
  c ∈ sys_calls (sys_run labels (sys_start h)) -> call_request c ∈ arrivals labels.
Proof.
  intros Hc. pose proof (sys_run_requests labels (sys_start h)) as E. cbn in E. rewrite <- E.
  by apply list_elem_of_fmap_2.
Qed.

Lemma answered_path c response :
  on_path c -> answer c = Some response -> path (handle_prog K (call_request c)) (call_events c) response.
Proof.
  intros Hp Ha. unfold answer in Ha. rewrite <- (app_nil_r (call_events c)). apply Hp.
  destruct (call_prog c); [|done]. by injection Ha as ->.
Qed.

(** A call's steps are the beginning of one of its program's paths. *)
Lemma call_prefix c :
  on_path c -> exists evs response, path (handle_prog K (call_request c)) (call_events c ++ evs) response /\
    (answer c = None -> evs <> []).
Proof.
  intros Hp. destruct (path_exists (call_prog c)) as (evs & response & H). exists evs, response.
  split; [by apply Hp|]. unfold answer. destruct (call_prog c) as [|R op k]; [done|]. intros _ ->.
  by destruct H as (r & evs & ? & _).
Qed.

Lemma event_shows_nonneg id e : 0 <= event_shows id e.
Proof.
  unfold event_shows. generalize (event_policy e).*1 (event_policy e).*2. intros ops.
  induction ops as [|op ops IH]; intros [|r rs]; cbn; try lia. specialize (IH rs). destruct (is_show id op r); lia.
Qed.

Lemma event_window_nonneg config id k e : 0 <= event_window_shows config id k e.
Proof.
  unfold event_window_shows. generalize (event_policy e).*1 (event_policy e).*2. intros ops.
  induction ops as [|op ops IH]; intros [|r rs]; cbn; try lia. specialize (IH rs).
  destruct op; try lia. destruct (_ && _); lia.
Qed.

Lemma total_nonneg f evs : (forall e, 0 <= f e) -> 0 <= total f evs.
Proof. intros H. induction evs as [|e evs IH]; [done|]. rewrite total_cons. specialize (H e). lia. Qed.

(** A call shows no more than it was granted. *)
Lemma answer_shows_granted c id :
  on_path c -> typed (call_request c) -> answer_shows id c <= total (event_shows id) (call_events c).
Proof.
  intros Hp Ht. unfold answer_shows. destruct (answer c) as [response|] eqn:E.
  - destruct (handle_events _ _ _ _ _ _ _ _ Ht (answered_path c response Hp E)) as [_ He].
    by rewrite (re_shows _ _ _ _ He).
  - apply total_nonneg, event_shows_nonneg.
Qed.

Lemma answer_windows_granted c config id k :
  on_path c -> typed (call_request c) ->
  answer_window_shows config id k c <= total (event_window_shows config id k) (call_events c).
Proof.
  intros Hp Ht. unfold answer_window_shows, answer_shows. destruct (answer c) as [response|] eqn:E.
  - destruct (handle_events _ _ _ _ _ _ _ _ Ht (answered_path c response Hp E)) as [_ He].
    by rewrite (re_windows _ _ _ _ He).
  - destruct (_ =? k); apply total_nonneg, event_window_nonneg.
Qed.

(** ** Progress of one call *)

(** How often call [i] is scheduled. *)
Fixpoint turns (i : nat) (labels : list Label) : nat :=
  match labels with
  | [] => 0
  | Step j _ :: labels => (if decide (j = i) then 1 else 0) + turns i labels
  | Arrive _ :: labels => turns i labels
  end.

Lemma sys_step_call s l i c :
  sys_calls s !! i = Some c ->
  exists c', sys_calls (sys_step s l) !! i = Some c' /\ call_request c' = call_request c /\
    (answer c <> None -> c' = c) /\
    (answer c = None -> length (call_events c') = (length (call_events c) + turns i [l])%nat).
Proof.
  intros Hc. destruct l as [request|j clock].
  { exists c. split; [by apply lookup_app_l_Some|]. by split_and!; intros; cbn; try lia. }
  cbn -[decide].
  assert (Hsame : forall s', sys_calls s' !! i = Some c -> (answer c = None -> j <> i) ->
    exists c', sys_calls s' !! i = Some c' /\ call_request c' = call_request c /\ (answer c <> None -> c' = c) /\
    (answer c = None -> length (call_events c') =
      (length (call_events c) + ((if decide (j = i) then 1 else 0) + 0))%nat)).
  { intros s' Hs Hne. exists c. split_and!; try done. intros Ha. rewrite decide_False by auto. cbn. lia. }
  destruct (sys_calls s !! j) as [[request events p]|] eqn:Ej; [|apply Hsame; [done|intros _ ->; congruence]].
  destruct p as [t|R op k].
  { apply Hsame; [done|]. intros Ha ->. rewrite Hc in Ej. injection Ej as ->. done. }
  destruct (exec_op clock op (sys_handler s)) as [r h]. destruct (decide (j = i)) as [->|Hne].
  - rewrite Hc in Ej. injection Ej as ->. eexists. split; [apply list_lookup_insert_eq; by eapply lookup_lt_Some|].
    split_and!; try done. intros _. cbn. rewrite length_app. cbn. lia.
  - exists c. split; [cbn; by rewrite list_lookup_insert_ne|].
    by split_and!; intros; cbn; try lia.
Qed.

Lemma sys_run_call labels s i c :
  sys_calls s !! i = Some c ->
  exists c', sys_calls (sys_run labels s) !! i = Some c' /\ call_request c' = call_request c /\
    (answer c <> None -> c' = c) /\
    (answer c' = None -> length (call_events c') = (length (call_events c) + turns i labels)%nat).
Proof.
  revert s c. induction labels as [|l labels IH]; intros s c Hc.
  { exists c. by split_and!; intros; cbn; try lia. }
  destruct (sys_step_call s l i c Hc) as (c1 & H1 & E1 & A1 & L1).
  destruct (IH _ _ H1) as (c2 & H2 & E2 & A2 & L2). exists c2. split_and!; [done|congruence| |].
  - intros Ha. rewrite (A1 Ha) in *. auto.
  - intros Ha. assert (answer c1 = None) as Ha1.
    { destruct (answer c1) eqn:E; [|done]. rewrite A2 in Ha; congruence. }
    assert (answer c = None) as Ha0 by (destruct (answer c) eqn:E; [rewrite A1 in Ha1; congruence|done]).
    rewrite L2, L1 by done. destruct l; cbn -[decide]; lia.
Qed.
End Calls.

(** * What a scan sees while others write *)

Lemma last_write_elem k (ops : list (LruOp Z Item)) item :
  last_write k ops None = Some item -> OpPut k item ∈ ops.
Proof.
  unfold last_write. induction ops as [|op ops IH] using rev_ind; [done|]. rewrite fold_left_app. cbn.
  rewrite elem_of_app. destruct op as [k'|k'|k' v|k'|]; cbn; try (left; by apply IH).
  - destruct (decide (k' = k)) as [->|]; [|left; by apply IH]. intros [= ->]. right. by left.
  - destruct (decide (k' = k)); [done|]. left. by apply IH.
Qed.

Lemma cache_history_elem op evs : op ∈ cache_history evs -> exists e, e ∈ evs /\ op ∈ event_cache e.
Proof.
  intros (l & Hl & Hop)%list_elem_of_In%in_concat. apply list_elem_of_In, list_elem_of_fmap in Hl as (e & -> & He).
  exists e. split; [done|by apply list_elem_of_In].
Qed.

Lemma elem_cache_history op e evs : e ∈ evs -> op ∈ event_cache e -> op ∈ cache_history evs.
Proof.
  intros He Hop. unfold cache_history. apply list_elem_of_In, in_concat. exists (event_cache e).
  split; [|by apply list_elem_of_In]. apply list_elem_of_In. by apply list_elem_of_fmap_2.
Qed.

(** A batch of shard [i]: no key twice, and every entry an item of its own shard that
    satisfies [P]. *)
Definition batch_ok (home : ItemId -> nat) (P : Item -> Prop) (i : nat) (batch : list (Z * option Item)) : Prop :=
  NoDup batch.*1 /\ forall k item, (k, Some item) ∈ batch -> home k = i /\ item_id item = k /\ P item.

Lemma batch_items_elem (rs : list (list (Z * option Item))) item :
  item ∈ batch_items rs -> exists batch k, batch ∈ rs /\ (k, Some item) ∈ batch.
Proof.
  unfold batch_items. intros ([k p] & Hin & E)%list_elem_of_omap. cbn in E. subst p.
  apply list_elem_of_In, in_concat in Hin as (b & Hb & Hin). exists b, k. split; by apply list_elem_of_In.
Qed.

(** Different shards hold different ids, so one pass over all shards meets an id at most
    once, even when the batches were taken at different times. *)
Lemma batches_nodup home P n (rs : list (list (Z * option Item))) :
  (forall i batch, rs !! i = Some batch -> batch_ok home P (n + i) batch) ->
  NoDup (item_id <$> batch_items rs).
Proof.
  revert n. induction rs as [|batch rs IH]; intros n H; [by apply NoDup_nil|].
  destruct (H O batch eq_refl) as [Hnd Hb]. rewrite Nat.add_0_r in Hb.
  assert (Hrest : forall i b, rs !! i = Some b -> batch_ok home P (S n + i) b).
  { intros i b Hi. replace (S n + i)%nat with (n + S i)%nat by lia. by apply (H (S i)). }
  unfold batch_items in *. cbn [concat]. rewrite omap_app, fmap_app. apply NoDup_app. split_and!.
  - apply (sublist_NoDup _ _ Hnd). clear -Hb. induction batch as [|[k [item|]] batch IHb]; [done| |].
    + cbn. destruct (Hb k item ltac:(by left)) as (_ & <- & _). apply sublist_skip, IHb.
      intros. apply Hb. by right.
    + cbn. apply sublist_cons, IHb. intros. apply Hb. by right.
  - intros id (item & -> & ([k p] & Hin & E)%list_elem_of_omap)%list_elem_of_fmap
      (item' & E' & Hin')%list_elem_of_fmap. cbn in E. subst p.
    destruct (batch_items_elem rs item' Hin') as (b & k' & (j & Hj)%list_elem_of_lookup & Hk').
    destruct (Hb k item Hin) as (H1 & H2 & _). destruct (proj2 (Hrest j b Hj) k' item' Hk') as (H3 & H4 & _).
    rewrite <- H2, E', H4 in H1. lia.
  - by apply (IH (S n)).
Qed.

Section Scans.
Variables (std_exp : double -> double) (std_pow : double -> double -> double).
Variables (std_log : double -> double) (llround_unrepresentable : double -> Z).
Context (h0 : Handler) (cap n : Z) (Hcache : sharded_new cap n = Some (cache_ h0)).
#[local] Abbreviation K := (consts h0).
#[local] Abbreviation sys_run := (sys_run std_exp std_pow std_log llround_unrepresentable K).
#[local] Abbreviation sys_inv := (sys_inv std_exp std_pow std_log llround_unrepresentable K h0).

(** The item came with an accepted PutItem. *)
Definition was_put (requests : list Request) (item : Item) : Prop :=
  valid_put item = true /\ exists rid, MkRequest rid (PutItem item) ∈ requests.

Lemma puts_arrived labels id item :
  let s := sys_run labels (sys_start h0) in
  Forall typed (arrivals labels) -> OpPut id item ∈ cache_history (sys_history s) ->
  id = item_id item /\ was_put (arrivals labels) item.
Proof.
  intros s Ht (e & He & Hop)%cache_history_elem. rewrite Forall_forall in Ht.
  pose proof (sys_run_inv std_exp std_pow std_log llround_unrepresentable K h0 labels) as Hinv. fold s in Hinv.
  destruct (sv_owner _ _ _ _ _ _ _ Hinv e He) as (c & Hc & Hec).
  pose proof (call_arrived _ _ _ _ _ _ _ _ Hc) as Ha.
  pose proof (sv_calls _ _ _ _ _ _ _ Hinv) as Hp. rewrite Forall_forall in Hp.
  destruct (call_prefix _ _ _ _ _ c (Hp c Hc)) as (evs & response & Hpath & _).
  destruct (handle_events _ _ _ _ _ _ _ _ (Ht _ Ha) Hpath) as [_ Hev].
  destruct (re_puts _ _ _ _ Hev id item) as (E1 & E2 & E3).
  { rewrite cache_history_app. apply elem_of_app. left. by eapply elem_cache_history. }
  split; [done|]. split; [done|]. exists (req_id (call_request c)). rewrite <- E2. by destruct (call_request c).
Qed.

Lemma cache_after_inv evs : sharded_inv std_hash (cache_after h0 evs).
Proof. by apply (sharded_run_inv std_hash cap n). Qed.

Lemma cache_after_home evs k : shard_index std_hash (cache_after h0 evs) k = shard_index std_hash (cache_ h0) k.
Proof.
  unfold shard_index, cache_after. do 2 f_equal.
  apply (sharded_new_inv std_hash) in Hcache as (Hinv & _).
  destruct (shard_of_key std_hash (cache_ h0) k Hinv) as [s Hs].
  by destruct (run_projects std_hash (cache_history evs) (cache_ h0) _ s Hinv Hs) as (_ & _ & ? & _).
Qed.

Lemma snapshot_batch_ok labels i batch :
  let s := sys_run labels (sys_start h0) in
  Forall typed (arrivals labels) -> Ev (CacheSnapshot i) batch ∈ sys_history s ->
  batch_ok (shard_index std_hash (cache_ h0)) (was_put (arrivals labels)) i batch.
Proof.
  intros s Ht (before & after & E)%list_elem_of_split.
  pose proof (sys_run_inv std_exp std_pow std_log llround_unrepresentable K h0 labels) as Hinv. fold s in Hinv.
  pose proof (sv_seen _ _ _ _ _ _ _ Hinv _ _ _ E) as Hseen. cbn in Hseen. subst batch.
  pose proof (cache_after_inv before) as Hci. split.
  - unfold snapshot_shard. destruct (shards_ (cache_after h0 before) !! i) as [sh|] eqn:Es; [|by apply NoDup_nil].
    apply inv_keys_abs. by destruct (Forall_lookup_1 _ _ _ _ (si_shards _ _ Hci) Es).
  - intros k item Hin. unfold cache_after in Hin.
    destruct (snapshot_written std_hash cap n _ _ i k (Some item) Hcache Hin) as [H1 H2].
    change (snd (sharded_run std_hash (cache_history before) (cache_ h0))) with (cache_after h0 before) in H1.
    rewrite cache_after_home in H1. split; [done|].
    destruct (puts_arrived labels k item Ht) as [-> ?]; [|done]. fold s. rewrite E, cache_history_app.
    apply elem_of_app. left. by apply last_write_elem.
Qed.
End Scans.

(** * Theorems *)

Section Theorems.
Variables (std_exp : double -> double) (std_pow : double -> double -> double).
Variables (std_log : double -> double) (llround_unrepresentable : double -> Z).
Context (device1 device2 cap n : Z) (scoring : ScoringConfig) (policy : PolicyConfig) (privacy : PrivacyConfig).
Context (h0 : Handler) (Hnew : handler_new device1 device2 cap n scoring policy privacy = inr h0).
#[local] Abbreviation K := (consts h0).
#[local] Abbreviation sys_run := (sys_run std_exp std_pow std_log llround_unrepresentable K).

(** Granted shows bound what all answers together show. *)
Lemma answered_granted labels id :
  let s := sys_run labels (sys_start h0) in
  Forall typed (arrivals labels) -> answered_shows id s <= total (event_shows id) (sys_history s).
Proof.
  intros s Ht. rewrite Forall_forall in Ht.
  pose proof (sys_run_inv std_exp std_pow std_log llround_unrepresentable K h0 labels) as Hinv. fold s in Hinv.
  rewrite (sv_totals _ _ _ _ _ _ _ Hinv). apply zsum_le. intros c Hc.
  pose proof (sv_calls _ _ _ _ _ _ _ Hinv) as Hp. rewrite Forall_forall in Hp.
  eapply answer_shows_granted; [by apply Hp|]. by eapply Ht, call_arrived.
Qed.

Lemma answered_windows_granted labels config id k :
  let s := sys_run labels (sys_start h0) in
  Forall typed (arrivals labels) ->
  answered_window_shows config id k s <= total (event_window_shows config id k) (sys_history s).
Proof.
  intros s Ht. rewrite Forall_forall in Ht.
  pose proof (sys_run_inv std_exp std_pow std_log llround_unrepresentable K h0 labels) as Hinv. fold s in Hinv.
  rewrite (sv_totals _ _ _ _ _ _ _ Hinv). apply zsum_le. intros c Hc.
  pose proof (sv_calls _ _ _ _ _ _ _ Hinv) as Hp. rewrite Forall_forall in Hp.
  eapply answer_windows_granted; [by apply Hp|]. by eapply Ht, call_arrived.
Qed.

(** No step of the handler resets counters. *)
Lemma history_no_resets evs id : Forall (fun op => ~ resets id op) (policy_history evs).*1.
Proof.
  unfold policy_history. induction evs as [|[R op r] evs IH]; [by apply Forall_nil|]. cbn [map concat].
  rewrite fmap_app. apply Forall_app. split; [|done]. destruct op; cbn; try by apply Forall_nil.
  all: apply Forall_cons; split; [by intros []|by apply Forall_nil].
Qed.

(** What all answers together show; [concurrent_cap_respected] below. *)
Lemma answered_capped (labels : list Label) (id : ItemId) :
  fail_open_when_full policy = false -> fits 64 (exposure_cap policy) -> 0 < exposure_cap policy ->
  Forall typed (arrivals labels) ->
  answered_shows id (sys_run labels (sys_start h0)) <= exposure_cap policy.
Proof.
  intros Hc Hf Hp Ht. apply handler_new_parts in Hnew as (_ & Hs & _).
  etrans; [by apply answered_granted|]. rewrite total_shows_history.
  pose proof (sv_policy _ _ _ _ _ _ _ (sys_run_inv std_exp std_pow std_log llround_unrepresentable K h0 labels)) as E.
  replace (policy_history _).*2 with
    (fst (policy_run (policy_history (sys_history (sys_run labels (sys_start h0)))).*1 (policy_ h0)))
    by (by rewrite E).
  apply (new_store_shows policy n); try done. apply history_no_resets.
Qed.

(** C7: The exposure cap under concurrency. From a fresh fail-closed handler with a cap,
    whatever requests arrive and however the steps of all calls interleave, the answers
    given so far to live recommendations show an item at most [exposure_cap] times in
    total. *)
Theorem concurrent_cap_respected (labels : list Label) (id : ItemId) :
  fail_open_when_full policy = false -> fits 64 (exposure_cap policy) -> 0 < exposure_cap policy ->
  Forall typed (arrivals labels) ->
  answered_shows id (sys_run labels (sys_start h0)) <= exposure_cap policy.
Proof. apply answered_capped. Qed.


(** C5: What a recommendation returns while other workers put, delete and recommend. A
    call that has answered carries its request's id; a count of zero or above the limit
    was refused; otherwise the slate has at most [count] entries, no id twice, and each
    entry is an item some accepted PutItem brought, eligible for the signal at the
    moment the call read the clock. *)
Theorem concurrent_recommend_sound (labels : list Label) (c : Call) (rid : Z) (r : Recommend)
    (response : Response) :
  c ∈ sys_calls (sys_run labels (sys_start h0)) -> Forall typed (arrivals labels) ->
  call_request c = MkRequest rid (RecommendBody r) -> answer c = Some response ->
  resp_id response = rid /\
  match resp_body response with
  | RecommendResult status items =>
      status = SC_Ok /\ 1 <= rec_count r <= kMaxRecommendCount /\ zlen items <= rec_count r /\
      NoDup (ranked_id <$> items) /\
      Forall (fun x => exists item,
        was_put (arrivals labels) item /\ item_id item = ranked_id x /\
        is_eligible item (rec_signal r) (call_clock c) = true /\
        ranked_category x = item_category item /\ ranked_advertiser x = item_advertiser item) items
  | Failure status _ => status = SC_InvalidRequest /\ (rec_count r = 0 \/ kMaxRecommendCount < rec_count r)
  | _ => False
  end.
Proof.
  intros Hc Ht Hr Ha. apply handler_new_parts in Hnew as (Hcache & _).
  pose proof (sys_run_inv std_exp std_pow std_log llround_unrepresentable K h0 labels) as Hinv.
  pose proof (sv_calls _ _ _ _ _ _ _ Hinv) as Hp. rewrite Forall_forall in Hp.
  pose proof (answered_path _ _ _ _ _ c response (Hp c Hc) Ha) as Hpath. rewrite Hr in Hpath.
  assert (H0 : 0 <= rec_count r).
  { rewrite Forall_forall in Ht. pose proof (Ht _ (call_arrived _ _ _ _ _ _ _ _ Hc)) as Htc.
    rewrite Hr in Htc. apply Htc. }
  unfold handle_prog in Hpath. cbn [path req_body req_id] in Hpath. destruct Hpath as ([] & evs & Eev & Hpath).
  apply path_bind in Hpath as (evs1 & evs2 & body & -> & Hpath & -> & ->). rewrite app_nil_r in Eev. split; [done|].
  cbn [body_prog] in Hpath. apply path_recommend in Hpath
    as [(_ & msg & -> & Hcount)|(now & rs & asked & offered & items & -> & Hcount & Hl & -> & A1 & A2 & A3 & _ & A5 & A6)];
    [done| |done].
  assert (Hbatch : forall i batch, rs !! i = Some batch ->
    batch_ok (shard_index std_hash (cache_ h0)) (was_put (arrivals labels)) (0 + i) batch).
  { intros i batch Hi. eapply (snapshot_batch_ok std_exp std_pow std_log llround_unrepresentable h0 cap n); [done..|].
    eapply (sv_events _ _ _ _ _ _ _ Hinv); [done|]. rewrite Eev. cbn [app]. do 3 right. apply elem_of_app. left.
    apply list_elem_of_lookup. exists i. rewrite lookup_zip_with, Hi.
    rewrite lookup_seq_lt by (apply lookup_lt_Some in Hi; lia). done. }
  destruct (offered_ids _ _ A3 (passing_ids _ _ _ _ _ (batches_nodup _ _ 0 rs Hbatch))) as [Hids Hin].
  cbn [resp_body]. split_and!; try done; try lia.
  - replace (ranked_id <$> items) with (c_id <$> accepted offered); [done|].
    clear -A5. induction A5 as [|x c items cs (E & _) _ IH]; [done|]. cbn. by rewrite E, IH.
  - apply Forall_forall. intros x Hx. destruct (Forall2_elem _ _ _ x A5 Hx) as (cd & Hcd & E1 & E2 & E3).
    destruct (passing_elem _ _ _ _ _ _ (Hin cd Hcd)) as (item & Hitem & Hel & ->). exists item.
    destruct (batch_items_elem rs item Hitem) as (batch & k & (i & Hi)%list_elem_of_lookup & Hk).
    destruct (proj2 (Hbatch i batch Hi) k item Hk) as (_ & _ & Hput). unfold call_clock. by rewrite Eev.
Qed.

(** C6: Lookups are linearizable. A GetItem call that has answered looked the cache up at
    one moment of the history: it answers Ok with the item last put under that id before
    that moment and not deleted since, or NotFound. *)
Theorem concurrent_get_linearizable (labels : list Label) (c : Call) (rid id : Z) (response : Response) :
  let s := sys_run labels (sys_start h0) in
  c ∈ sys_calls s -> call_request c = MkRequest rid (GetItem id) -> answer c = Some response ->
  exists before found after,
    sys_history s = before ++ Ev (CacheGet id) found :: after /\
    Ev (CacheGet id) found ∈ call_events c /\
    match found with
    | Some item => response = MkResponse rid (GetItemResult SC_Ok item) /\
        last_write id (cache_history before) None = Some item
    | None => response = MkResponse rid (GetItemResult SC_NotFound default_item)
    end.
Proof.
  intros s Hc Hr Ha. apply handler_new_parts in Hnew as (Hcache & _).
  pose proof (sys_run_inv std_exp std_pow std_log llround_unrepresentable K h0 labels) as Hinv. fold s in Hinv.
  pose proof (sv_calls _ _ _ _ _ _ _ Hinv) as Hp. rewrite Forall_forall in Hp.
  pose proof (answered_path _ _ _ _ _ c response (Hp c Hc) Ha) as Hpath. rewrite Hr in Hpath.
  unfold handle_prog in Hpath. cbn [path req_body req_id] in Hpath. destruct Hpath as ([] & evs & Eev & Hpath).
  apply path_bind in Hpath as (evs1 & evs2 & body & -> & Hpath & -> & ->).
  destruct Hpath as ([] & evs & -> & found & evs' & -> & Hpath).
  assert (Hev : Ev (CacheGet id) found ∈ call_events c) by (rewrite Eev; cbn; do 2 right; by left).
  pose proof (sv_events _ _ _ _ _ _ _ Hinv c _ Hc Hev) as (before & after & E)%list_elem_of_split.
  pose proof (sv_seen _ _ _ _ _ _ _ Hinv _ _ _ E) as Hseen. cbn in Hseen.
  exists before, found, after. split; [done|]. split; [done|].
  destruct found as [item|]; destruct Hpath as ([] & evs'' & _ & _ & ->); [|done]. split; [done|].
  pose proof (cache_after_inv h0 cap n Hcache before) as Hci.
  rewrite (get_peek std_hash _ id Hci) in Hseen. symmetry in Hseen.
  apply (peek_snapshot _ _ _ _ Hci) in Hseen as [i Hi].
  by apply (snapshot_written std_hash cap n) in Hi as [_ Hw].
Qed.


(** A sum over answered calls is a sum over requests. *)
Lemma answered_sum labels (f : Call -> Z) (g : Request -> Z) :
  let s := sys_run labels (sys_start h0) in
  Forall typed (arrivals labels) -> Forall (fun c => answer c <> None) (sys_calls s) ->
  (forall c response, answer c = Some response ->
     request_events K (call_request c) (call_events c) response -> f c = g (call_request c)) ->
  zsum (map f (sys_calls s)) = zsum (map g (arrivals labels)).
Proof.
  intros s Ht Hd Hfg.
  pose proof (sys_run_requests std_exp std_pow std_log llround_unrepresentable K labels (sys_start h0)) as E.
  cbn in E. rewrite <- E in Ht |- *. rewrite Forall_fmap in Ht. fold s in Ht |- *.
  pose proof (sv_calls _ _ _ _ _ _ _ (sys_run_inv std_exp std_pow std_log llround_unrepresentable K h0 labels)) as Hp.
  fold s in Hp. clear -Ht Hd Hp Hfg.
  induction (sys_calls s) as [|c cs IH]; [done|]. apply Forall_cons_1 in Ht as [Hc Ht], Hd as [Hdc Hd], Hp as [Hpc Hp].
  cbn. rewrite IH by done. destruct (answer c) as [response|] eqn:Ha; [|done]. f_equal. eapply Hfg; [done|].
  by eapply handle_events, answered_path.
Qed.

(** The counters, once every call has answered, account for the requests exactly as
    if they had come one after the other: each request counter is the number of requests
    of its kind, and hits and misses add up to the lookups (all modulo 2^64). *)
Theorem concurrent_counters_account (labels : list Label) :
  let s := sys_run labels (sys_start h0) in
  let h := sys_handler s in
  let count c := zsum (map (tally c) (arrivals labels)) in
  Forall typed (arrivals labels) -> Forall (fun c => answer c <> None) (sys_calls s) ->
  requests_ h = wrap 64 (zlen (arrivals labels)) /\
  gets_ h = wrap 64 (count Gets) /\ puts_ h = wrap 64 (count Puts) /\
  deletes_ h = wrap 64 (count Deletes) /\ recommends_ h = wrap 64 (count Recommends) /\
  wrap 64 (hits_ h + misses_ h) = gets_ h.
Proof.
  intros s h count Ht Hd. apply handler_new_parts in Hnew as (_ & _ & _ & _ & N1 & N2 & N3 & N4 & N5 & N6 & N7).
  pose proof (sys_run_inv std_exp std_pow std_log llround_unrepresentable K h0 labels) as Hinv. fold s in Hinv.
  assert (Hcount : forall c, c <> Hits -> c <> Misses -> counter c h0 = 0 -> counter c h = wrap 64 (count c)).
  { intros c Hh Hm E0. unfold h. rewrite (sv_counters _ _ _ _ _ _ _ Hinv c) by (by rewrite E0).
    rewrite E0, (sv_totals _ _ _ _ _ _ _ Hinv). f_equal. apply answered_sum; [done..|]. intros cl response _ Hev.
    by apply (re_counts _ _ _ _ Hev). }
  split_and!; [|by apply (Hcount Gets)|by apply (Hcount Puts)|by apply (Hcount Deletes)|by apply (Hcount Recommends)|].
  - change (requests_ h) with (counter Requests h). rewrite Hcount by done. f_equal. unfold count. clear. induction (arrivals labels) as [|r l IH]; [done|].
    cbn [map zsum]. rewrite IH. unfold zlen. cbn. lia.
  - change (wrap 64 (counter Hits h + counter Misses h) = counter Gets h). rewrite (Hcount Gets) by done. unfold h.
    rewrite !(sv_counters _ _ _ _ _ _ _ Hinv) by (cbn; by rewrite ?N6, ?N7). cbn [counter]. rewrite N6, N7.
    rewrite wrap_add_l, wrap_add_r, !Z.add_0_l, !(sv_totals _ _ _ _ _ _ _ Hinv). f_equal.
    rewrite <- zsum_add. apply answered_sum; [done..|]. intros cl response _ Hev. apply (re_lookups _ _ _ _ Hev).
Qed.
End Theorems.

(** * Witnesses *)

(** Call [i] takes [n] steps while the clock shows [clock]. *)
Definition go (i n : nat) (clock : Timestamp) : list Label := replicate n (Step i clock).

(** Two items are put, then two live recommendations and a lookup run through each other;
    a third recommendation follows, and one is left half-way. *)
Definition sample_schedule : list Label :=
  [Arrive (MkRequest 1 (PutItem (sample_item 7 d1))); Arrive (MkRequest 2 (PutItem (sample_item 9 d0_5)))] ++
  [Step 1 100; Step 0 100; Step 0 101; Step 1 102; Step 0 103; Step 1 104] ++
  [Arrive (ask 2 false); Arrive (ask 2 false); Arrive (MkRequest 3 (GetItem 7))] ++
  go 2 4 200 ++ go 3 3 201 ++ go 4 2 202 ++ go 2 2 203 ++ go 3 2 204 ++ go 4 2 205 ++ go 3 2 206 ++ go 2 1 207 ++
  [Arrive (ask 1 false)] ++ go 5 9 3000 ++ [Arrive (ask 1 true)] ++ go 6 5 3001.

#[local] Abbreviation sample_sys :=
  (sys_run unit_exp unit_pow (fun x => x) (fun _ => 0) (consts sample_handler) sample_schedule
     (sys_start sample_handler)).

Definition slate (c : Call) : option (list ItemId) :=
  match answer c with
  | Some (MkResponse _ (RecommendResult _ items)) => Some (ranked_id <$> items)
  | _ => None
  end.

Example sample_slates_concurrent :
  slate <$> sys_calls sample_sys = [None; None; Some [7; 9]; Some [7; 9]; None; Some [7]; None].
Proof. vm_compute. reflexivity. Qed.

Lemma sample_schedule_typed : Forall typed (arrivals sample_schedule).
Proof. repeat (apply Forall_cons; split; [done|]). by apply Forall_nil. Qed.

Lemma concurrent_cap_respected_witness : answered_shows 7 sample_sys <= 3.
Proof.
  refine (concurrent_cap_respected unit_exp unit_pow (fun x => x) (fun _ => 0) 1 2 8 2 lone_config
    (sample_config false) sample_handler_privacy sample_handler sample_handler_new sample_schedule 7
    _ _ _ sample_schedule_typed); [reflexivity|vm_compute; split; [discriminate|reflexivity]|reflexivity].
Defined.


(** The call at index 2 of the sample run. *)
Definition sample_call : Call := default (MkCall (ask 0 false) [] (Ret (MkResponse 0 (PutItemResult SC_Ok))))
  (sys_calls sample_sys !! 2%nat).
Definition sample_answer : Response :=
  MkResponse 1 (RecommendResult SC_Ok (match answer sample_call with
    | Some (MkResponse _ (RecommendResult _ items)) => items | _ => [] end)).

Lemma sample_call_in : sample_call ∈ sys_calls sample_sys.
Proof. apply (list_elem_of_lookup_2 _ 2). vm_compute. reflexivity. Qed.

Lemma concurrent_recommend_sound_witness :
  match resp_body sample_answer with RecommendResult _ items => NoDup (ranked_id <$> items) | _ => False end.
Proof.
  pose proof (concurrent_recommend_sound unit_exp unit_pow (fun x => x) (fun _ => 0) 1 2 8 2 lone_config
    (sample_config false) sample_handler_privacy sample_handler sample_handler_new sample_schedule sample_call
    1 (MkRecommend default_signal 2 false) sample_answer sample_call_in sample_schedule_typed
    ltac:(vm_compute; reflexivity) ltac:(vm_compute; reflexivity)) as [_ (_ & _ & _ & H & _)]. exact H.
Defined.

Lemma concurrent_get_linearizable_witness :
  exists before found after,
    sys_history sample_sys = before ++ Ev (CacheGet 7) found :: after.
Proof.
  destruct (concurrent_get_linearizable unit_exp unit_pow (fun x => x) (fun _ => 0) 1 2 8 2 lone_config
    (sample_config false) sample_handler_privacy sample_handler sample_handler_new sample_schedule
    (default sample_call (sys_calls sample_sys !! 4%nat)) 3 7
    (MkResponse 3 (GetItemResult SC_Ok (sample_item 7 d1)))) as (before & found & after & H & _);
    [|vm_compute; reflexivity|vm_compute; reflexivity|by exists before, found, after].
  apply (list_elem_of_lookup_2 _ 4). vm_compute. reflexivity.
Defined.


Lemma concurrent_counters_account_witness :
  requests_ (sys_handler (sys_run unit_exp unit_pow (fun x => x) (fun _ => 0) (consts sample_handler)
    (sample_schedule ++ go 6 10 3002) (sys_start sample_handler))) = 7.
Proof.
  refine (proj1 (concurrent_counters_account unit_exp unit_pow (fun x => x) (fun _ => 0) 1 2 8 2 lone_config
    (sample_config false) sample_handler_privacy sample_handler sample_handler_new
    (sample_schedule ++ go 6 10 3002) _ _)).
  - repeat (apply Forall_cons; split; [done|]). by apply Forall_nil.
  - vm_compute. repeat constructor; discriminate.
Defined.

(** ** Readings that cross a window boundary *)

Definition straddle_policy : PolicyConfig := MkPolicyConfig 0 2 1000 4 false.
Definition straddle_handler : Handler :=
  with_policy sample_handler (MkStore straddle_policy 2 2 [empty_shard; empty_shard] (MkPolicyMetrics 0 0 0 0 0 0)).

(** One worker reads the clock just before a window ends and is delayed; two others
    recommend in the new window; the first goes on; a fourth recommends later. *)
Definition straddle_schedule : list Label :=
  [Arrive (MkRequest 1 (PutItem (sample_item 7 d1)))] ++ go 0 3 900 ++
  [Arrive (ask 1 false)] ++ go 1 3 999 ++
  [Arrive (ask 1 false)] ++ go 2 6 1000 ++ [Arrive (ask 1 false)] ++ go 3 6 1001 ++
  go 1 3 1002 ++ [Arrive (ask 1 false)] ++ go 4 6 1500.

Definition label_clocks (labels : list Label) : list Z :=
  omap (fun l => match l with Step _ clock => Some clock | Arrive _ => None end) labels.

