(* ===== verification/Responses.v ===== *)
(** What the handler promises to the connection loop: fed well-formed requests it stays
    in a good state and answers with well-formed responses that fit a frame.

    The promise needs the whole daemon behind it: only items a decoder accepted are ever
    cached, every score is a product rounded to binary64, every statistic a 64-bit
    word. *)
From Stdlib Require Import SpecFloat.
From stdpp Require Import base option list gmap numbers.
From S2P Require Import Prelude HashMix Binary64 Rounding Item Message Wire Codec BinaryCodec.
From S2P Require Import LruCache ShardedCache ExposureStore Heap Scorer Noise Handler.

(** * Invariant *)

Definition policy_words (m : PolicyMetrics) : list Z :=
  [pm_allowed m; pm_exposure_blocked m; pm_frequency_blocked m; pm_store_full_blocked m].

Definition handler_words (h : Handler) : list Z :=
  [requests_ h; gets_ h; puts_ h; deletes_ h; recommends_ h; hits_ h; misses_ h].

Record handler_ok (h : Handler) : Prop := {
  ho_cache : sharded_inv std_hash (cache_ h);
  ho_capacity : fits 64 (sc_capacity (cache_ h));
  ho_items : forall i k item, (k, Some item) ∈ snapshot_shard (cache_ h) i -> wf_item item;
  ho_policy : store_ok (policy_ h);
  ho_tracked : fits 64 (max_tracked_items (config_ (policy_ h)));
  ho_policy_words : Forall (fits 64) (policy_words (p_metrics (policy_ h)));
  ho_words : Forall (fits 64) (handler_words h)
}.

(** Ranked entries carry fields of cached items. *)
Definition short_response (r : Response) : Prop :=
  match resp_body r with
  | RecommendResult _ items =>
      Forall (fun x => zlen (ranked_category x) <= kMaxCategoryLength /\
                       zlen (ranked_advertiser x) <= kMaxAdvertiserLength) items
  | _ => True
  end.

(** * Products are binary64 numbers *)

Lemma bits_of_sf_fits x : valid x -> fits 64 (bits_of_sf x).
Proof.
  unfold fits, bits_of_sf. destruct x as [s|s| |s m e]; intros Hv; try (destruct s; lia); try lia.
  apply canonical_cases in Hv as [[Hm ->]|[Hm He]].
  - rewrite (proj2 (Z.ltb_lt _ _)) by done. destruct s; lia.
  - rewrite (proj2 (Z.ltb_ge _ _)) by lia. destruct s; lia.
Qed.

Lemma mul_valid x y : valid x -> valid y -> valid (SFmul prec emax x y).
Proof.
  intros Vx Vy. destruct x as [sx|sx| |sx mx ex], y as [sy|sy| |sy my ey]; try done.
  cbn [SFmul]. pose proof (canonical_low _ _ Vx) as [Hmx Hex].
  pose proof (canonical_low _ _ Vy) as [Hmy Hey].
  change (Zpos (mx * my)) with (Zpos mx * Zpos my).
  destruct (round_aux_spec (xorb sx sy) (Zpos mx * Zpos my) (ex + ey) loc_Exact) as (V & _); try lia.
  { pose proof (digits_mul _ _ Hmx Hmy). destruct Vx as (_ & Ex & _), Vy as (_ & Ey & _).
    pose proof (digits_pos _ Hmx). pose proof (digits_pos _ Hmy). unfold fx in *. lia. }
  exact V.
Qed.

Lemma d_mul_wf x y : d_wf (d_mul x y).
Proof. unfold d_wf, d_mul, of_sf. cbn [d_bits]. apply bits_of_sf_fits, mul_valid; apply sf_valid. Qed.

#[local] Opaque d_mul.

Section Scores.
Variables (std_pow : double -> double -> double) (config : ScoringConfig).

Lemma best_candidate_wf cats advs i l taken best :
  (forall j w s, best = Some (j, w, s) -> d_wf s) ->
  forall j w s, best_candidate std_pow config cats advs i l taken best = Some (j, w, s) -> d_wf s.
Proof.
  revert i taken best. induction l as [|c l IH]; intros i [|t taken] best Hb; cbn; try done.
  apply IH. intros j w s. destruct t; [apply Hb|].
  assert (Hnew : Some (i, c, adjusted_score std_pow config cats advs c) = Some (j, w, s) -> d_wf s)
    by (intros [= _ _ <-]; apply d_mul_wf).
  destruct best as [[[j' b] s']|]; [|done]. destruct (_ || _); [done|apply Hb].
Qed.

Lemma select_loop_wf {S} (accept : ItemId -> S -> bool * S) fuel count l taken cats advs chosen st :
  Forall (fun r => d_wf (ranked_score r)) chosen ->
  Forall (fun r => d_wf (ranked_score r))
    (fst (select_loop std_pow config accept fuel count l taken cats advs chosen st)).
Proof.
  revert taken cats advs chosen st. induction fuel as [|fuel IH]; intros taken cats advs chosen st Hc; [done|].
  cbn [select_loop]. destruct (zlen chosen <? count); [|done].
  destruct (best_candidate _ _ _ _ _ _ _ _) as [[[i w] s]|] eqn:E; [|done].
  apply best_candidate_wf in E; [|done]. destruct (accept (c_id w) st) as [[] st1]; cbn [negb]; apply IH; [|done].
  apply Forall_app. split; [done|]. by apply Forall_singleton.
Qed.

Lemma select_wf {S} (accept : ItemId -> S -> bool * S) s st :
  Forall (fun r => d_wf (ranked_score r)) (fst (select std_pow config accept s st)).
Proof. unfold select. destruct (_ || _); [by constructor|]. by apply select_loop_wf. Qed.
End Scores.

(** * The cache holds what was put *)

Section Cached.
Context {K V : Type} `{Countable K}.

Lemma spec_step_values cap (op : LruOp K V) l k v :
  (k, Some v) ∈ snd (spec_step cap op l) -> (k, Some v) ∈ l \/ op = OpPut k v.
Proof.
  assert (Hdel : forall k', (k, Some v) ∈ adelete k' l -> (k, Some v) ∈ l)
    by (intros k' Hin; unfold adelete in Hin; by apply list_elem_of_filter in Hin as [_ Hin]).
  assert (Hlook : forall k' w, alookup k' l = Some w -> (k', w) ∈ l).
  { intros k' w. clear. induction l as [|[a b] l IH]; [done|]. cbn.
    destruct (decide (a = k')) as [->|]; [intros [= ->]; by left|intros; right; auto]. }
  destruct op as [k'|k'|k' v'|k'|]; cbn [spec_step].
  - destruct (alookup k' l) as [w|] eqn:E; cbn [snd]; [|auto].
    rewrite elem_of_cons. intros [[= -> ->]|Hin]; left; eauto.
  - auto.
  - unfold spec_put. destruct (alookup k' l) eqn:E; cbn [snd]; rewrite elem_of_cons; (intros [[= -> ->]|Hin]; [by right|left; eauto]).
    destruct (cap <=? length l)%nat; [|done].
    destruct l as [|p l] using rev_ind; [done|]. rewrite removelast_last in Hin. apply elem_of_app. by left.
  - destruct (alookup k' l); cbn; eauto.
  - cbn. by intros ?%elem_of_nil.
Qed.

Lemma first_shard (hasher : K -> Z) (sc : ShardedCache K V) :
  sharded_inv hasher sc -> exists s, shards_ sc !! 0%nat = Some s.
Proof.
  intros Hinv. apply lookup_lt_is_Some_2. pose proof (si_count _ _ Hinv). pose proof (si_bit _ _ Hinv) as Hb.
  unfold has_single_bit in Hb. bcases. lia.
Qed.

Lemma sharded_step_values (hasher : K -> Z) (op : LruOp K V) sc i k v :
  sharded_inv hasher sc -> (k, Some v) ∈ snapshot_shard (snd (sharded_step hasher op sc)) i ->
  (k, Some v) ∈ snapshot_shard sc i \/ op = OpPut k v.
Proof.
  intros Hinv. unfold snapshot_shard. destruct (shards_ sc !! i) as [s|] eqn:Hs.
  - destruct (sharded_step_shards hasher op sc i s Hinv Hs) as (-> & _).
    destruct (decide _); [|by left].
    assert (Hi : lru_inv s) by (by destruct (Forall_lookup_1 _ _ _ _ (si_shards _ _ Hinv) Hs)).
    destruct (lru_step_refines op s Hi) as (_ & Ha & _).
    change (locked_snapshot ?c) with (abs (entries_ c)). rewrite Ha. apply spec_step_values.
  - pose proof (sharded_step_inv hasher op sc Hinv) as Hinv'.
    destruct (shards_ (snd (sharded_step hasher op sc)) !! i) as [s'|] eqn:Hs'; [|by intros ?%elem_of_nil].
    exfalso. apply lookup_ge_None in Hs. apply lookup_lt_Some in Hs'.
    destruct (first_shard hasher sc Hinv) as [s0 H0].
    destruct (sharded_step_shards hasher op sc 0 s0 Hinv H0) as (_ & _ & E1 & _).
    pose proof (si_count _ _ Hinv). pose proof (si_count _ _ Hinv'). lia.
Qed.

Lemma sharded_run_values (hasher : K -> Z) (ops : list (LruOp K V)) sc (P : V -> Prop) :
  sharded_inv hasher sc ->
  (forall i k v, (k, Some v) ∈ snapshot_shard sc i -> P v) ->
  Forall (fun op => match op with OpPut _ v => P v | _ => True end) ops ->
  sharded_inv hasher (snd (sharded_run hasher ops sc)) /\
  sc_capacity (snd (sharded_run hasher ops sc)) = sc_capacity sc /\
  (forall i k v, (k, Some v) ∈ snapshot_shard (snd (sharded_run hasher ops sc)) i -> P v).
Proof.
  intros Hinv HP Hops. revert sc Hinv HP. induction Hops as [|op ops Hop _ IH]; intros sc Hinv HP; [done|].
  pose proof (sharded_step_inv hasher op sc Hinv) as Hinv1.
  destruct (IH (snd (sharded_step hasher op sc)) Hinv1) as (I1 & I2 & I3).
  { intros i k v [Hin| ->]%sharded_step_values; [eauto|done|done]. }
  destruct (first_shard hasher sc Hinv) as [s0 H0].
  destruct (sharded_step_shards hasher op sc 0 s0 Hinv H0) as (_ & _ & _ & E2 & _).
  cbn [sharded_run]. destruct (sharded_step hasher op sc) as [r sc1]. cbn [snd] in *.
  destruct (sharded_run hasher ops sc1). cbn [snd] in *. rewrite I2. by split_and!.
Qed.
End Cached.

(** * Policy statistics *)

Lemma policy_step_words op st :
  Forall (fits 64) (policy_words (p_metrics st)) ->
  Forall (fits 64) (policy_words (p_metrics (snd (policy_step op st)))).
Proof.
  intros Hw. destruct op as [id now|id now|id|]; cbn [policy_step].
  - unfold reserve. destruct (p_shards st !! _) as [sh|]; [|done].
    destruct (reserve_shard _ _ _ _ _) as [[d sh'] ev]. cbn [snd with_shard p_metrics].
    unfold policy_words in *. repeat (apply Forall_cons_1 in Hw as [? Hw]).
    assert (Hadd : forall (b : bool) x, fits 64 x -> fits 64 (if b then wrap 64 (x + 1) else x))
      by (intros [] x Hx; [by apply wrap_fits|done]).
    unfold count_decision. cbn. repeat (apply Forall_cons_2; [by apply Hadd|]). by apply Forall_nil_2.
  - done.
  - unfold forget. by destruct (p_shards st !! _).
  - done.
Qed.

Lemma policy_run_words ops st :
  Forall (fits 64) (policy_words (p_metrics st)) ->
  Forall (fits 64) (policy_words (p_metrics (snd (policy_run ops st)))).
Proof.
  revert st. induction ops as [|op ops IH]; intros st Hw; [done|].
  pose proof (policy_step_words op st Hw) as Hw1. cbn [policy_run].
  destruct (policy_step op st) as [r st1]. cbn [snd] in *. specialize (IH st1 Hw1).
  by destruct (policy_run ops st1).
Qed.

(** * Statistics are words *)

Lemma sharded_size_bound (sc : ShardedCache Z Item) :
  sharded_inv std_hash sc -> Z.of_nat (sharded_size sc) <= sc_capacity sc.
Proof.
  intros [Hb Hr Hc Hs _]. unfold sharded_size, has_single_bit in *. bcases.
  pose proof (fold_add_bound lru_size (shards_ sc) (Z.to_nat (sc_capacity sc / sc_shard_count sc)) 0) as Hf.
  assert (Hq : 0 <= sc_capacity sc / sc_shard_count sc) by (apply Z.div_pos; lia).
  assert (Hm : sc_shard_count sc * (sc_capacity sc / sc_shard_count sc) <= sc_capacity sc)
    by (apply Z.mul_div_le; lia).
  rewrite Nat.add_0_l in Hf.
  assert (Z.of_nat (fold_left (fun total s => (total + lru_size s)%nat) (shards_ sc) 0%nat)
    <= Z.of_nat (length (shards_ sc) * Z.to_nat (sc_capacity sc / sc_shard_count sc))); [|lia].
  apply inj_le, Hf, list.Forall_forall. intros s Hin. rewrite list.Forall_forall in Hs.
  destruct (Hs s Hin) as [Hi Hcap].
  unfold lru_size. rewrite index_size by done. pose proof (inv_size s Hi). lia.
Qed.

Lemma sharded_evictions_fit (sc : ShardedCache Z Item) : fits 64 (m_evictions (sharded_metrics sc)).
Proof.
  unfold sharded_metrics. assert (H0 : fits 64 (m_evictions zero_metrics)) by done. revert H0.
  generalize zero_metrics. induction (shards_ sc) as [|s l IH]; intros m Hm; [done|]. cbn [fold_left].
  apply IH. by apply wrap_fits.
Qed.

Lemma tracked_nonneg st : 0 <= tracked st.
Proof.
  unfold tracked. assert (Hg : forall l acc, 0 <= acc ->
    0 <= fold_left (fun total s => total + Z.of_nat (size (s_entries s))) l acc).
  { induction l as [|s l IH]; intros acc Ha; cbn; [done|]. apply IH. lia. }
  by apply Hg.
Qed.

Lemma publish_fits std_log unrep config metric exact now :
  fits 64 exact -> fits 64 (publish std_log unrep config metric exact now).
Proof.
  intros He. unfold publish. destruct (negb (enabled config)); [done|].
  destruct (_ <=? _); [done|]. apply round_to_fits, to_u64_fits.
Qed.

(** * One request *)

Section Handle.
Variables (std_exp : double -> double) (std_pow : double -> double -> double).
Variables (std_log : double -> double) (llround_unrepresentable : double -> Z).
#[local] Abbreviation handle := (handle std_exp std_pow std_log llround_unrepresentable).

Lemma wf_request_typed request : wf_request request -> typed request.
Proof.
  intros [_ Hb]. unfold typed. destruct (req_body request); try done. destruct Hb as [_ Hc].
  unfold fits, kMaxRecommendCount in *. lia.
Qed.

Lemma cache_ops_wf request :
  wf_request request ->
  Forall (fun op => match op with OpPut _ v => wf_item v | _ => True end) (cache_ops request).
Proof.
  intros [_ Hb]. unfold cache_ops. destruct (req_body request) as [id|item|id| |r];
    try (by repeat constructor).
  destruct (valid_put item); [by apply Forall_singleton|by apply Forall_nil_2].
Qed.

Lemma fetch_add_words c h :
  Forall (fits 64) (handler_words h) -> Forall (fits 64) (handler_words (fetch_add c h)).
Proof.
  intros Hw. unfold handler_words in *. repeat (apply Forall_cons_1 in Hw as [? Hw]).
  destruct c; cbn; repeat (apply Forall_cons_2; [done || by apply wrap_fits|]); by apply Forall_nil_2.
Qed.

Lemma handle_words now request h :
  Forall (fits 64) (handler_words h) -> Forall (fits 64) (handler_words (snd (handle now request h))).
Proof.
  intros Hw. pose proof (fetch_add_words Requests h Hw) as H1. unfold handle.
  set (h1 := fetch_add Requests h) in *. clearbody h1.
  destruct (req_body request) as [id|item|id| |r].
  - unfold on_get. pose proof (fetch_add_words Gets h1 H1) as H2. set (h2 := fetch_add Gets h1) in *.
    destruct (sharded_get _ _ _) as [[p|] sc]; apply fetch_add_words, H2.
  - unfold on_put. pose proof (fetch_add_words Puts h1 H1) as H2.
    destruct (item_id item =? 0), (zlen (item_category item) =? 0); exact H2.
  - unfold on_delete. pose proof (fetch_add_words Deletes h1 H1) as H2.
    destruct (sharded_erase _ _ _). exact H2.
  - exact H1.
  - unfold on_recommend. pose proof (fetch_add_words Recommends h1 H1) as H2.
    destruct (rec_count r =? 0); [exact H2|]. destruct (_ <? rec_count r); [exact H2|].
    destruct (select _ _ _ _ _). exact H2.
Qed.

Lemma handle_preserves now request h :
  wf_request request -> handler_ok h -> handler_ok (snd (handle now request h)).
Proof.
  intros Hr [A B C D T E F].
  destruct (sharded_run_values std_hash (cache_ops request) (cache_ h) wf_item A C (cache_ops_wf request Hr))
    as (A' & B' & C').
  destruct (handle_policy std_exp std_pow std_log llround_unrepresentable now request h
    (wf_request_typed request Hr)) as (ids & dry & rs & Hp & _).
  assert (Hpol : policy_ (snd (handle now request h)) =
    snd (policy_run (map (policy_op now dry) ids) (policy_ h))) by (by rewrite Hp).
  split; rewrite ?handle_cache, ?Hpol.
  - exact A'.
  - by rewrite B'.
  - exact C'.
  - by apply policy_run_ok.
  - by rewrite (proj2 (policy_run_ok _ _ D)).
  - by apply policy_run_words.
  - by apply handle_words.
Qed.

Lemma published_wf now h : handler_ok h -> wf_stats (published_stats std_log llround_unrepresentable now h).
Proof.
  intros [A B C D T E F]. unfold wf_stats, handler_words, policy_words in *.
  repeat (apply Forall_cons_1 in E as [? E]). repeat (apply Forall_cons_1 in F as [? F]).
  pose proof (sharded_size_bound _ A). pose proof (sharded_evictions_fit (cache_ h)).
  pose proof (tracked_bound _ D). pose proof (tracked_nonneg (policy_ h)).
  pose proof (st_share _ D).
  assert (Ht : fits 64 (tracked (policy_ h))) by (unfold fits in *; lia).
  assert (Hn : fits 64 (Z.of_nat (sharded_size (cache_ h)))) by (unfold fits in *; lia).
  unfold published_stats, stats, stats_fields. cbn -[publish].
  repeat (apply Forall_cons_2; [first [by apply publish_fits|done]|]). by apply Forall_nil_2.
Qed.

Lemma scan_wf h item : handler_ok h -> item ∈ scan_items (cache_ h) -> wf_item item.
Proof. intros Hok (k & i & Hin)%scan_elem. by apply (ho_items h Hok i k). Qed.

Lemma recommend_wf now r h :
  handler_ok h -> 0 <= rec_count r <= kMaxRecommendCount ->
  let body := fst (on_recommend std_exp std_pow now r h) in
  wf_response_body body /\ short_response (MkResponse 0 body).
Proof.
  intros Hok Hc. pose proof (recommend_spec std_exp std_pow now r h (proj1 Hc)) as Hr.
  assert (Hsc : forall st items, fst (on_recommend std_exp std_pow now r h) = RecommendResult st items ->
    Forall (fun x => d_wf (ranked_score x)) items).
  { intros st items. unfold on_recommend. destruct (rec_count r =? 0); [done|].
    destruct (_ <? rec_count r); [done|].
    match goal with |- context [select ?p ?c ?a ?s ?t] =>
      pose proof (select_wf p c a s t) as Hs; destruct (select p c a s t) as [its pol] end.
    by intros [= _ <-]. }
  destruct (on_recommend std_exp std_pow now r h) as [body h']. cbn [fst] in *.
  destruct Hr as (_ & [(-> & _)|[(-> & Hbad & _)|(items & offered & -> & _ & Hlen & Hsub & Hf & _)]]).
  - done.
  - lia.
  - specialize (Hsc _ _ eq_refl). unfold wf_response_body, short_response. cbn [resp_body status_of].
    assert (Hall : Forall (fun x => wf_ranked x /\ zlen (ranked_category x) <= kMaxCategoryLength /\
                       zlen (ranked_advertiser x) <= kMaxAdvertiserLength) items).
    { apply list.Forall_forall. intros x Hx. rewrite list.Forall_forall in Hsc. specialize (Hsc x Hx).
      destruct (Forall2_elem _ _ _ _ Hf Hx) as (c & Hcin & Hid & Hcat & Hadv).
      pose proof (accepted_sublist offered) as Hs.
      assert (Hcp : c ∈ passing std_exp (scoring_ h) (rec_signal r) now (scan_items (cache_ h))).
      { eapply elem_of_submseteq; [|exact Hsub]. eapply elem_of_submseteq; [exact Hcin|].
        by apply sublist_submseteq. }
      apply passing_elem in Hcp as (item & Hitem & _ & ->). apply (scan_wf h item Hok) in Hitem.
      destruct Hitem as (W1 & W2 & W3 & _). unfold wf_ranked. rewrite Hid, Hcat, Hadv. cbn [candidate_of c_id c_category c_advertiser].
      unfold kMaxCategoryLength, kMaxAdvertiserLength in *. split_and!; try done; lia. }
    apply Forall_and_inv in Hall as [H1 H2]. split; [|done]. split; [done|]. split; [lia|done].
Qed.

Lemma handle_response_wf now request h :
  wf_request request -> handler_ok h ->
  wf_response (fst (handle now request h)) /\ short_response (fst (handle now request h)).
Proof.
  intros Hr Hok.
  assert (Hok1 : handler_ok (fetch_add Requests h)).
  { destruct Hok as [A B C D T E F]. split; try done. by apply fetch_add_words. }
  destruct Hr as [Hid Hb]. unfold handle. set (h1 := fetch_add Requests h) in *. clearbody h1.
  unfold wf_response. destruct (req_body request) as [id|item|id| |r].
  - unfold on_get. pose proof (get_peek std_hash (cache_ h1) id (ho_cache _ Hok1)) as Hg.
    cbn [cache_ fetch_add] in *. destruct (sharded_get std_hash id (cache_ h1)) as [[p|] sc]; [|done].
    cbn [fst] in Hg. symmetry in Hg. apply (peek_snapshot std_hash) in Hg as [i Hin]; [|apply Hok1].
    apply Hok1 in Hin. done.
  - unfold on_put. destruct (item_id item =? 0), (zlen (item_category item) =? 0); done.
  - unfold on_delete. destruct (sharded_erase _ _ _) as [[] sc]; done.
  - cbn [fst resp_id resp_body]. split; [|done]. split; [done|]. split; [done|]. by apply published_wf.
  - destruct Hb as [_ Hc]. destruct (recommend_wf now r h1 Hok1 Hc) as [H1 H2].
    destruct (on_recommend std_exp std_pow now r h1) as [body h2]. done.
Qed.

Lemma handle_known_status now request h : known_status (fst (handle now request h)).
Proof.
  unfold handle, known_status. destruct (req_body request) as [id|item|id| |r].
  - unfold on_get. destruct (sharded_get _ _ _) as [[] ?]; done.
  - unfold on_put. by destruct (item_id item =? 0), (zlen (item_category item) =? 0).
  - unfold on_delete. destruct (sharded_erase _ _ _) as [[] ?]; done.
  - done.
  - unfold on_recommend. destruct (rec_count r =? 0), (kMaxRecommendCount <? rec_count r); try done.
    by destruct (select _ _ _ _ _).
Qed.
End Handle.

(** * A fresh handler *)

Lemma handler_new_ok device1 device2 cap n scoring policy privacy h :
  handler_new device1 device2 cap n scoring policy privacy = inr h ->
  fits 64 cap -> config_ok policy -> fits 64 (max_tracked_items policy) -> handler_ok h.
Proof.
  intros Hnew Hcap Hcfg Hmax.
  apply handler_new_parts in Hnew as (Hsc & Hst & _ & _ & E1 & E2 & E3 & E4 & E5 & E6 & E7).
  pose proof Hst as Hst'. apply exposure_new_wf in Hst' as (_ & Hc & _).
  pose proof (exposure_new_ok _ _ _ Hcfg Hst) as Hok.
  assert (Hm : p_metrics (policy_ h) = MkPolicyMetrics 0 0 0 0 0 0).
  { unfold exposure_new in Hst. repeat (destruct (_ : bool) in Hst; [done|]); by injection Hst as <-. }
  pose proof Hsc as Hsc'. apply (sharded_new_inv std_hash) in Hsc as (Hinv & Ec & _ & Hf). split.
  - done.
  - by rewrite Ec.
  - intros i k item Hin.
    destruct (snapshot_written std_hash cap n (cache_ h) [] i k (Some item) Hsc' Hin) as [_ Hw]. done.
  - done.
  - by rewrite Hc.
  - rewrite Hm. by repeat constructor.
  - unfold handler_words. rewrite E1, E2, E3, E4, E5, E6, E7. by repeat constructor.
Qed.

(** * Sizes *)

Lemma zlen_stats st : zlen (stats_bytes st) = 120.
Proof. unfold stats_bytes, stats_fields, zlen. cbn [map concat]. by rewrite !length_app, !length_be_bytes. Qed.

Lemma zlen_response r :
  wf_response r -> short_response r -> zlen (encode_resp r []) <= 15221.
Proof.
  intros [_ [_ Hb]] Hs. rewrite encode_resp_app, app_nil_l, zlen_app. unfold zlen at 1.
  rewrite length_header. unfold response_body_bytes, short_response in *.
  assert (H1 : forall (b : Byte.byte) l, zlen (b :: l) = 1 + zlen l) by (intros; unfold zlen; cbn [length]; lia).
  rewrite H1. destruct (resp_body r) as [s i|s|s|s st|s items|s m]; cbn [Nat.add].
  - destruct (s =? SC_Ok); [pose proof (zlen_item i Hb); lia|unfold zlen; cbn; lia].
  - unfold zlen; cbn; lia.
  - unfold zlen; cbn; lia.
  - rewrite zlen_stats. lia.
  - destruct Hb as [Hn _]. rewrite zlen_app, zlen_be_bytes.
    assert (Hc : zlen (concat (map ranked_bytes items)) <= 152 * zlen items).
    { apply zlen_concat_le. apply list.Forall_forall. intros x Hx. rewrite list.Forall_forall in Hs.
      destruct (Hs x Hx) as [Hcat Hadv]. unfold ranked_bytes, kMaxCategoryLength, kMaxAdvertiserLength in *.
      rewrite !zlen_app, !zlen_string_bytes, !zlen_be_bytes. lia. }
    unfold kMaxRecommendCount in Hn. lia.
  - rewrite zlen_string_bytes. unfold kMaxMessageLength in Hb. lia.
Qed.

Lemma response_in_range r :
  wf_response r -> short_response r -> kMinFrameSize <= zlen (encode_resp r []) <= kMaxFrameSize.
Proof.
  intros Hw Hs. pose proof (zlen_response r Hw Hs).
  pose proof (encode_response_nonempty (C := BinaryCodec) r) as Hn.
  cbn [encode_response BinaryCodec] in Hn. rewrite <- zlen_nil_iff in Hn.
  pose proof (zlen_nonneg (encode_resp r [])). unfold kMinFrameSize, kMaxFrameSize. lia.
Qed.

(** * Claim *)

Section Claims.
Variables (std_exp : double -> double) (std_pow : double -> double -> double).
Variables (std_log : double -> double) (llround_unrepresentable : double -> Z).
#[local] Abbreviation handle_all := (handle_all std_exp std_pow std_log llround_unrepresentable).

Lemma handle_all_wf reqs h :
  handler_ok h -> Forall (fun r => wf_request (snd r)) reqs ->
  Forall (fun r => wf_response r /\ short_response r) (fst (handle_all reqs h)) /\
  handler_ok (snd (handle_all reqs h)).
Proof.
  revert h. induction reqs as [|[now request] reqs IH]; intros h Hok Hr; [done|].
  apply Forall_cons_1 in Hr as [Hr Hrs]. cbn [snd] in Hr.
  destruct (handle_all_cons std_exp std_pow std_log llround_unrepresentable now request reqs h) as [-> ->].
  pose proof (handle_preserves std_exp std_pow std_log llround_unrepresentable now request h Hr Hok) as Hok1.
  destruct (IH _ Hok1 Hrs) as [H1 H2]. split; [|done]. apply Forall_cons_2; [|done].
  by apply handle_response_wf.
Qed.

(** Whatever well-formed requests a fresh daemon is given, every response is
    well-formed (each string, count, score and statistic within the protocol's
    limits) and its encoding fits a frame; so whatever the decoder let in can always be
    answered, and the client's decoder accepts the answer. The daemon's own state stays
    well-formed with it. *)
Theorem responses_wellformed device1 device2 cap n scoring policy privacy h0 reqs :
  handler_new device1 device2 cap n scoring policy privacy = inr h0 ->
  fits 64 cap -> config_ok policy -> fits 64 (max_tracked_items policy) ->
  Forall (fun r => wf_request (snd r)) reqs ->
  Forall (fun r => wf_response r /\ kMinFrameSize <= zlen (encode_resp r []) <= kMaxFrameSize)
    (fst (handle_all reqs h0)) /\
  handler_ok (snd (handle_all reqs h0)).
Proof.
  intros Hnew Hcap Hcfg Hmax Hr. pose proof (handler_new_ok _ _ _ _ _ _ _ _ Hnew Hcap Hcfg Hmax) as Hok.
  destruct (handle_all_wf reqs h0 Hok Hr) as [Hall Hend]. split; [|done]. apply list.Forall_forall. intros r Hin.
  rewrite list.Forall_forall in Hall. destruct (Hall r Hin) as [Hw Hs]. split; [done|].
  by apply response_in_range.
Qed.
End Claims.

Lemma sample_run_wf : Forall (fun r => wf_request (snd r)) sample_run.
Proof. apply (bool_decide_unpack _). vm_compute. exact I. Qed.

Lemma responses_wellformed_witness :
  Forall (fun r => wf_response r /\ kMinFrameSize <= zlen (encode_resp r []) <= kMaxFrameSize)
    (fst (handle_all unit_exp unit_pow (fun x => x) (fun _ => 0) sample_run sample_handler)).
Proof.
  refine (proj1 (responses_wellformed unit_exp unit_pow (fun x => x) (fun _ => 0) 1 2 8 2 lone_config
    (sample_config false) sample_handler_privacy _ sample_run sample_handler_new _ _ _ _)).
  - by vm_compute.
  - apply sample_config_ok.
  - by vm_compute.
  - exact sample_run_wf.
Defined.
