(* ===== verification/ConcurrentResponses.v ===== *)
(** What Responses.v promises of one request at a time, for requests that interleave
    (src/daemon/handler.cpp run by the workers): however the atomic steps of any number of
    well-formed requests fall, the shared handler stays in a good state and every answer is
    well-formed and fits a frame.

    A call sees the shared state only through the results of its steps, so the promise is
    carried by them: in a good state every step leaves a good state behind and returns a
    good result ([result_ok]), and along a path of good results the handler's program
    builds a well-formed response. *)
From Stdlib Require Import Sorted.
From stdpp Require Import base option list gmap.
From S2P Require Import Prelude HashMix Binary64 Item Message Wire Codec BinaryCodec.
From S2P Require Import StdList LruCache ShardedCache ExposureStore Heap Scorer Noise Handler Responses.
From S2P Require Import Concurrent Interleaving.

(** * Steps in a good state *)

(** A good state with the constants [K], the configuration fixed. *)
Definition state_ok (K : Consts) (config : PolicyConfig) (share : Z) (h : Handler) : Prop :=
  handler_ok h /\ consts h = K /\ config_ (policy_ h) = config /\ per_shard_capacity_ (policy_ h) = share.

(** The entries of one shard of the cache, at most. *)
Definition cache_share (K : Consts) : Z := k_capacity K / k_shard_count K.

(** What a step may return. *)
Definition result_ok (K : Consts) (share : Z) (e : Event) : Prop :=
  match e with
  | Ev op r =>
      match op in HOp R return R -> Prop with
      | CounterLoad _ => fun v => fits 64 v
      | CacheGet _ => fun found => forall item, found = Some item -> wf_item item
      | CacheSnapshot _ => fun batch => forall k item, (k, Some item) ∈ batch -> wf_item item
      | CacheSizeOf _ => fun n => Z.of_nat n <= cache_share K
      | PolicyLoad CEvicted => fun _ => True
      | PolicyLoad _ => fun v => fits 64 v
      | PolicyTrackedOf _ => fun v => 0 <= v <= share
      | _ => fun _ => True
      end r
  end.

Lemma counter_fits h c : handler_ok h -> fits 64 (counter c h).
Proof.
  intros Hok. pose proof (ho_words h Hok) as Hw. unfold handler_words in Hw.
  repeat (apply Forall_cons_1 in Hw as [? Hw]). by destruct c.
Qed.

(** ** Results *)

Lemma exec_op_result K config share clock {R} (op : HOp R) h :
  state_ok K config share h -> result_ok K share (Ev op (fst (exec_op clock op h))).
Proof.
  intros (Hok & <- & _ & <-). pose proof (ho_cache h Hok) as Hc. pose proof (ho_policy h Hok) as Hp.
  destruct op as [c|c| |id|id item|id|i|i|i|id now|id now|c|i]; cbn; try done.
  - by apply counter_fits.
  - intros item. pose proof (get_peek std_hash (cache_ h) id Hc) as Hg.
    destruct (sharded_get std_hash id (cache_ h)) as [found cache]. cbn [fst] in *. intros ->. symmetry in Hg.
    apply (peek_snapshot std_hash _ _ _ Hc) in Hg as [i Hin]. by apply (ho_items h Hok i id).
  - intros k item. apply (ho_items h Hok).
  - unfold cache_share. cbn. destruct (shards_ (cache_ h) !! i) as [s|] eqn:Hs.
    + destruct (Forall_lookup_1 _ _ _ _ (si_shards _ _ Hc) Hs) as [Hi Hcap]. unfold lru_size.
      rewrite index_size by done. pose proof (inv_size s Hi). lia.
    + pose proof (si_bit _ _ Hc) as Hb. unfold has_single_bit in Hb. bcases. pose proof (si_room _ _ Hc).
      apply Z.div_pos; lia.
  - pose proof (ho_policy_words h Hok) as Hw. unfold policy_words in Hw.
    repeat (apply Forall_cons_1 in Hw as [? Hw]). by destruct c.
  - destruct (p_shards (policy_ h) !! i) as [s|] eqn:Hs.
    + pose proof (Forall_lookup_1 _ _ _ _ (st_shards _ Hp) Hs) as [Hsz _ _ _]. lia.
    + pose proof (st_capacity _ Hp). lia.
Qed.

(** ** States *)

Lemma cache_op_consts (op : LruOp Z Item) sc : sharded_inv std_hash sc ->
  sc_shard_count (snd (sharded_step std_hash op sc)) = sc_shard_count sc /\
  sc_capacity (snd (sharded_step std_hash op sc)) = sc_capacity sc /\
  length (shards_ (snd (sharded_step std_hash op sc))) = length (shards_ sc).
Proof.
  intros Hinv. destruct (first_shard std_hash sc Hinv) as [s0 H0].
  by destruct (sharded_step_shards std_hash op sc 0 s0 Hinv H0) as (_ & _ & ? & ? & ?).
Qed.

(** A step of the cache with what it stores. *)
Lemma with_cache_ok K config share (op : LruOp Z Item) h :
  state_ok K config share h -> match op with OpPut _ item => wf_item item | _ => True end ->
  state_ok K config share (with_cache h (snd (sharded_step std_hash op (cache_ h)))).
Proof.
  intros (Hok & <- & <- & <-) Hop. destruct (cache_op_consts op (cache_ h) (ho_cache h Hok)) as (E1 & E2 & E3).
  destruct (sharded_run_values std_hash [op] (cache_ h) wf_item (ho_cache h Hok) (ho_items h Hok)) as (V1 & V2 & V3).
  { by apply Forall_singleton. }
  cbn [sharded_run] in V1, V2, V3. destruct (sharded_step std_hash op (cache_ h)) as [r sc]. cbn [snd fst] in *.
  destruct Hok as [A B C D T E F]. split; [|unfold consts; cbn; by rewrite E1, E2, E3].
  split; cbn [with_cache cache_ policy_]; [exact V1|by rewrite E2|exact V3|exact D|exact T|exact E|exact F].
Qed.

Lemma with_policy_ok K config share (op : PolicyOp) h :
  state_ok K config share h -> state_ok K config share (with_policy h (snd (policy_step op (policy_ h)))).
Proof.
  intros (Hok & <- & <- & <-). destruct (step_frame op (policy_ h)) as (F1 & F2 & F3 & F4).
  pose proof (policy_step_ok op _ (ho_policy h Hok)) as Hst. pose proof (policy_step_words op _ (ho_policy_words h Hok)) as Hw.
  destruct Hok as [A B C D T E F]. split.
  - split; cbn [with_policy cache_ policy_]; try done. by rewrite F1.
  - unfold consts. cbn. rewrite F1. by split_and!; [f_equal|..].
Qed.

Lemma exec_op_state K config share clock {R} (op : HOp R) h :
  state_ok K config share h -> (forall id item, OpPut id item ∈ event_cache (Ev op (some_result op)) -> wf_item item) ->
  state_ok K config share (snd (exec_op clock op h)).
Proof.
  intros Hs Hput. destruct op as [c|c| |id|id item|id|i|i|i|id now|id now|c|i]; cbn; try done.
  - destruct Hs as (Hok & <- & <- & <-). split; [|by destruct c]. destruct Hok as [A B C D T E F].
    split; try (by destruct c). by apply fetch_add_words.
  - pose proof (with_cache_ok _ _ _ (OpGet id) h Hs I) as H. cbn [sharded_step] in H.
    destruct (sharded_get std_hash id (cache_ h)) as [found sc]. exact H.
  - apply (with_cache_ok _ _ _ (OpPut id item) h Hs). apply (Hput id). by left.
  - pose proof (with_cache_ok _ _ _ (OpErase id) h Hs I) as H. cbn [sharded_step] in H.
    destruct (sharded_erase std_hash id (cache_ h)) as [b sc]. exact H.
  - pose proof (with_policy_ok _ _ _ (PReserve id now) h Hs) as H. cbn [policy_step] in H.
    destruct (reserve id now (policy_ h)) as [d st]. exact H.
Qed.

(** * Answers from good results *)

(** The sizes the constants describe add up to words. *)
Record consts_ok (K : Consts) (share : Z) : Prop := {
  ko_capacity : fits 64 (k_capacity K);
  ko_entries : Z.of_nat (k_cache_shards K) * cache_share K <= k_capacity K;
  ko_tracked : fits 64 (Z.of_nat (k_policy_shards K) * share)
}.

Lemma state_consts_ok K config share h : state_ok K config share h -> consts_ok K share.
Proof.
  intros (Hok & <- & _ & <-). pose proof (ho_cache h Hok) as Hc. pose proof (ho_policy h Hok) as Hp.
  pose proof (si_bit _ _ Hc) as Hb. unfold has_single_bit in Hb. bcases. pose proof (si_room _ _ Hc). split.
  - apply Hok.
  - unfold cache_share. cbn. rewrite (si_count _ _ Hc). apply Z.mul_div_le. lia.
  - cbn. rewrite (wf_count _ (st_wf _ Hp)). pose proof (st_share _ Hp). pose proof (st_capacity _ Hp).
    pose proof (ho_tracked h Hok). pose proof (wf_bit _ (st_wf _ Hp)) as Hb. unfold has_single_bit in Hb. bcases.
    assert (0 <= shard_count_ (policy_ h) * per_shard_capacity_ (policy_ h)) by (apply Z.mul_nonneg_nonneg; lia).
    unfold fits in *. lia.
Qed.

(** A program's step, with its result in hand. *)
#[local] Ltac take_step Hp Hev := destruct Hp as (? & ? & -> & Hp); apply Forall_cons_1 in Hev as [? Hev].

Section Answers.
Variables (std_exp : double -> double) (std_pow : double -> double -> double).
Variables (std_log : double -> double) (llround_unrepresentable : double -> Z).
Variables (K : Consts) (share : Z).
Hypothesis HK : consts_ok K share.
#[local] Abbreviation handle_prog := (handle_prog std_exp std_pow std_log llround_unrepresentable).
#[local] Abbreviation good := (Forall (result_ok K share)).

(** What a loop over the shards read. *)
Lemma good_results {A} (step : nat -> HOp A) (P : A -> Prop) shards rs :
  (forall i a, result_ok K share (Ev (step i) a) -> P a) -> length rs = length shards ->
  good (zip_with (fun i a => Ev (step i) a) shards rs) -> Forall P rs.
Proof.
  intros HP. revert rs. induction shards as [|i shards IH]; intros [|a rs] Hl Hg; try done.
  cbn in Hg. apply Forall_cons_1 in Hg as [Ha Hg]. constructor; [by eapply HP|]. apply IH; [by injection Hl|done].
Qed.

Lemma sum_sizes (rs : list nat) : Forall (fun n => Z.of_nat n <= cache_share K) rs -> forall acc,
  Z.of_nat (foldl Nat.add acc rs) <= Z.of_nat acc + Z.of_nat (length rs) * cache_share K.
Proof. induction 1 as [|n rs Hn _ IH]; intros acc; cbn [foldl length]; [lia|]. specialize (IH (acc + n)%nat). lia. Qed.

Lemma sum_tracked rs : Forall (fun v => 0 <= v <= share) rs -> forall acc,
  0 <= acc -> 0 <= foldl Z.add acc rs <= acc + Z.of_nat (length rs) * share.
Proof. induction 1 as [|v rs Hv _ IH]; intros acc Ha; cbn [foldl length]; [lia|]. specialize (IH (acc + v)). lia. Qed.

Lemma metrics_fit (rs : list CacheMetrics) : fits 64 (m_evictions (foldl add_metrics zero_metrics rs)).
Proof.
  assert (H0 : fits 64 (m_evictions zero_metrics)) by done. revert H0. generalize zero_metrics.
  induction rs as [|m rs IH]; intros acc Ha; [done|]. cbn [foldl]. apply IH. by apply wrap_fits.
Qed.

Lemma stats_good evs st : path (stats_prog K) evs st -> good evs -> wf_stats st.
Proof.
  unfold stats_prog. intros Hp Hg. cbn [path] in Hp. do 7 take_step Hp Hg.
  apply path_bind in Hp as (e1 & e2 & m & -> & (rs1 & _ & -> & ->)%path_for_shards & Hp). apply Forall_app in Hg as [_ Hg].
  apply path_bind in Hp as (e3 & e4 & n & -> & (rs2 & L2 & -> & ->)%path_for_shards & Hp). apply Forall_app in Hg as [G2 Hg].
  apply (good_results _ (fun n => Z.of_nat n <= cache_share K)) in G2; [|by intros|done].
  pose proof (sum_sizes rs2 G2 0) as S2. rewrite L2, length_seq in S2.
  cbn [path] in Hp. do 5 take_step Hp Hg.
  apply path_bind in Hp as (e5 & e6 & v & -> & (rs3 & L3 & -> & ->)%path_for_shards & [-> ->]). apply Forall_app in Hg as [G3 _].
  apply (good_results _ (fun v => 0 <= v <= share)) in G3; [|by intros|done].
  pose proof (sum_tracked rs3 G3 0) as S3. rewrite L3, length_seq in S3.
  destruct HK as [K1 K2 K3]. pose proof (metrics_fit rs1).
  assert (fits 64 (Z.of_nat (foldl Nat.add O rs2))) by (unfold fits in *; lia).
  assert (fits 64 (foldl Z.add 0 rs3)) by (unfold fits in *; lia).
  unfold wf_stats, stats_fields. cbn -[fits]. repeat (apply Forall_cons_2; [done|]). by apply Forall_nil_2.
Qed.

Lemma published_good evs st : path (published_stats_prog std_log llround_unrepresentable K) evs st -> good evs -> wf_stats st.
Proof.
  unfold published_stats_prog. intros Hp Hg. apply path_bind in Hp as (e1 & e2 & exact & -> & H1 & Hp).
  apply Forall_app in Hg as [G1 _]. pose proof (stats_good _ _ H1 G1) as Hw. cbn [path] in Hp.
  destruct Hp as (now & ? & -> & -> & ->). unfold wf_stats, stats_fields in *.
  repeat (apply Forall_cons_1 in Hw as [? Hw]).
  cbn -[publish fits]. repeat (apply Forall_cons_2; [first [by apply publish_fits|done]|]). by apply Forall_nil_2.
Qed.

(** Scores are products. *)
Lemma select_scores now dry s evs items : path (select_prog std_pow K (accept_prog now dry) s) evs items ->
  Forall (fun r => d_wf (ranked_score r)) items.
Proof.
  unfold select_prog. destruct (_ || _); [intros [_ ->]; by apply Forall_nil_2|].
  intros (asked & _ & E)%(path_select_loop _ _ _ _ _ _ _ _ _ _ _ []).
  pose proof (select_loop_wf std_pow (k_scoring K) replay_hook (length (shortlist s)) (sel_count s) (shortlist s)
    (replicate (length (shortlist s)) false) [] [] [] (map allowed asked, []) (Forall_nil_2 _)) as H. by rewrite E in H.
Qed.

Lemma recommend_scores r evs status items :
  path (on_recommend_prog std_exp std_pow K r) evs (RecommendResult status items) ->
  Forall (fun r => d_wf (ranked_score r)) items.
Proof.
  unfold on_recommend_prog. cbn [path]. intros ([] & e1 & -> & Hp).
  destruct (rec_count r =? 0); [by destruct Hp|]. destruct (_ <? _); [by destruct Hp|].
  cbn [path] in Hp. destruct Hp as (now & e2 & -> & Hp). apply path_bind in Hp as (? & ? & sel & -> & _ & Hp).
  apply path_bind in Hp as (? & ? & its & -> & Hs & (_ & E)). injection E as _ ->. by eapply select_scores.
Qed.

Lemma recommend_good r evs body : path (on_recommend_prog std_exp std_pow K r) evs body ->
  0 <= rec_count r <= kMaxRecommendCount -> good evs ->
  wf_response_body body /\ short_response (MkResponse 0 body) /\ SC_Ok <= status_of body <= SC_Internal.
Proof.
  intros Hp Hc Hg. pose proof Hp as Hr.
  apply path_recommend in Hr as [(_ & msg & -> & Hcount)|(now & rs & asked & offered & items & -> & Hcount & Hl & -> & A1 & A2 & A3 & _ & A5 & A6)]; [| |lia].
  - destruct Hcount as [H0|?]; [|lia]. unfold on_recommend_prog in Hp. cbn [path] in Hp. destruct Hp as ([] & e1 & _ & Hp).
    rewrite H0 in Hp. destruct Hp as [_ E]. cbn in E. injection E as ->. done.
  - pose proof (recommend_scores _ _ _ _ Hp) as Hsc. apply Forall_app in Hg as [_ [Hg _]%Forall_app].
    apply (good_results _ (fun batch => forall k item, (k, Some item) ∈ batch -> wf_item item)) in Hg;
      [|intros i batch H; exact H|by rewrite length_seq].
    assert (Hall : Forall (fun x => wf_ranked x /\ zlen (ranked_category x) <= kMaxCategoryLength /\
                       zlen (ranked_advertiser x) <= kMaxAdvertiserLength) items).
    { apply list.Forall_forall. intros x Hx. rewrite list.Forall_forall in Hsc. specialize (Hsc x Hx).
      destruct (Forall2_elem _ _ _ _ A5 Hx) as (c & Hcin & Hid & Hcat & Hadv).
      assert (Hcp : c ∈ passing std_exp (k_scoring K) (rec_signal r) now (batch_items rs)).
      { eapply elem_of_submseteq; [|exact A3]. eapply elem_of_submseteq; [exact Hcin|].
        apply sublist_submseteq, accepted_sublist. }
      apply passing_elem in Hcp as (item & (batch & k & Hb & Hin)%batch_items_elem & _ & ->).
      rewrite list.Forall_forall in Hg. destruct (Hg batch Hb k item Hin) as (W1 & W2 & W3 & _).
      unfold wf_ranked. rewrite Hid, Hcat, Hadv. cbn [candidate_of c_id c_category c_advertiser].
      unfold kMaxCategoryLength, kMaxAdvertiserLength in *. split_and!; try done; lia. }
    apply Forall_and_inv in Hall as [H1 H2]. split; [|by split]. split; [done|]. split; [lia|done].
Qed.

(** Along good results a well-formed request gets a well-formed answer. *)
Lemma answer_good request evs response : wf_request request -> path (handle_prog K request) evs response -> good evs ->
  wf_response response /\ short_response response /\ known_status response.
Proof.
  intros [Hid Hb] Hp Hg. unfold handle_prog in Hp. cbn [path] in Hp. destruct Hp as ([] & e1 & -> & Hp).
  apply Forall_cons_1 in Hg as [_ Hg]. apply path_bind in Hp as (e2 & e3 & body & -> & Hp & -> & ->).
  rewrite app_nil_r in Hg. unfold wf_response, known_status. cbn [resp_id resp_body].
  assert (Hs : wf_response_body body /\ short_response (MkResponse 0 body) /\ SC_Ok <= status_of body <= SC_Internal);
    [|by destruct Hs as (? & ? & ?)].
  destruct (req_body request) as [id|item|id| |r]; cbn [body_prog] in Hp.
  - unfold on_get_prog in Hp. cbn [path] in Hp. do 2 take_step Hp Hg. destruct x1 as [item|].
    + destruct Hp as (? & ? & _ & _ & ->). split; [|done]. split; [done|]. cbn. by apply H0.
    + by destruct Hp as (? & ? & _ & _ & ->).
  - unfold on_put_prog in Hp. cbn [path] in Hp. take_step Hp Hg.
    destruct (item_id item =? 0); [by destruct Hp as [_ ->]|]. destruct (zlen (item_category item) =? 0); [by destruct Hp as [_ ->]|].
    by destruct Hp as (? & ? & _ & _ & ->).
  - unfold on_delete_prog in Hp. cbn [path] in Hp. do 2 take_step Hp Hg. destruct Hp as [_ ->]. by destruct x1.
  - apply path_bind in Hp as (e4 & e5 & st & -> & Hp & _ & ->). apply Forall_app in Hg as [Hg _].
    pose proof (published_good _ _ Hp Hg). done.
  - destruct Hb as [_ Hc]. by eapply recommend_good.
Qed.
End Answers.

(** * Runs *)

Section Runs.
Variables (std_exp : double -> double) (std_pow : double -> double -> double).
Variables (std_log : double -> double) (llround_unrepresentable : double -> Z).
Variable h0 : Handler.
Hypothesis Hok0 : handler_ok h0.
#[local] Abbreviation K := (consts h0).
#[local] Abbreviation share := (per_shard_capacity_ (policy_ h0)).
#[local] Abbreviation sys_step := (sys_step std_exp std_pow std_log llround_unrepresentable K).
#[local] Abbreviation sys_run := (sys_run std_exp std_pow std_log llround_unrepresentable K).

(** What a call is about to put is the item of its request. *)
Lemma next_put labels i request events {R} (op : HOp R) k id item :
  Forall wf_request (arrivals labels) ->
  sys_calls (sys_run labels (sys_start h0)) !! i = Some (MkCall request events (Do op k)) ->
  OpPut id item ∈ event_cache (Ev op (some_result op)) -> wf_item item.
Proof.
  intros Hwf Hi Hop. rewrite list.Forall_forall in Hwf.
  pose proof (sys_run_inv std_exp std_pow std_log llround_unrepresentable K h0 labels) as Hinv.
  pose proof (Forall_lookup_1 _ _ _ _ (sv_calls _ _ _ _ _ _ _ Hinv) Hi) as Hp.
  assert (Hr : wf_request request).
  { apply Hwf. apply (call_arrived std_exp std_pow std_log llround_unrepresentable K labels h0
      (MkCall request events (Do op k))). by eapply list_elem_of_lookup_2. }
  destruct (path_exists (k (some_result op))) as (evs & t & Hpath).
  assert (Hfull : path (Do op k) (Ev op (some_result op) :: evs) t) by (by exists (some_result op), evs).
  specialize (Hp _ _ Hfull). cbn [call_request call_events] in Hp.
  destruct (handle_events _ _ _ _ _ _ _ _ (wf_request_typed _ Hr) Hp) as [_ Hev].
  destruct (re_puts _ _ _ _ Hev id item) as (_ & Eb & _).
  { rewrite cache_history_app. apply elem_of_app. right.
    by eapply elem_cache_history; [left|]. }
  destruct Hr as [_ Hb]. by rewrite Eb in Hb.
Qed.

Lemma run_good labels : Forall wf_request (arrivals labels) ->
  let s := sys_run labels (sys_start h0) in
  state_ok K (config_ (policy_ h0)) share (sys_handler s) /\ Forall (result_ok K share) (sys_history s).
Proof.
  induction labels as [|l labels IH] using rev_ind; intros Hwf; [by split; [|constructor]|].
  unfold arrivals in Hwf. rewrite omap_app in Hwf. apply Forall_app in Hwf as [Hwf _].
  destruct (IH Hwf) as [Hs Hh]. cbv zeta. unfold sys_run. rewrite foldl_app. cbn [foldl].
  fold (sys_run labels (sys_start h0)). set (s := sys_run labels (sys_start h0)) in *.
  destruct l as [request|i clock]; [done|]. cbn [Interleaving.sys_step].
  destruct (sys_calls s !! i) as [[request events [|R op k]]|] eqn:Ei; try done.
  pose proof (exec_op_result _ _ _ clock op _ Hs) as Hr.
  pose proof (exec_op_state _ _ _ clock op _ Hs (fun id item => next_put labels i request events op k id item Hwf Ei)) as Hst.
  destruct (exec_op clock op (sys_handler s)) as [r h]. cbn [sys_handler sys_history fst snd] in *.
  split; [done|]. apply Forall_app. split; [done|]. by apply Forall_singleton.
Qed.

Lemma run_answers_good labels c response : Forall wf_request (arrivals labels) ->
  c ∈ sys_calls (sys_run labels (sys_start h0)) -> answer c = Some response ->
  wf_response response /\ short_response response /\ known_status response.
Proof.
  intros Hwf Hc Ha. destruct (run_good labels Hwf) as [_ Hh].
  pose proof (sys_run_inv std_exp std_pow std_log llround_unrepresentable K h0 labels) as Hinv.
  pose proof (sv_calls _ _ _ _ _ _ _ Hinv) as Hp. rewrite list.Forall_forall in Hp.
  eapply (answer_good std_exp std_pow std_log llround_unrepresentable K share).
  - by eapply (state_consts_ok K (config_ (policy_ h0)) share h0).
  - rewrite list.Forall_forall in Hwf. by eapply Hwf, call_arrived.
  - by eapply answered_path; [apply Hp|].
  - apply list.Forall_forall. intros e He. rewrite list.Forall_forall in Hh. apply Hh. by eapply (sv_events _ _ _ _ _ _ _ Hinv).
Qed.
End Runs.

(** * Claim *)

(** C8: Well-formed answers under concurrency. From a fresh daemon, however the steps of any
    number of well-formed requests interleave, the shared handler stays in its good state,
    and every call that has answered answered with a well-formed response of a declared
    status whose binary encoding fits a frame and which the client's decoder reads back. *)
Theorem concurrent_responses_wellformed std_exp std_pow std_log llround_unrepresentable
    device1 device2 cap n scoring policy privacy h0 labels :
  handler_new device1 device2 cap n scoring policy privacy = inr h0 ->
  fits 64 cap -> config_ok policy -> fits 64 (max_tracked_items policy) ->
  Forall wf_request (arrivals labels) ->
  let s := sys_run std_exp std_pow std_log llround_unrepresentable (consts h0) labels (sys_start h0) in
  handler_ok (sys_handler s) /\ consts (sys_handler s) = consts h0 /\
  forall c response, c ∈ sys_calls s -> answer c = Some response ->
    wf_response response /\ kMinFrameSize <= zlen (encode_resp response []) <= kMaxFrameSize /\
    forall out, decode_resp (encode_resp response []) out = (DE_None, response).
Proof.
  intros Hnew Hcap Hcfg Hmax Hwf s. pose proof (handler_new_ok _ _ _ _ _ _ _ _ Hnew Hcap Hcfg Hmax) as Hok.
  destruct (run_good std_exp std_pow std_log llround_unrepresentable h0 Hok labels Hwf) as [(H1 & H2 & _) _].
  split_and!; [done|done|]. intros c response Hc Ha.
  destruct (run_answers_good _ _ _ _ h0 Hok labels c response Hwf Hc Ha) as (W & S & Kn). split_and!; [done|by apply response_in_range..|].
  intros out. by apply decode_resp_roundtrip.
Qed.

Lemma concurrent_responses_wellformed_witness :
  decode_resp (encode_resp sample_answer []) (make_error 0 SC_Ok []) = (DE_None, sample_answer).
Proof.
  refine (proj2 (proj2 (proj2 (proj2 (concurrent_responses_wellformed unit_exp unit_pow (fun x => x) (fun _ => 0) 1 2 8 2
    lone_config (sample_config false) sample_handler_privacy sample_handler sample_schedule sample_handler_new _
    (sample_config_ok false) _ _)) sample_call sample_answer sample_call_in _)) (make_error 0 SC_Ok [])).
  - by vm_compute.
  - by vm_compute.
  - apply (bool_decide_unpack _). vm_compute. exact I.
  - vm_compute. reflexivity.
Defined.
