(* ===== verification/ThreadPool.v ===== *)
(** The worker pool (include/lrd/concurrency/thread_pool.hpp,
    src/concurrency/thread_pool.cpp).

    Every critical section of the pool is one atomic step, and so is every operation on
    the condition variable; in between, threads interleave freely. A worker is checking
    its wait predicate, asleep in [wait], running a task, or gone. [post] and
    [shutdown] notify after they have released the mutex, so the notifications still to
    be made are part of the state. The condition variable wakes any one sleeper, all of
    them, or, spuriously, one that nobody notified.

    Two kinds of result: what happens to tasks (bounded queue, first come first served,
    run exactly once, none lost), and that nobody waits forever (no lost wakeup, every
    shutdown runs to its end). *)
From stdpp Require Import base option list.
From S2P Require Import Prelude LruCache.

Inductive PostStatus := Accepted | QueueFull | ShuttingDown.
Inductive ShutdownPolicy := Drain | Discard.

#[global] Instance PostStatus_eq_dec : EqDecision PostStatus.
Proof. solve_decision. Defined.

Definition post_status_to_string (status : PostStatus) : bstring :=
  str (match status with
  | Accepted => "Accepted"
  | QueueFull => "QueueFull"
  | ShuttingDown => "ShuttingDown"
  end)%string.

Record PoolMetrics := MkPoolMetrics { pm_posted : Z; pm_completed : Z; pm_rejected : Z; pm_exceptions : Z }.

Section ThreadPool.
Context {Task : Type}.

(** * State *)

(** Where a worker is in [worker_loop]. *)
Inductive Worker :=
| Checking              (** about to take the mutex and evaluate the predicate *)
| Asleep                (** inside [work_available_.wait] *)
| Running (task : Task)
| Exited.

Record ThreadPool := MkPool {
  queue_ : list Task;
  stopping_ : bool;
  max_queued_tasks_ : nat;
  posted_ : Z; completed_ : Z; rejected_ : Z; exceptions_ : Z;
  workers_ : list Worker;
  notifies : nat;         (** [notify_one] calls still to be made by [post] *)
  broadcasts : nat;       (** [notify_all] calls still to be made by [shutdown] *)
  (** History: tasks accepted and taken, in order, and those dropped by Discard. *)
  accepted_tasks : list Task;
  taken_tasks : list Task;
  dropped_tasks : list Task
}.

(** [None] is [std::invalid_argument]. The spawned workers all start by checking. *)
Definition pool_new (thread_count max_queued_tasks : nat) : option ThreadPool :=
  if (thread_count =? 0)%nat then None
  else if (max_queued_tasks =? 0)%nat then None
  else Some (MkPool [] false max_queued_tasks 0 0 0 0 (replicate thread_count Checking) 0 0 [] [] []).

(** * Operations *)

Definition reject (p : ThreadPool) : ThreadPool :=
  MkPool (queue_ p) (stopping_ p) (max_queued_tasks_ p) (posted_ p) (completed_ p)
    (incr64 (rejected_ p)) (exceptions_ p) (workers_ p) (notifies p) (broadcasts p)
    (accepted_tasks p) (taken_tasks p) (dropped_tasks p).

(** The critical section of [post]. *)
Definition post (task : Task) (p : ThreadPool) : PostStatus * ThreadPool :=
  if stopping_ p then (ShuttingDown, reject p)
  else if (max_queued_tasks_ p <=? length (queue_ p))%nat then (QueueFull, reject p)
  else
    (Accepted,
     MkPool (queue_ p ++ [task]) (stopping_ p) (max_queued_tasks_ p) (incr64 (posted_ p))
       (completed_ p) (rejected_ p) (exceptions_ p) (workers_ p) (S (notifies p)) (broadcasts p)
       (accepted_tasks p ++ [task]) (taken_tasks p) (dropped_tasks p)).

(** [submit]: the error is [TaskRejected]. *)
Definition submit (task : Task) (p : ThreadPool) : (PostStatus + unit) * ThreadPool :=
  let '(status, p) := post task p in
  (if decide (status = Accepted) then inr tt else inl status, p).

(** The critical section of [shutdown]; a pool already stopping is left alone. *)
Definition shutdown (policy : ShutdownPolicy) (p : ThreadPool) : ThreadPool :=
  if stopping_ p then p
  else
    let '(queue, dropped) :=
      match policy with Drain => (queue_ p, []) | Discard => ([], queue_ p) end in
    MkPool queue true (max_queued_tasks_ p) (posted_ p) (completed_ p) (rejected_ p)
      (exceptions_ p) (workers_ p) (notifies p) (S (broadcasts p))
      (accepted_tasks p) (taken_tasks p) dropped.

Definition set_worker (w : nat) (x : Worker) (p : ThreadPool) : ThreadPool :=
  MkPool (queue_ p) (stopping_ p) (max_queued_tasks_ p) (posted_ p) (completed_ p) (rejected_ p)
    (exceptions_ p) (<[w := x]> (workers_ p)) (notifies p) (broadcasts p)
    (accepted_tasks p) (taken_tasks p) (dropped_tasks p).

(** One turn of [worker_loop] up to running the task: the wait predicate, the exit
    test, the pop. *)
Definition worker_check (w : nat) (p : ThreadPool) : ThreadPool :=
  match queue_ p with
  | [] => set_worker w (if stopping_ p then Exited else Asleep) p
  | task :: queue =>
      MkPool queue (stopping_ p) (max_queued_tasks_ p) (posted_ p) (completed_ p) (rejected_ p)
        (exceptions_ p) (<[w := Running task]> (workers_ p)) (notifies p) (broadcasts p)
        (accepted_tasks p) (taken_tasks p ++ [task]) (dropped_tasks p)
  end.

(** The task returned, or threw and was caught. *)
Definition worker_finish (w : nat) (threw : bool) (p : ThreadPool) : ThreadPool :=
  MkPool (queue_ p) (stopping_ p) (max_queued_tasks_ p) (posted_ p)
    (if threw then completed_ p else incr64 (completed_ p)) (rejected_ p)
    (if threw then incr64 (exceptions_ p) else exceptions_ p)
    (<[w := Checking]> (workers_ p)) (notifies p) (broadcasts p)
    (accepted_tasks p) (taken_tasks p) (dropped_tasks p).

Definition with_signals (n b : nat) (workers : list Worker) (p : ThreadPool) : ThreadPool :=
  MkPool (queue_ p) (stopping_ p) (max_queued_tasks_ p) (posted_ p) (completed_ p) (rejected_ p)
    (exceptions_ p) workers n b (accepted_tasks p) (taken_tasks p) (dropped_tasks p).

Definition is_asleep (x : Worker) : bool := match x with Asleep => true | _ => false end.
Definition wake (x : Worker) : Worker := match x with Asleep => Checking | _ => x end.

(** * Interleavings *)

Inductive PoolEvent :=
| EvPost (task : Task)
| EvShutdown (policy : ShutdownPolicy)
| EvCheck (w : nat)
| EvFinish (w : nat) (threw : bool)
| EvNotifyOne (woken : option nat)
| EvNotifyAll
| EvSpurious (w : nat).

(** [None]: the event cannot happen in this state. *)
Definition pool_step (ev : PoolEvent) (p : ThreadPool) : option ThreadPool :=
  match ev with
  | EvPost task => Some (snd (post task p))
  | EvShutdown policy => Some (shutdown policy p)
  | EvCheck w => match workers_ p !! w with Some Checking => Some (worker_check w p) | _ => None end
  | EvFinish w threw =>
      match workers_ p !! w with Some (Running _) => Some (worker_finish w threw p) | _ => None end
  | EvNotifyOne woken =>
      match notifies p with
      | O => None
      | S n =>
          match woken with
          | Some w =>
              match workers_ p !! w with
              | Some Asleep => Some (with_signals n (broadcasts p) (<[w := Checking]> (workers_ p)) p)
              | _ => None
              end
          | None =>
              if existsb is_asleep (workers_ p) then None
              else Some (with_signals n (broadcasts p) (workers_ p) p)
          end
      end
  | EvNotifyAll =>
      match broadcasts p with
      | O => None
      | S b => Some (with_signals (notifies p) b (map wake (workers_ p)) p)
      end
  | EvSpurious w =>
      match workers_ p !! w with
      | Some Asleep => Some (set_worker w Checking p)
      | _ => None
      end
  end.

Fixpoint pool_run (evs : list PoolEvent) (p : ThreadPool) : option ThreadPool :=
  match evs with
  | [] => Some p
  | ev :: evs => match pool_step ev p with Some p => pool_run evs p | None => None end
  end.

Definition queued (p : ThreadPool) : nat := length (queue_ p).
Definition is_shutting_down (p : ThreadPool) : bool := stopping_ p.
Definition pool_metrics (p : ThreadPool) : PoolMetrics :=
  MkPoolMetrics (posted_ p) (completed_ p) (rejected_ p) (exceptions_ p).

(** The constructor spawns the workers one by one, and those that exist already run. *)
Definition spawn_worker (p : ThreadPool) : ThreadPool :=
  with_signals (notifies p) (broadcasts p) (workers_ p ++ [Checking]) p.

(** Spawning failed: the [catch] block, before the exception goes on and the destructors
    of the spawned threads join them. *)
Definition abandon (p : ThreadPool) : ThreadPool :=
  MkPool (queue_ p) true (max_queued_tasks_ p) (posted_ p) (completed_ p) (rejected_ p) (exceptions_ p)
    (workers_ p) (notifies p) (S (broadcasts p)) (accepted_tasks p) (taken_tasks p) (dropped_tasks p).

Inductive BuildEvent :=
| Spawn
| WorkerStep (ev : PoolEvent).

Fixpoint build_run (evs : list BuildEvent) (p : ThreadPool) : option ThreadPool :=
  match evs with
  | [] => Some p
  | Spawn :: evs => build_run evs (spawn_worker p)
  | WorkerStep ev :: evs => match pool_step ev p with Some p => build_run evs p | None => None end
  end.

(** The tasks [post] accepted during a run, in order. *)
Fixpoint accepts (evs : list PoolEvent) (p : ThreadPool) : list Task :=
  match evs with
  | [] => []
  | ev :: evs =>
      match pool_step ev p with
      | Some p' =>
          match ev with
          | EvPost task => if decide (fst (post task p) = Accepted) then task :: accepts evs p' else accepts evs p'
          | _ => accepts evs p'
          end
      | None => []
      end
  end.

(** The tasks workers began to run, in order. *)
Fixpoint starts (evs : list PoolEvent) (p : ThreadPool) : list Task :=
  match evs with
  | [] => []
  | ev :: evs =>
      match pool_step ev p with
      | Some p' =>
          match ev with
          | EvCheck w => match workers_ p' !! w with Some (Running task) => task :: starts evs p' | _ => starts evs p' end
          | _ => starts evs p'
          end
      | None => []
      end
  end.

(** Whether a run ever shuts the pool down with Discard. *)
Definition discards (ev : PoolEvent) : bool := match ev with EvShutdown Discard => true | _ => false end.

(** [shutdown] returns once every worker is joined. *)
Definition all_joined (p : ThreadPool) : bool :=
  forallb (fun x => match x with Exited => true | _ => false end) (workers_ p).

(** Everything but arrivals and calls of [shutdown]. *)
Definition internal (ev : PoolEvent) : Prop :=
  match ev with EvPost _ | EvShutdown _ => False | _ => True end.

(** * Counting workers *)

Definition awake_of (x : Worker) : nat := match x with Checking => 1 | _ => 0 end.
Definition asleep_of (x : Worker) : nat := match x with Asleep => 1 | _ => 0 end.
Definition running_of (x : Worker) : nat := match x with Running _ => 1 | _ => 0 end.
Definition awake (l : list Worker) : nat := sum_list_with awake_of l.
Definition asleep (l : list Worker) : nat := sum_list_with asleep_of l.
Definition running (l : list Worker) : nat := sum_list_with running_of l.

(** An upper bound on the internal steps a stopping pool still takes. *)
Definition weight (x : Worker) : nat :=
  match x with Checking => 1 | Asleep | Running _ => 2 | Exited => 0 end.
Definition work_left (p : ThreadPool) : nat :=
  2 * length (queue_ p) + notifies p + broadcasts p + sum_list_with weight (workers_ p).
End ThreadPool.
#[global] Arguments Worker : clear implicits.
#[global] Arguments ThreadPool : clear implicits.
#[global] Arguments PoolEvent : clear implicits.
#[global] Arguments BuildEvent : clear implicits.

(** * Lemmas on counts *)

Lemma sum_insert {A} (f : A -> nat) (l : list A) i x y :
  l !! i = Some x -> (sum_list_with f (<[i := y]> l) + f x = sum_list_with f l + f y)%nat.
Proof.
  revert i. induction l as [|a l IH]; intros [|i] Hi; try done; simpl in *; simplify_eq; [lia|].
  specialize (IH i Hi). lia.
Qed.

Lemma sum_elem {A} (f : A -> nat) (l : list A) i x : l !! i = Some x -> (f x <= sum_list_with f l)%nat.
Proof.
  revert i. induction l as [|a l IH]; intros [|i] Hi; try done; cbn in *; simplify_eq; [lia|].
  specialize (IH i Hi). lia.
Qed.

Lemma sum_positive {A} (f : A -> nat) (l : list A) :
  (0 < sum_list_with f l)%nat -> exists i x, l !! i = Some x /\ (0 < f x)%nat.
Proof.
  induction l as [|a l IH]; cbn; [lia|]. intros H. destruct (decide (0 < f a)%nat) as [Ha|Ha].
  - by exists 0%nat, a.
  - destruct IH as (i & x & Hi & Hx); [lia|]. by exists (S i), x.
Qed.

Section Invariant.
Context {Task : Type}.
Implicit Types (p : ThreadPool Task) (ev : PoolEvent Task).

Lemma asleep_existsb (l : list (Worker Task)) : existsb is_asleep l = false -> asleep l = 0%nat.
Proof.
  unfold asleep. induction l as [|x l IH]; [done|]. cbn. intros [Hx Hl]%orb_false_iff.
  rewrite IH by done. by destruct x.
Qed.

Lemma map_wake (l : list (Worker Task)) :
  asleep (map wake l) = 0%nat /\ awake (map wake l) = (awake l + asleep l)%nat /\
  running (map wake l) = running l.
Proof.
  unfold asleep, awake, running. induction l as [|x l (I1 & I2 & I3)]; [done|]. cbn.
  destruct x; cbn; rewrite ?I1, ?I2, ?I3; lia.
Qed.

(** Field access on a constructed pool. *)
#[local] Ltac pool_fields :=
  cbn [queue_ stopping_ max_queued_tasks_ posted_ completed_ rejected_ exceptions_ workers_ notifies
       broadcasts accepted_tasks taken_tasks dropped_tasks].

Record pool_inv (p : ThreadPool Task) : Prop := {
  pi_fifo : accepted_tasks p = taken_tasks p ++ dropped_tasks p ++ queue_ p;
  pi_drop : dropped_tasks p <> [] -> stopping_ p = true /\ queue_ p = [];
  pi_bound : (length (queue_ p) <= max_queued_tasks_ p)%nat;
  pi_wake : stopping_ p = false -> (0 < asleep (workers_ p))%nat ->
    (length (queue_ p) <= awake (workers_ p) + notifies p)%nat;
  pi_stop : stopping_ p = true -> (0 < asleep (workers_ p))%nat -> (0 < broadcasts p)%nat;
  pi_cast : (0 < broadcasts p)%nat -> stopping_ p = true;
  pi_exit : Exited ∈ workers_ p -> stopping_ p = true /\ queue_ p = [];
  pi_some : workers_ p <> [];
  pi_posted : posted_ p = wrap 64 (zlen (accepted_tasks p));
  pi_done : wrap 64 (completed_ p + exceptions_ p + Z.of_nat (running (workers_ p))) =
    wrap 64 (zlen (taken_tasks p))
}.

Lemma pool_new_inv n max p : pool_new n max = Some p -> pool_inv p.
Proof.
  unfold pool_new. destruct (Nat.eqb_spec n 0); [done|]. destruct (Nat.eqb_spec max 0); [done|].
  intros [= <-].
  assert (H0 : forall k, asleep (replicate k (@Checking Task)) = 0%nat /\
    running (replicate k (@Checking Task)) = 0%nat).
  { induction k as [|k IH]; [done|]. done. }
  destruct (H0 n) as [Ha Hr]. split; pool_fields; try done; try lia.
  - cbn. lia.
  - by intros ?%elem_of_replicate_inv.
  - by destruct n.
  - by rewrite Hr.
Qed.

(** How one worker's change of phase moves the counts. *)
Lemma worker_moves (l : list (Worker Task)) w x y :
  l !! w = Some x ->
  (asleep (<[w := y]> l) + asleep_of x = asleep l + asleep_of y)%nat /\
  (awake (<[w := y]> l) + awake_of x = awake l + awake_of y)%nat /\
  (running (<[w := y]> l) + running_of x = running l + running_of y)%nat /\
  <[w := y]> l <> [] /\
  (Exited ∈ <[w := y]> l -> Exited ∈ l \/ y = Exited).
Proof.
  intros Hw. split_and!; try by apply sum_insert.
  - intros E. apply (f_equal length) in E. rewrite length_insert in E. apply lookup_lt_Some in Hw. cbn in E. lia.
  - intros Hin. apply list_elem_of_lookup in Hin as (j & Hj).
    destruct (decide (w = j)) as [<-|Hne].
    + rewrite list_lookup_insert_eq in Hj by (by eapply lookup_lt_Some). right. congruence.
    + rewrite list_lookup_insert_ne in Hj by done. left. by eapply list_elem_of_lookup_2.
Qed.

Lemma wrap_succ_len {A} (l : list A) a z : z = wrap 64 (zlen l) -> incr64 z = wrap 64 (zlen (l ++ [a])).
Proof.
  intros ->. unfold incr64, wrap. rewrite Zplus_mod_idemp_l. by rewrite zlen_app.
Qed.

Lemma post_inv task p : pool_inv p -> pool_inv (snd (post task p)).
Proof.
  intros Hinv. assert (Hrej : pool_inv (reject p)) by (destruct Hinv; by split).
  destruct Hinv as [F D B W S C E N P R]. unfold post. destruct (stopping_ p) eqn:Es; [done|].
  destruct (Nat.leb_spec (max_queued_tasks_ p) (length (queue_ p))) as [Hf|Hf]; [done|].
  assert (Hd : dropped_tasks p = []).
  { destruct (dropped_tasks p); [done|]. by destruct D. }
  cbn [snd]. split; pool_fields; try done.
  - by rewrite F, Hd, !app_assoc.
  - rewrite length_app. cbn. lia.
  - intros _ Ha. rewrite length_app. cbn. specialize (W eq_refl Ha). lia.
  - intros He. by destruct (E He).
  - by apply wrap_succ_len.
Qed.

Lemma shutdown_inv policy p : pool_inv p -> pool_inv (shutdown policy p).
Proof.
  intros [F D B W S C E N P R]. unfold shutdown. destruct (stopping_ p) eqn:Es; [by split; rewrite ?Es|].
  assert (Hd : dropped_tasks p = []).
  { destruct (dropped_tasks p); [done|]. by destruct D. }
  rewrite Hd in F. destruct policy; split; pool_fields; try done; try lia.
  - intros He. by destruct (E He).
  - by rewrite app_nil_r.
  - apply Nat.le_0_l.
Qed.

Lemma worker_check_inv w p :
  pool_inv p -> workers_ p !! w = Some Checking -> pool_inv (worker_check w p).
Proof.
  intros [F D B W S C E N P R] Hw. unfold worker_check. destruct (queue_ p) as [|task queue] eqn:Eq.
  - unfold set_worker. destruct (stopping_ p) eqn:Es.
    + destruct (worker_moves (workers_ p) w Checking Exited Hw) as (M1 & M2 & M3 & M4 & M5).
      cbn [asleep_of awake_of running_of] in M1, M2, M3. split; pool_fields; rewrite ?Eq; try done.
      * intros _ Ha. apply S; [done|lia].
      * rewrite <- R. do 2 f_equal. lia.
    + destruct (worker_moves (workers_ p) w Checking Asleep Hw) as (M1 & M2 & M3 & M4 & M5).
      cbn [asleep_of awake_of running_of] in M1, M2, M3. split; pool_fields; rewrite ?Eq; try done.
      * intros _ _. apply Nat.le_0_l.
      * intros [He|He]%M5; [by apply E|done].
      * rewrite <- R. do 2 f_equal. lia.
  - destruct (worker_moves (workers_ p) w Checking (Running task) Hw) as (M1 & M2 & M3 & M4 & M5).
    cbn [asleep_of awake_of running_of] in M1, M2, M3.
    assert (Hd : dropped_tasks p = []).
    { destruct (dropped_tasks p); [done|]. by destruct D. }
    split; pool_fields; try done.
    + by rewrite F, Hd, <- app_assoc.
    + cbn in B. lia.
    + intros Es Ha. specialize (W Es ltac:(lia)). cbn in W. lia.
    + intros Es Ha. apply S; [done|lia].
    + intros [He|He]%M5; [|done]. by destruct (E He).
    + rewrite zlen_app. unfold wrap in *. replace (completed_ p + exceptions_ p + _) with
        ((completed_ p + exceptions_ p + Z.of_nat (running (workers_ p))) + 1) by lia.
      rewrite <- Zplus_mod_idemp_l, R, Zplus_mod_idemp_l. done.
Qed.

Lemma worker_finish_inv w threw task p :
  pool_inv p -> workers_ p !! w = Some (Running task) -> pool_inv (worker_finish w threw p).
Proof.
  intros [F D B W S C E N P R] Hw.
  destruct (worker_moves (workers_ p) w (Running task) Checking Hw) as (M1 & M2 & M3 & M4 & M5).
  cbn [asleep_of awake_of running_of] in M1, M2, M3. unfold worker_finish. split; pool_fields; try done.
  - intros Es Ha. specialize (W Es ltac:(lia)). lia.
  - intros Es Ha. apply S; [done|lia].
  - intros [He|He]%M5; [by apply E|done].
  - rewrite <- R. unfold incr64. destruct threw.
    + rewrite (Z.add_comm (completed_ p)). unfold wrap.
      rewrite <- Z.add_assoc, Zplus_mod_idemp_l. f_equal. lia.
    + unfold wrap. rewrite <- Z.add_assoc, Zplus_mod_idemp_l. f_equal. lia.
Qed.

(** Waking one sleeper, spuriously or not. *)
Lemma wake_one_inv w n p :
  pool_inv p -> workers_ p !! w = Some Asleep -> (notifies p <= S n)%nat ->
  pool_inv (with_signals n (broadcasts p) (<[w := Checking]> (workers_ p)) p).
Proof.
  intros [F D B W S C E N P R] Hw Hn.
  destruct (worker_moves (workers_ p) w Asleep Checking Hw) as (M1 & M2 & M3 & M4 & M5).
  cbn [asleep_of awake_of running_of] in M1, M2, M3. unfold with_signals. split; pool_fields; try done.
  - intros Es Ha. specialize (W Es ltac:(lia)). lia.
  - intros Es Ha. apply S; [done|lia].
  - intros [He|He]%M5; [by apply E|done].
  - rewrite <- R. do 2 f_equal. lia.
Qed.

Lemma pool_step_inv ev p p' : pool_inv p -> pool_step ev p = Some p' -> pool_inv p'.
Proof.
  intros Hinv. destruct ev as [task|policy|w|w threw|[w|]| |w]; cbn.
  - intros [= <-]. by apply post_inv.
  - intros [= <-]. by apply shutdown_inv.
  - destruct (workers_ p !! w) as [[]|] eqn:Hw; try done. intros [= <-]. by apply worker_check_inv.
  - destruct (workers_ p !! w) as [[]|] eqn:Hw; try done. intros [= <-]. by eapply worker_finish_inv.
  - destruct (notifies p) as [|n] eqn:En; [done|]. destruct (workers_ p !! w) as [[]|] eqn:Hw; try done.
    intros [= <-]. apply wake_one_inv; [done|done|lia].
  - destruct (notifies p) as [|n] eqn:En; [done|]. destruct (existsb _ _) eqn:Ex; [done|]. intros [= <-].
    apply asleep_existsb in Ex. destruct Hinv. unfold with_signals. split; pool_fields; try done; lia.
  - destruct (broadcasts p) as [|b] eqn:Eb; [done|]. intros [= <-].
    destruct (map_wake (workers_ p)) as (M1 & M2 & M3). destruct Hinv as [F D B W S C E N P R].
    unfold with_signals. split; pool_fields; try done; try lia.
    + intros _. apply C. lia.
    + intros (x & Hx & Hin)%list_elem_of_fmap. apply E. by destruct x.
    + intros Hm. apply N. by destruct (workers_ p).
    + by rewrite M3.
  - destruct (workers_ p !! w) as [[]|] eqn:Hw; try done. intros [= <-].
    apply (wake_one_inv w (notifies p) p Hinv Hw). lia.
Qed.

Lemma pool_run_inv evs p p' : pool_inv p -> pool_run evs p = Some p' -> pool_inv p'.
Proof.
  revert p. induction evs as [|ev evs IH]; intros p Hinv; cbn; [by intros [= <-]|].
  destruct (pool_step ev p) as [p1|] eqn:E; [|done]. apply IH. by eapply pool_step_inv.
Qed.

(** * What happens to tasks *)

Lemma step_history ev p p' :
  pool_step ev p = Some p' ->
  accepted_tasks p' = accepted_tasks p ++ accepts [ev] p /\
  taken_tasks p' = taken_tasks p ++ starts [ev] p /\
  (discards ev = false -> dropped_tasks p = [] -> dropped_tasks p' = []) /\
  max_queued_tasks_ p' = max_queued_tasks_ p.
Proof.
  intros Hs. cbn [accepts starts]. rewrite Hs.
  destruct ev as [task|policy|w|w threw|[w|]| |w]; cbn in Hs; cbn [discards]; rewrite ?app_nil_r.
  - injection Hs as <-. unfold post. destruct (stopping_ p); [by rewrite app_nil_r|].
    destruct (_ <=? _)%nat; [by rewrite app_nil_r|done].
  - injection Hs as <-. unfold shutdown. destruct (stopping_ p); [done|]. by destruct policy.
  - destruct (workers_ p !! w) as [[]|] eqn:Hw; try done. injection Hs as <-. unfold worker_check, set_worker.
    destruct (queue_ p) as [|task queue]; pool_fields;
      rewrite list_lookup_insert_eq by (by eapply lookup_lt_Some); [|done].
    destruct (stopping_ p); by rewrite app_nil_r.
  - destruct (workers_ p !! w) as [[]|]; try done. by injection Hs as <-.
  - destruct (notifies p); [done|]. destruct (workers_ p !! w) as [[]|]; try done. by injection Hs as <-.
  - destruct (notifies p); [done|]. destruct (existsb _ _); [done|]. by injection Hs as <-.
  - destruct (broadcasts p); [done|]. by injection Hs as <-.
  - destruct (workers_ p !! w) as [[]|]; try done. by injection Hs as <-.
Qed.

Lemma history_cons ev evs p p' :
  pool_step ev p = Some p' ->
  accepts (ev :: evs) p = accepts [ev] p ++ accepts evs p' /\
  starts (ev :: evs) p = starts [ev] p ++ starts evs p'.
Proof.
  intros Hs. cbn [accepts starts]. rewrite Hs. split; [by destruct ev; try case_decide|].
  destruct ev; try done. by destruct (workers_ p' !! w) as [[]|].
Qed.

Lemma run_history evs p p' :
  pool_run evs p = Some p' ->
  accepted_tasks p' = accepted_tasks p ++ accepts evs p /\
  taken_tasks p' = taken_tasks p ++ starts evs p /\
  (existsb discards evs = false -> dropped_tasks p = [] -> dropped_tasks p' = []) /\
  max_queued_tasks_ p' = max_queued_tasks_ p.
Proof.
  revert p. induction evs as [|ev evs IH]; intros p; cbn [pool_run].
  - intros [= <-]. cbn. by rewrite !app_nil_r.
  - destruct (pool_step ev p) as [p1|] eqn:E; [|done]. intros Hr. destruct (IH p1 Hr) as (I1 & I2 & I3 & I4).
    destruct (step_history ev p p1 E) as (S1 & S2 & S3 & S4). destruct (history_cons ev evs p p1 E) as [-> ->].
    rewrite I1, I2, I4, S1, S2, S4, !app_assoc. split_and!; [done|done| |done].
    cbn. intros [Hd Hds]%orb_false_iff H0. by apply I3, S3.
Qed.

Lemma pool_run_app evs evs' p p' : pool_run evs p = Some p' -> pool_run (evs ++ evs') p = pool_run evs' p'.
Proof.
  revert p. induction evs as [|ev evs IH]; intros p; cbn; [by intros [= ->]|].
  destruct (pool_step ev p); [apply IH|done].
Qed.

Lemma pool_new_history n max p :
  @pool_new Task n max = Some p -> accepted_tasks p = [] /\ taken_tasks p = [] /\ dropped_tasks p = [].
Proof. unfold pool_new. destruct (n =? 0)%nat, (max =? 0)%nat; try done. by intros [= <-]. Qed.

Lemma run_outcome n max p0 evs p :
  pool_new n max = Some p0 -> pool_run evs p0 = Some p ->
  exists dropped, accepts evs p0 = starts evs p0 ++ dropped ++ queue_ p /\
    (existsb discards evs = false -> dropped = []).
Proof.
  intros Hnew Hrun. destruct (pool_new_history _ _ _ Hnew) as (A0 & T0 & D0).
  destruct (run_history _ _ _ Hrun) as (A & T & D & M). rewrite A0 in A. rewrite T0 in T. cbn in A, T.
  exists (dropped_tasks p). rewrite <- A, <- T. split; [|intros Hd; by apply D].
  apply (pool_run_inv _ _ _ (pool_new_inv _ _ _ Hnew) Hrun).
Qed.

Lemma internal_keeps (evs : list (PoolEvent Task)) : Forall internal evs -> existsb discards evs = false.
Proof. induction 1 as [|ev evs Hev _ IH]; [done|]. cbn. rewrite IH. by destruct ev. Qed.

(** * Progress *)

Definition spurious (ev : PoolEvent Task) : bool := match ev with EvSpurious _ => true | _ => false end.

(** A worker that is neither asleep nor gone can take a step. *)
Lemma worker_can_step p w x :
  workers_ p !! w = Some x -> x <> Asleep -> x <> Exited ->
  exists ev p', internal ev /\ spurious ev = false /\ pool_step ev p = Some p'.
Proof.
  intros Hw Ha He. destruct x; try done.
  - exists (EvCheck w). eexists. cbn. by rewrite Hw.
  - exists (EvFinish w false). eexists. cbn. by rewrite Hw.
Qed.

Lemma notify_can_step p :
  (0 < notifies p)%nat -> exists ev p', internal ev /\ spurious ev = false /\ pool_step ev p = Some p'.
Proof.
  intros Hn. destruct (notifies p) as [|n] eqn:En; [lia|].
  destruct (existsb is_asleep (workers_ p)) eqn:Ex.
  - apply existsb_exists in Ex as (x & Hin & Hx). destruct x; try done.
    apply list_elem_of_In, list_elem_of_lookup in Hin as (w & Hw).
    exists (EvNotifyOne (Some w)). eexists. cbn. by rewrite En, Hw.
  - exists (EvNotifyOne None). eexists. cbn. by rewrite En, Ex.
Qed.

Lemma broadcast_can_step p :
  (0 < broadcasts p)%nat -> exists ev p', internal ev /\ spurious ev = false /\ pool_step ev p = Some p'.
Proof.
  intros Hb. destruct (broadcasts p) as [|b] eqn:Eb; [lia|].
  exists EvNotifyAll. eexists. cbn. by rewrite Eb.
Qed.

Lemma not_joined p : all_joined p = false -> exists w x, workers_ p !! w = Some x /\ x <> Exited.
Proof.
  unfold all_joined. induction (workers_ p) as [|x l IH]; [done|]. cbn.
  destruct x; [by exists 0%nat, Checking|by exists 0%nat, Asleep|by exists 0%nat, (Running task)|].
  intros Hl. destruct (IH Hl) as (w & x & Hw & Hx). by exists (S w), x.
Qed.

(** With a queued task or a shutdown under way and somebody not yet gone, somebody
    can move. *)
Lemma pool_progress p :
  pool_inv p -> queue_ p <> [] \/ (stopping_ p = true /\ all_joined p = false) ->
  exists ev p', internal ev /\ spurious ev = false /\ pool_step ev p = Some p'.
Proof.
  intros Hinv Hwork. destruct (decide (0 < notifies p)%nat); [by apply notify_can_step|].
  destruct (decide (0 < broadcasts p)%nat); [by apply broadcast_can_step|].
  destruct Hinv as [F D B W S C E N P R].
  assert (Hex : exists w x, workers_ p !! w = Some x /\ x <> Asleep /\ x <> Exited).
  { destruct (decide (0 < asleep (workers_ p))%nat) as [Ha|Ha].
    - destruct (stopping_ p) eqn:Es; [specialize (S eq_refl Ha); lia|].
      destruct Hwork as [Hq|[Hq _]]; [|done].
      specialize (W eq_refl Ha). destruct (queue_ p); [done|]. cbn [length] in W.
      destruct (sum_positive awake_of (workers_ p)) as (w & x & Hw & Hx); [unfold awake in W; lia|].
      exists w, x. split_and!; [done| |]; intros ->; cbn in Hx; lia.
    - assert (Hno : forall w, workers_ p !! w <> Some Asleep).
      { intros w Hw. apply (sum_elem asleep_of) in Hw. cbn in Hw. unfold asleep in Ha. lia. }
      destruct (all_joined p) eqn:Ej.
      + destruct Hwork as [Hq|[_ Hj]]; [|done]. destruct (workers_ p) as [|x l] eqn:Ew; [done|].
        unfold all_joined in Ej. rewrite Ew in Ej. cbn in Ej. destruct x; try done.
        destruct E as [_ Hnil]; [by left|done].
      + destruct (not_joined p Ej) as (w & x & Hw & Hx). exists w, x.
        split_and!; [done| |done]. intros ->. by apply (Hno w). }
  destruct Hex as (w & x & Hw & Ha & He). by eapply worker_can_step.
Qed.

(** ** Construction *)

Lemma spawn_inv p : stopping_ p = false -> pool_inv p -> pool_inv (spawn_worker p).
Proof.
  intros Hs [F D B W S C E N P R]. split; unfold spawn_worker, with_signals; pool_fields; try done.
  - intros _. unfold asleep, awake in *. rewrite !sum_list_with_app. cbn. intros Ha. specialize (W Hs). lia.
  - congruence.
  - intros [He| ?%list_elem_of_singleton]%elem_of_app; [by apply E|done].
  - by destruct (workers_ p).
  - rewrite <- R. do 2 f_equal. unfold running. rewrite sum_list_with_app. cbn. lia.
Qed.

Lemma abandon_inv p : stopping_ p = false -> pool_inv p -> pool_inv (abandon p).
Proof.
  intros Hs [F D B W S C E N P R]. split; unfold abandon; pool_fields; try done; try lia.
  - intros Hd. destruct (D Hd). congruence.
  - intros He. destruct (E He). congruence.
Qed.

Lemma build_run_inv evs p p' :
  Forall (fun b => match b with Spawn => True | WorkerStep ev => internal ev end) evs ->
  stopping_ p = false -> pool_inv p -> build_run evs p = Some p' -> pool_inv p' /\ stopping_ p' = false.
Proof.
  intros Hall. revert p. induction Hall as [|[|ev] evs Hev _ IH]; intros p Hs Hinv; cbn [build_run].
  - by intros [= <-].
  - apply IH; [done|by apply spawn_inv].
  - destruct (pool_step ev p) as [p1|] eqn:E; [|done]. apply IH; [|by eapply pool_step_inv].
    destruct ev; cbn in Hev, E; try done; repeat (case_match; try done); simplify_eq; try done.
    unfold worker_check. by destruct (queue_ p).
Qed.

Lemma joined_queue_empty p : pool_inv p -> all_joined p = true -> queue_ p = [].
Proof.
  intros [F D B W S C E N P R]. unfold all_joined. destruct (workers_ p) as [|[] l] eqn:Ew; try done.
  intros _. apply E. by left.
Qed.

Lemma pool_new_capacity n max p : @pool_new Task n max = Some p -> max_queued_tasks_ p = max.
Proof. unfold pool_new. destruct (n =? 0)%nat, (max =? 0)%nat; try done. by intros [= <-]. Qed.

(** * Shutdown *)

Lemma internal_step_work ev p p' :
  internal ev -> stopping_ p = true -> pool_step ev p = Some p' ->
  stopping_ p' = true /\ (work_left p' < work_left p)%nat.
Proof.
  intros Hi Hst. unfold work_left. destruct ev as [task|policy|w|w threw|[w|]| |w]; try done; cbn.
  - destruct (workers_ p !! w) as [[]|] eqn:Hw; try done. intros [= <-]. unfold worker_check, set_worker.
    destruct (queue_ p) as [|task queue]; rewrite ?Hst; pool_fields.
    + pose proof (sum_insert weight _ w _ Exited Hw) as M. cbn [weight] in M. cbn [length]. lia.
    + pose proof (sum_insert weight _ w _ (Running task) Hw) as M. cbn [weight] in M. cbn [length]. lia.
  - destruct (workers_ p !! w) as [[]|] eqn:Hw; try done. intros [= <-]. unfold worker_finish. pool_fields.
    pose proof (sum_insert weight _ w _ Checking Hw) as M. cbn [weight] in M. split; [done|lia].
  - destruct (notifies p); [done|]. destruct (workers_ p !! w) as [[]|] eqn:Hw; try done. intros [= <-].
    unfold with_signals. pool_fields.
    pose proof (sum_insert weight _ w _ Checking Hw) as M. cbn [weight] in M. split; [done|lia].
  - destruct (notifies p); [done|]. destruct (existsb _ _); [done|]. intros [= <-].
    unfold with_signals. pool_fields. split; [done|lia].
  - destruct (broadcasts p); [done|]. intros [= <-]. unfold with_signals. pool_fields.
    assert (Hle : (sum_list_with weight (map wake (workers_ p)) <= sum_list_with weight (workers_ p))%nat).
    { induction (workers_ p) as [|x l IH]; [done|]. cbn. destruct x; cbn in *; lia. }
    split; [done|lia].
  - destruct (workers_ p !! w) as [[]|] eqn:Hw; try done. intros [= <-]. unfold set_worker. pool_fields.
    pose proof (sum_insert weight _ w _ Checking Hw) as M. cbn [weight] in M. split; [done|lia].
Qed.

Lemma internal_run_work evs p p' :
  Forall internal evs -> stopping_ p = true -> pool_run evs p = Some p' ->
  stopping_ p' = true /\ (length evs + work_left p' <= work_left p)%nat.
Proof.
  intros Hall. revert p. induction Hall as [|ev evs Hev _ IH]; intros p Hst; cbn [pool_run].
  - intros [= <-]. split; [done|]. cbn [length]. lia.
  - destruct (pool_step ev p) as [p1|] eqn:E; [|done]. intros Hr.
    destruct (internal_step_work ev p p1 Hev Hst E) as [Hs1 Hlt].
    destruct (IH p1 Hs1 Hr) as [Hs' Hle]. split; [done|]. cbn [length]. lia.
Qed.
End Invariant.

(** * Claims *)

Section Claims.
Context {Task : Type}.
Implicit Types (p : ThreadPool Task) (evs : list (PoolEvent Task)).

(** C25: for every interleaving of posts, workers, wakeups and shutdowns, the tasks that
    [post] accepted are, in order, those that workers have begun to run, those a Discard
    threw away, and those still queued: nothing runs twice, out of order or without
    having been accepted, and without a Discard nothing is lost. The queue never exceeds
    its capacity, and the counters count, modulo 2^64, the accepted tasks and the tasks
    begun less those still running. *)
Theorem tasks_run_once_in_order n max p0 evs p :
  pool_new n max = Some p0 -> pool_run evs p0 = Some p ->
  exists dropped,
    accepts evs p0 = starts evs p0 ++ dropped ++ queue_ p /\
    (existsb discards evs = false -> dropped = []) /\
    (queued p <= max)%nat /\
    pm_posted (pool_metrics p) = wrap 64 (zlen (accepts evs p0)) /\
    wrap 64 (pm_completed (pool_metrics p) + pm_exceptions (pool_metrics p) + Z.of_nat (running (workers_ p))) =
      wrap 64 (zlen (starts evs p0)).
Proof.
  intros Hnew Hrun. destruct (run_outcome _ _ _ _ _ Hnew Hrun) as (dropped & Hacc & Hd).
  pose proof (pool_run_inv _ _ _ (pool_new_inv _ _ _ Hnew) Hrun) as Hinv.
  destruct (pool_new_history _ _ _ Hnew) as (A0 & T0 & D0).
  destruct (run_history _ _ _ Hrun) as (A & T & D & M). rewrite A0 in A. rewrite T0 in T. cbn in A, T.
  exists dropped. split_and!; [done|done| |rewrite <- A; apply Hinv|rewrite <- T; apply Hinv].
  - rewrite <- (pool_new_capacity _ _ _ Hnew), <- M. apply Hinv.
Qed.

(** C24: no wakeup is lost. In every reachable state of a pool that is not stopping,
    while some worker sleeps there are at most as many queued tasks as workers about to
    look at the queue and notifications about to be made; so whenever a task is queued
    some thread other than a spuriously woken one can take a step. *)
Theorem no_lost_wakeup n max p0 evs p :
  pool_new n max = Some p0 -> pool_run evs p0 = Some p ->
  (is_shutting_down p = false -> (0 < asleep (workers_ p))%nat ->
     (queued p <= awake (workers_ p) + notifies p)%nat) /\
  (queue_ p <> [] -> exists ev p', internal ev /\ spurious ev = false /\ pool_step ev p = Some p').
Proof.
  intros Hnew Hrun. pose proof (pool_run_inv _ _ _ (pool_new_inv _ _ _ Hnew) Hrun) as Hinv.
  split; [apply Hinv|]. intros Hq. apply pool_progress; [done|by left].
Qed.

(** A shutdown always completes. From any reachable stopping state every run of the
    pool's own threads (spurious wakeups included) takes at most [work_left] steps, and
    as long as a worker is not joined some thread can take a step; when all are joined
    the queue is empty and every accepted task has run or was discarded. *)
Theorem shutdown_completes n max p0 evs p evs' p' :
  pool_new n max = Some p0 -> pool_run evs p0 = Some p -> is_shutting_down p = true ->
  Forall internal evs' -> pool_run evs' p = Some p' ->
  (length evs' <= work_left p)%nat /\
  (all_joined p' = false -> exists ev p'', internal ev /\ spurious ev = false /\ pool_step ev p' = Some p'') /\
  (all_joined p' = true -> exists dropped,
     accepts (evs ++ evs') p0 = starts (evs ++ evs') p0 ++ dropped /\
     (existsb discards evs = false -> dropped = [])).
Proof.
  intros Hnew Hrun Hst Hint Hrun'.
  pose proof (pool_run_inv _ _ _ (pool_new_inv _ _ _ Hnew) Hrun) as Hinv.
  pose proof (pool_run_inv _ _ _ Hinv Hrun') as Hinv'.
  destruct (internal_run_work _ _ _ Hint Hst Hrun') as [Hst' Hle]. split_and!; [lia| |].
  - intros Hj. apply pool_progress; [done|by right].
  - intros Hj. pose proof (joined_queue_empty _ Hinv' Hj) as Hq.
    rewrite <- (pool_run_app _ evs' _ _ Hrun) in Hrun'.
    destruct (run_outcome _ _ _ _ _ Hnew Hrun') as (dropped & Hacc & Hd). exists dropped.
    rewrite Hq, app_nil_r in Hacc. split; [done|]. intros Hno. apply Hd.
    by rewrite existsb_app, Hno, (internal_keeps _ Hint).
Qed.

(** Construction that fails part-way does not hang. Whatever the workers spawned so far
    have done when spawning the next one throws, after the [catch] block every run of
    them takes at most [work_left] steps and some step is possible until all are joined,
    so the destructors of the threads return. *)
Theorem failed_spawn_joins max p0 (built : list (BuildEvent Task)) p evs' p' :
  @pool_new Task 1 max = Some p0 ->
  Forall (fun b => match b with Spawn => True | WorkerStep ev => internal ev end) built ->
  build_run built p0 = Some p -> Forall internal evs' -> pool_run evs' (abandon p) = Some p' ->
  (length evs' <= work_left (abandon p))%nat /\
  (all_joined p' = false -> exists ev p'', internal ev /\ spurious ev = false /\ pool_step ev p' = Some p'').
Proof.
  intros Hnew Hb Hrun Hint Hrun'.
  assert (Hs0 : stopping_ p0 = false).
  { revert Hnew. unfold pool_new. destruct (max =? 0)%nat; [done|]. by intros [= <-]. }
  destruct (build_run_inv _ _ _ Hb Hs0 (pool_new_inv _ _ _ Hnew) Hrun) as [Hinv Hs].
  pose proof (pool_run_inv _ _ _ (abandon_inv _ Hs Hinv) Hrun') as Hinv'.
  destruct (internal_run_work _ (abandon p) _ Hint eq_refl Hrun') as [Hst' Hle]. split; [lia|].
  intros Hj. apply pool_progress; [done|by right].
Qed.

(** Spawning them all is [pool_new]. *)
Lemma spawn_all n max p0 :
  @pool_new Task 1 max = Some p0 -> build_run (replicate n Spawn) p0 = @pool_new Task (S n) max.
Proof.
  unfold pool_new. cbn [Nat.eqb]. destruct (max =? 0)%nat; [done|]. intros [= <-].
  assert (H : forall m, build_run (replicate n Spawn)
      (@MkPool Task [] false max 0 0 0 0 (replicate m Checking) 0 0 [] [] []) =
    Some (MkPool [] false max 0 0 0 0 (replicate (n + m) Checking) 0 0 [] [] []));
    [|rewrite <- (Nat.add_1_r n); exact (H 1%nat)].
  induction n as [|n IH]; intros m; cbn [replicate build_run]; [done|].
  change (build_run (replicate n Spawn)
    (@MkPool Task [] false max 0 0 0 0 (replicate m Checking ++ replicate 1 Checking) 0 0 [] [] []) =
    Some (MkPool [] false max 0 0 0 0 (replicate (S n + m) Checking) 0 0 [] [] [])).
  rewrite <- replicate_add, IH. do 3 f_equal. lia.
Qed.
End Claims.

(** Two workers and room for one task: the third post finds the queue full, the first
    task throws, a worker wakes for nothing. *)
Definition pool_trace : list (PoolEvent nat) :=
  [EvCheck 0; EvCheck 1; EvPost 7%nat; EvNotifyOne (Some 1%nat); EvCheck 1; EvPost 8%nat; EvPost 9%nat;
   EvNotifyOne (Some 0%nat); EvFinish 1 true; EvCheck 0; EvCheck 1; EvSpurious 1; EvCheck 1].
Definition pool_start : ThreadPool nat := default (MkPool [] true 0 0 0 0 0 [] 0 0 [] [] []) (pool_new 2 1).
Definition pool_at (evs : list (PoolEvent nat)) : ThreadPool nat := default pool_start (pool_run evs pool_start).

Lemma tasks_run_once_in_order_witness :
  pool_run pool_trace pool_start = Some (pool_at pool_trace) /\
  starts pool_trace pool_start = [7; 8]%nat /\ rejected_ (pool_at pool_trace) = 1 /\
  exists dropped,
    accepts pool_trace pool_start = starts pool_trace pool_start ++ dropped ++ queue_ (pool_at pool_trace).
Proof.
  assert (Hrun : pool_run pool_trace pool_start = Some (pool_at pool_trace)) by (vm_compute; reflexivity).
  split_and!; [exact Hrun|vm_compute; reflexivity|vm_compute; reflexivity|].
  destruct (tasks_run_once_in_order 2 1 pool_start pool_trace (pool_at pool_trace) eq_refl Hrun)
    as (dropped & H & _). exists dropped. exact H.
Defined.

(** One task queued behind a running one, one worker asleep, the notification pending. *)
Definition pool_pending : list (PoolEvent nat) :=
  [EvCheck 0; EvCheck 1; EvPost 7%nat; EvNotifyOne (Some 1%nat); EvCheck 1; EvPost 8%nat].

Lemma no_lost_wakeup_witness :
  queued (pool_at pool_pending) = 1%nat /\ asleep (workers_ (pool_at pool_pending)) = 1%nat /\
  (queued (pool_at pool_pending) <=
     awake (workers_ (pool_at pool_pending)) + notifies (pool_at pool_pending))%nat.
Proof.
  assert (Hrun : pool_run pool_pending pool_start = Some (pool_at pool_pending)) by (vm_compute; reflexivity).
  assert (Ha : asleep (workers_ (pool_at pool_pending)) = 1%nat) by (vm_compute; reflexivity).
  split_and!; [vm_compute; reflexivity|exact Ha|].
  refine (proj1 (no_lost_wakeup 2 1 pool_start pool_pending (pool_at pool_pending) eq_refl Hrun) _ _).
  - vm_compute. reflexivity.
  - rewrite Ha. apply Nat.lt_0_1.
Defined.

(** Draining: the queued task still runs, then both workers leave. *)
Definition pool_draining : list (PoolEvent nat) := pool_pending ++ [EvShutdown Drain].
Definition pool_drain : list (PoolEvent nat) :=
  [EvNotifyAll; EvNotifyOne None; EvCheck 0; EvFinish 0 false; EvFinish 1 false; EvCheck 1; EvCheck 0].

Lemma shutdown_completes_witness :
  all_joined (default pool_start (pool_run pool_drain (pool_at pool_draining))) = true /\
  (length pool_drain <= work_left (pool_at pool_draining))%nat.
Proof.
  split; [vm_compute; reflexivity|].
  refine (proj1 (shutdown_completes 2 1 pool_start pool_draining (pool_at pool_draining) pool_drain
    (default pool_start (pool_run pool_drain (pool_at pool_draining))) eq_refl _ _ _ _));
    [vm_compute; reflexivity|vm_compute; reflexivity|repeat constructor|vm_compute; reflexivity].
Defined.
