(* ===== verification/Tasks.v ===== *)
(** Tasks and futures (include/lrd/concurrency/task.hpp; [submit] and [TaskRejected] of
    include/lrd/concurrency/thread_pool.hpp; the uses of [Task] in
    src/concurrency/thread_pool.cpp).

    A [Task] is a [unique_ptr] to a callable on the heap, so the state is the heap, and a
    task is the allocation it points to or nothing. The callable of [post] is a plain
    function; that of [submit] is a [std::packaged_task], which keeps what its function
    throws for the future and breaks the promise when it is destroyed uninvoked. On top of
    the pool of ThreadPool.v, whose tasks are such pointers, [fstep] adds what the code
    does with them: where a task is created, moved, invoked and destroyed.

    Shown: no callable is invoked or destroyed twice or leaked, no empty task is invoked,
    and every future that [submit] returned becomes ready, with the outcome of its task or
    broken by a Discard. *)
From stdpp Require Import base option list gmap.
From S2P Require Import Prelude ThreadPool.

(** * Task *)

(** What a task may hold. The future of a packaged task is named by its shared state. *)
Inductive Callable :=
| Plain
| Packaged (future : nat).

Inductive FutureState := Pending | HasValue | HasException | BrokenPromise.

#[global] Instance FutureState_eq_dec : EqDecision FutureState.
Proof. solve_decision. Defined.

(** The member [impl_]. *)
Abbreviation Task := (option nat).

(** [next]: a number no allocation has used. [fault]: a null or dangling pointer was
    followed. *)
Record TaskWorld := MkTasks {
  heap : gmap nat Callable;
  next : nat;
  futures : gmap nat FutureState;
  fault : bool
}.

Definition faulty (t : TaskWorld) : TaskWorld := MkTasks (heap t) (next t) (futures t) true.
Definition set_future (q : nat) (st : FutureState) (t : TaskWorld) : TaskWorld :=
  MkTasks (heap t) (next t) (<[q := st]> (futures t)) (fault t).

Definition task_empty : Task := None.

(** [Task(F&&)]: [make_unique<Model<F>>]. *)
Definition task_wrap (f : Callable) (t : TaskWorld) : Task * TaskWorld :=
  (Some (next t), MkTasks (<[next t := f]> (heap t)) (S (next t)) (futures t) (fault t)).

(** The move constructor: the new task, and what is left in the old one. *)
Definition task_move (x : Task) : Task * Task := (x, None).

Definition task_bool (x : Task) : bool := match x with Some _ => true | None => false end.

(** [~packaged_task]: a promise that was never kept is broken. *)
Definition callable_destroy (f : Callable) (t : TaskWorld) : TaskWorld :=
  match f with
  | Plain => t
  | Packaged q => match futures t !! q with Some Pending => set_future q BrokenPromise t | _ => t end
  end.

Definition task_destroy (x : Task) (t : TaskWorld) : TaskWorld :=
  match x with
  | None => t
  | Some n =>
      match heap t !! n with
      | None => faulty t
      | Some f =>
          let t := callable_destroy f t in
          MkTasks (delete n (heap t)) (next t) (futures t) (fault t)
      end
  end.

(** Move assignment between two tasks: the old callable of the target goes and the source
    is left empty. Returns target and source. *)
Definition task_assign (target source : Task) (t : TaskWorld) : Task * Task * TaskWorld :=
  let '(x, source) := task_move source in (x, source, task_destroy target t).

(** [operator()]: [threw] says how the user's function ends; the result, whether an
    exception leaves the call. A packaged task already invoked throws [future_error]. *)
Definition task_call (x : Task) (threw : bool) (t : TaskWorld) : bool * TaskWorld :=
  match x with
  | None => (false, faulty t)
  | Some n =>
      match heap t !! n with
      | None => (false, faulty t)
      | Some Plain => (threw, t)
      | Some (Packaged q) =>
          match futures t !! q with
          | Some Pending => (false, set_future q (if threw then HasException else HasValue) t)
          | _ => (true, t)
          end
      end
  end.

(** * The pool and its tasks *)

(** [invoked]: the workers whose task has returned or thrown, and which, until they count
    it. [returned]: the futures [submit] has returned. *)
Record TaskPool := MkTaskPool {
  fp_pool : ThreadPool Task;
  fp_tasks : TaskWorld;
  invoked : gmap nat bool;
  returned : list nat
}.

Definition fp_start (p : ThreadPool Task) : TaskPool := MkTaskPool p (MkTasks ∅ 0 ∅ false) ∅ [].

(** [post] owns its parameter, and what it has not moved into the queue it destroys. *)
Definition post_task (x : Task) (s : TaskPool) : PostStatus * TaskPool :=
  let '(status, p) := post x (fp_pool s) in
  let x := match status with Accepted => snd (task_move x) | _ => x end in
  (status, MkTaskPool p (task_destroy x (fp_tasks s)) (invoked s) (returned s)).

Definition post_plain (s : TaskPool) : PostStatus * TaskPool :=
  let '(x, t) := task_wrap Plain (fp_tasks s) in
  post_task x (MkTaskPool (fp_pool s) t (invoked s) (returned s)).

(** [submit]: the left result is the exception [TaskRejected]. *)
Definition submit_task (s : TaskPool) : (PostStatus + nat) * TaskPool :=
  let future := next (fp_tasks s) in
  let '(x, t) := task_wrap (Packaged future) (set_future future Pending (fp_tasks s)) in
  let '(status, s) := post_task x (MkTaskPool (fp_pool s) t (invoked s) (returned s)) in
  match status with
  | Accepted => (inr future, MkTaskPool (fp_pool s) (fp_tasks s) (invoked s) (returned s ++ [future]))
  | _ => (inl status, s)
  end.

Definition task_rejected_what (status : PostStatus) : bstring :=
  str "task rejected: " ++ post_status_to_string status.

(** [shutdown]; [queue_.clear()] destroys what it drops. *)
Definition shutdown_tasks (policy : ShutdownPolicy) (s : TaskPool) : TaskPool :=
  let p := fp_pool s in
  MkTaskPool (shutdown policy p)
    (match stopping_ p, policy with
     | false, Discard => foldl (fun t x => task_destroy x t) (fp_tasks s) (queue_ p)
     | _, _ => fp_tasks s
     end) (invoked s) (returned s).

(** The worker's turn up to the task: [task] is empty, the front of the queue is moved into
    it and popped. *)
Definition take_task (w : nat) (s : TaskPool) : TaskPool :=
  let p := fp_pool s in
  MkTaskPool (worker_check w p)
    (match queue_ p with
     | [] => fp_tasks s
     | front :: _ =>
         let '(task, front, t) := task_assign task_empty front (fp_tasks s) in task_destroy front t
     end) (invoked s) (returned s).

(** [task()] in [worker_loop]. *)
Definition invoke_task (w : nat) (x : Task) (threw : bool) (s : TaskPool) : TaskPool :=
  let '(escaped, t) := task_call x threw (fp_tasks s) in
  MkTaskPool (fp_pool s) t (<[w := escaped]> (invoked s)) (returned s).

(** The count, and the end of the scope of [task]. *)
Definition finish_task (w : nat) (x : Task) (escaped : bool) (s : TaskPool) : TaskPool :=
  MkTaskPool (worker_finish w escaped (fp_pool s)) (task_destroy x (fp_tasks s))
    (delete w (invoked s)) (returned s).

Inductive TaskEvent :=
| EvPlain
| EvSubmit
| EvStop (policy : ShutdownPolicy)
| EvTake (w : nat)
| EvInvoke (w : nat) (threw : bool)
| EvCount (w : nat)
| EvPool (ev : PoolEvent Task).

(** The condition variable has nothing to do with tasks. *)
Definition signal_only (ev : PoolEvent Task) : bool :=
  match ev with EvNotifyOne _ | EvNotifyAll | EvSpurious _ => true | _ => false end.

Definition fstep (ev : TaskEvent) (s : TaskPool) : option TaskPool :=
  match ev with
  | EvPlain => Some (snd (post_plain s))
  | EvSubmit => Some (snd (submit_task s))
  | EvStop policy => Some (shutdown_tasks policy s)
  | EvTake w =>
      match workers_ (fp_pool s) !! w with Some Checking => Some (take_task w s) | _ => None end
  | EvInvoke w threw =>
      match workers_ (fp_pool s) !! w, invoked s !! w with
      | Some (Running x), None => Some (invoke_task w x threw s)
      | _, _ => None
      end
  | EvCount w =>
      match workers_ (fp_pool s) !! w, invoked s !! w with
      | Some (Running x), Some escaped => Some (finish_task w x escaped s)
      | _, _ => None
      end
  | EvPool ev =>
      if signal_only ev then
        (fun p => MkTaskPool p (fp_tasks s) (invoked s) (returned s)) <$> pool_step ev (fp_pool s)
      else None
  end.

Fixpoint frun (evs : list TaskEvent) (s : TaskPool) : option TaskPool :=
  match evs with
  | [] => Some s
  | ev :: evs => match fstep ev s with Some s => frun evs s | None => None end
  end.

(** * Invariant *)

(** Field access on constructed states. *)
#[local] Ltac fields :=
  cbn [queue_ stopping_ max_queued_tasks_ posted_ completed_ rejected_ exceptions_ workers_ notifies
       broadcasts accepted_tasks taken_tasks dropped_tasks heap next futures fault fp_pool fp_tasks
       invoked returned fst snd] in *.

Record tp_inv (s : TaskPool) : Prop := {
  ti_pool : pool_inv (fp_pool s);
  ti_fault : fault (fp_tasks s) = false;
  ti_nodup : NoDup (accepted_tasks (fp_pool s));
  ti_named : forall x, x ∈ accepted_tasks (fp_pool s) -> exists n, x = Some n /\ (n < next (fp_tasks s))%nat;
  ti_running : forall w x, workers_ (fp_pool s) !! w = Some (Running x) -> x ∈ taken_tasks (fp_pool s);
  ti_owner : forall w w' x, workers_ (fp_pool s) !! w = Some (Running x) ->
    workers_ (fp_pool s) !! w' = Some (Running x) -> w = w';
  ti_heap : forall n, is_Some (heap (fp_tasks s) !! n) <->
    Some n ∈ queue_ (fp_pool s) \/ exists w, workers_ (fp_pool s) !! w = Some (Running (Some n));
  ti_self : forall n q, heap (fp_tasks s) !! n = Some (Packaged q) -> q = n;
  ti_plain : forall n, heap (fp_tasks s) !! n = Some Plain -> futures (fp_tasks s) !! n = None;
  ti_fresh : forall q, is_Some (futures (fp_tasks s) !! q) -> (q < next (fp_tasks s))%nat;
  ti_pending : forall q, futures (fp_tasks s) !! q = Some Pending <->
    heap (fp_tasks s) !! q = Some (Packaged q) /\
    forall w, workers_ (fp_pool s) !! w = Some (Running (Some q)) -> invoked s !! w = None;
  ti_invoked : forall w b, invoked s !! w = Some b -> exists x, workers_ (fp_pool s) !! w = Some (Running x);
  ti_taken : forall q, Some q ∈ taken_tasks (fp_pool s) -> futures (fp_tasks s) !! q <> Some BrokenPromise;
  ti_dropped : forall q, q ∈ returned s -> Some q ∈ dropped_tasks (fp_pool s) ->
    futures (fp_tasks s) !! q = Some BrokenPromise;
  ti_returned : forall q, q ∈ returned s ->
    is_Some (futures (fp_tasks s) !! q) /\ Some q ∈ accepted_tasks (fp_pool s)
}.

(** Accepted tasks are taken, dropped or queued, and never two of these. *)
Lemma accepted_parts s x : tp_inv s ->
  (x ∈ accepted_tasks (fp_pool s) <->
     x ∈ taken_tasks (fp_pool s) \/ x ∈ dropped_tasks (fp_pool s) \/ x ∈ queue_ (fp_pool s)) /\
  (x ∈ taken_tasks (fp_pool s) -> (x ∉ dropped_tasks (fp_pool s)) /\ x ∉ queue_ (fp_pool s)) /\
  (x ∈ dropped_tasks (fp_pool s) -> x ∉ queue_ (fp_pool s)).
Proof.
  intros Hinv. pose proof (ti_nodup s Hinv) as Hn. rewrite (pi_fifo _ (ti_pool s Hinv)) in Hn |- *.
  rewrite !elem_of_app. apply NoDup_app in Hn as (_ & H1 & (_ & H2 & _)%NoDup_app).
  split_and!; [done| |apply H2]. intros Hx. specialize (H1 x Hx). set_solver.
Qed.

(** A number not used yet names nothing. *)
Lemma next_unused s : tp_inv s ->
  heap (fp_tasks s) !! next (fp_tasks s) = None /\ futures (fp_tasks s) !! next (fp_tasks s) = None /\
  Some (next (fp_tasks s)) ∉ accepted_tasks (fp_pool s).
Proof.
  intros Hinv.
  assert (Ha : Some (next (fp_tasks s)) ∉ accepted_tasks (fp_pool s)).
  { intros (n & [= <-] & Hn)%(ti_named s Hinv). lia. }
  destruct (accepted_parts s (Some (next (fp_tasks s))) Hinv) as (Hp & _).
  split_and!; [| |done].
  - apply eq_None_not_Some. intros [Hq|[w Hw]]%(ti_heap s Hinv); apply Ha, Hp; [by right; right|].
    left. by eapply ti_running.
  - apply eq_None_not_Some. intros Hq%(ti_fresh s Hinv). lia.
Qed.

(** * Steps *)

(** A task that was refused leaves at most a broken promise behind. *)
Lemma inv_refused s fs : tp_inv s ->
  (forall q, q <> next (fp_tasks s) -> fs !! q = futures (fp_tasks s) !! q) ->
  fs !! next (fp_tasks s) = None \/ fs !! next (fp_tasks s) = Some BrokenPromise ->
  tp_inv (MkTaskPool (reject (fp_pool s)) (MkTasks (heap (fp_tasks s)) (S (next (fp_tasks s))) fs false)
            (invoked s) (returned s)).
Proof.
  intros Hinv Hfs Hn. destruct (next_unused s Hinv) as (Uh & Uf & Ua).
  destruct (accepted_parts s (Some (next (fp_tasks s))) Hinv) as (Hp & _).
  assert (Hr : forall q, Some q ∈ accepted_tasks (fp_pool s) -> fs !! q = futures (fp_tasks s) !! q).
  { intros q Hq. apply Hfs. by intros ->. }
  pose proof Hinv as [P F N A R O H S L G Q I T D B]. split; unfold reject; fields; try done.
  - by destruct P; split.
  - intros x (n & -> & Hlt)%A. exists n. split; [done|lia].
  - intros n Hpl. rewrite Hfs; [by apply L|]. congruence.
  - intros q Hq. destruct (decide (q = next (fp_tasks s))) as [->|Hne]; [lia|].
    rewrite Hfs in Hq by done. specialize (G q Hq). lia.
  - intros q. destruct (decide (q = next (fp_tasks s))) as [->|Hne]; [|by rewrite Hfs].
    split; [destruct Hn as [E|E]; congruence|]. rewrite Uh. by intros [? _].
  - intros q Hq. rewrite Hr; [by apply T|]. apply (accepted_parts s _ Hinv). by left.
  - intros q Hq Hd. rewrite Hr; [by apply D|]. by apply B.
  - intros q Hq. rewrite Hr by (by apply B). by apply B.
Qed.

(** A task that was accepted is queued; its future, if it has one, is pending. *)
Lemma inv_accepted s f fs p : tp_inv s -> post (Some (next (fp_tasks s))) (fp_pool s) = (Accepted, p) ->
  (f = Plain /\ fs = futures (fp_tasks s) \/
   f = Packaged (next (fp_tasks s)) /\ fs = <[next (fp_tasks s) := Pending]> (futures (fp_tasks s))) ->
  tp_inv (MkTaskPool p (MkTasks (<[next (fp_tasks s) := f]> (heap (fp_tasks s))) (S (next (fp_tasks s))) fs false)
            (invoked s) (returned s)) /\
  Some (next (fp_tasks s)) ∈ accepted_tasks p.
Proof.
  intros Hinv Hpost Hf. pose proof (post_inv (Some (next (fp_tasks s))) _ (ti_pool s Hinv)) as Hpi.
  rewrite Hpost in Hpi. cbn [snd] in Hpi. revert Hpost. unfold post. destruct (stopping_ (fp_pool s)); [done|].
  destruct (_ <=? _)%nat; [done|]. intros [= <-]. destruct (next_unused s Hinv) as (Uh & Uf & Ua).
  split; [|fields; set_solver].
  assert (Hr : forall q, q <> next (fp_tasks s) -> fs !! q = futures (fp_tasks s) !! q).
  { intros q Hq. destruct Hf as [[_ ->]|[_ ->]]; [done|]. by rewrite lookup_insert_ne. }
  assert (Hacc : forall q, Some q ∈ accepted_tasks (fp_pool s) -> q <> next (fp_tasks s)) by (by intros q Hq ->).
  assert (Hw : forall w, workers_ (fp_pool s) !! w <> Some (Running (Some (next (fp_tasks s))))).
  { intros w Hw%(ti_running s Hinv). apply Ua, (accepted_parts s _ Hinv). by left. }
  pose proof Hinv as [P F N A R O H S L G Q I T D B]. split; fields; try done.
  - apply NoDup_app. split_and!; [done| |apply NoDup_singleton]. intros x Hx ->%list_elem_of_singleton. by apply Ua.
  - intros x [(n & -> & Hlt)%A| ->%list_elem_of_singleton]%elem_of_app; eexists; (split; [done|lia]).
  - intros n. destruct (decide (n = next (fp_tasks s))) as [->|Hne].
    + rewrite lookup_insert_eq. split; [|done]. intros _. left. set_solver.
    + rewrite lookup_insert_ne by done. rewrite H. split; [set_solver|].
      intros [[?|[= ->]%list_elem_of_singleton]%elem_of_app|?]; [by left|done|by right].
  - intros n q. destruct (decide (n = next (fp_tasks s))) as [->|Hne].
    + rewrite lookup_insert_eq. destruct Hf as [[-> _]|[-> _]]; congruence.
    + rewrite lookup_insert_ne by done. apply S.
  - intros n. destruct (decide (n = next (fp_tasks s))) as [->|Hne].
    + rewrite lookup_insert_eq. destruct Hf as [[-> ->]|[-> _]]; [done|congruence].
    + rewrite lookup_insert_ne, Hr by done. apply L.
  - intros q Hq. destruct (decide (q = next (fp_tasks s))) as [->|Hne]; [lia|].
    rewrite Hr in Hq by done. specialize (G q Hq). lia.
  - intros q. destruct (decide (q = next (fp_tasks s))) as [->|Hne].
    + rewrite lookup_insert_eq. destruct Hf as [[-> ->]|[-> ->]].
      * rewrite Uf. split; [done|by intros [? _]].
      * rewrite lookup_insert_eq. split; [|done]. intros _. split; [done|]. intros w Hx. by destruct (Hw w).
    + by rewrite lookup_insert_ne, Hr.
  - intros q Hq. rewrite Hr; [by apply T|]. apply Hacc, (accepted_parts s _ Hinv). by left.
  - intros q Hq Hd. rewrite Hr; [by apply D|]. by apply Hacc, B.
  - intros q Hq. rewrite Hr by (by apply Hacc, B). destruct (B q Hq). split; [done|set_solver].
Qed.

(** Steps of the pool that leave the queue, the histories and the running workers. *)
Lemma inv_same s p : tp_inv s -> pool_inv p ->
  queue_ p = queue_ (fp_pool s) -> accepted_tasks p = accepted_tasks (fp_pool s) ->
  taken_tasks p = taken_tasks (fp_pool s) -> dropped_tasks p = dropped_tasks (fp_pool s) ->
  (forall w x, workers_ p !! w = Some (Running x) <-> workers_ (fp_pool s) !! w = Some (Running x)) ->
  tp_inv (MkTaskPool p (fp_tasks s) (invoked s) (returned s)).
Proof.
  intros [P F N A R O H S L G Q I T D B] Hp Eq Ea Et Ed Hw. split; fields; rewrite ?Eq, ?Ea, ?Et, ?Ed; try done.
  - intros w x. rewrite Hw. apply R.
  - intros w w' x. rewrite !Hw. apply O.
  - intros n. rewrite H. by setoid_rewrite Hw.
  - intros q. rewrite Q. by setoid_rewrite Hw.
  - intros w b. setoid_rewrite Hw. apply I.
Qed.

(** A worker that is not running a task, before and after. *)
Lemma running_insert (l : list (Worker Task)) w y z :
  l !! w = Some y -> (forall x, y <> Running x) -> (forall x, z <> Running x) ->
  forall v x, <[w := z]> l !! v = Some (Running x) <-> l !! v = Some (Running x).
Proof.
  intros Hw Hy Hz v x. destruct (decide (v = w)) as [->|Hne]; [|by rewrite list_lookup_insert_ne].
  rewrite list_lookup_insert_eq, Hw by (by eapply lookup_lt_Some).
  split; intros E; exfalso; [by apply (Hz x); injection E|by apply (Hy x); injection E].
Qed.

Lemma signal_inv ev s p : tp_inv s -> signal_only ev = true -> pool_step ev (fp_pool s) = Some p ->
  tp_inv (MkTaskPool p (fp_tasks s) (invoked s) (returned s)).
Proof.
  intros Hinv Hev Hs. pose proof (pool_step_inv _ _ _ (ti_pool s Hinv) Hs) as Hp.
  destruct ev as [| | | |[w|]| |w]; try done; cbn in Hs.
  - destruct (notifies _); [done|]. destruct (workers_ _ !! w) as [[]|] eqn:Hw; try done. injection Hs as <-.
    apply inv_same; try done. by eapply running_insert.
  - destruct (notifies _); [done|]. destruct (existsb _ _); [done|]. injection Hs as <-. by apply inv_same.
  - destruct (broadcasts _); [done|]. injection Hs as <-. apply inv_same; try done. intros w x.
    unfold with_signals. fields. rewrite list_lookup_fmap.
    destruct (workers_ (fp_pool s) !! w) as [[]|]; cbn; split; intros [=]; congruence.
  - destruct (workers_ _ !! w) as [[]|] eqn:Hw; try done. injection Hs as <-.
    apply inv_same; try done. by eapply running_insert.
Qed.

Lemma take_inv w s : tp_inv s -> workers_ (fp_pool s) !! w = Some Checking -> tp_inv (take_task w s).
Proof.
  intros Hinv Hw. pose proof (worker_check_inv w _ (ti_pool s Hinv) Hw) as Hp.
  unfold take_task. destruct (queue_ (fp_pool s)) as [|x queue] eqn:Eq; unfold worker_check in *; rewrite Eq in *.
  { apply inv_same; try done. unfold set_worker. fields. destruct (stopping_ (fp_pool s)); by eapply running_insert. }
  cbn [task_assign task_move task_empty task_destroy].
  assert (Hin : x ∈ queue_ (fp_pool s)) by (rewrite Eq; left).
  destruct (accepted_parts s x Hinv) as (Hacc & Htk & Hdr).
  assert (Hx : x ∈ accepted_tasks (fp_pool s)) by (apply Hacc; by right; right).
  assert (Hnt : x ∉ taken_tasks (fp_pool s)) by (by intros [_ ?]%Htk).
  assert (HW : forall v y, <[w := Running x]> (workers_ (fp_pool s)) !! v = Some (Running y) <->
    (v = w /\ y = x) \/ (v <> w /\ workers_ (fp_pool s) !! v = Some (Running y))).
  { intros v y. destruct (decide (v = w)) as [->|Hne]; [|rewrite list_lookup_insert_ne by done; naive_solver].
    rewrite list_lookup_insert_eq by (by eapply lookup_lt_Some). naive_solver. }
  pose proof Hinv as [P F N A R O H S L G Q I T D B]. split; fields; try done.
  - intros v y [[_ ->]|[_ Hv]]%HW; apply elem_of_app; [by right; left|left; by eapply R].
  - intros v v' y [[-> ->]|[_ H1]]%HW [[-> E]|[_ H2]]%HW; try done.
    + by apply R in H2.
    + subst y. by apply R in H1.
    + by eapply O.
  - intros n. rewrite H, Eq, elem_of_cons. setoid_rewrite HW. split.
    + intros [[->|?]|[v Hv]]; [right; exists w; by left|by left|right; exists v; right]. split; [|done]. congruence.
    + intros [?|(v & [[_ ->]|[_ Hv]])]; [by left; right|by left; left|right; by exists v].
  - intros q. rewrite Q. split; intros [H1 H2]; (split; [done|]); intros v Hv.
    + apply HW in Hv as [[-> _]|[_ Hv]]; [|by apply H2]. destruct (invoked s !! w) eqn:E; [|done].
      apply I in E as [y Hy]. congruence.
    + apply H2, HW. right. split; [|done]. congruence.
  - intros v b (y & Hy)%I. exists y. apply HW. right. split; [|done]. congruence.
  - intros q [Hq|Hq%list_elem_of_singleton]%elem_of_app; [by apply T|].
    intros Hb. subst x. destruct (proj2 (H q) (or_introl Hin)) as [[|q'] Hh].
    + by rewrite (L q Hh) in Hb.
    + pose proof (S q q' Hh) as ->. rewrite (proj2 (Q q)) in Hb; [done|]. split; [done|].
      intros v Hv%R. done.
Qed.

(** The future of the task a worker runs: pending until the invocation. *)
Lemma running_future s w n : tp_inv s -> workers_ (fp_pool s) !! w = Some (Running (Some n)) ->
  heap (fp_tasks s) !! n = Some Plain /\ futures (fp_tasks s) !! n = None \/
  heap (fp_tasks s) !! n = Some (Packaged n) /\
  (futures (fp_tasks s) !! n = Some Pending <-> invoked s !! w = None).
Proof.
  intros Hinv Hw. destruct (proj2 (ti_heap s Hinv n) (or_intror (ex_intro _ w Hw))) as [[|q] Hh].
  - left. split; [done|]. by apply ti_plain.
  - right. pose proof (ti_self s Hinv n q Hh) as ->. split; [done|]. rewrite (ti_pending s Hinv). split.
    + intros [_ H]. by apply H.
    + intros Hi. split; [done|]. intros v Hv. by rewrite (ti_owner s Hinv v w _ Hv Hw).
Qed.

(** A running task is one the pool accepted under a name. *)
Lemma running_named s w x : tp_inv s -> workers_ (fp_pool s) !! w = Some (Running x) ->
  exists n, x = Some n /\ x ∈ taken_tasks (fp_pool s) /\ x ∉ queue_ (fp_pool s).
Proof.
  intros Hinv Hw. pose proof (ti_running s Hinv w x Hw) as Ht. destruct (accepted_parts s x Hinv) as (Ha & Hq & _).
  destruct (ti_named s Hinv x) as (n & -> & _); [apply Ha; by left|]. exists n. split_and!; [done|done|]. by apply Hq.
Qed.

Lemma invoke_inv w x threw s : tp_inv s ->
  workers_ (fp_pool s) !! w = Some (Running x) -> invoked s !! w = None -> tp_inv (invoke_task w x threw s).
Proof.
  intros Hinv Hw Hi. destruct (running_named s w x Hinv Hw) as (n & -> & Htk & _).
  assert (HI : forall b v c, <[w := b]> (invoked s) !! v = Some c -> exists x, workers_ (fp_pool s) !! v = Some (Running x)).
  { intros b v c. destruct (decide (v = w)) as [->|Hne]; [by exists (Some n)|].
    rewrite lookup_insert_ne by done. apply (ti_invoked s Hinv). }
  unfold invoke_task, task_call.
  destruct (running_future s w n Hinv Hw) as [[Hh Hf]|[Hh Hf]]; rewrite Hh.
  - pose proof Hinv as [P F N A R O H S L G Q I T D B]. split; fields; try done; [|apply HI]. intros q. rewrite Q.
    split; intros [H1 H2]; (split; [done|]); intros v Hv; specialize (H2 v Hv).
    + rewrite lookup_insert_ne; [done|]. congruence.
    + destruct (decide (v = w)) as [->|Hne]; [done|]. by rewrite lookup_insert_ne in H2.
  - rewrite (proj2 Hf Hi). set (st := if threw then HasException else HasValue).
    assert (Hst : st <> Pending /\ st <> BrokenPromise) by (by destruct threw). unfold set_future.
    assert (Hne : forall q, q <> n -> <[n := st]> (futures (fp_tasks s)) !! q = futures (fp_tasks s) !! q)
      by (intros q Hq; by rewrite lookup_insert_ne).
    pose proof Hinv as [P F N A R O H S L G Q I T D B]. split; fields; try done.
    + intros q Hq. rewrite Hne; [by apply L|congruence].
    + intros q. destruct (decide (q = n)) as [->|Hq]; [|rewrite Hne by done; apply G]. intros _.
      apply G. by rewrite (proj2 Hf Hi).
    + intros q. destruct (decide (q = n)) as [->|Hq].
      * rewrite lookup_insert_eq. split; [intros [= E]; by destruct Hst|]. intros [_ H2].
        specialize (H2 w Hw). by rewrite lookup_insert_eq in H2.
      * rewrite Hne, Q by done. split; intros [H1 H2]; (split; [done|]); intros v Hv; specialize (H2 v Hv).
        -- rewrite lookup_insert_ne; [done|]. congruence.
        -- destruct (decide (v = w)) as [->|]; [done|]. by rewrite lookup_insert_ne in H2.
    + apply HI.
    + intros q Hq. destruct (decide (q = n)) as [->|Hqn]; [|rewrite Hne by done; by apply T].
      rewrite lookup_insert_eq. intros [= E]. by destruct Hst.
    + intros q Hq Hd. rewrite Hne; [by apply D|]. intros ->.
      by destruct (proj1 (proj2 (accepted_parts s (Some n) Hinv)) Htk).
    + intros q Hq. split; [|by apply B]. destruct (decide (q = n)) as [->|Hqn]; [by rewrite lookup_insert_eq|].
      rewrite Hne by done. by apply B.
Qed.

Lemma finish_inv w x escaped s : tp_inv s ->
  workers_ (fp_pool s) !! w = Some (Running x) -> invoked s !! w = Some escaped -> tp_inv (finish_task w x escaped s).
Proof.
  intros Hinv Hw Hi. destruct (running_named s w x Hinv Hw) as (n & -> & Htk & Hnq).
  pose proof (worker_finish_inv w escaped _ _ (ti_pool s Hinv) Hw) as Hp.
  assert (E : task_destroy (Some n) (fp_tasks s) =
    MkTasks (delete n (heap (fp_tasks s))) (next (fp_tasks s)) (futures (fp_tasks s)) (fault (fp_tasks s))).
  { unfold task_destroy, callable_destroy. destruct (running_future s w n Hinv Hw) as [[Hh Hf]|[Hh Hf]]; rewrite Hh; [done|].
    destruct (futures (fp_tasks s) !! n) as [[]|]; try done. by rewrite (proj1 Hf eq_refl) in Hi. }
  unfold finish_task. rewrite E.
  assert (HW : forall v y, <[w := Checking]> (workers_ (fp_pool s)) !! v = Some (Running y) <->
    v <> w /\ workers_ (fp_pool s) !! v = Some (Running y)).
  { intros v y. destruct (decide (v = w)) as [->|Hne]; [|rewrite list_lookup_insert_ne by done; naive_solver].
    rewrite list_lookup_insert_eq by (by eapply lookup_lt_Some). naive_solver. }
  pose proof Hinv as [P F N A R O H S L G Q I T D B]. split; unfold worker_finish in *; fields; try done.
  - intros v y [_ Hv]%HW. by eapply R.
  - intros v v' y [_ H1]%HW [_ H2]%HW. by eapply O.
  - intros m. setoid_rewrite HW. destruct (decide (m = n)) as [->|Hne].
    + rewrite lookup_delete_eq. split; [by intros []|]. intros [?|(v & Hv & H1)]; [done|].
      by destruct Hv; eapply O.
    + rewrite lookup_delete_ne, H by done. split; (intros [?|(v & Hv)]; [by left|right; exists v]); [|apply Hv].
      split; [|done]. congruence.
  - intros m q [_ Hm]%lookup_delete_Some. by apply S.
  - intros m [_ Hm]%lookup_delete_Some. by apply L.
  - intros q. rewrite Q. destruct (decide (q = n)) as [->|Hne].
    + rewrite lookup_delete_eq. split; [|by intros [? _]]. intros [_ H2]. specialize (H2 w Hw). congruence.
    + rewrite lookup_delete_ne by done. split; intros [H1 H2]; (split; [done|]); intros v Hv.
      * apply HW in Hv as [Hv1 Hv]. rewrite lookup_delete_ne by done. by apply H2.
      * assert (v <> w) by congruence. specialize (H2 v (proj2 (HW _ _) (conj H0 Hv))).
        by rewrite lookup_delete_ne in H2.
  - intros v b [Hv Hb]%lookup_delete_Some. destruct (I v b Hb) as [y Hy]. exists y. by apply HW.
Qed.

(** ** Discarding the queue *)

(** Packaged tasks are named by their future, and a pending future has its task. *)
Definition well_named (t : TaskWorld) : Prop :=
  (forall n q, heap t !! n = Some (Packaged q) -> q = n) /\
  (forall q, futures t !! q = Some Pending -> heap t !! q = Some (Packaged q)).

Lemma destroy_one n t : is_Some (heap t !! n) -> well_named t ->
  let t' := task_destroy (Some n) t in
  next t' = next t /\ fault t' = fault t /\ heap t' = delete n (heap t) /\ well_named t' /\
  forall q, futures t' !! q =
    if decide (q = n /\ futures t !! q = Some Pending) then Some BrokenPromise else futures t !! q.
Proof.
  intros [f Hf] [Hs Hp]. cbn [task_destroy]. rewrite Hf.
  assert (E : next (callable_destroy f t) = next t /\ fault (callable_destroy f t) = fault t /\
    heap (callable_destroy f t) = heap t /\ forall q, futures (callable_destroy f t) !! q =
      if decide (q = n /\ futures t !! q = Some Pending) then Some BrokenPromise else futures t !! q).
  { destruct f as [|m]; cbn [callable_destroy].
    - split_and!; [done..|]. intros q. case_decide as C; [|done]. destruct C as [-> Hq]. by rewrite (Hp n Hq) in Hf.
    - pose proof (Hs n m Hf) as ->. destruct (futures t !! n) as [st|] eqn:En.
      + destruct st; (split_and!; [done..|]); intros q; case_decide as C; try done; try (destruct C; congruence).
        * destruct C as [-> _]. apply lookup_insert_eq.
        * cbn. destruct (decide (q = n)) as [->|Hne]; [by destruct C|]. by rewrite lookup_insert_ne.
      + split_and!; [done..|]. intros q. case_decide as C; [destruct C; congruence|done]. }
  destruct E as (E1 & E2 & E3 & E4). fields. rewrite E1, E2, E3. split_and!; [done..| |exact E4]. split; fields; rewrite ?E3.
  - intros m q [_ Hm]%lookup_delete_Some. by apply Hs.
  - intros q. rewrite E4. case_decide as C; [done|]. intros Hq. rewrite lookup_delete_ne; [by apply Hp|].
    intros ->. by destruct C.
Qed.

Lemma destroy_all l : forall t, NoDup l -> (forall x, x ∈ l -> exists n, x = Some n /\ is_Some (heap t !! n)) ->
  well_named t ->
  let t' := foldl (fun t x => task_destroy x t) t l in
  next t' = next t /\ fault t' = fault t /\
  (forall n, heap t' !! n = if decide (Some n ∈ l) then None else heap t !! n) /\
  forall q, futures t' !! q =
    if decide (Some q ∈ l /\ futures t !! q = Some Pending) then Some BrokenPromise else futures t !! q.
Proof.
  induction l as [|x l IH]; intros t Hnd Hl Hwn; cbn [foldl].
  - split_and!; [done|done|..]; intros n; case_decide as C; set_solver.
  - apply NoDup_cons in Hnd as [Hx Hnd]. destruct (Hl x) as (n & -> & Hn); [by left|].
    destruct (destroy_one n t Hn Hwn) as (D1 & D2 & D3 & D4 & D5).
    destruct (IH (task_destroy (Some n) t) Hnd) as (I1 & I2 & I3 & I4); [|done|].
    { intros y Hy. destruct (Hl y) as (m & -> & Hm); [by right|]. exists m. split; [done|].
      rewrite D3, lookup_delete_ne; [done|]. by intros ->. }
    cbv zeta. rewrite I1, I2, D1, D2. split_and!; [done|done|..]; intros m.
    + rewrite I3, D3. destruct (decide (m = n)) as [->|Hne].
      * rewrite lookup_delete_eq. repeat case_decide; try done. set_solver.
      * rewrite lookup_delete_ne by done. repeat case_decide; try done; set_solver.
    + rewrite I4, !D5. destruct (decide (m = n)) as [->|Hne].
      * destruct (decide (Some n ∈ l)); [done|]. repeat case_decide; set_solver.
      * repeat case_decide; set_solver.
Qed.

Lemma shutdown_tasks_inv policy s : tp_inv s -> tp_inv (shutdown_tasks policy s).
Proof.
  intros Hinv. pose proof (shutdown_inv policy _ (ti_pool s Hinv)) as Hp. unfold shutdown_tasks, shutdown in *.
  destruct (stopping_ (fp_pool s)) eqn:Es; [by destruct s|]. destruct policy; cbv zeta in *.
  { assert (Hd : dropped_tasks (fp_pool s) = []).
    { destruct (dropped_tasks (fp_pool s)) eqn:E; [done|]. destruct (pi_drop _ (ti_pool s Hinv)); congruence. }
    by apply inv_same. }
  assert (Hd : dropped_tasks (fp_pool s) = []).
  { destruct (dropped_tasks (fp_pool s)) eqn:E; [done|]. destruct (pi_drop _ (ti_pool s Hinv)); congruence. }
  assert (Hwn : well_named (fp_tasks s)).
  { split; [apply (ti_self s Hinv)|]. by intros q [? _]%(ti_pending s Hinv). }
  assert (Hq : forall x, x ∈ queue_ (fp_pool s) -> x ∈ accepted_tasks (fp_pool s) /\ x ∉ taken_tasks (fp_pool s)).
  { intros x Hx. destruct (accepted_parts s x Hinv) as (Ha & Ht & _). split; [apply Ha; by right; right|].
    intros Hy. by destruct (Ht Hy). }
  destruct (destroy_all (queue_ (fp_pool s)) (fp_tasks s)) as (E1 & E2 & E3 & E4); [| |done|].
  { pose proof (ti_nodup s Hinv) as Hn. rewrite (pi_fifo _ (ti_pool s Hinv)), Hd in Hn. by apply NoDup_app in Hn as (_ & _ & ?). }
  { intros x Hx. destruct (ti_named s Hinv x) as (n & -> & _); [by apply Hq|]. exists n. split; [done|].
    apply (ti_heap s Hinv). by left. }
  pose proof Hinv as [P F N A R O H S L G Q I T D B]. split; fields; rewrite ?E1, ?E2; try done.
  - intros n. rewrite E3. case_decide as C.
    + split; [by intros []|]. intros [[]%elem_of_nil|[w Hw]]. apply R in Hw. by destruct (Hq _ C).
    + rewrite H. set_solver.
  - intros n q. rewrite E3. case_decide; [done|apply S].
  - intros n. rewrite E3. case_decide as C; [done|]. intros Hn. rewrite E4, (L n Hn). by case_decide as C'; [destruct C'|].
  - intros q. rewrite E4. case_decide as C; [|apply G]. intros _. apply G. by destruct C as [_ ->].
  - intros q. rewrite E4, E3. case_decide as C.
    + destruct C as [C _]. rewrite decide_True by done. split; [done|by intros [? _]].
    + case_decide as C'; [|apply Q]. split; [|by intros [? _]]. intros ?. by destruct C.
  - intros q Hq'. rewrite E4. case_decide as C; [|by apply T]. destruct C as [C _]. by destruct (Hq _ C).
  - intros q Hr Hdq. rewrite E4, decide_True; [done|]. split; [done|]. apply Q.
    destruct (B q Hr) as [Hsome _]. destruct (proj2 (H q) (or_introl Hdq)) as [[|m] Hh].
    + rewrite (L q Hh) in Hsome. by destruct Hsome.
    + pose proof (S q m Hh) as ->. split; [done|]. intros w Hw. apply R in Hw. by destruct (Hq _ Hdq).
  - intros q Hr. destruct (B q Hr) as [H1 H2]. split; [|done]. rewrite E4. case_decide; [done|done].
Qed.

(** ** Posting *)

Lemma post_new_inv f t s : tp_inv s ->
  (f = Plain /\ t = fp_tasks s \/
   f = Packaged (next (fp_tasks s)) /\ t = set_future (next (fp_tasks s)) Pending (fp_tasks s)) ->
  let s1 := MkTaskPool (fp_pool s) (snd (task_wrap f t)) (invoked s) (returned s) in
  let '(status, s2) := post_task (Some (next (fp_tasks s))) s1 in
  tp_inv s2 /\ returned s2 = returned s /\
  (status = Accepted -> Some (next (fp_tasks s)) ∈ accepted_tasks (fp_pool s2) /\
     (f <> Plain -> is_Some (futures (fp_tasks s2) !! next (fp_tasks s)) /\
        Some (next (fp_tasks s)) ∉ dropped_tasks (fp_pool s2))).
Proof.
  intros Hinv Hf s1. set (n := next (fp_tasks s)) in *. destruct (next_unused s Hinv) as (Uh & Uf & Ua). fold n in Uh, Uf, Ua.
  assert (Ht : heap t = heap (fp_tasks s) /\ next t = n /\ fault t = false /\
    (f = Plain /\ futures t = futures (fp_tasks s) \/ f = Packaged n /\ futures t = <[n := Pending]> (futures (fp_tasks s)))).
  { pose proof (ti_fault s Hinv). destruct Hf as [[-> ->]|[-> ->]]; (split_and!; [done..|]); [by left|by right]. }
  destruct Ht as (T1 & T2 & T3 & T4). unfold post_task. subst s1. cbn [fp_pool fp_tasks task_wrap snd].
  destruct (post (Some n) (fp_pool s)) as [status p] eqn:Ep. rewrite T1, T2, T3.
  assert (Hrej : status <> Accepted -> p = reject (fp_pool s)).
  { revert Ep. unfold post. destruct (stopping_ _); [by intros [= <- <-]|]. by destruct (_ <=? _)%nat; intros [= <- <-]. }
  destruct status; cbn [task_move snd task_destroy].
  { destruct (inv_accepted s f (futures t) p Hinv Ep T4) as [H1 H2]. fold n in H1, H2. split_and!; [done|done|].
    intros _. split; [done|]. intros Hp. fields. split.
    + destruct T4 as [[? _]|[_ ->]]; [done|]. by rewrite lookup_insert_eq.
    + revert Ep. unfold post. destruct (stopping_ _); [done|]. destruct (_ <=? _)%nat; [done|]. intros [= <-]. fields.
      intros Hd. apply Ua, (accepted_parts s _ Hinv). by right; left. }
  all: rewrite (Hrej ltac:(done)); fields; rewrite lookup_insert_eq; split_and!; [|done|done].
  all: destruct T4 as [[-> E]|[-> E]]; unfold callable_destroy, set_future; fields; rewrite E, ?lookup_insert_eq; fields;
    rewrite delete_insert_id by done; apply inv_refused; try done; [by left| |right; apply lookup_insert_eq].
  all: intros q Hq; by rewrite !lookup_insert_ne.
Qed.

Lemma submit_inv s : tp_inv s -> tp_inv (snd (submit_task s)).
Proof.
  intros Hinv. pose proof (post_new_inv (Packaged (next (fp_tasks s))) _ s Hinv (or_intror (conj eq_refl eq_refl))) as H.
  unfold submit_task. cbv zeta in *. change (task_wrap _ _) with
    (Some (next (fp_tasks s)), snd (task_wrap (Packaged (next (fp_tasks s))) (set_future (next (fp_tasks s)) Pending (fp_tasks s)))).
  cbv iota beta. destruct (post_task _ _) as [status s2]. destruct H as (H1 & H2 & H3). destruct status; [|done|done].
  destruct (H3 eq_refl) as [Ha Hf]. destruct (Hf ltac:(done)) as [Hs Hd]. cbn [snd].
  pose proof H1 as [P F N A R O H S L G Q I T D B]. split; fields; try done.
  - intros q [Hq| ->%list_elem_of_singleton]%elem_of_app; [by apply D|done].
  - intros q [Hq| ->%list_elem_of_singleton]%elem_of_app; [by apply B|done].
Qed.

Lemma fstep_inv ev s s' : tp_inv s -> fstep ev s = Some s' -> tp_inv s'.
Proof.
  intros Hinv. destruct ev as [| |policy|w|w threw|w|ev]; cbn [fstep].
  - intros [= <-]. pose proof (post_new_inv Plain _ s Hinv (or_introl (conj eq_refl eq_refl))) as H.
    unfold post_plain. cbv zeta in H. change (task_wrap _ _) with (Some (next (fp_tasks s)), snd (task_wrap Plain (fp_tasks s))).
    cbv iota beta. destruct (post_task _ _). by destruct H.
  - intros [= <-]. by apply submit_inv.
  - intros [= <-]. by apply shutdown_tasks_inv.
  - destruct (workers_ _ !! w) as [[]|] eqn:Hw; try done. intros [= <-]. by apply take_inv.
  - destruct (workers_ _ !! w) as [[]|] eqn:Hw; try done. destruct (invoked s !! w) eqn:Hi; [done|].
    intros [= <-]. by apply invoke_inv.
  - destruct (workers_ _ !! w) as [[]|] eqn:Hw; try done. destruct (invoked s !! w) eqn:Hi; [|done].
    intros [= <-]. by apply finish_inv.
  - destruct (signal_only ev) eqn:Hev; [|done]. destruct (pool_step ev _) as [p|] eqn:Hp; [|done].
    intros [= <-]. by eapply signal_inv.
Qed.

Lemma frun_inv evs s s' : tp_inv s -> frun evs s = Some s' -> tp_inv s'.
Proof.
  revert s. induction evs as [|ev evs IH]; intros s Hinv; cbn; [by intros [= <-]|].
  destruct (fstep ev s) as [s1|] eqn:E; [|done]. apply IH. by eapply fstep_inv.
Qed.

(** * Futures settle *)

(** Every event but a post, a submit and a call of [shutdown]. *)
Definition f_internal (ev : TaskEvent) : bool :=
  match ev with EvPlain | EvSubmit | EvStop _ => false | _ => true end.
Definition f_spurious (ev : TaskEvent) : bool := match ev with EvPool (EvSpurious _) => true | _ => false end.
Definition f_discards (ev : TaskEvent) : bool := match ev with EvStop Discard => true | _ => false end.

Lemma fp_start_inv n max p0 : pool_new n max = Some p0 -> tp_inv (fp_start p0).
Proof.
  intros Hnew. pose proof (pool_new_inv _ _ _ Hnew) as Hp. destruct (pool_new_history _ _ _ Hnew) as (Ha & Ht & Hd).
  assert (Hw : forall w x, workers_ p0 !! w <> Some (Running x)).
  { intros w x. revert Hnew. unfold pool_new. destruct (n =? 0)%nat, (max =? 0)%nat; try done. intros [= <-].
    cbn. intros [? _]%lookup_replicate. done. }
  assert (Hq : queue_ p0 = []).
  { revert Hnew. unfold pool_new. destruct (n =? 0)%nat, (max =? 0)%nat; try done. by intros [= <-]. }
  split; unfold fp_start; fields; rewrite ?Ha, ?Ht, ?Hd, ?Hq; try done.
  - constructor.
  - by intros x ?%elem_of_nil.
  - intros w x H. by destruct (Hw w x).
  - intros w w' x H. by destruct (Hw w x).
  - intros m. rewrite lookup_empty. split; [by intros []|]. intros [[]%elem_of_nil|[w H]]. by destruct (Hw w (Some m)).
  - intros q. rewrite lookup_empty. by intros [].
  - intros q. rewrite !lookup_empty. split; [done|by intros [? _]].
  - by intros q ?%elem_of_nil.
  - by intros q ?%elem_of_nil.
Qed.

(** In terms of the pool alone a step is one of its steps, or the invocation. *)
Lemma fstep_internal ev s s' : f_internal ev = true -> fstep ev s = Some s' ->
  (exists w b, fp_pool s' = fp_pool s /\ invoked s !! w = None /\ invoked s' = <[w := b]> (invoked s)) \/
  (exists pe, internal pe /\ pool_step pe (fp_pool s) = Some (fp_pool s') /\
     (size (invoked s) <= S (size (invoked s')))%nat).
Proof.
  intros Hi. destruct ev as [| |policy|w|w threw|w|ev]; try done; cbn [fstep].
  - destruct (workers_ _ !! w) as [[]|] eqn:Hw; try done. intros [= <-]. right. exists (EvCheck w). cbn. rewrite Hw.
    split_and!; [done|done|lia].
  - destruct (workers_ _ !! w) as [[| |x|]|] eqn:Hw; try done. destruct (invoked s !! w) eqn:Hv; [done|].
    intros [= <-]. left. unfold invoke_task. destruct (task_call _ _ _) as [b t]. by exists w, b.
  - destruct (workers_ _ !! w) as [[]|] eqn:Hw; try done. destruct (invoked s !! w) as [b|] eqn:Hv; [|done].
    intros [= <-]. right. exists (EvFinish w b). cbn. rewrite Hw. split_and!; [done|done|].
    rewrite map_size_delete, Hv. lia.
  - destruct (signal_only ev) eqn:Hev; [|done]. destruct (pool_step ev _) as [p|] eqn:Hp; [|done].
    intros [= <-]. right. exists ev. cbn. split_and!; [by destruct ev|done|lia].
Qed.

(** Workers that have invoked their task are running it. *)
Lemma invoked_running (l : list (Worker Task)) : forall m : gmap nat bool,
  (forall w b, m !! w = Some b -> exists x, l !! w = Some (Running x)) -> (size m <= running l)%nat.
Proof.
  induction l as [|y l IH] using rev_ind; intros m Hm.
  - assert (m = ∅) as ->; [|by rewrite map_size_empty]. apply map_empty. intros w. apply eq_None_not_Some.
    intros [b Hb]. by destruct (Hm w b Hb).
  - unfold running in *. rewrite sum_list_with_app. cbn.
    assert (IH' : (size (delete (length l) m) <= sum_list_with running_of l)%nat).
    { apply IH. intros w b [Hne Hw]%lookup_delete_Some. destruct (Hm w b Hw) as [x Hx]. exists x.
      apply lookup_app_Some in Hx as [?|[? Hx]]; [done|]. apply list_lookup_singleton_Some in Hx as [? _]. lia. }
    rewrite map_size_delete in IH'. destruct (m !! length l) as [b|] eqn:E; cbn in IH'; [|lia].
    destruct (Hm _ _ E) as [x Hx]. rewrite list_lookup_middle in Hx by done. injection Hx as ->. cbn. lia.
Qed.

Lemma invoked_bound s : tp_inv s -> (size (invoked s) <= work_left (fp_pool s))%nat.
Proof.
  intros Hinv. pose proof (invoked_running _ _ (ti_invoked s Hinv)) as H. unfold work_left, running in *.
  assert (Hle : forall l : list (Worker Task), (sum_list_with running_of l <= sum_list_with weight l)%nat).
  { induction l as [|[] l IH]; cbn; lia. }
  specialize (Hle (workers_ (fp_pool s))). lia.
Qed.

Lemma internal_frun_work evs s s' : tp_inv s -> Forall (fun ev => f_internal ev = true) evs ->
  stopping_ (fp_pool s) = true -> frun evs s = Some s' ->
  tp_inv s' /\ stopping_ (fp_pool s') = true /\
  (length evs + 2 * work_left (fp_pool s') + size (invoked s) <= 2 * work_left (fp_pool s) + size (invoked s'))%nat.
Proof.
  intros Hinv Hall. revert s Hinv. induction Hall as [|ev evs Hev _ IH]; intros s Hinv Hst; cbn [frun].
  - intros [= <-]. split_and!; [done|done|]. cbn [length]. lia.
  - destruct (fstep ev s) as [s1|] eqn:E; [|done]. intros Hr. pose proof (fstep_inv _ _ _ Hinv E) as Hinv1.
    destruct (fstep_internal ev s s1 Hev E) as [(w & b & Ep & Hw & Ei)|(pe & Hpe & Hs & Hsz)].
    + destruct (IH s1 Hinv1) as (I1 & I2 & I3); [by rewrite Ep|done|]. split_and!; [done|done|].
      rewrite Ep, Ei, map_size_insert, Hw in I3. cbn [length] in *. lia.
    + destruct (internal_step_work pe _ _ Hpe Hst Hs) as [Hs1 Hlt].
      destruct (IH s1 Hinv1 Hs1 Hr) as (I1 & I2 & I3). split_and!; [done|done|]. cbn [length]. lia.
Qed.

Lemma task_progress s : tp_inv s -> stopping_ (fp_pool s) = true -> all_joined (fp_pool s) = false ->
  exists ev s', f_internal ev = true /\ f_spurious ev = false /\ fstep ev s = Some s'.
Proof.
  intros Hinv Hst Hj. destruct (pool_progress _ (ti_pool s Hinv)) as (pe & p' & Hpe & Hsp & Hs); [by right|].
  destruct pe as [| |w|w threw|o| |w]; try done.
  - cbn in Hs. destruct (workers_ _ !! w) as [[]|] eqn:Hw; try done. exists (EvTake w). cbn. rewrite Hw. by eexists.
  - cbn in Hs. destruct (workers_ _ !! w) as [[]|] eqn:Hw; try done. destruct (invoked s !! w) eqn:Hi.
    + exists (EvCount w). cbn. rewrite Hw, Hi. by eexists.
    + exists (EvInvoke w false). cbn. rewrite Hw, Hi. by eexists.
  - exists (EvPool (EvNotifyOne o)). cbn [fstep signal_only]. rewrite Hs. by eexists.
  - exists (EvPool EvNotifyAll). cbn [fstep signal_only]. rewrite Hs. by eexists.
Qed.

(** Only a Discard drops. *)
Lemma fstep_dropped ev s s' : f_discards ev = false -> fstep ev s = Some s' ->
  dropped_tasks (fp_pool s) = [] -> dropped_tasks (fp_pool s') = [].
Proof.
  intros Hd Hs H0. destruct (f_internal ev) eqn:Hi.
  - destruct (fstep_internal ev s s' Hi Hs) as [(w & b & -> & _)|(pe & Hpe & Hp & _)]; [done|].
    apply (step_history pe _ _ Hp); [by destruct pe|done].
  - destruct ev as [| |[]| | | |]; try done; cbn in Hs; injection Hs as <-.
    + unfold post_plain, post_task, post. cbn. destruct (stopping_ _); [done|]. by destruct (_ <=? _)%nat.
    + unfold submit_task, post_task, post. cbn. destruct (stopping_ _); [done|]. by destruct (_ <=? _)%nat.
    + unfold shutdown_tasks, shutdown. cbn. by destruct (stopping_ _).
Qed.

Lemma frun_dropped evs s s' : existsb f_discards evs = false -> frun evs s = Some s' ->
  dropped_tasks (fp_pool s) = [] -> dropped_tasks (fp_pool s') = [].
Proof.
  revert s. induction evs as [|ev evs IH]; intros s; cbn; [by intros _ [= <-]|].
  intros [Hd Hds]%orb_false_iff. destruct (fstep ev s) as [s1|] eqn:E; [|done]. intros Hr H0.
  apply (IH s1); [done|done|]. by eapply fstep_dropped.
Qed.

(** A returned future is pending while its task waits or runs uninvoked. *)
Lemma future_pending s q : tp_inv s -> q ∈ returned s -> exists st, futures (fp_tasks s) !! q = Some st /\
  (st = Pending <-> Some q ∈ queue_ (fp_pool s) \/
     exists w, workers_ (fp_pool s) !! w = Some (Running (Some q)) /\ invoked s !! w = None).
Proof.
  intros Hinv Hq. destruct (ti_returned s Hinv q Hq) as [[st Hst] _]. exists st. split; [done|].
  assert (Hpk : is_Some (heap (fp_tasks s) !! q) -> heap (fp_tasks s) !! q = Some (Packaged q)).
  { intros [[|m] Hh]; [by rewrite (ti_plain s Hinv q Hh) in Hst|]. by rewrite Hh, (ti_self s Hinv q m Hh). }
  split.
  - intros ->. apply (ti_pending s Hinv) in Hst as [Hh Hw].
    destruct (proj1 (ti_heap s Hinv q) (ex_intro _ _ Hh)) as [?|[w H]]; [by left|right]. exists w. split; [done|by apply Hw].
  - intros Hw. enough (futures (fp_tasks s) !! q = Some Pending) by congruence. apply (ti_pending s Hinv).
    destruct Hw as [Hw|(w & Hw & Hi)].
    + split; [apply Hpk, (ti_heap s Hinv); by left|]. intros w (n & _ & _ & Hn)%(running_named s w _ Hinv). done.
    + split; [apply Hpk, (ti_heap s Hinv); right; by exists w|]. intros v Hv. by rewrite (ti_owner s Hinv v w _ Hv Hw).
Qed.

(** When every worker is gone. *)
Lemma joined_tasks s : tp_inv s -> all_joined (fp_pool s) = true ->
  heap (fp_tasks s) = ∅ /\
  forall q, q ∈ returned s -> exists st, futures (fp_tasks s) !! q = Some st /\ st <> Pending /\
    (st = BrokenPromise <-> Some q ∈ dropped_tasks (fp_pool s)).
Proof.
  intros Hinv Hj. pose proof (joined_queue_empty _ (ti_pool s Hinv) Hj) as Hq.
  assert (Hw : forall w x, workers_ (fp_pool s) !! w <> Some (Running x)).
  { intros w x Hw. unfold all_joined in Hj. rewrite forallb_forall in Hj.
    specialize (Hj (Running x)). discriminate Hj. by eapply list_elem_of_In, list_elem_of_lookup_2. }
  split.
  - apply map_empty. intros n. apply eq_None_not_Some. rewrite (ti_heap s Hinv), Hq.
    intros [[]%elem_of_nil|[w H]]. by destruct (Hw w (Some n)).
  - intros q Hr. destruct (future_pending s q Hinv Hr) as (st & Hst & Hp). exists st. split_and!; [done| |].
    + intros H%Hp. rewrite Hq in H. destruct H as [[]%elem_of_nil|(w & H & _)]. by destruct (Hw w (Some q)).
    + destruct (accepted_parts s (Some q) Hinv) as (Ha & _). split; [|intros Hd; by rewrite (ti_dropped s Hinv q Hr Hd) in Hst; injection Hst].
      intros ->. destruct (ti_returned s Hinv q Hr) as [_ Hacc]. apply Ha in Hacc as [Ht|[?|Hn]]; [|done|].
      * by destruct (ti_taken s Hinv q Ht).
      * by rewrite Hq in Hn; apply elem_of_nil in Hn.
Qed.

(** C26: Futures always settle. In every reachable state no null or dangling task was ever
    followed; a future that [submit] returned is pending exactly while its task waits in the
    queue or its worker has not invoked it yet. Once the pool is stopping its own threads
    take at most [2 * work_left] further steps and can always take one until all are joined;
    and when they are, every callable has been destroyed, and every future has the outcome
    of its task, or a broken promise exactly when a Discard dropped the task. *)
Theorem submitted_futures_settle n max p0 evs s :
  pool_new n max = Some p0 -> frun evs (fp_start p0) = Some s ->
  fault (fp_tasks s) = false /\
  (forall q, q ∈ returned s -> exists st, futures (fp_tasks s) !! q = Some st /\
     (st = Pending <-> Some q ∈ queue_ (fp_pool s) \/
        exists w, workers_ (fp_pool s) !! w = Some (Running (Some q)) /\ invoked s !! w = None)) /\
  (is_shutting_down (fp_pool s) = true -> forall evs' s',
     Forall (fun ev => f_internal ev = true) evs' -> frun evs' s = Some s' ->
     (length evs' <= 2 * work_left (fp_pool s))%nat /\
     (all_joined (fp_pool s') = false ->
        exists ev s'', f_internal ev = true /\ f_spurious ev = false /\ fstep ev s' = Some s'')) /\
  (all_joined (fp_pool s) = true ->
     heap (fp_tasks s) = ∅ /\
     (forall q, q ∈ returned s -> exists st, futures (fp_tasks s) !! q = Some st /\ st <> Pending /\
        (st = BrokenPromise <-> Some q ∈ dropped_tasks (fp_pool s))) /\
     (existsb f_discards evs = false -> dropped_tasks (fp_pool s) = [])).
Proof.
  intros Hnew Hrun. pose proof (frun_inv _ _ _ (fp_start_inv _ _ _ Hnew) Hrun) as Hinv. split_and!.
  - apply (ti_fault s Hinv).
  - intros q Hq. by apply future_pending.
  - intros Hst evs' s' Hint Hrun'. destruct (internal_frun_work _ _ _ Hinv Hint Hst Hrun') as (Hinv' & Hst' & Hle).
    pose proof (invoked_bound s' Hinv') as Hb. split; [lia|]. by apply task_progress.
  - intros Hj. destruct (joined_tasks s Hinv Hj) as [Hh Hf]. split_and!; [done|done|].
    intros Hd. apply (frun_dropped _ _ _ Hd Hrun). apply (pool_new_history _ _ _ Hnew).
Qed.

(** Two submitted tasks and a plain one on one worker: the first throws into its future, the
    plain one is running when a Discard breaks the promise of the last. *)
Definition task_trace : list TaskEvent :=
  [EvSubmit; EvTake 0; EvInvoke 0 true; EvCount 0; EvPlain; EvSubmit; EvTake 0; EvStop Discard;
   EvInvoke 0 true; EvCount 0; EvTake 0].
Definition task_pool_start : ThreadPool Task := default (MkPool [] true 0 0 0 0 0 [] 0 0 [] [] []) (pool_new 1 4).
Definition task_end : TaskPool := default (fp_start task_pool_start) (frun task_trace (fp_start task_pool_start)).

Lemma submitted_futures_settle_witness :
  all_joined (fp_pool task_end) = true /\ heap (fp_tasks task_end) = ∅ /\
  returned task_end = [0; 2]%nat /\ futures (fp_tasks task_end) !! 0%nat = Some HasException /\
  futures (fp_tasks task_end) !! 2%nat = Some BrokenPromise /\
  pm_completed (pool_metrics (fp_pool task_end)) = 1 /\ pm_exceptions (pool_metrics (fp_pool task_end)) = 1.
Proof.
  assert (Hj : all_joined (fp_pool task_end) = true) by (vm_compute; reflexivity).
  assert (Hrun : frun task_trace (fp_start task_pool_start) = Some task_end) by (vm_compute; reflexivity).
  destruct (submitted_futures_settle 1 4 task_pool_start task_trace task_end eq_refl Hrun) as (_ & _ & _ & Hd).
  split_and!; [exact Hj|exact (proj1 (Hd Hj))|vm_compute; reflexivity..].
Defined.
