(* ===== verification/ConnectionRegistry.v ===== *)
(** The connection registry (include/lrd/daemon/connection_registry.hpp,
    src/daemon/connection_registry.cpp): which descriptors workers are serving, so that
    a shutdown can break them all.

    Every method holds the mutex throughout and is one step. The workers' side is the
    set of live [ConnectionGuard]s. The theorem: for any interleaving of guards coming
    and going with a shutdown, the registry holds exactly the live guards, and after
    the shutdown each of them has had its socket shut down, or was refused. *)
From stdpp Require Import base option list gmap.
From S2P Require Import Prelude LruCache.

(** * Definitions *)

Record ConnectionRegistry := MkRegistry {
  connections_ : gmap Z Z;   (** token to descriptor *)
  next_token_ : Z;
  reg_stopping_ : bool
}.

Definition registry_new : ConnectionRegistry := MkRegistry ∅ 1 false.

(** [emplace]: an existing key keeps its value. *)
Definition emplace (token fd : Z) (m : gmap Z Z) : gmap Z Z :=
  match m !! token with Some _ => m | None => <[token := fd]> m end.

Definition registry_add (fd : Z) (r : ConnectionRegistry) : Z * ConnectionRegistry :=
  if reg_stopping_ r then (0, r)
  else
    let token := next_token_ r in
    (token, MkRegistry (emplace token fd (connections_ r)) (incr64 (next_token_ r)) (reg_stopping_ r)).

Definition registry_remove (token : Z) (r : ConnectionRegistry) : ConnectionRegistry :=
  MkRegistry (delete token (connections_ r)) (next_token_ r) (reg_stopping_ r).

(** The descriptors [::shutdown] is called on, and the registry after. *)
Definition stop_all (r : ConnectionRegistry) : list Z * ConnectionRegistry :=
  ((map_to_list (connections_ r)).*2, MkRegistry (connections_ r) (next_token_ r) true).

Definition registry_stopping (r : ConnectionRegistry) : bool := reg_stopping_ r.
Definition active (r : ConnectionRegistry) : nat := size (connections_ r).

(** [ConnectionGuard]: the token of the descriptor it registered. *)
Record ConnectionGuard := MkGuard { token_ : Z; guarded_fd : Z }.

Definition guard_new (fd : Z) (r : ConnectionRegistry) : ConnectionGuard * ConnectionRegistry :=
  let '(token, r) := registry_add fd r in (MkGuard token fd, r).
Definition guard_ok (g : ConnectionGuard) : bool := negb (token_ g =? 0).
Definition guard_drop (g : ConnectionGuard) (r : ConnectionRegistry) : ConnectionRegistry :=
  if negb (token_ g =? 0) then registry_remove (token_ g) r else r.

(** * Interleavings *)

(** The registry, the guards alive on the workers' stacks that hold a token, and the
    descriptors shut down so far. *)
Record RegistryState := MkRegState { reg : ConnectionRegistry; live : list ConnectionGuard; broken : list Z }.

Inductive RegistryEvent :=
| GuardOpen (fd : Z)
| GuardClose (i : nat)      (** the [i]-th live guard goes out of scope *)
| StopAll.

Definition registry_step (ev : RegistryEvent) (s : RegistryState) : option RegistryState :=
  match ev with
  | GuardOpen fd =>
      let '(g, r) := guard_new fd (reg s) in
      Some (MkRegState r (if guard_ok g then g :: live s else live s) (broken s))
  | GuardClose i =>
      match live s !! i with
      | Some g => Some (MkRegState (guard_drop g (reg s)) (delete i (live s)) (broken s))
      | None => None
      end
  | StopAll => let '(fds, r) := stop_all (reg s) in Some (MkRegState r (live s) (broken s ++ fds))
  end.

Fixpoint registry_run (evs : list RegistryEvent) (s : RegistryState) : option RegistryState :=
  match evs with
  | [] => Some s
  | ev :: evs => match registry_step ev s with Some s => registry_run evs s | None => None end
  end.

(** How many connections were ever registered. *)
Fixpoint opens (evs : list RegistryEvent) : Z :=
  match evs with
  | [] => 0
  | GuardOpen _ :: evs => 1 + opens evs
  | _ :: evs => opens evs
  end.

(** * Invariant *)

Record registry_inv (n : Z) (s : RegistryState) : Prop := {
  ri_live : forall token fd,
    connections_ (reg s) !! token = Some fd <-> MkGuard token fd ∈ live s;
  ri_nodup : NoDup (token_ <$> live s);
  ri_tokens : Forall (fun g => 1 <= token_ g < next_token_ (reg s)) (live s);
  ri_next : 1 <= next_token_ (reg s) <= 1 + n;
  ri_broken : reg_stopping_ (reg s) = true -> Forall (fun g => guarded_fd g ∈ broken s) (live s)
}.

Lemma registry_new_inv : registry_inv 0 (MkRegState registry_new [] []).
Proof.
  split; try done; cbn.
  - intros token fd. rewrite lookup_empty. split; [done|]. by intros ?%elem_of_nil.
  - constructor.
Qed.

Lemma registry_inv_mono n n' s : n <= n' -> registry_inv n s -> registry_inv n' s.
Proof. intros Hn [A B C D E]. split; try done. lia. Qed.

Lemma fresh_token n s : registry_inv n s -> connections_ (reg s) !! next_token_ (reg s) = None.
Proof.
  intros [A B C D E]. apply eq_None_not_Some. intros [fd Hfd]. apply A in Hfd.
  rewrite list.Forall_forall in C. apply C in Hfd. cbn in Hfd. lia.
Qed.

Lemma open_inv n fd s s' :
  registry_inv n s -> n + 1 < 2 ^ 64 - 1 -> registry_step (GuardOpen fd) s = Some s' -> registry_inv (n + 1) s'.
Proof.
  intros Hinv Hn. pose proof (fresh_token _ _ Hinv) as Hfresh. cbn. unfold guard_new, registry_add.
  destruct (reg_stopping_ (reg s)) eqn:Es.
  { intros [= <-]. apply (registry_inv_mono n); [lia|]. by destruct s. }
  destruct Hinv as [A B C D E]. unfold guard_ok, emplace. cbn [token_]. rewrite Hfresh.
  rewrite (proj2 (Z.eqb_neq _ 0)) by lia. intros [= <-]. cbn.
  assert (Hnext : incr64 (next_token_ (reg s)) = next_token_ (reg s) + 1).
  { unfold incr64. apply wrap_small. unfold fits. lia. }
  split; cbn [reg live broken connections_ next_token_ reg_stopping_]; rewrite ?Hnext.
  - intros token fd'. rewrite lookup_insert_Some, A, elem_of_cons. split.
    + intros [[<- <-]|[Hne Hin]]; auto.
    + intros [[= -> ->]|Hin]; [by left|right]. split; [|done]. intros <-.
      apply A in Hin. by rewrite Hfresh in Hin.
  - rewrite fmap_cons. constructor; [|done]. intros (g & Eg & Hg)%list_elem_of_fmap.
    rewrite list.Forall_forall in C. apply C in Hg. cbn in Eg. lia.
  - constructor; [cbn; lia|]. eapply Forall_impl; [exact C|]. cbn. lia.
  - lia.
  - done.
Qed.

Lemma close_inv n i s s' :
  registry_inv n s -> registry_step (GuardClose i) s = Some s' -> registry_inv n s'.
Proof.
  intros [A B C D E]. cbn. destruct (live s !! i) as [g|] eqn:Hi; [|done]. intros [= <-].
  assert (Hg : 1 <= token_ g) by (rewrite Forall_lookup in C; apply C in Hi; lia).
  unfold guard_drop. rewrite (proj2 (Z.eqb_neq _ 0)) by lia. cbn [negb].
  assert (Hperm : live s ≡ₚ g :: delete i (live s)) by (by apply delete_Permutation).
  set (rest := delete i (live s)) in *. clearbody rest.
  rewrite Hperm, fmap_cons in B. apply NoDup_cons in B as [Hnin B].
  rewrite Hperm in C. apply Forall_cons in C as [_ C].
  split; cbn [reg live broken connections_ next_token_ reg_stopping_ registry_remove]; try done.
  - intros token fd. rewrite lookup_delete_Some, A, Hperm, elem_of_cons. split.
    + by intros [Hne [<-|Hin]].
    + intros Hin. split; [|by right]. intros Heq. apply Hnin. apply list_elem_of_fmap.
      exists (MkGuard token fd). by rewrite Heq.
  - intros Hs. specialize (E Hs). rewrite Hperm in E. by apply Forall_cons in E as [_ E].
Qed.

Lemma stop_inv n s s' : registry_inv n s -> registry_step StopAll s = Some s' -> registry_inv n s'.
Proof.
  intros [A B C D E]. cbn. intros [= <-].
  split; cbn [reg live broken connections_ next_token_ reg_stopping_]; try done.
  intros _. apply list.Forall_forall. intros [token fd] Hin. apply A in Hin.
  apply elem_of_app. right. apply list_elem_of_fmap. exists (token, fd). split; [done|].
  by apply elem_of_map_to_list.
Qed.

Lemma opens_nonneg evs : 0 <= opens evs.
Proof. induction evs as [|[] evs IH]; cbn [opens]; lia. Qed.

Lemma registry_run_inv evs n s s' :
  registry_inv n s -> n + opens evs < 2 ^ 64 - 1 -> registry_run evs s = Some s' ->
  registry_inv (n + opens evs) s'.
Proof.
  revert n s. induction evs as [|ev evs IH]; intros n s Hinv Hn; cbn [registry_run].
  { intros [= <-]. cbn. by rewrite Z.add_0_r. }
  destruct (registry_step ev s) as [s1|] eqn:Es; [|done]. intros Hr. pose proof (opens_nonneg evs).
  destruct ev as [fd|i|]; cbn [opens] in *.
  - rewrite Z.add_assoc in *. apply (IH _ s1); [|lia|done]. eapply open_inv; [done|lia|done].
  - apply (IH _ s1); [|done|done]. by eapply close_inv.
  - apply (IH _ s1); [|done|done]. by eapply stop_inv.
Qed.

Lemma active_live n s : registry_inv n s -> active (reg s) = length (live s).
Proof.
  intros [A B C D E]. unfold active.
  assert (Hp : map_to_list (connections_ (reg s)) ≡ₚ (fun g => (token_ g, guarded_fd g)) <$> live s).
  { apply NoDup_Permutation.
    - apply NoDup_map_to_list.
    - apply (NoDup_fmap_1 fst). by rewrite <- list_fmap_compose.
    - intros [token fd]. rewrite elem_of_map_to_list, A, list_elem_of_fmap. split.
      + intros Hin. by exists (MkGuard token fd).
      + by intros ([? ?] & [= -> ->] & Hin). }
  apply Permutation_length in Hp. by rewrite length_map_to_list, length_fmap in Hp.
Qed.

(** * Claim *)

(** For any interleaving of connections starting and ending with a shutdown (of
    fewer than 2^64 - 1 connections), the registry holds exactly the live guards, under
    distinct nonzero tokens, and [active] counts them; once [stop_all] has run, the
    socket of every live guard has been shut down, and a connection starting from then on
    gets a false guard and no entry. *)
Theorem registry_tracks_guards evs s :
  opens evs < 2 ^ 64 - 1 ->
  registry_run evs (MkRegState registry_new [] []) = Some s ->
  (forall token fd, connections_ (reg s) !! token = Some fd <-> MkGuard token fd ∈ live s) /\
  NoDup (token_ <$> live s) /\ Forall (fun g => guard_ok g = true) (live s) /\
  active (reg s) = length (live s) /\
  (registry_stopping (reg s) = true ->
     Forall (fun g => guarded_fd g ∈ broken s) (live s) /\
     forall fd, guard_ok (fst (guard_new fd (reg s))) = false /\ snd (guard_new fd (reg s)) = reg s).
Proof.
  intros Hn Hrun. pose proof (registry_run_inv evs 0 _ s registry_new_inv Hn Hrun) as Hinv.
  pose proof (active_live _ _ Hinv) as Hact. destruct Hinv as [A B C D E].
  split_and!; try done.
  - eapply Forall_impl; [exact C|]. intros g Hg. unfold guard_ok.
    rewrite (proj2 (Z.eqb_neq _ 0)); [done|]. cbn in Hg. lia.
  - unfold registry_stopping. intros Hs. split; [by apply E|]. intros fd.
    unfold guard_new, registry_add. by rewrite Hs.
Qed.

(** Three connections, one gone before the shutdown, a fourth too late. *)
Definition registry_trace : list RegistryEvent :=
  [GuardOpen 5; GuardOpen 6; GuardClose 0; GuardOpen 7; StopAll; GuardOpen 8].

Lemma registry_tracks_guards_witness :
  exists s, registry_run registry_trace (MkRegState registry_new [] []) = Some s /\
    length (live s) = 2%nat /\ Forall (fun g => guarded_fd g ∈ broken s) (live s).
Proof.
  destruct (registry_run registry_trace (MkRegState registry_new [] [])) as [s|] eqn:E;
    [|vm_compute in E; discriminate].
  exists s. destruct (registry_tracks_guards registry_trace s (eq_refl : _) E) as (_ & _ & _ & _ & H).
  assert (Hl : length <$> (live <$> registry_run registry_trace (MkRegState registry_new [] [])) = Some 2%nat)
    by (vm_compute; reflexivity).
  assert (Hs : (registry_stopping ∘ reg) <$> registry_run registry_trace (MkRegState registry_new [] []) = Some true)
    by (vm_compute; reflexivity).
  rewrite E in Hl, Hs. cbn in Hl, Hs. split_and!; [reflexivity|congruence|].
  apply H. congruence.
Defined.
