(* ===== verification/Server.v ===== *)
(** The daemon's main loop and its shutdown ([Server], include/lrd/daemon/server.hpp,
    src/daemon/server.cpp): an acceptor thread, the worker pool of ThreadPool.v, the
    registry of ConnectionRegistry.v and the stop pipe, interleaved.

    A pool task is a connection, named by its descriptor. A worker that has taken one
    first registers it (or is refused), then serves it, then deregisters. What is said on
    a connection is the business of Serve.v; here a connection being served ends when its
    peer goes away, which nothing bounds, or when its socket has been shut down.

    The main theorem is about shutdown: once [run] has stopped the registry and the pool
    it returns, in a bounded number of steps and without any peer's help. *)
From stdpp Require Import base option list gmap.
From S2P Require Import Prelude Io LruCache ThreadPool ConnectionRegistry.

(** * State *)

Definition ECONNABORTED : Z := 103.
Definition EMFILE : Z := 24.
Definition ENFILE : Z := 23.
(** The capacity of a Linux pipe. *)
Definition kPipeCapacity : Z := 65536.

(** Where the acceptor is in [run]. *)
Inductive Phase :=
| Accepting
| StopSeen            (** out of the loop *)
| ListenerClosed
| RegistryStopped
| Joining             (** inside [pool_.shutdown] *)
| Returned
| Threw (errno : Z).

(** Where a worker is in [serve_connection]. *)
Inductive ConnPhase :=
| CIdle
| CTaken                            (** the task has begun, nothing registered yet *)
| CServing (g : ConnectionGuard)
| CDone.

Record Server := MkServer {
  pool_ : ThreadPool Z;
  registry_ : RegistryState;
  conns : list ConnPhase;           (** per worker *)
  phase : Phase;
  stop_bytes : Z;                   (** bytes in the stop pipe *)
  sv_accepted : Z;
  sv_rejected : Z;
  sv_completed : Z
}.

Record ServerStats := MkServerStats { ss_accepted : Z; ss_rejected : Z; ss_completed : Z }.
Definition server_stats (s : Server) : ServerStats :=
  MkServerStats (sv_accepted s) (sv_rejected s) (sv_completed s).

Definition server_new (thread_count max_queued_connections : nat) : option Server :=
  match pool_new thread_count max_queued_connections with
  | None => None
  | Some p =>
      Some (MkServer p (MkRegState registry_new [] []) (replicate thread_count CIdle) Accepting 0 0 0 0)
  end.

(** * Operations *)

Definition with_phase (ph : Phase) (s : Server) : Server :=
  MkServer (pool_ s) (registry_ s) (conns s) ph (stop_bytes s) (sv_accepted s) (sv_rejected s) (sv_completed s).
Definition with_pool (p : ThreadPool Z) (cs : list ConnPhase) (s : Server) : Server :=
  MkServer p (registry_ s) cs (phase s) (stop_bytes s) (sv_accepted s) (sv_rejected s) (sv_completed s).
Definition with_registry (r : RegistryState) (cs : list ConnPhase) (completed : Z) (s : Server) : Server :=
  MkServer (pool_ s) r cs (phase s) (stop_bytes s) (sv_accepted s) (sv_rejected s) completed.

(** A full pipe takes no more; a stop is pending then. *)
Definition request_stop (s : Server) : Server :=
  MkServer (pool_ s) (registry_ s) (conns s) (phase s)
    (if stop_bytes s <? kPipeCapacity then stop_bytes s + 1 else stop_bytes s)
    (sv_accepted s) (sv_rejected s) (sv_completed s).

Definition drain_stop_pipe (s : Server) : Server :=
  MkServer (pool_ s) (registry_ s) (conns s) (phase s) 0 (sv_accepted s) (sv_rejected s) (sv_completed s).

(** [listener_.accept()] returned the stream [fd]. *)
Definition accept_one (fd : Z) (s : Server) : Server :=
  let '(status, p) := post fd (pool_ s) in
  MkServer p (registry_ s) (conns s) (phase s) (stop_bytes s) (incr64 (sv_accepted s))
    (if bool_decide (status = Accepted) then sv_rejected s else incr64 (sv_rejected s)) (sv_completed s).

(** What [poll] and, if the listener was ready, [accept] came back with. *)
Inductive PollResult :=
| PollFailed (errno : Z)
| PollReady (accepted : option (Z + Z)).   (** the new descriptor, or the errno *)

(** One iteration of the accept loop. *)
Definition poll_once (r : PollResult) (s : Server) : Server :=
  match r with
  | PollFailed e => if e =? EINTR then s else with_phase (Threw e) s
  | PollReady accepted =>
      if 0 <? stop_bytes s then with_phase StopSeen (drain_stop_pipe s)
      else
        match accepted with
        | None => s
        | Some (inl fd) => accept_one fd s
        | Some (inr e) =>
            if e =? ECONNABORTED then s
            else if (e =? EMFILE) || (e =? ENFILE) then s
            else with_phase (Threw e) s
        end
  end.

(** The steps of [run] after the loop. *)
Definition shutdown_step (s : Server) : option Server :=
  match phase s with
  | StopSeen => Some (with_phase ListenerClosed s)
  | ListenerClosed =>
      match registry_step StopAll (registry_ s) with
      | Some r => Some (with_phase RegistryStopped (with_registry r (conns s) (sv_completed s) s))
      | None => None
      end
  | RegistryStopped => Some (with_phase Joining (with_pool (shutdown Discard (pool_ s)) (conns s) s))
  | Joining => if all_joined (pool_ s) then Some (with_phase Returned s) else None
  | _ => None
  end.

(** A worker begins [serve_connection]: the guard, and the early return. *)
Definition serve_begin (w : nat) (s : Server) : option Server :=
  match workers_ (pool_ s) !! w, conns s !! w with
  | Some (Running fd), Some CTaken =>
      match registry_step (GuardOpen fd) (registry_ s) with
      | Some r =>
          let '(g, _) := guard_new fd (reg (registry_ s)) in
          Some (with_registry r (<[w := if guard_ok g then CServing g else CDone]> (conns s)) (sv_completed s) s)
      | None => None
      end
  | _, _ => None
  end.

(** The loop of [serve_connection] has ended, because the peer left or because the
    socket was shut down; the guard goes out of scope. *)
Definition serve_end (w : nat) (peer_left : bool) (s : Server) : option Server :=
  match conns s !! w with
  | Some (CServing g) =>
      if peer_left || bool_decide (guarded_fd g ∈ broken (registry_ s)) then
        match list_find (fun g' => token_ g' = token_ g) (live (registry_ s)) with
        | Some (i, _) =>
            match registry_step (GuardClose i) (registry_ s) with
            | Some r => Some (with_registry r (<[w := CDone]> (conns s)) (incr64 (sv_completed s)) s)
            | None => None
            end
        | None => None
        end
      else None
  | _ => None
  end.

(** A step of the pool's own threads. Taking a task begins a connection; a task ends
    only when [serve_connection] has returned, and does not throw. *)
Definition pool_event (ev : PoolEvent Z) (s : Server) : option Server :=
  match ev with
  | EvPost _ | EvShutdown _ | EvFinish _ true => None
  | EvCheck w =>
      match pool_step ev (pool_ s) with
      | Some p =>
          Some (with_pool p (match workers_ p !! w with
                             | Some (Running _) => <[w := CTaken]> (conns s)
                             | _ => conns s
                             end) s)
      | None => None
      end
  | EvFinish w false =>
      match conns s !! w with
      | Some CDone =>
          match pool_step ev (pool_ s) with
          | Some p => Some (with_pool p (<[w := CIdle]> (conns s)) s)
          | None => None
          end
      | _ => None
      end
  | _ => match pool_step ev (pool_ s) with Some p => Some (with_pool p (conns s) s) | None => None end
  end.

(** * Interleavings *)

Inductive ServerEvent :=
| SvRequestStop
| SvPoll (r : PollResult)
| SvShutdown
| SvBegin (w : nat)
| SvEnd (w : nat) (peer_left : bool)
| SvPool (ev : PoolEvent Z).

Definition server_step (ev : ServerEvent) (s : Server) : option Server :=
  match ev with
  | SvRequestStop => Some (request_stop s)
  | SvPoll r => match phase s with Accepting => Some (poll_once r s) | _ => None end
  | SvShutdown => shutdown_step s
  | SvBegin w => serve_begin w s
  | SvEnd w peer_left => serve_end w peer_left s
  | SvPool ev => pool_event ev s
  end.

Fixpoint server_run (evs : list ServerEvent) (s : Server) : option Server :=
  match evs with
  | [] => Some s
  | ev :: evs => match server_step ev s with Some s => server_run evs s | None => None end
  end.

(** The server's own steps: nothing from outside, no peer leaving. *)
Definition own (ev : ServerEvent) : Prop :=
  match ev with
  | SvShutdown | SvBegin _ | SvEnd _ false | SvPool _ => True
  | _ => False
  end.

(** Registrations so far, an upper bound. *)
Fixpoint begins (evs : list ServerEvent) : Z :=
  match evs with
  | [] => 0
  | SvBegin _ :: evs => 1 + begins evs
  | _ :: evs => begins evs
  end.

(** * Invariant *)

Definition registry_down (ph : Phase) : Prop :=
  match ph with RegistryStopped | Joining | Returned => True | _ => False end.
Definition pool_down (ph : Phase) : Prop := match ph with Joining | Returned => True | _ => False end.

Definition is_running (x : Worker Z) : bool := match x with Running _ => true | _ => false end.
Definition is_busy (c : ConnPhase) : bool := match c with CIdle => false | _ => true end.

Record server_inv (n : Z) (s : Server) : Prop := {
  sv_pool_inv : pool_inv (pool_ s);
  sv_reg_inv : registry_inv n (registry_ s);
  sv_tasks : is_running <$> workers_ (pool_ s) = is_busy <$> conns s;
  sv_guards : forall w g, conns s !! w = Some (CServing g) -> g ∈ live (registry_ s);
  sv_distinct : forall w w' g g', conns s !! w = Some (CServing g) -> conns s !! w' = Some (CServing g') ->
    token_ g = token_ g' -> w = w';
  sv_reg_down : registry_down (phase s) -> reg_stopping_ (reg (registry_ s)) = true;
  sv_pool_down : pool_down (phase s) -> stopping_ (pool_ s) = true /\ queue_ (pool_ s) = [];
  sv_pool_up : ~ pool_down (phase s) -> stopping_ (pool_ s) = false;
  sv_joined : phase s = Returned -> all_joined (pool_ s) = true;
  sv_account : sv_accepted s = wrap 64 (sv_rejected s + posted_ (pool_ s))
}.

#[local] Ltac server_fields :=
  cbn [pool_ registry_ conns phase stop_bytes sv_accepted sv_rejected sv_completed with_phase with_pool
       with_registry drain_stop_pipe].

Lemma server_new_inv threads queue s : server_new threads queue = Some s -> server_inv 0 s.
Proof.
  unfold server_new. destruct (pool_new threads queue) as [p|] eqn:E; [|done]. intros [= <-].
  pose proof (pool_new_inv _ _ _ E) as Hp.
  assert (Hc : forall w g, replicate threads CIdle !! w <> Some (CServing g)).
  { intros w g Hw. apply lookup_replicate in Hw as [Hw _]. done. }
  unfold pool_new in E. destruct (threads =? 0)%nat, (queue =? 0)%nat; try done. injection E as <-.
  split; server_fields; try done.
  - apply registry_new_inv.
  - cbn [workers_]. by rewrite !fmap_replicate.
  - intros w g Hw. by apply Hc in Hw.
  - intros w w' g g' Hw. by apply Hc in Hw.
Qed.

(** A worker and its connection move together. *)
Lemma tasks_move (ws : list (Worker Z)) (cs : list ConnPhase) w x c :
  is_running <$> ws = is_busy <$> cs -> is_running x = is_busy c ->
  is_running <$> <[w := x]> ws = is_busy <$> <[w := c]> cs.
Proof. intros H Hx. by rewrite !list_fmap_insert, H, Hx. Qed.

Lemma tasks_keep (ws : list (Worker Z)) w x y :
  ws !! w = Some x -> is_running x = is_running y -> is_running <$> <[w := y]> ws = is_running <$> ws.
Proof.
  intros Hw Hx. rewrite list_fmap_insert, <- Hx. apply list_insert_id. by rewrite list_lookup_fmap, Hw.
Qed.

Lemma conn_keep (cs : list ConnPhase) w c c' :
  cs !! w = Some c -> is_busy c = is_busy c' -> is_busy <$> <[w := c']> cs = is_busy <$> cs.
Proof.
  intros Hw Hx. rewrite list_fmap_insert, <- Hx. apply list_insert_id. by rewrite list_lookup_fmap, Hw.
Qed.

(** The serving guards after worker [w] moved to a phase that holds none. *)
Lemma guards_after (cs : list ConnPhase) w c :
  (forall g, c <> CServing g) -> forall w' g,
  <[w := c]> cs !! w' = Some (CServing g) -> w' <> w /\ cs !! w' = Some (CServing g).
Proof.
  intros Hc w' g Hw'. apply list_lookup_insert_Some in Hw' as [(-> & Hg & _)|(Hne & Hw')]; [by apply Hc in Hg|].
  split; [congruence|done].
Qed.

(** ** Pool steps *)

(** What a step of the pool's threads does to the workers' phases. *)
Lemma pool_step_tasks (ev : PoolEvent Z) p p' :
  internal ev -> pool_step ev p = Some p' ->
  match ev with
  | EvCheck w => exists x, workers_ p !! w = Some Checking /\ workers_ p' = <[w := x]> (workers_ p)
  | EvFinish w _ => exists fd, workers_ p !! w = Some (Running fd) /\ workers_ p' = <[w := Checking]> (workers_ p)
  | _ => is_running <$> workers_ p' = is_running <$> workers_ p
  end /\
  posted_ p' = posted_ p /\ stopping_ p' = stopping_ p /\ (queue_ p = [] -> queue_ p' = []).
Proof.
  intros Hi. destruct ev as [task|policy|w|w threw|[w|]| |w]; try done; cbn.
  - destruct (workers_ p !! w) as [[]|] eqn:Hw; try done. intros [= <-]. unfold worker_check, set_worker.
    destruct (queue_ p); cbn; split_and!; try done; by eexists.
  - destruct (workers_ p !! w) as [[]|] eqn:Hw; try done. intros [= <-]. cbn. split_and!; try done. by eexists.
  - destruct (notifies p); [done|]. destruct (workers_ p !! w) as [[]|] eqn:Hw; try done. intros [= <-]. cbn.
    split_and!; try done. by apply (tasks_keep _ _ Asleep).
  - destruct (notifies p); [done|]. destruct (existsb _ _); [done|]. by intros [= <-].
  - destruct (broadcasts p); [done|]. intros [= <-]. cbn. split_and!; try done.
    induction (workers_ p) as [|x l IH]; [done|]. cbn. rewrite IH. by destruct x.
  - destruct (workers_ p !! w) as [[]|] eqn:Hw; try done. intros [= <-]. cbn.
    split_and!; try done. by apply (tasks_keep _ _ Asleep).
Qed.

(** A joined pool takes no step of its own but pending notifications. *)
Lemma joined_stays (ev : PoolEvent Z) p p' : internal ev -> pool_step ev p = Some p' -> all_joined p = true -> all_joined p' = true.
Proof.
  intros Hi Hs Hj.
  assert (Hex : forall w x, workers_ p !! w = Some x -> x = Exited).
  { intros w x Hw. unfold all_joined in Hj. rewrite forallb_forall in Hj.
    specialize (Hj x ltac:(by eapply list_elem_of_In, list_elem_of_lookup_2)). by destruct x. }
  destruct ev as [task|policy|w|w threw|[w|]| |w]; try done; cbn in Hs.
  - destruct (workers_ p !! w) as [[]|] eqn:Hw; try done. by apply Hex in Hw.
  - destruct (workers_ p !! w) as [[]|] eqn:Hw; try done. by apply Hex in Hw.
  - destruct (notifies p); [done|]. destruct (workers_ p !! w) as [[]|] eqn:Hw; try done. by apply Hex in Hw.
  - destruct (notifies p); [done|]. destruct (existsb _ _); [done|]. by injection Hs as <-.
  - destruct (broadcasts p); [done|]. injection Hs as <-. unfold all_joined in *. cbn.
    clear Hex. induction (workers_ p) as [|x l IH]; [done|]. cbn in *. destruct x; try done. by apply IH.
  - destruct (workers_ p !! w) as [[]|] eqn:Hw; try done. by apply Hex in Hw.
Qed.

(** The part of the invariant a pool step with new connection phases has to re-establish. *)
Lemma pool_event_keeps n s ev p cs :
  server_inv n s -> internal ev -> pool_step ev (pool_ s) = Some p ->
  is_running <$> workers_ p = is_busy <$> cs ->
  (forall w g, cs !! w = Some (CServing g) -> conns s !! w = Some (CServing g)) ->
  server_inv n (with_pool p cs s).
Proof.
  intros [A B C D E F G U H I] Hi Hs Ht Hg. pose proof (pool_step_inv ev _ p A Hs) as Hp.
  destruct (pool_step_tasks ev _ p Hi Hs) as (_ & Epost & Est & Eq).
  split; server_fields; try done.
  - intros w g Hw. by apply (D w), Hg.
  - intros w w' g g' Hw Hw' Htok. by apply (E w w' g g'); [apply Hg|apply Hg|].
  - intros Hph. destruct (G Hph) as [G1 G2]. rewrite Est. split; [done|by apply Eq].
  - intros Hph. rewrite Est. by apply U.
  - intros Hph. by apply (joined_stays ev (pool_ s)), H.
  - by rewrite Epost.
Qed.

Lemma pool_event_inv n ev s s' : server_inv n s -> pool_event ev s = Some s' -> server_inv n s'.
Proof.
  intros Hinv. pose proof (sv_tasks _ _ Hinv) as Ht.
  assert (Hplain : internal ev -> forall p, pool_step ev (pool_ s) = Some p ->
    is_running <$> workers_ p = is_running <$> workers_ (pool_ s) -> server_inv n (with_pool p (conns s) s)).
  { intros Hi p Hp Hr. apply (pool_event_keeps n s ev); [done|done|done|congruence|done]. }
  destruct ev as [task|policy|w|w threw|woken| |w]; cbn [pool_event]; try done.
  - destruct (pool_step (EvCheck w) (pool_ s)) as [p|] eqn:Ep; [|done]. intros [= <-].
    destruct (pool_step_tasks (EvCheck w) _ _ I Ep) as ((x & Hw & Hws) & _).
    apply (pool_event_keeps n s (EvCheck w)); [done|done|done| |].
    + rewrite Hws, list_lookup_insert_eq by (by eapply lookup_lt_Some). destruct x; try by apply tasks_move.
      all: rewrite (tasks_keep _ w Checking); done.
    + intros w' g. rewrite Hws, list_lookup_insert_eq by (by eapply lookup_lt_Some).
      destruct x; try done. intros Hg. by apply guards_after in Hg as [_ Hg].
  - destruct threw; [done|]. destruct (conns s !! w) as [[]|] eqn:Hc; try done.
    destruct (pool_step (EvFinish w false) (pool_ s)) as [p|] eqn:Ep; [|done]. intros [= <-].
    destruct (pool_step_tasks (EvFinish w false) _ _ I Ep) as ((fd & Hw & Hws) & _).
    apply (pool_event_keeps n s (EvFinish w false)); [done|done|done| |].
    + rewrite Hws. by apply tasks_move.
    + intros w' g Hg. by apply guards_after in Hg as [_ Hg].
  - destruct (pool_step _ _) as [p|] eqn:Ep; [|done]. intros [= <-].
    destruct (pool_step_tasks (EvNotifyOne woken) _ _ I Ep) as (Hr & _). by apply Hplain.
  - destruct (pool_step _ _) as [p|] eqn:Ep; [|done]. intros [= <-].
    destruct (pool_step_tasks EvNotifyAll _ _ I Ep) as (Hr & _). by apply Hplain.
  - destruct (pool_step _ _) as [p|] eqn:Ep; [|done]. intros [= <-].
    destruct (pool_step_tasks (EvSpurious w) _ _ I Ep) as (Hr & _). by apply Hplain.
Qed.

(** ** The acceptor *)

Lemma phase_inv n s ph :
  server_inv n s -> ~ registry_down ph -> ~ pool_down (phase s) -> server_inv n (with_phase ph s).
Proof.
  intros [A B C D E F G U H I] Hr Hp. split; server_fields; try done.
  - intros Hd. destruct Hr. by destruct ph.
  - intros _. by apply U.
  - intros ->. by destruct Hr.
Qed.

Lemma post_effect (fd : Z) p :
  workers_ (snd (post fd p)) = workers_ p /\ stopping_ (snd (post fd p)) = stopping_ p /\
  posted_ (snd (post fd p)) = (if bool_decide (fst (post fd p) = Accepted) then incr64 (posted_ p) else posted_ p).
Proof. unfold post. destruct (stopping_ p) eqn:E; [done|]. by destruct (_ <=? _)%nat. Qed.

Lemma accept_one_inv n fd s : server_inv n s -> phase s = Accepting -> server_inv n (accept_one fd s).
Proof.
  intros [A B C D E F G U H I] Hph. unfold accept_one. pose proof (post_inv fd _ A) as Hp.
  destruct (post_effect fd (pool_ s)) as (E1 & E2 & E3). destruct (post fd (pool_ s)) as [status p].
  cbn [fst snd] in *. split; server_fields; try done; rewrite ?Hph; try done.
  - by rewrite E1.
  - intros _. rewrite E2. apply U. rewrite Hph. by intros [].
  - rewrite I, E3. unfold incr64. destruct (bool_decide _).
    + rewrite !wrap_add_l, !wrap_add_r. f_equal. lia.
    + rewrite !wrap_add_l. f_equal. lia.
Qed.

Lemma poll_inv n r s : server_inv n s -> phase s = Accepting -> server_inv n (poll_once r s).
Proof.
  intros Hinv Hph. assert (Hnd : ~ pool_down (phase s)) by (rewrite Hph; by intros []).
  assert (Hto : forall ph, ~ registry_down ph -> server_inv n (with_phase ph s)) by (intros; by apply phase_inv).
  destruct r as [e|[[fd|e]|]]; cbn [poll_once].
  - destruct (e =? EINTR); [done|]. apply Hto. by intros [].
  - destruct (0 <? stop_bytes s).
    + pose proof (Hto StopSeen ltac:(by intros [])) as [A B C D E F G U H I]. by split.
    + by apply accept_one_inv.
  - destruct (0 <? stop_bytes s).
    + pose proof (Hto StopSeen ltac:(by intros [])) as [A B C D E F G U H I]. by split.
    + destruct (e =? ECONNABORTED); [done|]. destruct (_ || _); [done|]. apply Hto. by intros [].
  - destruct (0 <? stop_bytes s); [|done].
    pose proof (Hto StopSeen ltac:(by intros [])) as [A B C D E F G U H I]. by split.
Qed.

Lemma shutdown_effect (p : ThreadPool Z) :
  stopping_ p = false ->
  workers_ (shutdown Discard p) = workers_ p /\ posted_ (shutdown Discard p) = posted_ p /\
  stopping_ (shutdown Discard p) = true /\ queue_ (shutdown Discard p) = ([] : list Z).
Proof. intros Hs. unfold shutdown. by rewrite Hs. Qed.

Lemma shutdown_step_inv n s s' : server_inv n s -> shutdown_step s = Some s' -> server_inv n s'.
Proof.
  intros Hinv. unfold shutdown_step. destruct (phase s) eqn:Hph; try done.
  - intros [= <-]. apply phase_inv; [done|by intros []|rewrite Hph; by intros []].
  - destruct (registry_step StopAll (registry_ s)) as [r|] eqn:Er; [|done]. intros [= <-].
    destruct Hinv as [A B C D E F G U H I]. pose proof (stop_inv n _ r B Er) as Hr.
    cbn in Er. injection Er as <-. split; server_fields; try done. intros _. apply U. rewrite Hph. by intros [].
  - intros [= <-]. destruct Hinv as [A B C D E F G U H I].
    destruct (shutdown_effect (pool_ s)) as (E1 & E2 & E3 & E4); [apply U; rewrite Hph; by intros []|].
    split; server_fields; try done.
    + by apply shutdown_inv.
    + by rewrite E1.
    + intros _. apply F. by rewrite Hph.
    + by rewrite E2.
  - destruct (all_joined (pool_ s)) eqn:Ej; [|done]. intros [= <-].
    destruct Hinv as [A B C D E F G U H I]. rewrite Hph in *. split; server_fields; try done; auto.
Qed.

(** ** Connections *)

Lemma begin_inv n w s s' :
  server_inv n s -> n + 1 < 2 ^ 64 - 1 -> serve_begin w s = Some s' -> server_inv (n + 1) s'.
Proof.
  intros [A B C D E F G U H I] Hn. unfold serve_begin.
  destruct (workers_ (pool_ s) !! w) as [[| |fd|]|] eqn:Hw; try done.
  destruct (conns s !! w) as [[]|] eqn:Hc; try done.
  destruct (registry_step (GuardOpen fd) (registry_ s)) as [r|] eqn:Er; [|done].
  pose proof (open_inv n fd _ r B Hn Er) as Hr. cbn in Er.
  pose proof (ri_next _ _ B) as Hnext. pose proof (ri_tokens _ _ B) as Htok. rewrite list.Forall_forall in Htok.
  unfold guard_new, registry_add in *. destruct (reg_stopping_ (reg (registry_ s))) eqn:Es.
  - injection Er as <-. cbn [guard_ok token_ Z.eqb negb]. intros [= <-]. split; server_fields; try done.
    + rewrite C. symmetry. by apply (conn_keep _ _ CTaken).
    + intros w' g Hg. apply guards_after in Hg as [_ Hg]; [|done]. cbn. by apply (D w').
    + intros w1 w2 g1 g2 H1 H2. apply guards_after in H1 as [_ H1], H2 as [_ H2]; try done. by apply (E w1 w2 g1 g2).
  - cbn [guard_ok token_] in *. unfold guard_ok in *. cbn [token_] in *.
    rewrite (proj2 (Z.eqb_neq _ 0)) in * by lia. cbn [negb] in *. injection Er as <-. intros [= <-].
    set (g0 := MkGuard (next_token_ (reg (registry_ s))) fd) in *.
    assert (Hin : forall w' g, <[w := CServing g0]> (conns s) !! w' = Some (CServing g) ->
      (w' = w /\ g = g0) \/ (w' <> w /\ conns s !! w' = Some (CServing g) /\ token_ g <> token_ g0)).
    { intros w' g Hg. apply list_lookup_insert_Some in Hg as [(-> & Hg & _)|(Hne & Hg)].
      - left. split; [done|]. congruence.
      - right. split_and!; [congruence|done|]. apply D, Htok in Hg. cbn. lia. }
    split; server_fields; try done.
    + rewrite C. symmetry. by apply (conn_keep _ _ CTaken).
    + intros w' g Hg. apply Hin in Hg as [[_ ->]|(_ & Hg & _)]; cbn; [by left|right; by apply (D w')].
    + intros w1 w2 g1 g2 H1 H2 Ht. apply Hin in H1, H2.
      destruct H1 as [[-> ->]|(N1 & H1 & T1)], H2 as [[-> ->]|(N2 & H2 & T2)]; try done; try congruence.
      by apply (E w1 w2 g1 g2).
Qed.

Lemma end_inv n w b s s' : server_inv n s -> serve_end w b s = Some s' -> server_inv n s'.
Proof.
  intros [A B C D E F G U H I]. unfold serve_end. destruct (conns s !! w) as [[| |g|]|] eqn:Hc; try done.
  destruct (b || _); [|done]. destruct (list_find _ _) as [[i g0]|] eqn:Ef; [|done].
  apply list_find_Some in Ef as (Hi & Ht & _).
  destruct (registry_step (GuardClose i) (registry_ s)) as [r|] eqn:Er; [|done]. intros [= <-].
  pose proof (close_inv n i _ r B Er) as Hr. cbn in Er. rewrite Hi in Er. injection Er as <-.
  split; server_fields; try done.
  - rewrite C. symmetry. by apply (conn_keep _ _ (CServing g)).
  - intros w' g' Hg. apply guards_after in Hg as [Hne Hg]; [|done]. cbn.
    pose proof (D w' g' Hg) as Hin. rewrite (delete_Permutation _ _ _ Hi), elem_of_cons in Hin.
    destruct Hin as [->|Hin]; [|done]. destruct Hne. by apply (E w' w g0 g).
  - intros w1 w2 g1 g2 H1 H2. apply guards_after in H1 as [_ H1], H2 as [_ H2]; try done. by apply (E w1 w2 g1 g2).
  - intros Hd. unfold guard_drop, registry_remove. destruct (negb _); by apply F.
Qed.

Lemma server_inv_mono n n' s : n <= n' -> server_inv n s -> server_inv n' s.
Proof. intros Hn [A B C D E F G U H I]. split; try done. by apply (registry_inv_mono n). Qed.

Lemma begins_nonneg evs : 0 <= begins evs.
Proof. induction evs as [|[] evs IH]; cbn [begins]; lia. Qed.

Lemma server_step_inv n ev s s' :
  server_inv n s -> n + begins [ev] < 2 ^ 64 - 1 -> server_step ev s = Some s' -> server_inv (n + begins [ev]) s'.
Proof.
  intros Hinv Hn. destruct ev as [|r| |w|w b|ev]; cbn [server_step begins] in *; rewrite ?Z.add_0_r.
  - intros [= <-]. destruct Hinv as [A B C D E F G U H I]. by split.
  - destruct (phase s) eqn:Hph; try done. intros [= <-]. by apply poll_inv.
  - by apply shutdown_step_inv.
  - by apply begin_inv.
  - by apply end_inv.
  - by apply pool_event_inv.
Qed.

Lemma server_run_inv n evs s s' :
  server_inv n s -> n + begins evs < 2 ^ 64 - 1 -> server_run evs s = Some s' -> server_inv (n + begins evs) s'.
Proof.
  revert n s. induction evs as [|ev evs IH]; intros n s Hinv Hn; cbn [server_run].
  { intros [= <-]. cbn. by rewrite Z.add_0_r. }
  destruct (server_step ev s) as [s1|] eqn:E; [|done]. pose proof (begins_nonneg evs).
  assert (Hsplit : begins (ev :: evs) = begins [ev] + begins evs) by (destruct ev; cbn [begins]; lia).
  rewrite Hsplit, Z.add_assoc in *. apply IH; [|lia]. eapply server_step_inv; [done|lia|done].
Qed.

(** * Shutdown *)

Definition conn_weight (c : ConnPhase) : nat := match c with CTaken | CServing _ => 1 | _ => 0 end.
(** An upper bound on the server's own steps until [run] returns. *)
Definition steps_left (s : Server) : nat :=
  work_left (pool_ s) + sum_list_with conn_weight (conns s) + match phase s with Returned => 0 | _ => 1 end.

Lemma own_step_decreases n ev s s' :
  server_inv n s -> pool_down (phase s) -> own ev -> server_step ev s = Some s' ->
  pool_down (phase s') /\ (steps_left s' < steps_left s)%nat.
Proof.
  intros Hinv Hd Hown. destruct (sv_pool_down _ _ Hinv Hd) as [Hst Hq].
  assert (Hreg : reg_stopping_ (reg (registry_ s)) = true) by (apply (sv_reg_down _ _ Hinv); by destruct (phase s)).
  assert (Hpool : forall ev p cs, internal ev -> pool_step ev (pool_ s) = Some p ->
    sum_list_with conn_weight cs = sum_list_with conn_weight (conns s) ->
    pool_down (phase (with_pool p cs s)) /\ (steps_left (with_pool p cs s) < steps_left s)%nat).
  { intros ev' p cs Hi Hp Hcs. destruct (internal_step_work ev' _ p Hi Hst Hp) as [_ Hlt].
    split; [done|]. unfold steps_left. server_fields. lia. }
  unfold steps_left. destruct ev as [|r| |w|w b|ev]; try done; cbn [server_step].
  - unfold shutdown_step. destruct (phase s) eqn:Hph; try done. destruct (all_joined (pool_ s)); [|done].
    intros [= <-]. server_fields. split; [done|]. lia.
  - unfold serve_begin. destruct (workers_ (pool_ s) !! w) as [[| |fd|]|]; try done.
    destruct (conns s !! w) as [[]|] eqn:Hc; try done. cbn [registry_step].
    unfold guard_new, registry_add. rewrite Hreg. cbn [guard_ok token_ Z.eqb negb]. intros [= <-]. server_fields.
    split; [done|]. pose proof (sum_insert conn_weight (conns s) w CTaken CDone Hc) as Hm. cbn in Hm. lia.
  - destruct b; [done|]. unfold serve_end. destruct (conns s !! w) as [[| |g|]|] eqn:Hc; try done.
    destruct (false || _); [|done]. destruct (list_find _ _) as [[i g0]|]; [|done].
    destruct (registry_step _ _) as [r|]; [|done]. intros [= <-]. server_fields. split; [done|].
    pose proof (sum_insert conn_weight (conns s) w (CServing g) CDone Hc) as Hm. cbn in Hm. lia.
  - destruct ev as [task|policy|w|w threw|woken| |w]; cbn [pool_event]; try done.
    + destruct (pool_step (EvCheck w) (pool_ s)) as [p|] eqn:Ep; [|done]. intros [= <-].
      apply (Hpool (EvCheck w)); [done|done|]. cbn in Ep.
      destruct (workers_ (pool_ s) !! w) as [[]|] eqn:Hw; try done. injection Ep as <-.
      unfold worker_check, set_worker. rewrite Hq, Hst. cbn [workers_].
      by rewrite list_lookup_insert_eq by (by eapply lookup_lt_Some).
    + destruct threw; [done|]. destruct (conns s !! w) as [[]|] eqn:Hc; try done.
      destruct (pool_step (EvFinish w false) (pool_ s)) as [p|] eqn:Ep; [|done]. intros [= <-].
      apply (Hpool (EvFinish w false)); [done|done|].
      pose proof (sum_insert conn_weight (conns s) w CDone CIdle Hc) as Hm. cbn in Hm. lia.
    + destruct (pool_step _ _) as [p|] eqn:Ep; [|done]. intros [= <-]. by apply (Hpool (EvNotifyOne woken)).
    + destruct (pool_step _ _) as [p|] eqn:Ep; [|done]. intros [= <-]. by apply (Hpool EvNotifyAll).
    + destruct (pool_step _ _) as [p|] eqn:Ep; [|done]. intros [= <-]. by apply (Hpool (EvSpurious w)).
Qed.

(** A connection still served has had its socket shut down, so its worker can end it. *)
Lemma serving_can_end n s w g :
  server_inv n s -> registry_down (phase s) -> conns s !! w = Some (CServing g) ->
  exists s', server_step (SvEnd w false) s = Some s'.
Proof.
  intros Hinv Hd Hc. pose proof (sv_guards _ _ Hinv w g Hc) as Hin.
  pose proof (ri_broken _ _ (sv_reg_inv _ _ Hinv) (sv_reg_down _ _ Hinv Hd)) as Hb.
  rewrite list.Forall_forall in Hb. specialize (Hb g Hin). cbn [server_step]. unfold serve_end. rewrite Hc.
  rewrite (bool_decide_true _ Hb). cbn [orb].
  destruct (list_find_elem_of (fun g' => token_ g' = token_ g) _ _ Hin eq_refl) as [[i g0] Hf]. rewrite Hf.
  apply list_find_Some in Hf as (Hi & _ & _). cbn [registry_step]. rewrite Hi. by eexists.
Qed.

(** A worker with a connection can take its next step. *)
Lemma running_can_step n s w fd :
  server_inv n s -> phase s = Joining -> workers_ (pool_ s) !! w = Some (Running fd) ->
  exists ev s', own ev /\ server_step ev s = Some s'.
Proof.
  intros Hinv Hph Hw. assert (Hb : (is_busy <$> conns s) !! w = Some true)
    by (rewrite <- (sv_tasks _ _ Hinv), list_lookup_fmap, Hw; done).
  rewrite list_lookup_fmap in Hb. destruct (conns s !! w) as [[| |g|]|] eqn:Hc; try done.
  - exists (SvBegin w). cbn [server_step]. unfold serve_begin. rewrite Hw, Hc. cbn [registry_step].
    destruct (guard_new fd _). by eexists.
  - destruct (serving_can_end n s w g Hinv) as [s' Hs']; [by rewrite Hph|done|]. by exists (SvEnd w false), s'.
  - exists (SvPool (EvFinish w false)). cbn [server_step pool_event pool_step]. rewrite Hc, Hw. by eexists.
Qed.

Lemma joining_progress n s :
  server_inv n s -> phase s = Joining -> exists ev s', own ev /\ server_step ev s = Some s'.
Proof.
  intros Hinv Hph. destruct (all_joined (pool_ s)) eqn:Ej.
  { exists SvShutdown. cbn [server_step]. unfold shutdown_step. rewrite Hph, Ej. by eexists. }
  destruct (sv_pool_down _ _ Hinv) as [Hst _]; [by rewrite Hph|].
  destruct (pool_progress (pool_ s) (sv_pool_inv _ _ Hinv)) as (ev & p & Hi & _ & Hp); [by right|].
  destruct ev as [task|policy|w|w threw|woken| |w]; try done.
  - exists (SvPool (EvCheck w)). cbn [server_step pool_event]. rewrite Hp. by eexists.
  - cbn in Hp. destruct (workers_ (pool_ s) !! w) as [[| |fd|]|] eqn:Hw; try done.
    by apply (running_can_step n s w fd).
  - exists (SvPool (EvNotifyOne woken)). cbn [server_step pool_event]. rewrite Hp. by eexists.
  - exists (SvPool EvNotifyAll). cbn [server_step pool_event]. rewrite Hp. by eexists.
  - exists (SvPool (EvSpurious w)). cbn [server_step pool_event]. rewrite Hp. by eexists.
Qed.

Lemma own_run_bounded n evs s s' :
  server_inv n s -> pool_down (phase s) -> Forall own evs -> n + begins evs < 2 ^ 64 - 1 ->
  server_run evs s = Some s' ->
  pool_down (phase s') /\ (length evs + steps_left s' <= steps_left s)%nat.
Proof.
  intros Hinv Hd Hown. revert n s Hinv Hd. induction Hown as [|ev evs Hev _ IH]; intros n s Hinv Hd Hn; cbn [server_run].
  { intros [= <-]. split; [done|]. cbn [length]. lia. }
  destruct (server_step ev s) as [s1|] eqn:E; [|done]. intros Hr. pose proof (begins_nonneg evs).
  assert (Hsplit : begins (ev :: evs) = begins [ev] + begins evs) by (destruct ev; cbn [begins]; lia).
  destruct (own_step_decreases n ev s s1 Hinv Hd Hev E) as [Hd1 Hlt].
  destruct (IH (n + begins [ev]) s1) as [Hd' Hle]; [eapply server_step_inv; [done|lia|done]|done|lia|done|].
  split; [done|]. cbn [length]. lia.
Qed.

(** * Claims *)

(** C23: a daemon asked to stop does stop. Take any interleaving of clients, workers and
    signals that has brought [run] to joining its workers (with fewer than 2^64 - 1
    connections registered). From there the server's own threads take at most
    [steps_left] steps, and until [run] has returned some thread can take one without
    any peer hanging up: connections still being served have had their sockets shut
    down, queued ones were discarded, and one just taken is refused. When it returns
    every worker is gone. *)
Theorem shutdown_returns threads queue s0 evs s evs' s' :
  server_new threads queue = Some s0 -> server_run evs s0 = Some s -> phase s = Joining ->
  Forall own evs' -> server_run evs' s = Some s' -> begins evs + begins evs' < 2 ^ 64 - 1 ->
  (length evs' <= steps_left s)%nat /\
  (phase s' = Joining -> exists ev s'', own ev /\ server_step ev s' = Some s'') /\
  (phase s' <> Joining -> phase s' = Returned /\ all_joined (pool_ s') = true).
Proof.
  intros Hnew Hrun Hph Hown Hrun' Hn. pose proof (begins_nonneg evs). pose proof (begins_nonneg evs').
  pose proof (server_run_inv 0 evs s0 s (server_new_inv _ _ _ Hnew) ltac:(lia) Hrun) as Hinv.
  pose proof (server_run_inv _ evs' s s' Hinv ltac:(lia) Hrun') as Hinv'.
  assert (Hd : pool_down (phase s)) by (by rewrite Hph).
  destruct (own_run_bounded _ evs' s s' Hinv Hd Hown ltac:(lia) Hrun') as [Hd' Hle]. split_and!; [lia| |].
  - by apply (joining_progress _ s' Hinv').
  - intros Hne. assert (Hr : phase s' = Returned) by (by destruct (phase s')). split; [done|].
    by apply (sv_joined _ _ Hinv').
Qed.

(** Every accepted connection is accounted for: at any moment the accepted ones
    are, modulo 2^64, those refused and those handed to the pool; every connection being
    served is registered under a token of its own, and once the registry is stopped
    its socket has been shut down. *)
Theorem connections_accounted threads queue s0 evs s :
  server_new threads queue = Some s0 -> server_run evs s0 = Some s -> begins evs < 2 ^ 64 - 1 ->
  ss_accepted (server_stats s) = wrap 64 (ss_rejected (server_stats s) + pm_posted (pool_metrics (pool_ s))) /\
  (forall w g, conns s !! w = Some (CServing g) ->
     connections_ (reg (registry_ s)) !! token_ g = Some (guarded_fd g) /\
     (registry_stopping (reg (registry_ s)) = true -> guarded_fd g ∈ broken (registry_ s)) /\
     forall w' g', conns s !! w' = Some (CServing g') -> token_ g' = token_ g -> w' = w).
Proof.
  intros Hnew Hrun Hn. pose proof (server_run_inv 0 evs s0 s (server_new_inv _ _ _ Hnew) ltac:(lia) Hrun) as Hinv.
  destruct Hinv as [A B C D E F G U H I]. split; [done|]. intros w g Hw. pose proof (D w g Hw) as Hin.
  split_and!.
  - apply (ri_live _ _ B). by destruct g.
  - intros Hs. pose proof (ri_broken _ _ B Hs) as Hb. rewrite list.Forall_forall in Hb. by apply Hb.
  - intros w' g' Hw' Ht. by apply (E w' w g' g).
Qed.

(** * Witnesses *)

(** One worker: connection 5 is being served and 6 is queued when the stop arrives
    together with connection 7. *)
Definition server_trace : list ServerEvent :=
  [SvPool (EvCheck 0); SvPoll (PollReady (Some (inl 5))); SvPool (EvNotifyOne (Some 0%nat)); SvPool (EvCheck 0);
   SvBegin 0; SvPoll (PollReady (Some (inl 6))); SvRequestStop; SvPoll (PollReady (Some (inl 7)));
   SvShutdown; SvShutdown; SvShutdown].
Definition server_exit : list ServerEvent :=
  [SvPool EvNotifyAll; SvEnd 0 false; SvPool (EvFinish 0 false); SvPool (EvNotifyOne None); SvPool (EvCheck 0);
   SvShutdown].

Definition server_start : Server :=
  MkServer (MkPool [] false 2 0 0 0 0 [Checking] 0 0 [] [] []) (MkRegState registry_new [] []) [CIdle] Accepting 0 0 0 0.
Definition server_at (evs : list ServerEvent) : Server := default server_start (server_run evs server_start).

Example server_stopped :
  option_map (fun s => (phase s, server_stats s, broken (registry_ s)))
    (server_run (server_trace ++ server_exit) server_start) = Some (Returned, MkServerStats 2 0 1, [5]).
Proof. vm_compute. reflexivity. Qed.

Lemma shutdown_returns_witness :
  phase (server_at server_trace) = Joining /\ (length server_exit <= steps_left (server_at server_trace))%nat.
Proof.
  split; [vm_compute; reflexivity|].
  refine (proj1 (shutdown_returns 1 2 server_start server_trace (server_at server_trace) server_exit
    (default server_start (server_run server_exit (server_at server_trace))) _ _ _ _ _ _));
    [vm_compute; reflexivity|vm_compute; reflexivity|vm_compute; reflexivity|repeat constructor|
     vm_compute; reflexivity|vm_compute; reflexivity].
Defined.

Lemma connections_accounted_witness :
  ss_accepted (server_stats (server_at server_trace)) =
  wrap 64 (ss_rejected (server_stats (server_at server_trace)) +
    pm_posted (pool_metrics (pool_ (server_at server_trace)))).
Proof.
  refine (proj1 (connections_accounted 1 2 server_start server_trace (server_at server_trace) _ _ _));
    [vm_compute; reflexivity|vm_compute; reflexivity|vm_compute; reflexivity].
Defined.
