(* ===== verification/Serve.v ===== *)
(** The connection loop ([Server::serve_connection], src/daemon/server.cpp).

    A worker owns one stream: it reads a frame, decodes it, hands the request to the
    shared handler and writes the answer, until the peer leaves, the stream stops being
    made of frames and messages, or a write fails. It is written against the [Codec]
    interface.

    While one connection is being served the other workers use the same handler:
    [others i] is whatever they do to it before this connection's [i]-th message is
    handled, and [clock i] is the clock's reading for that message.

    The theorem is a refinement: whatever bytes the peer sends, in whatever chunks, the
    loop ends and has sent the frames of exactly the answers of [answers], a plain
    recursion over the list of frames the bytes consist of. *)
From stdpp Require Import base option list gmap numbers.
From S2P Require Import Prelude Binary64 Item Message Wire Codec Io Framing.
From S2P Require Import BinaryCodec LruCache ExposureStore Scorer Handler Responses ConnectionRegistry.

(** * Definitions *)

(** Why a connection was left. *)
Inductive ConnEnd :=
| EndPeerClosed
| EndFrame (status : FrameStatus)
| EndDecode (error : DecodeError)
| EndWrite (status : FrameStatus).

(** The loop's locals. *)
Record Conn := MkConn {
  stream : UnixStream;
  request_body : ByteBuffer;
  response_body : ByteBuffer;
  served : Z
}.

Section Serve.
Context {C : Codec}.
Variables (std_exp : double -> double) (std_pow : double -> double -> double).
Variables (std_log : double -> double) (llround_unrepresentable : double -> Z).
#[local] Abbreviation handle := (handle std_exp std_pow std_log llround_unrepresentable).
Variables (clock : nat -> Timestamp) (others : nat -> Handler -> Handler).

(** One iteration; [None] is "go round again". *)
Definition serve_step (i : nat) (c : Conn) (h : Handler) : option ConnEnd * Conn * Handler :=
  let '(frame, s, body) := read_frame (stream c) (request_body c) in
  if decide (f_status frame = Fs_PeerClosed) then
    (Some EndPeerClosed, MkConn s body (response_body c) (served c), h)
  else if negb (frame_ok frame) then
    (Some (EndFrame (f_status frame)), MkConn s body (response_body c) (served c), h)
  else
    let '(error, request) := decode_request body default_request in
    if decide (error = DE_None) then
      let '(response, h) := handle (clock i) request (others i h) in
      let '(result, s, scratch) := write_message s (encode_response response) (response_body c) in
      if negb (frame_ok result) then
        (Some (EndWrite (f_status result)), MkConn s body scratch (served c), h)
      else (None, MkConn s body scratch (incr64 (served c)), h)
    else if decide (error = DE_FieldTooLarge) then
      let rejection := make_error (req_id request) SC_InvalidRequest (decode_error_to_string error) in
      let '(result, s, scratch) := write_message s (encode_response rejection) (response_body c) in
      if negb (frame_ok result) then
        (Some (EndWrite (f_status result)), MkConn s body scratch (served c), h)
      else (None, MkConn s body scratch (served c), h)
    else (Some (EndDecode error), MkConn s body (response_body c) (served c), h).

(** [None]: out of fuel. *)
Fixpoint serve_loop (fuel i : nat) (c : Conn) (h : Handler) : option (ConnEnd * Conn * Handler) :=
  match fuel with
  | O => None
  | S fuel =>
      match serve_step i c h with
      | (None, c, h) => serve_loop fuel (S i) c h
      | (Some e, c, h) => Some (e, c, h)
      end
  end.

(** Every iteration that goes round again takes at least five bytes off the stream, so
    this fuel is enough. [registry_others] is what other connections do to the registry
    while this one is served. *)
Definition serve_connection (fd : Z) (s : UnixStream) (registry_others : ConnectionRegistry -> ConnectionRegistry)
    (r : ConnectionRegistry) (completed : Z) (h : Handler)
    : option (option ConnEnd * UnixStream * ConnectionRegistry * Z * Handler) :=
  let '(guard, r) := guard_new fd r in
  if negb (guard_ok guard) then Some (None, s, r, completed, h)
  else
    match serve_loop (S (length (pending (rx s)))) 0 (MkConn s [] [] 0) h with
    | None => None
    | Some (e, c, h) => Some (Some e, stream c, guard_drop guard (registry_others r), incr64 completed, h)
    end.

(** * Specification *)

(** The first frame of a byte string, and what follows it. *)
Definition next_frame (bytes : ByteBuffer) : option (ByteBuffer * ByteBuffer) :=
  if (length bytes <? 4)%nat then None
  else
    let size := load_be_u32 (take 4 bytes) in
    if negb (size_in_range size) then None
    else if (length (drop 4 bytes) <? Z.to_nat size)%nat then None
    else Some (take (Z.to_nat size) (drop 4 bytes), drop (Z.to_nat size) (drop 4 bytes)).

Fixpoint split_frames (fuel : nat) (bytes : ByteBuffer) : list ByteBuffer :=
  match fuel with
  | O => []
  | S fuel =>
      match next_frame bytes with
      | Some (payload, rest) => payload :: split_frames fuel rest
      | None => []
      end
  end.
Definition frames_of (bytes : ByteBuffer) : list ByteBuffer := split_frames (length bytes) bytes.

Definition sendable (r : Response) : bool := size_in_range (zlen (encode_response r [])).

(** One message: the answer, whether it goes on, and the handler after. *)
Definition answer (i : nat) (body : ByteBuffer) (h : Handler) : option Response * Handler :=
  let '(error, request) := decode_request body default_request in
  match error with
  | DE_None => let '(r, h) := handle (clock i) request (others i h) in (Some r, h)
  | DE_FieldTooLarge =>
      (Some (make_error (req_id request) SC_InvalidRequest (decode_error_to_string error)), h)
  | _ => (None, h)
  end.

Fixpoint answers (i : nat) (bodies : list ByteBuffer) (h : Handler) : list Response * Handler :=
  match bodies with
  | [] => ([], h)
  | body :: bodies =>
      match answer i body h with
      | (Some r, h) =>
          if sendable r then let '(rs, h) := answers (S i) bodies h in (r :: rs, h) else ([], h)
      | (None, h) => ([], h)
      end
  end.

(** The same over requests: what the handler says to each, in order. *)
Fixpoint replies (i : nat) (reqs : list Request) (h : Handler) : list Response * Handler :=
  match reqs with
  | [] => ([], h)
  | request :: reqs =>
      let '(r, h) := handle (clock i) request (others i h) in
      let '(rs, h) := replies (S i) reqs h in (r :: rs, h)
  end.

Definition response_frames (rs : list Response) : ByteBuffer :=
  concat (map (fun r => frame_bytes (encode_response r [])) rs).
End Serve.

(** * Frames in a byte string *)

Lemma next_frame_some bytes payload rest :
  next_frame bytes = Some (payload, rest) ->
  size_in_range (zlen payload) = true /\ bytes = frame_bytes payload ++ rest.
Proof.
  unfold next_frame. destruct (Nat.ltb_spec (length bytes) 4) as [|Hl]; [done|].
  assert (Ht : length (take 4 bytes) = 4%nat) by (rewrite length_take; lia).
  set (size := load_be_u32 (take 4 bytes)).
  destruct (size_in_range size) eqn:Hr; [|done]. cbn [negb].
  destruct (Nat.ltb_spec (length (drop 4 bytes)) (Z.to_nat size)) as [|Hd]; [done|]. intros [= <- <-].
  pose proof (in_range_fits _ Hr) as Hfit. unfold fits in Hfit.
  assert (Hz : zlen (take (Z.to_nat size) (drop 4 bytes)) = size)
    by (unfold zlen; rewrite length_take; lia).
  rewrite Hz. split; [done|]. unfold frame_bytes. rewrite Hz, <- app_assoc, take_drop.
  unfold size, load_be_u32. rewrite load_be_val by lia.
  change kLengthPrefixSize with 4%nat. rewrite <- Ht at 1. by rewrite be_bytes_be_val, take_drop.
Qed.

Lemma next_frame_shrinks bytes payload rest :
  next_frame bytes = Some (payload, rest) -> (length rest < length bytes)%nat.
Proof.
  intros [_ ->]%next_frame_some. unfold frame_bytes. rewrite !length_app, length_be_bytes.
  unfold kLengthPrefixSize. lia.
Qed.

Lemma next_frame_none s body :
  next_frame (pending (rx s)) = None -> frame_ok (fst (fst (read_frame s body))) = false.
Proof.
  unfold next_frame. destruct (Nat.ltb_spec (length (pending (rx s))) 4) as [Hl|Hl]; intros H.
  - destruct (read_frame_no_prefix s body Hl) as (s' & ->). cbn [fst].
    pose proof (ending_not_ok (rx s)). unfold from_io, frame_ok. cbn [io_status].
    destruct (fst (ending (rx s))); try done. by destruct (_ =? _)%nat.
  - destruct (read_frame_prefix s body (take 4 (pending (rx s))) (drop 4 (pending (rx s))))
      as (s1 & Hp1 & He1 & ->); [rewrite length_take; lia|by rewrite take_drop|].
    destruct (size_in_range _); cbn [negb] in *; [|done].
    destruct (Nat.ltb_spec (length (drop 4 (pending (rx s)))) (Z.to_nat (load_be_u32 (take 4 (pending (rx s))))))
      as [Hd|]; [|done].
    destruct (read_exact_short s1 (resize (Z.to_nat (load_be_u32 (take 4 (pending (rx s))))) body))
      as (s2 & -> & _); [by rewrite length_resize, Hp1|].
    pose proof (ending_not_ok (rx s1)). unfold io_ok, from_io. cbn [io_status].
    destruct (fst (ending (rx s1))); try done. cbn. by destruct (_ =? _)%nat.
Qed.

(** More fuel than bytes changes nothing. *)
Lemma split_frames_fuel fuel fuel' bytes :
  (length bytes <= fuel)%nat -> (length bytes <= fuel')%nat -> split_frames fuel bytes = split_frames fuel' bytes.
Proof.
  revert fuel' bytes. induction fuel as [|fuel IH]; intros fuel' bytes H H'.
  - destruct bytes; [|cbn in H; lia]. by destruct fuel'.
  - destruct fuel' as [|fuel']; [destruct bytes; [done|cbn in H'; lia]|]. cbn [split_frames].
    destruct (next_frame bytes) as [[payload rest]|] eqn:E; [|done]. f_equal.
    apply next_frame_shrinks in E. apply IH; lia.
Qed.

Lemma frames_of_eq bytes :
  frames_of bytes =
  match next_frame bytes with Some (payload, rest) => payload :: frames_of rest | None => [] end.
Proof.
  unfold frames_of. destruct (length bytes) as [|n] eqn:El.
  { by destruct bytes. }
  cbn [split_frames]. destruct (next_frame bytes) as [[payload rest]|] eqn:E; [|done]. f_equal.
  apply next_frame_shrinks in E. apply split_frames_fuel; lia.
Qed.

Lemma length_frames_of bytes : (length (frames_of bytes) <= length bytes)%nat.
Proof.
  unfold frames_of. generalize (length bytes) at 1 as fuel. intros fuel. revert bytes.
  induction fuel as [|fuel IH]; intros bytes; cbn [split_frames]; [cbn; lia|].
  destruct (next_frame bytes) as [[payload rest]|] eqn:E; [|cbn; lia].
  apply next_frame_shrinks in E. specialize (IH rest). cbn [length]. lia.
Qed.

Lemma next_frame_frame b rest :
  size_in_range (zlen b) = true -> next_frame (frame_bytes b ++ rest) = Some (b, rest).
Proof.
  intros Hb. pose proof (in_range_fits _ Hb) as Hfit. unfold next_frame, frame_bytes. rewrite <- app_assoc.
  set (prefix := be_bytes kLengthPrefixSize (zlen b)).
  assert (Hp : length prefix = 4%nat) by apply length_be_bytes.
  assert (Hv : load_be_u32 prefix = zlen b) by (by apply load_be_u32_be).
  rewrite length_app, Hp, take_app_le, (take_ge prefix), drop_app_ge, Hp, drop_0, Hv, Hb by lia.
  assert (HN : Z.to_nat (zlen b) = length b) by (unfold zlen; lia). rewrite HN.
  rewrite (proj2 (Nat.ltb_ge _ _)) by lia. cbn [negb].
  rewrite (proj2 (Nat.ltb_ge _ _)) by (rewrite length_app; lia).
  by rewrite take_app_length, drop_app_length.
Qed.

(** A stream whose bytes are whole frames and then stop. *)
Lemma frames_of_frames bodies :
  Forall (fun b => size_in_range (zlen b) = true) bodies ->
  frames_of (concat (map frame_bytes bodies)) = bodies.
Proof.
  induction 1 as [|b bodies Hb _ IH]; [done|]. cbn [map concat].
  by rewrite frames_of_eq, next_frame_frame, IH.
Qed.

(** * Kernels that lose nothing *)

(** A send script that may interrupt and may take the bytes piecemeal, but never fails. *)
Definition lossless (script : list SendEvent) : Prop :=
  Forall (fun ev => match ev with SAccept n => (0 < n)%nat | SErr e => e = EINTR end) script.

Lemma write_all_loop_lossless script done size :
  lossless script -> (done <= size)%nat ->
  io_ok (fst (write_all_loop script done size)) = true /\ lossless (snd (write_all_loop script done size)).
Proof.
  unfold lossless. intros Hs. revert done. induction Hs as [|ev script Hev Hs IH]; intros k Hk; cbn [write_all_loop].
  { by destruct (size <=? k)%nat. }
  destruct (Nat.leb_spec size k); [cbn; split; [done|by constructor]|]. destruct ev as [n|e].
  - rewrite (proj2 (Nat.ltb_lt 0 n)) by done. apply IH. lia.
  - subst e. apply IH. lia.
Qed.

Lemma write_frame_lossless s body :
  lossless (tx s) -> size_in_range (zlen body) = true ->
  exists s', write_frame s body = (MkFrame Fs_Ok 0 (zlen body), s') /\
    lossless (tx s') /\ rx s' = rx s /\ sent s' = sent s ++ frame_bytes body.
Proof.
  intros Hl Hr. destruct (write_frame s body) as [r s'] eqn:E.
  assert (Hok : r = MkFrame Fs_Ok 0 (zlen body) /\ lossless (tx s')).
  { unfold write_frame in E. rewrite Hr in E. cbn [negb] in E.
    rewrite (wrap_small 32) in E by (by apply in_range_fits).
    unfold write_all in E.
    destruct (write_all_loop_lossless (tx s) 0 (length (append_be kLengthPrefixSize (zlen body) [] ++ body)) Hl)
      as [Ho Hx]; [lia|].
    destruct (write_all_loop _ _ _) as [io sc]. injection E as <- <-. cbn in Ho, Hx.
    split; [|done]. unfold io_ok in Ho. unfold from_io. by destruct (io_status io). }
  destruct Hok as [-> Hx]. destruct (write_frame_sent _ _ _ _ E eq_refl) as (_ & Hs & Hrx).
  by exists s'.
Qed.

Lemma write_frame_oversized s body :
  size_in_range (zlen body) = false ->
  write_frame s body = (MkFrame Fs_Oversized 0 (wrap 32 (zlen body)), s).
Proof. intros Hr. unfold write_frame. by rewrite Hr. Qed.

Lemma read_exact_keeps s buffer r s' b :
  read_exact s buffer = (r, s', b) -> tx s' = tx s /\ sent s' = sent s.
Proof. unfold read_exact. destruct (read_exact_loop _ _ _) as [[? ?] ?]. by intros [= <- <- <-]. Qed.

Lemma read_frame_keeps s body : let '(r, s', b) := read_frame s body in tx s' = tx s /\ sent s' = sent s.
Proof.
  unfold read_frame. destruct (read_exact s _) as [[h s1] p] eqn:E1. apply read_exact_keeps in E1 as [T1 S1].
  destruct (io_ok h); [|done]. destruct (size_in_range _); [|done]. cbn [negb].
  destruct (read_exact s1 _) as [[b s2] q] eqn:E2. apply read_exact_keeps in E2 as [T2 S2].
  destruct (io_ok b); cbn [negb]; (split; congruence).
Qed.

(** * The refinement *)

Section Refines.
Context {C : Codec} {L : CodecLaws C}.
Variables (std_exp : double -> double) (std_pow : double -> double -> double).
Variables (std_log : double -> double) (llround_unrepresentable : double -> Z).
Variables (clock : nat -> Timestamp) (others : nat -> Handler -> Handler).
#[local] Abbreviation serve_step := (serve_step std_exp std_pow std_log llround_unrepresentable clock others).
#[local] Abbreviation serve_loop := (serve_loop std_exp std_pow std_log llround_unrepresentable clock others).
#[local] Abbreviation answer := (answer std_exp std_pow std_log llround_unrepresentable clock others).
#[local] Abbreviation answers := (answers std_exp std_pow std_log llround_unrepresentable clock others).

(** Writing a response through a kernel that loses nothing: it goes out as one frame,
    or, too large for a frame, not at all. *)
Lemma write_response s r scratch :
  lossless (tx s) ->
  if sendable r
  then exists res s' buf, write_message s (encode_response r) scratch = (res, s', buf) /\
    frame_ok res = true /\ lossless (tx s') /\ rx s' = rx s /\ sent s' = sent s ++ response_frames [r]
  else exists res buf, write_message s (encode_response r) scratch = (res, s, buf) /\ frame_ok res = false.
Proof.
  intros Hl. rewrite write_message_frame by (intros; apply encode_response_app). unfold sendable.
  destruct (size_in_range _) eqn:Hr.
  - destruct (write_frame_lossless s _ Hl Hr) as (s' & -> & Hx & Hrx & Hs).
    do 3 eexists. split_and!; [done|done|done|done|]. unfold response_frames. cbn. by rewrite app_nil_r.
  - rewrite write_frame_oversized by done. by do 2 eexists.
Qed.

(** One iteration on a whole frame. *)
Lemma serve_step_frame i c h payload rest :
  lossless (tx (stream c)) -> next_frame (pending (rx (stream c))) = Some (payload, rest) ->
  let '(e, c', h') := serve_step i c h in
  h' = snd (answer i payload h) /\
  match fst (answer i payload h) with
  | Some r =>
      if sendable r then e = None /\ lossless (tx (stream c')) /\ pending (rx (stream c')) = rest /\
        sent (stream c') = sent (stream c) ++ response_frames [r]
      else e <> None /\ sent (stream c') = sent (stream c)
  | None => e <> None /\ sent (stream c') = sent (stream c)
  end.
Proof.
  intros Hl Hn. apply next_frame_some in Hn as [Hr Hp]. unfold serve_step, answer.
  destruct (read_frame_spec (stream c) (request_body c) payload rest Hr Hp)
    as (s1 & -> & Hp1 & _ & Ht1 & Hs1). rewrite decide_False by done.
  change (frame_ok (MkFrame Fs_Ok 0 (zlen payload))) with true. cbn [negb].
  destruct (decode_request payload default_request) as [error request].
  rewrite <- Ht1 in Hl. rewrite <- Hs1.
  destruct (decide (error = DE_None)) as [->|Hne]; [|destruct (decide (error = DE_FieldTooLarge)) as [->|Hne']].
  - destruct (handle _ _ _ _ _ _ _) as [r h1]. cbn [fst snd].
    pose proof (write_response s1 r (response_body c) Hl) as Hw. destruct (sendable r).
    + destruct Hw as (res & s2 & buf & -> & -> & Hx & Hrx & Hs). cbn [stream negb]. split_and!; try done; congruence.
    + destruct Hw as (res & buf & -> & ->). done.
  - cbn [fst snd]. set (r := make_error _ _ _).
    pose proof (write_response s1 r (response_body c) Hl) as Hw. destruct (sendable r).
    + destruct Hw as (res & s2 & buf & -> & -> & Hx & Hrx & Hs). cbn [stream negb]. split_and!; try done; congruence.
    + destruct Hw as (res & buf & -> & ->). done.
  - by destruct error.
Qed.

Lemma serve_step_end i c h :
  next_frame (pending (rx (stream c))) = None ->
  exists e c', serve_step i c h = (Some e, c', h) /\ sent (stream c') = sent (stream c).
Proof.
  intros Hn. pose proof (next_frame_none (stream c) (request_body c) Hn) as Hf.
  pose proof (read_frame_keeps (stream c) (request_body c)) as Hk. unfold serve_step.
  destruct (read_frame _ _) as [[frame s] body]. cbn [fst] in Hf. destruct Hk as [_ Hs].
  destruct (decide _); [by do 2 eexists|]. rewrite Hf. by do 2 eexists.
Qed.

Lemma response_frames_cons r rs : response_frames (r :: rs) = response_frames [r] ++ response_frames rs.
Proof. unfold response_frames. cbn. by rewrite app_nil_r. Qed.

Lemma serve_loop_refines fuel i c h :
  lossless (tx (stream c)) -> (length (frames_of (pending (rx (stream c)))) < fuel)%nat ->
  exists e c',
    serve_loop fuel i c h = Some (e, c', snd (answers i (frames_of (pending (rx (stream c)))) h)) /\
    sent (stream c') = sent (stream c) ++
      response_frames (fst (answers i (frames_of (pending (rx (stream c)))) h)).
Proof.
  revert i c h. induction fuel as [|fuel IH]; intros i c h Hl Hf; [lia|]. cbn [serve_loop].
  rewrite frames_of_eq in *. destruct (next_frame (pending (rx (stream c)))) as [[payload rest]|] eqn:En.
  - pose proof (serve_step_frame i c h payload rest Hl En) as Hstep. cbn [answers].
    destruct (serve_step i c h) as [[e c1] h1]. destruct Hstep as [-> Hstep].
    destruct (answer i payload h) as [[r|] h2]; cbn [fst snd] in *.
    + destruct (sendable r).
      * destruct Hstep as (-> & Hl1 & Hp1 & Hs1). cbn [length] in Hf.
        destruct (IH (S i) c1 h2 Hl1) as (e & c2 & E & Hs2); [rewrite Hp1; lia|]. rewrite Hp1 in *.
        destruct (answers (S i) (frames_of rest) h2) as [rs h3]. cbn [fst snd] in *.
        exists e, c2. split; [done|]. by rewrite Hs2, Hs1, (response_frames_cons r rs), app_assoc.
      * destruct Hstep as [He Hs]. destruct e as [e|]; [|done]. exists e, c1. by rewrite app_nil_r.
    + destruct Hstep as [He Hs]. destruct e as [e|]; [|done]. exists e, c1. by rewrite app_nil_r.
  - destruct (serve_step_end i c h En) as (e & c' & -> & Hs). exists e, c'. cbn. by rewrite app_nil_r.
Qed.

Lemma connection_outcome fd s registry_others r completed h :
  lossless (tx s) -> registry_stopping r = false -> next_token_ r <> 0 ->
  exists e s' r',
    serve_connection std_exp std_pow std_log llround_unrepresentable clock others fd s registry_others r completed h =
      Some (Some e, s', r', incr64 completed, snd (answers 0 (frames_of (pending (rx s))) h)) /\
    sent s' = sent s ++ response_frames (fst (answers 0 (frames_of (pending (rx s))) h)).
Proof.
  intros Hl Hs Ht. unfold serve_connection, guard_new, registry_add, guard_ok.
  unfold registry_stopping in Hs. rewrite Hs. cbn [token_]. rewrite (proj2 (Z.eqb_neq _ 0)) by done. cbn [negb].
  destruct (serve_loop_refines (S (length (pending (rx s)))) 0 (MkConn s [] [] 0) h) as (e & c' & -> & Hsent).
  { done. }
  { cbn [stream]. pose proof (length_frames_of (pending (rx s))). lia. }
  do 3 eexists. split; [done|]. done.
Qed.

(** ** Claim *)

(** A connection is served as a plain list of messages. Whatever bytes the peer
    sends, however they are cut into chunks, wherever EINTR strikes and however the
    stream ends, the loop returns (the fuel is enough); what it sent is the frames of
    exactly the responses [answers] gives for the frames in the stream, in order, up to
    the first frame that is not a message or whose response does not fit; and the
    handler ends as [answers] leaves it. *)
Theorem connection_refines_answers fd s registry_others r completed h :
  lossless (tx s) -> registry_stopping r = false -> next_token_ r <> 0 ->
  exists e s' r',
    serve_connection std_exp std_pow std_log llround_unrepresentable clock others fd s registry_others r completed h =
      Some (Some e, s', r', incr64 completed, snd (answers 0 (frames_of (pending (rx s))) h)) /\
    sent s' = sent s ++ response_frames (fst (answers 0 (frames_of (pending (rx s))) h)).
Proof. apply connection_outcome. Qed.
End Refines.

(** * Well-behaved peers *)

Section Replies.
Variables (std_exp : double -> double) (std_pow : double -> double -> double).
Variables (std_log : double -> double) (llround_unrepresentable : double -> Z).
Variables (clock : nat -> Timestamp) (others : nat -> Handler -> Handler).
Hypothesis others_ok : forall i h, handler_ok h -> handler_ok (others i h).
#[local] Abbreviation handle := (handle std_exp std_pow std_log llround_unrepresentable).
#[local] Abbreviation answers := (answers std_exp std_pow std_log llround_unrepresentable clock others).
#[local] Abbreviation replies := (replies std_exp std_pow std_log llround_unrepresentable clock others).

Lemma handle_id now request h : resp_id (fst (handle now request h)) = req_id request.
Proof. unfold handle. by destruct (match req_body request with GetItem _ => _ | _ => _ end). Qed.

Lemma answers_replies reqs i h :
  handler_ok h -> Forall wf_request reqs ->
  answers i (map (fun q => encode_req q []) reqs) h = replies i reqs h /\
  map resp_id (fst (replies i reqs h)) = map req_id reqs /\
  Forall wf_response (fst (replies i reqs h)) /\ handler_ok (snd (replies i reqs h)).
Proof.
  revert i h. induction reqs as [|q reqs IH]; intros i h Hok Hr; [done|].
  apply Forall_cons_1 in Hr as [Hq Hr]. cbn [map answers replies].
  pose proof (handle_id (clock i) q (others i h)) as Hid.
  destruct (handle_response_wf std_exp std_pow std_log llround_unrepresentable (clock i) q (others i h) Hq
    (others_ok i h Hok)) as [Hw Hs].
  pose proof (handle_preserves std_exp std_pow std_log llround_unrepresentable (clock i) q (others i h) Hq
    (others_ok i h Hok)) as Hok1.
  unfold answer. pose proof (decode_req_roundtrip q default_request Hq) as Hdec.
  cbn [decode_request encode_request BinaryCodec] in *. rewrite Hdec.
  destruct (handle (clock i) q (others i h)) as [r h1]. cbn [fst snd] in *.
  assert (Hsend : sendable r = true) by (by apply size_in_range_spec, response_in_range).
  rewrite Hsend. destruct (IH (S i) h1 Hok1 Hr) as (I1 & I2 & I3 & I4). rewrite I1.
  destruct (replies (S i) reqs h1) as [rs h2]. cbn [fst snd map] in *.
  split_and!; [done|by rewrite Hid, I2|by apply Forall_cons_2|done].
Qed.

(** Every request is answered. A client that writes well-formed requests and then
    stops gets, over the binary codec, exactly one response to each, in the order sent,
    with the request's id, being what the handler says to it at that point; all of them
    are well-formed, whatever the other connections do meanwhile. *)
Theorem every_request_answered fd s registry_others r completed h reqs :
  handler_ok h -> Forall wf_request reqs ->
  pending (rx s) = concat (map (fun q => frame_bytes (encode_req q [])) reqs) ->
  lossless (tx s) -> registry_stopping r = false -> next_token_ r <> 0 ->
  exists e s' r',
    serve_connection std_exp std_pow std_log llround_unrepresentable clock others fd s registry_others r completed h =
      Some (Some e, s', r', incr64 completed, snd (replies 0 reqs h)) /\
    sent s' = sent s ++ response_frames (fst (replies 0 reqs h)) /\
    map resp_id (fst (replies 0 reqs h)) = map req_id reqs /\
    Forall wf_response (fst (replies 0 reqs h)).
Proof.
  intros Hok Hr Hp Hl Hs Ht.
  destruct (answers_replies reqs 0 h Hok Hr) as (Ha & Hids & Hw & _).
  destruct (connection_outcome std_exp std_pow std_log llround_unrepresentable clock others fd s
    registry_others r completed h Hl Hs Ht) as (e & s' & r' & E & Hsent).
  assert (Hf : frames_of (pending (rx s)) = map (fun q => encode_req q []) reqs).
  { rewrite Hp. rewrite <- (frames_of_frames (map (fun q => encode_req q []) reqs)).
    - by rewrite map_map.
    - apply Forall_map, list.Forall_forall. intros q Hq. rewrite list.Forall_forall in Hr.
      apply size_in_range_spec, request_in_range, Hr, Hq. }
  rewrite Hf, Ha in *. by exists e, s', r'.
Qed.
End Replies.

(** * Witnesses *)

Lemma sample_handler_ok : handler_ok sample_handler.
Proof.
  apply (handler_new_ok 1 2 8 2 lone_config (sample_config false) sample_handler_privacy _ sample_handler_new);
    [by vm_compute|apply sample_config_ok|by vm_compute].
Qed.

Definition sample_put : Request := MkRequest 11 (PutItem (sample_item 7 d1)).
Definition sample_ask : Request := ask 2 false.
#[local] Abbreviation sample_serve := (serve_connection (C := BinaryCodec) unit_exp unit_pow (fun x => x) (fun _ => 0)
  (fun i => Z.of_nat i) (fun _ h => h) 5).
#[local] Abbreviation sample_answers := (answers (C := BinaryCodec) unit_exp unit_pow (fun x => x) (fun _ => 0)
  (fun i => Z.of_nat i) (fun _ h => h) 0).
#[local] Abbreviation sample_replies := (replies unit_exp unit_pow (fun x => x) (fun _ => 0)
  (fun i => Z.of_nat i) (fun _ h => h) 0).

(** A put cut in two, then half a frame, then the peer is gone. *)
Definition sample_bytes : ByteBuffer := frame_bytes (encode_req sample_put []).
Definition sample_stream : UnixStream :=
  MkStream [RData (take 9 sample_bytes); RErr EINTR; RData (drop 9 sample_bytes ++ map byte_of_Z [0; 0; 0; 9; 1]); REof]
    [SAccept 2; SErr EINTR] [].

Lemma connection_refines_answers_witness :
  map resp_id (fst (sample_answers (frames_of (pending (rx sample_stream))) sample_handler)) = [11] /\
  exists e s' r',
    sample_serve sample_stream (fun r => r) registry_new 0 sample_handler =
      Some (Some e, s', r', incr64 0, snd (sample_answers (frames_of (pending (rx sample_stream))) sample_handler)) /\
    sent s' = response_frames (fst (sample_answers (frames_of (pending (rx sample_stream))) sample_handler)).
Proof.
  split; [vm_compute; reflexivity|].
  refine (connection_refines_answers (C := BinaryCodec) unit_exp unit_pow (fun x => x) (fun _ => 0)
    (fun i => Z.of_nat i) (fun _ h => h) 5 sample_stream (fun r => r) registry_new 0 sample_handler _ _ _).
  - repeat constructor.
  - reflexivity.
  - discriminate.
Defined.

Definition sample_dialogue : list Request := [sample_put; sample_ask].
Definition sample_client : UnixStream :=
  MkStream [RData (concat (map (fun q => frame_bytes (encode_req q [])) sample_dialogue))] [] [].

Lemma every_request_answered_witness :
  map resp_id (fst (sample_replies sample_dialogue sample_handler)) = [11; 1] /\
  exists e s' r',
    sample_serve sample_client (fun r => r) registry_new 0 sample_handler =
      Some (Some e, s', r', incr64 0, snd (sample_replies sample_dialogue sample_handler)).
Proof.
  split; [vm_compute; reflexivity|].
  destruct (every_request_answered unit_exp unit_pow (fun x => x) (fun _ => 0)
    (fun i => Z.of_nat i) (fun _ h => h) (fun _ h H => H) 5 sample_client (fun r => r) registry_new 0 sample_handler
    sample_dialogue) as (e & s' & r' & E & _).
  - exact sample_handler_ok.
  - apply (bool_decide_unpack _). vm_compute. exact I.
  - vm_compute. reflexivity.
  - apply Forall_nil_2.
  - reflexivity.
  - discriminate.
  - exists e, s', r'. exact E.
Defined.
