(* ===== verification/Service.v ===== *)
(** The daemon at work: any number of connections, each in the hands of a worker, on one
    shared handler ([Server::serve_connection] of src/daemon/server.cpp over
    [Handler::handle] of src/daemon/handler.cpp, as the workers of the pool run them).

    Serve.v follows one connection and lets the rest of the world change the handler
    between two messages; Interleaving.v follows the requests and does not know where they
    come from. Here the two are put together. A [Session] is one run of the loop of
    [serve_connection]: its locals, where it stands (waiting for a frame, inside [handle],
    or over), and, for the statements, what it has read and answered. A [Service] is the
    system of Interleaving.v with its sessions. A turn of a session ([Run]) is the next
    thing its worker does: read and decode a frame, one atomic step of [handle], or write
    the answer. Sessions take turns in any order. The guard of the connection and the count
    of completed ones are in Serve.v, the pool that hands connections to workers and the
    shutdown that breaks them in ThreadPool.v and Server.v: here a connection whose worker
    never comes is a session without turns, and one that is broken has an input that ends.

    The results are about bytes. Every session answers the frames of its own input, in
    order, with what the handler said to them; all the answers that went out together keep
    the exposure cap; a session that is given enough turns is served to its end, whatever
    the others do; and a session that runs alone is the loop of Serve.v. *)
From stdpp Require Import base option list gmap numbers.
From S2P Require Import Prelude Binary64 Item Message Wire Codec Io Framing.
From S2P Require Import BinaryCodec LruCache ShardedCache ExposureStore Scorer Noise Handler Responses ConnectionRegistry.
From S2P Require Import Serve Concurrent Interleaving ConcurrentResponses.

(** * Sessions *)

(** Where the worker is in the loop of [serve_connection]. *)
Inductive SessionPhase :=
| Waiting                  (** about to call [read_frame] *)
| Handling (call : nat)    (** inside [handle], or about to write what it returned *)
| Over (e : ConnEnd).      (** left the loop *)

(** An answer that went out whole: to what, and the call of [handle] that made it, if it
    was not refused by the decoder. *)
Record Reply := MkReply {
  reply_request : Request;
  reply_call : option nat;
  reply_response : Response
}.

(** [ss_read], [ss_calls] and [ss_replies] are history: the frames read, the calls of
    [handle] made, the answers written. *)
Record Session := MkSession {
  ss_conn : Conn;
  ss_phase : SessionPhase;
  ss_read : list ByteBuffer;
  ss_calls : list nat;
  ss_replies : list Reply
}.

Record Service := MkService {
  srv_sys : System;
  srv_sessions : list Session
}.

Definition session_new (s : UnixStream) : Session := MkSession (MkConn s [] [] 0) Waiting [] [] [].

(** What reading and decoding one message comes to. *)
Inductive ReadOutcome :=
| ReadEnd (e : ConnEnd)
| ReadRejected (request : Request) (rejection : Response)
| ReadRequest (request : Request).

Section Service.
Context {C : Codec}.
Variables (std_exp : double -> double) (std_pow : double -> double -> double).
Variables (std_log : double -> double) (llround_unrepresentable : double -> Z).
Variable K : Consts.
#[local] Abbreviation sys_step := (sys_step std_exp std_pow std_log llround_unrepresentable K).

(** The loop's body up to [handler_.handle(request)]. *)
Definition serve_read (c : Conn) : ReadOutcome * Conn :=
  let '(frame, s, body) := read_frame (stream c) (request_body c) in
  let c := MkConn s body (response_body c) (served c) in
  if decide (f_status frame = Fs_PeerClosed) then (ReadEnd EndPeerClosed, c)
  else if negb (frame_ok frame) then (ReadEnd (EndFrame (f_status frame)), c)
  else
    let '(error, request) := decode_request body default_request in
    if decide (error = DE_None) then (ReadRequest request, c)
    else if decide (error = DE_FieldTooLarge) then
      (ReadRejected request (make_error (req_id request) SC_InvalidRequest (decode_error_to_string error)), c)
    else (ReadEnd (EndDecode error), c).

(** [write_message] and what follows it; [counted]: the [++served] of a handled request. *)
Definition serve_write (counted : bool) (response : Response) (c : Conn) : option ConnEnd * Conn :=
  let '(result, s, scratch) := write_message (stream c) (encode_response response) (response_body c) in
  if negb (frame_ok result) then
    (Some (EndWrite (f_status result)), MkConn s (request_body c) scratch (served c))
  else (None, MkConn s (request_body c) scratch (if counted then incr64 (served c) else served c)).

(** Writing an answer, in terms of the session. *)
Definition session_write (counted : bool) (reply : Reply) (ss : Session) : Session :=
  let '(e, c) := serve_write counted (reply_response reply) (ss_conn ss) in
  match e with
  | Some e => MkSession c (Over e) (ss_read ss) (ss_calls ss) (ss_replies ss)
  | None => MkSession c Waiting (ss_read ss) (ss_calls ss) (ss_replies ss ++ [reply])
  end.

(** One turn of session [ss]; it may take a step of the handler's system. *)
Definition session_step (clock : Timestamp) (ss : Session) (sys : System) : Session * System :=
  match ss_phase ss with
  | Over _ => (ss, sys)
  | Waiting =>
      let '(outcome, c) := serve_read (ss_conn ss) in
      let read := ss_read ss ++ [request_body c] in
      match outcome with
      | ReadEnd e => (MkSession c (Over e) (ss_read ss) (ss_calls ss) (ss_replies ss), sys)
      | ReadRejected request rejection =>
          (session_write false (MkReply request None rejection)
             (MkSession c Waiting read (ss_calls ss) (ss_replies ss)), sys)
      | ReadRequest request =>
          let call := length (sys_calls sys) in
          (MkSession c (Handling call) read (ss_calls ss ++ [call]) (ss_replies ss),
           sys_step sys (Arrive request))
      end
  | Handling call =>
      match sys_calls sys !! call with
      | None => (ss, sys)
      | Some c =>
          match answer c with
          | None => (ss, sys_step sys (Step call clock))
          | Some response => (session_write true (MkReply (call_request c) (Some call) response) ss, sys)
          end
      end
  end.

(** * Schedules *)

(** A connection is taken from the queue by a worker, or a worker takes its next turn. *)
Inductive Turn :=
| Connect (s : UnixStream)
| Run (j : nat) (clock : Timestamp).

Definition service_step (s : Service) (t : Turn) : Service :=
  match t with
  | Connect stream => MkService (srv_sys s) (srv_sessions s ++ [session_new stream])
  | Run j clock =>
      match srv_sessions s !! j with
      | None => s
      | Some ss =>
          let '(ss, sys) := session_step clock ss (srv_sys s) in
          MkService sys (<[j := ss]> (srv_sessions s))
      end
  end.

Definition service_run (turns : list Turn) (s : Service) : Service := foldl service_step s turns.
End Service.

Definition service_start (h : Handler) : Service := MkService (sys_start h) [].

(** The streams of a schedule, in the order of the sessions. *)
Definition streams (turns : list Turn) : list UnixStream :=
  omap (fun t => match t with Connect s => Some s | Run _ _ => None end) turns.

(** What a session showed of an item to its client. *)
Definition session_shows (id : ItemId) (ss : Session) : Z :=
  zsum (map (fun r => live_shows id (reply_request r) (reply_response r)) (ss_replies ss)).

(** * Reading and writing *)

Section Halves.
Context {C : Codec} {L : CodecLaws C}.

(** Without a whole frame left the loop is over, and nothing was sent. *)
Lemma serve_read_end c : next_frame (pending (rx (stream c))) = None ->
  exists e c', serve_read c = (ReadEnd e, c') /\ sent (stream c') = sent (stream c) /\
    tx (stream c') = tx (stream c) /\ forall status, e <> EndWrite status.
Proof.
  intros Hn. pose proof (next_frame_none (stream c) (request_body c) Hn) as Hf.
  pose proof (read_frame_keeps (stream c) (request_body c)) as Hk. unfold serve_read.
  destruct (read_frame _ _) as [[frame s] body]. cbn [fst] in Hf. destruct Hk as [Ht Hs].
  destruct (decide _); [by do 2 eexists|]. rewrite Hf. by do 2 eexists.
Qed.

(** A whole frame is taken off the stream and decoded. *)
Lemma serve_read_frame c body rest : next_frame (pending (rx (stream c))) = Some (body, rest) ->
  exists outcome c', serve_read c = (outcome, c') /\
    request_body c' = body /\ pending (rx (stream c')) = rest /\
    sent (stream c') = sent (stream c) /\ tx (stream c') = tx (stream c) /\
    outcome =
      match decode_request body default_request with
      | (DE_None, request) => ReadRequest request
      | (DE_FieldTooLarge, request) => ReadRejected request
          (make_error (req_id request) SC_InvalidRequest (decode_error_to_string DE_FieldTooLarge))
      | (error, _) => ReadEnd (EndDecode error)
      end.
Proof.
  intros [Hr Hp]%next_frame_some. unfold serve_read.
  destruct (read_frame_spec (stream c) (request_body c) body rest Hr Hp) as (s1 & -> & Hp1 & _ & Ht1 & Hs1).
  rewrite decide_False by done. change (frame_ok (MkFrame Fs_Ok 0 (zlen body))) with true. cbn [negb].
  destruct (decode_request body default_request) as [error request].
  destruct error; cbn; by do 2 eexists.
Qed.

(** An answer goes out as one frame, or the connection is left with part of it sent. *)
Lemma serve_write_outcome counted r c : exists e c', serve_write counted r c = (e, c') /\
  rx (stream c') = rx (stream c) /\
  match e with
  | None => sent (stream c') = sent (stream c) ++ response_frames [r]
  | Some e => (exists status, e = EndWrite status) /\ exists tail, sent (stream c') = sent (stream c) ++ tail
  end.
Proof.
  unfold serve_write. rewrite write_message_frame by (intros; apply encode_response_app).
  destruct (write_frame (stream c) (encode_response r [])) as [result s] eqn:E.
  destruct (frame_ok result) eqn:Hok; cbn [negb].
  - destruct (write_frame_sent _ _ _ _ E Hok) as (_ & Hs & Hrx). do 2 eexists. split; [done|]. split; [done|].
    cbn. by rewrite Hs, app_nil_r.
  - do 2 eexists. split; [done|]. unfold write_frame in E. destruct (size_in_range _); cbn [negb] in E.
    + unfold write_all in E. destruct (write_all_loop _ _ _) as [io script]. injection E as <- <-.
      split; [done|]. split; by eexists.
    + injection E as <- <-. split; [done|]. split; [by eexists|]. exists []. by rewrite app_nil_r.
Qed.

(** Through a kernel that loses nothing it goes out exactly when it fits a frame. *)
Lemma serve_write_lossless counted r c : lossless (tx (stream c)) ->
  lossless (tx (stream (snd (serve_write counted r c)))) /\
  (fst (serve_write counted r c) = None <-> sendable r = true).
Proof.
  intros Hl. pose proof (write_response (stream c) r (response_body c) Hl) as Hw. unfold serve_write.
  destruct (sendable r).
  - by destruct Hw as (res & s' & buf & -> & -> & Hx & _).
  - by destruct Hw as (res & buf & -> & ->).
Qed.
End Halves.

(** The two halves with the one-step handler between them are the loop's body of Serve.v. *)
Lemma serve_step_halves {C : Codec} std_exp std_pow std_log llround_unrepresentable clock others i c h :
  serve_step std_exp std_pow std_log llround_unrepresentable clock others i c h =
  match serve_read c with
  | (ReadEnd e, c) => (Some e, c, h)
  | (ReadRejected _ rejection, c) => let '(e, c) := serve_write false rejection c in (e, c, h)
  | (ReadRequest request, c) =>
      let '(response, h) :=
        handle std_exp std_pow std_log llround_unrepresentable (clock i) request (others i h) in
      let '(e, c) := serve_write true response c in (e, c, h)
  end.
Proof.
  unfold serve_step, serve_read, serve_write. destruct (read_frame _ _) as [[frame s] body].
  destruct (decide (f_status frame = Fs_PeerClosed)); [done|]. destruct (frame_ok frame); cbn [negb]; [|done].
  destruct (decode_request body default_request) as [error request].
  destruct (decide (error = DE_None)).
  - destruct (handle _ _ _ _ _ _ _) as [response h']. cbn.
    destruct (write_message _ _ _) as [[result s'] scratch]. by destruct (frame_ok result).
  - destruct (decide (error = DE_FieldTooLarge)); [|done]. cbn.
    destruct (write_message _ _ _) as [[result s'] scratch]. by destruct (frame_ok result).
Qed.

(** * What a session has done *)

Section Sessions.
Context {C : Codec} {L : CodecLaws C}.
Variables (std_exp : double -> double) (std_pow : double -> double -> double).
Variables (std_log : double -> double) (llround_unrepresentable : double -> Z).
Variable K : Consts.
#[local] Abbreviation sys_step := (sys_step std_exp std_pow std_log llround_unrepresentable K).
#[local] Abbreviation sys_run := (sys_run std_exp std_pow std_log llround_unrepresentable K).
#[local] Abbreviation session_step := (session_step std_exp std_pow std_log llround_unrepresentable K).

(** [reply] answers the frame [body]: it is what the handler returned to the request in the
    frame, or the refusal of a message with a field too large. *)
Definition replies_to (sys : System) (body : ByteBuffer) (reply : Reply) : Prop :=
  match reply_call reply with
  | Some i => decode_request body default_request = (DE_None, reply_request reply) /\
      exists c, sys_calls sys !! i = Some c /\ call_request c = reply_request reply /\
        answer c = Some (reply_response reply)
  | None => decode_request body default_request = (DE_FieldTooLarge, reply_request reply) /\
      reply_response reply = make_error (req_id (reply_request reply)) SC_InvalidRequest
        (decode_error_to_string DE_FieldTooLarge)
  end.

(** Frames read and not answered yet, calls made and not answered yet, input left. *)
Definition in_hand (sys : System) (phase : SessionPhase) (bodies : list ByteBuffer) (calls : list nat) : Prop :=
  match phase with
  | Waiting => bodies = [] /\ calls = []
  | Handling i => exists body c, bodies = [body] /\ calls = [i] /\ sys_calls sys !! i = Some c /\
      decode_request body default_request = (DE_None, call_request c)
  | Over _ => True
  end.

Record session_ok (sys : System) (s0 : UnixStream) (ss : Session) : Prop := {
  so_input : exists rest, frames_of (pending (rx s0)) = ss_read ss ++ rest /\
    ((forall e, ss_phase ss <> Over e) -> rest = frames_of (pending (rx (stream (ss_conn ss)))));
  so_sent : exists tail,
    sent (stream (ss_conn ss)) = sent s0 ++ response_frames (map reply_response (ss_replies ss)) ++ tail /\
    (tail = [] \/ exists status, ss_phase ss = Over (EndWrite status));
  so_answers : exists answered unanswered calls,
    ss_read ss = answered ++ unanswered /\ Forall2 (replies_to sys) answered (ss_replies ss) /\
    ss_calls ss = omap reply_call (ss_replies ss) ++ calls /\ in_hand sys (ss_phase ss) unanswered calls
}.

Lemma session_new_ok sys s0 : session_ok sys s0 (session_new s0).
Proof.
  split.
  - by exists (frames_of (pending (rx s0))).
  - exists []. cbn. rewrite app_nil_r. by split; [|left].
  - by exists [], [], [].
Qed.

(** Calls stay where they are, with their requests, and an answer is final. *)
Lemma replies_to_step sys l body reply : replies_to sys body reply -> replies_to (sys_step sys l) body reply.
Proof.
  unfold replies_to. destruct (reply_call reply) as [i|]; [|done]. intros (Hd & c & Hc & Hr & Ha). split; [done|].
  destruct (sys_step_call std_exp std_pow std_log llround_unrepresentable K sys l i c Hc) as (c' & Hc' & Hr' & Hs & _).
  assert (c' = c) as -> by (apply Hs; by rewrite Ha). by exists c.
Qed.

Lemma all_replies_step sys l bodies replies :
  Forall2 (replies_to sys) bodies replies -> Forall2 (replies_to (sys_step sys l)) bodies replies.
Proof. induction 1; constructor; [by apply replies_to_step|done]. Qed.

Lemma session_ok_step sys l s0 ss : session_ok sys s0 ss -> session_ok (sys_step sys l) s0 ss.
Proof.
  intros [I S (answered & unanswered & calls & E1 & E2 & E3 & E4)]. split; [done|done|].
  exists answered, unanswered, calls. split_and!; [done| |done|].
  - by apply all_replies_step.
  - destruct (ss_phase ss) as [|i|e]; [done| |done]. destruct E4 as (body & c & -> & -> & Hc & Hd).
    destruct (sys_step_call std_exp std_pow std_log llround_unrepresentable K sys l i c Hc) as (c' & Hc' & Hr' & _).
    exists body, c'. by rewrite Hr'.
Qed.

Lemma response_frames_app rs rs' : response_frames (rs ++ rs') = response_frames rs ++ response_frames rs'.
Proof. unfold response_frames. by rewrite map_app, concat_app. Qed.

(** Writing the answer to the one frame in hand. *)
Lemma session_write_ok sys s0 ss counted reply body calls answered rest :
  frames_of (pending (rx s0)) = ss_read ss ++ rest -> rest = frames_of (pending (rx (stream (ss_conn ss)))) ->
  sent (stream (ss_conn ss)) = sent s0 ++ response_frames (map reply_response (ss_replies ss)) ->
  ss_read ss = answered ++ [body] -> Forall2 (replies_to sys) answered (ss_replies ss) ->
  replies_to sys body reply ->
  ss_calls ss = omap reply_call (ss_replies ss) ++ calls -> calls = omap reply_call [reply] ->
  session_ok sys s0 (session_write counted reply ss).
Proof.
  intros Hin Hrest Hsent Hread Hans Hrep Hcalls Hcall. unfold session_write.
  destruct (serve_write_outcome counted (reply_response reply) (ss_conn ss)) as (e & c' & -> & Hrx & He).
  destruct e as [e|].
  - destruct He as [[status ->] [tail Ht]]. split; cbn [ss_conn ss_phase ss_read ss_calls ss_replies].
    + exists rest. split; [done|]. intros H. by destruct (H (EndWrite status)).
    + exists tail. split; [by rewrite Ht, Hsent, app_assoc|]. right. by exists status.
    + by exists answered, [body], calls.
  - split; cbn [ss_conn ss_phase ss_read ss_calls ss_replies].
    + exists rest. split; [done|]. intros _. by rewrite Hrx.
    + exists []. rewrite app_nil_r. split; [|by left]. by rewrite He, Hsent, map_app, response_frames_app, app_assoc.
    + exists (answered ++ [body]), [], []. split_and!.
      * by rewrite app_nil_r.
      * apply Forall2_app; [done|]. by apply Forall2_cons.
      * by rewrite Hcalls, Hcall, omap_app, app_nil_r.
      * done.
Qed.

(** Leaving the loop with nothing in hand. *)
Lemma session_over_ok sys s0 ss c e answered rest :
  frames_of (pending (rx s0)) = ss_read ss ++ rest ->
  sent (stream c) = sent s0 ++ response_frames (map reply_response (ss_replies ss)) ->
  ss_read ss = answered -> Forall2 (replies_to sys) answered (ss_replies ss) ->
  ss_calls ss = omap reply_call (ss_replies ss) ->
  session_ok sys s0 (MkSession c (Over e) (ss_read ss) (ss_calls ss) (ss_replies ss)).
Proof.
  intros Hin Hsent Hread Hans Hcalls. split; cbn [ss_conn ss_phase ss_read ss_calls ss_replies].
  - exists rest. split; [done|]. intros H. by destruct (H e).
  - exists []. rewrite app_nil_r. split; [done|by left].
  - exists answered, [], []. by rewrite !app_nil_r.
Qed.

(** A turn of the session keeps the account, and moves the system by at most one step. *)
Lemma session_step_ok clock ss sys s0 : session_ok sys s0 ss ->
  let '(ss', sys') := session_step clock ss sys in
  session_ok sys' s0 ss' /\
  (sys' = sys /\ ss_calls ss' = ss_calls ss \/
   (exists i, ss_phase ss = Handling i /\ sys' = sys_step sys (Step i clock) /\ ss_calls ss' = ss_calls ss) \/
   exists request, wf_request request /\ sys' = sys_step sys (Arrive request) /\
     ss_calls ss' = ss_calls ss ++ [length (sys_calls sys)]).
Proof.
  intros Hok. pose proof Hok as [(rest & Hin & Hrest) (tail & Hsent & Htail) (answered & un & calls & E1 & E2 & E3 & E4)].
  unfold session_step. destruct (ss_phase ss) as [|i|e] eqn:Ep; [| |by split; [|left]].
  - destruct E4 as [-> ->]. rewrite !app_nil_r in *. specialize (Hrest ltac:(done)).
    assert (tail = []) as -> by (destruct Htail as [->|[status ?]]; done). rewrite !app_nil_r in Hsent.
    destruct (next_frame (pending (rx (stream (ss_conn ss))))) as [[body rest']|] eqn:En.
    + destruct (serve_read_frame _ _ _ En) as (outcome & c' & -> & Hb & Hp & Hs & Ht & ->).
      rewrite frames_of_eq, En in Hrest. subst rest. cbv zeta. rewrite Hb.
      assert (Hin' : frames_of (pending (rx s0)) = (ss_read ss ++ [body]) ++ frames_of rest') by (by rewrite <- app_assoc).
      destruct (decode_request body default_request) as [error request] eqn:Ed. destruct error.
      1: { split; [|right; right; exists request; split_and!; [by eapply decode_request_wf|done|done]].
        split; cbn [ss_conn ss_phase ss_read ss_calls ss_replies].
        - exists (frames_of rest'). split; [done|]. by rewrite Hp.
        - exists []. rewrite app_nil_r. split; [by rewrite Hs|by left].
        - exists answered, [body], [length (sys_calls sys)]. split_and!; [by rewrite E1| |by rewrite E3|].
          + by apply all_replies_step.
          + cbn. exists body, (MkCall request [] (handle_prog std_exp std_pow std_log llround_unrepresentable K request)).
            split_and!; [done|done| |done]. by rewrite lookup_app_r, Nat.sub_diag. }
      all: try (split; [by eapply session_over_ok; [exact Hin|rewrite Hs|exact E1|..]|by left]).
      split; [|left; unfold session_write; by destruct (serve_write _ _ _) as [[] ?]].
      eapply (session_write_ok _ _ _ _ _ body [] answered (frames_of rest')); cbn; try done.
      * by rewrite Hp.
      * by rewrite Hs.
      * by rewrite E1.
      * by rewrite E3, app_nil_r.
    + destruct (serve_read_end _ En) as (e & c' & -> & Hs & _). cbv zeta. split; [|by left].
      by eapply session_over_ok; [exact Hin|rewrite Hs|exact E1|..].
  - destruct E4 as (body & c & -> & -> & Hc & Hd). rewrite Hc. specialize (Hrest ltac:(done)).
    assert (tail = []) as -> by (destruct Htail as [->|[status ?]]; done). rewrite !app_nil_r in Hsent.
    destruct (answer c) as [response|] eqn:Ha.
    + split; [|left; unfold session_write; by destruct (serve_write _ _ _) as [[] ?]].
      eapply (session_write_ok _ _ _ _ _ body [i] answered rest); try done. cbn. split; [done|]. by exists c.
    + split; [by apply session_ok_step|]. right. left. by exists i.
Qed.
End Sessions.

(** * The invariant of the service *)

Section Invariant.
Context {C : Codec} {L : CodecLaws C}.
Variables (std_exp : double -> double) (std_pow : double -> double -> double).
Variables (std_log : double -> double) (llround_unrepresentable : double -> Z).
Variable K : Consts.
Variable h0 : Handler.
#[local] Abbreviation sys_step := (sys_step std_exp std_pow std_log llround_unrepresentable K).
#[local] Abbreviation sys_run := (sys_run std_exp std_pow std_log llround_unrepresentable K).
#[local] Abbreviation session_step := (session_step std_exp std_pow std_log llround_unrepresentable K).
#[local] Abbreviation service_step := (service_step std_exp std_pow std_log llround_unrepresentable K).
#[local] Abbreviation service_run := (service_run std_exp std_pow std_log llround_unrepresentable K).

(** The handler's side is a run of Interleaving.v on well-formed requests; every session
    accounts for its stream; and every call belongs to one session. *)
Record service_inv (inputs : list UnixStream) (s : Service) : Prop := {
  vi_sys : exists labels, srv_sys s = sys_run labels (sys_start h0) /\ Forall wf_request (arrivals labels);
  vi_sessions : Forall2 (session_ok (srv_sys s)) inputs (srv_sessions s);
  vi_calls : concat (map ss_calls (srv_sessions s)) ≡ₚ seq 0 (length (sys_calls (srv_sys s)))
}.

Lemma service_start_inv : service_inv [] (service_start h0).
Proof. split; [by exists []|constructor|done]. Qed.

(** A session's calls among those of all. *)
Lemma concat_insert {A} (l : list (list A)) j x y :
  l !! j = Some x -> concat (<[j := x ++ y]> l) ≡ₚ concat l ++ y.
Proof.
  revert j. induction l as [|z l IH]; intros [|j] E; try done; cbn in *.
  - injection E as ->. rewrite <- !app_assoc. apply Permutation_app_head, Permutation_app_comm.
  - rewrite <- app_assoc. by apply Permutation_app_head, IH.
Qed.

Lemma all_sessions_step sys l inputs sessions :
  Forall2 (session_ok sys) inputs sessions -> Forall2 (session_ok (sys_step sys l)) inputs sessions.
Proof. induction 1; constructor; [by apply session_ok_step|done]. Qed.

Lemma sys_run_snoc labels l h : sys_run (labels ++ [l]) (sys_start h) = sys_step (sys_run labels (sys_start h)) l.
Proof. unfold sys_run. by rewrite foldl_app. Qed.

Lemma sys_step_length sys i clock : length (sys_calls (sys_step sys (Step i clock))) = length (sys_calls sys).
Proof.
  pose proof (sys_step_requests std_exp std_pow std_log llround_unrepresentable K sys (Step i clock)) as E.
  apply (f_equal length) in E. cbn [arrivals omap list_omap] in E. by rewrite app_nil_r, !length_fmap in E.
Qed.

Lemma service_step_inv inputs s t :
  service_inv inputs s -> service_inv (inputs ++ streams [t]) (service_step s t).
Proof.
  intros Hinv. pose proof Hinv as [(labels & Es & Hwf) Hss Hc]. destruct t as [stream|j clock]; cbn [service_step].
  { split; cbn [srv_sys srv_sessions].
    - by exists labels.
    - apply Forall2_app; [done|]. constructor; [apply session_new_ok|constructor].
    - rewrite map_app, concat_app. cbn. by rewrite !app_nil_r. }
  cbn [streams omap list_omap]. rewrite app_nil_r. destruct (srv_sessions s !! j) as [ss|] eqn:Ej; [|done].
  destruct (Forall2_lookup_r _ _ _ _ _ Hss Ej) as (s0 & Es0 & Hok).
  pose proof (session_step_ok std_exp std_pow std_log llround_unrepresentable K clock ss (srv_sys s) s0 Hok) as Hst.
  destruct (session_step clock ss (srv_sys s)) as [ss' sys']. destruct Hst as [Hok' Hmove].
  assert (Hcalls : forall y, ss_calls ss' = ss_calls ss ++ y ->
    concat (map ss_calls (<[j := ss']> (srv_sessions s))) ≡ₚ concat (map ss_calls (srv_sessions s)) ++ y).
  { intros y Ey. change (map ss_calls (<[j := ss']> (srv_sessions s))) with (ss_calls <$> <[j := ss']> (srv_sessions s)).
    rewrite list_fmap_insert, Ey. apply concat_insert. by rewrite list_lookup_fmap, Ej. }
  assert (Hins : Forall2 (session_ok sys') inputs (srv_sessions s) ->
    Forall2 (session_ok sys') inputs (<[j := ss']> (srv_sessions s))).
  { intros H. rewrite <- (list_insert_id inputs j s0 Es0). by apply Forall2_insert. }
  destruct Hmove as [[-> Ec]|[(i & _ & -> & Ec)|(request & Hr & -> & Ec)]].
  - split; cbn [srv_sys srv_sessions]; [by exists labels|by apply Hins|].
    by rewrite (Hcalls []), app_nil_r by (by rewrite app_nil_r).
  - split; cbn [srv_sys srv_sessions].
    + exists (labels ++ [Step i clock]). rewrite sys_run_snoc, Es. split; [done|].
      unfold arrivals. rewrite omap_app. cbn. by rewrite app_nil_r.
    + by apply Hins, all_sessions_step.
    + by rewrite (Hcalls []), app_nil_r, sys_step_length by (by rewrite app_nil_r).
  - split; cbn [srv_sys srv_sessions].
    + exists (labels ++ [Arrive request]). rewrite sys_run_snoc, Es. split; [done|].
      unfold arrivals. rewrite omap_app. apply Forall_app. split; [done|]. by apply Forall_cons.
    + by apply Hins, all_sessions_step.
    + rewrite (Hcalls _ Ec), Hc. cbn [sys_calls Interleaving.sys_step]. rewrite length_app. cbn.
      by rewrite Nat.add_1_r, seq_S.
Qed.

Lemma service_run_inv turns : service_inv (streams turns) (service_run turns (service_start h0)).
Proof.
  induction turns as [|t turns IH] using rev_ind; [apply service_start_inv|].
  unfold service_run. rewrite foldl_app. unfold streams. rewrite omap_app. by apply service_step_inv.
Qed.
End Invariant.

(** * Turns *)

(** How often session [j] is given a turn. *)
Fixpoint runs (j : nat) (turns : list Turn) : nat :=
  match turns with
  | [] => 0
  | Run i _ :: turns => (if decide (i = j) then 1 else 0) + runs j turns
  | Connect _ :: turns => runs j turns
  end.

Section Progress.
Context {C : Codec} {L : CodecLaws C}.
Variables (std_exp : double -> double) (std_pow : double -> double -> double).
Variables (std_log : double -> double) (llround_unrepresentable : double -> Z).
Variable K : Consts.
Variable h0 : Handler.
#[local] Abbreviation sys_step := (sys_step std_exp std_pow std_log llround_unrepresentable K).
#[local] Abbreviation sys_run := (sys_run std_exp std_pow std_log llround_unrepresentable K).
#[local] Abbreviation session_step := (session_step std_exp std_pow std_log llround_unrepresentable K).
#[local] Abbreviation service_step := (service_step std_exp std_pow std_log llround_unrepresentable K).
#[local] Abbreviation service_run := (service_run std_exp std_pow std_log llround_unrepresentable K).
#[local] Abbreviation service_inv := (service_inv std_exp std_pow std_log llround_unrepresentable K h0).

(** The turns a frame takes: read, handle, write; a frame that is not a request takes one. *)
Definition frame_turns (body : ByteBuffer) : nat :=
  match decode_request body default_request with
  | (DE_None, request) => 2 + step_bound K request
  | _ => 1
  end.
Definition input_turns (bytes : ByteBuffer) : nat := S (sum_list_with frame_turns (frames_of bytes)).

(** The turns left, at most. *)
Definition turns_left (sys : System) (ss : Session) : nat :=
  let input := input_turns (pending (rx (stream (ss_conn ss)))) in
  match ss_phase ss with
  | Over _ => 0
  | Waiting => input
  | Handling i =>
      S input + match sys_calls sys !! i with
                | Some c => step_bound K (call_request c) - length (call_events c)
                | None => 0
                end
  end.

Lemma input_turns_frame bytes body rest : next_frame bytes = Some (body, rest) ->
  input_turns bytes = (frame_turns body + input_turns rest)%nat.
Proof. intros E. unfold input_turns. rewrite frames_of_eq, E. cbn. lia. Qed.

(** A call that has not answered has taken fewer steps than its bound. *)
Lemma unanswered_steps labels i c : Forall wf_request (arrivals labels) ->
  sys_calls (sys_run labels (sys_start h0)) !! i = Some c -> answer c = None ->
  (length (call_events c) < step_bound K (call_request c))%nat.
Proof.
  intros Hwf Hc Ha.
  pose proof (sys_run_inv std_exp std_pow std_log llround_unrepresentable K h0 labels) as Hinv.
  pose proof (Forall_lookup_1 _ _ _ _ (sv_calls _ _ _ _ _ _ _ Hinv) Hc) as Hp.
  assert (Ht : typed (call_request c)).
  { apply wf_request_typed. rewrite list.Forall_forall in Hwf. eapply Hwf, call_arrived. by eapply list_elem_of_lookup_2. }
  destruct (call_prefix _ _ _ _ _ c Hp) as (evs & response & Hpath & Hne).
  destruct (handle_events _ _ _ _ _ _ _ _ Ht Hpath) as [_ Hev]. apply re_length in Hev.
  rewrite length_app in Hev. destruct evs; [by destruct (Hne Ha)|]. cbn in Hev. lia.
Qed.

(** After a write the session waits with the same input, or is over. *)
Lemma write_turns sys counted reply ss :
  (turns_left sys (session_write counted reply ss) <= input_turns (pending (rx (stream (ss_conn ss)))))%nat.
Proof.
  unfold session_write.
  destruct (serve_write_outcome counted (reply_response reply) (ss_conn ss)) as (e & c' & -> & Hrx & _).
  destruct e; unfold turns_left; cbn [ss_phase ss_conn]; [lia|by rewrite Hrx].
Qed.

(** Its own turn brings a session nearer to its end. *)
Lemma own_turn clock inputs s j ss : service_inv inputs s -> srv_sessions s !! j = Some ss ->
  (forall e, ss_phase ss <> Over e) ->
  let '(ss', sys') := session_step clock ss (srv_sys s) in
  (turns_left sys' ss' < turns_left (srv_sys s) ss)%nat.
Proof.
  intros [(labels & Es & Hwf) Hss _] Hj Hover. destruct (Forall2_lookup_r _ _ _ _ _ Hss Hj) as (s0 & _ & Hok).
  destruct Hok as [_ _ (? & un & calls & _ & _ & _ & Hhand)].
  unfold session_step. destruct (ss_phase ss) as [|i|e] eqn:Ep; [| |by destruct (Hover e)].
  - assert (Hl : turns_left (srv_sys s) ss = input_turns (pending (rx (stream (ss_conn ss))))) by (unfold turns_left; by rewrite Ep).
    rewrite Hl. destruct (next_frame (pending (rx (stream (ss_conn ss))))) as [[body rest]|] eqn:En.
    + rewrite (input_turns_frame _ _ _ En). unfold frame_turns.
      destruct (serve_read_frame _ _ _ En) as (outcome & c' & -> & Hb & Hp & _ & _ & ->). cbv zeta.
      destruct (decode_request body default_request) as [error request]. destruct error.
      1: { unfold turns_left. cbn [ss_phase ss_conn sys_calls Interleaving.sys_step].
        rewrite lookup_app_r, Nat.sub_diag by done. cbn [lookup list_lookup call_request call_events length]. rewrite Hp. lia. }
      all: try (unfold turns_left; cbn [ss_phase]; lia).
      match goal with |- context [session_write ?b ?r ?x] => pose proof (write_turns (srv_sys s) b r x) as Hw end.
      cbn [ss_conn] in Hw. rewrite Hp in Hw. lia.
    + destruct (serve_read_end _ En) as (e & c' & -> & _). cbv zeta. unfold turns_left, input_turns. cbn [ss_phase]. lia.
  - destruct Hhand as (body & c & _ & _ & Hc & _). rewrite Hc.
    assert (Hl : turns_left (srv_sys s) ss = (S (input_turns (pending (rx (stream (ss_conn ss))))) +
      (step_bound K (call_request c) - length (call_events c)))%nat) by (unfold turns_left; by rewrite Ep, Hc).
    rewrite Hl. destruct (answer c) as [response|] eqn:Ha.
    + match goal with |- context [session_write ?b ?r ?x] => pose proof (write_turns (srv_sys s) b r x) as Hw end. lia.
    + rewrite Es in Hc. pose proof (unanswered_steps labels i c Hwf Hc Ha) as Hlt. rewrite <- Es in Hc.
      destruct (sys_step_call std_exp std_pow std_log llround_unrepresentable K (srv_sys s) (Step i clock) i c Hc)
        as (c' & Hc' & Er & _ & El). specialize (El Ha). cbn -[decide] in El. rewrite decide_True in El by done.
      unfold turns_left. rewrite Ep, Hc', Er, El. lia.
Qed.

(** A call belongs to one session. *)
Lemma concat_owner {A B} (f : A -> list B) (l : list A) i j x y b :
  NoDup (concat (map f l)) -> l !! i = Some x -> l !! j = Some y -> b ∈ f x -> b ∈ f y -> i = j.
Proof.
  revert i j. induction l as [|z l IH]; intros i j Hnd Hi Hj Hx Hy; [done|]. cbn in Hnd.
  apply list.NoDup_app in Hnd as (_ & Hd & Hnd).
  assert (Hin : forall k w, l !! k = Some w -> b ∈ f w -> b ∈ concat (map f l)).
  { intros k w Hk Hw. apply list_elem_of_In, in_concat. exists (f w). split; [|by apply list_elem_of_In].
    apply list_elem_of_In, (list_elem_of_fmap_2 f). by eapply list_elem_of_lookup_2. }
  destruct i as [|i], j as [|j]; cbn in Hi, Hj; simplify_eq; [done| | |f_equal; by eapply IH].
  - by destruct (Hd b Hx); eapply Hin.
  - by destruct (Hd b Hy); eapply Hin.
Qed.

Lemma session_owns inputs s j ss i : service_inv inputs s -> srv_sessions s !! j = Some ss ->
  ss_phase ss = Handling i -> i ∈ ss_calls ss.
Proof.
  intros [_ Hss _] Hj Hp. destruct (Forall2_lookup_r _ _ _ _ _ Hss Hj) as (s0 & _ & [_ _ (? & un & calls & _ & _ & -> & Hh)]).
  rewrite Hp in Hh. destruct Hh as (body & c & _ & -> & _). apply elem_of_app. right. by left.
Qed.

(** A step of the system that is not of this session's call leaves its account alone. *)
Lemma other_step sys l ss : (forall i, ss_phase ss = Handling i -> (i < length (sys_calls sys))%nat /\ turns i [l] = 0%nat) ->
  turns_left (sys_step sys l) ss = turns_left sys ss.
Proof.
  intros H. unfold turns_left. destruct (ss_phase ss) as [|i|e]; [done| |done]. destruct (H i eq_refl) as [Hlt Ht].
  destruct (lookup_lt_is_Some_2 _ _ Hlt) as [c Hc]. rewrite Hc.
  destruct (sys_step_call std_exp std_pow std_log llround_unrepresentable K sys l i c Hc) as (c' & -> & -> & Hs & Hn).
  destruct (answer c) eqn:Ha; [by rewrite Hs|]. rewrite Hn, Ht by done. do 2 f_equal. lia.
Qed.

Lemma other_turn inputs s t j ss : service_inv inputs s -> srv_sessions s !! j = Some ss -> runs j [t] = 0%nat ->
  srv_sessions (service_step s t) !! j = Some ss /\
  turns_left (srv_sys (service_step s t)) ss = turns_left (srv_sys s) ss.
Proof.
  intros Hinv Hj Ht. destruct t as [stream|k clock]; cbn [service_step].
  { split; [by apply lookup_app_l_Some|done]. }
  assert (Hne : k <> j) by (intros ->; cbn -[decide] in Ht; by rewrite decide_True in Ht).
  destruct (srv_sessions s !! k) as [ss'|] eqn:Ek; [|done].
  pose proof Hinv as [_ Hss Hc]. destruct (Forall2_lookup_r _ _ _ _ _ Hss Ek) as (s0 & _ & Hok).
  pose proof (session_step_ok std_exp std_pow std_log llround_unrepresentable K clock ss' (srv_sys s) s0 Hok) as Hst.
  destruct (session_step clock ss' (srv_sys s)) as [ss1 sys1]. destruct Hst as [_ Hmove]. cbn [srv_sessions srv_sys].
  split; [by rewrite list_lookup_insert_ne|].
  assert (Hlt : forall i, ss_phase ss = Handling i -> (i < length (sys_calls (srv_sys s)))%nat).
  { intros i Hp. destruct (Forall2_lookup_r _ _ _ _ _ Hss Hj) as (s1 & _ & [_ _ (? & un & calls & _ & _ & _ & Hh)]).
    rewrite Hp in Hh. destruct Hh as (body & c & _ & _ & Hi & _). by eapply lookup_lt_Some. }
  destruct Hmove as [[-> _]|[(i & Hp & -> & _)|(request & _ & -> & _)]]; [done| |].
  - apply other_step. intros i' Hp'. split; [by apply Hlt|]. cbn -[decide]. rewrite decide_False; [done|]. intros ->.
    apply Hne. eapply (concat_owner ss_calls); [rewrite Hc; apply NoDup_seq|done|done|by eapply session_owns..].
  - apply other_step. intros i' Hp'. by split; [apply Hlt|].
Qed.

Lemma service_run_progress turns inputs s j ss : service_inv inputs s -> srv_sessions s !! j = Some ss ->
  exists ss', srv_sessions (service_run turns s) !! j = Some ss' /\
    ((exists e, ss_phase ss' = Over e) \/
     (turns_left (srv_sys (service_run turns s)) ss' + runs j turns <= turns_left (srv_sys s) ss)%nat).
Proof.
  revert inputs s ss. induction turns as [|t turns IH]; intros inputs s ss Hinv Hj.
  { exists ss. split; [done|]. right. cbn. lia. }
  pose proof (service_step_inv _ _ _ _ _ _ _ _ t Hinv) as Hinv'.
  change (service_run (t :: turns) s) with (service_run turns (service_step s t)).
  destruct (decide (runs j [t] = 0%nat)) as [Ht|Ht].
  - destruct (other_turn _ _ _ _ _ Hinv Hj Ht) as [Hj' El]. destruct (IH _ _ _ Hinv' Hj') as (ss' & H1 & H2).
    exists ss'. split; [done|]. destruct H2 as [?|H2]; [by left|right]. rewrite El in H2.
    destruct t; cbn -[decide] in *; lia.
  - destruct t as [stream|k clock]; [done|]. cbn -[decide] in Ht. destruct (decide (k = j)) as [->|]; [|done].
    assert (Hover : (exists e, ss_phase ss = Over e) \/ forall e, ss_phase ss <> Over e).
    { destruct (ss_phase ss) as [|i|e]; [by right..|left; by exists e]. }
    destruct Hover as [[e He]|Hover].
    + assert (Hj' : srv_sessions (service_step s (Run j clock)) !! j = Some ss).
      { cbn. rewrite Hj. unfold session_step. rewrite He. cbn. by apply list_lookup_insert_eq, lookup_lt_Some with ss. }
      destruct (IH _ _ _ Hinv' Hj') as (ss' & H1 & H2). exists ss'. split; [done|]. destruct H2 as [?|H2]; [by left|].
      left. assert (El : forall sys, turns_left sys ss = 0%nat) by (intros sys; unfold turns_left; by rewrite He).
      rewrite El in H2. destruct (ss_phase ss') as [|i|e'] eqn:Ep; [| |by exists e'];
        unfold turns_left in H2; rewrite Ep in H2; unfold input_turns in H2; lia.
    + pose proof (own_turn clock _ _ _ _ Hinv Hj Hover) as Hlt.
      destruct (session_step clock ss (srv_sys s)) as [ss1 sys1] eqn:Est.
      assert (E : service_step s (Run j clock) = MkService sys1 (<[j := ss1]> (srv_sessions s))).
      { cbn. by rewrite Hj, Est. }
      rewrite E in *. destruct (IH _ _ ss1 Hinv') as (ss' & H1 & H2).
      { cbn. by apply list_lookup_insert_eq, lookup_lt_Some with ss. }
      exists ss'. split; [done|]. destruct H2 as [?|H2]; [by left|right]. cbn -[decide] in H2 |- *.
      rewrite decide_True by done. lia.
Qed.
End Progress.

(** * Connections that lose nothing *)

Section Lossless.
Context {C : Codec} {L : CodecLaws C}.
Variables (std_exp : double -> double) (std_pow : double -> double -> double).
Variables (std_log : double -> double) (llround_unrepresentable : double -> Z).
Variable K : Consts.
#[local] Abbreviation session_step := (session_step std_exp std_pow std_log llround_unrepresentable K).

(** A frame the loop answers. *)
Definition is_message (body : ByteBuffer) : bool :=
  match fst (decode_request body default_request) with DE_None | DE_FieldTooLarge => true | _ => false end.

(** The frames up to the first that is no message. *)
Fixpoint messages (bodies : list ByteBuffer) : list ByteBuffer :=
  match bodies with
  | [] => []
  | body :: bodies => if is_message body then body :: messages bodies else []
  end.

Lemma messages_answered sys answered replies rest :
  Forall2 (replies_to sys) answered replies -> messages (answered ++ rest) = answered ++ messages rest.
Proof.
  induction 1 as [|body reply answered replies H _ IH]; [done|]. cbn. rewrite IH.
  assert (is_message body = true) as ->; [|done]. unfold replies_to, is_message in *.
  destruct (reply_call reply); by destruct H as [-> _].
Qed.

(** Nothing is lost: the loop is left only at the end of the messages, with all answered. *)
Record session_lossless (s0 : UnixStream) (ss : Session) : Prop := {
  sl_tx : lossless (tx (stream (ss_conn ss)));
  sl_over : forall e, ss_phase ss = Over e ->
    messages (frames_of (pending (rx s0))) = ss_read ss /\ length (ss_read ss) = length (ss_replies ss);
  sl_write : forall status, ss_phase ss <> Over (EndWrite status)
}.

Lemma lossless_write s0 counted reply ss :
  lossless (tx (stream (ss_conn ss))) -> sendable (reply_response reply) = true ->
  session_lossless s0 (session_write counted reply ss).
Proof.
  intros Hl Hs. destruct (serve_write_lossless counted (reply_response reply) (ss_conn ss) Hl) as [Hx He].
  unfold session_write. destruct (serve_write _ _ _) as [e c]. cbn [fst snd] in *. rewrite (proj2 He Hs). by split.
Qed.

Lemma lossless_step clock s0 ss sys :
  session_ok sys s0 ss -> session_lossless s0 ss ->
  (forall c response, c ∈ sys_calls sys -> answer c = Some response -> sendable response = true) ->
  (forall id, sendable (make_error id SC_InvalidRequest (decode_error_to_string DE_FieldTooLarge)) = true) ->
  session_lossless s0 (fst (session_step clock ss sys)).
Proof.
  intros Hok Hl Hsend Hrej. pose proof Hok as [(rest & Hin & Hrest) _ (answered & un & calls & E1 & E2 & E3 & E4)].
  pose proof Hl as [Htx Hover]. unfold session_step. destruct (ss_phase ss) as [|i|e] eqn:Ep; [| |done].
  - destruct E4 as [-> ->]. rewrite app_nil_r in E1. specialize (Hrest ltac:(done)).
    assert (Hlen : length (ss_read ss) = length (ss_replies ss)) by (rewrite E1; by eapply Forall2_length).
    destruct (next_frame (pending (rx (stream (ss_conn ss))))) as [[body rest']|] eqn:En.
    + destruct (serve_read_frame _ _ _ En) as (outcome & c' & -> & Hb & Hp & Hs & Ht & ->). cbv zeta.
      rewrite frames_of_eq, En in Hrest. subst rest.
      destruct (decode_request body default_request) as [error request] eqn:Ed.
      assert (Hend : is_message body = false -> messages (frames_of (pending (rx s0))) = ss_read ss).
      { intros Hm. rewrite Hin, E1, (messages_answered sys answered _ _ E2). cbn. by rewrite Hm, app_nil_r. }
      unfold is_message in Hend. rewrite Ed in Hend. cbn [fst] in Hend.
      destruct error; cbn [fst].
      1: by split; cbn [ss_conn ss_phase]; [rewrite Ht|..].
      all: try (split; cbn [ss_conn ss_phase ss_read ss_replies]; [by rewrite Ht|by intros _ _; split; [apply Hend|]|done]).
      apply lossless_write; [cbn; by rewrite Ht|apply Hrej].
    + destruct (serve_read_end _ En) as (e & c' & -> & _ & Ht & He). cbv zeta. cbn [fst].
      split; cbn [ss_conn ss_phase ss_read ss_replies]; [by rewrite Ht| |intros status [= ->]; by destruct (He status)].
      intros _ _. split; [|done]. rewrite Hin, Hrest, frames_of_eq, En, E1, (messages_answered sys answered _ _ E2). cbn.
        by rewrite app_nil_r.
  - destruct E4 as (body & c & -> & -> & Hc & Hd). rewrite Hc. destruct (answer c) as [response|] eqn:Ha; [|done].
    cbn [fst]. apply lossless_write; [done|]. eapply Hsend; [by eapply list_elem_of_lookup_2|done].
Qed.
End Lossless.

(** * Claims *)

Section Claims.
Context {C : Codec} {L : CodecLaws C}.
Variables (std_exp : double -> double) (std_pow : double -> double -> double).
Variables (std_log : double -> double) (llround_unrepresentable : double -> Z).
Context (device1 device2 cap n : Z) (scoring : ScoringConfig) (policy : PolicyConfig) (privacy : PrivacyConfig).
Context (h0 : Handler) (Hnew : handler_new device1 device2 cap n scoring policy privacy = inr h0).
#[local] Abbreviation K := (consts h0).
#[local] Abbreviation service_run := (service_run std_exp std_pow std_log llround_unrepresentable K).

Lemma live_shows_nonneg id request response : 0 <= live_shows id request response.
Proof.
  unfold live_shows, occurrences. destruct (req_body request); try done. destruct (resp_body response); try done.
  destruct (rec_dry_run _); [done|]. apply zlen_nonneg.
Qed.

Lemma answer_shows_nonneg id c : 0 <= answer_shows id c.
Proof. unfold answer_shows. destruct (answer c); [apply live_shows_nonneg|lia]. Qed.

(** A session shows no more than its calls were granted. *)
Lemma session_shows_calls id sys s0 ss : session_ok sys s0 ss ->
  session_shows id ss <= zsum (map (fun i => from_option (answer_shows id) 0 (sys_calls sys !! i)) (ss_calls ss)).
Proof.
  intros [_ _ (answered & un & calls & _ & E2 & -> & _)]. rewrite map_app, zsum_app.
  assert (Hrest : 0 <= zsum (map (fun i => from_option (answer_shows id) 0 (sys_calls sys !! i)) calls)).
  { clear. induction calls as [|i calls IH]; cbn; [lia|]. destruct (sys_calls sys !! i) as [c|]; cbn; [|lia].
    pose proof (answer_shows_nonneg id c). lia. }
  enough (H : session_shows id ss <= zsum (map (fun i => from_option (answer_shows id) 0 (sys_calls sys !! i))
    (omap reply_call (ss_replies ss)))) by lia. clear Hrest. unfold session_shows.
  induction E2 as [|body reply answered replies H _ IH]; [done|]. cbn. unfold replies_to in H.
  destruct (reply_call reply) as [i|]; cbn.
  - destruct H as (_ & c & -> & Er & Ea). cbn [from_option].
    assert (answer_shows id c = live_shows id (reply_request reply) (reply_response reply)) as ->; [|lia].
    unfold answer_shows. by rewrite Ea, Er.
  - destruct H as (_ & ->).
    assert (live_shows id (reply_request reply) (make_error (req_id (reply_request reply)) SC_InvalidRequest
      (decode_error_to_string DE_FieldTooLarge)) = 0) as ->; [|lia].
    unfold live_shows. by destruct (req_body (reply_request reply)).
Qed.

(** C1: End to end, the exposure cap. Whatever bytes any number of clients send, however the
    workers' turns fall, the answers that have gone out whole on all connections together
    show an item at most [exposure_cap] times to live recommendations. *)
Theorem service_shows_capped (turns : list Turn) (id : ItemId) :
  fail_open_when_full policy = false -> fits 64 (exposure_cap policy) -> 0 < exposure_cap policy ->
  zsum (map (session_shows id) (srv_sessions (service_run turns (service_start h0)))) <= exposure_cap policy.
Proof.
  intros Hc Hf Hp. pose proof (service_run_inv std_exp std_pow std_log llround_unrepresentable K h0 turns) as [(labels & Es & Hwf) Hss Hcalls].
  set (s := service_run turns (service_start h0)) in *.
  etrans; [|eapply (answered_capped std_exp std_pow std_log llround_unrepresentable _ _ _ _ _ _ _ h0 Hnew labels id Hc Hf Hp)];
    [|eapply Forall_impl; [apply wf_request_typed|exact Hwf]].
  rewrite <- Es. unfold answered_shows. rewrite <- (zsum_lookup (answer_shows id)).
  assert (E : forall f : nat -> Z, zsum (map f (seq 0 (length (sys_calls (srv_sys s))))) =
    zsum (map (fun l => zsum (map f l)) (map ss_calls (srv_sessions s)))).
  { intros f. rewrite <- zsum_concat. by rewrite Hcalls. }
  rewrite E, map_map. apply zsum_le. intros ss (j & Hj)%list_elem_of_lookup.
  destruct (Forall2_lookup_r _ _ _ _ _ Hss Hj) as (s0 & _ & Hok). by eapply session_shows_calls.
Qed.


(** The session of a connection given enough turns. *)
Lemma served_over before after s0 :
  let j := length (streams before) in
  (input_turns K (pending (rx s0)) <= runs j after)%nat ->
  exists ss e, srv_sessions (service_run (before ++ Connect s0 :: after) (service_start h0)) !! j = Some ss /\
    ss_phase ss = Over e.
Proof.
  intros j Hb. set (s := service_run (before ++ [Connect s0]) (service_start h0)).
  pose proof (service_run_inv std_exp std_pow std_log llround_unrepresentable K h0 (before ++ [Connect s0])) as Hinv. fold s in Hinv.
  pose proof (service_run_inv std_exp std_pow std_log llround_unrepresentable K h0 before) as [_ Hss _].
  assert (Hj : srv_sessions s !! j = Some (session_new s0)).
  { unfold s, Service.service_run. rewrite foldl_app. cbn. unfold j. apply Forall2_length in Hss as El. rewrite El.
    unfold Service.service_run. by rewrite lookup_app_r, Nat.sub_diag. }
  destruct (service_run_progress std_exp std_pow std_log llround_unrepresentable K h0 after _ s j _ Hinv Hj) as (ss & H1 & H2).
  replace (service_run (before ++ Connect s0 :: after) (service_start h0)) with (service_run after s).
  2: { unfold s, Service.service_run. rewrite !foldl_app. done. }
  destruct H2 as [[e He]|H2]; [by exists ss, e|].
  assert (turns_left K (srv_sys (service_run after s)) ss = 0%nat) as H0.
  { unfold turns_left at 2 in H2. cbn [ss_phase session_new ss_conn stream] in H2. lia. }
  unfold turns_left in H0. destruct (ss_phase ss) as [| |e] eqn:Ep; [..|by exists ss, e]; unfold input_turns in H0; lia.
Qed.
End Claims.

(** ** Over the binary codec *)

Section Served.
Variables (std_exp : double -> double) (std_pow : double -> double -> double).
Variables (std_log : double -> double) (llround_unrepresentable : double -> Z).
Variable h0 : Handler.
Hypothesis Hok0 : handler_ok h0.
#[local] Abbreviation K := (consts h0).
#[local] Abbreviation service_run := (service_run (C := BinaryCodec) std_exp std_pow std_log llround_unrepresentable K).

(** The refusal of a field too large fits a frame. *)
Lemma refusal_sendable id :
  sendable (C := BinaryCodec) (make_error id SC_InvalidRequest (decode_error_to_string DE_FieldTooLarge)) = true.
Proof.
  apply size_in_range_spec. cbn [encode_response BinaryCodec]. rewrite encode_resp_app, app_nil_l, zlen_app.
  assert (E : forall t, zlen (header_bytes t id) = 16) by (intros t; unfold zlen; by rewrite length_header).
  cbn [make_error resp_id resp_body]. rewrite E. by vm_compute.
Qed.

Lemma service_lossless turns :
  Forall2 (fun s0 ss => lossless (tx s0) -> session_lossless (C := BinaryCodec) s0 ss)
    (streams turns) (srv_sessions (service_run turns (service_start h0))).
Proof.
  induction turns as [|t turns IH] using rev_ind; [constructor|].
  pose proof (service_run_inv std_exp std_pow std_log llround_unrepresentable K h0 turns) as [(labels & Es & Hwf) Hss _].
  unfold Service.service_run, streams. rewrite foldl_app, omap_app. cbn [foldl]. fold (streams turns).
  fold (service_run turns (service_start h0)). set (s := service_run turns (service_start h0)) in *.
  destruct t as [stream|j clock]; cbn [service_step omap list_omap].
  { apply Forall2_app; [done|]. constructor; [|constructor]. intros Hl. by split. }
  rewrite app_nil_r. destruct (srv_sessions s !! j) as [ss|] eqn:Ej; [|done].
  destruct (Forall2_lookup_r _ _ _ _ _ Hss Ej) as (s0 & Es0 & Hok).
  destruct (Forall2_lookup_r _ _ _ _ _ IH Ej) as (s0' & Es0' & Hl). rewrite Es0 in Es0'. injection Es0' as <-.
  pose proof (fun H => lossless_step std_exp std_pow std_log llround_unrepresentable K clock s0 ss (srv_sys s) Hok (Hl H)) as Hst.
  destruct (session_step _ _ _ _ _ _ _ _) as [ss' sys']. cbn [srv_sessions fst] in *.
  rewrite <- (list_insert_id _ j s0 Es0). apply Forall2_insert; [done|]. intros H. apply (Hst H); [|apply refusal_sendable].
  intros c response Hc Ha. rewrite Es in Hc.
  destruct (run_answers_good _ _ _ _ h0 Hok0 labels c response Hwf Hc Ha) as (W & S & _).
  by apply size_in_range_spec, response_in_range.
Qed.

(** What an answer is, beyond being one. *)
Lemma replies_good turns j ss : srv_sessions (service_run turns (service_start h0)) !! j = Some ss ->
  forall reply, reply ∈ ss_replies ss ->
    resp_id (reply_response reply) = req_id (reply_request reply) /\
    (is_Some (reply_call reply) -> wf_response (reply_response reply) /\
       forall out, decode_resp (encode_resp (reply_response reply) []) out = (DE_None, reply_response reply)).
Proof.
  pose proof (service_run_inv std_exp std_pow std_log llround_unrepresentable K h0 turns) as [(labels & Es & Hwf) Hss _].
  intros Hj reply Hr. destruct (Forall2_lookup_r _ _ _ _ _ Hss Hj) as (s0 & _ & [_ _ (answered & un & calls & _ & E2 & _)]).
  apply list_elem_of_lookup in Hr as [k Hk].
  destruct (Forall2_lookup_r _ _ _ _ _ E2 Hk) as (body & _ & Hrep). unfold replies_to in Hrep.
  destruct (reply_call reply) as [i|]; [|destruct Hrep as [_ ->]; split; [done|by intros []]].
  destruct Hrep as (_ & c & Hc & <- & Ha). rewrite Es in Hc.
  pose proof (sys_run_inv std_exp std_pow std_log llround_unrepresentable K h0 labels) as Hinv.
  pose proof (Forall_lookup_1 _ _ _ _ (sv_calls _ _ _ _ _ _ _ Hinv) Hc) as Hp. apply list_elem_of_lookup_2 in Hc.
  destruct (run_answers_good _ _ _ _ h0 Hok0 labels c _ Hwf Hc Ha) as (W & S & Kn).
  split; [|intros _; split; [done|intros out; by apply decode_resp_roundtrip]].
  assert (Ht : typed (call_request c)).
  { apply wf_request_typed. rewrite list.Forall_forall in Hwf. by eapply Hwf, call_arrived. }
  by destruct (handle_events _ _ _ _ _ _ _ _ Ht (answered_path _ _ _ _ _ c _ Hp Ha)).
Qed.

(** ** The connection of a client *)

(** C4: Every client is served to its end. Let a connection come at any moment of any schedule,
    over a socket that delivers what is sent on it, and let its worker have
    [input_turns] turns, a number its input alone fixes, scattered in any way among the
    turns of the others. Then the loop is over; every message up to the first frame that is
    none has been answered, in order and with its own id; exactly the frames of these
    answers were sent; and those of the handler are well-formed and decode at the client to
    what the handler said. *)
Theorem service_serves_to_end (before after : list Turn) (s0 : UnixStream) :
  let j := length (streams before) in
  let s := service_run (before ++ Connect s0 :: after) (service_start h0) in
  lossless (tx s0) -> (input_turns (C := BinaryCodec) K (pending (rx s0)) <= runs j after)%nat ->
  exists ss e, srv_sessions s !! j = Some ss /\ ss_phase ss = Over e /\
    Forall2 (replies_to (srv_sys s)) (messages (frames_of (pending (rx s0)))) (ss_replies ss) /\
    sent (stream (ss_conn ss)) = sent s0 ++ response_frames (map reply_response (ss_replies ss)) /\
    forall reply, reply ∈ ss_replies ss ->
      resp_id (reply_response reply) = req_id (reply_request reply) /\
      (is_Some (reply_call reply) -> wf_response (reply_response reply) /\
         forall out, decode_resp (encode_resp (reply_response reply) []) out = (DE_None, reply_response reply)).
Proof.
  intros j s Hl Hturns. destruct (served_over std_exp std_pow std_log llround_unrepresentable h0 before after s0 Hturns) as (ss & e & Hj & He).
  exists ss, e. set (turns := before ++ Connect s0 :: after) in *.
  pose proof (service_run_inv std_exp std_pow std_log llround_unrepresentable K h0 turns) as [_ Hss _]. fold s in Hss, Hj. fold j in Hj.
  assert (Hs0 : streams turns !! j = Some s0).
  { unfold turns, streams. rewrite omap_app. cbn. by rewrite lookup_app_r, Nat.sub_diag. }
  destruct (Forall2_lookup_r _ _ _ _ _ Hss Hj) as (s0' & Hs0' & Hok). rewrite Hs0 in Hs0'. injection Hs0' as <-.
  destruct (Forall2_lookup_r _ _ _ _ _ (service_lossless turns) Hj) as (s0' & Hs0' & Hll). rewrite Hs0 in Hs0'. injection Hs0' as <-.
  destruct (Hll Hl) as [_ Hover Hwrite]. destruct (Hover e He) as [Hm Hlen].
  destruct Hok as [_ (tail & Hsent & Ht) (answered & un & calls & E1 & E2 & _)].
  assert (un = []) as ->.
  { apply Forall2_length in E2. rewrite E1, length_app in Hlen. destruct un; [done|]. cbn in Hlen. lia. }
  rewrite app_nil_r in E1. split_and!; [done|done|by rewrite Hm, E1| |by eapply replies_good].
  assert (tail = []) as -> by (destruct Ht as [->|[status Hs]]; [done|]; by destruct (Hwrite status)).
  by rewrite Hsent, app_nil_r.
Qed.
End Served.

(** * A session alone *)

Section Alone.
Context {C : Codec} {L : CodecLaws C}.
Variables (std_exp : double -> double) (std_pow : double -> double -> double).
Variables (std_log : double -> double) (llround_unrepresentable : double -> Z).
Variable h0 : Handler.
Hypothesis Hok0 : handler_ok h0.
#[local] Abbreviation K := (consts h0).
#[local] Abbreviation service_step := (service_step std_exp std_pow std_log llround_unrepresentable K).
#[local] Abbreviation service_run := (service_run std_exp std_pow std_log llround_unrepresentable K).
#[local] Abbreviation serve_step := (serve_step std_exp std_pow std_log llround_unrepresentable).
#[local] Abbreviation serve_loop := (serve_loop std_exp std_pow std_log llround_unrepresentable).
Variable clock : nat -> Timestamp.
#[local] Abbreviation alone := (fun (_ : nat) (h : Handler) => h).

(** Only session [j] moves. *)
Definition only (j : nat) (turns : list Turn) : Prop :=
  Forall (fun t => match t with Run i _ => i = j | Connect _ => False end) turns.

Lemma service_run_app turns turns' s : service_run (turns ++ turns') s = service_run turns' (service_run turns s).
Proof. apply foldl_app. Qed.

(** A call left to itself runs its program to the end. *)
Lemma alone_handling now j ss i (p : prog Response) : forall s request events,
  srv_sessions s !! j = Some ss -> ss_phase ss = Handling i ->
  sys_calls (srv_sys s) !! i = Some (MkCall request events p) ->
  exists turns events', only j turns /\
    srv_sessions (service_run turns s) = srv_sessions s /\
    sys_handler (srv_sys (service_run turns s)) = snd (exec now p (sys_handler (srv_sys s))) /\
    sys_calls (srv_sys (service_run turns s)) !! i =
      Some (MkCall request events' (Ret (fst (exec now p (sys_handler (srv_sys s)))))).
Proof.
  induction p as [response|R op k IH]; intros s request events Hj Hp Hc.
  { exists [], events. by split; [constructor|]. }
  destruct (exec_op now op (sys_handler (srv_sys s))) as [r h] eqn:Eop.
  assert (E : service_step s (Run j now) = MkService (MkSystem h
      (<[i := MkCall request (events ++ [Ev op r]) (k r)]> (sys_calls (srv_sys s))) (sys_history (srv_sys s) ++ [Ev op r]))
      (srv_sessions s)).
  { cbn [Service.service_step]. rewrite Hj. unfold session_step. rewrite Hp, Hc. cbn [answer call_prog Interleaving.sys_step].
    rewrite Hc. cbv iota beta. rewrite Eop. by rewrite (list_insert_id _ j ss Hj). }
  destruct (IH r (service_step s (Run j now)) request (events ++ [Ev op r])) as (turns & events' & H1 & H2 & H3 & H4).
  - by rewrite E.
  - done.
  - rewrite E. cbn. by apply list_lookup_insert_eq, lookup_lt_Some with (MkCall request events (Do op k)).
  - rewrite E in H3, H4. cbn [srv_sys sys_handler] in H3, H4. exists (Run j now :: turns), events'. split; [by constructor|].
    change (service_run (Run j now :: turns) s) with (service_run turns (service_step s (Run j now))).
    cbn [exec]. rewrite Eop. rewrite E in H2 |- *. by split_and!.
Qed.

(** Writing, in a session, is the writing of the loop. *)
Lemma session_write_eq counted reply ss : let '(e, c) := serve_write counted (reply_response reply) (ss_conn ss) in
  ss_conn (session_write counted reply ss) = c /\
  ss_phase (session_write counted reply ss) = from_option Over Waiting e.
Proof. unfold session_write. by destruct (serve_write _ _ _) as [[] ?]. Qed.

Lemma alone_turn s j ss now : srv_sessions s !! j = Some ss ->
  srv_sessions (service_step s (Run j now)) !! j =
    Some (fst (session_step std_exp std_pow std_log llround_unrepresentable K now ss (srv_sys s))) /\
  srv_sys (service_step s (Run j now)) =
    snd (session_step std_exp std_pow std_log llround_unrepresentable K now ss (srv_sys s)).
Proof.
  intros Hj. cbn [Service.service_step]. rewrite Hj. destruct (session_step _ _ _ _ _ _ _ _) as [ss' sys'].
  split; [|done]. cbn. by apply list_lookup_insert_eq, lookup_lt_Some with ss.
Qed.

(** One iteration of the loop is a schedule. *)
Lemma alone_iteration k s j ss : srv_sessions s !! j = Some ss -> ss_phase ss = Waiting ->
  consts (sys_handler (srv_sys s)) = K ->
  let '(e, c, h) := serve_step clock alone k (ss_conn ss) (sys_handler (srv_sys s)) in
  exists turns ss', only j turns /\ srv_sessions (service_run turns s) !! j = Some ss' /\
    ss_conn ss' = c /\ ss_phase ss' = from_option Over Waiting e /\ sys_handler (srv_sys (service_run turns s)) = h.
Proof.
  intros Hj Hp HK. rewrite serve_step_halves. destruct (alone_turn s j ss (clock k) Hj) as [Hj1 Hs1].
  unfold session_step in Hj1, Hs1. rewrite Hp in Hj1, Hs1. destruct (serve_read (ss_conn ss)) as [outcome c].
  destruct outcome as [e|request rejection|request]; cbn [fst snd] in Hj1, Hs1.
  - exists [Run j (clock k)]. eexists. split; [by repeat constructor|]. split; [exact Hj1|]. cbn [service_run foldl Service.service_run]. by rewrite Hs1.
  - match type of Hj1 with _ = Some (session_write ?b ?r ?x) => pose proof (session_write_eq b r x) as Hw end.
    cbn [reply_response ss_conn] in Hw. destruct (serve_write false rejection c) as [e c']. destruct Hw as [Hw1 Hw2].
    exists [Run j (clock k)]. eexists. split; [by repeat constructor|]. split; [exact Hj1|]. cbn [foldl Service.service_run]. by rewrite Hs1.
  - set (s1 := service_step s (Run j (clock k))) in *. set (i := length (sys_calls (srv_sys s))) in *.
    assert (Hc : sys_calls (srv_sys s1) !! i =
      Some (MkCall request [] (handle_prog std_exp std_pow std_log llround_unrepresentable K request))).
    { rewrite Hs1. cbn. by rewrite lookup_app_r, Nat.sub_diag. }
    assert (Eh : sys_handler (srv_sys s1) = sys_handler (srv_sys s)) by (by rewrite Hs1).
    destruct (alone_handling (clock k) j _ i _ s1 request [] Hj1 eq_refl Hc) as (turns & events & H1 & H2 & H3 & H4).
    assert (Ex : exec (clock k) (handle_prog std_exp std_pow std_log llround_unrepresentable K request) (sys_handler (srv_sys s)) =
      handle std_exp std_pow std_log llround_unrepresentable (clock k) request (sys_handler (srv_sys s))).
    { by rewrite <- HK, exec_handle. }
    rewrite Eh, Ex in H3, H4.
    destruct (handle _ _ _ _ _ _ _) as [response h]. cbn [fst snd] in H3, H4.
    set (s2 := service_run turns s1) in *. rewrite <- H2 in Hj1.
    destruct (alone_turn s2 j _ (clock k) Hj1) as [Hj3 Hs3]. unfold session_step in Hj3, Hs3. cbn [ss_phase] in Hj3, Hs3.
    rewrite H4 in Hj3, Hs3. cbn [answer call_prog fst snd] in Hj3, Hs3.
    match type of Hj3 with _ = Some (session_write ?b ?r ?x) => pose proof (session_write_eq b r x) as Hw end.
    cbn [reply_response ss_conn] in Hw. destruct (serve_write true response c) as [e c']. destruct Hw as [Hw1 Hw2].
    exists ((Run j (clock k) :: turns) ++ [Run j (clock k)]). eexists.
    split; [apply Forall_app; split; [by constructor|by repeat constructor]|]. rewrite service_run_app.
    change (service_run (Run j (clock k) :: turns) s) with s2. cbn [foldl Service.service_run]. split; [exact Hj3|]. by rewrite Hs3.
Qed.

(** Going round again takes a frame off the input, whatever the kernel does. *)
Lemma serve_step_shrinks k c h c' h' : serve_step clock alone k c h = (None, c', h') ->
  length (frames_of (pending (rx (stream c)))) = S (length (frames_of (pending (rx (stream c'))))).
Proof.
  rewrite serve_step_halves. destruct (next_frame (pending (rx (stream c)))) as [[body rest]|] eqn:En.
  - destruct (serve_read_frame c body rest En) as (outcome & c1 & -> & _ & Hp & _ & _ & _). rewrite frames_of_eq, En, <- Hp.
    destruct outcome as [e|request rejection|request]; [done| |].
    + destruct (serve_write_outcome false rejection c1) as (e & c2 & -> & Hx & _). intros [= -> -> _]. by rewrite Hx.
    + destruct (handle _ _ _ _ _ _ _) as [response h1].
      destruct (serve_write_outcome true response c1) as (e & c2 & -> & Hx & _). intros [= -> -> _]. by rewrite Hx.
  - by destruct (serve_read_end c En) as (e & c1 & -> & _).
Qed.

Lemma service_consts turns : consts (sys_handler (srv_sys (service_run turns (service_start h0)))) = K.
Proof.
  destruct (service_run_inv std_exp std_pow std_log llround_unrepresentable K h0 turns) as [(labels & -> & Hwf) _ _].
  by destruct (run_good std_exp std_pow std_log llround_unrepresentable h0 Hok0 labels Hwf) as [(_ & ? & _) _].
Qed.

Lemma alone_loop fuel : forall turns k j ss, let s := service_run turns (service_start h0) in
  srv_sessions s !! j = Some ss -> ss_phase ss = Waiting ->
  (length (frames_of (pending (rx (stream (ss_conn ss))))) < fuel)%nat ->
  exists more ss' e, let s' := service_run (turns ++ more) (service_start h0) in
    only j more /\ srv_sessions s' !! j = Some ss' /\ ss_phase ss' = Over e /\
    serve_loop clock alone fuel k (ss_conn ss) (sys_handler (srv_sys s)) =
      Some (e, ss_conn ss', sys_handler (srv_sys s')).
Proof.
  induction fuel as [|fuel IH]; intros turns k j ss s Hj Hp Hf; [lia|].
  pose proof (alone_iteration k s j ss Hj Hp (service_consts turns)) as Hit. cbn [Serve.serve_loop].
  destruct (serve_step clock alone k (ss_conn ss) (sys_handler (srv_sys s))) as [[e c] h] eqn:Es.
  destruct Hit as (more & ss1 & Ho & Hj1 & Ec & Ep & Eh). unfold s in Hj1, Eh. rewrite <- service_run_app in Hj1, Eh.
  destruct e as [e|]; cbn [from_option] in Ep.
  - exists more, ss1, e. by rewrite Ec, Eh.
  - apply serve_step_shrinks in Es as Hl. rewrite <- Ec in Hl.
    destruct (IH (turns ++ more) (S k) j ss1 Hj1 Ep ltac:(lia)) as (more' & ss' & e & Ho' & Hj' & Ep' & El).
    exists (more ++ more'), ss', e. cbv zeta in *. rewrite app_assoc. rewrite Ec, Eh in El.
    split; [by apply Forall_app|done].
Qed.

End Alone.

(** * Two clients at once *)

(** The one puts an item and asks for a recommendation, so does the other; their workers
    take turns. *)
Definition sample_turns : list Turn :=
  Connect sample_client :: Connect sample_client ::
  concat (map (fun t => [Run 0 (Z.of_nat t); Run 1 (Z.of_nat t)]) (seq 0 40)).
#[local] Abbreviation sample_service turns := (service_run (C := BinaryCodec) unit_exp unit_pow (fun x => x) (fun _ => 0)
  (consts sample_handler) turns (service_start sample_handler)).

Lemma service_shows_capped_witness :
  map (session_shows 7) (srv_sessions (sample_service sample_turns)) = [1; 1] /\
  zsum (map (session_shows 7) (srv_sessions (sample_service sample_turns))) <= 3.
Proof.
  split; [vm_compute; reflexivity|].
  refine (service_shows_capped (C := BinaryCodec) unit_exp unit_pow (fun x => x) (fun _ => 0) 1 2 8 2
    lone_config (sample_config false) sample_handler_privacy sample_handler sample_handler_new sample_turns 7 _ _ _).
  - reflexivity.
  - by vm_compute.
  - by vm_compute.
Defined.

(** The second client comes when the first is being served. *)
Lemma service_serves_to_end_witness :
  exists ss e, srv_sessions (sample_service sample_turns) !! 1%nat = Some ss /\ ss_phase ss = Over e /\
    sent (stream (ss_conn ss)) = response_frames (map reply_response (ss_replies ss)).
Proof.
  destruct (service_serves_to_end unit_exp unit_pow (fun x => x) (fun _ => 0) sample_handler sample_handler_ok
    [Connect sample_client] (drop 2 sample_turns) sample_client) as (ss & e & Hj & He & _ & Hs & _).
  - constructor.
  - vm_compute. lia.
  - exists ss, e. split; [exact Hj|]. split; [exact He|]. exact Hs.
Defined.


