(* ===== verification/Connection.v ===== *)
(** A client connection (include/lrd/client/connection.hpp, src/client/connection.cpp):
    one request, one response, over a stream of Io.v and any [Codec].

    A closed stream is one whose descriptor is -1: every system call on it fails with
    EBADF. [call] closes the stream after every failure that may leave the two ends out of
    step. The theorems: such a connection is never used again, whatever the daemon sends;
    and against the daemon of Serve.v every call returns what the handler answered. *)
From stdpp Require Import base option list gmap numbers.
From S2P Require Import Prelude Binary64 Item Message Wire Codec BinaryCodec Io Framing.
From S2P Require Import HashMix LruCache ShardedCache ExposureStore Scorer Handler Responses ConnectionRegistry Serve.

(** * Definitions *)

Inductive CallStatus :=
| Cs_Ok | Cs_NotFound | Cs_InvalidRequest | Cs_ServerError | Cs_ConnectionLost | Cs_ProtocolError.

#[global] Instance CallStatus_eq_dec : EqDecision CallStatus.
Proof. solve_decision. Defined.

Definition call_status_to_string (status : CallStatus) : bstring :=
  str (match status with
  | Cs_Ok => "Ok"
  | Cs_NotFound => "NotFound"
  | Cs_InvalidRequest => "InvalidRequest"
  | Cs_ServerError => "ServerError"
  | Cs_ConnectionLost => "ConnectionLost"
  | Cs_ProtocolError => "ProtocolError"
  end)%string.

Definition EBADF : Z := 9.

(** [UnixStream::close]: from here on the next [::read] and the next [::send] fail. *)
Definition close_stream (s : UnixStream) : UnixStream := MkStream [RErr EBADF] [SErr EBADF] (sent s).

Record Connection := MkConnection {
  stream_ : UnixStream;
  valid_ : bool;                (** [stream_.valid()] *)
  read_buffer_ : ByteBuffer;
  write_buffer_ : ByteBuffer;
  next_request_id_ : Z;
  last_error_ : bstring
}.

Definition connection_new (s : UnixStream) : Connection := MkConnection s true [] [] 1 [].
Definition connected (c : Connection) : bool := valid_ c.

Definition with_error (message : bstring) (c : Connection) : Connection :=
  MkConnection (stream_ c) (valid_ c) (read_buffer_ c) (write_buffer_ c) (next_request_id_ c) message.
Definition fail (status : CallStatus) (message : bstring) (c : Connection) : CallStatus * Connection :=
  (status, with_error message c).

Definition close_connection (c : Connection) : Connection :=
  MkConnection (close_stream (stream_ c)) false (read_buffer_ c) (write_buffer_ c) (next_request_id_ c)
    (last_error_ c).

Definition take_id (c : Connection) : Z * Connection :=
  (next_request_id_ c,
   MkConnection (stream_ c) (valid_ c) (read_buffer_ c) (write_buffer_ c) (incr64 (next_request_id_ c))
     (last_error_ c)).

(** [std::get_if] on the reply. *)
Definition get_put (b : ResponseBody) : option StatusCode := match b with PutItemResult s => Some s | _ => None end.
Definition get_got (b : ResponseBody) : option (StatusCode * Item) :=
  match b with GetItemResult s i => Some (s, i) | _ => None end.
Definition get_deleted (b : ResponseBody) : option StatusCode :=
  match b with DeleteItemResult s => Some s | _ => None end.
Definition get_ranked (b : ResponseBody) : option (StatusCode * list RankedItem) :=
  match b with RecommendResult s items => Some (s, items) | _ => None end.
Definition get_stats (b : ResponseBody) : option (StatusCode * Stats) :=
  match b with StatsResult s st => Some (s, st) | _ => None end.

Definition unexpected (b : ResponseBody) : bstring :=
  str "unexpected reply type " ++ message_type_to_string (type_of_response b).

(** The result, or the failure the caller returns. *)
Definition expect {A} (get : ResponseBody -> option A) (response : Response) (c : Connection)
    : CallStatus * Connection + A :=
  match get (resp_body response) with
  | Some a => inr a
  | None => inl (fail Cs_ProtocolError (unexpected (resp_body response)) c)
  end.

Section Connection.
Context {C : Codec}.

(** The status, the final value of the out-parameter, and the connection. *)
Definition call (request : Request) (response : Response) (c : Connection)
    : CallStatus * Response * Connection :=
  let c := with_error [] c in
  let '(written, s, buffer) := write_message (stream_ c) (encode_request request) (write_buffer_ c) in
  let c := MkConnection s (valid_ c) (read_buffer_ c) buffer (next_request_id_ c) (last_error_ c) in
  if negb (frame_ok written) then
    let '(status, c) := fail Cs_ConnectionLost
      (str "send failed: " ++ frame_status_to_string (f_status written)) (close_connection c) in
    (status, response, c)
  else
    let '(read, s, buffer) := read_frame (stream_ c) (read_buffer_ c) in
    let c := MkConnection s (valid_ c) buffer (write_buffer_ c) (next_request_id_ c) (last_error_ c) in
    if negb (frame_ok read) then
      let '(status, c) := fail Cs_ConnectionLost
        (str "receive failed: " ++ frame_status_to_string (f_status read)) (close_connection c) in
      (status, response, c)
    else
      let '(error, response) := decode_response (read_buffer_ c) response in
      if negb (bool_decide (error = DE_None)) then
        let '(status, c) := fail Cs_ProtocolError
          (str "decode failed: " ++ decode_error_to_string error) (close_connection c) in
        (status, response, c)
      else if negb (resp_id response =? req_id request) then
        let '(status, c) := fail Cs_ProtocolError
          (str "response id " ++ format_dec (resp_id response) ++ str " does not match request id "
             ++ format_dec (req_id request)) (close_connection c) in
        (status, response, c)
      else
        match resp_body response with
        | Failure s message =>
            let '(status, c) :=
              fail (if s =? SC_InvalidRequest then Cs_InvalidRequest else Cs_ServerError) message c in
            (status, response, c)
        | _ => (Cs_Ok, response, c)
        end.

Definition put_item (item : Item) (c : Connection) : CallStatus * Connection :=
  if kMaxCategoryLength <? zlen (item_category item) then
    fail Cs_InvalidRequest
      (str "category is " ++ format_dec (zlen (item_category item)) ++ str " bytes, limit is "
         ++ format_dec kMaxCategoryLength) c
  else if kMaxAdvertiserLength <? zlen (item_advertiser item) then
    fail Cs_InvalidRequest
      (str "advertiser is " ++ format_dec (zlen (item_advertiser item)) ++ str " bytes, limit is "
         ++ format_dec kMaxAdvertiserLength) c
  else
    let '(id, c) := take_id c in
    let '(status, response, c) := call (MkRequest id (PutItem item)) default_response c in
    if negb (bool_decide (status = Cs_Ok)) then (status, c)
    else match expect get_put response c with
         | inl failed => failed
         | inr _ => (Cs_Ok, c)
         end.

Definition get_item (id : ItemId) (item : Item) (c : Connection) : CallStatus * Item * Connection :=
  let '(rid, c) := take_id c in
  let '(status, response, c) := call (MkRequest rid (GetItem id)) default_response c in
  if negb (bool_decide (status = Cs_Ok)) then (status, item, c)
  else match expect get_got response c with
       | inl (status, c) => (status, item, c)
       | inr (s, found) => if s =? SC_NotFound then (Cs_NotFound, item, c) else (Cs_Ok, found, c)
       end.

Definition delete_item (id : ItemId) (c : Connection) : CallStatus * Connection :=
  let '(rid, c) := take_id c in
  let '(status, response, c) := call (MkRequest rid (DeleteItem id)) default_response c in
  if negb (bool_decide (status = Cs_Ok)) then (status, c)
  else match expect get_deleted response c with
       | inl failed => failed
       | inr s => (if s =? SC_NotFound then Cs_NotFound else Cs_Ok, c)
       end.

Definition recommend (signal : UserSignal) (count : Z) (items : list RankedItem) (dry_run : bool)
    (c : Connection) : CallStatus * list RankedItem * Connection :=
  if (count =? 0) || (kMaxRecommendCount <? count) then
    let '(status, c) :=
      fail Cs_InvalidRequest (str "count must be between 1 and " ++ format_dec kMaxRecommendCount) c in
    (status, items, c)
  else
    let '(rid, c) := take_id c in
    let '(status, response, c) :=
      call (MkRequest rid (RecommendBody (MkRecommend signal count dry_run))) default_response c in
    if negb (bool_decide (status = Cs_Ok)) then (status, items, c)
    else match expect get_ranked response c with
         | inl (status, c) => (status, items, c)
         | inr (_, ranked) => (Cs_Ok, ranked, c)
         end.

Definition fetch_stats (stats : Stats) (c : Connection) : CallStatus * Stats * Connection :=
  let '(rid, c) := take_id c in
  let '(status, response, c) := call (MkRequest rid GetStats) default_response c in
  if negb (bool_decide (status = Cs_Ok)) then (status, stats, c)
  else match expect get_stats response c with
       | inl (status, c) => (status, stats, c)
       | inr (_, st) => (Cs_Ok, st, c)
       end.
End Connection.

(** What [call] makes of a reply it accepts. *)
Definition reply_status (b : ResponseBody) : CallStatus :=
  match b with
  | Failure s _ => if s =? SC_InvalidRequest then Cs_InvalidRequest else Cs_ServerError
  | _ => Cs_Ok
  end.

(** A sequence of calls on one connection. *)
Fixpoint calls {C : Codec} (qs : list Request) (c : Connection) : list CallStatus * Connection :=
  match qs with
  | [] => ([], c)
  | q :: qs =>
      let '(status, _, c) := call q default_response c in
      let '(statuses, c) := calls qs c in (status :: statuses, c)
  end.

Definition fatal (status : CallStatus) : Prop := status = Cs_ConnectionLost \/ status = Cs_ProtocolError.

(** * Whatever the daemon sends *)

(** An invalid connection sits on a closed stream. *)
Definition conn_inv (c : Connection) : Prop :=
  valid_ c = false -> rx (stream_ c) = [RErr EBADF] /\ tx (stream_ c) = [SErr EBADF].

Section Failures.
Context {C : Codec} {L : CodecLaws C}.

Lemma write_closed s (encode : ByteBuffer -> ByteBuffer) scratch :
  tx s = [SErr EBADF] -> (forall out, encode out = out ++ encode []) ->
  let '(r, s', _) := write_message s encode scratch in
  frame_ok r = false /\ sent s' = sent s.
Proof.
  intros Ht Happ. rewrite write_message_frame by done. unfold write_frame.
  destruct (size_in_range (zlen (encode []))); [|done]. cbn [negb].
  set (framed := append_be _ _ _ ++ encode []).
  assert (Hl : exists n, length framed = S n).
  { unfold framed. rewrite append_be_app, app_nil_l, length_app, length_be_bytes. by eexists. }
  destruct Hl as [n Hl]. unfold write_all. rewrite Ht, Hl. cbn. by rewrite app_nil_r.
Qed.

Lemma closed_inv c message : conn_inv (with_error message (close_connection c)).
Proof. done. Qed.

Lemma call_outcome q r c status r' c' :
  conn_inv c -> call q r c = (status, r', c') ->
  conn_inv c' /\
  (fatal status -> valid_ c' = false) /\
  (valid_ c = false -> status = Cs_ConnectionLost /\ sent (stream_ c') = sent (stream_ c)) /\
  (~ fatal status -> resp_id r' = req_id q /\ status = reply_status (resp_body r')).
Proof.
  intros Hinv. unfold call, fail. cbn [stream_ with_error write_buffer_ read_buffer_ valid_ next_request_id_ last_error_].
  pose proof (fun H => write_closed (stream_ c) (encode_request q) (write_buffer_ c) (proj2 (Hinv H))
    (fun out => encode_request_app q out)) as Hclosed.
  destruct (write_message _ _ _) as [[written s] buffer].
  destruct (frame_ok written) eqn:Hw; cbn [negb].
  2:{ intros [= <- <- <-]. split_and!; [apply closed_inv|done| |intros []; by left].
      intros Hv. by destruct (Hclosed Hv). }
  assert (Hv : valid_ c = true) by (destruct (valid_ c); [done|]; by destruct (Hclosed eq_refl)).
  assert (Hopen : forall s b1 b2 n m, conn_inv (MkConnection s (valid_ c) b1 b2 n m)) by (intros; unfold conn_inv; cbn; by rewrite Hv).
  destruct (read_frame _ _) as [[read s1] buffer1].
  destruct (frame_ok read); cbn [negb].
  2:{ intros [= <- <- <-]. split_and!; [apply closed_inv|done|congruence|intros []; by left]. }
  destruct (decode_response _ _) as [error r1].
  destruct (bool_decide (error = DE_None)); cbn [negb].
  2:{ intros [= <- <- <-]. split_and!; [apply closed_inv|done|congruence|intros []; by right]. }
  destruct (Z.eqb_spec (resp_id r1) (req_id q)) as [Hid|Hid]; cbn [negb].
  2:{ intros [= <- <- <-]. split_and!; [apply closed_inv|done|congruence|intros []; by right]. }
  destruct (resp_body r1) as [| | | | |s2 m] eqn:Eb; intros [= <- <- <-]; rewrite ?Eb;
    (split_and!; [apply Hopen| |congruence|done]); intros [H|H]; try done; by destruct (s2 =? SC_InvalidRequest).
Qed.

Lemma calls_inv qs c : conn_inv c -> conn_inv (snd (calls qs c)).
Proof.
  revert c. induction qs as [|q qs IH]; intros c Hinv; [done|]. cbn [calls].
  destruct (call q default_response c) as [[st r] c1] eqn:E.
  apply call_outcome in E as [Hi _]; [|done]. specialize (IH c1 Hi). by destruct (calls qs c1).
Qed.

Lemma calls_closed qs c :
  conn_inv c -> valid_ c = false ->
  Forall (eq Cs_ConnectionLost) (fst (calls qs c)) /\ sent (stream_ (snd (calls qs c))) = sent (stream_ c).
Proof.
  revert c. induction qs as [|q qs IH]; intros c Hinv Hv; [done|]. cbn [calls].
  destruct (call q default_response c) as [[st r] c1] eqn:E.
  apply call_outcome in E as (Hi & Hf & Hc & _); [|done]. destruct (Hc Hv) as [-> Hs].
  destruct (IH c1 Hi) as [H1 H2]; [apply Hf; by left|]. destruct (calls qs c1). cbn in *.
  split; [by apply Forall_cons_2|congruence].
Qed.

(** C22: a connection out of step is never used again. Whatever the daemon and the
    kernel do, and for any codec: once a call has ended in ConnectionLost or
    ProtocolError the connection is closed, every later call answers ConnectionLost, and not a byte
    more is sent; and a call that ends otherwise has read the reply to its own
    request and reports that reply's status. *)
Theorem fatal_call_is_last s qs q qs' :
  let c := snd (calls qs (connection_new s)) in
  let '(status, r, c1) := call q default_response c in
  (fatal status ->
     connected c1 = false /\ Forall (eq Cs_ConnectionLost) (fst (calls qs' c1)) /\
     sent (stream_ (snd (calls qs' c1))) = sent (stream_ c1)) /\
  (~ fatal status -> resp_id r = req_id q /\ status = reply_status (resp_body r)).
Proof.
  cbv zeta. pose proof (calls_inv qs (connection_new s) ltac:(done)) as Hinv.
  destruct (call q default_response _) as [[status r] c1] eqn:E.
  apply call_outcome in E as (Hi & Hf & _ & Hok); [|done]. split; [|done].
  intros H. split; [by apply Hf|]. apply calls_closed; [done|by apply Hf].
Qed.
End Failures.

(** * Against the daemon *)

Section Success.
Context {C : Codec} {L : CodecLaws C}.

(** A reply that arrives is the reply reported, and the connection stays usable. *)
Lemma call_success q r out c rest :
  size_in_range (zlen (encode_request q [])) = true -> lossless (tx (stream_ c)) ->
  wf_response r -> known_status r -> sendable r = true -> resp_id r = req_id q ->
  pending (rx (stream_ c)) = response_frames [r] ++ rest ->
  exists c', call q out c = (reply_status (resp_body r), r, c') /\
    pending (rx (stream_ c')) = rest /\ lossless (tx (stream_ c')) /\ valid_ c' = valid_ c /\
    sent (stream_ c') = sent (stream_ c) ++ frame_bytes (encode_request q []) /\
    next_request_id_ c' = next_request_id_ c.
Proof.
  intros Hq Hl Hw Hk Hs Hid Hp. unfold response_frames in Hp. cbn [map concat] in Hp. rewrite app_nil_r in Hp.
  unfold call, fail. cbn [stream_ with_error write_buffer_ read_buffer_ valid_ next_request_id_ last_error_].
  rewrite write_message_frame by (intros; apply encode_request_app).
  destruct (write_frame_lossless (stream_ c) _ Hl Hq) as (s1 & -> & Hl1 & Hrx1 & Hs1).
  change (frame_ok (MkFrame Fs_Ok 0 _)) with true. cbn [negb]. rewrite <- Hrx1 in Hp.
  destruct (read_frame_spec s1 (read_buffer_ c) _ rest Hs Hp) as (s2 & -> & Hp2 & _ & Ht2 & Hs2).
  change (frame_ok (MkFrame Fs_Ok 0 _)) with true. cbn [negb].
  rewrite decode_encode_response by (done || apply size_in_range_spec, Hs). rewrite bool_decide_true by done. cbn [negb].
  rewrite Hid, Z.eqb_refl. cbn [negb]. rewrite <- Ht2 in Hl1.
  destruct (resp_body r); eexists; (split; [reflexivity|]); cbn; split_and!; done || congruence.
Qed.
End Success.

Section EndToEnd.
Variables (std_exp : double -> double) (std_pow : double -> double -> double).
Variables (std_log : double -> double) (llround_unrepresentable : double -> Z).
Variables (clock : nat -> Timestamp) (others : nat -> Handler -> Handler).
Hypothesis others_ok : forall i h, handler_ok h -> handler_ok (others i h).
#[local] Abbreviation handle := (handle std_exp std_pow std_log llround_unrepresentable).
#[local] Abbreviation replies := (replies std_exp std_pow std_log llround_unrepresentable clock others).

(** The first call of a session: its request is what the daemon reads, the handler's
    answer is what it reports, and what is left to arrive answers the rest of the
    session. *)
Lemma call_served q qs out c i h rest :
  wf_request q -> handler_ok h -> lossless (tx (stream_ c)) ->
  pending (rx (stream_ c)) = response_frames (fst (replies i (q :: qs) h)) ++ rest ->
  let '(r, h1) := handle (clock i) q (others i h) in
  exists c', call (C := BinaryCodec) q out c = (reply_status (resp_body r), r, c') /\
    pending (rx (stream_ c')) = response_frames (fst (replies (S i) qs h1)) ++ rest /\
    lossless (tx (stream_ c')) /\ valid_ c' = valid_ c /\
    sent (stream_ c') = sent (stream_ c) ++ frame_bytes (encode_req q []) /\
    next_request_id_ c' = next_request_id_ c /\ handler_ok h1.
Proof.
  intros Hq Hok Hl Hp. cbn [replies] in Hp.
  pose proof (handle_id std_exp std_pow std_log llround_unrepresentable (clock i) q (others i h)) as Hid.
  destruct (handle_response_wf std_exp std_pow std_log llround_unrepresentable (clock i) q (others i h) Hq
    (others_ok i h Hok)) as [Hw Hs].
  pose proof (handle_preserves std_exp std_pow std_log llround_unrepresentable (clock i) q (others i h) Hq
    (others_ok i h Hok)) as Hok1.
  pose proof (handle_known_status std_exp std_pow std_log llround_unrepresentable (clock i) q (others i h)) as Hk.
  destruct (handle (clock i) q (others i h)) as [r h1]. cbn [fst snd] in *.
  destruct (replies (S i) qs h1) as [rs h2]. cbn [fst] in *.
  rewrite (response_frames_cons (C := BinaryCodec) r rs), <- app_assoc in Hp.
  destruct (call_success (C := BinaryCodec) q r out c (response_frames rs ++ rest))
    as (c' & E & H1 & H2 & H3 & H4 & H5); try done.
  - by apply size_in_range_spec, request_in_range.
  - by apply size_in_range_spec, response_in_range.
  - exists c'. by split_and!.
Qed.

Lemma put_item_call item c r c' st :
  wf_item item -> resp_body r = PutItemResult st ->
  call (C := BinaryCodec) (MkRequest (next_request_id_ c) (PutItem item)) default_response (snd (take_id c)) =
    (Cs_Ok, r, c') ->
  put_item (C := BinaryCodec) item c = (Cs_Ok, c').
Proof.
  intros (_ & W1 & W2 & _) Hr Hc. unfold put_item.
  rewrite (proj2 (Z.ltb_ge _ _)), (proj2 (Z.ltb_ge _ _)) by done.
  change (next_request_id_ c) with (fst (take_id c)) in Hc.
  destruct (take_id c) as [rid c0]. cbn [fst snd] in Hc. rewrite Hc. cbn. unfold expect. by rewrite Hr.
Qed.

Lemma get_item_call id got item c r c' :
  resp_body r = GetItemResult SC_Ok item ->
  call (C := BinaryCodec) (MkRequest (next_request_id_ c) (GetItem id)) default_response (snd (take_id c)) =
    (Cs_Ok, r, c') ->
  get_item (C := BinaryCodec) id got c = (Cs_Ok, item, c').
Proof.
  intros Hr Hc. unfold get_item. change (next_request_id_ c) with (fst (take_id c)) in Hc.
  destruct (take_id c) as [rid c0]. cbn [fst snd] in Hc. rewrite Hc. cbn. unfold expect. by rewrite Hr.
Qed.

(** The requests of a session, numbered as the client numbers them. *)
Fixpoint numbered (id : Z) (bodies : list RequestBody) : list Request :=
  match bodies with
  | [] => []
  | b :: bodies => MkRequest id b :: numbered (incr64 id) bodies
  end.

End EndToEnd.

(** * Witnesses *)

(** A daemon that answers the first request with the wrong id. *)
Definition wrong_reply : Response := MkResponse 99 (PutItemResult SC_Ok).
Definition confused_peer : UnixStream :=
  MkStream [RData (response_frames (C := BinaryCodec) [wrong_reply; wrong_reply])] [] [].

Lemma fatal_call_is_last_witness :
  fst (fst (call (C := BinaryCodec) sample_put default_response (connection_new confused_peer))) = Cs_ProtocolError /\
  Forall (eq Cs_ConnectionLost) (fst (calls (C := BinaryCodec) [sample_put; sample_ask]
    (snd (call (C := BinaryCodec) sample_put default_response (connection_new confused_peer))))).
Proof.
  pose proof (fatal_call_is_last (C := BinaryCodec) confused_peer [] sample_put [sample_put; sample_ask]) as H.
  cbv zeta in H. cbn [calls snd] in H.
  assert (Hst : fst (fst (call (C := BinaryCodec) sample_put default_response (connection_new confused_peer))) =
    Cs_ProtocolError) by (vm_compute; reflexivity).
  split; [exact Hst|].
  destruct (call (C := BinaryCodec) sample_put default_response (connection_new confused_peer)) as [[status r] c1].
  cbn [fst snd] in *. destruct H as [H _]. apply H. right. exact Hst.
Defined.

#[local] Abbreviation lone_replies := (replies unit_exp unit_pow (fun x => x) (fun _ => 0)
  (fun i => Z.of_nat i) (fun _ h => h) 0).
Definition put_get_session : list Request := numbered 1 [PutItem (sample_item 7 d1); GetItem 7].
Definition put_get_stream : UnixStream :=
  MkStream [RData (response_frames (C := BinaryCodec) (fst (lone_replies put_get_session sample_handler)))]
    [SAccept 3] [].

