(* ===== verification/Sdk.v ===== *)
(** The client library (include/lrd/sdk/client.hpp, include/lrd/sdk/status.hpp,
    src/sdk/client.cpp): a bounded pool of [Connection]s shared by any number of threads,
    and [invoke], which runs one call with retries.

    Critical sections of the pool are the atomic operations [checkout], [give_back] and
    [release]. [invoke] is given what the other threads do to the pool before it acquires
    a connection and while its call runs ([before], [during]), and what connecting at each
    attempt ends in ([connect]). *)
From stdpp Require Import base option list gmap numbers.
From S2P Require Import Prelude Binary64 Item Message Wire Codec BinaryCodec Io Framing.
From S2P Require Import LruCache ThreadPool Connection.

(** * Status *)

Inductive SdkCode :=
| Sdk_Ok | Sdk_NotFound | Sdk_InvalidArgument | Sdk_Unavailable | Sdk_DeadlineExceeded | Sdk_Internal
| Sdk_ProtocolError.

#[global] Instance SdkCode_eq_dec : EqDecision SdkCode.
Proof. solve_decision. Defined.

Definition sdk_code_to_string (code : SdkCode) : bstring :=
  str (match code with
  | Sdk_Ok => "Ok"
  | Sdk_NotFound => "NotFound"
  | Sdk_InvalidArgument => "InvalidArgument"
  | Sdk_Unavailable => "Unavailable"
  | Sdk_DeadlineExceeded => "DeadlineExceeded"
  | Sdk_Internal => "Internal"
  | Sdk_ProtocolError => "ProtocolError"
  end)%string.

Record Status := MkStatus { code_ : SdkCode; message_ : bstring }.
Definition success : Status := MkStatus Sdk_Ok [].
Definition ok (s : Status) : bool := bool_decide (code_ s = Sdk_Ok).
Definition is_not_found (s : Status) : bool := bool_decide (code_ s = Sdk_NotFound).

Definition map_status (status : CallStatus) : SdkCode :=
  match status with
  | Cs_Ok => Sdk_Ok
  | Cs_NotFound => Sdk_NotFound
  | Cs_InvalidRequest => Sdk_InvalidArgument
  | Cs_ServerError => Sdk_Internal
  | Cs_ConnectionLost => Sdk_Unavailable
  | Cs_ProtocolError => Sdk_ProtocolError
  end.

Definition is_retryable_failure (code : SdkCode) : bool :=
  bool_decide (code = Sdk_Unavailable) || bool_decide (code = Sdk_DeadlineExceeded).

(** * The pool *)

Record ClientConfig := MkClientConfig {
  socket_path : bstring;
  codec : bstring;
  request_timeout : Z;
  max_connections : Z;
  acquire_timeout : Z;
  max_retries : Z;
  retry_backoff : Z;
  retry_recording_recommendations : bool
}.

Record Impl := MkImpl { config : ClientConfig; idle : list Connection; total : Z }.

(** The predicate of the wait in [invoke]. *)
Definition ready (p : Impl) : bool :=
  negb (zlen (idle p) =? 0) || (total p <? max_connections (config p)).

(** Takes the newest idle connection, or reserves a slot for a new one. *)
Definition checkout (p : Impl) : option Connection * Impl :=
  match idle p with
  | c :: idle => (Some c, MkImpl (config p) idle (total p))
  | [] => (None, MkImpl (config p) [] (incr64 (total p)))
  end.

(** Gives a reserved slot back. *)
Definition give_back (p : Impl) : Impl := MkImpl (config p) (idle p) (wrap 64 (total p - 1)).

(** The destructor of [PooledConnection]. *)
Definition release (healthy : bool) (c : Connection) (p : Impl) : Impl :=
  if healthy && connected c then MkImpl (config p) (c :: idle p) (total p) else give_back p.

Definition open_connections (p : Impl) : Z := total p.

(** What connecting ends in: a stream with its timeouts set, or the message of the
    exception it threw, a [SystemError] or another. *)
Inductive Connected := Opened (s : UnixStream) | SystemFailure (what : bstring) | OtherFailure (what : bstring).

Definition client_connect (cfg : ClientConfig) (first : Connected) : Status * option Impl :=
  if max_connections cfg =? 0 then
    (MkStatus Sdk_InvalidArgument (str "max_connections must be at least 1"), None)
  else match first with
  | Opened s => (success, Some (MkImpl cfg [connection_new s] 1))
  | SystemFailure what =>
      (MkStatus Sdk_Unavailable (str "cannot reach daemon at " ++ socket_path cfg ++ str ": " ++ what), None)
  | OtherFailure what => (MkStatus Sdk_InvalidArgument what, None)
  end.

(** * invoke *)

Section Invoke.
Context {R : Type}.
Variables (before during : nat -> Impl -> Impl) (connect : nat -> Connected).
(** The call: its status, its out-parameter and the connection after it. *)
Variable run : Connection -> R -> CallStatus * R * Connection.

Definition must_drop (code : SdkCode) : bool :=
  bool_decide (code = Sdk_Unavailable) || bool_decide (code = Sdk_ProtocolError) ||
  bool_decide (code = Sdk_DeadlineExceeded).

(** The part of an attempt that has a connection. *)
Definition run_call (attempt : nat) (c : Connection) (r : R) (p : Impl) : Status * R * Impl :=
  let '(result, r, c) := run c r in
  let code := map_status result in
  let p := release (negb (must_drop code)) c (during attempt p) in
  (if bool_decide (code = Sdk_Ok) then success else MkStatus code (last_error_ c), r, p).

(** One attempt: its status, and whether it got as far as the call. *)
Definition one_attempt (attempt : nat) (r : R) (p : Impl) : bool * Status * R * Impl :=
  let p := before attempt p in
  if negb (ready p) then
    (false, MkStatus Sdk_Unavailable (str "timed out waiting for a free connection"), r, p)
  else
    let '(connection, p) := checkout p in
    match connection with
    | Some c => let '(s, r, p) := run_call attempt c r p in (true, s, r, p)
    | None =>
        match connect attempt with
        | Opened s => let '(s, r, p) := run_call attempt (connection_new s) r p in (true, s, r, p)
        | SystemFailure what | OtherFailure what =>
            (false, MkStatus Sdk_Unavailable what, r, give_back p)
        end
    end.

(** The loop; [fuel] attempts are left. The list is the delays slept. *)
Fixpoint invoke_loop (fuel attempt : nat) (backoff : Z) (last : Status) (r : R) (p : Impl)
    : Status * R * Impl * list Z :=
  match fuel with
  | O => (last, r, p, [])
  | S fuel =>
      let '(slept, backoff) := if (attempt =? 0)%nat then ([], backoff) else ([backoff], backoff * 2) in
      let '(called, s, r, p) := one_attempt attempt r p in
      if called && (ok s || is_not_found s || negb (is_retryable_failure (code_ s))) then (s, r, p, slept)
      else
        let '(s, r, p, sleeps) := invoke_loop fuel (S attempt) backoff s r p in (s, r, p, slept ++ sleeps)
  end.

Definition attempts (retryable : bool) (cfg : ClientConfig) : Z :=
  if retryable then incr64 (max_retries cfg) else 1.

Definition invoke (retryable : bool) (r : R) (p : Impl) : Status * R * Impl * list Z :=
  invoke_loop (Z.to_nat (attempts retryable (config p))) 0 (retry_backoff (config p))
    (MkStatus Sdk_Unavailable (str "no attempt was made")) r p.
End Invoke.

(** * Client *)

(** The SDK's own statistics. *)
Record SdkStats := MkSdkStats {
  sdk_requests : Z; sdk_gets : Z; sdk_puts : Z; sdk_deletes : Z; sdk_recommends : Z;
  sdk_hits : Z; sdk_misses : Z; sdk_evictions : Z; sdk_entries : Z; sdk_capacity : Z;
  sdk_policy_allowed : Z; sdk_policy_exposure_blocked : Z; sdk_policy_frequency_blocked : Z;
  sdk_policy_store_full : Z; sdk_policy_tracked : Z
}.

Definition copy_stats (wire : Stats) : SdkStats :=
  MkSdkStats (requests wire) (gets wire) (puts wire) (deletes wire) (recommends wire) (hits wire)
    (misses wire) (evictions wire) (entries wire) (capacity wire) (policy_allowed wire)
    (policy_exposure_blocked wire) (policy_frequency_blocked wire) (policy_store_full wire)
    (policy_tracked wire).


Section Client.
Context {C : Codec}.
Variables (before during : nat -> Impl -> Impl) (connect : nat -> Connected).

Definition client_put_item (item : Item) (p : Impl) : Status * unit * Impl * list Z :=
  invoke before during connect (fun c _ => let '(s, c) := put_item item c in (s, tt, c)) true tt p.

Definition client_get_item (id : ItemId) (item : Item) (p : Impl) : Status * Item * Impl * list Z :=
  invoke before during connect (fun c item => get_item id item c) true item p.

Definition client_delete_item (id : ItemId) (p : Impl) : Status * unit * Impl * list Z :=
  invoke before during connect (fun c _ => let '(s, c) := delete_item id c in (s, tt, c)) true tt p.

Definition client_recommend (signal : UserSignal) (count : Z) (items : list RankedItem) (p : Impl)
    : Status * list RankedItem * Impl * list Z :=
  invoke before during connect (fun c items => recommend signal count items false c)
    (retry_recording_recommendations (config p)) items p.

Definition client_preview (signal : UserSignal) (count : Z) (items : list RankedItem) (p : Impl)
    : Status * list RankedItem * Impl * list Z :=
  invoke before during connect (fun c items => recommend signal count items true c) true items p.

Definition client_stats (stats : SdkStats) (p : Impl) : Status * SdkStats * Impl * list Z :=
  let '(status, wire, p, sleeps) :=
    invoke before during connect (fun c wire => fetch_stats wire c) true default_stats p in
  if negb (ok status) then (status, stats, p, sleeps) else (success, copy_stats wire, p, sleeps).
End Client.

(** * Many callers, one pool *)

(** Where a thread using the client is. *)
Inductive Caller := Away | Opening | Holding (c : Connection).

Record SdkState := MkSdkState { pool : Impl; callers : list Caller }.

Inductive SdkEvent :=
| EvAcquire (i : nat)
| EvOpenFailed (i : nat)
| EvOpened (i : nat) (s : UnixStream)
(** The call of caller [i] is over; it left the connection as [after] and, unless
    [healthy], marked it failed. *)
| EvReleased (i : nat) (healthy : bool) (after : Connection).

Definition sdk_step (ev : SdkEvent) (s : SdkState) : option SdkState :=
  match ev with
  | EvAcquire i =>
      match callers s !! i with
      | Some Away =>
          if ready (pool s) then
            let '(c, p) := checkout (pool s) in
            Some (MkSdkState p (<[i := match c with Some c => Holding c | None => Opening end]> (callers s)))
          else None
      | _ => None
      end
  | EvOpenFailed i =>
      match callers s !! i with
      | Some Opening => Some (MkSdkState (give_back (pool s)) (<[i := Away]> (callers s)))
      | _ => None
      end
  | EvOpened i stream =>
      match callers s !! i with
      | Some Opening => Some (MkSdkState (pool s) (<[i := Holding (connection_new stream)]> (callers s)))
      | _ => None
      end
  | EvReleased i healthy after =>
      match callers s !! i with
      | Some (Holding _) => Some (MkSdkState (release healthy after (pool s)) (<[i := Away]> (callers s)))
      | _ => None
      end
  end.

Fixpoint sdk_run (evs : list SdkEvent) (s : SdkState) : option SdkState :=
  match evs with
  | [] => Some s
  | ev :: evs => match sdk_step ev s with Some s => sdk_run evs s | None => None end
  end.

Definition busy_of (x : Caller) : nat := match x with Away => 0 | _ => 1 end.
Definition busy (l : list Caller) : nat := sum_list_with busy_of l.

Record sdk_inv (cfg : ClientConfig) (s : SdkState) : Prop := {
  sd_config : config (pool s) = cfg;
  sd_total : total (pool s) = zlen (idle (pool s)) + Z.of_nat (busy (callers s));
  sd_bound : total (pool s) <= max_connections cfg;
  sd_idle : Forall (fun c => connected c = true) (idle (pool s))
}.

Lemma busy_move l i x y :
  l !! i = Some x -> (busy (<[i := y]> l) + busy_of x = busy l + busy_of y)%nat.
Proof. apply sum_insert. Qed.

Lemma sdk_step_inv cfg ev s s' :
  fits 64 (max_connections cfg) -> sdk_inv cfg s -> sdk_step ev s = Some s' -> sdk_inv cfg s'.
Proof.
  intros Hmax [A B D E]. pose proof (zlen_nonneg (idle (pool s))). unfold fits in Hmax.
  assert (Hback : forall x i, callers s !! i = Some x -> busy_of x = 1%nat ->
    sdk_inv cfg (MkSdkState (give_back (pool s)) (<[i := Away]> (callers s)))).
  { intros x i Hi Hx. pose proof (busy_move _ i x Away Hi) as Hm. rewrite Hx in Hm. cbn in Hm.
    unfold give_back. split; cbn [pool callers config idle total]; try done;
      rewrite wrap_small by (unfold fits; lia); lia. }
  destruct ev as [i|i|i stream|i healthy after]; cbn [sdk_step];
    destruct (callers s !! i) as [[| |c]|] eqn:Hi; try done.
  - destruct (ready (pool s)) eqn:Hr; [|done]. unfold ready, checkout in *.
    destruct (idle (pool s)) as [|c rest] eqn:Ei; intros [= <-].
    + pose proof (busy_move _ i _ Opening Hi) as Hm. cbn in Hm, Hr. apply Z.ltb_lt in Hr. rewrite A in Hr.
      cbn in B. unfold incr64. split; cbn [pool callers config idle total]; try done;
        rewrite wrap_small by (unfold fits; lia); cbn; lia.
    + pose proof (busy_move _ i _ (Holding c) Hi) as Hm. cbn in Hm. apply Forall_cons_1 in E as [_ E].
      unfold zlen in B. cbn [length] in B.
      split; cbn [pool callers config idle total]; try done. unfold zlen. lia.
  - intros [= <-]. by apply (Hback Opening).
  - intros [= <-]. pose proof (busy_move _ i _ (Holding (connection_new stream)) Hi) as Hm. cbn in Hm.
    split; cbn [pool callers]; try done. lia.
  - intros [= <-]. unfold release. destruct (healthy && connected after) eqn:Hh; [|by apply (Hback (Holding c))].
    apply andb_true_iff in Hh as [_ Hh]. pose proof (busy_move _ i _ Away Hi) as Hm. cbn in Hm.
    split; cbn [pool callers config idle total]; try done.
    + unfold zlen in *. cbn [length]. lia.
    + by apply Forall_cons_2.
Qed.

Lemma sdk_run_inv cfg evs s s' :
  fits 64 (max_connections cfg) -> sdk_inv cfg s -> sdk_run evs s = Some s' -> sdk_inv cfg s'.
Proof.
  intros Hmax. revert s. induction evs as [|ev evs IH]; intros s Hinv; cbn; [by intros [= <-]|].
  destruct (sdk_step ev s) as [s1|] eqn:E; [|done]. apply IH. by eapply sdk_step_inv.
Qed.

Lemma busy_away n : busy (replicate n Away) = 0%nat.
Proof. induction n as [|n IH]; [done|]. done. Qed.

(** * Retries *)

(** The call, counting how often it runs. *)
Definition counted {R} (run : Connection -> R -> CallStatus * R * Connection)
    (c : Connection) (r : R * nat) : CallStatus * (R * nat) * Connection :=
  let '(s, r', c) := run c (fst r) in (s, (r', S (snd r)), c).

Section Retries.
Context {R : Type}.
Variables (before during : nat -> Impl -> Impl) (connect : nat -> Connected).
Variable run : Connection -> R -> CallStatus * R * Connection.
#[local] Abbreviation loop := (invoke_loop before during connect).

Lemma one_attempt_counted attempt r n p :
  let '(called, s, (r', n'), p') := one_attempt before during connect (counted run) attempt (r, n) p in
  one_attempt before during connect run attempt r p = (called, s, r', p') /\
  n' = (if called then S n else n) /\ code_ s <> Sdk_DeadlineExceeded /\
  (called = false -> code_ s = Sdk_Unavailable /\ r' = r).
Proof.
  assert (Hcall : forall c p, let '(s, (r', n'), p') := run_call during (counted run) attempt c (r, n) p in
    run_call during run attempt c r p = (s, r', p') /\ n' = S n /\ code_ s <> Sdk_DeadlineExceeded).
  { intros c p0. unfold run_call, counted. cbn [fst snd]. destruct (run c r) as [[result r1] c1].
    split_and!; [done|done|]. by destruct result. }
  unfold one_attempt. destruct (ready (before attempt p)); cbn [negb]; [|done].
  destruct (checkout _) as [[c|] p1].
  - specialize (Hcall c p1). destruct (run_call during (counted run) _ _ _ _) as [[s [r' n']] p'].
    destruct Hcall as (-> & -> & Hd). done.
  - destruct (connect attempt) as [s0| |]; [|done|done].
    specialize (Hcall (connection_new s0) p1). destruct (run_call during (counted run) _ _ _ _) as [[s [r' n']] p'].
    destruct Hcall as (-> & -> & Hd). done.
Qed.

(** The delays, from the [attempt]-th attempt on. *)
Definition delays (backoff : Z) (n : nat) : list Z := map (fun k => backoff * 2 ^ Z.of_nat k) (seq 0 n).

Lemma delays_S backoff n : delays backoff (S n) = backoff :: delays (backoff * 2) n.
Proof.
  unfold delays. cbn [seq map]. rewrite Z.pow_0_r, Z.mul_1_r. f_equal.
  rewrite <- seq_shift, map_map. apply map_ext. intros k. rewrite Nat2Z.inj_succ, Z.pow_succ_r by lia. lia.
Qed.

Lemma loop_counted fuel attempt backoff last r n p :
  code_ last <> Sdk_DeadlineExceeded ->
  let '(s, (r', n'), p', sleeps) := loop (counted run) fuel attempt backoff last (r, n) p in
  loop run fuel attempt backoff last r p = (s, r', p', sleeps) /\
  (n <= n' <= n + fuel)%nat /\ (n' = n -> r' = r) /\ code_ s <> Sdk_DeadlineExceeded /\
  sleeps = delays backoff (length sleeps) /\
  (length sleeps <= (if attempt =? 0 then fuel - 1 else fuel))%nat.
Proof.
  revert attempt backoff last r n p. induction fuel as [|fuel IH]; intros attempt backoff last r n p Hlast.
  { cbn. split_and!; try done; lia. }
  cbn [invoke_loop].
  pose proof (one_attempt_counted attempt r n p) as Ha.
  destruct (one_attempt before during connect (counted run) attempt (r, n) p) as [[[called s] [r1 n1]] p1].
  destruct Ha as (-> & -> & Hd & Hun).
  set (next := if (attempt =? 0)%nat then ([], backoff) else ([backoff], backoff * 2)).
  assert (Hnext : next = (if (attempt =? 0)%nat then ([], backoff) else ([backoff], backoff * 2))) by done.
  clearbody next. destruct next as [slept backoff1].
  destruct (called && _) eqn:Hstop.
  { destruct called; [|done]. destruct (attempt =? 0)%nat; injection Hnext as -> ->; cbn; rewrite ?Z.mul_1_r;
      split_and!; try done; try lia. }
  specialize (IH (S attempt) backoff1 s r1 (if called then S n else n) p1 Hd).
  destruct (loop (counted run) fuel (S attempt) backoff1 s (r1, _) p1) as [[[s2 [r2 n2]] p2] sleeps].
  destruct IH as (-> & I1 & I2 & I3 & I4 & I5). cbn [Nat.eqb] in I5.
  split_and!; try done.
  - destruct called; lia.
  - destruct called; lia.
  - intros ->. destruct called; [lia|]. rewrite I2 by done. by apply Hun.
  - destruct (attempt =? 0)%nat; injection Hnext as -> ->; [done|]. cbn [app length]. by rewrite delays_S, <- I4.
  - rewrite length_app. destruct (attempt =? 0)%nat; injection Hnext as -> ->; cbn [length]; lia.
Qed.
End Retries.

(** C30: the pool's accounting. However the calls of any number of threads interleave,
    and however connecting and calling end, [total] is the number of idle connections plus
    the callers that hold or are opening one, and never exceeds [max_connections]; so no
    failure leaks a slot. Every idle connection is open, since a connection that a
    failed call closed is dropped. *)
Theorem sdk_pool_bounded cfg first n p evs s :
  client_connect cfg first = (success, Some p) -> fits 64 (max_connections cfg) ->
  sdk_run evs (MkSdkState p (replicate n Away)) = Some s ->
  open_connections (pool s) = zlen (idle (pool s)) + Z.of_nat (busy (callers s)) /\
  open_connections (pool s) <= max_connections cfg /\
  Forall (fun c => connected c = true) (idle (pool s)).
Proof.
  intros Hc Hmax Hrun. assert (Hinv : sdk_inv cfg (MkSdkState p (replicate n Away))).
  { unfold client_connect in Hc. destruct (Z.eqb_spec (max_connections cfg) 0) as [|Hne]; [done|].
    destruct first; try done. injection Hc as <-. unfold fits in Hmax.
    split; cbn [pool callers config idle total]; try done; rewrite ?busy_away; try lia.
    - by vm_compute.
    - by apply Forall_cons_2. }
  pose proof (sdk_run_inv cfg evs _ s Hmax Hinv Hrun) as [A B D E]. done.
Qed.

Section Claims.
Context {C : Codec}.
Variables (before during : nat -> Impl -> Impl) (connect : nat -> Connected).

(** C29: a recording recommendation is sent at most once. Unless its retry is asked for,
    [Client::recommend] runs the call on at most one connection, whatever the pool, the
    other threads, connecting and the daemon do (so a recommendation whose reply was lost
    is not charged twice); if it did not run, the caller's list is untouched; and it
    never sleeps. *)
Theorem recommend_at_most_once signal count items p :
  retry_recording_recommendations (config p) = false ->
  exists s items' n p',
    client_recommend before during connect signal count items p = (s, items', p', []) /\
    invoke before during connect (counted (fun c items => recommend signal count items false c)) false (items, 0%nat) p =
      (s, (items', n), p', []) /\
    (n <= 1)%nat /\ (n = 0%nat -> items' = items).
Proof.
  intros Hr. unfold client_recommend, invoke, attempts. rewrite Hr.
  pose proof (loop_counted before during connect (fun c items => recommend signal count items false c)
    (Z.to_nat 1) 0 (retry_backoff (config p)) (MkStatus Sdk_Unavailable (str "no attempt was made")) items 0 p
    ltac:(done)) as H.
  destruct (invoke_loop _ _ _ (counted _) _ _ _ _ _ _) as [[[s [items' n]] p'] sleeps].
  destruct H as (E & Hn & H0 & _ & _ & Hl). change (Z.to_nat 1) with 1%nat in Hn, Hl. cbn in Hl.
  destruct sleeps; [|cbn in Hl; lia]. exists s, items', n, p'. by split_and!; [| |lia|].
Qed.

(** The retry discipline of every operation: the call runs at most
    [max_retries + 1] times, the delays before the retries are the configured backoff
    doubled each time, one fewer than the attempts at most, and an operation whose call
    never ran leaves its out-parameter alone. *)
Theorem retries_bounded {R} (run : Connection -> R -> CallStatus * R * Connection) r p :
  fits 64 (max_retries (config p) + 1) -> 0 <= max_retries (config p) ->
  exists s r' n p' sleeps,
    invoke before during connect run true r p = (s, r', p', sleeps) /\
    invoke before during connect (counted run) true (r, 0%nat) p = (s, (r', n), p', sleeps) /\
    Z.of_nat n <= max_retries (config p) + 1 /\ (n = 0%nat -> r' = r) /\
    sleeps = delays (retry_backoff (config p)) (length sleeps) /\ zlen sleeps <= max_retries (config p).
Proof.
  intros Hfit Hpos. unfold invoke, attempts, incr64. rewrite wrap_small by done.
  pose proof (loop_counted before during connect run (Z.to_nat (max_retries (config p) + 1)) 0
    (retry_backoff (config p)) (MkStatus Sdk_Unavailable (str "no attempt was made")) r 0 p ltac:(done)) as H.
  destruct (invoke_loop _ _ _ (counted _) _ _ _ _ _ _) as [[[s [r' n]] p'] sleeps].
  destruct H as (E & Hn & H0 & _ & Hs & Hl). cbn [Nat.eqb] in Hl.
  exists s, r', n, p', sleeps. unfold zlen. split_and!; try done; lia.
Qed.

(** No operation ever reports DeadlineExceeded, although the status is documented
    as the answer to an elapsed timeout: a call that times out is a lost connection and
    is reported, and retried, as Unavailable. *)
Theorem deadline_never_reported {R} (run : Connection -> R -> CallStatus * R * Connection) retryable r p :
  code_ (fst (fst (fst (invoke before during connect run retryable r p)))) <> Sdk_DeadlineExceeded.
Proof.
  unfold invoke.
  pose proof (loop_counted before during connect run (Z.to_nat (attempts retryable (config p))) 0
    (retry_backoff (config p)) (MkStatus Sdk_Unavailable (str "no attempt was made")) r 0 p ltac:(done)) as H.
  destruct (invoke_loop _ _ _ (counted _) _ _ _ _ _ _) as [[[s [r' n]] p'] sleeps].
  by destruct H as (-> & _ & _ & Hd & _).
Qed.
End Claims.

(** * Witnesses *)

Definition sample_client_config : ClientConfig :=
  MkClientConfig (str "/tmp/lrd.sock") (str "binary") 2000 2 1000 2 10 false.
(** A daemon that takes the request and dies. *)
Definition dead_peer : UnixStream := MkStream [] [] [].
Definition dead_pool : Impl := MkImpl sample_client_config [connection_new dead_peer] 1.
Definition refused (_ : nat) : Connected := SystemFailure (str "connect: Connection refused").

(** Three callers for two connections: one opens, one is refused a third, one fails. *)
Definition sdk_trace : list SdkEvent :=
  [EvAcquire 0; EvAcquire 1; EvOpened 1 dead_peer; EvReleased 0 false (connection_new dead_peer);
   EvAcquire 2; EvOpenFailed 2; EvReleased 1 true (connection_new dead_peer)].

Lemma sdk_pool_bounded_witness :
  exists s, sdk_run sdk_trace (MkSdkState dead_pool (replicate 3 Away)) = Some s /\
    open_connections (pool s) = 1 /\ open_connections (pool s) <= 2.
Proof.
  destruct (sdk_run sdk_trace (MkSdkState dead_pool (replicate 3 Away))) as [s|] eqn:E;
    [|vm_compute in E; discriminate].
  exists s. split_and!; [reflexivity| |].
  - assert (H : option_map (fun s => open_connections (pool s))
      (sdk_run sdk_trace (MkSdkState dead_pool (replicate 3 Away))) = Some 1) by (vm_compute; reflexivity).
    rewrite E in H. cbn in H. congruence.
  - refine (proj1 (proj2 (sdk_pool_bounded sample_client_config (Opened dead_peer) 3 dead_pool sdk_trace s _ _ E))).
    + reflexivity.
    + vm_compute. split; [discriminate|reflexivity].
Defined.

Lemma recommend_at_most_once_witness :
  code_ (fst (fst (fst (client_recommend (C := BinaryCodec) (fun _ p => p) (fun _ p => p) refused
    default_signal 3 [] dead_pool)))) = Sdk_Unavailable /\
  exists s items' n p',
    invoke (fun _ p => p) (fun _ p => p) refused
      (counted (fun c items => recommend (C := BinaryCodec) default_signal 3 items false c)) false ([], 0%nat) dead_pool =
      (s, (items', n), p', []) /\ (n <= 1)%nat.
Proof.
  split; [vm_compute; reflexivity|].
  destruct (recommend_at_most_once (C := BinaryCodec) (fun _ p => p) (fun _ p => p) refused default_signal 3 []
    dead_pool eq_refl) as (s & items' & n & p' & _ & H & Hn & _).
  exists s, items', n, p'. split; [exact H|exact Hn].
Defined.

Lemma retries_bounded_witness :
  exists s r' p' sleeps,
    invoke (fun _ p => p) (fun _ p => p) refused (fun c item => get_item (C := BinaryCodec) 7 item c) true
      default_item dead_pool = (s, r', p', sleeps) /\ sleeps = delays 10 (length sleeps) /\ zlen sleeps <= 2.
Proof.
  destruct (retries_bounded (fun _ p => p) (fun _ p => p) refused
    (fun c item => get_item (C := BinaryCodec) 7 item c) default_item dead_pool)
    as (s & r' & n & p' & sleeps & H & _ & _ & _ & Hs & Hl).
  - vm_compute. split; [discriminate|reflexivity].
  - vm_compute. discriminate.
  - exists s, r', p', sleeps. split; [exact H|]. split; [exact Hs|exact Hl].
Defined.

(** The dead connection, then two refused attempts, after 10 and 20 milliseconds. *)
Example dead_pool_delays :
  snd (invoke (fun _ p => p) (fun _ p => p) refused (fun c item => get_item (C := BinaryCodec) 7 item c) true
    default_item dead_pool) = [10; 20].
Proof. vm_compute. reflexivity. Qed.
