(* ===== verification/Text.v ===== *)
(** Text: the string handling the two command lines share. [strtoul] of the C library and
    [from_chars] of the C++ one for decimal integers, [string_view::find], the [split] of
    the client (src/src/client/main.cpp), with the theorems that a decimal number reads
    back as the number that was written and that splitting inverts joining. *)
From stdpp Require Import base option list.
From Stdlib Require Import ZArith Lia.
From Stdlib Require DecimalString DecimalN Ascii.
From S2P Require Import Prelude Handler.

(** * Characters *)

(** [isspace] and [isdigit] in the "C" locale. *)
Definition is_space (b : byte) : bool := (byte_to_Z b =? 32) || (9 <=? byte_to_Z b) && (byte_to_Z b <=? 13).
Definition is_digit (b : byte) : bool := (48 <=? byte_to_Z b) && (byte_to_Z b <=? 57).
Definition digit (b : byte) : Z := byte_to_Z b - 48.
Definition minus : byte := Byte.x2d.
Definition plus : byte := Byte.x2b.
Definition comma : byte := Byte.x2c.
Definition equals : byte := Byte.x3d.

Definition streq (a b : bstring) : bool := bool_decide (a = b).

(** Evaluates the tests of literals against literals. *)
Ltac literals :=
  repeat match goal with
  | |- context [streq (str ?a) (str ?b)] =>
      let v := eval vm_compute in (streq (str a) (str b)) in change (streq (str a) (str b)) with v
  end; cbn [orb].

Fixpoint skip_spaces (text : bstring) : bstring :=
  match text with
  | b :: rest => if is_space b then skip_spaces rest else text
  | [] => []
  end.

(** The longest prefix of digits, and what follows. *)
Fixpoint span_digits (text : bstring) : bstring * bstring :=
  match text with
  | b :: rest =>
      if is_digit b then let '(ds, tail) := span_digits rest in (b :: ds, tail) else ([], text)
  | [] => ([], [])
  end.

Definition decimal (acc : Z) (ds : bstring) : Z := foldl (fun a b => 10 * a + digit b) acc ds.

(** * [strtoul(text, &end, 10)]

    The value and the text [end] points at: all of it when there is no number. A sign is
    accepted, a negative number is negated as an [unsigned long], and a number that does
    not fit is [ULONG_MAX]. *)
Definition ULONG_MAX : Z := 2 ^ 64 - 1.

Definition sign_of (text : bstring) : bool * bstring :=
  match text with
  | b :: rest =>
      if decide (b = minus) then (true, rest) else if decide (b = plus) then (false, rest) else (false, text)
  | [] => (false, [])
  end.

Definition strtoul (text : bstring) : Z * bstring :=
  let '(negative, rest) := sign_of (skip_spaces text) in
  let '(ds, tail) := span_digits rest in
  match ds with
  | [] => (0, text)
  | _ =>
      let value := decimal 0 ds in
      (if ULONG_MAX <? value then ULONG_MAX else if negative then wrap 64 (- value) else value, tail)
  end.

(** [end == text] and [*end]: a pointer into the text is the text from there on, and the
    terminator follows it. *)
Definition at_start (tail text : bstring) : bool := (length tail =? length text)%nat.
Definition deref (tail : bstring) : byte := match tail with b :: _ => b | [] => Byte.x00 end.

(** * [std::from_chars(first, last, out)] for a decimal integer of the range [lo, hi]

    No space, no plus sign; a minus sign only for a signed type. The result: the error
    ([None] when there is none), what [ptr] points at, and the value of [out] after. *)
Inductive Errc := Errc_invalid_argument | Errc_result_out_of_range.

Definition from_chars (lo hi : Z) (text : bstring) (out : Z) : option Errc * bstring * Z :=
  let '(negative, rest) :=
    match text with
    | b :: rest => if bool_decide (b = minus) && (lo <? 0) then (true, rest) else (false, text)
    | [] => (false, [])
    end in
  let '(ds, tail) := span_digits rest in
  match ds with
  | [] => (Some Errc_invalid_argument, text, out)
  | _ =>
      let value := if negative : bool then - decimal 0 ds else decimal 0 ds in
      if (lo <=? value) && (value <=? hi) then (None, tail, value)
      else (Some Errc_result_out_of_range, tail, out)
  end.

(** [parse_number<T>]: the result and the out-parameter. *)
Definition parse_number (lo hi : Z) (text : bstring) (out : Z) : bool * Z :=
  let '(ec, ptr, value) := from_chars lo hi text out in
  (match ec with None => true | _ => false end && (length ptr =? 0)%nat, value).

(** * Searching and splitting *)

(** [text.find(delimiter, start)]; [None] is [npos]. *)
Fixpoint find_at (delimiter : byte) (text : bstring) : option nat :=
  match text with
  | b :: rest => if decide (b = delimiter) then Some 0%nat else S <$> find_at delimiter rest
  | [] => None
  end.
Definition find (delimiter : byte) (text : bstring) (start : nat) : option nat :=
  (fun i => (start + i)%nat) <$> find_at delimiter (drop start text).

(** [text.substr(pos, n)]. *)
Definition substr (text : bstring) (pos n : nat) : bstring := take n (drop pos text).

(** The loop of [split], from [start] with the parts found so far. *)
Fixpoint split_loop (fuel : nat) (text : bstring) (delimiter : byte) (start : nat) (parts : list bstring)
    : option (list bstring) :=
  match fuel with
  | O => None
  | S fuel =>
      if (start <=? length text)%nat then
        match find delimiter text start with
        | None => Some (parts ++ [drop start text])
        | Some stop =>
            split_loop fuel text delimiter (S stop) (parts ++ [substr text start (stop - start)])
        end
      else Some parts
  end.

(** Every turn but the last passes a delimiter. *)
Definition split (text : bstring) (delimiter : byte) : list bstring :=
  default [] (split_loop (S (length text)) text delimiter 0 []).

(** What splitting undoes: the parts with the delimiter between them. *)
Fixpoint join (delimiter : byte) (parts : list bstring) : bstring :=
  match parts with
  | [] => []
  | [p] => p
  | p :: rest => p ++ delimiter :: join delimiter rest
  end.

(** The parts of a text, by recursion on the text. *)
Fixpoint fields (delimiter : byte) (text : bstring) : list bstring :=
  match text with
  | [] => [[]]
  | b :: rest =>
      if decide (b = delimiter) then [] :: fields delimiter rest
      else match fields delimiter rest with
           | p :: ps => (b :: p) :: ps
           | [] => [[b]]
           end
  end.

(** * Decimal numbers *)

Lemma span_all_digits ds tail :
  Forall (fun b => is_digit b = true) ds -> is_digit (deref tail) = false ->
  span_digits (ds ++ tail) = (ds, tail).
Proof.
  intros Hds Ht. induction Hds as [|b ds Hb _ IH]; cbn [app span_digits].
  - destruct tail as [|b tail]; [done|]. cbn in Ht |- *. by rewrite Ht.
  - by rewrite Hb, IH.
Qed.

Lemma string_of_uint_digits d :
  Forall (fun b => is_digit b = true) (str (DecimalString.NilEmpty.string_of_uint d)).
Proof. induction d; constructor; done. Qed.

Lemma str_cons a s : str (String.String a s) = Ascii.byte_of_ascii a :: str s.
Proof. done. Qed.

Lemma decimal_cons acc b ds : decimal acc (b :: ds) = decimal (10 * acc + digit b) ds.
Proof. done. Qed.

Lemma decimal_of_uint_acc d p :
  decimal (Z.pos p) (str (DecimalString.NilEmpty.string_of_uint d)) = Z.pos (Pos.of_uint_acc d p).
Proof.
  revert p. induction d as [|d IH|d IH|d IH|d IH|d IH|d IH|d IH|d IH|d IH|d IH]; intros p; [done|..];
    cbn [DecimalString.NilEmpty.string_of_uint Pos.of_uint_acc];
    rewrite <- IH, str_cons, decimal_cons; f_equal; unfold digit, byte_to_Z; cbn [Ascii.byte_of_ascii]; cbn; lia.
Qed.

Lemma decimal_of_uint d :
  decimal 0 (str (DecimalString.NilEmpty.string_of_uint d)) = Z.of_N (Pos.of_uint d).
Proof.
  induction d as [|d IH|d IH|d IH|d IH|d IH|d IH|d IH|d IH|d IH|d IH]; [done|exact IH|..];
    cbn [DecimalString.NilEmpty.string_of_uint Pos.of_uint]; exact (decimal_of_uint_acc d _).
Qed.

(** [format_dec] writes digits, at least one, that read back as the number. *)
Lemma format_dec_spec z : 0 <= z ->
  Forall (fun b => is_digit b = true) (format_dec z) /\ format_dec z <> [] /\ decimal 0 (format_dec z) = z.
Proof.
  intros Hz. unfold format_dec. pose proof (DecimalN.Unsigned.of_to (Z.to_N z)) as Hto.
  destruct (N.to_uint (Z.to_N z)) as [|d|d|d|d|d|d|d|d|d|d] eqn:E;
    [cbn in Hto; split_and!; [apply Forall_cons_2; [done|apply Forall_nil_2]|done|change (0 = z); lia]|..];
    (change (DecimalString.NilZero.string_of_uint ?u) with (DecimalString.NilEmpty.string_of_uint u);
     split_and!; [apply string_of_uint_digits|done|];
     rewrite decimal_of_uint; unfold N.of_uint in Hto; rewrite Hto; lia).
Qed.

Lemma digit_first ds : Forall (fun b => is_digit b = true) ds -> ds <> [] ->
  skip_spaces ds = ds /\ sign_of ds = (false, ds) /\ exists b rest, ds = b :: rest /\ b <> minus.
Proof.
  intros Hds Hne. destruct Hds as [|b ds Hb _]; [done|].
  assert (Hs : is_space b = false /\ b <> minus /\ b <> plus).
  { unfold is_digit in Hb. unfold is_space. bcases.
    split_and!; [|by intros -> ..]. repeat (case_match; bcases; try lia; cbn); bcases; try lia. }
  destruct Hs as (Hs & Hm & Hp). cbn. rewrite Hs. repeat case_decide; naive_solver.
Qed.

Lemma span_format z : 0 <= z -> span_digits (format_dec z) = (format_dec z, []).
Proof.
  intros Hz. destruct (format_dec_spec z Hz) as (Hds & _ & _).
  pose proof (span_all_digits (format_dec z) [] Hds eq_refl) as H. by rewrite app_nil_r in H.
Qed.

Lemma strtoul_format z : fits 64 z -> strtoul (format_dec z) = (z, []).
Proof.
  intros Hz. destruct (format_dec_spec z ltac:(apply Hz)) as (Hds & Hne & Hv).
  destruct (digit_first _ Hds Hne) as (Hsk & Hsg & _). unfold strtoul. rewrite Hsk, Hsg.
  rewrite span_format by apply Hz. destruct (format_dec z) as [|b ds] eqn:E; [done|]. rewrite Hv.
  unfold fits, ULONG_MAX in *. case_match; bcases; [lia|done].
Qed.

Lemma span_digits_digits text : Forall (fun b => is_digit b = true) (fst (span_digits text)).
Proof.
  induction text as [|b text IH]; cbn; [constructor|]. destruct (is_digit b) eqn:E; [|constructor].
  destruct (span_digits text). by constructor.
Qed.

Lemma decimal_nonneg acc ds : 0 <= acc -> Forall (fun b => is_digit b = true) ds -> 0 <= decimal acc ds.
Proof.
  intros Hacc Hds. revert acc Hacc. induction Hds as [|b ds Hb _ IH]; intros acc Hacc; [done|].
  apply IH. unfold is_digit, digit in *. bcases. lia.
Qed.

Lemma strtoul_fits text : fits 64 (fst (strtoul text)).
Proof.
  unfold strtoul. destruct (sign_of _) as [negative rest]. pose proof (span_digits_digits rest) as Hds.
  destruct (span_digits rest) as [ds tail]. cbn [fst] in Hds.
  pose proof (decimal_nonneg 0 ds ltac:(lia) Hds). destruct ds as [|b ds]; [done|].
  cbn [fst]. unfold ULONG_MAX. repeat split_if; bcases; [done|by apply wrap_fits|unfold fits; lia].
Qed.

Lemma parse_number_format lo hi z out :
  lo <= z <= hi -> 0 <= z -> parse_number lo hi (format_dec z) out = (true, z).
Proof.
  intros Hz H0. destruct (format_dec_spec z H0) as (Hds & Hne & Hv).
  destruct (digit_first _ Hds Hne) as (_ & _ & b & rest & E & Hm).
  unfold parse_number, from_chars. pose proof (span_format z H0) as Hs. rewrite E in Hv, Hs |- *.
  rewrite bool_decide_eq_false_2 by done. cbn [andb]. rewrite Hs, Hv.
  rewrite (proj2 (Z.leb_le lo z)), (proj2 (Z.leb_le z hi)) by lia. done.
Qed.

(** * Splitting and joining *)

Lemma fields_nonempty d text : fields d text <> [].
Proof. destruct text as [|b text]; cbn; [done|]. repeat case_match; done. Qed.

Lemma fields_drop d text :
  fields d text =
  match find_at d text with
  | None => [text]
  | Some i => take i text :: fields d (drop (S i) text)
  end.
Proof.
  induction text as [|b text IH]; cbn [fields find_at]; [done|]. case_decide; [done|].
  rewrite IH. by destruct (find_at d text).
Qed.

Lemma find_at_lt d text i : find_at d text = Some i -> (i < length text)%nat.
Proof.
  revert i. induction text as [|b text IH]; intros i; cbn; [done|]. case_decide; [intros [= <-]; lia|].
  destruct (find_at d text); [|done]. intros [= <-]. specialize (IH _ eq_refl). lia.
Qed.

Lemma split_loop_fields fuel text d start parts :
  (start <= length text)%nat -> (length text - start < fuel)%nat ->
  split_loop fuel text d start parts = Some (parts ++ fields d (drop start text)).
Proof.
  revert start parts. induction fuel as [|fuel IH]; intros start parts Hs Hf; [lia|]. cbn [split_loop].
  rewrite (proj2 (Nat.leb_le _ _)) by done. rewrite fields_drop. unfold find.
  destruct (find_at d (drop start text)) as [i|] eqn:E; cbn [fmap option_fmap option_map]; [|done].
  apply find_at_lt in E. rewrite length_drop in E. rewrite IH by lia. f_equal.
  rewrite <- app_assoc, drop_drop. unfold substr.
  replace (start + i - start)%nat with i by lia. by replace (start + S i)%nat with (S (start + i)) by lia.
Qed.

Lemma split_fields text d : split text d = fields d text.
Proof. unfold split. rewrite split_loop_fields by lia. done. Qed.

Lemma join_fields d text : join d (fields d text) = text.
Proof.
  induction text as [|b text IH]; cbn [fields]; [done|]. pose proof (fields_nonempty d text).
  case_decide; subst; destruct (fields d text) as [|p ps] eqn:E; try done; cbn [join app].
  - f_equal. exact IH.
  - destruct ps; cbn [join app] in *; by f_equal.
Qed.

Lemma fields_no_delimiter d p : d ∉ p -> fields d p = [p].
Proof.
  induction p as [|b p IH]; intros Hd; cbn; [done|]. apply not_elem_of_cons in Hd as [Hb Hp].
  rewrite IH by done. by case_decide.
Qed.

Lemma fields_app d p rest : d ∉ p -> fields d (p ++ d :: rest) = p :: fields d rest.
Proof.
  induction p as [|b p IH]; intros Hd; cbn [app fields].
  - by rewrite decide_True.
  - apply not_elem_of_cons in Hd as [Hb Hp]. rewrite IH by done. by case_decide.
Qed.

Lemma fields_join d parts :
  parts <> [] -> Forall (fun p => d ∉ p) parts -> fields d (join d parts) = parts.
Proof.
  intros Hne Hd. induction Hd as [|p parts Hp Hd IH]; [done|]. destruct parts as [|q parts].
  - by apply fields_no_delimiter.
  - change (join d (p :: q :: parts)) with (p ++ d :: join d (q :: parts)).
    rewrite fields_app by done. f_equal. by apply IH.
Qed.

Lemma fields_free d text : Forall (fun p => d ∉ p) (fields d text).
Proof.
  induction text as [|b text IH]; cbn [fields]; [repeat constructor; by apply not_elem_of_nil|].
  case_decide; [constructor; [apply not_elem_of_nil|done]|].
  destruct IH as [|p ps Hp Hps]; repeat constructor; rewrite ?not_elem_of_cons; try done.
  split; [congruence|apply not_elem_of_nil].
Qed.
