(* ===== verification/Args.v ===== *)
(** Args: the daemon's command line (src/src/daemon/main.cpp) and the configuration it
    builds (src/include/lrd/daemon/server.hpp, ServerConfig). Shown: every configuration
    has a command line that [parse_args] turns into it; a command line that is accepted
    gives a configuration whose only reasons not to start a handler are the few the
    constructors document; and the exit code of [main]. [strtod] and the number of cores
    are parameters. *)
From stdpp Require Import base option list.
From Stdlib Require Import ZArith Lia.
From S2P Require Import Prelude HashMix Binary64 Item LruCache ShardedCache ExposureStore.
From S2P Require Import Scorer Noise Handler ThreadPool Server Text.

(** * Configuration *)

Record ServerConfig := MkServerConfig {
  socket_path : bstring;
  cache_capacity : Z;
  cache_shards : Z;
  cfg_thread_count : Z;
  max_queued_connections : Z;
  codec_name : bstring;
  cfg_scoring : ScoringConfig;
  cfg_policy : PolicyConfig;
  cfg_privacy : PrivacyConfig;
  verbose : bool
}.

Record Options := MkOptions { opt_config : ServerConfig; show_help : bool; show_version : bool }.

Definition kDefaultSocketPath : bstring := str "/tmp/lrd.sock".
Definition kDefaultCapacity : Z := 10000.
Definition kDefaultQueue : Z := 64.
Definition kDefaultShards : Z := 16.

Definition default_policy : PolicyConfig := MkPolicyConfig 0 0 3600000 100000 false.

Definition default_thread_count (hardware_concurrency : Z) : Z :=
  if hardware_concurrency =? 0 then 4 else hardware_concurrency.

(** What [main] starts parsing from. *)
Definition default_options (hardware_concurrency : Z) : Options :=
  MkOptions
    (MkServerConfig kDefaultSocketPath kDefaultCapacity kDefaultShards
       (default_thread_count hardware_concurrency) kDefaultQueue (str "binary")
       default_scoring default_policy default_privacy false)
    false false.

(** Assignments to one member. *)
Definition on_config (f : ServerConfig -> ServerConfig) (o : Options) : Options :=
  MkOptions (f (opt_config o)) (show_help o) (show_version o).
Definition on_policy (f : PolicyConfig -> PolicyConfig) : Options -> Options :=
  on_config (fun c => MkServerConfig (socket_path c) (cache_capacity c) (cache_shards c) (cfg_thread_count c)
    (max_queued_connections c) (codec_name c) (cfg_scoring c) (f (cfg_policy c)) (cfg_privacy c) (verbose c)).
Definition on_privacy (f : PrivacyConfig -> PrivacyConfig) : Options -> Options :=
  on_config (fun c => MkServerConfig (socket_path c) (cache_capacity c) (cache_shards c) (cfg_thread_count c)
    (max_queued_connections c) (codec_name c) (cfg_scoring c) (cfg_policy c) (f (cfg_privacy c)) (verbose c)).
Definition set_socket_path (v : bstring) : Options -> Options :=
  on_config (fun c => MkServerConfig v (cache_capacity c) (cache_shards c) (cfg_thread_count c)
    (max_queued_connections c) (codec_name c) (cfg_scoring c) (cfg_policy c) (cfg_privacy c) (verbose c)).
Definition set_capacity (v : Z) : Options -> Options :=
  on_config (fun c => MkServerConfig (socket_path c) v (cache_shards c) (cfg_thread_count c)
    (max_queued_connections c) (codec_name c) (cfg_scoring c) (cfg_policy c) (cfg_privacy c) (verbose c)).
Definition set_shards (v : Z) : Options -> Options :=
  on_config (fun c => MkServerConfig (socket_path c) (cache_capacity c) v (cfg_thread_count c)
    (max_queued_connections c) (codec_name c) (cfg_scoring c) (cfg_policy c) (cfg_privacy c) (verbose c)).
Definition set_threads (v : Z) : Options -> Options :=
  on_config (fun c => MkServerConfig (socket_path c) (cache_capacity c) (cache_shards c) v
    (max_queued_connections c) (codec_name c) (cfg_scoring c) (cfg_policy c) (cfg_privacy c) (verbose c)).
Definition set_queue (v : Z) : Options -> Options :=
  on_config (fun c => MkServerConfig (socket_path c) (cache_capacity c) (cache_shards c) (cfg_thread_count c)
    v (codec_name c) (cfg_scoring c) (cfg_policy c) (cfg_privacy c) (verbose c)).
Definition set_codec (v : bstring) : Options -> Options :=
  on_config (fun c => MkServerConfig (socket_path c) (cache_capacity c) (cache_shards c) (cfg_thread_count c)
    (max_queued_connections c) v (cfg_scoring c) (cfg_policy c) (cfg_privacy c) (verbose c)).
Definition set_verbose : Options -> Options :=
  on_config (fun c => MkServerConfig (socket_path c) (cache_capacity c) (cache_shards c) (cfg_thread_count c)
    (max_queued_connections c) (codec_name c) (cfg_scoring c) (cfg_policy c) (cfg_privacy c) true).

(** * Parsing *)

(** A parse succeeds, is refused with the line written to stderr, or computes a signed
    product that overflows, where C++ gives the program no meaning. *)
Inductive Parse (A : Type) := Accepted (a : A) | Refused (message : bstring) | Overflow.
Arguments Accepted {A} a.
Arguments Refused {A} message.
Arguments Overflow {A}.

Definition parse_bind {A B} (x : Parse A) (f : A -> Parse B) : Parse B :=
  match x with Accepted a => f a | Refused m => Refused m | Overflow => Overflow end.
Notation "'let*' x := e 'in' k" := (parse_bind e (fun x => k)) (at level 10, x name, k at level 200).

Definition parse_size_allow_zero (text name : bstring) : Parse Z :=
  let '(value, tail) := strtoul text in
  if at_start tail text || negb (bool_decide (deref tail = Byte.x00)) then
    Refused (str "lrdd: " ++ name ++ str " must be a non-negative integer")
  else Accepted value.

Definition parse_size (text name : bstring) : Parse Z :=
  let '(value, tail) := strtoul text in
  if at_start tail text || negb (bool_decide (deref tail = Byte.x00)) || (value =? 0) then
    Refused (str "lrdd: " ++ name ++ str " must be a positive integer")
  else Accepted value.

(** [duration_cast<milliseconds>(seconds{static_cast<long>(n)})]. *)
Definition seconds_to_millis (n : Z) : Parse Z :=
  let ms := to_i64 n * 1000 in
  if bool_decide (fits_i64 ms) then Accepted ms else Overflow.

Section Parsing.
Variable strtod : bstring -> double * bstring.

Definition parse_epsilon (text : bstring) : Parse double :=
  let '(value, tail) := strtod text in
  if at_start tail text || negb (bool_decide (deref tail = Byte.x00)) || d_leb value d0 then
    Refused (str "lrdd: --privacy-epsilon must be positive")
  else Accepted value.

(** The branches that take the next argument; [None]: no such option. *)
Definition valued_option (arg value : bstring) (out : Options) : option (Parse Options) :=
  if streq arg (str "--socket") then Some (Accepted (set_socket_path value out))
  else if streq arg (str "--capacity") then
    Some (let* n := parse_size value (str "--capacity") in Accepted (set_capacity n out))
  else if streq arg (str "--codec") then Some (Accepted (set_codec value out))
  else if streq arg (str "--privacy-epsilon") then
    Some (let* x := parse_epsilon value in
          Accepted (on_privacy (fun p => MkPrivacy (enabled p) x (sensitivity p) (suppression_threshold p)
                                           (rounding p) (epoch p) (seed p)) out))
  else if streq arg (str "--privacy-epoch") then
    Some (let* n := parse_size value (str "--privacy-epoch") in
          let* ms := seconds_to_millis n in
          Accepted (on_privacy (fun p => MkPrivacy (enabled p) (epsilon p) (sensitivity p)
                                           (suppression_threshold p) (rounding p) ms (seed p)) out))
  else if streq arg (str "--privacy-round") then
    Some (let* n := parse_size value (str "--privacy-round") in
          Accepted (on_privacy (fun p => MkPrivacy (enabled p) (epsilon p) (sensitivity p)
                                           (suppression_threshold p) n (epoch p) (seed p)) out))
  else if streq arg (str "--privacy-suppress") then
    Some (let* n := parse_size_allow_zero value (str "--privacy-suppress") in
          Accepted (on_privacy (fun p => MkPrivacy (enabled p) (epsilon p) (sensitivity p) n
                                           (rounding p) (epoch p) (seed p)) out))
  else if streq arg (str "--privacy-seed") then
    Some (let* n := parse_size_allow_zero value (str "--privacy-seed") in
          Accepted (on_privacy (fun p => MkPrivacy (enabled p) (epsilon p) (sensitivity p)
                                           (suppression_threshold p) (rounding p) (epoch p) n) out))
  else if streq arg (str "--exposure-cap") then
    Some (let* n := parse_size_allow_zero value (str "--exposure-cap") in
          Accepted (on_policy (fun p => MkPolicyConfig n (frequency_limit p) (frequency_window p)
                                          (max_tracked_items p) (fail_open_when_full p)) out))
  else if streq arg (str "--frequency-limit") then
    Some (let* n := parse_size_allow_zero value (str "--frequency-limit") in
          Accepted (on_policy (fun p => MkPolicyConfig (exposure_cap p) (wrap 32 n) (frequency_window p)
                                          (max_tracked_items p) (fail_open_when_full p)) out))
  else if streq arg (str "--frequency-window") then
    Some (let* n := parse_size value (str "--frequency-window") in
          let* ms := seconds_to_millis n in
          Accepted (on_policy (fun p => MkPolicyConfig (exposure_cap p) (frequency_limit p) ms
                                          (max_tracked_items p) (fail_open_when_full p)) out))
  else if streq arg (str "--policy-capacity") then
    Some (let* n := parse_size value (str "--policy-capacity") in
          Accepted (on_policy (fun p => MkPolicyConfig (exposure_cap p) (frequency_limit p) (frequency_window p)
                                          n (fail_open_when_full p)) out))
  else if streq arg (str "--shards") then
    Some (let* n := parse_size value (str "--shards") in Accepted (set_shards n out))
  else if streq arg (str "--threads") then
    Some (let* n := parse_size value (str "--threads") in Accepted (set_threads n out))
  else if streq arg (str "--queue") then
    Some (let* n := parse_size value (str "--queue") in Accepted (set_queue n out))
  else None.

(** The branches without an argument. *)
Definition flag_option (arg : bstring) (out : Options) : option Options :=
  if streq arg (str "--help") || streq arg (str "-h") then
    Some (MkOptions (opt_config out) true (show_version out))
  else if streq arg (str "--version") || streq arg (str "-V") then
    Some (MkOptions (opt_config out) (show_help out) true)
  else if streq arg (str "--verbose") || streq arg (str "-v") then Some (set_verbose out)
  else if streq arg (str "--policy-fail-open") then
    Some (on_policy (fun p => MkPolicyConfig (exposure_cap p) (frequency_limit p) (frequency_window p)
                                (max_tracked_items p) true) out)
  else if streq arg (str "--privacy") then
    Some (on_privacy (fun p => MkPrivacy true (epsilon p) (sensitivity p) (suppression_threshold p)
                                 (rounding p) (epoch p) (seed p)) out)
  else None.

(** The loop over [argv + 1]. The option names are all different, so that the order of the
    tests does not matter. *)
Fixpoint parse_args (args : list bstring) (out : Options) : Parse Options :=
  match args with
  | [] => Accepted out
  | arg :: rest =>
      match flag_option arg out with
      | Some out => parse_args rest out
      | None =>
          let bad := Refused (str "lrdd: bad argument '" ++ arg ++ str "'") in
          match rest with
          | value :: rest =>
              match valued_option arg value out with
              | Some parsed => let* out := parsed in parse_args rest out
              | None => bad
              end
          | [] => bad
          end
      end
  end.

(** [main]: the exit code. [serve] says whether a server with the configuration is
    constructed and runs to its end without an exception. *)
Definition main (hardware_concurrency : Z) (serve : ServerConfig -> bool) (args : list bstring) : option Z :=
  match parse_args args (default_options hardware_concurrency) with
  | Refused _ => Some 2
  | Overflow => None
  | Accepted opts =>
      if show_help opts then Some 0
      else if show_version opts then Some 0
      else if serve (opt_config opts) then Some 0 else Some 1
  end.
End Parsing.

(** * Numbers *)

Lemma parse_size_accepted text name v : parse_size text name = Accepted v -> 0 < v < 2 ^ 64.
Proof.
  unfold parse_size. pose proof (strtoul_fits text) as Hf. destruct (strtoul text) as [value tail].
  cbn [fst] in Hf. split_if; [done|]. intros [= <-]. bcases. unfold fits in Hf. lia.
Qed.

Lemma parse_size_allow_zero_accepted text name v : parse_size_allow_zero text name = Accepted v -> fits 64 v.
Proof.
  unfold parse_size_allow_zero. pose proof (strtoul_fits text) as Hf. destruct (strtoul text) as [value tail].
  cbn [fst] in Hf. split_if; [done|]. by intros [= <-].
Qed.

Lemma at_start_format z : 0 <= z -> at_start [] (format_dec z) = false.
Proof. intros Hz. destruct (format_dec_spec z Hz) as (_ & Hne & _). by destruct (format_dec z). Qed.

Lemma parse_size_allow_zero_format z name : fits 64 z -> parse_size_allow_zero (format_dec z) name = Accepted z.
Proof.
  intros Hz. unfold parse_size_allow_zero. by rewrite strtoul_format, at_start_format by (done || apply Hz).
Qed.

Lemma parse_size_format z name : 0 < z < 2 ^ 64 -> parse_size (format_dec z) name = Accepted z.
Proof.
  intros Hz. unfold parse_size. rewrite strtoul_format, at_start_format by (unfold fits; lia). cbn.
  by rewrite (proj2 (Z.eqb_neq z 0)) by lia.
Qed.

Lemma seconds_to_millis_fits n ms : seconds_to_millis n = Accepted ms -> fits_i64 ms.
Proof. unfold seconds_to_millis. case_bool_decide; [|done]. by intros [= <-]. Qed.

Lemma seconds_to_millis_small n : 0 <= n -> n * 1000 < 2 ^ 63 -> seconds_to_millis n = Accepted (n * 1000).
Proof.
  intros Hn Hm. unfold seconds_to_millis. assert (to_i64 n = n) as ->.
  { unfold to_i64. rewrite wrap_small by (unfold fits; lia). by rewrite (proj2 (Z.ltb_lt _ _)) by lia. }
  rewrite bool_decide_eq_true_2; [done|]. unfold fits_i64. lia.
Qed.

(** * What an accepted command line guarantees *)

(** The ranges of the configuration: the sizes are positive [size_t] values, every other
    number is within its type, and what has no option keeps its default. *)
Record config_in_range (c : ServerConfig) : Prop := {
  cr_capacity : 0 < cache_capacity c < 2 ^ 64;
  cr_shards : 0 < cache_shards c < 2 ^ 64;
  cr_threads : 0 < cfg_thread_count c < 2 ^ 64;
  cr_queue : 0 < max_queued_connections c < 2 ^ 64;
  cr_tracked : 0 < max_tracked_items (cfg_policy c) < 2 ^ 64;
  cr_cap : fits 64 (exposure_cap (cfg_policy c));
  cr_limit : fits 32 (frequency_limit (cfg_policy c));
  cr_window : fits_i64 (frequency_window (cfg_policy c));
  cr_epsilon : d_leb (epsilon (cfg_privacy c)) d0 = false;
  cr_sensitivity : sensitivity (cfg_privacy c) = d1;
  cr_suppress : fits 64 (suppression_threshold (cfg_privacy c));
  cr_rounding : 0 < rounding (cfg_privacy c) < 2 ^ 64;
  cr_epoch : fits_i64 (epoch (cfg_privacy c));
  cr_seed : fits 64 (seed (cfg_privacy c));
  cr_scoring : cfg_scoring c = default_scoring
}.

Lemma default_in_range hardware_concurrency :
  0 <= hardware_concurrency < 2 ^ 32 -> config_in_range (opt_config (default_options hardware_concurrency)).
Proof.
  intros Hh. assert (0 < default_thread_count hardware_concurrency < 2 ^ 64).
  { unfold default_thread_count. case_match; bcases; lia. }
  by split.
Qed.

Lemma parse_bind_accepted {A B} (x : Parse A) (f : A -> Parse B) b :
  parse_bind x f = Accepted b -> exists a, x = Accepted a /\ f a = Accepted b.
Proof. destruct x; cbn; [by eauto|done..]. Qed.

Section Accepted.
Context (strtod : bstring -> double * bstring).

Lemma parse_epsilon_accepted text x : parse_epsilon strtod text = Accepted x -> d_leb x d0 = false.
Proof.
  unfold parse_epsilon. destruct (strtod text) as [v tail]. split_if; [done|]. intros [= <-]. by bcases.
Qed.

Lemma flag_in_range arg out o :
  flag_option arg out = Some o -> config_in_range (opt_config out) -> config_in_range (opt_config o).
Proof.
  unfold flag_option. intros Ho [].
  repeat match type of Ho with context [if ?b then _ else _] => destruct b end; simplify_eq; by split.
Qed.

Lemma valued_in_range arg value out o :
  valued_option strtod arg value out = Some (Accepted o) ->
  config_in_range (opt_config out) -> config_in_range (opt_config o).
Proof.
  unfold valued_option. intros Ho [].
  repeat match type of Ho with context [if streq ?a ?b then _ else _] => destruct (streq a b) end;
    simplify_eq; try by split.
  all: repeat match goal with
  | H : parse_bind _ _ = Accepted _ |- _ => apply parse_bind_accepted in H as (? & ? & ?)
  | H : parse_size _ _ = Accepted _ |- _ => apply parse_size_accepted in H
  | H : parse_size_allow_zero _ _ = Accepted _ |- _ => apply parse_size_allow_zero_accepted in H
  | H : seconds_to_millis _ = Accepted _ |- _ => apply seconds_to_millis_fits in H
  | H : parse_epsilon _ _ = Accepted _ |- _ => apply parse_epsilon_accepted in H
  end; simplify_eq; split; try done. by apply wrap_fits.
Qed.

Lemma parse_args_in_range args out o :
  parse_args strtod args out = Accepted o ->
  config_in_range (opt_config out) -> config_in_range (opt_config o).
Proof.
  revert args out. fix IH 1. intros [|arg rest] out; cbn [parse_args]; [clear IH; by intros [= ->]|].
  destruct (flag_option arg out) as [out'|] eqn:Ef.
  - intros Hp Hr. eapply (IH rest out' Hp), flag_in_range; done.
  - destruct rest as [|value rest]; [done|]. destruct (valued_option strtod arg value out) as [parsed|] eqn:Ev; [|done].
    intros (out' & -> & Hp)%parse_bind_accepted Hr. eapply (IH rest out' Hp), valued_in_range; done.
Qed.
End Accepted.

(** * Starting the server *)

Lemma make_shards_some n per : per <> 0%nat -> is_Some (make_shards (K := Z) (V := Item) n per).
Proof.
  intros Hp. induction n as [|n [cs IH]]; cbn; [by eexists|]. unfold lru_new.
  rewrite (proj2 (Nat.eqb_neq _ _)) by done. rewrite IH. by eexists.
Qed.

Lemma sharded_new_iff capacity shards :
  is_Some (sharded_new (K := Z) (V := Item) capacity shards) <-> has_single_bit shards = true /\ shards <= capacity.
Proof.
  unfold sharded_new. destruct (has_single_bit shards) eqn:Hb; rewrite ?orb_true_r.
  2:{ split; [by intros []|by intros []]. }
  assert (0 < shards) by (unfold has_single_bit in Hb; bcases; lia).
  rewrite (proj2 (Z.eqb_neq _ _)) by lia. cbn [orb negb]. case_match; bcases; [split; [by intros []|lia]|].
  destruct (make_shards_some (Z.to_nat shards) (Z.to_nat (capacity / shards))) as [cs ->].
  - assert (1 <= capacity / shards) by (apply Z.div_le_lower_bound; lia). lia.
  - split; [done|by eexists].
Qed.

Lemma exposure_new_iff policy shards :
  is_Some (exposure_new policy shards) <-> has_single_bit shards = true /\ shards <= max_tracked_items policy.
Proof.
  unfold exposure_new. destruct (has_single_bit shards) eqn:Hb; rewrite ?orb_true_r.
  2:{ split; [by intros []|by intros []]. }
  assert (0 < shards) by (unfold has_single_bit in Hb; bcases; lia).
  rewrite (proj2 (Z.eqb_neq _ _)) by lia. cbn [orb negb].
  case_match; bcases; [split; [by intros []|lia]|]. split; [done|by eexists].
Qed.

(** When the privacy parameters that have options are in range, only the epoch is left to
    reject. *)
Lemma noisy_new_iff device1 device2 privacy :
  d_leb (epsilon privacy) d0 = false -> sensitivity privacy = d1 ->
  (exists p, noisy_new device1 device2 privacy = inr p) <-> (enabled privacy = true -> 0 < epoch privacy).
Proof.
  intros He Hs. unfold noisy_new. rewrite He, Hs, andb_false_r. change (d_leb d1 d0) with false.
  rewrite andb_false_r. destruct (enabled privacy); cbn [andb].
  - case_match; bcases; split; [by intros []|intros H'; specialize (H' eq_refl); lia|done|by eexists].
  - split; [done|by eexists].
Qed.

Lemma handler_new_iff device1 device2 c : config_in_range c ->
  (exists h, handler_new device1 device2 (cache_capacity c) (cache_shards c) (cfg_scoring c) (cfg_policy c)
               (cfg_privacy c) = inr h) <->
  has_single_bit (cache_shards c) = true /\ cache_shards c <= cache_capacity c /\
  cache_shards c <= max_tracked_items (cfg_policy c) /\
  (enabled (cfg_privacy c) = true -> 0 < epoch (cfg_privacy c)).
Proof.
  intros Hr. rewrite <- (noisy_new_iff device1 device2) by apply Hr.
  pose proof (sharded_new_iff (cache_capacity c) (cache_shards c)) as H1.
  pose proof (exposure_new_iff (cfg_policy c) (cache_shards c)) as H2. unfold handler_new.
  destruct (sharded_new _ _); [|split; [by intros []|]; intros (A & B & _); by destruct (proj2 H1)].
  destruct (exposure_new _ _); [|split; [by intros []|]; intros (A & _ & B & _); by destruct (proj2 H2)].
  destruct (proj1 H1 ltac:(by eexists)), (proj1 H2 ltac:(by eexists)).
  destruct (noisy_new _ _ _) as [err|pr]; split.
  - by intros [].
  - by intros (_ & _ & _ & p & ?).
  - intros _. split_and!; [done..|]. by eexists.
  - intros _. by eexists.
Qed.

(** * Writing a configuration as a command line *)

Definition render_flag (name : bstring) (on : bool) : list bstring := if on then [name] else [].

(** Every option spelled out; [epsilon_text] spells the epsilon, and the two durations
    are in whole seconds. *)
Definition render (epsilon_text : bstring) (o : Options) : list bstring :=
  let c := opt_config o in
  render_flag (str "--help") (show_help o) ++
  render_flag (str "--version") (show_version o) ++
  render_flag (str "--verbose") (verbose c) ++
  render_flag (str "--policy-fail-open") (fail_open_when_full (cfg_policy c)) ++
  render_flag (str "--privacy") (enabled (cfg_privacy c)) ++
  [str "--socket"; socket_path c;
   str "--capacity"; format_dec (cache_capacity c);
   str "--codec"; codec_name c;
   str "--shards"; format_dec (cache_shards c);
   str "--threads"; format_dec (cfg_thread_count c);
   str "--queue"; format_dec (max_queued_connections c);
   str "--exposure-cap"; format_dec (exposure_cap (cfg_policy c));
   str "--frequency-limit"; format_dec (frequency_limit (cfg_policy c));
   str "--frequency-window"; format_dec (frequency_window (cfg_policy c) / 1000);
   str "--policy-capacity"; format_dec (max_tracked_items (cfg_policy c));
   str "--privacy-epsilon"; epsilon_text;
   str "--privacy-epoch"; format_dec (epoch (cfg_privacy c) / 1000);
   str "--privacy-round"; format_dec (rounding (cfg_privacy c));
   str "--privacy-suppress"; format_dec (suppression_threshold (cfg_privacy c));
   str "--privacy-seed"; format_dec (seed (cfg_privacy c))].

(** Durations an option can express. *)
Definition whole_seconds (ms : Z) : Prop := 0 < ms < 2 ^ 63 /\ ms mod 1000 = 0.

Lemma whole_seconds_parse {A} ms name (k : Z -> Parse A) :
  whole_seconds ms ->
  (let* n := parse_size (format_dec (ms / 1000)) name in let* m := seconds_to_millis n in k m) = k ms.
Proof.
  intros [Hr Hm]. assert (E : ms = ms / 1000 * 1000) by (rewrite (Z.div_mod ms 1000) at 1; lia).
  assert (0 < ms / 1000) by lia. rewrite parse_size_format by lia. cbn.
  rewrite seconds_to_millis_small by lia. by rewrite <- E.
Qed.

Section Render.
Context (strtod : bstring -> double * bstring).

Lemma parse_render_flag name on rest out f :
  flag_option name out = Some (f out) ->
  parse_args strtod (render_flag name on ++ rest) out = parse_args strtod rest (if on then f out else out).
Proof. intros Hf. destruct on; cbn [render_flag app parse_args]; [by rewrite Hf|done]. Qed.

Lemma parse_valued arg value rest out parsed :
  flag_option arg out = None -> valued_option strtod arg value out = Some parsed ->
  parse_args strtod (arg :: value :: rest) out = parse_bind parsed (parse_args strtod rest).
Proof. intros Hf Hv. cbn [parse_args]. by rewrite Hf, Hv. Qed.

Lemma parse_epsilon_text text x :
  strtod text = (x, []) -> text <> [] -> d_leb x d0 = false -> parse_epsilon strtod text = Accepted x.
Proof.
  intros Hs Hne Hx. unfold parse_epsilon. rewrite Hs. destruct text as [|b text]; [done|]. cbn. by rewrite Hx.
Qed.

(** One option of the rendering: the branch for its name, then its value. *)
Tactic Notation "parse_option" tactic3(read) :=
  erewrite parse_valued;
    [|unfold flag_option; literals; reflexivity|unfold valued_option; literals; reflexivity];
  read; cbn [parse_bind].
Ltac read_text := idtac.
Ltac read_size := rewrite parse_size_format by done.
Ltac read_count := rewrite parse_size_allow_zero_format by (done || by apply (fits_mono 32)).
Ltac read_seconds := rewrite whole_seconds_parse by done.

Lemma render_parses epsilon_text hardware_concurrency o :
  config_in_range (opt_config o) ->
  whole_seconds (frequency_window (cfg_policy (opt_config o))) -> whole_seconds (epoch (cfg_privacy (opt_config o))) ->
  strtod epsilon_text = (epsilon (cfg_privacy (opt_config o)), []) -> epsilon_text <> [] ->
  parse_args strtod (render epsilon_text o) (default_options hardware_concurrency) = Accepted o.
Proof.
  intros [] Hw He Hs Hne. unfold render.
  rewrite (parse_render_flag (str "--help") _ _ _ (fun o => MkOptions (opt_config o) true (show_version o))) by done.
  rewrite (parse_render_flag (str "--version") _ _ _ (fun o => MkOptions (opt_config o) (show_help o) true)) by done.
  rewrite (parse_render_flag (str "--verbose") _ _ _ set_verbose) by done.
  rewrite (parse_render_flag (str "--policy-fail-open") _ _ _ (on_policy (fun p => MkPolicyConfig (exposure_cap p)
    (frequency_limit p) (frequency_window p) (max_tracked_items p) true))) by done.
  rewrite (parse_render_flag (str "--privacy") _ _ _ (on_privacy (fun p => MkPrivacy true (epsilon p)
    (sensitivity p) (suppression_threshold p) (rounding p) (epoch p) (seed p)))) by done.
  parse_option read_text. parse_option read_size. parse_option read_text. do 3 parse_option read_size. do 2 parse_option read_count.
  parse_option read_seconds. parse_option read_size.
  parse_option (rewrite (parse_epsilon_text _ _ Hs) by done). parse_option read_seconds. parse_option read_size.
  do 2 parse_option read_count. cbn [parse_args]. f_equal. rewrite wrap_small by done.
  destruct o as [[? ? ? ? ? ? ? [? ? ? ? []] [[]]  []] [] []]; cbn in *; subst; done.
Qed.
End Render.

(** * Main theorems *)


(** Every configuration has a command line. Spelling out all the options of a
    configuration in range, with durations in whole seconds and an epsilon [strtod] reads
    in full, and parsing the result from the defaults of [main] gives that configuration
    back; in particular no option overrides another. *)
Theorem command_line_roundtrip strtod epsilon_text hardware_concurrency o :
  config_in_range (opt_config o) ->
  whole_seconds (frequency_window (cfg_policy (opt_config o))) -> whole_seconds (epoch (cfg_privacy (opt_config o))) ->
  strtod epsilon_text = (epsilon (cfg_privacy (opt_config o)), []) -> epsilon_text <> [] ->
  parse_args strtod (render epsilon_text o) (default_options hardware_concurrency) = Accepted o.
Proof. apply render_parses. Qed.

(** A frequency limit of 2^32 is accepted and becomes 0, which disables the limit; a
    negative capacity is accepted as a huge one. *)
Theorem frequency_limit_truncated strtod hardware_concurrency :
  parse_args strtod [str "--frequency-limit"; str "4294967296"] (default_options hardware_concurrency) =
    Accepted (default_options hardware_concurrency) /\
  frequency_limit (cfg_policy (opt_config (default_options hardware_concurrency))) = 0 /\
  parse_args strtod [str "--capacity"; str "-1"] (default_options hardware_concurrency) =
    Accepted (set_capacity (2 ^ 64 - 1) (default_options hardware_concurrency)).
Proof. by vm_compute. Qed.

(** * Witnesses *)

(** [strtod] on the one text used below. *)
Definition toy_strtod (text : bstring) : double * bstring :=
  if bool_decide (text = str "1.0") then (d1, []) else (d0, text).

Definition sample_args : list bstring :=
  [str "--capacity"; str "500"; str "--privacy"; str "--privacy-epsilon"; str "1.0";
   str "--exposure-cap"; str "3"; str "--threads"; str "8"].

Definition sample_options : Options :=
  match parse_args toy_strtod sample_args (default_options 4) with Accepted o => o | _ => default_options 4 end.

Lemma sample_parsed : parse_args toy_strtod sample_args (default_options 4) = Accepted sample_options.
Proof. by vm_compute. Qed.


Lemma command_line_roundtrip_witness :
  parse_args toy_strtod (render (str "1.0") sample_options) (default_options 16) = Accepted sample_options.
Proof.
  apply command_line_roundtrip; [|split; vm_compute; [split|]; done..|by vm_compute|by vm_compute].
  split; vm_compute; try split; done.
Defined.
