(* ===== verification/Fd.v ===== *)
(** Fd: the owning descriptor handle (src/include/lrd/common/fd.hpp,
    src/src/common/fd.cpp). The state is the [fd_] member of every live object and the
    kernel's table of open descriptors, whose numbers are reused; the operations are the
    special members, [release], [reset] and [close]. Shown: however handles are
    constructed, moved, reset, released and destroyed, no descriptor is closed twice or
    by an object that does not own it, and none is leaked. *)
From stdpp Require Import base option list gmap.
From Stdlib Require Import ZArith Lia.
From S2P Require Import Prelude.

Definition kInvalid : Z := -1.

(** [handles]: the live objects. [open_fds]: the kernel's open descriptors. [raw]: those of
    them in the hands of code outside any handle. [closes]: the calls of [::close], and
    whether the descriptor was open. *)
Record FdWorld := MkFdWorld {
  handles : gmap nat Z;
  open_fds : gset Z;
  raw : gset Z;
  closes : list (Z * bool)
}.

Definition fd_init : FdWorld := MkFdWorld ∅ ∅ ∅ [].

Definition get (k : nat) (w : FdWorld) : Z := default kInvalid (handles w !! k).
Definition valid (k : nat) (w : FdWorld) : bool := negb (get k w =? kInvalid).
Definition set_fd (k : nat) (fd : Z) (w : FdWorld) : FdWorld :=
  MkFdWorld (<[k := fd]> (handles w)) (open_fds w) (raw w) (closes w).

(** The system call. *)
Definition sys_close (fd : Z) (w : FdWorld) : FdWorld :=
  MkFdWorld (handles w) (open_fds w ∖ {[fd]}) (raw w) (closes w ++ [(fd, bool_decide (fd ∈ open_fds w))]).

Definition fd_close (k : nat) (w : FdWorld) : FdWorld :=
  if valid k w then set_fd k kInvalid (sys_close (get k w) w) else w.

(** [std::exchange(other.fd_, value)]. *)
Definition exchange (k : nat) (value : Z) (w : FdWorld) : Z * FdWorld := (get k w, set_fd k value w).

(** [Fd(int)] (and [Fd()], with [kInvalid]); the descriptor leaves the hands of the caller. *)
Definition fd_construct (k : nat) (fd : Z) (w : FdWorld) : FdWorld :=
  set_fd k fd (MkFdWorld (handles w) (open_fds w) (raw w ∖ {[fd]}) (closes w)).

Definition fd_move (k other : nat) (w : FdWorld) : FdWorld :=
  let '(fd, w) := exchange other kInvalid w in set_fd k fd w.

Definition fd_assign (k other : nat) (w : FdWorld) : FdWorld :=
  if (k =? other)%nat then w
  else let '(fd, w) := exchange other kInvalid (fd_close k w) in set_fd k fd w.

Definition fd_release (k : nat) (w : FdWorld) : Z * FdWorld :=
  let '(fd, w) := exchange k kInvalid w in
  (fd, if fd =? kInvalid then w else MkFdWorld (handles w) (open_fds w) (raw w ∪ {[fd]}) (closes w)).

Definition fd_reset (k : nat) (fd : Z) (w : FdWorld) : FdWorld :=
  if get k w =? fd then w
  else
    let w := fd_close k w in
    set_fd k fd (MkFdWorld (handles w) (open_fds w) (raw w ∖ {[fd]}) (closes w)).

Definition fd_destroy (k : nat) (w : FdWorld) : FdWorld :=
  let w := fd_close k w in MkFdWorld (delete k (handles w)) (open_fds w) (raw w) (closes w).

(** * Programs over handles *)

(** What a program can do. A descriptor given to a handle is the caller's to give: it is
    [kInvalid] or one the caller holds. *)
Inductive FdEvent :=
| EvOpen (fd : Z)
| EvConstruct (k : nat) (fd : Z)
| EvMove (k other : nat)
| EvAssign (k other : nat)
| EvRelease (k : nat)
| EvReset (k : nat) (fd : Z)
| EvClose (k : nat)
| EvDestroy (k : nat).

Definition may_give (fd : Z) (w : FdWorld) : bool := bool_decide (fd = kInvalid \/ fd ∈ raw w).
Definition live (k : nat) (w : FdWorld) : bool := bool_decide (is_Some (handles w !! k)).

Definition fd_step (ev : FdEvent) (w : FdWorld) : option FdWorld :=
  match ev with
  | EvOpen fd =>
      if (0 <=? fd) && bool_decide (fd ∉ open_fds w) then
        Some (MkFdWorld (handles w) (open_fds w ∪ {[fd]}) (raw w ∪ {[fd]}) (closes w))
      else None
  | EvConstruct k fd => if negb (live k w) && may_give fd w then Some (fd_construct k fd w) else None
  | EvMove k other => if negb (live k w) && live other w then Some (fd_move k other w) else None
  | EvAssign k other => if live k w && live other w then Some (fd_assign k other w) else None
  | EvRelease k => if live k w then Some (snd (fd_release k w)) else None
  | EvReset k fd =>
      if live k w && (may_give fd w || (get k w =? fd)) then Some (fd_reset k fd w) else None
  | EvClose k => if live k w then Some (fd_close k w) else None
  | EvDestroy k => if live k w then Some (fd_destroy k w) else None
  end.

Fixpoint fd_run (evs : list FdEvent) (w : FdWorld) : option FdWorld :=
  match evs with
  | [] => Some w
  | ev :: evs => match fd_step ev w with Some w => fd_run evs w | None => None end
  end.

(** * The invariant *)

(** [k] owns [fd]. *)
Definition owns (w : FdWorld) (k : nat) (fd : Z) : Prop := handles w !! k = Some fd /\ fd <> kInvalid.

Record fd_inv (w : FdWorld) : Prop := {
  inv_owned : forall k fd, owns w k fd -> fd ∈ open_fds w /\ fd ∉ raw w;
  inv_unique : forall k k' fd, owns w k fd -> owns w k' fd -> k = k';
  inv_open : forall fd, fd ∈ open_fds w -> fd ∈ raw w \/ exists k, owns w k fd;
  inv_raw : raw w ⊆ open_fds w;
  inv_valid : kInvalid ∉ open_fds w;
  inv_closes : Forall (fun c => snd c = true) (closes w)
}.

Lemma fd_init_inv : fd_inv fd_init.
Proof.
  split; unfold owns; cbn; [by intros ? ? []|by intros ? ? ? []|set_solver|done|set_solver|constructor].
Qed.

Lemma get_owns k w : valid k w = true -> owns w k (get k w).
Proof.
  unfold valid, get, owns. intros Hv. bcases. destruct (handles w !! k) as [fd|] eqn:E; cbn in *; done.
Qed.

Lemma get_not_owns k w fd : valid k w = false -> ~ owns w k fd.
Proof. unfold valid, get, owns. intros Hv [H Hne]. rewrite H in Hv. cbn in Hv. bcases. done. Qed.

(** An object that gives up its descriptor to the caller. *)
Lemma disown_inv k w : fd_inv w -> valid k w = true ->
  fd_inv (MkFdWorld (<[k := kInvalid]> (handles w)) (open_fds w) (raw w ∪ {[get k w]}) (closes w)).
Proof.
  intros [A B C D E F] Hv. pose proof (get_owns k w Hv) as Hk. destruct (A _ _ Hk) as [Ho _].
  assert (Hother : forall k' fd, <[k := kInvalid]> (handles w) !! k' = Some fd /\ fd <> kInvalid ->
    k' <> k /\ owns w k' fd).
  { intros k' fd [H Hne]. destruct (decide (k' = k)) as [->|]; simplify_map_eq. by split. }
  split; unfold owns; cbn.
  - intros k' fd [Hne Hk']%Hother. destruct (A _ _ Hk') as [? ?]. split; [done|].
    intros [?|Hf%elem_of_singleton]%elem_of_union; [done|]. subst fd. by apply Hne, (B k' k (get k w)).
  - intros k1 k2 fd [_ H1]%Hother [_ H2]%Hother. by apply (B k1 k2 fd).
  - intros fd Hfd. destruct (C fd Hfd) as [|(k' & Hk')]; [left; by apply elem_of_union_l|].
    destruct (decide (k' = k)) as [->|].
    + left. apply elem_of_union_r, elem_of_singleton. destruct Hk as [Hk _], Hk' as [Hk' _]. congruence.
    + right. exists k'. by rewrite lookup_insert_ne.
  - apply union_subseteq. split; [done|]. by apply singleton_subseteq_l.
  - done.
  - done.
Qed.

(** An object that owns nothing takes a descriptor from the caller, or none. *)
Lemma adopt_inv k fd w : fd_inv w -> valid k w = false -> fd = kInvalid \/ fd ∈ raw w ->
  fd_inv (MkFdWorld (<[k := fd]> (handles w)) (open_fds w) (raw w ∖ {[fd]}) (closes w)).
Proof.
  intros [A B C D E F] Hv Hfd.
  assert (Hcase : forall k' fd', <[k := fd]> (handles w) !! k' = Some fd' /\ fd' <> kInvalid ->
    k' = k /\ fd' = fd /\ fd ∈ raw w \/ k' <> k /\ owns w k' fd' /\ fd' ∉ raw w).
  { intros k' fd' [H Hne]. destruct (decide (k' = k)) as [->|]; simplify_map_eq.
    - left. destruct Hfd; [done|by split_and!].
    - right. assert (owns w k' fd') as Ho by (by split). split_and!; [done..|by apply (A k')]. }
  split; unfold owns; cbn.
  - intros k' fd' [(-> & -> & ?)|(? & Ho & ?)]%Hcase; [set_solver|]. destruct (A _ _ Ho). set_solver.
  - intros k1 k2 fd' [(-> & -> & ?)|(? & Ho & ?)]%Hcase [(-> & ? & ?)|(? & Ho' & ?)]%Hcase; subst; try done.
    by apply (B k1 k2 fd').
  - intros fd' Ho. destruct (C fd' Ho) as [Hr|(k' & Hk' & Hne)].
    + destruct (decide (fd' = fd)) as [->|]; [|set_solver]. right. exists k. rewrite lookup_insert.
      rewrite decide_True by done. split; [done|]. by intros ->.
    + right. exists k'. destruct (decide (k' = k)) as [->|]; [|by rewrite lookup_insert_ne].
      exfalso. by apply (get_not_owns k w fd').
  - set_solver.
  - done.
  - done.
Qed.

(** The caller closes a descriptor it holds. *)
Lemma close_raw_inv fd w : fd_inv w -> fd ∈ raw w ->
  fd_inv (MkFdWorld (handles w) (open_fds w ∖ {[fd]}) (raw w ∖ {[fd]})
            (closes w ++ [(fd, bool_decide (fd ∈ open_fds w))])).
Proof.
  intros [A B C D E F] Hfd. split; cbn.
  - intros k fd' Ho. destruct (A k fd' Ho). set_solver.
  - done.
  - intros fd' Ho. destruct (C fd') as [|?]; [set_solver|set_solver|by right].
  - set_solver.
  - set_solver.
  - apply Forall_app. split; [done|]. constructor; [|done]. cbn. apply bool_decide_eq_true_2. set_solver.
Qed.

Lemma fd_close_inv k w : fd_inv w -> fd_inv (fd_close k w) /\ valid k (fd_close k w) = false.
Proof.
  intros Hinv. unfold fd_close. destruct (valid k w) eqn:Hv; [|done].
  split; [|unfold valid, get; cbn; by rewrite lookup_insert_eq].
  destruct (inv_owned w Hinv _ _ (get_owns k w Hv)) as [Ho Hr].
  pose proof (close_raw_inv (get k w) _ (disown_inv k w Hinv Hv) ltac:(set_solver)) as H. cbn in H.
  unfold set_fd, sys_close; cbn. replace (raw w) with ((raw w ∪ {[get k w]}) ∖ {[get k w]}); [done|].
  apply leibniz_equiv. set_solver.
Qed.

Lemma fd_close_raw k w : raw (fd_close k w) = raw w.
Proof. unfold fd_close. by destruct (valid k w). Qed.

Lemma raw_without_invalid w : fd_inv w -> raw w ∖ {[kInvalid]} = raw w.
Proof. intros [_ _ _ D E _]. apply leibniz_equiv. set_solver. Qed.

Lemma clear_inv k w : fd_inv w -> valid k w = false -> fd_inv (set_fd k kInvalid w).
Proof.
  intros Hinv Hv. pose proof (adopt_inv k kInvalid w Hinv Hv (or_introl eq_refl)) as H.
  by rewrite raw_without_invalid in H.
Qed.

(** Ownership moves from one object to another that owns nothing. *)
Lemma transfer_inv k other w : fd_inv w -> k <> other -> valid k w = false ->
  fd_inv (set_fd k (get other w) (set_fd other kInvalid w)).
Proof.
  intros Hinv Hne Hv.
  assert (Hk : forall h r, valid k (MkFdWorld (<[other := kInvalid]> (handles w)) h r (closes w)) = false).
  { intros h r. unfold valid, get in *. cbn. by rewrite lookup_insert_ne. }
  destruct (valid other w) eqn:Ho.
  - destruct (inv_owned w Hinv _ _ (get_owns other w Ho)) as [_ Hr].
    pose proof (adopt_inv k (get other w) _ (disown_inv other w Hinv Ho) (Hk _ _) ltac:(right; set_solver)) as H.
    cbn in H. replace (raw w ∪ {[get other w]}) with ({[get other w]} ∪ raw w) in H by apply comm, _.
    rewrite difference_union_distr_l_L, difference_diag_L, (left_id_L ∅ (∪)) in H.
    by rewrite difference_disjoint_L in H by set_solver.
  - assert (get other w = kInvalid) as -> by (unfold valid in Ho; by bcases).
    apply clear_inv; [by apply clear_inv|apply Hk].
Qed.

Lemma fd_delete_inv k w : fd_inv w -> valid k w = false ->
  fd_inv (MkFdWorld (delete k (handles w)) (open_fds w) (raw w) (closes w)).
Proof.
  intros [A B C D E F] Hv.
  assert (Hsub : forall k' fd, delete k (handles w) !! k' = Some fd /\ fd <> kInvalid -> owns w k' fd).
  { intros k' fd [H Hne]. apply lookup_delete_Some in H as [_ H]. by split. }
  split; unfold owns; cbn; [| | |done..].
  - intros k' fd Ho. apply (A k'), Hsub, Ho.
  - intros k1 k2 fd H1 H2. apply (B k1 k2 fd); by apply Hsub.
  - intros fd Ho. destruct (C fd Ho) as [|(k' & Hk' & Hne)]; [by left|right]. exists k'.
    rewrite lookup_delete_ne; [done|]. intros ->. by apply (get_not_owns k' w fd).
Qed.

Lemma not_live_invalid k w : live k w = false -> valid k w = false.
Proof.
  unfold live, valid, get. intros H%bool_decide_eq_false. rewrite <- eq_None_not_Some in H. by rewrite H.
Qed.

Lemma fd_step_inv ev w w' : fd_inv w -> fd_step ev w = Some w' -> fd_inv w'.
Proof.
  intros Hinv. unfold fd_step. destruct ev as [fd|k fd|k other|k other|k|k fd|k|k]; (split_if; [|done]);
    intros [= <-]; bcases.
  - destruct Hinv as [A B C D E F]. apply bool_decide_eq_true in H0. split; unfold owns in *; cbn.
    + intros k fd' Ho. destruct (A k fd' Ho). set_solver.
    + done.
    + intros fd' Ho. destruct (decide (fd' = fd)); [set_solver|]. destruct (C fd'); [set_solver..|by right].
    + set_solver.
    + unfold kInvalid in *. set_solver by lia.
    + done.
  - apply (adopt_inv k fd w); [done|by apply not_live_invalid|]. by apply bool_decide_eq_true in H0.
  - apply (transfer_inv k other w); [done| |by apply not_live_invalid]. intros ->. congruence.
  - unfold fd_assign. destruct (Nat.eqb_spec k other); [done|].
    destruct (fd_close_inv k w Hinv). by apply (transfer_inv k other (fd_close k w)).
  - unfold fd_release, exchange, set_fd; cbn. destruct (valid k w) eqn:Hv.
    + unfold valid in Hv. bcases. rewrite (proj2 (Z.eqb_neq _ _)) by done. apply (disown_inv k w); [done|].
      unfold valid. by rewrite (proj2 (Z.eqb_neq _ _)).
    + assert (get k w = kInvalid) as -> by (unfold valid in Hv; by bcases). by apply (clear_inv k w).
  - unfold fd_reset. destruct (Z.eqb_spec (get k w) fd) as [|Hne]; [done|]. destruct (fd_close_inv k w Hinv) as [Hc Hv].
    rewrite orb_false_r in H0. apply bool_decide_eq_true in H0. apply (adopt_inv k fd (fd_close k w)); [done..|]. by rewrite fd_close_raw.
  - by apply fd_close_inv.
  - destruct (fd_close_inv k w Hinv). by apply (fd_delete_inv k (fd_close k w)).
Qed.

Lemma fd_run_inv evs w w' : fd_inv w -> fd_run evs w = Some w' -> fd_inv w'.
Proof.
  revert w. induction evs as [|ev evs IH]; intros w Hinv; cbn [fd_run]; [by intros [= <-]|].
  destruct (fd_step ev w) as [w1|] eqn:E; [|done]. apply IH. by eapply fd_step_inv.
Qed.

(** * Main theorem *)

(** Descriptors have one owner. Whatever a program does with its handles, provided it
    only gives them descriptors it holds itself, every [::close] a handle makes is of a
    descriptor that is open (so none is closed twice, however the kernel reuses numbers);
    no two objects own the same descriptor; the open descriptors are those an object owns
    and those the program holds. When all objects are destroyed only what the program
    holds is still open. *)
Theorem descriptors_closed_once evs w :
  fd_run evs fd_init = Some w ->
  Forall (fun c => snd c = true) (closes w) /\
  (forall k k' fd, owns w k fd -> owns w k' fd -> k = k') /\
  (forall fd, fd ∈ open_fds w <-> fd ∈ raw w \/ exists k, owns w k fd) /\
  (handles w = ∅ -> open_fds w = raw w).
Proof.
  intros Hrun. pose proof (fd_run_inv _ _ _ fd_init_inv Hrun) as [A B C D E F].
  assert (Hiff : forall fd, fd ∈ open_fds w <-> fd ∈ raw w \/ exists k, owns w k fd).
  { intros fd. split; [apply C|]. intros [Hr|(k & Hk)]; [by apply D|]. by apply (A k). }
  split_and!; [done..|]. intros Hn. apply leibniz_equiv. intros fd. rewrite Hiff. unfold owns. rewrite Hn.
  split; [|by left]. by intros [|(k & Hk & _)].
Qed.

(** Two sockets, a move, a self-move, a reset onto a reused number, and the end. *)
Definition fd_trace : list FdEvent :=
  [EvOpen 3; EvConstruct 0 3; EvOpen 4; EvConstruct 1 4; EvMove 2 0; EvAssign 2 2; EvAssign 2 1;
   EvOpen 3; EvReset 2 3; EvClose 1; EvDestroy 0; EvDestroy 1; EvDestroy 2].

Lemma descriptors_closed_once_witness :
  fd_run fd_trace fd_init = Some (MkFdWorld ∅ ∅ ∅ [(3, true); (4, true); (3, true)]) /\
  Forall (fun c : Z * bool => snd c = true) [(3, true); (4, true); (3, true)].
Proof.
  assert (H : fd_run fd_trace fd_init = Some (MkFdWorld ∅ ∅ ∅ [(3, true); (4, true); (3, true)])) by (by vm_compute).
  split; [done|]. exact (proj1 (descriptors_closed_once _ _ H)).
Defined.
