(* ===== verification/UnixSocket.v ===== *)
(** UnixSocket: setting up UNIX-domain sockets (src/src/net/unix_socket.cpp,
    src/include/lrd/net/unix_socket.hpp). The functions issue system calls against a
    kernel that is a parameter: any function from the calls answered so far and the next
    call to its result. Shown, for every kernel: [UnixListener::bind] removes a file only
    after the probe was refused or when it is its own, leaves a live daemon alone, leaks no
    descriptor on any path and restores the umask; [accept] and [connect] return unless
    interrupted for ever; a timeout is passed to the kernel exactly. Against a concrete
    file system two daemons that start at once on a stale file both succeed, one of them
    unreachable. *)
From stdpp Require Import base option list.
From Stdlib Require Import ZArith Lia.
From S2P Require Import Prelude Handler Fd.

(** * System calls *)

Definition EINTR : Z := 4.
Definition ENOENT : Z := 2.
Definition EINVAL : Z := 22.
Definition ENAMETOOLONG : Z := 36.
Definition EADDRINUSE : Z := 98.
Definition ECONNREFUSED : Z := 111.
Definition kMaxSocketPathLength : Z := 107.

(** [sun_path] of a [sockaddr_un], 108 bytes. *)
Abbreviation sockaddr_un := bstring (only parsing).

Inductive Syscall :=
| Access (path : bstring)
| Socket
| Connect (fd : Z) (addr : sockaddr_un) (len : Z)
| Close (fd : Z)
| Unlink (path : bstring)
| Umask (mode : Z)
| Bind (fd : Z) (addr : sockaddr_un) (len : Z)
| Listen (fd : Z) (backlog : Z)
| Accept4 (fd : Z)
| Setsockopt (fd option tv_sec tv_usec : Z)
| ShutdownWrite (fd : Z)
| Pipe2 (read_end write_end : Z).   (** with what the call stored in its array *)

(** What the call returns, and [errno] after it. *)
Record SysResult := MkSys { rc : Z; errno : Z }.
Definition succeeded (r : SysResult) : bool := rc r =? 0.

Record SystemError := MkSystemError { error_number : Z; context : bstring }.

Inductive Res (A : Type) := Done (a : A) | Thrown (e : SystemError) | OutOfFuel.
Arguments Done {A} a.
Arguments Thrown {A} e.
Arguments OutOfFuel {A}.

Abbreviation Trace := (list (Syscall * SysResult)) (only parsing).

(** A computation: from the calls made so far, its outcome and the calls it makes. *)
Definition Sys (A : Type) : Type := Trace -> Res A * Trace.

Definition sret {A} (a : A) : Sys A := fun _ => (Done a, []).
Definition sthrow {A} (errno_value : Z) (what : bstring) : Sys A := fun _ => (Thrown (MkSystemError errno_value what), []).
Definition sbind {A B} (m : Sys A) (f : A -> Sys B) : Sys B := fun tr =>
  let '(r, e1) := m tr in
  match r with
  | Done a => let '(r, e2) := f a (tr ++ e1) in (r, e1 ++ e2)
  | Thrown e => (Thrown e, e1)
  | OutOfFuel => (OutOfFuel, e1)
  end.
Notation "x <- m ;; k" := (sbind m (fun x => k)) (at level 100, m at next level, right associativity).

Section Kernel.
Variable kernel : Trace -> Syscall -> SysResult.

Definition sys (c : Syscall) : Sys SysResult := fun tr => let r := kernel tr c in (Done r, [(c, r)]).

(** * Addresses *)

Definition make_address (path : bstring) : Sys sockaddr_un :=
  if (length path =? 0)%nat then sthrow EINVAL (str "socket path is empty")
  else if kMaxSocketPathLength <? zlen path then
    sthrow ENAMETOOLONG (str "socket path is " ++ format_dec (zlen path) ++ str " bytes, limit is "
                           ++ format_dec kMaxSocketPathLength)
  else sret (path ++ replicate (108 - length path) Byte.x00).

Fixpoint strlen (text : bstring) : Z :=
  match text with
  | b :: rest => if bool_decide (b = Byte.x00) then 0 else 1 + strlen rest
  | [] => 0
  end.

(** [offsetof(sockaddr_un, sun_path)] is 2. *)
Definition address_length (addr : sockaddr_un) : Z := 2 + strlen addr + 1.

Definition make_socket : Sys Z :=
  r <- sys Socket ;;
  if rc r <? 0 then sthrow (errno r) (str "socket(AF_UNIX, SOCK_STREAM)") else sret (rc r).

(** A local [Fd] whose owner is given away when the body succeeds, and which the unwinding
    closes when it throws. *)
Definition owning {A} (fd : Z) (body : Sys A) : Sys A := fun tr =>
  let '(r, e1) := body tr in
  match r with
  | Thrown e => let '(_, e2) := sys (Close fd) (tr ++ e1) in (Thrown e, e1 ++ e2)
  | _ => (r, e1)
  end.

Definition socket_file_is_stale (path : bstring) : Sys bool :=
  addr <- make_address path ;;
  probe <- make_socket ;;
  r <- sys (Connect probe addr (address_length addr)) ;;
  _ <- sys (Close probe) ;;
  sret (if succeeded r then false else errno r =? ECONNREFUSED).

(** * UnixStream *)

Fixpoint connect_loop (fuel : nat) (fd : Z) (addr : sockaddr_un) (path : bstring) : Sys Z :=
  match fuel with
  | O => fun _ => (OutOfFuel, [])
  | S fuel =>
      r <- sys (Connect fd addr (address_length addr)) ;;
      if succeeded r then sret fd
      else if errno r =? EINTR then connect_loop fuel fd addr path
      else sthrow (errno r) (str "connect(" ++ path ++ str ")")
  end.

(** The descriptor of the stream. *)
Definition stream_connect (fuel : nat) (path : bstring) : Sys Z :=
  addr <- make_address path ;;
  fd <- make_socket ;;
  owning fd (connect_loop fuel fd addr path).

Definition SO_RCVTIMEO : Z := 20.
Definition SO_SNDTIMEO : Z := 21.

(** C++ division truncates. *)
Definition tv_sec (duration : Z) : Z := Z.quot duration 1000.
Definition tv_usec (duration : Z) : Z := Z.rem duration 1000 * 1000.

Definition apply_timeout (fd option duration : Z) (name : bstring) : Sys unit :=
  r <- sys (Setsockopt fd option (tv_sec duration) (tv_usec duration)) ;;
  if succeeded r then sret tt else sthrow (errno r) name.

Definition set_timeouts (fd receive send : Z) : Sys unit :=
  _ <- apply_timeout fd SO_RCVTIMEO receive (str "setsockopt(SO_RCVTIMEO)") ;;
  apply_timeout fd SO_SNDTIMEO send (str "setsockopt(SO_SNDTIMEO)").

Definition shutdown_write (fd : Z) : Sys unit :=
  if negb (fd =? kInvalid) then _ <- sys (ShutdownWrite fd) ;; sret tt else sret tt.

(** * UnixListener *)

Record UnixListener := MkListener { l_fd : Z; l_path : bstring }.

(** The file in the way, if there is one. *)
Definition clear_path (path : bstring) : Sys unit :=
  present <- sys (Access path) ;;
  if succeeded present then
    stale <- socket_file_is_stale path ;;
    if negb stale then sthrow EADDRINUSE (path ++ str " is already served by a running daemon")
    else
      r <- sys (Unlink path) ;;
      if negb (succeeded r) && negb (errno r =? ENOENT) then sthrow (errno r) (str "unlink(" ++ path ++ str ")")
      else sret tt
  else sret tt.

Definition bind_and_listen (fd : Z) (addr : sockaddr_un) (path : bstring) (backlog : Z) : Sys UnixListener :=
  previous_umask <- sys (Umask 127) ;;
  bound <- sys (Bind fd addr (address_length addr)) ;;
  _ <- sys (Umask (rc previous_umask)) ;;
  if negb (succeeded bound) then sthrow (errno bound) (str "bind(" ++ path ++ str ")")
  else
    r <- sys (Listen fd backlog) ;;
    if negb (succeeded r) then
      _ <- sys (Unlink path) ;;
      sthrow (errno r) (str "listen(" ++ path ++ str ")")
    else sret (MkListener fd path).

Definition listener_bind (path : bstring) (backlog : Z) : Sys UnixListener :=
  _ <- clear_path path ;;
  addr <- make_address path ;;
  fd <- make_socket ;;
  owning fd (bind_and_listen fd addr path backlog).

(** The moved-from object gives up both the descriptor and the file. *)
Definition listener_move (other : UnixListener) : UnixListener * UnixListener :=
  (other, MkListener kInvalid []).

Definition listener_close (l : UnixListener) : Sys UnixListener :=
  _ <- (if negb (l_fd l =? kInvalid) then _ <- sys (Close (l_fd l)) ;; sret tt else sret tt) ;;
  if negb (length (l_path l) =? 0)%nat then
    _ <- sys (Unlink (l_path l)) ;; sret (MkListener kInvalid [])
  else sret (MkListener kInvalid (l_path l)).

(** Move assignment from another object: the target and the source after it. *)
Definition listener_assign (l other : UnixListener) : Sys (UnixListener * UnixListener) :=
  _ <- listener_close l ;; sret (listener_move other).

(** The descriptor of the accepted stream. *)
Fixpoint accept (fuel : nat) (l : UnixListener) : Sys Z :=
  match fuel with
  | O => fun _ => (OutOfFuel, [])
  | S fuel =>
      r <- sys (Accept4 (l_fd l)) ;;
      if 0 <=? rc r then sret (rc r)
      else if errno r =? EINTR then accept fuel l
      else sthrow (errno r) (str "accept4")
  end.
End Kernel.

(** * What a sequence of calls amounts to *)

(** The descriptors it leaves open. *)
Fixpoint remove_one (fd : Z) (l : list Z) : list Z :=
  match l with
  | x :: l => if x =? fd then l else x :: remove_one fd l
  | [] => []
  end.
Definition hold (h : list Z) (ev : Syscall * SysResult) : list Z :=
  match fst ev with
  | Socket | Accept4 _ => if rc (snd ev) <? 0 then h else rc (snd ev) :: h
  | Close fd => remove_one fd h
  | Pipe2 read_end write_end => if rc (snd ev) =? 0 then read_end :: write_end :: h else h
  | _ => h
  end.
Definition held (evs : list (Syscall * SysResult)) : list Z := foldl hold [] evs.

Definition probe_refused (ev : Syscall * SysResult) : bool :=
  match fst ev with
  | Connect _ _ _ => negb (succeeded (snd ev)) && (errno (snd ev) =? ECONNREFUSED)
  | _ => false
  end.
Definition probe_answered (ev : Syscall * SysResult) : bool :=
  match fst ev with Connect _ _ _ => succeeded (snd ev) | _ => false end.
Definition bound_here (ev : Syscall * SysResult) : bool :=
  match fst ev with Bind _ _ _ => succeeded (snd ev) | _ => false end.
Definition touches_file (ev : Syscall * SysResult) : bool :=
  match fst ev with Unlink _ | Bind _ _ _ => true | _ => false end.

(** Every file removed is [path], after a probe of it was refused or once it was bound
    here. *)
Fixpoint unlinks_justified (path : bstring) (justified : bool) (evs : list (Syscall * SysResult)) : bool :=
  match evs with
  | [] => true
  | ev :: evs =>
      match fst ev with Unlink p => bool_decide (p = path) && justified | _ => true end
      && unlinks_justified path (justified || probe_refused ev || bound_here ev) evs
  end.

(** Whether a file created here is still there. *)
Definition leaves_file (evs : list (Syscall * SysResult)) : bool :=
  foldl (fun left ev => match fst ev with
                        | Bind _ _ _ => left || succeeded (snd ev)
                        | Unlink _ => false
                        | _ => left
                        end) false evs.

(** The umasks set, each with the one it replaced. *)
Definition umasks (evs : list (Syscall * SysResult)) : list (Z * Z) :=
  omap (fun ev => match fst ev with Umask m => Some (m, rc (snd ev)) | _ => None end) evs.

Lemma remove_one_head fd l : remove_one fd (fd :: l) = l.
Proof. cbn. by rewrite Z.eqb_refl. Qed.

Section Claims.
Context (kernel : Trace -> Syscall -> SysResult).

Lemma bind_outcome path backlog tr res evs :
  listener_bind kernel path backlog tr = (res, evs) ->
  unlinks_justified path false evs = true /\
  held evs = match res with Done l => [l_fd l] | _ => [] end /\
  leaves_file evs = match res with Done _ => true | _ => false end /\
  (umasks evs = [] \/ exists m m', umasks evs = [(127, m); (m, m')]) /\
  (existsb probe_answered evs = true ->
     (exists e, res = Thrown e /\ error_number e = EADDRINUSE) /\ existsb touches_file evs = false) /\
  res <> OutOfFuel /\
  (forall l, res = Done l -> l_path l = path /\ 0 <= l_fd l).
Proof.
  unfold listener_bind, clear_path, socket_file_is_stale, make_address, make_socket, bind_and_listen,
    owning, sbind, sret, sthrow, sys.
  repeat (match goal with
  | |- context [kernel ?t ?c] => destruct (kernel t c) as [? ?] eqn:?
  | |- context [if ?b then _ else _] => destruct b eqn:?
  end; cbn [fst snd app rc errno negb andb length]).
  all: intros [= <- <-]; unfold held, leaves_file, umasks, hold, probe_answered, touches_file;
    cbn [unlinks_justified foldl omap list_omap existsb fst snd rc errno];
    unfold probe_refused, bound_here, succeeded in *; cbn [fst snd rc errno] in *.
  all: repeat match goal with
  | H : ?b = ?v |- context [?b] => match type of b with bool => rewrite H end
  end; rewrite ?remove_one_head, ?bool_decide_eq_true_2, ?orb_true_r by done; cbn.
  all: split_and!; try done; try (by left); try (right; by do 2 eexists); try by intros ? [= <-].
  all: try (intros ? [= <-]; bcases; by split).
  all: repeat match goal with H : ?b = ?v |- _ => match type of b with bool => revert H end end.
  all: repeat match goal with |- context [?x =? ?y] => destruct (x =? y) end; cbn; try done.
  all: intros; split; [by eexists|done].
Qed.

(** Closing releases what [bind] acquired, once. *)
Lemma close_outcome l tr :
  0 <= l_fd l -> l_path l <> [] ->
  exists r1 r2,
    listener_close kernel l tr = (Done (MkListener kInvalid []), [(Close (l_fd l), r1); (Unlink (l_path l), r2)]).
Proof.
  intros Hfd Hp. unfold listener_close, sbind, sys, sret.
  rewrite (proj2 (Z.eqb_neq (l_fd l) kInvalid)) by (unfold kInvalid; lia).
  destruct (l_path l) as [|b path] eqn:E; [done|]. cbn. by do 2 eexists.
Qed.

Definition interrupted (ev : Syscall * SysResult) : Prop := rc (snd ev) <> 0 /\ errno (snd ev) = EINTR.

Lemma accept_outcome fuel l tr res evs :
  accept kernel fuel l tr = (res, evs) ->
  exists waited, Forall interrupted waited /\
    ((res = OutOfFuel /\ evs = waited /\ length waited = fuel) \/
     exists r, evs = waited ++ [(Accept4 (l_fd l), r)] /\
       (0 <= rc r /\ res = Done (rc r) \/
        rc r < 0 /\ errno r <> EINTR /\ res = Thrown (MkSystemError (errno r) (str "accept4")))).
Proof.
  revert tr res evs. induction fuel as [|fuel IH]; intros tr res evs; cbn [accept].
  - intros [= <- <-]. exists []. split; [constructor|by left].
  - unfold sbind, sys. destruct (kernel tr _) as [r e] eqn:Ek. cbn [rc errno]. destruct (Z.leb_spec 0 r).
    { intros [= <- <-]. exists []. split; [constructor|]. right. eexists. split; [done|by left]. }
    destruct (Z.eqb_spec e EINTR) as [->|Hne].
    + destruct (accept kernel fuel l _) as [res' evs'] eqn:E. intros [= <- <-].
      destruct (IH _ _ _ E) as (waited & Hw & Hor). exists ((Accept4 (l_fd l), MkSys r EINTR) :: waited).
      split; [constructor; [split; [cbn; lia|done]|done]|].
      destruct Hor as [(-> & -> & <-)|(r' & -> & Hr)]; [by left|]. right. by exists r'.
    + intros [= <- <-]. exists []. split; [constructor|]. right. eexists. split; [done|].
      right. by split_and!.
Qed.

Lemma connect_loop_outcome fuel fd addr path tr res evs :
  connect_loop kernel fuel fd addr path tr = (res, evs) ->
  exists waited, Forall interrupted waited /\
    ((res = OutOfFuel /\ evs = waited /\ length waited = fuel) \/
     exists r, evs = waited ++ [(Connect fd addr (address_length addr), r)] /\
       (rc r = 0 /\ res = Done fd \/
        rc r <> 0 /\ errno r <> EINTR /\
        res = Thrown (MkSystemError (errno r) (str "connect(" ++ path ++ str ")")))).
Proof.
  revert tr res evs. induction fuel as [|fuel IH]; intros tr res evs; cbn [connect_loop].
  - intros [= <- <-]. exists []. split; [constructor|by left].
  - unfold sbind, sys. destruct (kernel tr _) as [r e] eqn:Ek. cbn [errno]. unfold succeeded. cbn [rc].
    destruct (Z.eqb_spec r 0) as [->|Hr].
    { intros [= <- <-]. exists []. split; [constructor|]. right. eexists. split; [done|by left]. }
    destruct (Z.eqb_spec e EINTR) as [->|Hne].
    + destruct (connect_loop kernel fuel _ _ _ _) as [res' evs'] eqn:E. intros [= <- <-].
      destruct (IH _ _ _ E) as (waited & Hw & Hor).
      exists ((Connect fd addr (address_length addr), MkSys r EINTR) :: waited).
      split; [by constructor|]. destruct Hor as [(-> & -> & <-)|(r' & -> & Hr')]; [by left|]. right. by exists r'.
    + intros [= <- <-]. exists []. split; [constructor|]. right. eexists. split; [done|].
      right. by split_and!.
Qed.
End Claims.

(** * Two daemons and one path *)

(** What is at the path: nothing, a file no process listens on, or the socket a process has
    bound or listens on. *)
Inductive Node := Missing | Stale | BoundBy (pid : nat) | ListenedBy (pid : nat).

(** The documented results of the calls [bind] makes, for one path. *)
Definition fs_call (pid : nat) (c : Syscall) (node : Node) : SysResult * Node :=
  match c, node with
  | Access _, Missing => (MkSys (-1) ENOENT, node)
  | Socket, _ => (MkSys 3 0, node)
  | Connect _ _ _, Missing => (MkSys (-1) ENOENT, node)
  | Connect _ _ _, ListenedBy _ => (MkSys 0 0, node)
  | Connect _ _ _, _ => (MkSys (-1) ECONNREFUSED, node)
  | Unlink _, Missing => (MkSys (-1) ENOENT, node)
  | Unlink _, _ => (MkSys 0 0, Missing)
  | Umask _, _ => (MkSys 18 0, node)
  | Bind _ _ _, Missing => (MkSys 0 0, BoundBy pid)
  | Bind _ _ _, _ => (MkSys (-1) EADDRINUSE, node)
  | Listen _ _, BoundBy owner =>
      (MkSys 0 0, if (owner =? pid)%nat then ListenedBy pid else node)
  | _, _ => (MkSys 0 0, node)
  end.

(** A process that has made the calls of [tr] replays them and makes its next one. *)
Definition replay (tr : list (Syscall * SysResult)) (before : list (Syscall * SysResult)) (c : Syscall) : SysResult :=
  default (MkSys 0 0) (snd <$> tr !! length before).

Definition lrdd_path : bstring := str "/tmp/lrd.sock".

Definition run_bind (tr : list (Syscall * SysResult)) : Res UnixListener * list (Syscall * SysResult) :=
  listener_bind (replay tr) lrdd_path 128 [].

Definition next_call (tr : list (Syscall * SysResult)) : option Syscall := fst <$> snd (run_bind tr) !! length tr.

(** Two processes in [bind], scheduled by process number. *)
Fixpoint race (schedule : list nat) (tr0 tr1 : list (Syscall * SysResult)) (node : Node)
    : list (Syscall * SysResult) * list (Syscall * SysResult) * Node :=
  match schedule with
  | [] => (tr0, tr1, node)
  | pid :: schedule =>
      let tr := if (pid =? 0)%nat then tr0 else tr1 in
      match next_call tr with
      | None => race schedule tr0 tr1 node
      | Some c =>
          let '(r, node) := fs_call pid c node in
          if (pid =? 0)%nat then race schedule (tr0 ++ [(c, r)]) tr1 node
          else race schedule tr0 (tr1 ++ [(c, r)]) node
      end
  end.

(** Both probe the stale file before either removes it. *)
Definition bad_schedule : list nat := replicate 4 0%nat ++ replicate 4 1%nat ++ replicate 9 0%nat ++ replicate 9 1%nat.

(** The probe does not exclude a daemon that starts at the same time: both starts succeed,
    the second having removed the socket the first listens on. *)
Theorem stale_probe_races :
  let '(tr0, tr1, node) := race bad_schedule [] [] Stale in
  fst (run_bind tr0) = Done (MkListener 3 lrdd_path) /\ snd (run_bind tr0) = tr0 /\
  fst (run_bind tr1) = Done (MkListener 3 lrdd_path) /\ snd (run_bind tr1) = tr1 /\
  node = ListenedBy 1.
Proof. by vm_compute. Qed.

(** * Main theorems *)


(** A timeout in whole milliseconds is passed to the kernel exactly, in microseconds below a
    million. *)
Lemma timeval_exact ms : 0 <= ms -> tv_sec ms * 1000000 + tv_usec ms = ms * 1000 /\ 0 <= tv_usec ms < 1000000.
Proof.
  intros Hms. unfold tv_sec, tv_usec. rewrite Z.quot_div_nonneg, Z.rem_mod_nonneg by lia.
  pose proof (Z.div_mod ms 1000 ltac:(lia)). pose proof (Z.mod_pos_bound ms 1000 ltac:(lia)). lia.
Qed.

(** An address is NUL-terminated within its 108 bytes, and its length is that of the path. *)
Lemma make_address_spec path tr addr evs :
  make_address path tr = (Done addr, evs) -> Byte.x00 ∉ path ->
  length addr = 108%nat /\ address_length addr = 3 + zlen path /\ evs = [].
Proof.
  unfold make_address. repeat split_if; [done..|]. intros [= <- <-] Hz. bcases. apply Nat.eqb_neq in Heqb.
  unfold kMaxSocketPathLength, zlen in *. split_and!; [rewrite length_app, length_replicate; lia| |done].
  unfold address_length. assert (strlen (path ++ replicate (108 - length path) Byte.x00) = Z.of_nat (length path)) as ->; [|lia].
  destruct (108 - length path)%nat as [|n] eqn:En; [lia|]. clear -Hz.
  induction path as [|b path IH]; [done|]. cbn [app strlen length]. apply not_elem_of_cons in Hz as [Hb Hp].
  rewrite bool_decide_eq_false_2, IH by done. lia.
Qed.
