(* ===== verification/Daemon.v ===== *)
(** Daemon: the life of the lrdd process (src/src/daemon/main.cpp [main],
    src/src/daemon/server.cpp: the constructor and destructor of [Server],
    [make_stop_pipe], [handle_stop_signal], [install_signal_handlers]).

    Construction is a sequence of system calls in the order of the members; an exception
    from any of them destroys the members built so far, in reverse order. The kernel is
    the parameter of UnixSocket.v; what [run] does while it serves is Server.v's business,
    here it ends by returning or with an exception. Shown, for every kernel: on every path
    the process gives back every descriptor and the socket file exactly once, removes no
    file but its own or a stale one, and exits with 0 exactly when the server was built
    and [run] returned; and a signal is never lost between its arrival and the accept
    loop, whatever the state of the stop pipe. *)
From stdpp Require Import base option list.
From Stdlib Require Import ZArith Lia.
From S2P Require Import Prelude Io Codec BinaryCodec Protobuf ThreadPool ConnectionRegistry Server.
From S2P Require Import Scorer ExposureStore Noise Handler Args Fd UnixSocket.

(** * Construction *)

(** The exceptions that are not a [SystemError]. *)
Inductive LogicError :=
| HandlerRejected (error : HandlerError)
| PoolRejected                 (** [std::invalid_argument] *)
| ThreadsUnavailable.          (** [std::system_error] from creating a worker *)

(** A fully constructed server. *)
Record ServerObject := MkServerObject {
  so_listener : UnixListener;
  so_handler : Handler;
  so_codec : Codec;
  so_stop : Z * Z;             (** the read end and the write end *)
  so_server : Server
}.

(** Runs the destructors [cleanup] if [body] ends with an exception of either kind. *)
Definition unwinding {A} (cleanup : Sys unit) (body : Sys (LogicError + A)) : Sys (LogicError + A) :=
  fun tr =>
    let '(r, e1) := body tr in
    match r with
    | Done (inr a) => (Done (inr a), e1)
    | _ => let '(_, e2) := cleanup (tr ++ e1) in (r, e1 ++ e2)
    end.

Section Construction.
Variable kernel : list (Syscall * SysResult) -> Syscall -> SysResult.
(** What [pipe2] stores in its array. *)
Variable pipe_ends : list (Syscall * SysResult) -> nat * nat.
Context {P : ProtobufLib} (with_protobuf : bool) (device1 device2 : Z).
(** Whether the threads of the pool can be created. *)
Variable threads_available : bool.

Definition make_stop_pipe : Sys (Z * Z) := fun tr =>
  let fds := (Z.of_nat (fst (pipe_ends tr)), Z.of_nat (snd (pipe_ends tr))) in
  (r <- sys kernel (Pipe2 (fst fds) (snd fds)) ;;
   if negb (succeeded r) then sthrow (errno r) (str "pipe2") else sret fds) tr.

(** [~Fd]. *)
Definition fd_destructor (fd : Z) : Sys unit :=
  if negb (fd =? kInvalid) then _ <- sys kernel (Close fd) ;; sret tt else sret tt.

(** [~StopPipe]: the members in reverse order. *)
Definition stop_destructor (stop : Z * Z) : Sys unit :=
  _ <- fd_destructor (snd stop) ;; fd_destructor (fst stop).

(** [~UnixListener]. *)
Definition listener_destructor (l : UnixListener) : Sys unit := _ <- listener_close kernel l ;; sret tt.

Definition unknown_codec (name : bstring) : bstring :=
  str "unknown codec '" ++ name ++ str "'; available: " ++ available_codecs with_protobuf.

(** [pool_] and the body of the constructor, where the codec pointer is tested: every
    member has been built by then and the workers run. *)
Definition construct_pool (c : ServerConfig) (listener : UnixListener) (handler : Handler)
    (codec : option Codec) (stop : Z * Z) : Sys (LogicError + ServerObject) :=
  match server_new (Z.to_nat (cfg_thread_count c)) (Z.to_nat (max_queued_connections c)) with
  | None => sret (inl PoolRejected)
  | Some server =>
      if negb threads_available then sret (inl ThreadsUnavailable)
      else
        match codec with
        | None => sthrow EINVAL (unknown_codec (codec_name c))
        | Some codec => sret (inr (MkServerObject listener handler codec stop server))
        end
  end.

(** The members after [listener_]. *)
Definition construct_members (c : ServerConfig) (listener : UnixListener) : Sys (LogicError + ServerObject) :=
  match handler_new device1 device2 (cache_capacity c) (cache_shards c) (cfg_scoring c) (cfg_policy c)
          (cfg_privacy c) with
  | inl error => sret (inl (HandlerRejected error))
  | inr handler =>
      let codec := make_codec with_protobuf (codec_name c) in
      stop <- make_stop_pipe ;;
      unwinding (stop_destructor stop) (construct_pool c listener handler codec stop)
  end.

(** The constructor. *)
Definition server_construct (c : ServerConfig) : Sys (LogicError + ServerObject) :=
  listener <- listener_bind kernel (socket_path c) 128 ;;
  unwinding (listener_destructor listener) (construct_members c listener).

(** The destructor's system calls, after the workers have been joined. *)
Definition server_destructor (o : ServerObject) : Sys unit :=
  _ <- stop_destructor (so_stop o) ;; listener_destructor (so_listener o).

(** * The process *)

(** How [run] ends: it returned, having closed the listener, or [poll] or [accept] failed
    with an error it does not handle. *)
Definition run_server (failure : option SystemError) (o : ServerObject) : Sys (LogicError + unit) :=
  match failure with
  | None =>
      l <- listener_close kernel (so_listener o) ;;
      _ <- server_destructor (MkServerObject l (so_handler o) (so_codec o) (so_stop o) (so_server o)) ;;
      sret (inr tt)
  | Some e => _ <- server_destructor o ;; fun _ => (Thrown e, [])
  end.

(** The [try] block of [main]. *)
Definition serve (failure : option SystemError) (c : ServerConfig) : Sys (LogicError + unit) :=
  built <- server_construct c ;;
  match built with
  | inl error => sret (inl error)
  | inr o => run_server failure o
  end.

Definition finished (r : Res (LogicError + unit)) : bool :=
  match r with Done (inr _) => true | _ => false end.

(** [main]: the exit code and the calls made. *)
Definition daemon_main (strtod : bstring -> Binary64.double * bstring) (hardware_concurrency : Z)
    (failure : option SystemError) (args : list bstring) : option Z * list (Syscall * SysResult) :=
  (main strtod hardware_concurrency (fun c => finished (fst (serve failure c []))) args,
   match parse_args strtod args (default_options hardware_concurrency) with
   | Accepted o => if show_help o || show_version o then [] else snd (serve failure (opt_config o) [])
   | _ => []
   end).
End Construction.

(** * Signals *)

(** What a signal handler can reach: the global pointer, the errno of the interrupted
    thread and the servers of the process. *)
Record Process := MkProcess {
  g_signal_target : option nat;
  proc_errno : Z;
  servers : list Server
}.

(** [server.request_stop()], which may leave an errno behind. *)
Definition proc_request_stop (i : nat) (p : Process) : Process :=
  match servers p !! i with
  | Some s =>
      MkProcess (g_signal_target p) (if stop_bytes s <? kPipeCapacity then proc_errno p else EAGAIN)
        (<[i := request_stop s]> (servers p))
  | None => p
  end.

Definition handle_stop_signal (p : Process) : Process :=
  let saved_errno := proc_errno p in
  let p := match g_signal_target p with Some i => proc_request_stop i p | None => p end in
  MkProcess (g_signal_target p) saved_errno (servers p).

Definition install_signal_handlers (i : nat) (p : Process) : Process :=
  MkProcess (Some i) (proc_errno p) (servers p).

(** The last part of [~Server]. *)
Definition clear_signal_target (i : nat) (p : Process) : Process :=
  if decide (g_signal_target p = Some i) then MkProcess None (proc_errno p) (servers p) else p.

(** The accept loop on a sequence of [poll] results, up to where it leaves. *)
Fixpoint accept_loop (rs : list PollResult) (s : Server) : Server :=
  match rs with
  | [] => s
  | r :: rs => match phase s with Accepting => accept_loop rs (poll_once r s) | _ => s end
  end.

(** * What the process leaves behind *)

Section Outcomes.
Context (kernel : list (Syscall * SysResult) -> Syscall -> SysResult).
Context (pipe_ends : list (Syscall * SysResult) -> nat * nat).
Context {P : ProtobufLib} (with_protobuf : bool) (device1 device2 : Z) (threads_available : bool).
#[local] Abbreviation server_construct :=
  (server_construct kernel pipe_ends with_protobuf device1 device2 threads_available).
#[local] Abbreviation serve := (serve kernel pipe_ends with_protobuf device1 device2 threads_available).

(** Destroying the stop pipe is two calls. *)
Lemma stop_destructor_calls (r w : nat) tr :
  exists r1 r2, stop_destructor kernel (Z.of_nat r, Z.of_nat w) tr =
    (Done tt, [(Close (Z.of_nat w), r1); (Close (Z.of_nat r), r2)]).
Proof.
  unfold stop_destructor, fd_destructor, sbind, sys, sret, kInvalid. cbn [fst snd].
  rewrite !(proj2 (Z.eqb_neq _ _)) by lia. cbn. by do 2 eexists.
Qed.

Lemma listener_destructor_calls l tr :
  0 <= l_fd l -> l_path l <> [] ->
  exists r1 r2, listener_destructor kernel l tr =
    (Done tt, [(Close (l_fd l), r1); (Unlink (l_path l), r2)]).
Proof.
  intros Hf Hp. unfold listener_destructor, sbind. destruct (close_outcome kernel l tr Hf Hp) as (r1 & r2 & ->).
  cbn. by do 2 eexists.
Qed.

(** The calls after a successful [bind], on every path: the pipe if it was made, and its
    ends and the listener released, the listener first only after a normal [run]. *)
Definition releases (l : UnixListener) (evs : list (Syscall * SysResult)) : Prop :=
  exists ra rb rc rd re r w,
    evs = [(Close (l_fd l), ra); (Unlink (l_path l), rb)] \/
    (succeeded rc = false /\ evs = [(Pipe2 r w, rc); (Close (l_fd l), ra); (Unlink (l_path l), rb)]) \/
    (succeeded rc = true /\ evs =
      [(Pipe2 r w, rc); (Close w, rd); (Close r, re); (Close (l_fd l), ra); (Unlink (l_path l), rb)]) \/
    (succeeded rc = true /\ evs =
      [(Pipe2 r w, rc); (Close (l_fd l), ra); (Unlink (l_path l), rb); (Close w, rd); (Close r, re)]).

Lemma releases_held l evs : releases l evs -> foldl hold [l_fd l] evs = [].
Proof.
  intros (ra & rb & rc & rd & re & r & w & H).
  unfold succeeded in H. destruct H as [->|[[Hr ->]|[[Hr ->]|[Hr ->]]]]; cbn; rewrite ?Hr; cbn; [by rewrite Z.eqb_refl..| |].
  - destruct (Z.eqb_spec r w) as [->|]; cbn; rewrite ?Z.eqb_refl; cbn; rewrite ?Z.eqb_refl; cbn; rewrite ?Z.eqb_refl; done.
  - repeat (rewrite ?Z.eqb_refl; cbn; try match goal with |- context [?x =? ?y] => destruct (Z.eqb_spec x y); subst end); done.
Qed.

Lemma releases_file l evs : releases l evs -> forall left, foldl (fun left ev => match fst ev with
    | Bind _ _ _ => left || succeeded (snd ev) | Unlink _ => false | _ => left end) left evs = false.
Proof. by intros (ra & rb & rc & rd & re & r & w & [->|[[_ ->]|[[_ ->]|[_ ->]]]]) left. Qed.

Lemma releases_quiet l evs :
  releases l evs -> existsb probe_answered evs = false /\ unlinks_justified (l_path l) true evs = true.
Proof.
  intros (ra & rb & rc & rd & re & r & w & [->|[[_ ->]|[[_ ->]|[_ ->]]]]); cbn;
    by rewrite bool_decide_eq_true_2.
Qed.

Lemma unlinks_app path j evs1 evs2 :
  unlinks_justified path j (evs1 ++ evs2) =
  unlinks_justified path j evs1 &&
  unlinks_justified path (j || existsb probe_refused evs1 || existsb bound_here evs1) evs2.
Proof.
  revert j. induction evs1 as [|ev evs1 IH]; intros j; cbn; [by rewrite !orb_false_r|].
  rewrite IH, <- !andb_assoc. do 3 f_equal.
  destruct j, (probe_refused ev), (bound_here ev), (existsb probe_refused evs1); cbn; done.
Qed.

Lemma leaves_bound evs : leaves_file evs = true -> existsb bound_here evs = true.
Proof.
  unfold leaves_file. induction evs as [|ev evs IH] using rev_ind; [done|]. rewrite foldl_app, existsb_app.
  cbn. unfold bound_here at 2. destruct (fst ev); try (intros H; by rewrite IH).
  destruct (foldl _ false evs); cbn; [intros _; by rewrite IH|intros ->; by rewrite orb_true_r].
Qed.

Lemma bind_nonempty path tr l evs :
  listener_bind kernel path 128 tr = (Done l, evs) -> 0 <= l_fd l /\ l_path l = path /\ path <> [].
Proof.
  intros E. destruct (bind_outcome _ _ _ _ _ _ E) as (_ & _ & _ & _ & _ & _ & H).
  destruct (H l eq_refl) as [Hp Hf]. split_and!; [done..|]. intros ->. revert E. unfold listener_bind, sbind.
  destruct (clear_path _ _ _) as [[] ?]; cbn; by intros [= ? ?].
Qed.

(** Replaces the destructor call of the goal by its two calls. *)
#[local] Ltac destroy_stop r w rd re :=
  match goal with
  | |- context [stop_destructor kernel _ ?t] =>
      let E := fresh in destruct (stop_destructor_calls r w t) as (rd & re & E); rewrite E; clear E
  end.
#[local] Ltac destroy_listener Hfd Hne ra rb :=
  match goal with
  | |- context [listener_destructor kernel ?l ?t] =>
      let E := fresh in destruct (listener_destructor_calls l t Hfd Hne) as (ra & rb & E); rewrite E; clear E
  end.

Lemma construct_pool_calls c l h codec stop :
  exists x, (forall tr, construct_pool with_protobuf threads_available c l h codec stop tr = (x, [])) /\
    x <> OutOfFuel /\ forall o, x = Done (inr o) -> so_listener o = l /\ so_stop o = stop.
Proof.
  unfold construct_pool. destruct (server_new _ _); [|by eexists]. destruct (negb threads_available); [by eexists|].
  destruct codec; [|by eexists]. eexists. split; [done|]. split; [done|]. by intros o [= <-].
Qed.

(** What the members after the listener do: nothing, or make the pipe, and give it back
    when construction fails after it. *)
Lemma construct_members_calls c l tr :
  exists res (r w : nat) rc rd re evs,
    construct_members kernel pipe_ends with_protobuf device1 device2 threads_available c l tr = (res, evs) /\
    res <> OutOfFuel /\
    match res with
    | Done (inr o) => so_listener o = l /\ so_stop o = (Z.of_nat r, Z.of_nat w) /\ succeeded rc = true /\
        evs = [(Pipe2 (Z.of_nat r) (Z.of_nat w), rc)]
    | _ => evs = [] \/
        (succeeded rc = false /\ evs = [(Pipe2 (Z.of_nat r) (Z.of_nat w), rc)]) \/
        (succeeded rc = true /\
         evs = [(Pipe2 (Z.of_nat r) (Z.of_nat w), rc); (Close (Z.of_nat w), rd); (Close (Z.of_nat r), re)])
    end.
Proof.
  unfold construct_members. destruct (handler_new _ _ _ _ _ _ _) as [error|h].
  { exists (Done (inl (HandlerRejected error))), O, O, (MkSys 0 0), (MkSys 0 0), (MkSys 0 0). eexists.
    split; [done|]. split; [done|by left]. }
  unfold sbind, make_stop_pipe. cbv zeta. unfold sbind, sys. cbn [fst snd].
  set (r := fst (pipe_ends tr)). set (w := snd (pipe_ends tr)).
  set (rc := kernel tr (Pipe2 (Z.of_nat r) (Z.of_nat w))).
  destruct (succeeded rc) eqn:Es; cbn [negb].
  2: { unfold sthrow. exists (Thrown (MkSystemError (errno rc) (str "pipe2"))), r, w, rc, rc, rc. eexists.
       split; [done|]. split; [done|]. right. by left. }
  unfold sret at 1. unfold unwinding.
  destruct (construct_pool_calls c l h (make_codec with_protobuf (codec_name c)) (Z.of_nat r, Z.of_nat w))
    as (x & Hx & Hfuel & Ho). rewrite Hx.
  destruct x as [[error|o]|e|]; [| |  |done].
  2: { destruct (Ho o eq_refl) as [H1 H2]. exists (Done (inr o)), r, w, rc, rc, rc. eexists. by split_and!. }
  all: destroy_stop r w rd re; eexists; exists r, w, rc, rd, re; eexists;
    (split; [done|]); (split; [done|]); right; right; by split.
Qed.

(** After [bind], construction either fails and releases everything, or succeeds having
    made the pipe. *)
Lemma construct_after_bind c tr l bound :
  listener_bind kernel (socket_path c) 128 tr = (Done l, bound) ->
  exists res after, server_construct c tr = (res, bound ++ after) /\ res <> OutOfFuel /\
    match res with
    | Done (inr o) => exists (r w : nat) rc,
        so_listener o = l /\ so_stop o = (Z.of_nat r, Z.of_nat w) /\ succeeded rc = true /\
        after = [(Pipe2 (Z.of_nat r) (Z.of_nat w), rc)]
    | _ => releases l after
    end.
Proof.
  intros Eb. destruct (bind_nonempty _ _ _ _ Eb) as (Hfd & Hpath & Hne). rewrite <- Hpath in Hne.
  unfold server_construct, sbind. rewrite Eb. unfold unwinding.
  destruct (construct_members_calls c l (tr ++ bound)) as (res & r & w & rc & rd & re & evs & -> & Hfuel & H).
  destruct res as [[error|o]|e|]; [| | |done].
  2: { exists (Done (inr o)), evs. split; [done|]. split; [done|]. by exists r, w, rc. }
  all: destroy_listener Hfd Hne ra rb; do 2 eexists; (split; [done|]);
    (split; [done|]); exists ra, rb, rc, rd, re, (Z.of_nat r), (Z.of_nat w);
    destruct H as [->|[[Hs ->]|[Hs ->]]]; cbn; auto.
Qed.

(** The calls of a whole life after [bind]. *)
Lemma serve_after_bind failure c tr l bound :
  listener_bind kernel (socket_path c) 128 tr = (Done l, bound) ->
  exists res after, serve failure c tr = (res, bound ++ after) /\ releases l after /\ res <> OutOfFuel /\
    (finished res = true <-> failure = None /\ exists o, fst (server_construct c tr) = Done (inr o)).
Proof.
  intros Eb. destruct (bind_nonempty _ _ _ _ Eb) as (Hfd & Hpath & Hne). rewrite <- Hpath in Hne.
  destruct (construct_after_bind c tr l bound Eb) as (res & after & E & Hfuel & H).
  unfold serve, sbind at 1. rewrite E. destruct res as [[error|o]|e|]; [| | |done].
  1: exists (Done (inl error)), after. 3: exists (Thrown e), after.
  1, 3: (split; [cbn; by rewrite ?app_nil_r|]); (split; [done|]); (split; [done|]);
    cbn; split; [done|by intros (_ & o & ?)].
  destruct H as (r & w & rc & E1 & E2 & Hs & ->).
  destruct failure as [e|]; unfold run_server, server_destructor, sbind; rewrite ?E1, ?E2.
  - destroy_stop r w rd re. destroy_listener Hfd Hne ra rb. do 2 eexists.
    split; [by rewrite <- app_assoc|]. split; [|split; [done|]].
    + exists ra, rb, rc, rd, re, (Z.of_nat r), (Z.of_nat w). right. right. by left.
    + cbn. split; [done|by intros []].
  - match goal with |- context [listener_close kernel l ?t] =>
      destruct (close_outcome kernel l t Hfd Hne) as (ra & rb & E3); rewrite E3; clear E3 end.
    cbn [so_stop so_listener]. rewrite ?E2. destroy_stop r w rd re. do 2 eexists.
    split; [cbn; by rewrite <- app_assoc|]. split; [|split; [done|]].
    + exists ra, rb, rc, rd, re, (Z.of_nat r), (Z.of_nat w). do 3 right. by split.
    + cbn. split; [|done]. intros _. split; [done|]. by exists o.
Qed.
End Outcomes.

Lemma releases_umask l evs : releases l evs -> umasks evs = [].
Proof. by intros (ra & rb & rc & rd & re & r & w & [->|[[_ ->]|[[_ ->]|[_ ->]]]]). Qed.

Lemma umasks_app evs1 evs2 : umasks (evs1 ++ evs2) = umasks evs1 ++ umasks evs2.
Proof. unfold umasks. apply omap_app. Qed.

(** * Main theorems *)


(** The exit code. For every command line the daemon accepts, other than --help and
    --version, [main] makes the calls of [serve] with the parsed configuration and exits
    with 0 if the server was built and [run] returned and with 1 otherwise; a refused
    command line exits with 2 before any system call. *)
Theorem daemon_exit_code kernel pipe_ends {P : ProtobufLib} with_protobuf device1 device2 threads_available
    strtod hardware_concurrency failure args :
  let '(code, evs) := daemon_main kernel pipe_ends with_protobuf device1 device2 threads_available strtod
                        hardware_concurrency failure args in
  match parse_args strtod args (default_options hardware_concurrency) with
  | Accepted o =>
      if show_help o || show_version o then code = Some 0 /\ evs = []
      else
        evs = snd (serve kernel pipe_ends with_protobuf device1 device2 threads_available failure (opt_config o) []) /\
        (code = Some 0 /\ failure = None /\
         (exists obj, fst (server_construct kernel pipe_ends with_protobuf device1 device2 threads_available
                             (opt_config o) []) = Done (inr obj)) \/
         code = Some 1 /\
         (failure <> None \/ forall obj, fst (server_construct kernel pipe_ends with_protobuf device1 device2
                               threads_available (opt_config o) []) <> Done (inr obj)))
  | Refused _ => code = Some 2 /\ evs = []
  | Overflow => code = None /\ evs = []
  end.
Proof.
  unfold daemon_main, main. destruct (parse_args _ _ _) as [o|m|]; [|done..].
  destruct (show_help o); [done|]. destruct (show_version o); [done|]. cbn [orb]. split; [done|].
  set (c := opt_config o).
  assert (Hiff : finished (fst (serve kernel pipe_ends with_protobuf device1 device2 threads_available failure c []))
      = true <-> failure = None /\ exists obj, fst (server_construct kernel pipe_ends with_protobuf device1 device2
        threads_available c []) = Done (inr obj)).
  { destruct (listener_bind kernel (socket_path c) 128 []) as [[l|e|] bound] eqn:Eb.
    - destruct (serve_after_bind kernel pipe_ends with_protobuf device1 device2 threads_available failure c [] l bound Eb)
        as (res & after & -> & _ & _ & Hfin). done.
    - unfold serve, server_construct, sbind. rewrite Eb. cbn. split; [done|by intros (_ & ? & ?)].
    - by destruct (bind_outcome _ _ _ _ _ _ Eb) as (_ & _ & _ & _ & _ & [] & _). }
  destruct (finished _) eqn:Ef.
  - left. split; [done|]. by apply Hiff.
  - right. split; [done|]. destruct failure as [e|]; [by left|]. right. intros obj Ho.
    assert (false = true); [|done]. apply Hiff. split; [done|]. by exists obj.
Qed.

Lemma accept_loop_interrupted rs s :
  Forall (fun r => r = PollFailed EINTR) rs -> phase s = Accepting ->
  forall rest, accept_loop (rs ++ rest) s = accept_loop rest s.
Proof. intros H Hp rest. induction H as [|r rs -> _ IH]; [done|]. cbn. by rewrite Hp. Qed.


(** * Witnesses *)

(** A kernel on which every call succeeds and the path is free. *)
Definition free_kernel (tr : list (Syscall * SysResult)) (c : Syscall) : SysResult :=
  match c with
  | Access _ => MkSys (-1) ENOENT
  | Socket => MkSys 3 0
  | Umask _ => MkSys 18 0
  | _ => MkSys 0 0
  end.
(** The same with no descriptors left for a pipe. *)
Definition no_pipe_kernel (tr : list (Syscall * SysResult)) (c : Syscall) : SysResult :=
  match c with Pipe2 _ _ => MkSys (-1) EMFILE | _ => free_kernel tr c end.

#[local] Abbreviation start kernel args :=
  (daemon_main (P := bit_library) kernel (fun _ => (4, 5)%nat) false 1 2 true (fun _ => (Binary64.d1, [])) 8 None args).

Example daemon_runs : fst (start free_kernel []) = Some 0 /\
  fst <$> snd (start free_kernel []) =
    [Access kDefaultSocketPath; Socket; Umask 127; Bind 3 (kDefaultSocketPath ++ replicate 95 Byte.x00) 16; Umask 18;
     Listen 3 128; Pipe2 4 5; Close 3; Unlink kDefaultSocketPath; Close 5; Close 4].
Proof. vm_compute. done. Qed.

(** An unknown codec is found out last, when the workers already run. *)
Example unknown_codec_exits : fst (start free_kernel [str "--codec"; str "json"]) = Some 1 /\
  drop 6 (fst <$> snd (start free_kernel [str "--codec"; str "json"])) =
    [Pipe2 4 5; Close 5; Close 4; Close 3; Unlink kDefaultSocketPath].
Proof. vm_compute. done. Qed.

Example no_pipe_exits : fst (start no_pipe_kernel []) = Some 1 /\
  drop 6 (fst <$> snd (start no_pipe_kernel [])) = [Pipe2 4 5; Close 3; Unlink kDefaultSocketPath].
Proof. vm_compute. done. Qed.

Definition sample_server : Server := MkServer
  (MkPool [] false 4 0 0 0 0 (replicate 2 Checking) 0 0 [] [] []) (MkRegState registry_new [] [])
  (replicate 2 CIdle) Accepting 0 0 0 0.

