(* ===== verification/Cli.v ===== *)
(** Cli: the command line client (src/src/client/main.cpp): its option loop, the parsing of
    numbers, signals and exclusions, and its commands over a [Connection]. Shown: a signal
    written as category=weight pairs parses to those affinities, and the
    numbers typed with it read back; and seeding a daemon stores every generated item,
    through codec, framing, serve loop and handler, and exits with 0. [strtod] and the clock
    are parameters; what a command prints is in ClientMain.v. *)
From stdpp Require Import base option list.
From Stdlib Require Import ZArith Lia.
From S2P Require Import Prelude Wire Binary64 Item Message Codec BinaryCodec Io Framing LruCache ShardedCache.
From S2P Require Import ExposureStore Scorer Noise Handler Responses Serve Connection Text.

(** * Ranges of the parsed types *)

Definition parse_u32 := parse_number 0 (2 ^ 32 - 1).
Definition parse_u64 := parse_number 0 (2 ^ 64 - 1).
Definition parse_long := parse_number (- 2 ^ 63) (2 ^ 63 - 1).

(** * The options *)

Record CliOptions := MkCli {
  cli_socket : bstring;
  cli_codec : bstring;
  signal_text : bstring;
  exclude_text : bstring;
  cli_advertiser : bstring;
  cli_count : Z;
  age_hours : Z;
  expires_in_hours : Z;
  cli_dry_run : bool;
  positional : list bstring
}.

Definition cli_default : CliOptions :=
  MkCli (str "/tmp/lrd.sock") (str "binary") [] [] (str "acme") 5 0 0 false [].

(** The loop ends with options or with an exit code. *)
Inductive CliParse := CliRun (o : CliOptions) | CliExit (code : Z).

(** The option whose value is a text, if [arg] is one. *)
Definition text_option (arg value : bstring) (o : CliOptions) : option CliOptions :=
  let '(MkCli socket codec signal exclude advertiser count age expires dry args) := o in
  if streq arg (str "--socket") then Some (MkCli value codec signal exclude advertiser count age expires dry args)
  else if streq arg (str "--codec") then Some (MkCli socket value signal exclude advertiser count age expires dry args)
  else if streq arg (str "--signal") then Some (MkCli socket codec value exclude advertiser count age expires dry args)
  else if streq arg (str "--exclude") then Some (MkCli socket codec signal value advertiser count age expires dry args)
  else if streq arg (str "--advertiser") then Some (MkCli socket codec signal exclude value count age expires dry args)
  else None.

(** The option whose value is a number, if [arg] is one: whether it parsed, and the options. *)
Definition number_option (arg value : bstring) (o : CliOptions) : option (bool * CliOptions) :=
  let '(MkCli socket codec signal exclude advertiser count age expires dry args) := o in
  if streq arg (str "--count") then
    let '(good, n) := parse_u32 value count in
    Some (good, MkCli socket codec signal exclude advertiser n age expires dry args)
  else if streq arg (str "--age-hours") then
    let '(good, n) := parse_long value age in
    Some (good, MkCli socket codec signal exclude advertiser count n expires dry args)
  else if streq arg (str "--expires-in-hours") then
    let '(good, n) := parse_long value expires in
    Some (good, MkCli socket codec signal exclude advertiser count age n dry args)
  else None.

Definition takes_value (arg : bstring) : bool :=
  match text_option arg [] cli_default, number_option arg [] cli_default with None, None => false | _, _ => true end.

Definition set_dry_run (o : CliOptions) : CliOptions :=
  MkCli (cli_socket o) (cli_codec o) (signal_text o) (exclude_text o) (cli_advertiser o) (cli_count o) (age_hours o)
    (expires_in_hours o) true (positional o).
Definition push_arg (arg : bstring) (o : CliOptions) : CliOptions :=
  MkCli (cli_socket o) (cli_codec o) (signal_text o) (exclude_text o) (cli_advertiser o) (cli_count o) (age_hours o)
    (expires_in_hours o) (cli_dry_run o) (positional o ++ [arg]).

(** The loop over [argv + 1]; a missing or bad value exits with 2, help with 0. *)
Fixpoint cli_args (args : list bstring) (o : CliOptions) : CliParse :=
  match args with
  | [] => if (length (positional o) =? 0)%nat then CliExit 2 else CliRun o
  | arg :: rest =>
      if streq arg (str "--help") || streq arg (str "-h") then CliExit 0
      else if streq arg (str "--dry-run") then cli_args rest (set_dry_run o)
      else if takes_value arg then
        match rest with
        | [] => CliExit 2
        | value :: rest =>
            match text_option arg value o, number_option arg value o with
            | Some o, _ => cli_args rest o
            | None, Some (true, o) => cli_args rest o
            | None, _ => CliExit 2
            end
        end
      else cli_args rest (push_arg arg o)
  end.

(** * Signals *)

Section Signals.
Variable strtod : bstring -> double * bstring.

(** The result and the out-parameter. *)
Definition parse_double (text : bstring) : bool * double :=
  let '(value, tail) := strtod text in ((length tail =? 0)%nat && negb (length text =? 0)%nat, value).

Definition push_affinity (category : bstring) (weight : double) (s : UserSignal) : UserSignal :=
  MkSignal (affinities s ++ [MkAffinity category weight]) (excluded_categories s).
Definition push_excluded (category : bstring) (s : UserSignal) : UserSignal :=
  MkSignal (affinities s) (excluded_categories s ++ [category]).

(** The loop over the entries; [None]: reported and refused. *)
Fixpoint parse_entries (entries : list bstring) (signal : UserSignal) : option UserSignal :=
  match entries with
  | [] => Some signal
  | entry :: entries =>
      if (length entry =? 0)%nat then parse_entries entries signal
      else
        match find equals entry 0 with
        | None => None
        | Some at_equals =>
            let '(good, weight) := parse_double (drop (S at_equals) entry) in
            if negb good then None
            else parse_entries entries (push_affinity (substr entry 0 at_equals) weight signal)
        end
  end.

Definition parse_signal (text : bstring) (signal : UserSignal) : option UserSignal :=
  if (length text =? 0)%nat then Some signal else parse_entries (split text comma) signal.

Definition exclude_all (text : bstring) (signal : UserSignal) : UserSignal :=
  foldl (fun s category => if (length category =? 0)%nat then s else push_excluded category s)
    signal (split text comma).

(** * Commands *)

Definition report (status : CallStatus) : Z := if bool_decide (status = Cs_Ok) then 0 else 1.

(** [now_ms() + hours{n}]: [None] where the signed arithmetic overflows. *)
Definition plus_hours (now hours : Z) : option Z :=
  let ms := hours * 3600000 in
  if bool_decide (fits_i64 ms) && bool_decide (fits_i64 (now + ms)) then Some (now + ms) else None.
Definition minus_hours (now hours : Z) : option Z :=
  let ms := hours * 3600000 in
  if bool_decide (fits_i64 ms) && bool_decide (fits_i64 (now - ms)) then Some (now - ms) else None.

(** The item of put-item; [now1] and [now2] are the two readings of the clock. *)
Definition item_of_options (now1 now2 : Z) (id : ItemId) (category : bstring) (score : double) (o : CliOptions)
    : option Item :=
  match minus_hours now1 (age_hours o),
        (if expires_in_hours o =? 0 then Some (from_epoch_millis 0) else plus_hours now2 (expires_in_hours o)) with
  | Some created, Some expires => Some (MkItem id category (cli_advertiser o) score created expires)
  | _, _ => None
  end.

(** The generated items. *)
Definition kCategories : list bstring := [str "tech"; str "sport"; str "travel"; str "food"; str "music"; str "gaming"].
Definition kAdvertisers : list bstring := [str "acme"; str "globex"; str "initech"; str "umbrella"].
Definition d0_05 : double := MkDouble 0x3FA999999999999A.
Definition d0_95 : double := MkDouble 0x3FEE666666666666.
Definition d19 : double := MkDouble 0x4033000000000000.

Definition seed_score (i : Z) : double := d_add d0_05 (d_div (d_mul d0_95 (double_of_Z (i mod 20))) d19).

Definition seed_item (now : Timestamp) (i : Z) : Item :=
  MkItem (wrap 64 (i + 1))
    (default [] (kCategories !! Z.to_nat (i mod 6)))
    (default [] (kAdvertisers !! Z.to_nat (i mod 4)))
    (seed_score i) (now - (i mod 240) * 3600000) (from_epoch_millis 0).

Section Commands.
Context {C : Codec}.

(** The loop of seed, from item [i] with [n] to go. *)
Fixpoint seed_loop (now : Timestamp) (n : nat) (i : Z) (c : Connection) : Z * Connection :=
  match n with
  | O => (0, c)
  | S n =>
      let '(status, c) := put_item (seed_item now i) c in
      if negb (bool_decide (status = Cs_Ok)) then (report status, c) else seed_loop now n (i + 1) c
  end.

Definition cmd_seed (now : Timestamp) (count : Z) (c : Connection) : Z * Connection :=
  seed_loop now (Z.to_nat count) 0 c.

Definition cmd_recommend (signal : UserSignal) (count : Z) (dry_run : bool) (c : Connection) : Z * Connection :=
  let '(status, _, c) := recommend signal count [] dry_run c in (report status, c).

Definition cmd_stats (c : Connection) : Z * Connection :=
  let '(status, _, c) := fetch_stats default_stats c in (report status, c).

(** The dispatch of [main] once connected: [None] where an hour count overflows. *)
Definition run_command (now1 now2 : Timestamp) (o : CliOptions) (c : Connection) : option (Z * Connection) :=
  match positional o with
  | [command; a1; a2; a3] =>
      if streq command (str "put-item") then
        let '(good, id) := parse_u64 a1 0 in
        if negb good || (id =? 0) then Some (2, c)
        else
          let '(good, score) := parse_double a3 in
          if negb good then Some (2, c)
          else match item_of_options now1 now2 id a2 score o with
               | None => None
               | Some item => let '(status, c) := put_item item c in Some (report status, c)
               end
      else Some (2, c)
  | [command; a1] =>
      if streq command (str "get-item") then
        let '(good, id) := parse_u64 a1 0 in
        if negb good then Some (2, c)
        else let '(status, _, c) := get_item id default_item c in Some (report status, c)
      else if streq command (str "del-item") then
        let '(good, id) := parse_u64 a1 0 in
        if negb good then Some (2, c)
        else let '(status, c) := delete_item id c in Some (report status, c)
      else if streq command (str "seed") then
        let '(good, n) := parse_u64 a1 0 in
        if negb good || (n =? 0) then Some (2, c) else Some (cmd_seed now1 n c)
      else Some (2, c)
  | [command] =>
      if streq command (str "recommend") then
        match parse_signal (signal_text o) default_signal with
        | None => Some (2, c)
        | Some signal =>
            Some (cmd_recommend (exclude_all (exclude_text o) signal) (cli_count o) (cli_dry_run o) c)
        end
      else if streq command (str "stats") then Some (cmd_stats c)
      else Some (2, c)
  | _ => Some (2, c)
  end.
End Commands.
End Signals.

(** * Signals read back *)

Lemma find_after prefix d rest : d ∉ prefix -> find d (prefix ++ d :: rest) 0 = Some (length prefix).
Proof.
  intros Hd. unfold find. rewrite drop_0. induction prefix as [|b prefix IH]; cbn.
  - by rewrite decide_True.
  - apply not_elem_of_cons in Hd as [Hb Hp]. rewrite decide_False by done. specialize (IH Hp).
    destruct (find_at d (prefix ++ d :: rest)) as [i|]; cbn in *; [|done]. by simplify_eq.
Qed.

(** A category with the text of its weight and the weight that text stands for. *)
Record SpelledAffinity := MkSpelled { sp_category : bstring; sp_text : bstring; sp_weight : double }.
Definition spell (a : SpelledAffinity) : bstring := sp_category a ++ equals :: sp_text a.
Definition meant (a : SpelledAffinity) : CategoryAffinity := MkAffinity (sp_category a) (sp_weight a).

Section Spelling.
Context (strtod : bstring -> double * bstring).

Definition spelled_ok (a : SpelledAffinity) : Prop :=
  (equals ∉ sp_category a) /\ (comma ∉ sp_category a) /\ (comma ∉ sp_text a) /\ sp_text a <> [] /\
  strtod (sp_text a) = (sp_weight a, []).

Lemma spell_nonempty a : (length (spell a) =? 0)%nat = false.
Proof. unfold spell. apply Nat.eqb_neq. rewrite length_app. cbn. lia. Qed.

Lemma parse_entries_spelled l s : Forall spelled_ok l ->
  parse_entries strtod (map spell l) s = Some (MkSignal (affinities s ++ map meant l) (excluded_categories s)).
Proof.
  intros Hl. revert s. induction Hl as [|a l (He & _ & _ & Hne & Hs) _ IH]; intros s; cbn [map parse_entries].
  - rewrite app_nil_r. by destruct s.
  - rewrite spell_nonempty. unfold spell at 1. rewrite find_after by done.
    unfold spell at 1. rewrite drop_app_ge by lia. replace (S _ - _)%nat with 1%nat by lia. cbn [drop]. rewrite drop_0.
    unfold parse_double. rewrite Hs. assert ((length (sp_text a) =? 0)%nat = false) as ->.
    { apply Nat.eqb_neq. by destruct (sp_text a). }
    cbn [length Nat.eqb andb negb]. rewrite IH. unfold spell, substr. rewrite drop_0, take_app_length.
    cbn. by rewrite <- app_assoc.
Qed.

Lemma spelled_free l : Forall spelled_ok l -> Forall (fun p => comma ∉ p) (map spell l).
Proof.
  intros Hl. apply Forall_map. eapply Forall_impl; [done|]. intros a (_ & Hc & Ht & _). unfold spell.
  rewrite not_elem_of_app, not_elem_of_cons. by split_and!.
Qed.

Lemma exclude_fold cats s : Forall (fun p => p <> []) cats ->
  foldl (fun s category => if (length category =? 0)%nat then s else push_excluded category s) s cats =
  MkSignal (affinities s) (excluded_categories s ++ cats).
Proof.
  intros Hc. revert s. induction Hc as [|p cats Hp _ IH]; intros s; cbn [foldl].
  - rewrite app_nil_r. by destruct s.
  - assert ((length p =? 0)%nat = false) as -> by (apply Nat.eqb_neq; by destruct p).
    rewrite IH. cbn. by rewrite <- app_assoc.
Qed.

Lemma signal_parses l cats :
  Forall spelled_ok l -> Forall (fun p => p <> [] /\ comma ∉ p) cats ->
  option_map (exclude_all (join comma cats)) (parse_signal strtod (join comma (map spell l)) default_signal) =
  Some (MkSignal (map meant l) cats).
Proof.
  intros Hl Hc.
  assert (Hp : parse_signal strtod (join comma (map spell l)) default_signal = Some (MkSignal (map meant l) [])).
  { unfold parse_signal. destruct l as [|a l]; [done|].
    assert ((length (join comma (map spell (a :: l))) =? 0)%nat = false) as ->.
    { apply Nat.eqb_neq. pose proof (spell_nonempty a) as Hn. apply Nat.eqb_neq in Hn. cbn [map].
      destruct (map spell l); cbn [join]; rewrite ?length_app; cbn; lia. }
    rewrite split_fields, fields_join by (done || by apply spelled_free). by rewrite parse_entries_spelled. }
  rewrite Hp. cbn [option_map]. f_equal. unfold exclude_all. rewrite split_fields.
  destruct cats as [|p cats]; [done|].
  rewrite fields_join; [|done|eapply Forall_impl; [done|]; by intros ? []].
  rewrite exclude_fold; [done|]. eapply Forall_impl; [done|]. by intros ? [].
Qed.
End Spelling.

(** * Seeding *)

Definition seed_score_ok (k : Z) : bool :=
  bool_decide (d_wf (seed_score k)) && d_ltb d0 (seed_score k) && d_leb (seed_score k) d1.

Lemma seed_scores_checked : forallb (fun k => seed_score_ok (Z.of_nat k)) (seq 0 20) = true.
Proof. by vm_compute. Qed.

Lemma seed_score_range i : d_wf (seed_score i) /\ d_ltb d0 (seed_score i) = true /\ d_leb (seed_score i) d1 = true.
Proof.
  assert (H : seed_score_ok (i mod 20) = true).
  { pose proof seed_scores_checked as Hall. rewrite forallb_forall in Hall.
    pose proof (Z.mod_pos_bound i 20 ltac:(lia)). specialize (Hall (Z.to_nat (i mod 20))).
    rewrite Z2Nat.id in Hall by lia. apply Hall, List.in_seq. lia. }
  unfold seed_score_ok, seed_score in H. rewrite Z.mod_mod in H by lia. fold (seed_score i) in H.
  bcases. split_and!; [by apply bool_decide_eq_true in H|done..].
Qed.

(** A clock that is ten days away from the ends of its type. *)
Definition clock_ok (now : Z) : Prop := - 2 ^ 63 + 240 * 3600000 <= now < 2 ^ 63.

Lemma short_names : Forall (fun t => 0 < zlen t <= 64) (kCategories ++ kAdvertisers).
Proof. apply (bool_decide_unpack _). vm_compute. exact I. Qed.

Lemma short_name t i k :
  (t = kCategories /\ k = 6 \/ t = kAdvertisers /\ k = 4) -> 0 < zlen (default [] (t !! Z.to_nat (i mod k))) <= 64.
Proof.
  intros Ht. pose proof short_names as [H1 H2]%Forall_app.
  assert (0 < k /\ Z.of_nat (length t) = k) as [Hk Hlen] by (destruct Ht as [[-> ->]|[-> ->]]; done).
  pose proof (Z.mod_pos_bound i k Hk). destruct (lookup_lt_is_Some_2 t (Z.to_nat (i mod k))) as [x Hx]; [lia|].
  rewrite Hx. cbn. destruct Ht as [[-> ->]|[-> ->]].
  - exact (Forall_lookup_1 _ _ _ _ H1 Hx).
  - exact (Forall_lookup_1 _ _ _ _ H2 Hx).
Qed.

Lemma seed_item_ok now i : clock_ok now -> 0 <= i < 2 ^ 64 - 1 ->
  wf_item (seed_item now i) /\ valid_put (seed_item now i) = true.
Proof.
  intros Hc Hi. unfold clock_ok in Hc. pose proof (Z.mod_pos_bound i 240 ltac:(lia)).
  pose proof (short_name kCategories i 6 ltac:(by left)) as H1.
  pose proof (short_name kAdvertisers i 4 ltac:(by right)) as H2.
  split; [|unfold valid_put; cbn [item_id item_category seed_item]].
  - unfold wf_item; cbn [item_id item_category item_advertiser item_base_score item_created_at item_expires_at seed_item].
    unfold kMaxCategoryLength, kMaxAdvertiserLength, fits_i64. split_and!; try lia; try done.
    + by apply wrap_fits.
    + apply seed_score_range.
  - rewrite wrap_small by (unfold fits; lia). rewrite (proj2 (Z.eqb_neq _ _)) by lia.
    by rewrite (proj2 (Z.eqb_neq (zlen _) _)) by lia.
Qed.

(** The requests of a seeding, in order. *)
Fixpoint seed_bodies (now : Timestamp) (n : nat) (i : Z) : list RequestBody :=
  match n with
  | O => []
  | S n => PutItem (seed_item now i) :: seed_bodies now n (i + 1)
  end.

Section EndToEnd.
Context (std_exp : double -> double) (std_pow : double -> double -> double).
Context (std_log : double -> double) (llround_unrepresentable : double -> Z).
Context (clock : nat -> Timestamp) (others : nat -> Handler -> Handler).
Context (others_ok : forall i h, handler_ok h -> handler_ok (others i h)).
#[local] Abbreviation handle := (handle std_exp std_pow std_log llround_unrepresentable).
#[local] Abbreviation replies := (replies std_exp std_pow std_log llround_unrepresentable clock others).

Lemma handle_valid_put now id item h :
  valid_put item = true -> resp_body (fst (handle now (MkRequest id (PutItem item)) h)) = PutItemResult SC_Ok.
Proof.
  intros Hv. unfold handle, on_put, valid_put in *. cbn [req_body]. bcases.
  by rewrite (proj2 (Z.eqb_neq _ _)), (proj2 (Z.eqb_neq _ _)).
Qed.

Lemma seed_loop_served now rest n : forall i k id c h,
  clock_ok now -> 0 <= i -> i + Z.of_nat n < 2 ^ 64 -> handler_ok h -> lossless (tx (stream_ c)) ->
  next_request_id_ c = id -> fits 64 id ->
  pending (rx (stream_ c)) =
    response_frames (C := BinaryCodec) (fst (replies k (numbered id (seed_bodies now n i)) h)) ++ rest ->
  exists c', seed_loop (C := BinaryCodec) now n i c = (0, c') /\
    sent (stream_ c') = sent (stream_ c) ++
      concat (map (fun q => frame_bytes (encode_req q [])) (numbered id (seed_bodies now n i))) /\
    valid_ c' = valid_ c /\ pending (rx (stream_ c')) = rest /\
    map resp_body (fst (replies k (numbered id (seed_bodies now n i)) h)) = replicate n (PutItemResult SC_Ok).
Proof.
  induction n as [|n IH]; intros i k id c h Hc Hi Hn Hok Hl Hid Hfit Hp.
  { exists c. cbn in *. by rewrite app_nil_r. }
  destruct (seed_item_ok now i Hc ltac:(lia)) as [Hw Hv]. cbn [seed_bodies numbered] in *.
  set (q := MkRequest id (PutItem (seed_item now i))) in *.
  assert (Hq : wf_request q) by done.
  pose proof (call_served std_exp std_pow std_log llround_unrepresentable clock others others_ok q
    (numbered (incr64 id) (seed_bodies now n (i + 1))) default_response (snd (take_id c)) k h rest Hq Hok Hl Hp) as H1.
  pose proof (handle_valid_put (clock k) id (seed_item now i) (others k h) Hv) as Hr. fold q in Hr.
  cbn [Serve.replies] in *. destruct (handle (clock k) q (others k h)) as [r h1]. cbn [fst] in Hr.
  destruct H1 as (c1 & C1 & P1 & L1 & V1 & S1 & N1 & Hok1). rewrite Hr in C1.
  destruct (IH (i + 1) (S k) (incr64 id) c1 h1) as (c' & E & S' & V' & P' & R'); try done; try lia.
  { rewrite N1. cbn. by rewrite Hid. }
  { by apply wrap_fits. }
  exists c'. cbn [seed_loop]. rewrite (put_item_call (seed_item now i) c r c1 SC_Ok Hw Hr) by (by rewrite Hid).
  cbn [negb bool_decide decide_rel]. destruct (replies (S k) _ h1) as [rs h2]. cbn [fst map replicate] in *.
  split_and!; [done| |by rewrite V', V1|done|by rewrite Hr, R'].
  cbn [map concat]. by rewrite S', S1, <- app_assoc.
Qed.

(** Seeding stores every item. For any number of items below 2^64, any clock ten days
    away from its limits and whatever other connections do, "seed N" over a socket that
    does not fail to a daemon that answers sends one well-formed request per item, in
    order, each accepted by the handler, and exits with 0, the connection still usable. *)
Theorem seed_stores_all s h now count rest :
  clock_ok now -> fits 64 count -> handler_ok h -> lossless (tx s) ->
  let session := numbered 1 (seed_bodies now (Z.to_nat count) 0) in
  pending (rx s) = response_frames (C := BinaryCodec) (fst (replies 0 session h)) ++ rest ->
  exists c',
    cmd_seed (C := BinaryCodec) now count (connection_new s) = (0, c') /\
    sent (stream_ c') = sent s ++ concat (map (fun q => frame_bytes (encode_req q [])) session) /\
    connected c' = true /\ pending (rx (stream_ c')) = rest /\
    Forall wf_item (map (fun i => seed_item now (Z.of_nat i)) (seq 0 (Z.to_nat count))) /\
    map resp_body (fst (replies 0 session h)) = replicate (Z.to_nat count) (PutItemResult SC_Ok).
Proof.
  intros Hc Hn Hok Hl. cbv zeta. intros Hp. unfold fits in Hn.
  destruct (seed_loop_served now rest (Z.to_nat count) 0 0 1 (connection_new s) h) as (c' & E & S' & V' & P' & R');
    try done; try lia.
  exists c'. split_and!; [done..| |done]. apply Forall_map, list.Forall_forall. intros i Hi.
  apply elem_of_seq in Hi. apply seed_item_ok; [done|lia].
Qed.
End EndToEnd.

(** * Options read back *)

Definition plain_flag (arg : bstring) : bool :=
  streq arg (str "--help") || streq arg (str "-h") || streq arg (str "--dry-run").

Lemma cli_text arg value rest o o' :
  plain_flag arg = false -> takes_value arg = true -> text_option arg value o = Some o' ->
  cli_args (arg :: value :: rest) o = cli_args rest o'.
Proof.
  unfold plain_flag. intros Hf Ht Ho. apply orb_false_iff in Hf as [Hh Hd].
  cbn [cli_args]. by rewrite Hh, Hd, Ht, Ho.
Qed.

Lemma cli_number arg value rest o o' :
  plain_flag arg = false -> takes_value arg = true -> text_option arg value o = None ->
  number_option arg value o = Some (true, o') -> cli_args (arg :: value :: rest) o = cli_args rest o'.
Proof.
  unfold plain_flag. intros Hf Ht Ho Hn. apply orb_false_iff in Hf as [Hh Hd].
  cbn [cli_args]. by rewrite Hh, Hd, Ht, Ho, Hn.
Qed.

Lemma parse_u32_format z out : fits 32 z -> parse_u32 (format_dec z) out = (true, z).
Proof. unfold fits. intros Hz. apply parse_number_format; lia. Qed.

Lemma parse_long_format z out : 0 <= z < 2 ^ 63 -> parse_long (format_dec z) out = (true, z).
Proof. intros Hz. apply parse_number_format; lia. Qed.

(** The options after the command line of [typed_signal_is_parsed]. *)
Lemma cli_args_typed sig exc count hours o :
  fits 32 count -> 0 <= hours < 2 ^ 63 ->
  cli_args [str "--signal"; sig; str "--exclude"; exc; str "--count"; format_dec count;
            str "--age-hours"; format_dec hours; str "recommend"] o =
  CliRun (MkCli (cli_socket o) (cli_codec o) sig exc (cli_advertiser o) count hours (expires_in_hours o)
            (cli_dry_run o) (positional o ++ [str "recommend"])).
Proof.
  intros Hc Hh. destruct o as [socket codec sig0 exc0 adv n age expires dry args].
  erewrite cli_text by (vm_compute; reflexivity). erewrite cli_text by (vm_compute; reflexivity).
  erewrite cli_number; [|by vm_compute|by vm_compute|by vm_compute|
    unfold number_option; literals; by rewrite parse_u32_format].
  erewrite cli_number; [|by vm_compute|by vm_compute|by vm_compute|
    unfold number_option; literals; by rewrite parse_long_format].
  change (cli_args [str "recommend"] ?o) with (cli_args [] (push_arg (str "recommend") o)).
  cbn [cli_args push_arg positional]. rewrite length_app, Nat.add_comm. done.
Qed.

(** What is typed is what is asked for. A signal typed as category=weight pairs and a
    list of exclusions, for categories without a comma or an equals sign and weights
    [strtod] reads in full, is parsed into exactly those affinities and exclusions, in
    order, and the numbers of the options come out as they were written. *)
Theorem typed_signal_is_parsed strtod l cats count hours o :
  Forall (spelled_ok strtod) l -> Forall (fun p => p <> [] /\ comma ∉ p) cats ->
  fits 32 count -> 0 <= hours < 2 ^ 63 ->
  let typed := [str "--signal"; join comma (map spell l); str "--exclude"; join comma cats;
                str "--count"; format_dec count; str "--age-hours"; format_dec hours; str "recommend"] in
  exists o',
    cli_args typed o = CliRun o' /\ positional o' = positional o ++ [str "recommend"] /\
    cli_count o' = count /\ age_hours o' = hours /\ cli_dry_run o' = cli_dry_run o /\
    option_map (exclude_all (exclude_text o')) (parse_signal strtod (signal_text o') default_signal) =
      Some (MkSignal (map meant l) cats).
Proof.
  intros Hl Hc Hcount Hhours. cbv zeta.
  eexists. split; [by apply cli_args_typed|]. cbn [positional cli_count age_hours cli_dry_run exclude_text signal_text].
  split_and!; [done..|]. by apply signal_parses.
Qed.

(** * Witnesses *)

#[local] Abbreviation lone_replies := (replies unit_exp unit_pow (fun x => x) (fun _ => 0)
  (fun i => Z.of_nat i) (fun _ h => h) 0).
Definition seed_stream : UnixStream :=
  MkStream [RData (response_frames (C := BinaryCodec)
    (fst (lone_replies (numbered 1 (seed_bodies 1000 3 0)) sample_handler)))] [SAccept 5] [].

Lemma seed_stores_all_witness :
  exists c', cmd_seed (C := BinaryCodec) 1000 3 (connection_new seed_stream) = (0, c') /\ connected c' = true.
Proof.
  destruct (seed_stores_all unit_exp unit_pow (fun x => x) (fun _ => 0) (fun i => Z.of_nat i) (fun _ h => h)
    (fun _ h H => H) seed_stream sample_handler 1000 3 []) as (c' & H1 & _ & H2 & _).
  - split; vm_compute; [intros H; discriminate H|reflexivity].
  - split; vm_compute; [intros H; discriminate H|reflexivity].
  - exact sample_handler_ok.
  - repeat constructor.
  - vm_compute. reflexivity.
  - exists c'. split; [exact H1|exact H2].
Defined.

(** [strtod] on the texts used below. *)
Definition toy_strtod (text : bstring) : double * bstring :=
  if bool_decide (text = str "0.5") then (d0_5, []) else if bool_decide (text = str "0.1") then (d0_1, []) else (d0, text).
Definition typed_affinities : list SpelledAffinity :=
  [MkSpelled (str "tech") (str "0.5") d0_5; MkSpelled (str "sport") (str "0.1") d0_1].

Lemma typed_signal_is_parsed_witness :
  exists o', cli_args [str "--signal"; str "tech=0.5,sport=0.1"; str "--exclude"; str "gambling,politics";
      str "--count"; str "7"; str "--age-hours"; str "12"; str "recommend"] cli_default = CliRun o' /\
    cli_count o' = 7 /\ age_hours o' = 12.
Proof.
  destruct (typed_signal_is_parsed toy_strtod typed_affinities [str "gambling"; str "politics"] 7 12 cli_default)
    as (o' & H1 & _ & H2 & H3 & _).
  - unfold typed_affinities, spelled_ok. apply (bool_decide_unpack _). vm_compute. exact I.
  - apply (bool_decide_unpack _). vm_compute. exact I.
  - split; vm_compute; [intros H; discriminate H|reflexivity].
  - split; vm_compute; [intros H; discriminate H|reflexivity].
  - exists o'. split; [exact H1|]. split; [exact H2|exact H3].
Defined.
