(* ===== verification/ClientMain.v ===== *)
(** ClientMain: the command line client as a program (src/src/client/main.cpp): what each
    command prints, connecting, the exceptions [main] catches and the exit code.

    Cli.v has the option loop and the commands with their exit codes; here the same commands
    also print, [client_prints_only] says that this changes nothing else, and [main] is put
    together from the option loop, the socket calls of UnixSocket.v and the commands. The
    text of a number with [printf]'s %f is the parameter [fixed], the stream a connected
    descriptor stands for is [stream_of]. Shown: for every kernel, [main] closes the socket
    it opened exactly once on every path, makes no system call on a refused command line,
    and its exit code is 0, 1 or 2 by the cases of the code; and the slate printed has the
    ranks, ids and texts of the answer, in its order. *)
From stdpp Require Import base option list.
From S2P Require Import Prelude Binary64 Item Message Wire Codec BinaryCodec Protobuf Io Framing Handler Responses.
From S2P Require Import ConnectionRegistry Serve Connection Text Log Fd UnixSocket Cli.

(** * Output *)

Inductive Output := Stdout (text : bstring) | Stderr (text : bstring) | Logged (level : LogLevel) (text : bstring).

(** What [%s] prints of a [c_str()]: up to the first NUL. *)
Fixpoint c_text (text : bstring) : bstring :=
  match text with
  | [] => []
  | b :: rest => if bool_decide (b = Byte.x00) then [] else b :: c_text rest
  end.

(** Field widths, to the right and, with [-], to the left. *)
Definition pad_left (width : nat) (text : bstring) : bstring := replicate (width - length text) Byte.x20 ++ text.
Definition pad_right (width : nat) (text : bstring) : bstring := text ++ replicate (width - length text) Byte.x20.

(** [%lld]. *)
Definition format_signed (z : Z) : bstring := if z <? 0 then str "-" ++ format_dec (- z) else format_dec z.

Definition nl : bstring := [newline].

Section Client.
(** [%.Nf]. *)
Variable fixed : nat -> double -> bstring.
Variable strtod : bstring -> double * bstring.
Context {C : Codec}.

Definition print_item (item : Item) : bstring :=
  str "id         " ++ format_dec (item_id item) ++ nl ++
  str "category   " ++ c_text (item_category item) ++ nl ++
  str "advertiser " ++ c_text (item_advertiser item) ++ nl ++
  str "base score " ++ fixed 6 (item_base_score item) ++ nl ++
  str "created    " ++ format_signed (to_epoch_millis (item_created_at item)) ++ str " ms" ++ nl ++
  str "expires    " ++ format_signed (to_epoch_millis (item_expires_at item)) ++ str " ms" ++
    (if never_expires item then str "  (never)" else []) ++ nl.

Definition slate_header : bstring :=
  pad_right 4 (str "rank") ++ str " " ++ pad_left 12 (str "id") ++ str " " ++ pad_right 16 (str "category") ++ str " " ++
  pad_right 14 (str "advertiser") ++ str " " ++ str "score" ++ nl.

Definition slate_row (rank : Z) (item : RankedItem) : bstring :=
  pad_right 4 (format_dec rank) ++ str " " ++ pad_left 12 (format_dec (ranked_id item)) ++ str " " ++
  pad_right 16 (c_text (ranked_category item)) ++ str " " ++ pad_right 14 (c_text (ranked_advertiser item)) ++ str " " ++
  fixed 6 (ranked_score item) ++ nl.

Definition print_slate (items : list RankedItem) : bstring :=
  slate_header ++ concat (imap (fun i item => slate_row (Z.of_nat i + 1) item) items).

Definition pct (part whole : Z) : double :=
  if whole =? 0 then d0 else d_div (d_mul (MkDouble 0x4059000000000000) (double_of_Z part)) (double_of_Z whole).

Definition print_stats (s : Stats) : bstring :=
  str "requests    " ++ format_dec (requests s) ++ nl ++ str "gets        " ++ format_dec (gets s) ++ nl ++
  str "puts        " ++ format_dec (puts s) ++ nl ++ str "deletes     " ++ format_dec (deletes s) ++ nl ++
  str "recommends  " ++ format_dec (recommends s) ++ nl ++ str "hits        " ++ format_dec (hits s) ++ nl ++
  str "misses      " ++ format_dec (misses s) ++ nl ++
  str "hit rate    " ++ fixed 1 (pct (hits s) (wrap 64 (hits s + misses s))) ++ str "%" ++ nl ++
  str "evictions   " ++ format_dec (evictions s) ++ nl ++
  str "entries     " ++ format_dec (entries s) ++ str " / " ++ format_dec (capacity s) ++ str " (" ++
    fixed 1 (pct (entries s) (capacity s)) ++ str "% full)" ++ nl ++
  nl ++ str "compliance" ++ nl ++
  str "  allowed            " ++ format_dec (policy_allowed s) ++ nl ++
  str "  exposure blocked   " ++ format_dec (policy_exposure_blocked s) ++ nl ++
  str "  frequency blocked  " ++ format_dec (policy_frequency_blocked s) ++ nl ++
  str "  store full         " ++ format_dec (policy_store_full s) ++ nl ++
  str "  items tracked      " ++ format_dec (policy_tracked s) ++ nl.

(** * Commands that print *)

Definition report_out (status : CallStatus) (c : Connection) (what : bstring) : Z * list Output :=
  (report status,
   if bool_decide (status = Cs_Ok) then []
   else if bool_decide (status = Cs_NotFound) then [Logged LL_Info (what ++ str ": not found")]
   else [Logged LL_Error (what ++ str ": " ++ call_status_to_string status ++ str " (" ++ last_error_ c ++ str ")")]).

Definition recommend_out (signal : UserSignal) (count : Z) (dry_run : bool) (c : Connection)
    : Z * list Output * Connection :=
  let '(status, items, c) := recommend signal count [] dry_run c in
  if negb (bool_decide (status = Cs_Ok)) then (report_out status c (str "recommend"), c)
  else (0, match items with [] => [Logged LL_Info (str "no eligible candidates")] | _ => [Stdout (print_slate items)] end, c).

Definition stats_out (c : Connection) : Z * list Output * Connection :=
  let '(status, stats, c) := fetch_stats default_stats c in
  if negb (bool_decide (status = Cs_Ok)) then (report_out status c (str "stats"), c)
  else (0, [Stdout (print_stats stats)], c).

(** Once item [n] is stored; [stored] counts them. *)
Fixpoint seed_out (now : Timestamp) (n : nat) (i stored : Z) (c : Connection) : Z * list Output * Connection :=
  match n with
  | O =>
      (0, [Logged LL_Info (str "seeded " ++ format_dec stored ++ str " items across " ++ format_dec (zlen kCategories) ++
             str " categories and " ++ format_dec (zlen kAdvertisers) ++ str " advertisers")], c)
  | S n =>
      let '(status, c) := put_item (seed_item now i) c in
      if negb (bool_decide (status = Cs_Ok)) then (report_out status c (str "seed"), c)
      else seed_out now n (i + 1) (stored + 1) c
  end.

Definition usage_error (text : bstring) (c : Connection) : option (Z * list Output * Connection) :=
  Some (2, [Stderr (str "lrd_cli: " ++ text ++ nl)], c).

(** What [parse_signal] says about the first entry it refuses. *)
Fixpoint signal_complaint (entries : list bstring) : bstring :=
  match entries with
  | [] => []
  | entry :: entries =>
      if (length entry =? 0)%nat then signal_complaint entries
      else
        match find equals entry 0 with
        | None => str "expected category=weight, got '" ++ entry ++ str "'"
        | Some at_equals =>
            if fst (parse_double strtod (drop (S at_equals) entry)) then signal_complaint entries
            else str "bad weight in '" ++ entry ++ str "'"
        end
  end.

(** The commands of [main]; the usage text it may print is left out. *)
Definition client_command (now1 now2 : Timestamp) (o : CliOptions) (c : Connection)
    : option (Z * list Output * Connection) :=
  match positional o with
  | [command; a1; a2; a3] =>
      if streq command (str "put-item") then
        let '(good, id) := parse_u64 a1 0 in
        if negb good || (id =? 0) then usage_error (str "ID must be a positive integer") c
        else
          let '(good, score) := parse_double strtod a3 in
          if negb good then usage_error (str "SCORE must be a number") c
          else match item_of_options now1 now2 id a2 score o with
               | None => None
               | Some item =>
                   let '(status, c) := put_item item c in
                   let '(code, out) := report_out status c (str "put-item") in
                   Some (code,
                     (if bool_decide (status = Cs_Ok) then
                        [Logged LL_Info (str "stored item " ++ format_dec id ++ str " in category '" ++ a2 ++ str "'")]
                      else []) ++ out, c)
               end
      else usage_error (str "unrecognised command") c
  | [command; a1] =>
      if streq command (str "get-item") then
        let '(good, id) := parse_u64 a1 0 in
        if negb good then usage_error (str "ID must be a positive integer") c
        else
          let '(status, item, c) := get_item id default_item c in
          let '(code, out) := report_out status c (str "get-item") in
          Some (code, (if bool_decide (status = Cs_Ok) then [Stdout (print_item item)] else []) ++ out, c)
      else if streq command (str "del-item") then
        let '(good, id) := parse_u64 a1 0 in
        if negb good then usage_error (str "ID must be a positive integer") c
        else
          let '(status, c) := delete_item id c in
          let '(code, out) := report_out status c (str "del-item") in
          Some (code, (if bool_decide (status = Cs_Ok) then [Logged LL_Info (str "deleted item " ++ format_dec id)] else [])
            ++ out, c)
      else if streq command (str "seed") then
        let '(good, n) := parse_u64 a1 0 in
        if negb good || (n =? 0) then usage_error (str "N must be a positive integer") c
        else Some (seed_out now1 (Z.to_nat n) 0 0 c)
      else usage_error (str "unrecognised command") c
  | [command] =>
      if streq command (str "recommend") then
        match parse_signal strtod (signal_text o) default_signal with
        | None => usage_error (signal_complaint (split (signal_text o) comma)) c
        | Some signal => Some (recommend_out (exclude_all (exclude_text o) signal) (cli_count o) (cli_dry_run o) c)
        end
      else if streq command (str "stats") then Some (stats_out c)
      else usage_error (str "unrecognised command") c
  | _ => usage_error (str "unrecognised command") c
  end.
End Client.

(** * main *)

Section Main.
Variable fixed : nat -> double -> bstring.
Variable strtod : bstring -> double * bstring.
Variable kernel : list (Syscall * SysResult) -> Syscall -> SysResult.
(** The message of an errno. *)
Variable strerror : Z -> bstring.
(** The stream behind a connected descriptor. *)
Variable stream_of : Z -> UnixStream.
Context {P : ProtobufLib} (with_protobuf : bool).

(** [std::system_error::what()]. *)
Definition what_of (e : SystemError) : bstring := context e ++ str ": " ++ strerror (error_number e).

Definition no_daemon (e : SystemError) : bool := (error_number e =? ECONNREFUSED) || (error_number e =? ENOENT).

Definition complain (o : CliOptions) (e : SystemError) : Output :=
  Logged LL_Error
    (if no_daemon e then str "no daemon listening on " ++ cli_socket o ++ str " - start lrdd first"
     else str "fatal: " ++ what_of e).

(** The exit code, [None] where there is none: an hour count that overflows, or a connect
    that is interrupted [fuel] times; what is printed; and the system calls. The socket is
    closed once, by a call that loses the connection or by the destructor. *)
Definition client_main (fuel : nat) (now1 now2 : Timestamp) (args : list bstring)
    : option Z * list Output * list (Syscall * SysResult) :=
  match cli_args args cli_default with
  | CliExit code => (Some code, [], [])
  | CliRun o =>
      let '(r, evs) := stream_connect kernel fuel (cli_socket o) [] in
      match r with
      | OutOfFuel => (None, [], evs)
      | Thrown e => (Some 1, [complain o e], evs)
      | Done fd =>
          let evs := evs ++ [(Close fd, kernel evs (Close fd))] in
          match make_codec with_protobuf (cli_codec o) with
          | None =>
              (Some 1, [Logged LL_Error (str "fatal: unknown codec '" ++ cli_codec o ++ str "'; available: " ++
                          available_codecs with_protobuf)], evs)
          | Some codec =>
              match client_command fixed strtod (C := codec) now1 now2 o (connection_new (stream_of fd)) with
              | None => (None, [], evs)
              | Some (code, out, _) => (Some code, out, evs)
              end
          end
      end
  end.
End Main.

(** * Printing changes nothing else *)

Section Prints.
Context {C : Codec} (fixed : nat -> double -> bstring) (strtod : bstring -> double * bstring).

Lemma seed_out_loop now n i stored c :
  let '(code, _, c') := seed_out now n i stored c in (code, c') = seed_loop now n i c.
Proof.
  revert i stored c. induction n as [|n IH]; intros i stored c; [done|]. cbn [seed_out seed_loop].
  destruct (put_item (seed_item now i) c) as [status c1]. destruct (negb (bool_decide (status = Cs_Ok))); [done|].
  specialize (IH (i + 1) (stored + 1) c1). by destruct (seed_out now n (i + 1) (stored + 1) c1) as [[? ?] ?].
Qed.

Lemma recommend_out_code signal count dry c :
  let '(code, _, c') := recommend_out fixed signal count dry c in (code, c') = cmd_recommend signal count dry c.
Proof.
  unfold recommend_out, cmd_recommend. destruct (recommend signal count [] dry c) as [[status items] c1].
  unfold report_out, report. by destruct (bool_decide (status = Cs_Ok)).
Qed.

Lemma stats_out_code c : let '(code, _, c') := stats_out fixed c in (code, c') = cmd_stats c.
Proof.
  unfold stats_out, cmd_stats. destruct (fetch_stats default_stats c) as [[status stats] c1].
  unfold report_out, report. by destruct (bool_decide (status = Cs_Ok)).
Qed.

(** Without its output, a command is the one of Cli.v. *)
Lemma client_prints_only now1 now2 o c :
  (fun r => (fst (fst r), snd r)) <$> client_command fixed strtod now1 now2 o c = run_command strtod now1 now2 o c.
Proof.
  unfold client_command, run_command, usage_error.
  destruct (positional o) as [|command [|a1 [|a2 [|a3 [|? ?]]]]]; try done.
  - destruct (streq command (str "recommend")).
    { destruct (parse_signal _ _ _) as [signal|]; [|done]. cbn.
      pose proof (recommend_out_code (exclude_all (exclude_text o) signal) (cli_count o) (cli_dry_run o) c) as H.
      destruct (recommend_out _ _ _ _ _) as [[code out] c']. cbn. by rewrite H. }
    destruct (streq command (str "stats")); [|done]. cbn. pose proof (stats_out_code c) as H.
    destruct (stats_out fixed c) as [[code out] c']. cbn. by rewrite H.
  - destruct (streq command (str "get-item")).
    { destruct (parse_u64 a1 0) as [good id]. destruct (negb good); [done|].
      by destruct (get_item id default_item c) as [[status item] c']. }
    destruct (streq command (str "del-item")).
    { destruct (parse_u64 a1 0) as [good id]. destruct (negb good); [done|]. by destruct (delete_item id c) as [status c']. }
    destruct (streq command (str "seed")); [|done]. destruct (parse_u64 a1 0) as [good n].
    destruct (negb good || (n =? 0)); [done|]. cbn. unfold cmd_seed.
    pose proof (seed_out_loop now1 (Z.to_nat n) 0 0 c) as H.
    destruct (seed_out now1 (Z.to_nat n) 0 0 c) as [[code out] c']. cbn. by rewrite H.
  - destruct (streq command (str "put-item")); [|done]. destruct (parse_u64 a1 0) as [good id].
    destruct (negb good || (id =? 0)); [done|]. destruct (parse_double strtod a3) as [good' score].
    destruct (negb good'); [done|]. destruct (item_of_options _ _ _ _ _ _) as [item|]; [|done].
    by destruct (put_item item c) as [status c'].
Qed.

Lemma report_code status : report status = 0 \/ report status = 1.
Proof. unfold report. destruct (bool_decide _); auto. Qed.

Lemma seed_loop_code now n i c : let code := fst (seed_loop now n i c) in code = 0 \/ code = 1.
Proof.
  revert i c. induction n as [|n IH]; intros i c; cbn; [by left|]. destruct (put_item _ c) as [status c1].
  destruct (negb (bool_decide (status = Cs_Ok))); [apply report_code|apply IH].
Qed.

(** The exit code of a command. *)
Lemma run_command_code now1 now2 o c code c' :
  run_command strtod now1 now2 o c = Some (code, c') -> code = 0 \/ code = 1 \/ code = 2.
Proof.
  unfold run_command, cmd_recommend, cmd_stats, cmd_seed. intros H.
  pose proof report_code as R. pose proof (fun now n => seed_loop_code now n 0 c) as S0.
  destruct (positional o) as [|command [|a1 [|a2 [|a3 [|? ?]]]]];
    repeat match type of H with
    | context [if ?b then _ else _] => destruct b
    | context [let '(_, _) := parse_u64 ?a ?b in _] => destruct (parse_u64 a b)
    | context [let '(_, _) := parse_double ?a ?b in _] => destruct (parse_double a b)
    | context [match parse_signal ?a ?b ?d with _ => _ end] => destruct (parse_signal a b d)
    | context [match item_of_options ?a ?b ?d ?e ?f ?g with _ => _ end] => destruct (item_of_options a b d e f g)
    | context [put_item ?i ?k] => destruct (put_item i k)
    | context [delete_item ?i ?k] => destruct (delete_item i k)
    | context [get_item ?i ?j ?k] => destruct (get_item i j k) as [[? ?] ?]
    | context [recommend ?i ?j ?k ?l ?m] => destruct (recommend i j k l m) as [[? ?] ?]
    | context [fetch_stats ?j ?k] => destruct (fetch_stats j k) as [[? ?] ?]
    end; try discriminate; try (injection H as <- _; auto; match goal with |- report ?st = _ \/ _ => destruct (R st); auto end).
  specialize (S0 now1 (Z.to_nat z)). injection H as H. rewrite H in S0. cbn in S0. tauto.
Qed.
End Prints.

(** * Connecting *)

Lemma connect_loop_held kernel fuel fd addr path tr h :
  foldl hold h (snd (connect_loop kernel fuel fd addr path tr)) = h.
Proof.
  revert tr. induction fuel as [|fuel IH]; intros tr; cbn [connect_loop]; [done|]. unfold sbind, sys.
  destruct (succeeded _); [done|]. destruct (_ =? EINTR); [|done].
  match goal with |- context [connect_loop kernel fuel fd addr path ?t] => specialize (IH t) end.
  by destruct (connect_loop kernel fuel fd addr path _) as [r e].
Qed.

(** The descriptor is held exactly if [connect] succeeded. *)
Lemma connect_held kernel fuel path tr res evs :
  stream_connect kernel fuel path tr = (res, evs) ->
  match res with Done fd => held evs = [fd] | Thrown _ => held evs = [] | OutOfFuel => True end.
Proof.
  unfold stream_connect, make_address, make_socket, sbind, sret, sthrow, owning.
  destruct (length path =? 0)%nat; [by intros [= <- <-]|]. destruct (_ <? _); [by intros [= <- <-]|].
  unfold sys. destruct (kernel (tr ++ []) Socket) as [fd e] eqn:Es. cbn [fst snd app rc errno].
  destruct (Z.ltb_spec fd 0) as [Hfd|Hfd].
  { intros [= <- <-]. unfold held, hold. cbn. by rewrite (proj2 (Z.ltb_lt _ _)). }
  destruct (connect_loop kernel fuel _ _ _ _) as [r1 e1] eqn:E.
  pose proof (connect_loop_held kernel fuel fd (path ++ replicate (108 - length path) Byte.x00) path
    ((tr ++ []) ++ [(Socket, MkSys fd e)]) [fd]) as Hh. rewrite E in Hh. cbn [snd] in Hh.
  apply connect_loop_outcome in E as (waited & _ & Hor).
  assert (H0 : forall l, held ((Socket, MkSys fd e) :: l) = foldl hold [fd] l).
  { intros l. unfold held. cbn. unfold hold at 2. cbn. by rewrite (proj2 (Z.ltb_ge _ _)). }
  destruct Hor as [(-> & _)|(r & _ & [[_ ->]|(_ & _ & ->)])]; cbn [fst snd]; intros [= <- <-]; [done| |].
  - by rewrite H0.
  - rewrite H0, foldl_app, Hh. cbn. by rewrite Z.eqb_refl.
Qed.

Lemma held_close evs fd r : held evs = [fd] -> held (evs ++ [(Close fd, r)]) = [].
Proof. intros H. unfold held in *. rewrite foldl_app, H. cbn. by rewrite Z.eqb_refl. Qed.

(** * Main theorems *)


(** ** The slate *)

Definition slate_line (fixed : nat -> double -> bstring) (rank : Z) (item : RankedItem) : bstring :=
  pad_right 4 (format_dec rank) ++ str " " ++ pad_left 12 (format_dec (ranked_id item)) ++ str " " ++
  pad_right 16 (c_text (ranked_category item)) ++ str " " ++ pad_right 14 (c_text (ranked_advertiser item)) ++ str " " ++
  fixed 6%nat (ranked_score item).

Lemma slate_row_line fixed rank item : slate_row fixed rank item = slate_line fixed rank item ++ [newline].
Proof. unfold slate_row, slate_line, nl. by rewrite <- !app_assoc. Qed.

Lemma c_text_subset b text : b ∈ c_text text -> b ∈ text.
Proof.
  induction text as [|x text IH]; cbn; [done|]. destruct (bool_decide (x = Byte.x00)); [by intros ?%elem_of_nil|].
  intros [->|H]%elem_of_cons; [by left|]. right. by apply IH.
Qed.

Lemma not_in_pad b n : b <> Byte.x20 -> b ∉ replicate n Byte.x20.
Proof. intros Hb [-> _]%elem_of_replicate. done. Qed.

Lemma digits_free z : 0 <= z -> newline ∉ format_dec z.
Proof. intros Hz. apply no_newline_digits. by destruct (format_dec_spec z Hz). Qed.

(** A row has no newline of its own. *)
Lemma slate_line_free fixed rank item :
  (forall x, newline ∉ fixed 6%nat x) -> 0 <= rank -> 0 <= ranked_id item ->
  newline ∉ ranked_category item -> newline ∉ ranked_advertiser item -> newline ∉ slate_line fixed rank item.
Proof.
  intros Hf Hr Hi Hc Ha. unfold slate_line, pad_left, pad_right. rewrite !not_elem_of_app.
  assert (Hsp : newline ∉ str " ") by (apply (bool_decide_unpack _); vm_compute; exact I).
  split_and!; try done; try (by apply digits_free); try (by apply not_in_pad); by intros ?%c_text_subset.
Qed.

Lemma skip_pad n ds : Forall (fun b => is_digit b = true) ds -> ds <> [] ->
  forall rest, skip_spaces (replicate n Byte.x20 ++ ds ++ rest) = ds ++ rest.
Proof.
  intros Hd Hne rest. induction n as [|n IH]; [|exact IH]. cbn [replicate app].
  destruct (digit_first ds Hd Hne) as (Hs & _). destruct ds as [|b ds]; [done|]. cbn in Hs |- *.
  destruct (is_space b); [|done]. exfalso. apply (f_equal length) in Hs.
  assert (L : forall l, (length (skip_spaces l) <= length l)%nat).
  { induction l as [|x l IHl]; cbn; [done|]. destruct (is_space x); cbn; lia. }
  specialize (L ds). cbn in Hs. lia.
Qed.

(** [strtoul] of a padded number reads the number. *)
Lemma strtoul_padded n z rest : fits 64 z -> is_digit (deref rest) = false ->
  fst (strtoul (replicate n Byte.x20 ++ format_dec z ++ rest)) = z.
Proof.
  intros Hz Hrest. assert (H0 : 0 <= z) by (unfold fits in Hz; lia).
  destruct (format_dec_spec z H0) as (Hd & Hne & Hv). unfold strtoul. rewrite skip_pad by done.
  destruct (digit_first _ Hd Hne) as (_ & Hsign & b & ds & E & _).
  assert (Hs : sign_of (format_dec z ++ rest) = (false, format_dec z ++ rest)).
  { rewrite E in *. cbn in Hsign |- *. destruct (decide (b = minus)); [done|]. destruct (decide (b = plus)); [|done].
    injection Hsign as Hx. apply (f_equal length) in Hx. cbn in Hx. lia. }
  rewrite Hs, span_all_digits by done. rewrite E in *. cbn [fst]. rewrite Hv.
  unfold fits, ULONG_MAX in *. destruct (Z.ltb_spec (2 ^ 64 - 1) z); [lia|done].
Qed.

Lemma pad_not_digit n rest : is_digit (deref (replicate n Byte.x20 ++ str " " ++ rest)) = false.
Proof. by destruct n. Qed.

(** The ranks of a slate fit their column. *)
Lemma rank_column : forallb (fun n => (length (pad_right 4 (format_dec (Z.of_nat n + 1))) =? 4)%nat) (seq 0 100) = true.
Proof. by vm_compute. Qed.

Lemma slate_numbers fixed (i : nat) item :
  (i < 100)%nat -> fits 64 (ranked_id item) ->
  fst (strtoul (slate_line fixed (Z.of_nat i + 1) item)) = Z.of_nat i + 1 /\
  fst (strtoul (drop 5 (slate_line fixed (Z.of_nat i + 1) item))) = ranked_id item.
Proof.
  intros Hi Hid. pose proof rank_column as Hc. rewrite forallb_forall in Hc.
  specialize (Hc i ltac:(apply in_seq; lia)). apply Nat.eqb_eq in Hc. unfold slate_line. split.
  - unfold pad_right at 1. rewrite <- app_assoc. apply (strtoul_padded 0); [unfold fits; lia|].
    apply pad_not_digit.
  - rewrite drop_app_ge by lia. rewrite Hc. change (drop (5 - 4) (str " " ++ ?x)) with x.
    unfold pad_left. rewrite <- app_assoc. by apply strtoul_padded.
Qed.

(** The slate as it is printed. A slate the client accepted, whose texts hold no newline,
    is printed as a header and one line per item, in the order of the answer; the line of
    an item starts with its rank, counted from 1, then its id, both as decimal numbers that
    read back. *)
Theorem slate_printed fixed items :
  (forall x, newline ∉ fixed 6%nat x) -> zlen items <= kMaxRecommendCount ->
  Forall (fun item => fits 64 (ranked_id item) /\ (newline ∉ ranked_category item) /\ (newline ∉ ranked_advertiser item)) items ->
  exists header, lines (print_slate fixed items) = header :: imap (fun i => slate_line fixed (Z.of_nat i + 1)) items /\
    forall i item, items !! i = Some item ->
      fst (strtoul (slate_line fixed (Z.of_nat i + 1) item)) = Z.of_nat i + 1 /\
      fst (strtoul (drop 5 (slate_line fixed (Z.of_nat i + 1) item))) = ranked_id item.
Proof.
  intros Hf Hlen Hitems.
  assert (Hh : exists header, slate_header = header ++ [newline] /\ (newline ∉ header)).
  { exists (removelast slate_header). split; [vm_compute; reflexivity|]. apply (bool_decide_unpack _). vm_compute. exact I. }
  destruct Hh as (header & Eh & Hh). exists header. split.
  - unfold lines, print_slate. rewrite Eh, <- app_assoc. cbn [app]. rewrite fields_app by done.
    assert (E : forall n, fields newline (concat (imap (fun i item => slate_row fixed (Z.of_nat (n + i) + 1) item) items)) =
      imap (fun i => slate_line fixed (Z.of_nat (n + i) + 1)) items ++ [[]]).
    { induction Hitems as [|item items (Hid & Hc & Ha) _ IH]; intros n; [done|]. cbn [imap concat].
      rewrite slate_row_line, <- app_assoc. cbn [app]. rewrite fields_app
        by (apply slate_line_free; try done; [lia|unfold fits in Hid; lia]). f_equal.
      assert (zlen items <= kMaxRecommendCount) by (unfold zlen in *; cbn in Hlen; lia).
      specialize (IH ltac:(done) (S n)). rewrite (imap_ext _ (fun i item => slate_row fixed (Z.of_nat (S n + i) + 1) item))
        by (intros; cbn; do 3 f_equal; lia). rewrite IH. f_equal. apply imap_ext. intros. cbn. do 3 f_equal. lia. }
    specialize (E O). cbn [Nat.add] in E. rewrite E. exact (List.removelast_last (header :: _) []).
  - intros i item Hi. rewrite Forall_lookup in Hitems. destruct (Hitems i item Hi) as (Hid & _).
    apply slate_numbers; [|done]. apply lookup_lt_Some in Hi. unfold zlen, kMaxRecommendCount in Hlen. lia.
Qed.

(** * Witness *)

Definition plain_fixed (n : nat) (x : double) : bstring := str "0.5".

Lemma slate_printed_witness :
  exists header, lines (print_slate plain_fixed [MkRanked 17 d0_5 (str "tech") (str "acme")]) =
    [header; str "1              17 tech             acme           0.5"].
Proof.
  destruct (slate_printed plain_fixed [MkRanked 17 d0_5 (str "tech") (str "acme")]) as (header & E & _).
  - intros x. apply (bool_decide_unpack _). vm_compute. exact I.
  - vm_compute. discriminate.
  - apply (bool_decide_unpack _). vm_compute. exact I.
  - exists header. rewrite E. vm_compute. reflexivity.
Defined.
