(* ===== verification/App.v ===== *)
(** App: the example application (examples/recommender_app.cpp) over the client library of
    Sdk.v.

    What the other threads of the pool and the daemon do during each of its calls is the
    parameter [world], one entry per call; the clock is [now]. Every call is logged beside
    what the program keeps. Shown: the catalogue it publishes holds items the daemon accepts,
    and the program runs its calls in a fixed order, stops at the first that fails, with one
    message and exit code 1, and exits with 0 exactly when none failed; so the recording
    recommendation is asked for at most once, after the preview. *)
From stdpp Require Import base option list.
From S2P Require Import Prelude Binary64 Item Message Wire Codec BinaryCodec Io Framing Handler Responses.
From S2P Require Import ConnectionRegistry Serve Connection Sdk Text Log Cli ClientMain.

(** * The catalogue *)

Definition app_categories : list bstring := [str "tech"; str "sport"; str "travel"; str "food"].
Definition app_advertisers : list bstring := [str "acme"; str "globex"; str "initech"].

(** [0.1 + 0.9 * (i % 10) / 9.0]. *)
Definition app_score (i : Z) : double :=
  d_add d0_1 (d_div (d_mul (MkDouble 0x3FECCCCCCCCCCCCD) (double_of_Z (i mod 10))) (MkDouble 0x4022000000000000)).

Definition app_item (now i : Z) : Item :=
  MkItem (i + 1) (default [] (app_categories !! Z.to_nat (i mod 4))) (default [] (app_advertisers !! Z.to_nat (i mod 3)))
    (app_score i) (now - i * 6 * 3600000) (from_epoch_millis 0).

(** * The program *)

(** What surrounds a call of the client. *)
Record World := MkWorld { w_before : nat -> Impl -> Impl; w_during : nat -> Impl -> Impl; w_connect : nat -> Connected }.

Inductive AppCall := APut (i : Z) | APreview | ARecommend | AGet | AStats.

Record AppRun := MkAppRun { a_code : Z; a_out : list Output; a_calls : list (AppCall * Status) }.

Section App.
Variable fixed : nat -> double -> bstring.
Context {C : Codec}.
Variable world : nat -> World.
Variable now : nat -> Z.

Definition app_config (argv : list bstring) : ClientConfig :=
  MkClientConfig (match argv with path :: _ => path | [] => str "/tmp/lrd.sock" end) (str "binary") 2000 4 1000 2 10 false.

Definition failure_text (what : bstring) (s : Status) : list Output :=
  [Stderr (what ++ str " failed: " ++ c_text (message_ s) ++ nl)].

(** [publish_catalogue] from item [i], with [n] to go: what it printed, the calls, the
    pool after it, and whether it succeeded. *)
Fixpoint publish_catalogue (n : nat) (i : Z) (p : Impl) : bool * list Output * list (AppCall * Status) * Impl :=
  match n with
  | O => (true, [], [], p)
  | S n =>
      let w := world (Z.to_nat i) in
      let '(status, _, p, _) := client_put_item (w_before w) (w_during w) (w_connect w) (app_item (now (Z.to_nat i)) i) p in
      if negb (ok status) then
        (false, [Stderr (str "put_item(" ++ format_dec (i + 1) ++ str ") failed: " ++ sdk_code_to_string (code_ status) ++
                   str " (" ++ c_text (message_ status) ++ str ")" ++ nl)], [(APut i, status)], p)
      else
        let '(good, out, calls, p) := publish_catalogue n (i + 1) p in (good, out, (APut i, status) :: calls, p)
  end.

Definition app_slate_row (i : nat) (item : RankedItem) : bstring :=
  str "  " ++ format_dec (Z.of_nat i + 1) ++ str ". item " ++ pad_right 3 (format_dec (ranked_id item)) ++ str "  " ++
  pad_right 8 (c_text (ranked_category item)) ++ str "  " ++ pad_right 8 (c_text (ranked_advertiser item)) ++ str "  " ++
  fixed 4 (ranked_score item) ++ nl.
Definition app_print_slate (label : bstring) (items : list RankedItem) : bstring :=
  nl ++ label ++ nl ++
  match items with [] => str "  (nothing eligible)" ++ nl | _ => concat (imap app_slate_row items) end.

Definition app_signal : UserSignal :=
  MkSignal [MkAffinity (str "tech") d1; MkAffinity (str "travel") (MkDouble 0x3FD999999999999A)] [str "food"].

Definition app_counters (s : SdkStats) (open : Z) : bstring :=
  nl ++ str "daemon counters" ++ nl ++
  str "  items stored      " ++ format_dec (sdk_entries s) ++ str " / " ++ format_dec (sdk_capacity s) ++ nl ++
  str "  recommendations   " ++ format_dec (sdk_recommends s) ++ nl ++
  str "  policy allowed    " ++ format_dec (sdk_policy_allowed s) ++ nl ++
  str "  exposure blocked  " ++ format_dec (sdk_policy_exposure_blocked s) ++ nl ++
  str "  connections open  " ++ format_dec open ++ nl.

Definition zero_sdk_stats : SdkStats := MkSdkStats 0 0 0 0 0 0 0 0 0 0 0 0 0 0 0.

(** The last two calls: a lookup that should miss, and the statistics. *)
Definition app_tail (out : list Output) (calls : list (AppCall * Status)) (p : Impl) : AppRun :=
  let w := world 26 in
  let '(sg, _, p, _) := client_get_item (w_before w) (w_during w) (w_connect w) 999999 default_item p in
  let calls := calls ++ [(AGet, sg)] in
  if negb (is_not_found sg) && negb (ok sg) then MkAppRun 1 (out ++ failure_text (str "get_item") sg) calls
  else
    let out := if is_not_found sg then out ++ [Stdout (nl ++ str "item 999999: not found (as expected)" ++ nl)] else out in
    let w := world 27 in
    let '(ss, stats, p, _) := client_stats (w_before w) (w_during w) (w_connect w) zero_sdk_stats p in
    let calls := calls ++ [(AStats, ss)] in
    if negb (ok ss) then MkAppRun 1 (out ++ failure_text (str "stats") ss) calls
    else MkAppRun 0 (out ++ [Stdout (app_counters stats (open_connections p))]) calls.

(** From the preview on. *)
Definition app_slates (calls : list (AppCall * Status)) (p : Impl) : AppRun :=
  let w := world 24 in
  let '(sp, preview, p, _) := client_preview (w_before w) (w_during w) (w_connect w) app_signal 5 [] p in
  let calls := calls ++ [(APreview, sp)] in
  if negb (ok sp) then MkAppRun 1 (failure_text (str "preview") sp) calls
  else
    let out := [Stdout (app_print_slate (str "preview (records nothing):") preview)] in
    let w := world 25 in
    let '(sr, slate, p, _) := client_recommend (w_before w) (w_during w) (w_connect w) app_signal 5 [] p in
    let calls := calls ++ [(ARecommend, sr)] in
    if negb (ok sr) then MkAppRun 1 (out ++ failure_text (str "recommend") sr) calls
    else app_tail (out ++ [Stdout (app_print_slate (str "recommend (records exposure):") slate)]) calls p.

(** [main]; [first] is what connecting ends in. *)
Definition app_main (argv : list bstring) (first : Connected) : AppRun :=
  let '(status, client) := client_connect (app_config argv) first in
  match client with
  | None => MkAppRun 1 [Stderr (str "cannot connect: " ++ c_text (message_ status) ++ nl)] []
  | Some p =>
      let '(good, out, calls, p) := publish_catalogue 24 0 p in
      if negb good then MkAppRun 1 out calls else app_slates calls p
  end.
End App.

(** * What it does *)

(** The calls of a run that goes through. *)
Definition app_script : list AppCall :=
  map (fun i => APut (Z.of_nat i)) (seq 0 24) ++ [APreview; ARecommend; AGet; AStats].

(** A status the program goes on after. *)
Definition acceptable (c : AppCall * Status) : bool :=
  match fst c with AGet => ok (snd c) || is_not_found (snd c) | _ => ok (snd c) end.

(** The calls follow the script, all acceptable but, if the code is 1, the last. *)
Definition follows (code : Z) (script : list AppCall) (calls : list (AppCall * Status)) : Prop :=
  if code =? 0 then map fst calls = script /\ forallb acceptable calls = true
  else code = 1 /\ exists done last rest, calls = done ++ [last] /\ script = map fst calls ++ rest /\
    forallb acceptable done = true /\ acceptable last = false.

Lemma follows_stop script calls last rest :
  forallb acceptable calls = true -> acceptable last = false -> script = map fst calls ++ fst last :: rest ->
  follows 1 script (calls ++ [last]).
Proof.
  intros H1 H2 ->. split; [done|]. exists calls, last, rest. rewrite map_app, <- app_assoc. by split_and!.
Qed.

#[global] Instance AppCall_eq_dec : EqDecision AppCall.
Proof. solve_decision. Defined.

Lemma follows_prefix code script calls : follows code script calls -> exists rest, script = map fst calls ++ rest.
Proof.
  unfold follows. destruct (code =? 0).
  - intros [<- _]. exists []. by rewrite app_nil_r.
  - intros (_ & _ & _ & rest & _ & -> & _). by exists rest.
Qed.

Lemma accept_snoc calls c :
  forallb acceptable calls = true -> acceptable c = true -> forallb acceptable (calls ++ [c]) = true.
Proof. intros H1 H2. rewrite forallb_app, H1. cbn [forallb andb]. by rewrite H2. Qed.

Definition puts (i : Z) (n : nat) : list AppCall := map (fun k => APut (i + Z.of_nat k)) (seq 0 n).

Lemma puts_S i n : puts i (S n) = APut i :: puts (i + 1) n.
Proof.
  unfold puts. cbn [seq map]. rewrite Z.add_0_r. f_equal. rewrite <- seq_shift, map_map. apply map_ext. intros k.
  f_equal. lia.
Qed.

Section Follows.
Context (fixed : nat -> double -> bstring) {C : Codec} (world : nat -> World) (now : nat -> Z).

Lemma publish_follows n : forall i p,
  let '(good, out, calls, _) := publish_catalogue world now n i p in
  if good then out = [] /\ map fst calls = puts i n /\ forallb acceptable calls = true
  else (exists text, out = [Stderr text]) /\ exists done last rest, calls = done ++ [last] /\
    puts i n = map fst calls ++ rest /\ forallb acceptable done = true /\ acceptable last = false.
Proof.
  induction n as [|n IH]; intros i p; cbn [publish_catalogue]; [done|]. rewrite puts_S.
  destruct (client_put_item _ _ _ _ p) as [[[status r] p1] sleeps]. destruct (ok status) eqn:Eo; cbn [negb].
  - specialize (IH (i + 1) p1). destruct (publish_catalogue world now n (i + 1) p1) as [[[good out] calls] p2].
    destruct good.
    + destruct IH as (-> & E & Ha). split; [done|]. cbn. rewrite E, Ha. unfold acceptable. cbn. by rewrite Eo.
    + destruct IH as (Ho & done_ & last & rest & -> & E & Ha & Hl). split; [done|].
      exists ((APut i, status) :: done_), last, rest. split_and!; try done.
      * cbn. by rewrite E.
      * cbn. rewrite Ha. unfold acceptable. cbn. by rewrite Eo.
  - split; [by eexists|]. exists [], (APut i, status), (puts (i + 1) n). split_and!; try done.
Qed.

(** The output of a failed run ends with the one message about the failure. *)
Definition one_complaint (r : AppRun) : Prop :=
  if a_code r =? 0 then Forall (fun o => exists t, o = Stdout t) (a_out r)
  else exists printed t, a_out r = printed ++ [Stderr t] /\ Forall (fun o => exists t, o = Stdout t) printed.

Lemma app_tail_follows out calls p script :
  map fst calls ++ [AGet; AStats] = script -> forallb acceptable calls = true ->
  Forall (fun o => exists t, o = Stdout t) out ->
  follows (a_code (app_tail world out calls p)) script (a_calls (app_tail world out calls p)) /\
  one_complaint (app_tail world out calls p).
Proof.
  intros <- Ha Ho. unfold app_tail. destruct (client_get_item _ _ _ _ _ p) as [[[sg x] p1] ?].
  destruct (negb (is_not_found sg) && negb (ok sg)) eqn:Eg.
  - split.
    + apply (follows_stop _ _ _ [AStats]); try done. unfold acceptable. cbn. by destruct (ok sg), (is_not_found sg).
    + exists out. eexists. by split.
  - set (out1 := if is_not_found sg then _ else out).
    assert (Ho1 : Forall (fun o => exists t, o = Stdout t) out1).
    { unfold out1. destruct (is_not_found sg); [|done]. apply Forall_app. split; [done|]. constructor; [by eexists|done]. }
    assert (Hg : acceptable (AGet, sg) = true) by (unfold acceptable; cbn; by destruct (ok sg), (is_not_found sg)).
    assert (Ha1 : forallb acceptable (calls ++ [(AGet, sg)]) = true) by (by apply accept_snoc).
    destruct (client_stats _ _ _ _ p1) as [[[ss stats] p2] ?]. destruct (ok ss) eqn:Es; cbn [negb].
    + split.
      * unfold follows. cbn [a_code a_calls Z.eqb]. rewrite !map_app, <- app_assoc. split; [done|].
        by apply accept_snoc.
      * unfold one_complaint. cbn. apply Forall_app. split; [done|]. constructor; [by eexists|done].
    + split.
      * apply (follows_stop _ _ _ []); try done. by rewrite map_app, <- app_assoc.
      * exists out1. eexists. by split.
Qed.

Lemma app_slates_follows calls p script :
  map fst calls ++ [APreview; ARecommend; AGet; AStats] = script -> forallb acceptable calls = true ->
  follows (a_code (app_slates fixed world calls p)) script (a_calls (app_slates fixed world calls p)) /\
  one_complaint (app_slates fixed world calls p).
Proof.
  intros <- Ha. unfold app_slates. destruct (client_preview _ _ _ _ _ _ p) as [[[sp preview] p1] ?].
  destruct (ok sp) eqn:Ep; cbn [negb].
  - assert (Ha1 : forallb acceptable (calls ++ [(APreview, sp)]) = true)
      by (by apply accept_snoc).
    destruct (client_recommend _ _ _ _ _ _ p1) as [[[sr slate] p2] ?]. destruct (ok sr) eqn:Er; cbn [negb].
    + apply app_tail_follows.
      * rewrite !map_app, <- !app_assoc. done.
      * by apply accept_snoc.
      * repeat constructor; by eexists.
    + split; [|by exists [Stdout (app_print_slate fixed (str "preview (records nothing):") preview)]; eexists; split; [|repeat constructor; eexists]].
      apply (follows_stop _ _ _ [AGet; AStats]); try done. by rewrite map_app, <- app_assoc.
  - split; [|by exists []; eexists].
    by apply (follows_stop _ _ _ [ARecommend; AGet; AStats]).
Qed.
End Follows.

(** * Main theorems *)

(** The catalogue: every item of it is within the limits of the protocol and the daemon
    accepts it, with a score in (0, 1], for every clock a week away from the ends of its
    type. *)
Theorem catalogue_accepted now i :
  - 2 ^ 63 + 168 * 3600000 <= now < 2 ^ 63 -> 0 <= i < 24 ->
  let item := app_item now i in
  wf_item item /\ valid_put item = true /\ d_ltb d0 (item_base_score item) = true /\ d_leb (item_base_score item) d1 = true.
Proof.
  intros Hn Hi. cbn zeta.
  set (names := fun k => (default [] (app_categories !! Z.to_nat (k mod 4)), default [] (app_advertisers !! Z.to_nat (k mod 3)))).
  set (good := fun k : nat => let '(c, a) := names (Z.of_nat k) in
    (0 <? zlen c) && (zlen c <=? 64) && (zlen a <=? 64) && bool_decide (d_wf (app_score (Z.of_nat k))) &&
    d_ltb d0 (app_score (Z.of_nat k)) && d_leb (app_score (Z.of_nat k)) d1).
  assert (Hall : forallb good (seq 0 24) = true) by (vm_compute; reflexivity).
  rewrite forallb_forall in Hall. specialize (Hall (Z.to_nat i) ltac:(apply in_seq; lia)).
  unfold good, names in Hall. rewrite Z2Nat.id in Hall by lia. bcases.
  split_and!; [|unfold valid_put|done..].
  - unfold wf_item, kMaxCategoryLength, kMaxAdvertiserLength, fits_i64.
    cbn [app_item item_id item_category item_advertiser item_base_score item_created_at item_expires_at].
    split_and!; try lia; try done; [unfold fits; lia|by eapply bool_decide_eq_true].
  - cbn [app_item item_id item_category]. rewrite (proj2 (Z.eqb_neq _ _)) by lia.
    by rewrite (proj2 (Z.eqb_neq (zlen _) _)) by lia.
Qed.

(** The example application, whatever the daemon and the other users of the pool do:
    it makes its calls in the order of the script, goes on only after success (a miss of
    the lookup is one), stops at the first failure with exit code 1 and one message on
    standard error, and exits with 0 exactly when the whole script went through. The
    recording recommendation is never asked for twice. *)
Theorem app_follows_script fixed {C : Codec} world now argv first :
  let r := app_main fixed world now argv first in
  match first with
  | Opened _ =>
      follows (a_code r) app_script (a_calls r) /\ one_complaint r /\
      (length (filter (fun c => c = ARecommend) (map fst (a_calls r))) <= 1)%nat
  | _ => a_code r = 1 /\ a_calls r = [] /\ exists t, a_out r = [Stderr t]
  end.
Proof.
  cbn zeta. unfold app_main, client_connect. cbn [app_config max_connections Z.eqb].
  destruct first as [st|what|what]; [|by split_and!; try eexists..].
  match goal with |- follows ?c ?sc ?calls /\ ?o /\ _ => assert (H : follows c sc calls /\ o) end.
  { pose proof (publish_follows world now 24 0 (MkImpl (app_config argv) [connection_new st] 1)) as Hp.
    destruct (publish_catalogue _ _ _ _ _) as [[[good out] calls] p]. destruct good; cbn [negb].
    - destruct Hp as (_ & Hm & Ha). apply app_slates_follows; [|done]. rewrite Hm. reflexivity.
    - destruct Hp as ((text & ->) & calls' & last & rest & -> & Hm & Ha & Hl). split; [|by exists [], text].
      apply (follows_stop _ _ _ (rest ++ [APreview; ARecommend; AGet; AStats])); try done.
      change app_script with (puts 0 24 ++ [APreview; ARecommend; AGet; AStats]).
      rewrite Hm, map_app, <- !app_assoc. done. }
  destruct H as [H1 H2]. split_and!; [done..|]. apply follows_prefix in H1 as [rest E].
  apply (f_equal (fun l => length (filter (fun c => c = ARecommend) l))) in E. rewrite filter_app, length_app in E.
  change (length (filter _ app_script)) with 1%nat in E. lia.
Qed.

(** * Witness *)

(** No other user of the pool, and a daemon that hangs up. *)
Definition quiet_world (k : nat) : World := MkWorld (fun _ p => p) (fun _ p => p) (fun _ => SystemFailure (str "refused")).

Lemma catalogue_accepted_witness : valid_put (app_item 1000 23) = true.
Proof. refine (proj1 (proj2 (catalogue_accepted 1000 23 _ _))); lia. Defined.

(** The daemon hangs up at once: one put was tried. *)
Example app_hangs_up :
  let r := app_main (C := BinaryCodec) (fun _ _ => []) quiet_world (fun _ => 1000) [] (Opened (MkStream [REof] [SAccept 1000] [])) in
  a_code r = 1 /\ map fst (a_calls r) = [APut 0].
Proof. vm_compute. done. Qed.
