(* ===== verification/Latency.v ===== *)
(** Latency: the statistics of the benchmarks (bench/latency.hpp): per-thread samples, the
    nearest-rank percentiles of their union and the choice of the median run.

    [static_cast] of a [double] that no [std::size_t] can hold has no defined result; it
    is the parameter [cast_unrepresentable], and nothing depends on it because the index
    is clamped. [long double] is the x87 extended format. [std::sort] of integers has one
    possible result; sorting by a key that ties is the class [StdSort], any function with
    the standard's postcondition. Shown: every percentile is a sample that was observed
    and at least its rank of the samples are no greater, the summary does not depend on
    how samples are spread over threads, and the median run has at most half of the runs
    on either side. *)
From Stdlib Require Import SpecFloat Sorted.
From stdpp Require Import base option list sorting.
From S2P Require Import Prelude Binary64.

(** * Samples *)

Record LatencySamples := MkSamples { nanos : list Z }.
Definition samples_new : LatencySamples := MkSamples [].
(** [duration] is a signed count of nanoseconds. *)
Definition add_sample (duration : Z) (s : LatencySamples) : LatencySamples :=
  MkSamples (nanos s ++ [to_u64 duration]).

Record LatencySummary := MkSummary {
  s_count : Z;
  min_us : double; p50_us : double; p90_us : double; p99_us : double; p999_us : double;
  max_us : double; mean_us : double
}.
Definition empty_summary : LatencySummary := MkSummary 0 d0 d0 d0 d0 d0 d0 d0.

Definition d1000 : double := MkDouble 0x408F400000000000.
Definition d0_50 : double := MkDouble 0x3FE0000000000000.
Definition d0_90 : double := MkDouble 0x3FECCCCCCCCCCCCD.
Definition d0_99 : double := MkDouble 0x3FEFAE147AE147AE.
Definition d0_999 : double := MkDouble 0x3FEFF7CED916872B.

(** * Percentiles *)

(** The integer [ceil] of a finite number. *)
Definition ceil_Z (s : bool) (m e : Z) : Z :=
  let v := if s then - m else m in
  if 0 <=? e then v * 2 ^ e else - ((- v) / 2 ^ (- e)).

Section Summary.
Variable cast_unrepresentable : double -> Z.

(** [static_cast<std::size_t>(std::ceil(x))]. *)
Definition ceil_to_size (x : double) : Z :=
  match sf x with
  | S754_zero _ => 0
  | S754_finite s m e =>
      let v := ceil_Z s (Zpos m) e in if bool_decide (fits 64 v) then v else cast_unrepresentable x
  | _ => cast_unrepresentable x
  end.

(** [std::clamp(index, 1, size) - 1]. *)
Definition clamp (v lo hi : Z) : Z := if v <? lo then lo else if hi <? v then hi else v.
Definition percentile_index (n : Z) (p : double) : Z :=
  clamp (ceil_to_size (d_mul p (double_of_Z n))) 1 n - 1.

Definition to_us (value : Z) : double := d_div (double_of_Z value) d1000.

Definition percentile_us (sorted : list Z) (p : double) : double :=
  match sorted with
  | [] => d0
  | _ => to_us (default 0 (sorted !! Z.to_nat (percentile_index (zlen sorted) p)))
  end.

(** [long double] arithmetic. *)
Definition ld_of_Z (z : Z) : spec_float := binary_normalize 64 16384 z 0 false.
Definition ld_add (x y : spec_float) : spec_float := SFadd 64 16384 x y.
Definition ld_div (x y : spec_float) : spec_float := SFdiv 64 16384 x y.
Definition double_of_ld (x : spec_float) : double :=
  of_sf (match x with S754_finite s m e => binary_round prec emax s m e | _ => x end).

Definition sort_samples (l : list Z) : list Z := merge_sort Z.le l.

Definition summarize (per_thread : list LatencySamples) : LatencySummary :=
  let all := concat (map nanos per_thread) in
  match all with
  | [] => empty_summary
  | _ =>
      let all := sort_samples all in
      let sum := fold_left (fun sum value => ld_add sum (ld_of_Z value)) all (ld_of_Z 0) in
      MkSummary (zlen all)
        (to_us (default 0 (head all)))
        (percentile_us all d0_50) (percentile_us all d0_90) (percentile_us all d0_99) (percentile_us all d0_999)
        (to_us (default 0 (last all)))
        (d_div (double_of_ld (ld_div sum (ld_of_Z (zlen all)))) d1000)
  end.
End Summary.

(** * The median run *)

Lemma d_ltb_irrefl x : d_ltb x x = false.
Proof.
  destruct (d_ltb x x) eqn:E; [|done]. destruct (is_nan x) eqn:En.
  - unfold is_nan, d_ltb, SFltb in *. by destruct (sf x).
  - apply d_ltb_key in E; [|done..]. by apply key_lt_irrefl in E.
Qed.

(** [std::sort] with a comparator: the result is a permutation, and sorted wherever the
    comparator is a strict weak order on the elements. *)
Class StdSort := { std_sort : forall {A : Type}, (A -> A -> bool) -> list A -> list A }.

(** Keys compared with [<] on numbers. *)
Definition key_order {A} (key : A -> double) (a b : A) : bool := d_ltb (key a) (key b).

Class StdSortLaws (S : StdSort) : Prop := {
  sort_permutes {A} (comp : A -> A -> bool) l : std_sort comp l ≡ₚ l;
  sort_sorts {A} (key : A -> double) l : (forall a, a ∈ l -> is_nan (key a) = false) ->
    StronglySorted (fun a b => d_ltb (key b) (key a) = false) (std_sort (key_order key) l)
}.

Section Median.
Context `{StdSort} {Result : Type} (throughput : Result -> double).

(** The indices of the runs, sorted by throughput. *)
Definition run_order (runs : list Result) : list nat :=
  std_sort (key_order (fun i => default d0 (throughput <$> runs !! i))) (seq 0 (length runs)).

(** [None] where the code indexes an empty vector. *)
Definition median_by (runs : list Result) : option Result :=
  i ← run_order runs !! (length runs / 2)%nat; runs !! i.
End Median.

(** * Sorting *)

Lemma sort_samples_perm l : sort_samples l ≡ₚ l.
Proof. apply merge_sort_Permutation. Qed.

Lemma sort_samples_sorted l : StronglySorted Z.le (sort_samples l).
Proof. apply StronglySorted_merge_sort; apply _. Qed.

(** Sorting forgets the order samples came in. *)
Lemma sort_samples_eq l1 l2 : l1 ≡ₚ l2 -> sort_samples l1 = sort_samples l2.
Proof.
  intros E. apply (StronglySorted_unique Z.le); [apply sort_samples_sorted..|].
  by rewrite !sort_samples_perm.
Qed.

(** ** Counting by position *)

Section Positions.
Context {A : Type} (P : A -> Prop) (Hdec : forall x, Decision (P x)).

(** What only holds before position [i] holds at most [i] times. *)
Lemma filter_before (l : list A) i :
  (forall j x, l !! j = Some x -> P x -> (j < i)%nat) -> (length (filter P l) <= i)%nat.
Proof.
  revert i. induction l as [|x l IH]; intros i H; [cbn; lia|]. rewrite filter_cons. destruct (decide (P x)) as [Hx|Hx].
  - pose proof (H O x eq_refl Hx). cbn. destruct i as [|i]; [lia|]. apply le_n_S, IH.
    intros j y Hj Hy. specialize (H (S j) y Hj Hy). lia.
  - apply IH. intros j y Hj Hy. specialize (H (S j) y Hj Hy). lia.
Qed.

(** What holds up to position [i] holds more than [i] times. *)
Lemma filter_upto (l : list A) i :
  (i < length l)%nat -> (forall j x, (j <= i)%nat -> l !! j = Some x -> P x) -> (S i <= length (filter P l))%nat.
Proof.
  revert i. induction l as [|x l IH]; intros i Hi H; [cbn in Hi; lia|]. cbn in Hi.
  rewrite filter_cons_True by (apply (H O); [lia|done]). cbn. apply le_n_S. destruct i as [|i]; [lia|].
  apply IH; [lia|]. intros j y Hj Hy. apply (H (S j)); [lia|done].
Qed.

(** What only holds after position [i] holds for at most the rest. *)
Lemma filter_after (l : list A) i :
  (i < length l)%nat -> (forall j x, l !! j = Some x -> P x -> (i < j)%nat) ->
  (length (filter P l) + S i <= length l)%nat.
Proof.
  revert i. induction l as [|x l IH]; intros i Hi H; [cbn in Hi; lia|]. cbn in Hi.
  rewrite filter_cons_False by (intros Hx; specialize (H O x eq_refl Hx); lia). cbn. destruct i as [|i].
  - pose proof (length_filter P l). lia.
  - specialize (IH i ltac:(lia)). enough (length (filter P l) + S i <= length l)%nat by lia. apply IH.
    intros j y Hj Hy. specialize (H (S j) y Hj Hy). lia.
Qed.
End Positions.

Lemma sorted_lookup {A} (R : A -> A -> Prop) (l : list A) i j x y :
  StronglySorted R l -> (i < j)%nat -> l !! i = Some x -> l !! j = Some y -> R x y.
Proof.
  intros Hs. revert i j. induction Hs as [|z l _ IH Hz]; intros [|i] [|j] Hij Hi Hj; try done; try lia; cbn in *.
  - injection Hi as ->. rewrite Forall_forall in Hz. apply Hz. by eapply list_elem_of_lookup_2.
  - apply (IH i j); [lia|done..].
Qed.

Lemma percentile_index_range cast n p : 0 < n -> 0 <= percentile_index cast n p < n.
Proof.
  intros Hn. unfold percentile_index, clamp. destruct (Z.ltb_spec (ceil_to_size cast (d_mul p (double_of_Z n))) 1); [lia|].
  destruct (Z.ltb_spec n (ceil_to_size cast (d_mul p (double_of_Z n)))); lia.
Qed.

(** The nearest-rank percentile of sorted samples. *)
Definition nearest_rank (l : list Z) (rank v : Z) : Prop :=
  v ∈ l /\ rank <= zlen (filter (fun x => x <= v) l) /\ zlen (filter (fun x => x < v) l) < rank.

Lemma percentile_nearest cast l p :
  StronglySorted Z.le l -> l <> [] ->
  exists v, percentile_us cast l p = to_us v /\ nearest_rank l (percentile_index cast (zlen l) p + 1) v.
Proof.
  intros Hs Hne. unfold percentile_us. destruct l as [|x0 l0] eqn:El; [done|]. rewrite <- El in *. clear x0 l0 El.
  assert (Hn : 0 < zlen l) by (destruct l; [done|unfold zlen; cbn; lia]).
  pose proof (percentile_index_range cast (zlen l) p Hn) as Hi. set (k := percentile_index cast (zlen l) p) in *.
  unfold zlen in Hi, Hn. destruct (lookup_lt_is_Some_2 l (Z.to_nat k)) as [v Hv]; [lia|]. rewrite Hv.
  exists v. split; [done|]. split_and!; [by eapply list_elem_of_lookup_2| |].
  - unfold zlen. assert (S (Z.to_nat k) <= length (filter (fun x => x <= v)%Z l))%nat; [|lia].
    apply filter_upto; [lia|]. intros j x Hj Hx. destruct (decide (j = Z.to_nat k)) as [->|]; [simplify_eq; lia|].
    apply (sorted_lookup _ _ j (Z.to_nat k) _ _ Hs); [lia|done..].
  - unfold zlen. assert (length (filter (fun x => x < v)%Z l) <= Z.to_nat k)%nat; [|lia].
    apply filter_before. intros j x Hx Hlt. destruct (decide (j < Z.to_nat k)%nat); [done|exfalso].
    assert (v <= x); [|lia]. destruct (decide (j = Z.to_nat k)) as [->|]; [simplify_eq; lia|].
    apply (sorted_lookup _ _ (Z.to_nat k) j _ _ Hs); [lia|done..].
Qed.

Lemma nearest_rank_perm l1 l2 rank v : l1 ≡ₚ l2 -> nearest_rank l1 rank v -> nearest_rank l2 rank v.
Proof. intros E (H1 & H2 & H3). unfold nearest_rank, zlen in *. by rewrite <- E. Qed.

Lemma sorted_ends (l : list Z) :
  StronglySorted Z.le l -> l <> [] ->
  exists lo hi, head l = Some lo /\ last l = Some hi /\ lo ∈ l /\ hi ∈ l /\ forall v, v ∈ l -> lo <= v <= hi.
Proof.
  intros Hs Hne. destruct l as [|lo l]; [done|]. destruct (last (lo :: l)) as [hi|] eqn:El.
  2: { by apply last_None in El. }
  exists lo, hi. pose proof El as Eh. apply last_Some_elem_of in Eh. split_and!; try done; [by left|].
  intros v (j & Hj)%list_elem_of_lookup. rewrite last_lookup in El.
  pose proof (lookup_lt_Some _ _ _ Hj) as Hlt. split.
  - destruct j as [|j]; [by injection Hj as ->|]. by apply (sorted_lookup _ (lo :: l) 0 (S j) _ _ Hs); [lia| |].
  - destruct (decide (j = pred (length (lo :: l)))) as [->|]; [simplify_eq; lia|].
    by apply (sorted_lookup _ (lo :: l) j (pred (length (lo :: l))) _ _ Hs); [lia| |].
Qed.

(** * Main theorems *)

(** What a latency summary says. For any samples spread over any threads, the summary
    counts them all; its minimum and maximum are the least and the greatest sample; and
    each percentile is, in microseconds, a sample that was observed, the nearest-rank
    one: at least [rank] samples are no greater and fewer than [rank] are smaller. No
    samples give the empty summary. *)
Theorem summary_observes cast per_thread :
  let all := concat (map nanos per_thread) in
  let s := summarize cast per_thread in
  s_count s = zlen all /\
  (all = [] -> s = empty_summary) /\
  (all <> [] ->
   (exists lo hi, min_us s = to_us lo /\ max_us s = to_us hi /\ lo ∈ all /\ hi ∈ all /\
      forall v, v ∈ all -> lo <= v <= hi) /\
   Forall (fun '(p, value) => exists v, value = to_us v /\
     nearest_rank all (percentile_index cast (zlen all) p + 1) v)
     [(d0_50, p50_us s); (d0_90, p90_us s); (d0_99, p99_us s); (d0_999, p999_us s)]).
Proof.
  cbv zeta. unfold summarize. set (all := concat (map nanos per_thread)).
  destruct all as [|x0 l0] eqn:Eall; [by split_and!|]. rewrite <- Eall. clearbody all.
  assert (Hne : all <> []) by (by rewrite Eall). clear x0 l0 Eall.
  pose proof (sort_samples_perm all) as Hp. pose proof (sort_samples_sorted all) as Hs.
  assert (Hne' : sort_samples all <> []).
  { intros E. rewrite E in Hp. by apply Permutation_nil_l in Hp. }
  assert (Hlen : zlen (sort_samples all) = zlen all) by (unfold zlen; by rewrite Hp).
  cbn [s_count min_us max_us p50_us p90_us p99_us p999_us]. split; [done|]. split; [done|]. intros _. split.
  - destruct (sorted_ends _ Hs Hne') as (lo & hi & -> & -> & H1 & H2 & H3). exists lo, hi.
    rewrite Hp in H1, H2. split_and!; try done. intros v Hv. apply H3. by rewrite Hp.
  - assert (H : forall p, exists v, percentile_us cast (sort_samples all) p = to_us v /\
      nearest_rank all (percentile_index cast (zlen all) p + 1) v).
    { intros p. destruct (percentile_nearest cast (sort_samples all) p Hs Hne') as (v & E & Hr).
      exists v. split; [done|]. rewrite Hlen in Hr. by apply (nearest_rank_perm _ _ _ _ Hp). }
    repeat (apply Forall_cons; split; [apply H|]). by apply Forall_nil.
Qed.

(** The summary is a function of the samples, not of how threads shared them. *)
Theorem summary_split_irrelevant cast threads1 threads2 :
  concat (map nanos threads1) ≡ₚ concat (map nanos threads2) ->
  summarize cast threads1 = summarize cast threads2.
Proof.
  intros E. unfold summarize. pose proof (sort_samples_eq _ _ E) as Es.
  destruct (concat (map nanos threads1)) as [|x1 l1], (concat (map nanos threads2)) as [|x2 l2].
  - done.
  - by apply Permutation_nil_l in E.
  - by apply Permutation_nil_r in E.
  - by rewrite Es.
Qed.

(** ** The median *)

(** Counting runs is counting their indices. *)
Lemma filter_indices {A} (P : A -> Prop) (Hdec : forall x, Decision (P x)) (Q : nat -> Prop)
    (Hdec' : forall i, Decision (Q i)) (l : list A) n :
  (forall i x, l !! i = Some x -> Q (n + i)%nat <-> P x) ->
  length (filter Q (seq n (length l))) = length (filter P l).
Proof.
  revert n. induction l as [|x l IH]; intros n H; [done|]. cbn [length seq]. rewrite !filter_cons.
  pose proof (H O x eq_refl) as H0. rewrite Nat.add_0_r in H0.
  specialize (IH (S n)). assert (Hl : length (filter Q (seq (S n) (length l))) = length (filter P l)).
  { apply IH. intros i y Hi. rewrite <- (H (S i) y Hi). by rewrite Nat.add_succ_r. }
  destruct (decide (Q n)), (decide (P x)); cbn; tauto || congruence.
Qed.

Section MedianLaws.
Context {S : StdSort} {L : StdSortLaws S} {Result : Type} (throughput : Result -> double).

(** With a run there is a median, whatever the throughputs. *)
Lemma median_some (runs : list Result) : runs <> [] -> is_Some (median_by throughput runs).
Proof.
  intros Hne. pose proof (sort_permutes (key_order (fun i => default d0 (throughput <$> runs !! i))) (seq 0 (length runs))) as Hp.
  unfold median_by. change (std_sort _ _) with (run_order throughput runs) in Hp.
  destruct (lookup_lt_is_Some_2 (run_order throughput runs) (length runs / 2)) as [i Hi].
  { rewrite Hp, length_seq. apply Nat.div_lt; [|lia]. destruct runs; [done|]. cbn. lia. }
  rewrite Hi. cbn. apply list_elem_of_lookup_2 in Hi. rewrite Hp in Hi. apply elem_of_seq in Hi.
  apply lookup_lt_is_Some_2. lia.
Qed.

(** The run that is reported. Whatever [std::sort] does with runs of equal
    throughput, the run chosen is one of the runs, at most half of the runs are slower
    and at most half are faster. *)
Theorem median_splits_runs (runs : list Result) :
  runs <> [] -> (forall r, r ∈ runs -> is_nan (throughput r) = false) ->
  exists r, median_by throughput runs = Some r /\ r ∈ runs /\
    (2 * length (filter (fun x => d_ltb (throughput x) (throughput r) = true) runs) <= length runs)%nat /\
    (2 * length (filter (fun x => d_ltb (throughput r) (throughput x) = true) runs) <= length runs)%nat.
Proof.
  intros Hne Hnan. set (key := fun i : nat => default d0 (throughput <$> runs !! i)).
  assert (Hkey : forall i r, runs !! i = Some r -> key i = throughput r) by (intros i r E; unfold key; by rewrite E).
  pose proof (sort_permutes (key_order key) (seq 0 (length runs))) as Hperm.
  pose proof (sort_sorts key (seq 0 (length runs))) as Hsort.
  assert (Hsorted : StronglySorted (fun a b => d_ltb (key b) (key a) = false) (run_order throughput runs)).
  { apply Hsort. intros i Hi. apply elem_of_seq in Hi. destruct (lookup_lt_is_Some_2 runs i) as [r Hr]; [lia|].
    rewrite (Hkey i r Hr). apply Hnan. by eapply list_elem_of_lookup_2. }
  clear Hsort. change (std_sort (key_order key) (seq 0 (length runs))) with (run_order throughput runs) in Hperm.
  assert (Hlen : length (run_order throughput runs) = length runs) by (rewrite Hperm; apply length_seq).
  assert (Hn : (0 < length runs)%nat) by (destruct runs; [done|cbn; lia]).
  pose proof (Nat.div_lt (length runs) 2 Hn ltac:(lia)) as Hhalf.
  pose proof (Nat.div_mod (length runs) 2 ltac:(lia)) as Hdm. pose proof (Nat.mod_upper_bound (length runs) 2 ltac:(lia)).
  destruct (lookup_lt_is_Some_2 (run_order throughput runs) (length runs / 2)) as [m Hm]; [lia|].
  assert (m ∈ seq 0 (length runs)) as Hin%elem_of_seq by (rewrite <- Hperm; by eapply list_elem_of_lookup_2).
  destruct (lookup_lt_is_Some_2 runs m) as [r Hr]; [lia|]. exists r. unfold median_by. rewrite Hm.
  split; [done|]. split; [by eapply list_elem_of_lookup_2|].
  assert (Hcount : forall f : double -> bool, length (filter (fun x => f (throughput x) = true) runs) =
    length (filter (fun i => f (key i) = true) (run_order throughput runs))).
  { intros f. rewrite Hperm. symmetry. apply filter_indices. intros i x Hi. cbn. by rewrite (Hkey i x Hi). }
  rewrite <- (Hkey m r Hr). split.
  - pose proof (Hcount (fun k => d_ltb k (key m))) as Hc. cbn beta in Hc. rewrite Hc.
    assert (length (filter (fun i => d_ltb (key i) (key m) = true) (run_order throughput runs)) <= length runs / 2)%nat; [|lia].
    apply filter_before. intros j i Hj Hi. destruct (decide (j < length runs / 2)%nat); [done|exfalso].
    destruct (decide (j = length runs / 2)%nat) as [->|]; [simplify_eq; by rewrite d_ltb_irrefl in Hi|].
    rewrite (sorted_lookup _ _ (length runs / 2) j _ _ Hsorted) in Hi; [done|lia|done..].
  - pose proof (Hcount (fun k => d_ltb (key m) k)) as Hc. cbn beta in Hc. rewrite Hc.
    assert (length (filter (fun i => d_ltb (key m) (key i) = true) (run_order throughput runs)) + Datatypes.S (length runs / 2) <=
      length (run_order throughput runs))%nat; [|lia].
    apply filter_after; [lia|]. intros j i Hj Hi. destruct (decide (length runs / 2 < j)%nat); [done|exfalso].
    destruct (decide (j = length runs / 2)%nat) as [->|]; [simplify_eq; by rewrite d_ltb_irrefl in Hi|].
    rewrite (sorted_lookup _ _ j (length runs / 2) _ _ Hsorted) in Hi; [done|lia|done..].
Qed.
End MedianLaws.

(** * Witnesses *)

(** Insertion sort, one of the functions [std::sort] may be. *)
Fixpoint sort_insert {A} (comp : A -> A -> bool) (x : A) (l : list A) : list A :=
  match l with
  | [] => [x]
  | y :: l => if comp y x then y :: sort_insert comp x l else x :: y :: l
  end.
Definition insertion_sort : StdSort := {| std_sort A comp l := foldr (sort_insert comp) [] l |}.

Lemma sort_insert_perm {A} (comp : A -> A -> bool) x l : sort_insert comp x l ≡ₚ x :: l.
Proof. induction l as [|y l IH]; cbn; [done|]. destruct (comp y x); [|done]. rewrite IH. apply Permutation_swap. Qed.

Lemma not_less_trans a b c :
  is_nan a = false -> is_nan b = false -> is_nan c = false ->
  d_ltb b a = false -> d_ltb c b = false -> d_ltb c a = false.
Proof.
  intros Ha Hb Hc H1 H2. destruct (d_ltb c a) eqn:E; [|done]. apply d_ltb_key in E; [|done..].
  destruct (key_lt_total (d_key b) (d_key a)) as [H|[H|H]].
  - by rewrite (proj2 (d_ltb_key b a Hb Ha) H) in H1.
  - rewrite <- H in E. by rewrite (proj2 (d_ltb_key c b Hc Hb) E) in H2.
  - rewrite (proj2 (d_ltb_key c b Hc Hb) (key_lt_trans _ _ _ E H)) in H2. done.
Qed.

Lemma sort_insert_sorted {A} (key : A -> double) x l :
  is_nan (key x) = false -> Forall (fun a => is_nan (key a) = false) l ->
  StronglySorted (fun a b => d_ltb (key b) (key a) = false) l ->
  StronglySorted (fun a b => d_ltb (key b) (key a) = false) (sort_insert (key_order key) x l).
Proof.
  intros Hx Hl Hs. induction Hs as [|y l Hs IH Hy]; cbn; [by repeat constructor|].
  apply Forall_cons_1 in Hl as [Hyn Hl]. unfold key_order at 1. destruct (d_ltb (key y) (key x)) eqn:E.
  - constructor; [by apply IH|]. rewrite sort_insert_perm. apply Forall_cons. split; [|done].
    destruct (d_ltb (key x) (key y)) eqn:E'; [|done]. apply d_ltb_key in E, E'; [|done..].
    by destruct (key_lt_irrefl _ (key_lt_trans _ _ _ E E')).
  - constructor; [by constructor|]. apply Forall_cons. split; [done|]. rewrite Forall_forall in Hy, Hl |- *.
    intros z Hz. apply (not_less_trans (key x) (key y) (key z)); auto.
Qed.

Lemma insertion_sort_laws : StdSortLaws insertion_sort.
Proof.
  split.
  - intros A comp l. cbn. induction l as [|x l IH]; [done|]. cbn. by rewrite sort_insert_perm, IH.
  - intros A key l Hn. cbn.
    assert (H : Forall (fun a => is_nan (key a) = false) (foldr (sort_insert (key_order key)) [] l) /\
      StronglySorted (fun a b => d_ltb (key b) (key a) = false) (foldr (sort_insert (key_order key)) [] l)); [|apply H].
    induction l as [|x l IH]; [split; constructor|]. cbn. destruct IH as [I1 I2].
    { intros a Ha. apply Hn. by right. }
    assert (is_nan (key x) = false) by (apply Hn; by left). split; [|by apply sort_insert_sorted].
    rewrite sort_insert_perm. by apply Forall_cons.
Qed.

Lemma median_splits_runs_witness :
  median_by (H := insertion_sort) (fun x => x) [d0_3; d2; d0_1; d1] = Some d1 /\
  exists r, median_by (H := insertion_sort) (fun x => x) [d0_3; d2; d0_1; d1] = Some r.
Proof.
  split; [vm_compute; reflexivity|].
  destruct (median_splits_runs (L := insertion_sort_laws) (fun x : double => x) [d0_3; d2; d0_1; d1]) as (r & H & _).
  - discriminate.
  - intros r Hr. repeat (apply elem_of_cons in Hr as [->|Hr]; [vm_compute; reflexivity|]). by apply elem_of_nil in Hr.
  - by exists r.
Defined.

(** Ten samples on two threads: the median is the fifth, the tail percentiles the last. *)
Example sample_summary :
  let s := summarize (fun _ => 0) [MkSamples [9; 1; 4; 2000; 3]; MkSamples [7; 5; 8; 2; 6]] in
  (s_count s, p50_us s, p90_us s, p99_us s, max_us s) = (10, to_us 5, to_us 9, to_us 2000, to_us 2000).
Proof. vm_compute. reflexivity. Qed.
