(* ===== verification/Workload.v ===== *)
(** Workload: the keys and items the benchmarks use (bench/workload.hpp).

    The random numbers are what the engine and the distributions of the standard library
    drew, arguments of [next]. Shown: a key drawn is always one of the items, whatever the
    drawn numbers and the floating-point table; the binary search of [std::lower_bound]
    finds what a scan from the front finds; and the benchmark's items are those the
    command line client seeds, with distinct ids, all of which the daemon accepts. *)
From stdpp Require Import base option list.
From S2P Require Import Prelude Binary64 Item Message Codec Scorer ExposureStore Noise Handler Connection Cli.

(** * Keys *)

Record KeyDistribution := MkDistribution {
  key_count_ : Z;
  theta_ : double;
  cdf_ : list double
}.

Section Keys.
Variable std_pow : double -> double -> double.

(** The running sums [1 / 1^theta + ... + 1 / (i+1)^theta], from index [i] on. *)
Fixpoint harmonic (theta : double) (n : nat) (i : Z) (total : double) : list double * double :=
  match n with
  | O => ([], total)
  | S n =>
      let total := d_add total (d_div d1 (std_pow (double_of_Z (i + 1)) theta)) in
      let '(sums, final) := harmonic theta n (i + 1) total in (total :: sums, final)
  end.

Definition distribution_new (key_count : Z) (theta : double) : KeyDistribution :=
  if d_leb theta d0 then MkDistribution key_count theta []
  else
    let '(sums, total) := harmonic theta (Z.to_nat key_count) 0 d0 in
    MkDistribution key_count theta (map (fun value => d_div value total) sums).
End Keys.

(** [std::lower_bound]: the loop on [first] and the length left. Every turn shortens it,
    so the length is enough fuel. *)
Fixpoint lower_bound_loop (fuel : nat) (table : list double) (sample : double) (first len : nat) : nat :=
  match fuel with
  | O => first
  | S fuel =>
      if (len =? 0)%nat then first
      else
        let half := Nat.div2 len in
        let middle := (first + half)%nat in
        if d_ltb (default d0 (table !! middle)) sample
        then lower_bound_loop fuel table sample (middle + 1) (len - half - 1)
        else lower_bound_loop fuel table sample first half
  end.
Definition lower_bound (table : list double) (sample : double) : nat :=
  lower_bound_loop (length table) table sample 0 (length table).

(** [uniform] and [sample] are what the two distributions draw. *)
Definition next_key (uniform : Z) (sample : double) (k : KeyDistribution) : Z :=
  if d_leb (theta_ k) d0 then uniform
  else Z.min (Z.of_nat (lower_bound (cdf_ k) sample)) (key_count_ k - 1).

(** * Items *)

Definition key_at (index : Z) : ItemId := wrap 64 (index + 1).

Definition make_item (now : Timestamp) (i : Z) : Item :=
  MkItem (key_at i)
    (default [] (kCategories !! Z.to_nat (i mod 6)))
    (default [] (kAdvertisers !! Z.to_nat (i mod 4)))
    (d_add d0_05 (d_div (d_mul d0_95 (double_of_Z (i mod 20))) d19))
    (now - (i mod 240) * 3600000) (from_epoch_millis 0).

Definition make_items (count : Z) (now : Timestamp) : list Item :=
  map (fun i => make_item now (Z.of_nat i)) (seq 0 (Z.to_nat count)).

Definition d0_9 : double := MkDouble 0x3FECCCCCCCCCCCCD.
Definition d0_2 : double := MkDouble 0x3FC999999999999A.
Definition make_signal : UserSignal :=
  MkSignal [MkAffinity (str "tech") d0_9; MkAffinity (str "sport") d0_5; MkAffinity (str "travel") d0_2] [].

(** * The search *)

(** The reference: the first entry that is not below the sample. *)
Fixpoint first_not_below (table : list double) (sample : double) : nat :=
  match table with
  | [] => O
  | x :: table => if d_ltb x sample then S (first_not_below table sample) else O
  end.

(** Once an entry is not below the sample, no later one is. *)
Definition partitioned (table : list double) (sample : double) : Prop :=
  forall i j x y, (i <= j)%nat -> table !! i = Some x -> table !! j = Some y ->
    d_ltb y sample = true -> d_ltb x sample = true.

Lemma lower_bound_range table sample : (lower_bound table sample <= length table)%nat.
Proof.
  unfold lower_bound.
  assert (H : forall fuel first len, (first + len <= length table)%nat ->
    (lower_bound_loop fuel table sample first len <= length table)%nat); [|by apply H].
  induction fuel as [|fuel IH]; intros first len Hle; cbn [lower_bound_loop]; [lia|].
  destruct (Nat.eqb_spec len 0); [lia|]. pose proof (Nat.lt_div2 len ltac:(lia)).
  destruct (d_ltb _ _); apply IH; lia.
Qed.

(** The result splits the table. *)
Lemma lower_bound_splits table sample :
  partitioned table sample ->
  (forall j x, (j < lower_bound table sample)%nat -> table !! j = Some x -> d_ltb x sample = true) /\
  (forall j x, (lower_bound table sample <= j)%nat -> table !! j = Some x -> d_ltb x sample = false).
Proof.
  intros Hp. unfold lower_bound.
  assert (H : forall fuel first len, (first + len <= length table)%nat -> (len <= fuel)%nat ->
    (forall j x, (j < first)%nat -> table !! j = Some x -> d_ltb x sample = true) ->
    (forall j x, (first + len <= j)%nat -> table !! j = Some x -> d_ltb x sample = false) ->
    let r := lower_bound_loop fuel table sample first len in
    (forall j x, (j < r)%nat -> table !! j = Some x -> d_ltb x sample = true) /\
    (forall j x, (r <= j)%nat -> table !! j = Some x -> d_ltb x sample = false)).
  2: { apply H; [lia..| |]; intros j x Hj Hx; [lia|]. apply lookup_lt_Some in Hx. lia. }
  induction fuel as [|fuel IH]; intros first len Hle Hfuel Hlo Hhi; cbn [lower_bound_loop].
  { assert (len = O) as -> by lia. rewrite Nat.add_0_r in Hhi. by split. }
  destruct (Nat.eqb_spec len 0) as [->|Hlen]; [rewrite Nat.add_0_r in Hhi; by split|].
  pose proof (Nat.lt_div2 len ltac:(lia)) as Hhalf. set (half := Nat.div2 len) in *.
  destruct (lookup_lt_is_Some_2 table (first + half)) as [m Hm]; [lia|]. rewrite Hm. cbn [default from_option id].
  destruct (d_ltb m sample) eqn:E; apply IH; try lia; try done.
  - intros j x Hj Hx. apply (Hp j (first + half)%nat x m); [lia|done..].
  - intros j x Hj Hx. apply (Hhi j); [lia|done].
  - intros j x Hj Hx. destruct (d_ltb x sample) eqn:Ex; [|done].
    by rewrite (Hp (first + half)%nat j m x Hj Hm Hx Ex) in E.
Qed.

Lemma first_not_below_unique table sample r :
  (r <= length table)%nat ->
  (forall j x, (j < r)%nat -> table !! j = Some x -> d_ltb x sample = true) ->
  (forall j x, (r <= j)%nat -> table !! j = Some x -> d_ltb x sample = false) ->
  r = first_not_below table sample.
Proof.
  revert r. induction table as [|x table IH]; intros r Hr Hlo Hhi; cbn in *; [lia|]. destruct r as [|r].
  - by rewrite (Hhi O x) by (done || lia).
  - rewrite (Hlo O x) by (done || lia). f_equal. apply IH; [lia| |].
    + intros j y Hj Hy. apply (Hlo (S j)); [lia|done].
    + intros j y Hj Hy. apply (Hhi (S j)); [lia|done].
Qed.

(** * Main theorems *)

(** Drawing a key. Whatever the table holds and whatever is drawn, the key is below the
    key count, so that indexing the items with it is in bounds; and with a table that
    does not decrease, a Zipf draw is the first index whose cumulative share reaches the
    sample, or the last key, exactly as a linear scan would find it. *)
Theorem key_in_range (uniform : Z) (sample : double) (k : KeyDistribution) :
  0 < key_count_ k -> 0 <= uniform < key_count_ k ->
  0 <= next_key uniform sample k < key_count_ k /\
  (d_leb (theta_ k) d0 = false -> partitioned (cdf_ k) sample ->
   next_key uniform sample k = Z.min (Z.of_nat (first_not_below (cdf_ k) sample)) (key_count_ k - 1)).
Proof.
  intros Hk Hu. unfold next_key. split.
  - destruct (d_leb (theta_ k) d0); [done|]. lia.
  - intros -> Hp. destruct (lower_bound_splits _ _ Hp) as [H1 H2].
    by rewrite (first_not_below_unique _ _ _ (lower_bound_range (cdf_ k) sample) H1 H2).
Qed.

(** The benchmark's items. For any count an id can number and a clock ten days away
    from its limits, they are exactly the items the client's "seed" stores, their ids are
    1 to the count without repetition, and every one is well-formed for the protocol and
    accepted by the daemon. *)
Theorem bench_items_seeded (count : Z) (now : Timestamp) :
  0 <= count < 2 ^ 64 -> clock_ok now ->
  make_items count now = map (fun i => seed_item now (Z.of_nat i)) (seq 0 (Z.to_nat count)) /\
  map item_id (make_items count now) = map (fun i => Z.of_nat i + 1) (seq 0 (Z.to_nat count)) /\
  NoDup (map item_id (make_items count now)) /\
  Forall (fun item => wf_item item /\ valid_put item = true) (make_items count now).
Proof.
  intros Hc Hclock.
  assert (Hids : map item_id (make_items count now) = map (fun i => Z.of_nat i + 1) (seq 0 (Z.to_nat count))).
  { unfold make_items. rewrite map_map. apply map_ext_in. intros i Hi%in_seq. cbn. unfold key_at.
    apply wrap_small. unfold fits. lia. }
  split_and!; [done|done| |].
  - rewrite Hids. apply NoDup_fmap_2; [|apply NoDup_seq]. intros i j E. lia.
  - unfold make_items. apply Forall_fmap, Forall_forall. intros i Hi%elem_of_seq.
    apply (seed_item_ok now (Z.of_nat i)); [done|lia].
Qed.

(** * Witnesses *)

Definition harmonic_pow (x _ : double) : double := x.
Definition sample_keys : KeyDistribution := distribution_new harmonic_pow 6 d1.

Lemma key_in_range_witness :
  next_key 0 d0_5 sample_keys = 1 /\ 0 <= next_key 0 d0_5 sample_keys < 6.
Proof.
  split; [vm_compute; reflexivity|]. refine (proj1 (key_in_range 0 d0_5 sample_keys _ _)); vm_compute; by split.
Defined.

Lemma bench_items_seeded_witness : NoDup (map item_id (make_items 3 1000)).
Proof.
  refine (proj1 (proj2 (proj2 (bench_items_seeded 3 1000 _ _)))); [lia|].
  unfold clock_ok. lia.
Defined.
