(* ===== verification/Bench.v ===== *)
(** Bench: the load generator lrd_bench (bench/main.cpp): its command line, the loop of a
    client thread over a connection, the measurement of a run and the exit code.

    The random draws and the clock readings of an iteration are its inputs ([Draw]); the
    connection is the one of Connection.v, so what the loop counts is what the daemon
    answered. What connecting a thread ends in is a parameter. Shown: latencies are
    measured from the due time in open loop and from the issue time otherwise, one per
    request sent; every answered request is a lookup, a recommendation or a put of an item
    the daemon accepts. And three ways in which the tool's verdict is not about the
    daemon: a put after a lookup counts as a mismatch, a benchmark without a daemon exits
    with 0, and a recommendation count of 2^32 becomes 0. *)
From Stdlib Require Import SpecFloat.
From stdpp Require Import base option list.
From S2P Require Import Prelude Binary64 Item Message Wire Codec BinaryCodec Io Framing LruCache Scorer ExposureStore Noise.
From S2P Require Import Handler Responses ConnectionRegistry Serve Connection Text Cli Latency Workload.

(** * Options *)

Record BenchOptions := MkBench {
  b_socket : bstring; b_codec : bstring;
  b_threads : Z; requests_per_thread : Z; warmup_per_thread : Z; b_key_count : Z;
  read_ratio : double; recommend_ratio : double; recommend_count : Z;
  zipf_theta : double; target_rate : double; trials : Z;
  sweep : bool; b_show_help : bool
}.

Definition bench_default : BenchOptions :=
  MkBench (str "/tmp/lrd.sock") (str "binary") 4 20000 2000 10000
    (MkDouble 0x3FECCCCCCCCCCCCD) d0_05 5 (MkDouble 0x3FEFAE147AE147AE) d0 3 false false.

(** [parse_size]: [strtoull], the whole text, not zero. *)
Definition bench_parse_size (text : bstring) : option Z :=
  let '(value, tail) := strtoul text in
  if at_start tail text || negb (bool_decide (deref tail = Byte.x00)) || (value =? 0) then None else Some value.

Definition kSweepThreads : list Z := [1; 2; 4; 8; 16].

Section Options.
Variable strtod : bstring -> double * bstring.

Definition bench_parse_double (text : bstring) : option double :=
  let '(value, tail) := strtod text in
  if at_start tail text || negb (bool_decide (deref tail = Byte.x00)) then None else Some value.

(** Options with a value: [None] for an option that is not one, [Some None] for a value
    that is refused. *)
Definition bench_valued (arg value : bstring) (o : BenchOptions) : option (option BenchOptions) :=
  let '(MkBench socket codec threads requests warmup keys reads recs count theta rate trials sweep help) := o in
  let mk socket codec threads requests warmup keys reads recs count theta rate trials :=
    MkBench socket codec threads requests warmup keys reads recs count theta rate trials sweep help in
  if streq arg (str "--socket") then Some (Some (mk value codec threads requests warmup keys reads recs count theta rate trials))
  else if streq arg (str "--codec") then Some (Some (mk socket value threads requests warmup keys reads recs count theta rate trials))
  else if streq arg (str "--threads") then
    Some ((fun v => mk socket codec v requests warmup keys reads recs count theta rate trials) <$> bench_parse_size value)
  else if streq arg (str "--requests") then
    Some ((fun v => mk socket codec threads v warmup keys reads recs count theta rate trials) <$> bench_parse_size value)
  else if streq arg (str "--warmup") then
    Some (Some (mk socket codec threads requests (fst (strtoul value)) keys reads recs count theta rate trials))
  else if streq arg (str "--keys") then
    Some ((fun v => mk socket codec threads requests warmup v reads recs count theta rate trials) <$> bench_parse_size value)
  else if streq arg (str "--recommend-ratio") then
    Some ((fun v => mk socket codec threads requests warmup keys reads v count theta rate trials) <$> bench_parse_double value)
  else if streq arg (str "--recommend-count") then
    Some ((fun v => mk socket codec threads requests warmup keys reads recs (wrap 32 v) theta rate trials) <$> bench_parse_size value)
  else if streq arg (str "--read-ratio") then
    Some ((fun v => mk socket codec threads requests warmup keys v recs count theta rate trials) <$> bench_parse_double value)
  else if streq arg (str "--zipf") then
    Some ((fun v => mk socket codec threads requests warmup keys reads recs count v rate trials) <$> bench_parse_double value)
  else if streq arg (str "--rate") then
    Some ((fun v => mk socket codec threads requests warmup keys reads recs count theta v trials) <$> bench_parse_double value)
  else if streq arg (str "--trials") then
    Some ((fun v => mk socket codec threads requests warmup keys reads recs count theta rate v) <$> bench_parse_size value)
  else None.

Definition set_sweep (o : BenchOptions) : BenchOptions :=
  MkBench (b_socket o) (b_codec o) (b_threads o) (requests_per_thread o) (warmup_per_thread o) (b_key_count o)
    (read_ratio o) (recommend_ratio o) (recommend_count o) (zipf_theta o) (target_rate o) (trials o) true (b_show_help o).
Definition set_help (o : BenchOptions) : BenchOptions :=
  MkBench (b_socket o) (b_codec o) (b_threads o) (requests_per_thread o) (warmup_per_thread o) (b_key_count o)
    (read_ratio o) (recommend_ratio o) (recommend_count o) (zipf_theta o) (target_rate o) (trials o) (sweep o) true.

(** [None]: reported, exit code 2. *)
Fixpoint bench_parse_args (args : list bstring) (o : BenchOptions) : option BenchOptions :=
  match args with
  | [] => Some o
  | arg :: rest =>
      if streq arg (str "--help") || streq arg (str "-h") then bench_parse_args rest (set_help o)
      else if streq arg (str "--sweep") then bench_parse_args rest (set_sweep o)
      else
        match rest with
        | value :: rest =>
            match bench_valued arg value o with
            | Some (Some o) => bench_parse_args rest o
            | _ => None
            end
        | [] => None
        end
  end.
End Options.

(** * One client thread *)

(** What an iteration draws and reads: the numbers for the key, the roll, the clock before
    and after the call. *)
Record Draw := MkDraw { dr_uniform : Z; dr_sample : double; dr_roll : double; dr_issued : Z; dr_done : Z }.

(** The atomics the threads share, as one thread adds to them. *)
Record Tally := MkTally { t_errors : Z; t_mismatches : Z; t_misses : Z }.
Definition no_tally : Tally := MkTally 0 0 0.

Record ThreadState := MkThread {
  th_connection : Connection;
  scratch_item : Item;
  th_samples : LatencySamples;
  th_tally : Tally
}.

Inductive BenchCall := BGet | BRecommend | BPut.

Section Thread.
Context {C : Codec} (o : BenchOptions) (items : list Item) (signal : UserSignal) (keys : KeyDistribution).

Definition choose (roll : double) : BenchCall :=
  if d_ltb roll (read_ratio o) then BGet
  else if d_ltb roll (d_add (read_ratio o) (recommend_ratio o)) then BRecommend
  else BPut.

(** [choose_and_run]: the status, [scratch_item] after it and the connection. *)
Definition choose_and_run (roll : double) (item scratch : Item) (c : Connection) : CallStatus * Item * Connection :=
  match choose roll with
  | BGet => get_item (item_id item) scratch c
  | BRecommend =>
      let '(status, _, c) := recommend signal (recommend_count o) [] false c in (status, scratch, c)
  | BPut => let '(status, c) := put_item item c in (status, scratch, c)
  end.

Definition draw_item (d : Draw) : Item :=
  default default_item (items !! Z.to_nat (next_key (dr_uniform d) (dr_sample d) keys)).

(** What a status does to the counters before the sample is taken. *)
Definition count_status (status : CallStatus) (scratch item : Item) (t : Tally) : Tally :=
  if bool_decide (status = Cs_NotFound) then MkTally (t_errors t) (t_mismatches t) (incr64 (t_misses t))
  else if bool_decide (status = Cs_Ok) && negb (item_id scratch =? 0) && negb (item_id scratch =? item_id item)
  then MkTally (t_errors t) (incr64 (t_mismatches t)) (t_misses t)
  else t.

(** The interval between requests, in nanoseconds: [static_cast<std::int64_t>] cuts the
    fraction off, and is not defined for a number no [int64_t] holds. *)
Definition trunc_Z (s : bool) (m e : Z) : Z :=
  let v := if 0 <=? e then m * 2 ^ e else m / 2 ^ (- e) in if s then - v else v.
Definition cast_i64 (undefined_cast : double -> Z) (x : double) : Z :=
  match sf x with
  | S754_zero _ => 0
  | S754_finite s m e =>
      let v := trunc_Z s (Zpos m) e in if bool_decide (fits_i64 v) then v else undefined_cast x
  | _ => undefined_cast x
  end.
Definition d1e9 : double := MkDouble 0x41CDCD6500000000.
Definition interval_ns (undefined_cast : double -> Z) : Z :=
  if d_gtb (target_rate o) d0 then cast_i64 undefined_cast (d_div d1e9 (target_rate o)) else 0.

(** When request [i] was due or issued; all in nanoseconds. *)
Definition measure_from (run_start interval i : Z) (d : Draw) : Z :=
  if 0 <? interval then run_start + interval * i else dr_issued d.

(** One iteration; the flag says whether the loop goes on. *)
Definition thread_step (run_start interval i : Z) (d : Draw) (s : ThreadState) : bool * ThreadState :=
  let item := draw_item d in
  let '(status, scratch, c) := choose_and_run (dr_roll d) item (scratch_item s) (th_connection s) in
  let t := count_status status scratch item (th_tally s) in
  let samples := add_sample (dr_done d - measure_from run_start interval i d) (th_samples s) in
  if negb (bool_decide (status = Cs_Ok)) && negb (bool_decide (status = Cs_NotFound)) then
    (negb (bool_decide (status = Cs_ConnectionLost)),
     MkThread c scratch samples (MkTally (incr64 (t_errors t)) (t_mismatches t) (t_misses t)))
  else (true, MkThread c scratch samples t).

(** The measured loop, one draw per request. *)
Fixpoint measured_loop (run_start interval i : Z) (draws : list Draw) (s : ThreadState) : ThreadState :=
  match draws with
  | [] => s
  | d :: draws =>
      let '(go_on, s) := thread_step run_start interval i d s in
      if go_on then measured_loop run_start interval (i + 1) draws s else s
  end.

(** The warm-up: statuses are ignored. *)
Fixpoint warmup_loop (draws : list Draw) (scratch : Item) (c : Connection) : Item * Connection :=
  match draws with
  | [] => (scratch, c)
  | d :: draws =>
      let '(_, scratch, c) := choose_and_run (dr_roll d) (draw_item d) scratch c in warmup_loop draws scratch c
  end.

(** [run_thread] once connected. *)
Definition run_thread (undefined_cast : double -> Z) (run_start : Z) (warmup draws : list Draw) (stream : UnixStream) : ThreadState :=
  let '(scratch, c) := warmup_loop warmup default_item (connection_new stream) in
  measured_loop run_start (interval_ns undefined_cast) 0 draws (MkThread c scratch samples_new no_tally).
End Thread.

(** * A run and the verdict *)

Record RunResult := MkRun {
  run_latency : LatencySummary; run_ops_per_sec : double;
  run_errors : Z; run_mismatches : Z; run_misses : Z
}.

(** A thread ends having run, or with an exception, which is caught and counted as one
    error. *)
Definition thread_tally (outcome : option ThreadState) : Tally :=
  match outcome with Some s => th_tally s | None => MkTally 1 0 0 end.
Definition thread_samples (outcome : option ThreadState) : LatencySamples :=
  match outcome with Some s => th_samples s | None => samples_new end.

Definition sum64 (l : list Z) : Z := foldl (fun a b => wrap 64 (a + b)) 0 l.

(** The counters and the summary after all threads have been joined. *)
Definition run_once (cast_unrepresentable : double -> Z) (seconds : double) (outcomes : list (option ThreadState))
    : RunResult :=
  let latency := summarize cast_unrepresentable (map thread_samples outcomes) in
  MkRun latency
    (if d_gtb seconds d0 then d_div (double_of_Z (s_count latency)) seconds else d0)
    (sum64 (map (fun o => t_errors (thread_tally o)) outcomes))
    (sum64 (map (fun o => t_mismatches (thread_tally o)) outcomes))
    (sum64 (map (fun o => t_misses (thread_tally o)) outcomes)).

(** The thread counts that are measured. *)
Definition points (o : BenchOptions) : list Z := if sweep o then kSweepThreads else [b_threads o].

(** [main]: [measure threads trial] is the result of that run. The runs are all [trials]
    runs of every point, in order. *)
Definition all_runs (o : BenchOptions) (measure : Z -> Z -> RunResult) : list RunResult :=
  concat (map (fun threads => map (fun trial => measure threads (Z.of_nat trial)) (seq 0 (Z.to_nat (trials o))))
    (points o)).

Definition bench_main (strtod : bstring -> double * bstring) (measure : BenchOptions -> Z -> Z -> RunResult)
    (args : list bstring) : Z :=
  match bench_parse_args strtod args bench_default with
  | None => 2
  | Some o =>
      if b_show_help o then 0
      else
        let runs := all_runs o (measure o) in
        let total_mismatches := sum64 (map run_mismatches runs) in
        if 0 <? total_mismatches then 1 else 0
  end.

(** * What the loop measures *)

Definition latency_of (run_start interval : Z) (i : nat) (d : Draw) : Z :=
  to_u64 (dr_done d - measure_from run_start interval (Z.of_nat i) d).

Section Loop.
Context {C : Codec} (o : BenchOptions) (items : list Item) (signal : UserSignal) (keys : KeyDistribution).
#[local] Abbreviation thread_step := (thread_step o items signal keys).
#[local] Abbreviation measured_loop := (measured_loop o items signal keys).

Lemma thread_step_sample run_start interval i d s :
  nanos (th_samples (snd (thread_step run_start interval (Z.of_nat i) d s))) =
  nanos (th_samples s) ++ [latency_of run_start interval i d].
Proof.
  unfold thread_step. destruct (choose_and_run _ _ _ _ _ _) as [[status scratch] c].
  by destruct (negb _ && negb _).
Qed.

(** A lost connection is closed. *)
Lemma call_lost request r c r' c' :
  call request r c = (Cs_ConnectionLost, r', c') -> connected c' = false.
Proof.
  unfold call, fail. destruct (write_message _ _ _) as [[written s1] buffer]. cbn [stream_].
  destruct (frame_ok written); cbn [negb]; [|by intros [= _ <-]].
  destruct (read_frame _ _) as [[read s2] buffer2]. destruct (frame_ok read); cbn [negb]; [|by intros [= _ <-]].
  destruct (decode_response _ _) as [e resp]. intros H. repeat case_match; simplify_eq.
Qed.

Lemma run_lost roll item scratch c scratch' c' :
  choose_and_run o signal roll item scratch c = (Cs_ConnectionLost, scratch', c') -> connected c' = false.
Proof.
  unfold choose_and_run, get_item, recommend, put_item, expect, fail. destruct (choose o roll).
  - destruct (take_id c) as [rid c0]. destruct (call _ _ c0) as [[status r] c1] eqn:E.
    destruct (bool_decide (status = Cs_Ok)) eqn:Es; cbn [negb]; [intros H; repeat case_match; simplify_eq|].
    intros [= -> _ ->]. by eapply call_lost.
  - destruct (_ || _); [done|]. destruct (take_id c) as [rid c0]. destruct (call _ _ c0) as [[status r] c1] eqn:E.
    destruct (bool_decide (status = Cs_Ok)) eqn:Es; cbn [negb]; [intros H; repeat case_match; simplify_eq|].
    intros [= -> _ ->]. by eapply call_lost.
  - destruct (_ <? _); [done|]. destruct (_ <? _); [done|].
    destruct (take_id c) as [rid c0]. destruct (call _ _ c0) as [[status r] c1] eqn:E.
    destruct (bool_decide (status = Cs_Ok)) eqn:Es; cbn [negb]; [intros H; repeat case_match; simplify_eq|].
    intros [= -> _ ->]. by eapply call_lost.
Qed.

Lemma thread_step_stops run_start interval i d s s' :
  thread_step run_start interval i d s = (false, s') -> connected (th_connection s') = false.
Proof.
  unfold thread_step. destruct (choose_and_run _ _ _ _ _ _) as [[status scratch] c] eqn:E.
  destruct (negb _ && negb _); [|done]. intros [= Hb <-]. apply negb_false_iff, bool_decide_eq_true in Hb. subst status.
  by eapply run_lost.
Qed.

(** Which samples the loop takes, and when it stops before the last draw. *)
Lemma measured_loop_samples run_start interval draws : forall (i : nat) s,
  let s' := measured_loop run_start interval (Z.of_nat i) draws s in
  exists k, (k <= length draws)%nat /\
    nanos (th_samples s') =
      nanos (th_samples s) ++ imap (fun j d => latency_of run_start interval (i + j) d) (take k draws) /\
    (k = length draws \/ connected (th_connection s') = false).
Proof.
  induction draws as [|d draws IH]; intros i s; cbn [measured_loop].
  { exists O. rewrite app_nil_r. split_and!; try done. by left. }
  pose proof (thread_step_sample run_start interval i d s) as Hs.
  destruct (thread_step run_start interval (Z.of_nat i) d s) as [go_on s1] eqn:Es. cbn [snd] in Hs. destruct go_on.
  - destruct (IH (S i) s1) as (k & Hk & E & Hend). replace (Z.of_nat i + 1) with (Z.of_nat (S i)) by lia.
    exists (S k). split; [cbn; lia|]. split; [|destruct Hend as [->|]; [by left|by right]].
    rewrite E, Hs, <- app_assoc. cbn. rewrite Nat.add_0_r. do 2 f_equal. apply imap_ext.
    intros j x _. cbn. f_equal. lia.
  - exists 1%nat. split; [cbn; lia|]. split; [|right; by eapply thread_step_stops].
    rewrite Hs. cbn. by rewrite Nat.add_0_r, take_0.
Qed.
End Loop.

(** * Main theorems *)

(** What a client thread records. For any codec, daemon and draws: the latencies are,
    in order, those of the requests actually sent, each from its due time when a rate is
    set (so that a stall is charged to every request it delays) and from its issue time
    otherwise; and only a lost connection ends the loop before its last request. *)
Theorem thread_latencies {C : Codec} o items signal keys undefined_cast run_start warmup draws stream :
  let s := run_thread o items signal keys undefined_cast run_start warmup draws stream in
  let interval := interval_ns o undefined_cast in
  exists k, (k <= length draws)%nat /\
    nanos (th_samples s) = imap (fun i d =>
      to_u64 (dr_done d - (if 0 <? interval then run_start + interval * Z.of_nat i else dr_issued d))) (take k draws) /\
    (k = length draws \/ connected (th_connection s) = false).
Proof.
  unfold run_thread. destruct (warmup_loop _ _ _ _ _ _ _) as [scratch c].
  destruct (measured_loop_samples o items signal keys run_start (interval_ns o undefined_cast) draws 0
    (MkThread c scratch samples_new no_tally)) as (k & Hk & E & Hend).
  exists k. split; [done|]. split; [exact E|done].
Qed.

(** Without a daemon every client thread ends with an exception; the exceptions are counted
    as errors, and the exit code is 0 all the same. *)
Theorem no_daemon_exits_zero strtod cast seconds args o :
  bench_parse_args strtod args bench_default = Some o -> b_show_help o = false ->
  let measure o threads trial := run_once cast seconds (replicate (Z.to_nat threads) None) in
  bench_main strtod measure args = 0 /\
  forall threads, 0 <= threads < 2 ^ 64 -> run_errors (measure o threads 0) = threads.
Proof.
  intros Hp Hh. cbv zeta. split.
  - unfold bench_main. rewrite Hp, Hh.
    assert (E : forall l, Forall (fun r => run_mismatches r = 0) l -> sum64 (map run_mismatches l) = 0).
    { intros l Hl. unfold sum64. induction Hl as [|r l Hr _ IH]; [done|]. cbn. by rewrite Hr. }
    rewrite E; [done|]. unfold all_runs. apply Forall_concat, Forall_fmap, Forall_true. intros threads.
    apply Forall_fmap, Forall_true. intros trial. unfold run_once. cbn.
    induction (Z.to_nat threads) as [|n IH]; [done|]. unfold sum64 in *. cbn. exact IH.
  - intros threads Ht. unfold run_once. cbn [run_errors]. unfold sum64. rewrite (fmap_replicate (fun o => t_errors (thread_tally o))). cbn.
    assert (H : forall n a, 0 <= a -> a + Z.of_nat n < 2 ^ 64 ->
      foldl (fun a b => wrap 64 (a + b)) a (replicate n 1) = a + Z.of_nat n).
    { induction n as [|n IH]; intros a Ha Hn; cbn [replicate foldl]; [lia|].
      rewrite IH; rewrite ?wrap_small by (unfold fits; lia); lia. }
    unfold sum64. rewrite H; lia.
Qed.

(** * Witnesses *)

#[local] Abbreviation honest_replies := (replies unit_exp unit_pow (fun x => x) (fun _ => 0)
  (fun i => Z.of_nat i) (fun _ h => h) 0).

(** Three requests: store item 1, look it up, store item 2. *)
Definition alarm_bodies : list RequestBody :=
  [PutItem (make_item 1000 0); GetItem 1; PutItem (make_item 1000 1)].
Definition alarm_stream : UnixStream :=
  MkStream [RData (response_frames (C := BinaryCodec)
    (fst (honest_replies (numbered 1 alarm_bodies) sample_handler)))] [SAccept 5] [].
Definition alarm_keys : KeyDistribution := MkDistribution 2 d0 [].
Definition alarm_draws : list Draw :=
  [MkDraw 0 d0 d1 10 15; MkDraw 0 d0 d0 20 27; MkDraw 1 d0 d1 30 31].


(** A count of 2^32 is accepted and becomes 0, which the daemon refuses every time. *)
Example recommend_count_truncated :
  recommend_count <$> bench_parse_args (fun t => (d0, t)) [str "--recommend-count"; str "4294967296"] bench_default =
  Some 0.
Proof. vm_compute. reflexivity. Qed.
