(* ===== verification/CodecBench.v ===== *)
(** CodecBench: the codec microbenchmark lrd_codec_bench (bench/codec_bench.cpp): its command
    line, the messages it times, the timing loops over a scratch buffer and the table it
    prints.

    The clock readings of a trial are inputs; the codec is any implementation of the codec
    class, and [std::sort] is the class of Latency.v. A trial count of 0 makes [median_of]
    read an element of an empty vector, which is [None] here. Shown: within the limits of
    the protocol every decode that is timed succeeds and gives the message back, the size
    reported is that of the encoded message, and the row printed is one of the trials;
    beyond the limits, which the command line does not enforce, the tool times failing
    decodes. *)
From Stdlib Require Import Sorted.
From stdpp Require Import base option list.
From S2P Require Import Prelude Binary64 Item Message Wire Codec BinaryCodec Text Latency.

(** * Options *)

Record CodecOptions := MkCodecOptions {
  iterations : Z; warmup : Z; category_size : Z; recommend_items : Z; c_trials : Z; c_show_help : bool
}.
Definition codec_default : CodecOptions := MkCodecOptions 200000 20000 8 5 3 false.

(** This [parse_size] takes 0. *)
Definition codec_parse_size (text : bstring) : option Z :=
  let '(value, tail) := strtoul text in
  if at_start tail text || negb (bool_decide (deref tail = Byte.x00)) then None else Some value.

Definition codec_valued (arg value : bstring) (o : CodecOptions) : option (option CodecOptions) :=
  let '(MkCodecOptions iters warm size items trials help) := o in
  if streq arg (str "--iterations") then
    Some ((fun v => MkCodecOptions v warm size items trials help) <$> codec_parse_size value)
  else if streq arg (str "--category-size") then
    Some ((fun v => MkCodecOptions iters warm v items trials help) <$> codec_parse_size value)
  else if streq arg (str "--items") then
    Some ((fun v => MkCodecOptions iters warm size v trials help) <$> codec_parse_size value)
  else if streq arg (str "--trials") then
    Some ((fun v => MkCodecOptions iters warm size items v help) <$> codec_parse_size value)
  else None.

Fixpoint codec_parse_args (args : list bstring) (o : CodecOptions) : option CodecOptions :=
  match args with
  | [] => Some o
  | arg :: rest =>
      if streq arg (str "--help") || streq arg (str "-h") then
        codec_parse_args rest
          (MkCodecOptions (iterations o) (warmup o) (category_size o) (recommend_items o) (c_trials o) true)
      else
        match rest with
        | value :: rest =>
            match codec_valued arg value o with
            | Some (Some o) => codec_parse_args rest o
            | _ => None
            end
        | [] => None
        end
  end.

(** * The messages *)

(** [base + i % 26], in [char] arithmetic; the letters used stay below 128. *)
Definition filler (size base : Z) : bstring :=
  map (fun i => byte_of_Z (base + Z.of_nat i mod 26)) (seq 0 (Z.to_nat size)).

Definition bench_id : Z := 1234567890123456789.

Definition bench_item (o : CodecOptions) : Item :=
  MkItem bench_id (filler (category_size o) 97) (filler (category_size o) 65) (MkDouble 0x3FEA000000000000)
    (from_epoch_millis 1700000000000) (from_epoch_millis 1800000000000).

Definition bench_recommend (o : CodecOptions) : Recommend :=
  MkRecommend
    (MkSignal [MkAffinity (str "tech") (MkDouble 0x3FECCCCCCCCCCCCD); MkAffinity (str "sport") (MkDouble 0x3FE0000000000000);
      MkAffinity (str "travel") (MkDouble 0x3FC999999999999A)] [str "gambling"])
    (wrap 32 (recommend_items o)) false.

Definition bench_ranked (o : CodecOptions) (i : Z) : RankedItem :=
  MkRanked (i + 1) (d_div d1 (double_of_Z (i + 1))) (filler (category_size o) 97) (filler (category_size o) 65).

Definition bench_stats : Stats := MkStats 100 60 30 10 5 45 15 4 20 64 0 0 0 0 0.

(** A message of either direction. *)
Abbreviation BenchMessage := (Request + Response)%type.

(** The messages [run_codec] measures, with their labels, in order. *)
Definition bench_messages (o : CodecOptions) : list (bstring * BenchMessage) :=
  [(str "GetItemRequest", inl (MkRequest bench_id (GetItem 42)));
   (str "PutItemRequest", inl (MkRequest bench_id (PutItem (bench_item o))));
   (str "StatsRequest", inl (MkRequest 42 GetStats));
   (str "RecommendRequest", inl (MkRequest bench_id (RecommendBody (bench_recommend o))));
   (str "GetItemResponse", inr (MkResponse bench_id (GetItemResult SC_Ok (bench_item o))));
   (str "PutItemResponse", inr (MkResponse bench_id (PutItemResult SC_Ok)));
   (str "RecommendResponse", inr (MkResponse bench_id (RecommendResult SC_Ok
      (map (fun i => bench_ranked o (Z.of_nat i)) (seq 0 (Z.to_nat (recommend_items o)))))));
   (str "StatsResponse", inr (MkResponse (resp_id default_response) (StatsResult SC_Ok bench_stats)))].

(** * Timing *)

Record CaseResult := MkCase { encode_ns : double; decode_ns : double; wire_bytes : Z }.

(** The clock around the two timed loops. *)
Record Readings := MkReadings { encode_start : Z; encode_stop : Z; decode_start : Z; decode_stop : Z }.

Section Timing.
Context {Message : Type} (encode : Message -> ByteBuffer -> ByteBuffer)
  (decode : ByteBuffer -> Message -> DecodeError * Message) (message : Message).

(** Both loops reuse the buffer; [clear] keeps its storage, and its bytes are gone. *)
Fixpoint warm (n : nat) (st : ByteBuffer * Message) : ByteBuffer * Message :=
  match n with
  | O => st
  | S n =>
      let buffer := encode message [] in
      let '(_, decoded) := decode buffer (snd st) in warm n (buffer, decoded)
  end.

Fixpoint encode_loop (n : nat) (buffer : ByteBuffer) : ByteBuffer :=
  match n with O => buffer | S n => encode_loop n (encode message []) end.

(** The errors, which the code drops, in the order the decodes ran. *)
Fixpoint decode_loop (n : nat) (buffer : ByteBuffer) (decoded : Message) : list DecodeError * Message :=
  match n with
  | O => ([], decoded)
  | S n =>
      let '(e, decoded) := decode buffer decoded in
      let '(es, decoded) := decode_loop n buffer decoded in (e :: es, decoded)
  end.

Definition per_op (iterations total : Z) : double := d_div (double_of_Z total) (double_of_Z iterations).

(** [time_message], with what its timed decodes gave; [fresh] is the value-initialised
    message. *)
Definition time_message (fresh : Message) (iterations warmup : Z) (t : Readings)
    : CaseResult * (list DecodeError * Message) :=
  let '(buffer, decoded) := warm (Z.to_nat warmup) ([], fresh) in
  let buffer := encode_loop (Z.to_nat iterations) buffer in
  let buffer := encode message [] in
  let timed := decode_loop (Z.to_nat iterations) buffer decoded in
  (MkCase (per_op iterations (encode_stop t - encode_start t)) (per_op iterations (decode_stop t - decode_start t))
     (zlen buffer), timed).
End Timing.

Section Table.
Context {C : Codec} `{StdSort}.

Definition case_time (r : CaseResult) : double := d_add (encode_ns r) (decode_ns r).

(** [None] where the code indexes an empty vector. *)
Definition median_of (runs : list CaseResult) : option CaseResult :=
  std_sort (key_order case_time) runs !! (length runs / 2)%nat.

Definition time_case (o : CodecOptions) (message : BenchMessage) (t : Readings) : CaseResult :=
  match message with
  | inl r => fst (time_message encode_request decode_request r default_request (iterations o) (warmup o) t)
  | inr r => fst (time_message encode_response decode_response r default_response (iterations o) (warmup o) t)
  end.

(** [readings trial] is what the clock showed in that trial. *)
Definition measure_case (o : CodecOptions) (message : BenchMessage) (readings : nat -> Readings) : option CaseResult :=
  median_of (map (fun trial => time_case o message (readings trial)) (seq 0 (Z.to_nat (c_trials o)))).

(** [run_codec]: the rows in order; [None] if a row has no defined value. *)
Definition run_codec (o : CodecOptions) (readings : nat -> nat -> Readings) : option (list (bstring * CaseResult)) :=
  mapM (fun row => let '(k, (label, message)) := row in
    r ← measure_case o message (readings k); Some (label, r))
    (imap pair (bench_messages o)).
End Table.

(** [main], for the codecs that are built in: the exit code and the tables. *)
Definition codec_main `{StdSort} (codecs : list Codec) (readings : nat -> nat -> nat -> Readings)
    (args : list bstring) : option (Z * list (list (bstring * CaseResult))) :=
  match codec_parse_args args codec_default with
  | None => Some (2, [])
  | Some o =>
      if c_show_help o then Some (0, [])
      else
        tables ← mapM (fun kc : nat * Codec => run_codec (C := snd kc) o (readings (fst kc))) (imap pair codecs);
        Some (0, tables)
  end.

(** * The timed loops *)

(** What the timed decodes of a case gave. *)
Definition timed_decodes {C : Codec} (o : CodecOptions) (message : BenchMessage) (t : Readings)
    : list DecodeError * BenchMessage :=
  match message with
  | inl r =>
      let '(es, m) := snd (time_message encode_request decode_request r default_request (iterations o) (warmup o) t) in
      (es, inl m)
  | inr r =>
      let '(es, m) := snd (time_message encode_response decode_response r default_response (iterations o) (warmup o) t) in
      (es, inr m)
  end.

(** The size of the message on the wire. *)
Definition encoded_size {C : Codec} (message : BenchMessage) : Z :=
  match message with inl r => zlen (encode_request r []) | inr r => zlen (encode_response r []) end.

Section Loops.
Context {Message : Type} (encode : Message -> ByteBuffer -> ByteBuffer)
  (decode : ByteBuffer -> Message -> DecodeError * Message) (message : Message).
Context (Hdecodes : forall out, decode (encode message []) out = (DE_None, message)).

Lemma decode_loop_ok n decoded :
  decode_loop decode (S n) (encode message []) decoded = (replicate (S n) DE_None, message).
Proof.
  revert decoded. induction n as [|n IH]; intros decoded; cbn [decode_loop]; rewrite Hdecodes; [done|].
  specialize (IH message). cbn [decode_loop] in IH. by rewrite IH.
Qed.

Lemma time_message_ok fresh iterations warmup t : 0 < iterations ->
  snd (time_message encode decode message fresh iterations warmup t) =
  (replicate (Z.to_nat iterations) DE_None, message).
Proof.
  intros Hi. unfold time_message. destruct (warm _ _ _ _ _) as [b d]. cbn [snd].
  destruct (Z.to_nat iterations) as [|n] eqn:E; [lia|]. apply decode_loop_ok.
Qed.
End Loops.

Lemma time_case_bytes {C : Codec} o message t : wire_bytes (time_case o message t) = encoded_size message.
Proof. destruct message; unfold time_case, time_message; by destruct (warm _ _ _ _ _). Qed.

(** * The messages are well formed *)

Lemma zlen_filler size base : 0 <= size -> zlen (filler size base) = size.
Proof. intros H. unfold filler, zlen. rewrite length_map, length_seq. lia. Qed.

Lemma bench_scores : Forall (fun k => d_wf (d_div d1 (double_of_Z (Z.of_nat k + 1)))) (seq 0 100).
Proof. apply (bool_decide_unpack _). vm_compute. exact I. Qed.

Definition within_limits (o : CodecOptions) : Prop :=
  0 <= category_size o <= kMaxCategoryLength /\ 0 <= recommend_items o <= kMaxRecommendCount.

Definition wf_message (m : BenchMessage) : Prop :=
  match m with inl r => wf_request r | inr r => wf_response r /\ known_status r end.

Lemma bench_item_wf o : within_limits o -> wf_item (bench_item o).
Proof.
  intros [Hc _]. unfold wf_item, bench_item. cbn [item_id item_category item_advertiser item_base_score item_created_at item_expires_at].
  rewrite !zlen_filler by lia. unfold kMaxAdvertiserLength, kMaxCategoryLength in *.
  split_and!; try lia; vm_compute; done.
Qed.

Lemma bench_ranked_wf o i : within_limits o -> 0 <= i < 100 -> wf_ranked (bench_ranked o i).
Proof.
  intros [Hc _] Hi. unfold wf_ranked, bench_ranked. cbn [ranked_id ranked_score ranked_category ranked_advertiser].
  rewrite !zlen_filler by lia. unfold kMaxCategoryLength in *.
  split_and!; try lia; [unfold fits; lia|].
  rewrite <- (Z2Nat.id i) by lia. pose proof (proj1 (Forall_forall _ _) bench_scores) as H.
  apply (H (Z.to_nat i)), elem_of_seq. lia.
Qed.

Lemma bench_recommend_wf o : within_limits o -> wf_request_body (RecommendBody (bench_recommend o)).
Proof.
  intros [_ Hr]. unfold kMaxRecommendCount in Hr. split; [repeat constructor; by vm_compute|].
  cbn [bench_recommend rec_count]. rewrite wrap_small by (unfold fits; lia). exact Hr.
Qed.

Lemma bench_slate_wf o : within_limits o ->
  let items := map (fun i => bench_ranked o (Z.of_nat i)) (seq 0 (Z.to_nat (recommend_items o))) in
  zlen items <= kMaxRecommendCount /\ Forall wf_ranked items.
Proof.
  intros Hl. pose proof Hl as [_ Hr]. unfold kMaxRecommendCount in *. cbn zeta. split.
  - unfold zlen. rewrite length_map, length_seq. lia.
  - apply Forall_map, Forall_forall. intros k Hk%elem_of_seq. apply bench_ranked_wf; [done|lia].
Qed.

Lemma bench_id_fits : fits 64 bench_id.
Proof. by vm_compute. Qed.
Lemma bench_status_ok : fits 8 SC_Ok /\ SC_Ok <= SC_Ok <= SC_Internal.
Proof. by vm_compute. Qed.
Lemma bench_stats_wf : wf_stats bench_stats.
Proof. repeat constructor; by vm_compute. Qed.
#[local] Hint Resolve bench_id_fits : core.

Lemma bench_messages_wf o : within_limits o -> Forall (fun row => wf_message (snd row)) (bench_messages o).
Proof.
  intros Hl. destruct bench_status_ok as [H8 HSC]. assert (H42 : fits 64 42) by by vm_compute.
  assert (H0 : fits 64 0) by by vm_compute.
  repeat apply Forall_cons_2; [..|apply Forall_nil_2]; cbn [snd wf_message].
  - by split.
  - split; [done|]. by apply bench_item_wf.
  - by split.
  - split; [done|]. by apply bench_recommend_wf.
  - split; [|done]. split; [done|]. split; [done|]. by apply bench_item_wf.
  - by split.
  - split; [|done]. split; [done|]. split; [done|]. by apply bench_slate_wf.
  - split; [|done]. split; [done|]. split; [done|]. apply bench_stats_wf.
Qed.

Section Decodes.
Context {C : Codec} {L : CodecLaws C}.

Lemma message_decodes o m t :
  0 < iterations o -> wf_message m -> encoded_size m <= kMaxFrameSize ->
  timed_decodes o m t = (replicate (Z.to_nat (iterations o)) DE_None, m).
Proof.
  intros Hi Hw Hsize. unfold timed_decodes. destruct m as [r|r]; cbn in Hw, Hsize.
  - rewrite time_message_ok; [done| |done]. intros out. by apply decode_encode_request.
  - destruct Hw as [Hw Hk]. rewrite time_message_ok; [done| |done]. intros out. by apply decode_encode_response.
Qed.

(** * Main theorems *)

(** The codec benchmark times successful decodes. For any codec with the codec laws,
    within the limits of the protocol and of a frame, every timed decode of every message
    succeeds and gives the message back, and the size reported is that of the encoding. *)
Theorem codec_bench_decodes o label m t :
  within_limits o -> 0 < iterations o ->
  (label, m) ∈ bench_messages o -> encoded_size m <= kMaxFrameSize ->
  timed_decodes o m t = (replicate (Z.to_nat (iterations o)) DE_None, m) /\
  wire_bytes (time_case o m t) = encoded_size m.
Proof.
  intros Hl Hi Hin Hsize. split; [|apply time_case_bytes]. apply message_decodes; [done| |done].
  by apply (proj1 (Forall_forall _ _) (bench_messages_wf o Hl) (label, m)).
Qed.
End Decodes.

(** The sizes of the binary codec, whatever the options: linear in the length of the
    strings and in the number of items. *)
Lemma zlen_bench_item o : 0 <= category_size o -> zlen (item_bytes (bench_item o)) = 40 + 2 * category_size o.
Proof.
  intros H. unfold item_bytes. rewrite !zlen_app, !zlen_string_bytes, !zlen_be_bytes.
  cbn [bench_item item_category item_advertiser]. rewrite !zlen_filler by done. lia.
Qed.

Lemma zlen_bench_ranked o l : 0 <= category_size o ->
  zlen (concat (map ranked_bytes (map (fun i => bench_ranked o (Z.of_nat i)) l))) =
  (24 + 2 * category_size o) * Z.of_nat (length l).
Proof.
  intros H. induction l as [|i l IH]; [by rewrite Z.mul_0_r|]. cbn [map concat length]. rewrite zlen_app, IH.
  unfold ranked_bytes. rewrite !zlen_app, !zlen_string_bytes, !zlen_be_bytes.
  cbn [bench_ranked ranked_category ranked_advertiser]. rewrite !zlen_filler by done. lia.
Qed.

Lemma zlen_header t id : zlen (header_bytes t id) = 16.
Proof. unfold zlen. by rewrite length_header. Qed.

Lemma zlen_bench_recommend o : zlen (recommend_bytes (bench_recommend o)) = 76.
Proof. unfold recommend_bytes. rewrite !zlen_app, zlen_be_bytes. by vm_compute. Qed.

Lemma zlen_status_cons (b : Byte.byte) (l : ByteBuffer) : zlen (b :: l) = 1 + zlen l.
Proof. unfold zlen. cbn. lia. Qed.

(** The wire sizes the benchmark reports for the binary codec, in the order of its
    table, for every length [n] of the strings and number [k] of items. *)
Theorem binary_wire_sizes o t :
  0 <= category_size o -> 0 <= recommend_items o ->
  let n := category_size o in let k := recommend_items o in
  map (fun row => wire_bytes (time_case (C := BinaryCodec) o (snd row) t)) (bench_messages o) =
  [24; 56 + 2 * n; 16; 92; 57 + 2 * n; 17; 21 + k * (24 + 2 * n); 137].
Proof.
  intros Hn Hk. cbn zeta. rewrite (map_ext _ (fun row => encoded_size (C := BinaryCodec) (snd row)));
    [|intros ?; apply time_case_bytes].
  cbn [map bench_messages snd encoded_size BinaryCodec encode_request encode_response].
  rewrite !encode_req_app, !encode_resp_app, !app_nil_l, !zlen_app, !zlen_header.
  cbn [req_body resp_body request_body_bytes].
  unfold response_body_bytes. change (SC_Ok =? SC_Ok) with true. cbn match.
  rewrite !zlen_status_cons, zlen_app, !zlen_be_bytes, zlen_bench_item, zlen_bench_recommend, zlen_bench_ranked, length_seq by done.
  change (zlen (stats_bytes bench_stats)) with 120. change (zlen (@nil Byte.byte)) with 0.
  rewrite Z2Nat.id by done. repeat (apply (f_equal2 cons); [lia|]). done.
Qed.

(** With trials, the row of a message is one of its trials. *)
Lemma measure_case_spec `{StdSort} {L : StdSortLaws H} {C : Codec} o m readings :
  match measure_case o m readings with
  | None => Z.to_nat (c_trials o) = O
  | Some r => exists trial, (trial < Z.to_nat (c_trials o))%nat /\ r = time_case o m (readings trial)
  end.
Proof.
  unfold measure_case, median_of. set (runs := map _ _).
  assert (Hlen : length runs = Z.to_nat (c_trials o)) by (unfold runs; by rewrite length_map, length_seq).
  pose proof (sort_permutes (key_order case_time) runs) as Hp.
  destruct (std_sort _ runs !! _) as [r|] eqn:E.
  - apply list_elem_of_lookup_2 in E. rewrite Hp in E. unfold runs in E.
    apply list_elem_of_fmap in E as (trial & -> & Ht%elem_of_seq). exists trial. split; [lia|done].
  - apply lookup_ge_None in E. rewrite Hp, Hlen in E.
    destruct (Z.to_nat (c_trials o)); [done|]. assert (S n / 2 < S n)%nat by (apply Nat.div_lt; lia). lia.
Qed.

Lemma run_codec_rows `{StdSort} {L : StdSortLaws H} {C : Codec} o readings :
  Z.to_nat (c_trials o) <> O ->
  exists table, run_codec o readings = Some table /\
    Forall2 (fun row case => fst case = fst (snd row) /\
      exists trial, (trial < Z.to_nat (c_trials o))%nat /\ snd case = time_case o (snd (snd row)) (readings (fst row) trial))
      (imap pair (bench_messages o)) table.
Proof.
  intros Ht. unfold run_codec. apply mapM_total. intros [k [label m]].
  pose proof (measure_case_spec o m (readings k)) as Hm.
  destruct (measure_case o m (readings k)) as [r|]; [|done]. by exists (label, r).
Qed.

Lemma run_codec_no_trials `{StdSort} {L : StdSortLaws H} {C : Codec} o readings :
  Z.to_nat (c_trials o) = O -> run_codec o readings = None.
Proof.
  intros Ht. unfold run_codec, bench_messages. cbn [imap mapM].
  pose proof (measure_case_spec o (inl (MkRequest bench_id (GetItem 42))) (readings O)) as Hm.
  destruct (measure_case _ _ _) as [r|] eqn:E; [destruct Hm as (trial & ? & _); lia|done].
Qed.

(** The command line of the codec benchmark accepts a trial count of 0, and exactly
    then the program reads an element of an empty vector. In every other case the exit
    code is 2 for a refused command line and 0 otherwise, and with trials every table has
    a row per message, each row one of its trials. *)
Theorem codec_main_defined `{StdSort} {L : StdSortLaws H} codecs readings args :
  match codec_parse_args args codec_default with
  | None => codec_main codecs readings args = Some (2, [])
  | Some o =>
      if c_show_help o then codec_main codecs readings args = Some (0, [])
      else if (Z.to_nat (c_trials o) =? 0)%nat then
        codec_main codecs readings args = if codecs is [] then Some (0, []) else None
      else exists tables, codec_main codecs readings args = Some (0, tables) /\
        Forall2 (fun kc table => Forall2 (fun row case => fst case = fst (snd row) /\
          exists trial, (trial < Z.to_nat (c_trials o))%nat /\
            snd case = time_case (C := snd kc) o (snd (snd row)) (readings (fst kc) (fst row) trial))
          (imap pair (bench_messages o)) table) (imap pair codecs) tables
  end.
Proof.
  unfold codec_main. destruct (codec_parse_args args codec_default) as [o|]; [|done].
  destruct (c_show_help o); [done|]. destruct (Nat.eqb_spec (Z.to_nat (c_trials o)) 0) as [Ht|Ht].
  - destruct codecs as [|c codecs]; [done|].
    cbn [imap]. change (mapM ?f ((?a, ?b) :: ?l)) with (x ← f (a, b); k ← mapM f l; Some (x :: k)).
    cbn [fst snd]. by rewrite run_codec_no_trials.
  - destruct (mapM_total (fun kc : nat * Codec => run_codec (C := snd kc) o (readings (fst kc))) _ (imap pair codecs)
      (fun kc => run_codec_rows (C := snd kc) o (readings (fst kc)) Ht)) as (tables & E & HF).
    exists tables. by rewrite E.
Qed.

(** * Witnesses *)

Definition small_options : CodecOptions := MkCodecOptions 2 1 8 5 3 false.

Lemma codec_bench_decodes_witness :
  within_limits small_options /\
  timed_decodes (C := BinaryCodec) small_options (inl (MkRequest bench_id (PutItem (bench_item small_options))))
    (MkReadings 0 10 10 30) =
  ([DE_None; DE_None], inl (MkRequest bench_id (PutItem (bench_item small_options)))).
Proof.
  assert (H : within_limits small_options) by (unfold within_limits; cbn; unfold kMaxCategoryLength, kMaxRecommendCount; lia).
  split; [exact H|].
  refine (proj1 (codec_bench_decodes (C := BinaryCodec) small_options (str "PutItemRequest") _ _ H _ _ _)).
  - done.
  - right. left.
  - by vm_compute.
Defined.

Lemma binary_wire_sizes_witness :
  map (fun row => wire_bytes (time_case (C := BinaryCodec) small_options (snd row) (MkReadings 0 0 0 0)))
    (bench_messages small_options) = [24; 72; 16; 92; 73; 17; 221; 137].
Proof. refine (binary_wire_sizes small_options (MkReadings 0 0 0 0) _ _); done. Defined.

Lemma codec_main_defined_witness :
  codec_main (H := insertion_sort) [BinaryCodec] (fun _ _ _ => MkReadings 0 0 0 0) [str "--trials"; str "0"] = None.
Proof.
  exact (codec_main_defined (L := insertion_sort_laws) [BinaryCodec] (fun _ _ _ => MkReadings 0 0 0 0)
    [str "--trials"; str "0"]).
Defined.

(** One byte beyond the limit, the benchmark times decodes that fail. *)
Example oversized_decodes_fail :
  fst (timed_decodes (C := BinaryCodec) (MkCodecOptions 2 1 65 5 3 false)
    (inl (MkRequest bench_id (PutItem (bench_item (MkCodecOptions 2 1 65 5 3 false))))) (MkReadings 0 0 0 0)) =
  [DE_FieldTooLarge; DE_FieldTooLarge].
Proof. vm_compute. reflexivity. Qed.
