(* ===== verification/CacheBench.v ===== *)
(** CacheBench: the cache benchmark lrd_cache_bench (bench/cache_bench.cpp): its command line,
    its threads over one sharded cache without a daemon, and the table it prints.

    The random draws and clock readings of an iteration are its inputs; a run is any
    interleaving of the threads' cache operations, each atomic under its shard's lock. What
    the threads did is logged beside the state the code keeps. Shown: whatever the
    interleaving, the hits and reads the threads count are those the cache counts for the
    measured window, one sample is taken per measured operation; and the program ends with
    an uncaught exception exactly for the shard counts that the cache refuses, which the
    command line lets through. *)
From stdpp Require Import base option list gmap.
From S2P Require Import Prelude HashMix Binary64 Item LruCache ShardedCache CacheMetrics Handler Text Cli Latency Workload Bench.

(** * Options *)

Record CacheOptions := MkCacheOptions {
  k_threads : Z; ops_per_thread : Z; k_warmup_per_thread : Z; k_key_count : Z; k_capacity : Z;
  k_read_ratio : double; k_zipf_theta : double; k_shards : Z; k_trials : Z;
  k_sweep : bool; shard_sweep : bool; k_show_help : bool
}.
Definition cache_default : CacheOptions :=
  MkCacheOptions 4 200000 20000 10000 5000 (MkDouble 0x3FECCCCCCCCCCCCD) (MkDouble 0x3FEFAE147AE147AE) 1 3
    false false false.

Definition kSweepShards : list Z := [1; 2; 4; 8; 16; 32; 64].

(** [parse_size] and [parse_double] are the ones of lrd_bench. *)
Section Options.
Variable strtod : bstring -> double * bstring.

Definition cache_valued (arg value : bstring) (o : CacheOptions) : option (option CacheOptions) :=
  let '(MkCacheOptions threads ops warm keys cap reads theta shards trials sweep ssweep help) := o in
  let mk threads ops keys cap reads theta shards trials :=
    MkCacheOptions threads ops warm keys cap reads theta shards trials sweep ssweep help in
  if streq arg (str "--threads") then
    Some ((fun v => mk v ops keys cap reads theta shards trials) <$> bench_parse_size value)
  else if streq arg (str "--ops") then
    Some ((fun v => mk threads v keys cap reads theta shards trials) <$> bench_parse_size value)
  else if streq arg (str "--keys") then
    Some ((fun v => mk threads ops v cap reads theta shards trials) <$> bench_parse_size value)
  else if streq arg (str "--capacity") then
    Some ((fun v => mk threads ops keys v reads theta shards trials) <$> bench_parse_size value)
  else if streq arg (str "--read-ratio") then
    Some ((fun v => mk threads ops keys cap v theta shards trials) <$> bench_parse_double strtod value)
  else if streq arg (str "--zipf") then
    Some ((fun v => mk threads ops keys cap reads v shards trials) <$> bench_parse_double strtod value)
  else if streq arg (str "--trials") then
    Some ((fun v => mk threads ops keys cap reads theta shards v) <$> bench_parse_size value)
  else if streq arg (str "--shards") then
    Some ((fun v => mk threads ops keys cap reads theta v trials) <$> bench_parse_size value)
  else None.

(** The three flags. *)
Definition cache_flag (arg : bstring) (o : CacheOptions) : option CacheOptions :=
  let '(MkCacheOptions threads ops warm keys cap reads theta shards trials sweep ssweep help) := o in
  let mk := MkCacheOptions threads ops warm keys cap reads theta shards trials in
  if streq arg (str "--help") || streq arg (str "-h") then Some (mk sweep ssweep true)
  else if streq arg (str "--sweep") then Some (mk true ssweep help)
  else if streq arg (str "--shard-sweep") then Some (mk sweep true help)
  else None.

(** [None]: reported, exit code 2. *)
Fixpoint cache_parse_args (args : list bstring) (o : CacheOptions) : option CacheOptions :=
  match args with
  | [] => Some o
  | arg :: rest =>
      match cache_flag arg o with
      | Some o => cache_parse_args rest o
      | None =>
          match rest with
          | value :: rest =>
              match cache_valued arg value o with
              | Some (Some o) => cache_parse_args rest o
              | _ => None
              end
          | [] => None
          end
      end
  end.
End Options.

(** * The threads *)

Abbreviation Cache := (ShardedCache Z Item).

(** What an iteration draws, and the clock around it. *)
Record CacheDraw := MkCacheDraw { cd_uniform : Z; cd_sample : double; cd_coin : double; cd_issued : Z; cd_done : Z }.

Record CacheThread := MkCacheThread {
  ct_warmup : list CacheDraw;    (** iterations still to do before the start flag *)
  ct_draws : list CacheDraw;     (** measured iterations still to do *)
  local_hits : Z; local_reads : Z;
  ct_samples : LatencySamples
}.

(** An operation that was done: in the measured window or not, what it was and returned. *)
Record Done := MkDone { dn_measured : bool; dn_op : LruOp Z Item; dn_ret : LruRet Item }.

Record CacheSystem := MkCacheSystem { cs_threads : list CacheThread; cs_cache : Cache; cs_log : list Done }.

Section Threads.
Context (o : CacheOptions) (items : list Item) (keys : KeyDistribution).

Definition cache_item (d : CacheDraw) : Item :=
  default default_item (items !! Z.to_nat (next_key (cd_uniform d) (cd_sample d) keys)).

Definition is_read (d : CacheDraw) : bool := d_ltb (cd_coin d) (k_read_ratio o).

Definition cache_op (d : CacheDraw) : LruOp Z Item :=
  if is_read d then OpGet (item_id (cache_item d)) else OpPut (item_id (cache_item d)) (cache_item d).

(** A measured iteration, given what the cache returned. *)
Definition measured (d : CacheDraw) (r : LruRet Item) (t : CacheThread) : CacheThread :=
  MkCacheThread (ct_warmup t) (tail (ct_draws t))
    (if is_read d then (if r is RetPtr (Some _) then incr64 (local_hits t) else local_hits t) else local_hits t)
    (if is_read d then incr64 (local_reads t) else local_reads t)
    (add_sample (cd_done d - cd_issued d) (ct_samples t)).

(** The next iteration of thread [i], if it has one. *)
Definition cache_step (i : nat) (s : CacheSystem) : CacheSystem :=
  match cs_threads s !! i with
  | None => s
  | Some t =>
      match ct_warmup t, ct_draws t with
      | d :: warm, _ =>
          let '(r, cache) := sharded_step std_hash (cache_op d) (cs_cache s) in
          MkCacheSystem
            (<[i := MkCacheThread warm (ct_draws t) (local_hits t) (local_reads t) (ct_samples t)]> (cs_threads s))
            cache (cs_log s ++ [MkDone false (cache_op d) r])
      | [], d :: _ =>
          let '(r, cache) := sharded_step std_hash (cache_op d) (cs_cache s) in
          MkCacheSystem (<[i := measured d r t]> (cs_threads s)) cache (cs_log s ++ [MkDone true (cache_op d) r])
      | [], [] => s
      end
  end.

Definition cache_run (schedule : list nat) (s : CacheSystem) : CacheSystem :=
  foldl (fun s i => cache_step i s) s schedule.
End Threads.

(** Fresh threads, with the draws each will make. *)
Definition cache_start (work : list (list CacheDraw * list CacheDraw)) (cache : Cache) : CacheSystem :=
  MkCacheSystem (map (fun w => MkCacheThread (fst w) (snd w) 0 0 samples_new) work) cache [].

(** * A run and the table *)

Record CacheResult := MkCacheResult {
  cr_latency : LatencySummary; cr_ops_per_sec : double; hit_rate : double; shard_imbalance : double
}.

Definition d100 : double := MkDouble 0x4059000000000000.

Definition imbalance_of (sizes : list nat) : double :=
  match sizes with
  | [] => d1
  | _ =>
      let total := foldl (fun a b => wrap 64 (a + Z.of_nat b)) 0 sizes in
      let largest := foldl (fun a b => Z.max a (Z.of_nat b)) 0 sizes in
      let mean := d_div (double_of_Z total) (double_of_Z (zlen sizes)) in
      if d_gtb mean d0 then d_div (double_of_Z largest) mean else d1
  end.

(** After the threads have been joined; each adds its counts once, at its end. *)
Definition cache_result (cast_unrepresentable : double -> Z) (seconds : double) (s : CacheSystem) : CacheResult :=
  let latency := summarize cast_unrepresentable (map ct_samples (cs_threads s)) in
  let hits := sum64 (map local_hits (cs_threads s)) in
  let reads := sum64 (map local_reads (cs_threads s)) in
  MkCacheResult latency
    (if d_gtb seconds d0 then d_div (double_of_Z (s_count latency)) seconds else d0)
    (if reads =? 0 then d0 else d_div (d_mul d100 (double_of_Z hits)) (double_of_Z reads))
    (imbalance_of (shard_sizes (cs_cache s))).

(** The points measured: threads and shards, in order. *)
Definition cache_points (o : CacheOptions) : list (Z * Z) :=
  if shard_sweep o then map (fun shards => (k_threads o, shards)) kSweepShards
  else if k_sweep o then map (fun threads => (threads, k_shards o)) kSweepThreads
  else [(k_threads o, k_shards o)].

(** How the program ends: an exception leaves [main]. *)
Inductive Ended := Exit (code : Z) | Terminated.

Section Main.
Context `{StdSort}.
(** What a run of the threads over a fresh cache gives, by point and trial. *)
Variable outcome : CacheOptions -> Z * Z -> nat -> Cache -> CacheResult.

(** [run_once]: [None] when the constructor of the cache throws. *)
Definition cache_run_once (o : CacheOptions) (point : Z * Z) (trial : nat) : option CacheResult :=
  cache ← sharded_new (k_capacity o) (snd point); Some (outcome o point trial cache).

(** [measure]: the row of a point. *)
Definition cache_measure (o : CacheOptions) (point : Z * Z) : option CacheResult :=
  runs ← mapM (cache_run_once o point) (seq 0 (Z.to_nat (k_trials o)));
  median_by cr_ops_per_sec runs.

(** The rows printed, and how the program ended. *)
Fixpoint cache_table (o : CacheOptions) (points : list (Z * Z)) : list CacheResult * Ended :=
  match points with
  | [] => ([], Exit 0)
  | point :: points =>
      match cache_measure o point with
      | None => ([], Terminated)
      | Some row => let '(rows, e) := cache_table o points in (row :: rows, e)
      end
  end.

Definition cache_main (strtod : bstring -> double * bstring) (args : list bstring) : list CacheResult * Ended :=
  match cache_parse_args strtod args cache_default with
  | None => ([], Exit 2)
  | Some o => if k_show_help o then ([], Exit 0) else cache_table o (cache_points o)
  end.
End Main.

(** * The log *)

Definition log_sum (f : LruOp Z Item -> LruRet Item -> Z) (log : list Done) : Z :=
  zsum (map (fun d => f (dn_op d) (dn_ret d)) log).
Definition in_window (log : list Done) : list Done := filter (fun d => dn_measured d = true) log.
Definition before_window (log : list Done) : list Done := filter (fun d => dn_measured d = false) log.

Definition get_op (op : LruOp Z Item) (r : LruRet Item) : Z := if op is OpGet _ then 1 else 0.

Lemma log_sum_app f l1 l2 : log_sum f (l1 ++ l2) = log_sum f l1 + log_sum f l2.
Proof. unfold log_sum. rewrite map_app. induction l1 as [|x l1 IH]; cbn; [done|]. rewrite IH. lia. Qed.

Lemma log_sum_split f log : log_sum f log = log_sum f (in_window log) + log_sum f (before_window log).
Proof.
  unfold in_window, before_window. induction log as [|d log IH]; [done|].
  change (d :: log) with ([d] ++ log). rewrite !filter_app, !log_sum_app, IH.
  destruct (dn_measured d) eqn:E.
  - rewrite (filter_cons_True _ d []), (filter_cons_False _ d []) by (rewrite E; done). cbn. lia.
  - rewrite (filter_cons_True (fun d => dn_measured d = false) d []),
      (filter_cons_False (fun d => dn_measured d = true) d []) by (rewrite E; done). cbn. lia.
Qed.

Lemma log_counted f log : counted f (map dn_op log) (map dn_ret log) = log_sum f log.
Proof. unfold counted, log_sum. induction log as [|d log IH]; cbn; [done|]. by rewrite IH. Qed.

Lemma sharded_run_snoc ops op (sc : Cache) :
  sharded_run std_hash (ops ++ [op]) sc =
  let '(rs, sc') := sharded_run std_hash ops sc in
  let '(r, sc'') := sharded_step std_hash op sc' in (rs ++ [r], sc'').
Proof.
  revert sc. induction ops as [|x ops IH]; intros sc; cbn.
  { by destruct (sharded_step std_hash op sc). }
  destruct (sharded_step std_hash x sc) as [r1 sc1]. rewrite IH.
  destruct (sharded_run std_hash ops sc1) as [rs sc2]. by destruct (sharded_step std_hash op sc2).
Qed.

Lemma sum64_insert (f : CacheThread -> Z) (l : list CacheThread) i t t' n :
  l !! i = Some t -> eq64 (f t') (f t + n) ->
  eq64 (sum64 (map f (<[i := t']> l))) (sum64 (map f l) + n).
Proof.
  intros Hi Hn.
  assert (E : forall l, eq64 (sum64 l) (zsum l)).
  { intros l0. unfold sum64.
    assert (G : forall l a, eq64 (foldl (fun a b => wrap 64 (a + b)) a l) (a + zsum l)).
    { induction l1 as [|x l1 IH]; intros a; cbn; [by rewrite Z.add_0_r|]. rewrite IH, eq64_wrap. apply eq64_eq. lia. }
    rewrite G. by rewrite Z.add_0_l. }
  rewrite !E, (zsum_insert f _ _ t), Hn by done. apply eq64_eq. lia.
Qed.

(** A get returned a pointer. *)
Definition well_typed (d : Done) : Prop := if dn_op d is OpGet _ then exists p, dn_ret d = RetPtr p else True.

(** A get is a hit or a miss. *)
Lemma log_gets log : Forall well_typed log -> log_sum hit log + log_sum miss log = log_sum get_op log.
Proof.
  unfold log_sum. induction 1 as [|[f op r] log Hd _ IH]; [done|]. unfold well_typed in Hd. cbn in Hd |- *. rewrite <- IH.
  destruct op; cbn; try lia. destruct Hd as [[v|] ->]; lia.
Qed.

(** * The invariant *)

Section Invariant.
Context (o : CacheOptions) (items : list Item) (keys : KeyDistribution).
#[local] Abbreviation cache_op := (cache_op o items keys).
#[local] Abbreviation cache_step := (cache_step o items keys).

(** What a thread has done of its work. *)
Definition progress (w : list CacheDraw * list CacheDraw) (t : CacheThread) : Prop :=
  exists warm draws, fst w = warm ++ ct_warmup t /\ snd w = draws ++ ct_draws t /\
    nanos (ct_samples t) = map (fun d => to_u64 (cd_done d - cd_issued d)) draws.

Record bench_inv (work : list (list CacheDraw * list CacheDraw)) (cache0 : Cache) (s : CacheSystem) : Prop := {
  bi_cache : sharded_run std_hash (map dn_op (cs_log s)) cache0 = (map dn_ret (cs_log s), cs_cache s);
  bi_hits : eq64 (sum64 (map local_hits (cs_threads s))) (log_sum hit (in_window (cs_log s)));
  bi_reads : eq64 (sum64 (map local_reads (cs_threads s))) (log_sum get_op (in_window (cs_log s)));
  bi_progress : Forall2 progress work (cs_threads s);
  bi_ops : OpClear ∉ map dn_op (cs_log s);
  bi_rets : Forall well_typed (cs_log s)
}.

Lemma start_inv work cache0 : bench_inv work cache0 (cache_start work cache0).
Proof.
  assert (Z0 : forall f, (forall w, f (MkCacheThread (fst w) (snd w) 0 0 samples_new) = 0) ->
    sum64 (map f (cs_threads (cache_start work cache0))) = 0).
  { intros f Hf. unfold sum64. cbn. induction work as [|w work IH]; cbn; [done|]. by rewrite Hf. }
  split; cbn [cs_log cs_cache cache_start map in_window filter]; try done.
  - by rewrite Z0.
  - by rewrite Z0.
  - clear Z0. cbn. induction work as [|w work IH]; cbn; [constructor|]. constructor; [|done]. exists [], []. by destruct w.
  - apply not_elem_of_nil.
Qed.

Lemma in_window_snoc log d : in_window (log ++ [d]) = in_window log ++ (if dn_measured d then [d] else []).
Proof.
  unfold in_window. rewrite filter_app. f_equal. destruct (dn_measured d) eqn:E.
  - by rewrite filter_cons_True.
  - by rewrite filter_cons_False by (by rewrite E).
Qed.

Lemma cache_op_not_clear d : cache_op d <> OpClear.
Proof. unfold cache_op. by destruct (is_read o d). Qed.

(** A logged operation extends the run of the cache. *)
Lemma log_step (log : list Done) measured d (cache0 cache cache' : Cache) r :
  sharded_run std_hash (map dn_op log) cache0 = (map dn_ret log, cache) ->
  sharded_step std_hash (cache_op d) cache = (r, cache') -> OpClear ∉ map dn_op log -> Forall well_typed log ->
  sharded_run std_hash (map dn_op (log ++ [MkDone measured (cache_op d) r])) cache0 =
    (map dn_ret (log ++ [MkDone measured (cache_op d) r]), cache') /\
  OpClear ∉ map dn_op (log ++ [MkDone measured (cache_op d) r]) /\
  Forall well_typed (log ++ [MkDone measured (cache_op d) r]).
Proof.
  intros Hrun Hstep Hc Ht. rewrite !map_app. cbn [map dn_op dn_ret]. rewrite sharded_run_snoc, Hrun, Hstep. split; [done|].
  rewrite not_elem_of_app, list_elem_of_singleton. split; [split; [done|]; apply not_eq_sym, cache_op_not_clear|].
  apply Forall_app. split; [done|]. apply Forall_singleton. unfold well_typed. cbn [dn_op dn_ret]. unfold cache_op in *.
  destruct (is_read o d); [|done]. cbn in Hstep. destruct (sharded_get _ _ _) as [p c]. injection Hstep as <- _. by exists p.
Qed.

Lemma measured_counts d r t :
  eq64 (local_hits (measured o d r t)) (local_hits t + hit (cache_op d) r) /\
  eq64 (local_reads (measured o d r t)) (local_reads t + get_op (cache_op d) r).
Proof.
  unfold measured, cache_op. cbn [local_hits local_reads]. destruct (is_read o d); cbn [hit get_op]; rewrite ?Z.add_0_r; [|done].
  split; [|apply eq64_incr]. destruct r as [[v|]| |]; rewrite ?Z.add_0_r; try done. apply eq64_incr.
Qed.

Lemma progress_insert work threads i t' w :
  Forall2 progress work threads -> work !! i = Some w -> progress w t' -> Forall2 progress work (<[i := t']> threads).
Proof. intros Hp Hw Ht. rewrite <- (list_insert_id work i w Hw). by apply Forall2_insert. Qed.

Lemma step_inv work cache0 i s : bench_inv work cache0 s -> bench_inv work cache0 (cache_step i s).
Proof.
  intros [Hcache Hhits Hreads Hprog Hops Hrets]. unfold cache_step. destruct (cs_threads s !! i) as [t|] eqn:Ht; [|done].
  destruct (Forall2_lookup_r _ _ _ _ _ Hprog Ht) as (w & Hi & warm & draws & Hw & Hd & Hn).
  destruct (ct_warmup t) as [|d ws] eqn:Ew; [destruct (ct_draws t) as [|d ds] eqn:Ed; [done|]|].
  - destruct (sharded_step std_hash (cache_op d) (cs_cache s)) as [r cache'] eqn:Es.
    destruct (log_step _ true d _ _ _ _ Hcache Es Hops Hrets) as (Hrun & Hops' & Hrets').
    destruct (measured_counts d r t) as [Mh Mr].
    split; cbn [cs_log cs_cache cs_threads]; try done; rewrite ?in_window_snoc; cbn [dn_measured]; rewrite ?log_sum_app.
    + rewrite (sum64_insert local_hits _ i t _ _ Ht Mh), Hhits. apply eq64_eq. cbn. lia.
    + rewrite (sum64_insert local_reads _ i t _ _ Ht Mr), Hreads. apply eq64_eq. cbn. lia.
    + apply (progress_insert _ _ _ _ w); [done..|]. exists warm, (draws ++ [d]). cbn [measured ct_warmup ct_draws ct_samples].
      rewrite Ew, Ed. cbn [tail]. rewrite <- app_assoc, map_app. split_and!; try done. cbn. by rewrite Hn.
  - destruct (sharded_step std_hash (cache_op d) (cs_cache s)) as [r cache'] eqn:Es.
    destruct (log_step _ false d _ _ _ _ Hcache Es Hops Hrets) as (Hrun & Hops' & Hrets').
    split; cbn [cs_log cs_cache cs_threads]; try done; rewrite ?in_window_snoc; cbn [dn_measured]; rewrite ?app_nil_r.
    + rewrite (sum64_insert local_hits _ i t _ 0 Ht) by (apply eq64_eq; cbn; lia). rewrite Hhits. apply eq64_eq. lia.
    + rewrite (sum64_insert local_reads _ i t _ 0 Ht) by (apply eq64_eq; cbn; lia). rewrite Hreads. apply eq64_eq. lia.
    + apply (progress_insert _ _ _ _ w); [done..|]. exists (warm ++ [d]), draws. cbn [ct_warmup ct_draws ct_samples].
      by rewrite <- app_assoc.
Qed.

Lemma run_inv work cache0 schedule s :
  bench_inv work cache0 s -> bench_inv work cache0 (cache_run o items keys schedule s).
Proof.
  revert s. induction schedule as [|i schedule IH]; intros s Hs; [done|]. cbn. by apply IH, step_inv.
Qed.
End Invariant.

(** The cache can be built for exactly these shard counts. *)
Definition shards_ok (capacity shards : Z) : bool :=
  negb (shards =? 0) && has_single_bit shards && (shards <=? capacity).

Lemma sharded_new_ok capacity shards :
  match sharded_new (K := Z) (V := Item) capacity shards with Some _ => shards_ok capacity shards = true
  | None => shards_ok capacity shards = false end.
Proof.
  unfold sharded_new, shards_ok. destruct (Z.eqb_spec shards 0); [done|]. cbn [negb orb andb].
  destruct (has_single_bit shards) eqn:E; [|done]. cbn [negb andb].
  destruct (Z.ltb_spec capacity shards); [by apply Z.leb_gt|].
  assert (Hpos : 0 < shards) by (unfold has_single_bit in E; bcases; lia).
  assert (H1 : 1 <= capacity / shards) by (apply Z.div_le_lower_bound; lia).
  assert (M : forall n, is_Some (make_shards (K := Z) (V := Item) n (Z.to_nat (capacity / shards)))).
  { intros m. induction m as [|m [cs IH]]; [by eexists|]. cbn [make_shards]. unfold lru_new.
    destruct (Nat.eqb_spec (Z.to_nat (capacity / shards)) 0); [lia|]. rewrite IH. by eexists. }
  destruct (M (Z.to_nat shards)) as [cs ->]. by apply Z.leb_le.
Qed.

(** * The command line *)

Lemma bench_parse_size_pos text v : bench_parse_size text = Some v -> 0 < v < 2 ^ 64.
Proof.
  unfold bench_parse_size. pose proof (strtoul_fits text) as Hr. destruct (strtoul text) as [value tail].
  cbn in Hr. destruct (_ || _) eqn:E; [done|]. intros [= <-]. bcases. unfold fits in *. lia.
Qed.

Definition sizes_ok (o : CacheOptions) : Prop :=
  0 < k_trials o /\ 0 < k_threads o /\ 0 < k_key_count o /\ 0 < k_capacity o /\ 0 < k_shards o.

Lemma cache_valued_ok strtod arg value o o' :
  sizes_ok o -> cache_valued strtod arg value o = Some (Some o') -> sizes_ok o'.
Proof.
  unfold sizes_ok, cache_valued. destruct o. cbn. intros Ho H.
  repeat match type of H with context [if ?b then _ else _] => destruct b end; try discriminate;
  injection H as H; match type of H with ?f <$> ?p = _ => destruct p eqn:E; [|discriminate] end;
  injection H as <-; cbn; try apply bench_parse_size_pos in E; lia.
Qed.

Lemma cache_flag_ok arg o o' : sizes_ok o -> cache_flag arg o = Some o' -> sizes_ok o'.
Proof.
  unfold sizes_ok, cache_flag. destruct o. cbn. intros Ho H.
  repeat match type of H with context [if ?b then _ else _] => destruct b end; try discriminate; by injection H as <-.
Qed.

Lemma cache_parse_ok strtod n : forall args o o', (length args <= n)%nat ->
  sizes_ok o -> cache_parse_args strtod args o = Some o' -> sizes_ok o'.
Proof.
  induction n as [|n IH]; intros [|arg rest] o o' Hn Ho H; cbn in Hn, H; try lia; try (by injection H as <-).
  destruct (cache_flag arg o) as [o1|] eqn:Ef.
  - eapply IH; [|by eapply cache_flag_ok|exact H]. lia.
  - destruct rest as [|value rest]; [done|]. cbn in Hn.
    destruct (cache_valued strtod arg value o) as [[o1|]|] eqn:Ev; [|done..].
    eapply IH; [|by eapply cache_valued_ok|exact H]. lia.
Qed.

(** * Main theorems *)

(** The hit rate is the cache's. For every interleaving of the threads over a fresh cache,
    the hits and the reads they count are, as 64-bit words, the hits and the gets that the
    cache's own metrics count, less those of the warm-up; and every thread has one sample for
    each measured operation it has done, in order. *)
Theorem cache_bench_counts o items keys capacity shards cache work schedule :
  sharded_new capacity shards = Some cache ->
  let s := cache_run o items keys schedule (cache_start work cache) in
  let m := sharded_metrics (cs_cache s) in
  let hits := sum64 (map local_hits (cs_threads s)) in
  let reads := sum64 (map local_reads (cs_threads s)) in
  eq64 (m_hits m) (hits + log_sum hit (before_window (cs_log s))) /\
  eq64 (m_hits m + m_misses m) (reads + log_sum get_op (before_window (cs_log s))) /\
  Forall2 progress work (cs_threads s).
Proof.
  intros Hnew. cbn zeta.
  destruct (run_inv o items keys work cache schedule _ (start_inv work cache)) as [Hrun Hh Hr Hp Hc Ht].
  set (s := cache_run o items keys schedule (cache_start work cache)) in *.
  pose proof (metrics_counted std_hash _ _ _ _ Hnew Hc) as Hm. rewrite Hrun, !log_counted in Hm.
  destruct Hm as (H1 & H2 & _). rewrite Hh, Hr, H1, H2. split_and!; [| |done].
  - by rewrite <- log_sum_split.
  - rewrite <- log_sum_split. by rewrite log_gets.
Qed.

Section MainLaws.
Context `{StdSort} {L : StdSortLaws H} (outcome : CacheOptions -> Z * Z -> nat -> Cache -> CacheResult).

Lemma cache_measure_spec o point : 0 < k_trials o ->
  if shards_ok (k_capacity o) (snd point) then is_Some (cache_measure outcome o point) else cache_measure outcome o point = None.
Proof.
  intros Ht. unfold cache_measure, cache_run_once. pose proof (sharded_new_ok (k_capacity o) (snd point)) as Hn.
  destruct (sharded_new (k_capacity o) (snd point)) as [cache|]; rewrite Hn.
  - destruct (mapM_total (fun trial => c ← Some cache; Some (outcome o point trial c)) (fun _ _ => True) (seq 0 (Z.to_nat (k_trials o))))
      as (runs & -> & HF); [by eexists|]. cbn. apply median_some. intros ->. apply Forall2_length in HF.
    rewrite length_seq in HF. cbn in HF. lia.
  - destruct (Z.to_nat (k_trials o)) as [|n] eqn:E; [lia|]. done.
Qed.

Lemma cache_table_spec o points : 0 < k_trials o ->
  let good := list_find (fun p : Z * Z => shards_ok (k_capacity o) (snd p) = false) points in
  length (fst (cache_table outcome o points)) = (if good is Some (i, _) then i else length points) /\
  snd (cache_table outcome o points) = (if good is Some _ then Terminated else Exit 0).
Proof.
  intros Ht. cbn zeta. induction points as [|p points IH]; [done|]. cbn [cache_table list_find].
  pose proof (cache_measure_spec o p Ht) as Hm. destruct (shards_ok (k_capacity o) (snd p)) eqn:E.
  - destruct Hm as [row ->]. rewrite decide_False by congruence. destruct (cache_table outcome o points) as [rows e].
    cbn in IH |- *. destruct (list_find _ points) as [[i q]|]; cbn; destruct IH as [<- ->]; done.
  - rewrite Hm, decide_True by done. done.
Qed.

(** How the cache benchmark ends. A refused command line exits with 2 and [--help] with 0;
    otherwise one row is printed for each point, in order, up to the first whose shard
    count the cache refuses (zero, not a power of two, or more shards than entries): there
    the program dies of the uncaught exception, and it exits with 0 exactly if there is no
    such point. *)
Theorem cache_main_ends strtod args :
  match cache_parse_args strtod args cache_default with
  | None => cache_main outcome strtod args = ([], Exit 2)
  | Some o =>
      if k_show_help o then cache_main outcome strtod args = ([], Exit 0)
      else
        let bad := list_find (fun p : Z * Z => shards_ok (k_capacity o) (snd p) = false) (cache_points o) in
        length (fst (cache_main outcome strtod args)) = (if bad is Some (i, _) then i else length (cache_points o)) /\
        snd (cache_main outcome strtod args) = (if bad is Some _ then Terminated else Exit 0)
  end.
Proof.
  unfold cache_main. destruct (cache_parse_args strtod args cache_default) as [o|] eqn:E; [|done].
  destruct (k_show_help o); [done|]. apply cache_table_spec.
  eapply cache_parse_ok in E; [apply E|reflexivity|]. by vm_compute.
Qed.
End MainLaws.

(** * Witnesses *)

Definition bench_keys : KeyDistribution := MkDistribution 2 d0 [].
Definition bench_draw (key : Z) (coin : double) : CacheDraw := MkCacheDraw key d0 coin 10 12.
Definition bench_cache : Cache := default (MkSharded 0 0 []) (sharded_new 4 2).

(** Two threads over two items; the first warms the cache up with a put. *)
Definition bench_work : list (list CacheDraw * list CacheDraw) :=
  [([bench_draw 0 d1], [bench_draw 0 d0; bench_draw 1 d0]); ([], [bench_draw 0 d0; bench_draw 1 d1])].

Lemma cache_bench_counts_witness :
  let s := cache_run cache_default (make_items 2 1000) bench_keys [0%nat; 1%nat; 0%nat; 0%nat; 1%nat] (cache_start bench_work bench_cache) in
  map local_hits (cs_threads s) = [1; 1] /\ map local_reads (cs_threads s) = [2; 1] /\
  eq64 (m_hits (sharded_metrics (cs_cache s))) 2.
Proof.
  split; [by vm_compute|]. split; [by vm_compute|].
  assert (Hnew : sharded_new 4 2 = Some bench_cache) by (vm_compute; reflexivity).
  refine (transitivity (proj1 (cache_bench_counts cache_default (make_items 2 1000) bench_keys 4 2 bench_cache bench_work
    [0%nat; 1%nat; 0%nat; 0%nat; 1%nat] Hnew)) _). by vm_compute.
Defined.

(** Three shards, and a sweep over a cache of 32 entries, which dies at its last point. *)
Lemma cache_main_ends_witness :
  let outcome := fun _ _ _ _ => MkCacheResult empty_summary d1 d0 d1 in
  snd (cache_main (H := insertion_sort) outcome (fun t => (d0, t)) [str "--shards"; str "3"]) = Terminated /\
  length (fst (cache_main (H := insertion_sort) outcome (fun t => (d0, t)) [str "--shard-sweep"; str "--capacity"; str "32"])) = 6%nat.
Proof.
  split.
  - exact (proj2 (cache_main_ends (L := insertion_sort_laws) (fun _ _ _ _ => MkCacheResult empty_summary d1 d0 d1) (fun t => (d0, t))
      [str "--shards"; str "3"])).
  - exact (proj1 (cache_main_ends (L := insertion_sort_laws) (fun _ _ _ _ => MkCacheResult empty_summary d1 d0 d1) (fun t => (d0, t))
      [str "--shard-sweep"; str "--capacity"; str "32"])).
Defined.
