(* ===== verification/Baseline.v ===== *)
(** Baseline: the stand-alone probes the measurements are read against
    (bench/baseline_pingpong.cpp, bench/baseline_framing_shape.cpp, bench/baseline_timer.cpp).

    The first two are one program in three shapes: a parent and a forked child pass a
    fixed buffer to and fro over a socket pair, and the shapes differ in how a message is
    read: by one [read], by one [read_exact], or by two. The two processes are a state
    machine in which either may move and the kernel decides how much of what is there a
    [read] returns. A [write] of a few bytes on a blocking stream socket takes them all;
    there is never more than one message in the pair, which is part of the invariant, so
    the size of the socket's buffer does not come in.

    Shown: whatever the kernel hands over and however the processes are scheduled, every
    round trip asked for is made, the buffer comes back unchanged and both processes end;
    and the shapes cost what docs/benchmarks.md compares, one [read] per part of a message,
    if the kernel returns all it has. The bare shape, which does not loop, needs that for
    its round trips too. The timer probe reports observed overshoots, none of them below
    zero. *)
From Stdlib Require Import SpecFloat Sorted.
From stdpp Require Import base option list sorting.
From S2P Require Import Prelude Binary64 Wire Latency.

(** * Two processes and a socket pair *)

(** How a message is read: into consecutive parts of the buffer, each with [read_exact] or
    ([exact] false) with one [read]. *)
Record Shape := MkShape { sizes : list nat; exact : bool }.
Definition kBody : nat := 36.
Definition framing_shape (split : bool) : Shape := MkShape (if split then [4; kBody] else [4 + kBody])%nat true.
Definition pingpong_shape : Shape := MkShape [20]%nat false.
Definition message_size (sh : Shape) : nat := sum_list (sizes sh).

(** [Reading base got parts]: inside the [read_exact] (or at the [read]) of the first of
    [parts], which starts at [base] in the buffer, with [got] bytes of it read.
    [Writing n]: about to write the first [n] bytes of the buffer. *)
Inductive Pc :=
| Reading (base got : nat) (parts : list nat)
| Writing (n : nat)
| Ended.
Record Proc := MkProc { pc : Pc; buf : ByteBuffer }.

(** [round] is the parent's [i]; [reads] counts the parent's calls of [read] that returned
    data. An end is closed when its process has ended. *)
Record Pair := MkPair {
  parent : Proc; child : Proc;
  to_child : ByteBuffer; to_parent : ByteBuffer;
  round : Z; reads : nat
}.

(** [memcpy] into the buffer. *)
Definition put_bytes (buffer : ByteBuffer) (at_ : nat) (bytes : ByteBuffer) : ByteBuffer :=
  take at_ buffer ++ bytes ++ drop (at_ + length bytes) buffer.
Definition is_ended (p : Proc) : bool := match pc p with Ended => true | _ => false end.

(** What a [read] of at most [want] bytes returns of a nonempty [inbox]: at least one byte,
    [allow] if there are as many. *)
Definition returned (allow want : nat) (inbox : ByteBuffer) : nat :=
  Nat.max 1 (Nat.min allow (Nat.min want (length inbox))).

Section Probe.
Variables (sh : Shape) (n : Z).

(** After [r] bytes for the part of [size] bytes at [base]; [n] bytes make the message. *)
Definition next_pc (base got r size : nat) (rest : list nat) : Pc :=
  if exact sh && (got + r <? size)%nat then Reading base (got + r) (size :: rest)
  else match rest with
       | [] => Writing (base + got + r)
       | _ => Reading (base + size) 0 rest
       end.

(** One call of [read]: [None] where it blocks; the [bool] tells data from the end of file. *)
Definition read_step (allow : nat) (p : Proc) (inbox : ByteBuffer) (peer_ended : bool)
    : option (bool * Proc * ByteBuffer) :=
  match pc p with
  | Reading base got (size :: rest) =>
      match inbox with
      | [] => if peer_ended then Some (false, MkProc Ended (buf p), []) else None
      | _ =>
          let r := returned allow (size - got) inbox in
          Some (true, MkProc (next_pc base got r size rest) (put_bytes (buf p) (base + got) (take r inbox)), drop r inbox)
      end
  | _ => None
  end.

(** A turn of the parent. Its loop goes round when a message is in, and is left when all
    the rounds are made or the peer is gone (a [write] then fails). *)
Definition parent_step (allow : nat) (s : Pair) : Pair :=
  match pc (parent s) with
  | Ended => s
  | Writing _ =>
      if (round s <? n) && negb (is_ended (child s)) then
        MkPair (MkProc (Reading 0 0 (sizes sh)) (buf (parent s))) (child s)
          (to_child s ++ buf (parent s)) (to_parent s) (round s) (reads s)
      else MkPair (MkProc Ended (buf (parent s))) (child s) (to_child s) (to_parent s) (round s) (reads s)
  | Reading _ _ _ =>
      match read_step allow (parent s) (to_parent s) (is_ended (child s)) with
      | None => s
      | Some (data, p, inbox) =>
          MkPair p (child s) (to_child s) inbox
            (match pc p with Writing _ => round s + 1 | _ => round s end)
            (if data then S (reads s) else reads s)
      end
  end.

(** A turn of the child: read a message, write back what was read, until the peer is gone. *)
Definition child_step (allow : nat) (s : Pair) : Pair :=
  match pc (child s) with
  | Ended => s
  | Writing k =>
      if is_ended (parent s) then
        MkPair (parent s) (MkProc Ended (buf (child s))) (to_child s) (to_parent s) (round s) (reads s)
      else
        MkPair (parent s) (MkProc (Reading 0 0 (sizes sh)) (buf (child s)))
          (to_child s) (to_parent s ++ take k (buf (child s))) (round s) (reads s)
  | Reading _ _ _ =>
      match read_step allow (child s) (to_child s) (is_ended (parent s)) with
      | None => s
      | Some (_, p, inbox) => MkPair (parent s) p inbox (to_parent s) (round s) (reads s)
      end
  end.

(** Which process moves, and what the kernel returns if it reads. *)
Inductive Move := Parent (allow : nat) | Child (allow : nat).
Definition pair_step (s : Pair) (m : Move) : Pair :=
  match m with Parent allow => parent_step allow s | Child allow => child_step allow s end.
Definition pair_run (moves : list Move) (s : Pair) : Pair := foldl pair_step s moves.

(** After [fork]: [junk] is the child's buffer, which nothing initialises. *)
Definition pair_start (message junk : ByteBuffer) : Pair :=
  MkPair (MkProc (Writing (message_size sh)) message) (MkProc (Reading 0 0 (sizes sh)) junk) [] [] 0 0.
End Probe.

(** The two programs from [fork] to the end of their loops; [moves] is what the scheduler
    and the kernel do. *)
Definition framing_probe (split : bool) (n : Z) (junk : ByteBuffer) (moves : list Move) : Pair :=
  let sh := framing_shape split in pair_run sh n moves (pair_start sh (repeat Byte.x00 (4 + kBody)) junk).
Definition ping : ByteBuffer := [Byte.x70; Byte.x69; Byte.x6e; Byte.x67] ++ repeat Byte.x00 16.
Definition pingpong_probe (n : Z) (junk : ByteBuffer) (moves : list Move) : Pair :=
  pair_run pingpong_shape n moves (pair_start pingpong_shape ping junk).

(** * Every round trip is made *)

(** Whole reads: the kernel never returns less than there is room for. *)
Definition allows (sh : Shape) (m : Move) : bool :=
  match m with Parent allow | Child allow => message_size sh <=? allow end%nat.
Definition is_parent (m : Move) : bool := match m with Parent _ => true | Child _ => false end.

Section Probes.
Variables (sh : Shape) (n : Z) (whole : bool) (message : ByteBuffer).
Hypothesis Hsizes : sizes sh <> [] /\ Forall (lt 0) (sizes sh).
Hypothesis Hexact : exact sh || whole = true.
Hypothesis Hmessage : length message = message_size sh.
#[local] Abbreviation M := (message_size sh).
#[local] Abbreviation L := (length (sizes sh)).
#[local] Abbreviation pair_step := (pair_step sh n).
#[local] Abbreviation pair_run := (pair_run sh n).

(** Waiting for a message, none of it read. *)
Definition idle (p : Proc) : Prop := pc p = Reading 0 0 (sizes sh) /\ length (buf p) = M.

(** Part of the message is in the buffer and the rest in the socket; [k] parts to go. *)
Definition midway (p : Proc) (inbox : ByteBuffer) (k : nat) : Prop :=
  exists base got size rest, pc p = Reading base got (size :: rest) /\ (base + size + sum_list rest)%nat = M /\
    (got < size)%nat /\ Forall (lt 0) rest /\ (whole = true -> got = 0%nat) /\ k = S (length rest) /\
    length (buf p) = M /\ take (base + got) (buf p) ++ inbox = message.

Lemma idle_midway p : idle p -> midway p message L.
Proof.
  intros [Hp Hl]. destruct Hsizes as [Hne Hpos]. destruct (sizes sh) as [|size rest] eqn:Es; [done|].
  apply Forall_cons_1 in Hpos as [? ?]. assert (EM : M = (size + sum_list rest)%nat) by (unfold message_size; by rewrite Es).
  exists 0%nat, 0%nat, size, rest. by split_and!.
Qed.

Lemma put_bytes_prefix buffer at_ bytes : (at_ + length bytes <= length buffer)%nat ->
  take (at_ + length bytes) (put_bytes buffer at_ bytes) = take at_ buffer ++ bytes /\
  length (put_bytes buffer at_ bytes) = length buffer.
Proof.
  intros Hl. unfold put_bytes. rewrite app_assoc. split.
  - rewrite take_app_le, take_ge; [done|..]; rewrite length_app, length_take; lia.
  - rewrite !length_app, length_take, length_drop. lia.
Qed.

(** A [read] takes the message on, and completes it at its last byte. *)
Lemma midway_read allow p inbox k peer_ended :
  midway p inbox k -> (whole = true -> (M <= allow)%nat) ->
  exists p' inbox', read_step sh allow p inbox peer_ended = Some (true, p', inbox') /\
    (length inbox' < length inbox)%nat /\
    ((exists k', midway p' inbox' k' /\ (k' <= k <= S k')%nat /\ (whole = true -> k = S k')) \/
     pc p' = Writing M /\ buf p' = message /\ inbox' = [] /\ k = 1%nat).
Proof.
  intros (base & got & size & rest & Hp & Hsum & Hgot & Hrest & Hw & -> & Hbuf & Hm) Hallow.
  assert (Hin : (length inbox = size - got + sum_list rest)%nat).
  { apply (f_equal length) in Hm. rewrite length_app, length_take, Hmessage in Hm. lia. }
  unfold read_step. rewrite Hp. destruct inbox as [|b inbox0] eqn:Ei; [cbn in Hin; lia|]. rewrite <- Ei in *. clear b inbox0 Ei.
  set (r := returned allow (size - got) inbox).
  assert (Hr : (1 <= r <= size - got)%nat) by (unfold r, returned; lia).
  assert (Hrw : whole = true -> r = size) by (intros H; unfold r, returned; specialize (Hallow H); specialize (Hw H); lia).
  assert (Hlr : length (take r inbox) = r) by (rewrite length_take; lia).
  destruct (put_bytes_prefix (buf p) (base + got) (take r inbox)) as [Htake Hlen]; [lia|]. rewrite Hlr in Htake.
  do 2 eexists. split; [done|]. split; [rewrite length_drop; lia|].
  assert (Hm' : take (base + got + r) (put_bytes (buf p) (base + got) (take r inbox)) ++ drop r inbox = message).
  { rewrite Htake, <- app_assoc, take_drop. exact Hm. }
  unfold next_pc. destruct (exact sh && (got + r <? size)%nat) eqn:Econt.
  - apply andb_true_iff in Econt as [_ Econt%Nat.ltb_lt]. left. exists (S (length rest)). split; [|split; [lia|]].
    + exists base, (got + r)%nat, size, rest. cbn [pc buf]. rewrite Nat.add_assoc. split_and!; try done; try lia.
      intros H. specialize (Hrw H). lia.
    + intros H. specialize (Hrw H). lia.
  - assert (Hfull : (got + r = size)%nat).
    { destruct (exact sh); cbn in Econt; [apply Nat.ltb_ge in Econt; lia|]. specialize (Hrw Hexact). lia. }
    rewrite <- Nat.add_assoc, Hfull in *. destruct rest as [|size' rest].
    + right. cbn [pc buf]. cbn in Hsum, Hin. assert (base + size = M)%nat as E by lia. rewrite E in *.
      assert (drop r inbox = []) as Hd by (apply drop_ge; lia). rewrite Hd, app_nil_r, take_ge in Hm' by lia. by split_and!.
    + left. exists (S (length rest)). split; [|split; [cbn; lia|done]]. apply Forall_cons_1 in Hrest as [? Hrest].
      exists (base + size)%nat, 0%nat, size', rest. cbn [pc buf]. cbn in Hsum. rewrite Nat.add_0_r. split_and!; try done; lia.
Qed.

(** The parent's [read]s so far: at least [lower], and no more if they are whole. *)
Definition counted (r : nat) (lower : nat) : Prop := (lower <= r)%nat /\ (whole = true -> r = lower).

(** Turns of a round trip, at most: two writes and a byte per read; and for the rounds
    after this one with the end of both processes. *)
Definition round_turns : nat := 2 * M + 2.
Definition turns_after (i : Z) : nat := Z.to_nat (n - i) * round_turns + 2.
#[local] Abbreviation rounds := (Z.max 0 n).

(** Where the one message is; [left] bounds the turns to come and [mover] is the process
    that can move ([true]: the parent). *)
Inductive pair_inv : Pair -> nat -> option bool -> Prop :=
| AtHome c w i r : idle c -> 0 <= i <= rounds -> counted r (Z.to_nat i * L) ->
    pair_inv (MkPair (MkProc (Writing w) message) c [] [] i r) (turns_after i) (Some true)
| Outward p c inbox k i r : idle p -> midway c inbox k -> 0 <= i < n -> counted r (Z.to_nat i * L) ->
    pair_inv (MkPair p c inbox [] i r) (length inbox + 1 + M + turns_after (i + 1)) (Some false)
| AtPeer p i r : idle p -> 0 <= i < n -> counted r (Z.to_nat i * L) ->
    pair_inv (MkPair p (MkProc (Writing M) message) [] [] i r) (1 + M + turns_after (i + 1)) (Some false)
| Homeward p c inbox k i r : midway p inbox k -> (k <= L)%nat -> idle c -> 0 <= i < n ->
    counted r (Z.to_nat i * L + (L - k)) ->
    pair_inv (MkPair p c [] inbox i r) (length inbox + turns_after (i + 1)) (Some true)
| ParentEnded c r : idle c -> counted r (Z.to_nat rounds * L) ->
    pair_inv (MkPair (MkProc Ended message) c [] [] rounds r) 1 (Some false)
| BothEnded b r : counted r (Z.to_nat rounds * L) ->
    pair_inv (MkPair (MkProc Ended message) (MkProc Ended b) [] [] rounds r) 0 None.

(** A process that waits on an empty socket whose other end is open is blocked. *)
Lemma idle_blocked p allow peer_ended : idle p -> read_step sh allow p [] peer_ended =
  if peer_ended then Some (false, MkProc Ended (buf p), []) else None.
Proof. intros [Hp _]. unfold read_step. rewrite Hp. destruct Hsizes as [Hne _]. by destruct (sizes sh). Qed.

Lemma midway_open p inbox k : midway p inbox k -> is_ended p = false.
Proof. intros (? & ? & ? & ? & Hp & _). unfold is_ended. by rewrite Hp. Qed.

Lemma idle_open p : idle p -> is_ended p = false.
Proof. intros [Hp _]. unfold is_ended. by rewrite Hp. Qed.

Lemma mover_parent s left allow : pair_inv s left (Some true) -> (whole = true -> (M <= allow)%nat) ->
  exists left' mover, pair_inv (parent_step sh n allow s) left' mover /\ (left' < left)%nat.
Proof.
  intros Hinv Ha. inversion Hinv as [c w i r Hc Hi Hr| | |p c inbox k i r Hp Hk Hc Hi Hr| |]; subst;
    unfold parent_step; cbn [parent pc child round to_child to_parent reads buf app].
  - rewrite (idle_open c Hc). destruct (i <? n) eqn:Ei; cbn [negb andb].
    + apply Z.ltb_lt in Ei. do 2 eexists. split; [apply (Outward _ c message L); [by split|by apply idle_midway|lia|done]|].
      rewrite Hmessage. unfold turns_after, round_turns.
      assert (Z.to_nat (n - i) = S (Z.to_nat (n - (i + 1)))) as -> by lia. lia.
    + apply Z.ltb_ge in Ei. assert (i = rounds) as -> by lia. do 2 eexists. split; [by apply ParentEnded|]. unfold turns_after. lia.
  - pose proof Hp as (base & got & size & rest & Epc & _). rewrite Epc.
    destruct (midway_read allow p inbox k (is_ended c) Hp Ha) as (p' & inbox' & -> & Hlt & [(k' & Hp' & Hk' & Hw)|(Ep' & Eb' & -> & ->)]).
    + pose proof Hp' as (b' & g' & s' & r' & Epc' & _). rewrite Epc'. destruct Hr as [Hr1 Hr2].
      do 2 eexists. split; [apply (Homeward p' c inbox' k'); [done|lia|done|done|]|lia].
      split; [lia|]. intros H. specialize (Hr2 H). specialize (Hw H). lia.
    + rewrite Ep'. destruct p' as [pc' buf']. cbn [pc buf] in Ep', Eb'. subst pc' buf'. destruct Hr as [Hr1 Hr2].
      do 2 eexists. split; [apply AtHome; [done|lia|]|lia].
      assert (E : (Z.to_nat (i + 1) * L = Z.to_nat i * L + L)%nat) by (assert (Z.to_nat (i + 1) = S (Z.to_nat i)) as -> by lia; lia).
      unfold counted. rewrite E. split; [lia|]. intros H. specialize (Hr2 H). lia.
Qed.

Lemma mover_child s left allow : pair_inv s left (Some false) -> (whole = true -> (M <= allow)%nat) ->
  exists left' mover, pair_inv (child_step sh allow s) left' mover /\ (left' < left)%nat.
Proof.
  intros Hinv Ha. inversion Hinv as [|p c inbox k i r Hp Hc Hi Hr|p i r Hp Hi Hr| |c r Hc Hr|]; subst;
    unfold child_step; cbn [parent pc child round to_child to_parent reads buf app].
  - pose proof Hc as (base & got & size & rest & Epc & _). rewrite Epc.
    destruct (midway_read allow c inbox k (is_ended p) Hc Ha) as (c' & inbox' & -> & Hlt & [(k' & Hc' & _)|(Ec' & Eb' & -> & ->)]).
    + do 2 eexists. split; [by apply (Outward p c' inbox' k')|lia].
    + destruct c' as [pc' buf']. cbn [pc buf] in Ec', Eb'. subst pc' buf'. do 2 eexists. split; [by apply AtPeer|]. lia.
  - rewrite (idle_open p Hp), (take_ge message) by lia. do 2 eexists.
    split; [apply (Homeward p _ message L); [by apply idle_midway|lia|by split|done|]|rewrite Hmessage; lia].
    by rewrite Nat.sub_diag, Nat.add_0_r.
  - pose proof Hc as [Epc _]. rewrite Epc, idle_blocked by done. do 2 eexists. split; [by apply BothEnded|]. lia.
Qed.

(** The other process is blocked, or has ended. *)
Lemma other_blocked s left mover m : pair_inv s left mover -> mover <> Some (is_parent m) -> pair_step s m = s.
Proof.
  intros Hinv Hne. destruct m as [allow|allow]; inversion Hinv; subst; try done; cbn [Baseline.pair_step];
    unfold parent_step, child_step; cbn [parent pc child round to_child to_parent reads buf]; try done.
  all: match goal with H : idle ?p |- context [read_step _ _ ?p [] _] => pose proof H as [Ep _]; rewrite Ep, idle_blocked by done end.
  all: match goal with H : midway _ _ _ |- _ => by rewrite (midway_open _ _ _ H) | _ => done end.
Qed.

Lemma pair_step_inv s left mover m : pair_inv s left mover -> (whole = true -> allows sh m = true) ->
  if decide (mover = Some (is_parent m))
  then exists left' mover', pair_inv (pair_step s m) left' mover' /\ (left' < left)%nat
  else pair_step s m = s.
Proof.
  intros Hinv Hw. destruct (decide _) as [->|Hne]; [|by eapply other_blocked].
  assert (Ha : forall a, allows sh m = (M <=? a)%nat -> whole = true -> (M <= a)%nat) by (intros a E H; apply Nat.leb_le; rewrite <- E; auto).
  destruct m as [allow|allow]; [by apply mover_parent; [|apply Ha]|by apply mover_child; [|apply Ha]].
Qed.

(** In moves that give both processes a turn something happens, while anything is left. *)
Lemma block_progress moves s left mover : pair_inv s left mover ->
  (whole = true -> Forall (fun m => allows sh m = true) moves) ->
  exists left' mover', pair_inv (pair_run moves s) left' mover' /\ (left' <= left)%nat /\
    (Exists (fun m => mover = Some (is_parent m)) moves -> (left' < left)%nat).
Proof.
  revert s left mover. induction moves as [|m moves IH]; intros s left mover Hinv Hw.
  { exists left, mover. split; [done|]. split; [done|]. by intros ?%Exists_nil. }
  assert (Hm : whole = true -> allows sh m = true) by (intros H; by apply Hw, Forall_cons_1 in H as [? _]).
  assert (Hms : whole = true -> Forall (fun m => allows sh m = true) moves) by (intros H; by apply Hw, Forall_cons_1 in H as [_ ?]).
  pose proof (pair_step_inv s left mover m Hinv Hm) as Hst.
  change (pair_run (m :: moves) s) with (pair_run moves (pair_step s m)). destruct (decide _) as [E|E].
  - destruct Hst as (left1 & mover1 & Hinv1 & Hlt). destruct (IH _ _ _ Hinv1 Hms) as (left' & mover' & H1 & H2 & _).
    exists left', mover'. split; [done|]. split; [lia|]. intros _. lia.
  - rewrite Hst. destruct (IH _ _ _ Hinv Hms) as (left' & mover' & H1 & H2 & H3). exists left', mover'.
    split; [done|]. split; [done|]. intros [?|?]%Exists_cons; [done|auto].
Qed.

Definition both_move (moves : list Move) : Prop :=
  Exists (fun m => is_parent m = true) moves /\ Exists (fun m => is_parent m = false) moves.

Lemma blocks_finish blocks s left mover : pair_inv s left mover -> Forall both_move blocks ->
  (whole = true -> Forall (fun m => allows sh m = true) (concat blocks)) -> (left <= length blocks)%nat ->
  pair_inv (pair_run (concat blocks) s) 0 None.
Proof.
  assert (Hzero : forall s left mover, pair_inv s left mover -> left = 0%nat -> mover = None).
  { intros ? ? ? H E. inversion H; subst; try done; unfold turns_after in *; lia. }
  revert s left mover. induction blocks as [|b blocks IH]; intros s left mover Hinv Hb Hw Hl.
  { cbn in Hl. assert (left = 0%nat) as -> by lia. by rewrite (Hzero _ _ _ Hinv eq_refl) in Hinv. }
  apply Forall_cons_1 in Hb as [[Hp Hc] Hb]. cbn [concat] in *. unfold pair_run. rewrite foldl_app.
  destruct (block_progress b s left mover Hinv) as (left' & mover' & Hinv' & Hle & Hlt).
  { intros H. by apply Hw, Forall_app in H as [? _]. }
  apply (IH _ left' mover'); [done|done|intros H; by apply Hw, Forall_app in H as [_ ?]|]. cbn in Hl.
  destruct mover as [[]|].
  - assert (left' < left)%nat; [|lia]. apply Hlt. eapply Exists_impl; [exact Hp|]. by intros ? ->.
  - assert (left' < left)%nat; [|lia]. apply Hlt. eapply Exists_impl; [exact Hc|]. by intros ? ->.
  - inversion Hinv; subst. lia.
Qed.

(** [n] round trips made, both processes at their end, the sockets empty and the parent's
    buffer as it was. *)
Definition round_trips_made (s : Pair) : Prop :=
  pc (parent s) = Ended /\ pc (child s) = Ended /\ round s = Z.max 0 n /\ buf (parent s) = message /\
  to_child s = [] /\ to_parent s = [].

Lemma probe_finishes junk blocks :
  length junk = M -> Forall both_move blocks ->
  (whole = true -> Forall (fun m => allows sh m = true) (concat blocks)) ->
  (turns_after 0 <= length blocks)%nat ->
  let s := pair_run (concat blocks) (pair_start sh message junk) in
  round_trips_made s /\ (Z.to_nat n * L <= reads s)%nat /\ (whole = true -> reads s = (Z.to_nat n * L)%nat).
Proof.
  intros Hj Hb Hw Hl s.
  assert (Hstart : pair_inv (pair_start sh message junk) (turns_after 0) (Some true)).
  { apply AtHome; [by split|lia|by split]. }
  pose proof (blocks_finish blocks _ _ _ Hstart Hb Hw Hl) as Hend. fold s in Hend.
  clearbody s. inversion Hend as [| | | | |b r [Hr1 Hr2]]. subst s. cbn. assert (Z.to_nat rounds = Z.to_nat n) as E by lia.
  rewrite E in *. by split_and!.
Qed.
End Probes.


(** Split reads, one byte at a time, three round trips. *)
Definition sample_blocks : list (list Move) := repeat [Child 1; Parent 1] 260.


(** * The timer *)

Definition kSamples : nat := 2000.
(** In nanoseconds. *)
Definition kInterval : Z := 500000.

Section Timer.
Variables (cast_unrepresentable : double -> Z) (start : Z) (wake : nat -> Z).

Definition due (i : nat) : Z := start + kInterval * Z.of_nat i.

(** [wake i]: the clock after the [sleep_until] of turn [i]. *)
Definition late : list Z := map (fun i => wake i - due i) (seq 0 kSamples).

(** [static_cast<std::size_t>] of a [double] rounds towards zero. *)
Definition cast_to_size (x : double) : Z :=
  match sf x with
  | S754_zero _ => 0
  | S754_finite s m e =>
      let v := if 0 <=? e then Zpos m * 2 ^ e else Zpos m / 2 ^ (- e) in
      let v := if s then - v else v in
      if bool_decide (fits 64 v) then v else cast_unrepresentable x
  | _ => cast_unrepresentable x
  end.

Definition at_index (p : double) (size : Z) : Z := cast_to_size (d_mul p (double_of_Z (size - 1))).

(** [None] where the code indexes past the end. *)
Definition at_ (sorted : list Z) (p : double) : option Z := sorted !! Z.to_nat (at_index p (zlen sorted)).

(** p50, p90, p99 and the maximum, before they are divided for printing. *)
Definition timer_report : list (option Z) :=
  let sorted := sort_samples late in
  [at_ sorted d0_50; at_ sorted d0_90; at_ sorted d0_99; last sorted].

Lemma length_late : length (sort_samples late) = kSamples.
Proof. rewrite sort_samples_perm. unfold late. by rewrite length_map, length_seq. Qed.

(** The indices the code computes. *)
Lemma timer_indices : at_index d0_50 2000 = 999 /\ at_index d0_90 2000 = 1799 /\ at_index d0_99 2000 = 1979.
Proof. by vm_compute. Qed.

Lemma at_lookup p : at_ (sort_samples late) p = sort_samples late !! Z.to_nat (at_index p 2000).
Proof. unfold at_, zlen. by rewrite length_late. Qed.

(** What the timer probe prints. [sleep_until] does not wake early, so the overshoots are
    not negative; no index is out of range; and the figures are, in order, the overshoots
    of rank 1000, 1800 and 1980 of the 2000 and the greatest. *)
Theorem timer_reports_overshoot : (forall i, due i <= wake i) ->
  exists v50 v90 v99 v, timer_report = [Some v50; Some v90; Some v99; Some v] /\
    0 <= v50 <= v90 /\ v90 <= v99 <= v /\ Forall (fun x => x ∈ late) [v50; v90; v99; v].
Proof.
  intros Hw. pose proof (sort_samples_sorted late) as Hs. pose proof length_late as Hl.
  unfold timer_report. cbv zeta. rewrite !at_lookup. destruct timer_indices as (-> & -> & ->). rewrite last_lookup, Hl.
  set (l := sort_samples late) in *.
  assert (Hlook : forall i, (i < 2000)%nat -> exists v, l !! i = Some v /\ v ∈ late).
  { intros i Hi. destruct (lookup_lt_is_Some_2 l i) as [v Hv]; [by rewrite Hl|]. exists v. split; [done|].
    eapply elem_of_Permutation_proper; [symmetry; apply sort_samples_perm|]. by eapply list_elem_of_lookup_2. }
  destruct (Hlook 999%nat) as (v1 & E1 & I1); [lia|]. destruct (Hlook 1799%nat) as (v2 & E2 & I2); [lia|].
  destruct (Hlook 1979%nat) as (v3 & E3 & I3); [lia|]. destruct (Hlook 1999%nat) as (v4 & E4 & I4); [lia|].
  exists v1, v2, v3, v4. split_and!.
  - by f_equal; [|f_equal; [|f_equal; [|f_equal]]].
  - apply list_elem_of_In, in_map_iff in I1 as (i & <- & _). specialize (Hw i). lia.
  - by apply (sorted_lookup _ l 999 1799 _ _ Hs); [lia|..].
  - by apply (sorted_lookup _ l 1799 1979 _ _ Hs); [lia|..].
  - by apply (sorted_lookup _ l 1979 1999 _ _ Hs); [lia|..].
  - repeat (apply Forall_cons_2; [assumption|]). apply Forall_nil_2.
Qed.
End Timer.

Lemma timer_reports_overshoot_witness :
  exists v50 v90 v99 v, timer_report (fun _ => 0) 0 (due 7) = [Some v50; Some v90; Some v99; Some v] /\ 0 <= v50 <= v90.
Proof.
  destruct (timer_reports_overshoot (fun _ => 0) 0 (due 7)) as (v50 & v90 & v99 & v & E & H & _).
  - intros i. unfold due. lia.
  - exists v50, v90, v99, v. split; [exact E|exact H].
Defined.
